(* ===== verification/_CoqProject ===== *)
-Q . S2P
Prelude.v
RaftState.v
RaftVote.v
RaftAppend.v
RaftLeader.v
RaftRole.v
RaftThreads.v
RaftPool.v
RaftAlone.v
RaftProgress.v
RaftCluster.v
RaftRuns.v
Session.v
KvServer.v
KvPool.v
KvCluster.v
KvClient.v
KvService.v
ShardMaster.v
SmCluster.v
ShardClient.v
Bitset.v
LinHeap.v
LinCheck.v
LinModel.v
LinKv.v
KvLin.v
GoLib.v
MrTask.v
MrMaster.v
MrApps.v
MrWorker.v
MrRpc.v
MrSchedule.v
MrDistributed.v
MrMain.v
LabServer.v
LabRpc.v
LabGob.v
RaftHarness.v
RaftChecks.v
ServiceHarness.v
SmHarness.v
ShardKv.v
ShardHarness.v
