(* ===== verification/Prelude.v ===== *)
(** * A verification development for the 6.824 labs

    The program ([src/src/]) is a set of distributed systems in Go: Raft, a key/value service
    and a shard master replicated with it, the client of a sharded key/value service, a
    MapReduce library with two applications, and what they run and are tested on: a simulated
    network, a checking wrapper of [encoding/gob], a linearizability checker, and test
    harnesses.  The definitions are translated from the code function by function; the
    theorems say what the functions do, where they fall short of what they are for as well.

    ** Conventions

    - Go code that returns, panics or blocks is a value of [outcome] (below); an index out of
      range, a nil dereference, [log.Fatal] and a failed test are [Panic].
    - [int] is [Z]; where a width matters its wrap-around is written out ([i32], [i64], [u64]).
    - A slice is a list with [zlookup], [zinsert] and the slice operations of this file; a map
      is a [gmap].  Where code iterates over a map, the order is a parameter ([range]).
    - Goroutines, timers, random numbers and answers of the network are inputs: lists of
      events, answers or steps in some order.
    - How finely goroutines are interleaved differs, and each file says it.  [RaftThreads] and
      [RaftPool] cut the whole of [raft.go] at every unlocked read or write, every critical section,
      every send on [applyCh] and every remote call of a handler.  The shard master's message loop,
      [LabRpc]'s [Call] and the service loops of [KvService] are cut where the code waits.  The other
      files about Raft ([RaftRole], [RaftProgress], [RaftCluster], [RaftRuns] and what is built on
      them) run a handler, a [select] case, or a goroutine's reaction to one answer (with the up to
      five calls of [sendSnapShot]) to its end before the next begins; there the test of
      [len(rf.AENotifyChan)] and the send are one step, and a send on [applyCh] does not wait.
      [RaftAlone] proves that a thread nobody interrupts does just that.
    - Bytes that [labgob] or JSON encode are lists of the values encoded.
    - Loops that need not end get what they read as a list and give no result when the list is
      too short; fuel appears in [LinCheck.check_loop] (the theorem gives the bound
      [check_fuel]), [LabGob.checkType] (more than the number of types is enough) and
      [LabGob.checkDefault1] (3, since the code looks three levels down).

    ** Raft: [raft/raft.go], [raft/persister.go]

    [RaftState] has the peer's fields, the persister, the arithmetic of indices in a log whose
    beginning is in a snapshot, [persist], [readPersist], [TakeSnapshots], [InstallSnapShot],
    [Start], [Make] and [Kill]; [RaftVote] elections; [RaftAppend] the [AppendEntry] handler;
    [RaftLeader] what the leader's goroutines do with answers, the commit rule and the
    back-off; [RaftRole] puts them together as the transition system of a peer's life, whose
    steps are the cases of the [select] statements and the RPC handlers; [RaftCluster] joins
    peers by a network that loses, delays, repeats and reorders, with crashes at any point.
    [RaftThreads] has the same code once more, as threads; [RaftPool] runs the threads of a peer
    against each other.
    Theorems: whatever the interleaving of a peer's goroutines, its service is sent one command for
    each index, in order, while no snapshot is installed ([RaftPool]); the invariant of a peer whose
    handlers do not overlap ([RaftRole]); what a peer recovers after a crash, that a vote needs a log
    that is as recent, that a leader's requests say what its log says, that accepted entries agree
    with the leader's log and that the leader records as much as was accepted ([RaftProgress]), that
    what the leader commits is on a majority as far as it knows, that a cluster delivers nothing that
    was not started.
    Several findings are theorems too: a snapshot that is overtaken by the command after it, so that
    a committed write is undone ([KvPool]); a handler that waits on [AENotifyChan] although it looked
    first ([RaftPool]); two leaders in one term, a term that goes back, stale entries that are kept, a
    log that is misaligned after a crash, commits of old terms; and [RaftRuns] has runs of three peers
    that end with different commands at one index, one of them without a crash or a lost message.

    ** Services: [kvraft/], [shardmaster/], [shardkv/]

    [Session] is an interface: a service that remembers for every client the last request it
    applied; replays and retries are then harmless.  [KvServer] and [ShardMaster] are its two
    instances, with their handlers; [KvCluster] runs the key/value servers on the cluster of
    [RaftCluster], [SmCluster] the shard masters; [KvClient], [ShardClient] and [ShardKv] are the
    clients.  [KvService] adds clerks to [KvCluster]: the loops of [Get] and [PutAppend] on both
    sides, retries, and the history of the calls.
    Theorems: replicas that applied the same commands agree, snapshots included; answers are
    those of the log; every request takes effect once; whatever Raft agrees on, stores,
    configurations and answers come from commands that clients started; [rebalance] computes a block
    assignment; the history of configurations does not depend on the order of map iteration;
    the sharded client asks only the group of the key's shard.

    [KvLin] proves the key/value service linearizable under three conditions, which the step
    relation [promised_step] has built in because the code does not always meet them.
    [raft_promise]: there is one log of started commands that every peer delivers to its server, in
    order, with snapshots standing for a part of it (the runs of [RaftRuns] break it).  [acks_own]:
    what [PutAppend] relies on without checking it, the entry at the index it waits for is its own
    (the result of [Start] is ignored).  [numbers_fit]: the numbers of clients and requests fit the
    fields they travel in.  The linearization puts a write at the place of its first copy in the log
    and a read at the place whose state it returns; [service_passes_check] is the composition with
    the checker: the test that runs it on such a history, with a time limit, passes.

    ** Linearizability checker: [linearizability/]

    [Bitset], [LinHeap] (the doubly linked list that entries are lifted out of), [LinCheck]
    (the search), [LinModel] (histories, entry points), [LinKv] (the key/value model) and [KvLin]
    (histories of the service).
    Theorems: the search ends and answers whether a linearization exists, and for the
    key/value model the check by keys decides it for the whole store, when calls and returns that
    happen at the same time are not a problem ([timed]).

    ** MapReduce: [mapreduce/], [main/wc.go], [main/ii.go]

    [GoLib] (what is used of the standard library: UTF-8, FNV-1a, [Itoa], [FieldsFunc]),
    [MrTask] ([doMap], [doReduce]), [MrMaster] (merging, sequential jobs), [MrApps] (the functions
    of word count and inverted index), [MrWorker], [MrRpc] (listeners, calls, the accept loops of
    master and workers, from the set-up of [RunWorker] to its end), [MrSchedule],
    [MrDistributed] and [MrMain] ([main] over its arguments).  Theorems: a sequential job computes
    the reduction of all values of every key; a distributed job leaves the files of the sequential
    one when its batches are full; the two programs compute word counts and an index in either
    mode; [schedule] loses no task; a master's list has exactly the workers whose registration
    returned true, and a worker takes as many connections as it allows.

    ** Network and encoding: [labrpc/labrpc.go], [labgob/labgob.go]

    [LabServer] (dispatch by method name, [ClientEnd.Call]), [LabRpc] (the network and
    [ProcessReq]; [Request] is the same with the goroutine it starts and the server's state), [LabGob]
    (the checks on types and variables).  Theorems: a call runs the method it names exactly once; a
    deleted server never answers; every request is answered in the end, with bounds on the delay; the
    checks report exactly lower-case fields and values decoded over.

    ** Test harnesses: [raft/config.go], [kvraft/config.go], [shardmaster/config.go],
    [shardkv/config.go]

    [RaftHarness] (peers, ends, persisters), [RaftChecks] (the checks of the tests),
    [ServiceHarness] (over a class [Service], with an instance for each of the two kinds of
    servers), [SmHarness], [ShardHarness].  Their networks are those of [LabRpc], their peers
    those of [RaftState].  Theorems: who reaches whom in every state of a test, what a
    restarted server begins with, that what [one] and [nCommitted] return is agreed on, that a
    partition isolates the leader, that the names groups join with lead to their servers.

    ** Not modelled

    [DPrintf] and the other debug output; [checkTimeout], [begin], [end] and the other
    statistics of the tests; [randstring] and [nrand], whose values are inputs; the programs of
    [main/] for packages that are not in the repository ([diskvd], [lockc], [lockd], [pbc], [pbd], [viewd]); the
    encodings of [encoding/gob] and [encoding/json]; the tests themselves.  Real time is left
    out: a timer is an event that can come at any point. *)

From stdpp Require Export base tactics list sorting gmap strings fin_maps.
From Stdlib Require Export ZArith Lia.

#[global] Open Scope Z_scope.

(** ** Outcomes of Go code

    A piece of Go code either returns, panics (index out of range, nil
    dereference, explicit [panic]) or blocks (a send on a full channel). *)
Inductive outcome (A : Type) : Type :=
| Ok (a : A)
| Panic
| Block.
Arguments Ok {A} a.
Arguments Panic {A}.
Arguments Block {A}.

#[export] Instance outcome_ret : MRet outcome := fun A a => Ok a.
#[export] Instance outcome_bind : MBind outcome := fun A B f m =>
  match m with Ok a => f a | Panic => Panic | Block => Block end.

(** [guard_go b]: go on when [b] holds, panic otherwise. *)
Definition guard_go (b : bool) : outcome unit := if b then Ok tt else Panic.

(** An [option] read whose absence is a Go panic. *)
Definition must {A} (o : option A) : outcome A :=
  match o with Some a => Ok a | None => Panic end.

Lemma bind_Ok {A B} (m : outcome A) (f : A → outcome B) b :
  m ≫= f = Ok b ↔ ∃ a, m = Ok a ∧ f a = Ok b.
Proof. destruct m; simpl; naive_solver. Qed.

Lemma must_Ok {A} (o : option A) a : must o = Ok a ↔ o = Some a.
Proof. destruct o; simpl; naive_solver. Qed.

Lemma guard_go_Ok b u : guard_go b = Ok u ↔ b = true.
Proof. destruct b, u; simpl; naive_solver. Qed.

(** ** Slices indexed by Go [int]s *)
Section slices.
Context {A : Type}.
Implicit Types (l : list A) (i : Z) (x : A).

(** [len(l)] *)
Definition len l : Z := Z.of_nat (length l).

(** [l[i]], absent when the index is out of range. *)
Definition zlookup l i : option A :=
  if decide (0 ≤ i) then l !! Z.to_nat i else None.

(** [l[i] = x], absent when the index is out of range. *)
Definition zinsert l i x : option (list A) :=
  if decide (0 ≤ i < len l) then Some (<[Z.to_nat i := x]> l) else None.

(** [l[i:]], [l[:j]] and [l[i:j]], absent when the bounds are not within
    the length of the slice. *)
Definition slice_from l i : option (list A) :=
  if decide (0 ≤ i ≤ len l) then Some (drop (Z.to_nat i) l) else None.
Definition slice_to l j : option (list A) :=
  if decide (0 ≤ j ≤ len l) then Some (take (Z.to_nat j) l) else None.
Definition slice l i j : option (list A) :=
  if decide (0 ≤ i ≤ j ∧ j ≤ len l)
  then Some (take (Z.to_nat (j - i)) (drop (Z.to_nat i) l)) else None.

Lemma len_nonneg l : 0 ≤ len l.
Proof. unfold len. lia. Qed.
Lemma len_nil : len (@nil A) = 0.
Proof. done. Qed.
Lemma len_cons x l : len (x :: l) = len l + 1.
Proof. unfold len. simpl. lia. Qed.
Lemma len_app l1 l2 : len (l1 ++ l2) = len l1 + len l2.
Proof. unfold len. rewrite length_app. lia. Qed.
Lemma len_insert l n x : len (<[n := x]> l) = len l.
Proof. unfold len. by rewrite length_insert. Qed.
Lemma len_take l n : len (take n l) = Z.min (Z.of_nat n) (len l).
Proof. unfold len. rewrite length_take. lia. Qed.
Lemma len_drop l n : len (drop n l) = Z.max 0 (len l - Z.of_nat n).
Proof. unfold len. rewrite length_drop. lia. Qed.

Lemma zlookup_is_Some l i : is_Some (zlookup l i) ↔ 0 ≤ i < len l.
Proof.
  unfold zlookup, len. case_decide.
  - rewrite lookup_lt_is_Some. lia.
  - split; [by intros [? ?]|lia].
Qed.

Lemma zlookup_Some_lt l i x : zlookup l i = Some x → 0 ≤ i < len l.
Proof. intros H. apply zlookup_is_Some. eauto. Qed.

Lemma zlookup_lt_Some l i : 0 ≤ i < len l → ∃ x, zlookup l i = Some x.
Proof. intros H. by apply zlookup_is_Some in H as [x ?]; eauto. Qed.

Lemma zlookup_None l i : zlookup l i = None ↔ i < 0 ∨ len l ≤ i.
Proof.
  destruct (zlookup l i) eqn:E.
  - apply zlookup_Some_lt in E. naive_solver lia.
  - split; [|done]. intros _.
    destruct (decide (0 ≤ i < len l)) as [H|]; [|lia].
    apply zlookup_lt_Some in H as [? ?]. congruence.
Qed.

Lemma zlookup_nat l (n : nat) : zlookup l (Z.of_nat n) = l !! n.
Proof. unfold zlookup. rewrite decide_True by lia. by rewrite Nat2Z.id. Qed.

Lemma zlookup_0_cons x l : zlookup (x :: l) 0 = Some x.
Proof. done. Qed.

Lemma zlookup_app_l l1 l2 i : i < len l1 → zlookup (l1 ++ l2) i = zlookup l1 i.
Proof.
  unfold zlookup, len. intros. case_decide; [|done].
  rewrite lookup_app_l; [done|lia].
Qed.

Lemma zlookup_app_r l1 l2 i :
  len l1 ≤ i → zlookup (l1 ++ l2) i = zlookup l2 (i - len l1).
Proof.
  unfold zlookup, len. intros. rewrite !decide_True by lia.
  rewrite lookup_app_r by lia. f_equal. lia.
Qed.

Lemma zlookup_take l n i : i < Z.of_nat n → zlookup (take n l) i = zlookup l i.
Proof.
  unfold zlookup. intros. case_decide; [|done]. rewrite lookup_take_lt; [done|lia].
Qed.

Lemma zlookup_drop l n i :
  0 ≤ i → zlookup (drop n l) i = zlookup l (Z.of_nat n + i).
Proof.
  unfold zlookup. intros. rewrite !decide_True by lia.
  rewrite lookup_drop. f_equal. lia.
Qed.

Lemma zlookup_insert_eq l n x :
  (n < length l)%nat → zlookup (<[n := x]> l) (Z.of_nat n) = Some x.
Proof. intros. rewrite zlookup_nat. by apply list_lookup_insert_eq. Qed.

Lemma zlookup_insert_ne l n x i :
  i ≠ Z.of_nat n → zlookup (<[n := x]> l) i = zlookup l i.
Proof.
  unfold zlookup. intros. case_decide; [|done].
  rewrite list_lookup_insert_ne; [done|lia].
Qed.

Lemma zinsert_Some l i x l' :
  zinsert l i x = Some l' ↔ 0 ≤ i < len l ∧ l' = <[Z.to_nat i := x]> l.
Proof. unfold zinsert. case_decide; naive_solver. Qed.

Lemma zlookup_zinsert l l' i x j :
  zinsert l i x = Some l' → zlookup l' j = if decide (j = i) then Some x else zlookup l j.
Proof.
  intros [Hi ->]%zinsert_Some. destruct (decide (j = i)) as [->|Hne].
  - rewrite <- (Z2Nat.id i) at 2 by lia. apply zlookup_insert_eq. unfold len in Hi. lia.
  - apply zlookup_insert_ne. lia.
Qed.

(** An assignment to an element that exists. *)
Lemma zlookup_set l i x y j : zlookup l i = Some y →
  zlookup (<[Z.to_nat i := x]> l) j = if decide (j = i) then Some x else zlookup l j.
Proof.
  intros Hi%zlookup_Some_lt. rewrite (zlookup_zinsert l _ i x) by by apply zinsert_Some.
  by repeat case_decide.
Qed.

Lemma len_zinsert l l' i x : zinsert l i x = Some l' → len l' = len l.
Proof. intros [_ ->]%zinsert_Some. apply len_insert. Qed.

Lemma slice_Some l i j l' :
  slice l i j = Some l' ↔
  0 ≤ i ≤ j ∧ j ≤ len l ∧ l' = take (Z.to_nat (j - i)) (drop (Z.to_nat i) l).
Proof. unfold slice. case_decide; naive_solver. Qed.

Lemma list_eq_zlookup l1 l2 :
  (∀ i, 0 ≤ i → zlookup l1 i = zlookup l2 i) → l1 = l2.
Proof.
  intros H. apply list_eq. intros n.
  specialize (H (Z.of_nat n)). rewrite !zlookup_nat in H. apply H. lia.
Qed.
(** A property of all elements of a slice holds of what is read out of it and of its parts. *)
Lemma Forall_zlookup (P : A → Prop) l i x : Forall P l → zlookup l i = Some x → P x.
Proof. unfold zlookup. intros Hl H. case_decide; [|done]. by eapply Forall_lookup_1. Qed.

Lemma Forall_zinsert (P : A → Prop) l i x l' :
  Forall P l → P x → zinsert l i x = Some l' → Forall P l'.
Proof. intros Hl Hx [_ ->]%zinsert_Some. by apply Forall_insert. Qed.

Lemma Forall_slice (P : A → Prop) l i j l' : Forall P l → slice l i j = Some l' → Forall P l'.
Proof. intros Hl (_ & _ & ->)%slice_Some. by apply Forall_take, Forall_drop. Qed.

Lemma Forall_slice_from (P : A → Prop) l i l' : Forall P l → slice_from l i = Some l' → Forall P l'.
Proof. unfold slice_from. intros Hl H. case_decide; simplify_eq. by apply Forall_drop. Qed.

Lemma Forall_slice_to (P : A → Prop) l j l' : Forall P l → slice_to l j = Some l' → Forall P l'.
Proof. unfold slice_to. intros Hl H. case_decide; simplify_eq. by apply Forall_take. Qed.

End slices.

Create Rewrite HintDb go_len.
#[export] Hint Rewrite @len_nil @len_cons @len_app @len_insert @len_take @len_drop : go_len.

(** Simplify the lengths in the goal and the context, then call [lia]. *)
Ltac len_solve := autorewrite with go_len in *;
  repeat match goal with
  | l : list ?A |- _ =>
      lazymatch goal with
      | _ : 0 ≤ len l |- _ => fail
      | _ => pose proof (len_nonneg l)
      end
  end; try lia.

(** Split every successful [bind], [must] and [guard_go] in the context. *)
Ltac go_inv :=
  repeat match goal with
  | H : _ ≫= _ = Ok _ |- _ => apply bind_Ok in H as (? & ? & H)
  | H : must _ = Ok _ |- _ => apply must_Ok in H
  | H : guard_go _ = Ok _ |- _ => apply guard_go_Ok in H
  | H : mret _ = Ok _ |- _ => unfold mret, outcome_ret in H
  | H : Ok _ = Ok _ |- _ => injection H as H; subst
  | H : Panic = Ok _ |- _ => discriminate H
  | H : Block = Ok _ |- _ => discriminate H
  | H : zinsert _ _ _ = Some _ |- _ => apply zinsert_Some in H as [? ->]
  end.

(** Boolean tests of the code as propositions. *)
Ltac go_bools :=
  repeat match goal with
  | H : _ && _ = true |- _ => apply andb_true_iff in H as [? ?]
  | H : _ || _ = false |- _ => apply orb_false_iff in H as [? ?]
  | H : negb _ = true |- _ => apply negb_true_iff in H
  | H : negb _ = false |- _ => apply negb_false_iff in H
  | H : bool_decide _ = true |- _ => apply bool_decide_eq_true_1 in H
  | H : bool_decide _ = false |- _ => apply bool_decide_eq_false_1 in H
  | H : Z.eqb _ _ = true |- _ => apply Z.eqb_eq in H
  | H : Z.eqb _ _ = false |- _ => apply Z.eqb_neq in H
  | H : Z.ltb _ _ = true |- _ => apply Z.ltb_lt in H
  | H : Z.ltb _ _ = false |- _ => apply Z.ltb_ge in H
  | H : Z.leb _ _ = true |- _ => apply Z.leb_le in H
  | H : Z.leb _ _ = false |- _ => apply Z.leb_gt in H
  end.

Create HintDb go.
#[export] Hint Resolve len_nonneg : go.
#[export] Hint Extern 4 => lia : go.

Lemma filter_ext_in {A} (P Q : A → Prop) `{∀ x, Decision (P x), ∀ x, Decision (Q x)} (l : list A) :
  (∀ x, x ∈ l → (P x ↔ Q x)) → filter P l = filter Q l.
Proof.
  induction l as [|x l IH]; intros HPQ; [done|]. rewrite !filter_cons.
  rewrite IH by (intros; apply HPQ; by right). specialize (HPQ x ltac:(by left)).
  repeat case_decide; tauto.
Qed.

Lemma filter_all {A} (P : A → Prop) `{∀ x, Decision (P x)} (l : list A) :
  (∀ x, x ∈ l → P x) → filter P l = l.
Proof.
  induction l as [|x l IH]; intros HP; [done|].
  rewrite filter_cons_True by (apply HP; by left). f_equal. apply IH. intros y Hy. apply HP. by right.
Qed.

Lemma NoDup_fmap_inj {A B} (f : A → B) (l : list A) x y :
  NoDup (f <$> l) → x ∈ l → y ∈ l → f x = f y → x = y.
Proof.
  intros Hnd (i & Hi)%list_elem_of_lookup (j & Hj)%list_elem_of_lookup Heq.
  assert (i = j) as <-; [|congruence].
  eapply NoDup_lookup; [exact Hnd|by rewrite list_lookup_fmap, Hi|].
  by rewrite list_lookup_fmap, Hj, Heq.
Qed.

(** ** Machine integers *)

(** [uint64] and [int32]/[int64] conversions, with their wrap-around. *)
Definition u64 (x : Z) : Z := x `mod` 2 ^ 64.
Definition i64 (x : Z) : Z := (x + 2 ^ 63) `mod` 2 ^ 64 - 2 ^ 63.
Definition i32 (x : Z) : Z := (x + 2 ^ 31) `mod` 2 ^ 32 - 2 ^ 31.

Definition is_i32 (x : Z) : Prop := - 2 ^ 31 ≤ x < 2 ^ 31.
Definition is_i64 (x : Z) : Prop := - 2 ^ 63 ≤ x < 2 ^ 63.
Definition is_u64 (x : Z) : Prop := 0 ≤ x < 2 ^ 64.

Lemma i64_small x : is_i64 x → i64 x = x.
Proof. unfold is_i64, i64. intros. rewrite Z.mod_small; lia. Qed.
Lemma i32_small x : is_i32 x → i32 x = x.
Proof. unfold is_i32, i32. intros. rewrite Z.mod_small; lia. Qed.
Lemma i32_range x : is_i32 (i32 x).
Proof. unfold is_i32, i32. pose proof (Z.mod_pos_bound (x + 2^31) (2^32)). lia. Qed.
Lemma u64_small x : is_u64 x → u64 x = x.
Proof. unfold is_u64, u64. intros. by apply Z.mod_small. Qed.

(** A number below [2^n] is one whose bits from [n] on are clear. *)
Lemma testbit_high v n i : 0 ≤ v < 2 ^ n → 0 ≤ n ≤ i → Z.testbit v i = false.
Proof.
  intros Hv Hi. rewrite <- (Z.mod_small v (2 ^ n)) by done. by rewrite Z.mod_pow2_bits_high.
Qed.

Lemma testbit_bound v n :
  0 ≤ n → (∀ i, n ≤ i → Z.testbit v i = false) → 0 ≤ v < 2 ^ n.
Proof.
  intros Hn H. assert (v = v mod 2 ^ n) as ->; [|apply Z.mod_pos_bound, Z.pow_pos_nonneg; lia].
  apply Z.bits_inj'. intros i Hi. destruct (Z.ltb_spec i n).
  - by rewrite Z.mod_pow2_bits_low.
  - rewrite Z.mod_pow2_bits_high by lia. by apply H.
Qed.

(** ** Sorting of [int] and [string] slices ([sort.Ints], [sort.Strings]) *)
Definition sort_ints (l : list Z) : list Z := merge_sort (≤) l.

Lemma sort_ints_Permutation l : sort_ints l ≡ₚ l.
Proof. apply merge_sort_Permutation. Qed.
Lemma sort_ints_Sorted l : StronglySorted (≤) (sort_ints l).
Proof. apply StronglySorted_merge_sort; apply _. Qed.
Lemma sort_ints_length l : length (sort_ints l) = length l.
Proof. by rewrite sort_ints_Permutation. Qed.

(** Sorting forgets the order in which the elements were collected, so code
    that sorts what it reads from a Go map does not depend on the (random)
    iteration order of the map. *)
Lemma sort_ints_perm_eq l1 l2 : l1 ≡ₚ l2 → sort_ints l1 = sort_ints l2.
Proof.
  intros H. apply (StronglySorted_unique (≤)); auto using sort_ints_Sorted.
  by rewrite !sort_ints_Permutation.
Qed.
