(* ===== verification/RaftState.v ===== *)
(** * The state of a Raft peer: [raft/raft.go] (data, indices, persistence, snapshots)
    and [raft/persister.go].

    The peer is a record with the fields of the Go struct.  Every
    definition here is the body of a Go function run without interference, its
    locks left out; [RaftThreads] has the same functions cut into steps, with
    their locks, and [RaftAlone] proves that the two agree.  Channels are modelled by what is
    observable: [AENotifyChan] and [commandToBeExec] carry only [true], so their
    state is their length; [applyCh] is unbuffered, and the model keeps the list of
    messages sent on it, oldest first.  A byte string written by [labgob] is the
    list of the values encoded into it, in order. *)

From S2P Require Import Prelude.

Section raft_state.
Context {cmd : Type}.

(** ** Data *)

Record CommandTerm := MkCT {
  Command : option cmd;   (** [nil] is [None] *)
  Term : Z;
}.

Record ApplyMsg := MkApplyMsg {
  CommandValid : bool;
  ApplyCommand : option cmd;
  CommandIndex : Z;
  ClientMaxRequestSeq : gmap Z Z;
  Rsm : gmap string string;
}.

(** A value encoded by [labgob] into persisted state or a snapshot. *)
Inductive gobval :=
| GInt (z : Z)
| GLog (l : list CommandTerm)
| GSeqs (m : gmap Z Z)
| GRsm (m : gmap string string).

(** Persisted bytes: [[]] is both [nil] and the empty slice. *)
Definition gobbytes := list gobval.

Record Persister := MkPersister {
  raftstate : gobbytes;
  snapshot : gobbytes;
}.

Definition MakePersister : Persister := MkPersister [] [].
Definition Copy (ps : Persister) : Persister := MkPersister (raftstate ps) (snapshot ps).
Definition SaveRaftState (ps : Persister) (state : gobbytes) : Persister :=
  MkPersister state (snapshot ps).
Definition ReadRaftState (ps : Persister) : gobbytes := raftstate ps.
Definition SaveStateAndSnapshot (ps : Persister) (state snap : gobbytes) : Persister :=
  MkPersister state snap.
Definition ReadSnapshot (ps : Persister) : gobbytes := snapshot ps.

(** [d.Decode(&x)] for the types the code decodes: the rest of the stream, or
    [None] for a decoding error. *)
Definition decodeInt (d : gobbytes) : option (Z * gobbytes) :=
  match d with GInt z :: d => Some (z, d) | _ => None end.
Definition decodeLog (d : gobbytes) : option (list CommandTerm * gobbytes) :=
  match d with GLog l :: d => Some (l, d) | _ => None end.
Definition decodeSeqs (d : gobbytes) : option (gmap Z Z * gobbytes) :=
  match d with GSeqs m :: d => Some (m, d) | _ => None end.
Definition decodeRsm (d : gobbytes) : option (gmap string string * gobbytes) :=
  match d with GRsm m :: d => Some (m, d) | _ => None end.

Record Raft := MkRaft {
  me : Z;
  peers : Z;                  (** [len(rf.peers)] *)
  persister : Persister;
  leaderNum : Z;
  currentTerm : Z;
  votedFor : Z;
  log : list CommandTerm;
  commitIndex : Z;
  lastApplied : Z;
  nextIndex : list Z;
  matchIndex : list Z;
  exitFlag : bool;
  AENotifyChan : Z;           (** number of buffered signals, capacity [peers] *)
  commandToBeExec : Z;        (** number of buffered signals, capacity 256 *)
  applyCh : list ApplyMsg;    (** every message sent so far *)
  lastIndexInSnapshot : Z;
  lastTermInSnapshot : Z;
}.

Definition set_persister (x : Persister) (rf : Raft) : Raft :=
  {| me := me rf; peers := peers rf; persister := x; leaderNum := leaderNum rf;
     currentTerm := currentTerm rf; votedFor := votedFor rf; log := log rf;
     commitIndex := commitIndex rf; lastApplied := lastApplied rf;
     nextIndex := nextIndex rf; matchIndex := matchIndex rf; exitFlag := exitFlag rf;
     AENotifyChan := AENotifyChan rf; commandToBeExec := commandToBeExec rf;
     applyCh := applyCh rf; lastIndexInSnapshot := lastIndexInSnapshot rf;
     lastTermInSnapshot := lastTermInSnapshot rf |}.
Definition set_leaderNum (x : Z) (rf : Raft) : Raft :=
  {| me := me rf; peers := peers rf; persister := persister rf; leaderNum := x;
     currentTerm := currentTerm rf; votedFor := votedFor rf; log := log rf;
     commitIndex := commitIndex rf; lastApplied := lastApplied rf;
     nextIndex := nextIndex rf; matchIndex := matchIndex rf; exitFlag := exitFlag rf;
     AENotifyChan := AENotifyChan rf; commandToBeExec := commandToBeExec rf;
     applyCh := applyCh rf; lastIndexInSnapshot := lastIndexInSnapshot rf;
     lastTermInSnapshot := lastTermInSnapshot rf |}.
Definition set_currentTerm (x : Z) (rf : Raft) : Raft :=
  {| me := me rf; peers := peers rf; persister := persister rf; leaderNum := leaderNum rf;
     currentTerm := x; votedFor := votedFor rf; log := log rf;
     commitIndex := commitIndex rf; lastApplied := lastApplied rf;
     nextIndex := nextIndex rf; matchIndex := matchIndex rf; exitFlag := exitFlag rf;
     AENotifyChan := AENotifyChan rf; commandToBeExec := commandToBeExec rf;
     applyCh := applyCh rf; lastIndexInSnapshot := lastIndexInSnapshot rf;
     lastTermInSnapshot := lastTermInSnapshot rf |}.
Definition set_votedFor (x : Z) (rf : Raft) : Raft :=
  {| me := me rf; peers := peers rf; persister := persister rf; leaderNum := leaderNum rf;
     currentTerm := currentTerm rf; votedFor := x; log := log rf;
     commitIndex := commitIndex rf; lastApplied := lastApplied rf;
     nextIndex := nextIndex rf; matchIndex := matchIndex rf; exitFlag := exitFlag rf;
     AENotifyChan := AENotifyChan rf; commandToBeExec := commandToBeExec rf;
     applyCh := applyCh rf; lastIndexInSnapshot := lastIndexInSnapshot rf;
     lastTermInSnapshot := lastTermInSnapshot rf |}.
Definition set_log (x : list CommandTerm) (rf : Raft) : Raft :=
  {| me := me rf; peers := peers rf; persister := persister rf; leaderNum := leaderNum rf;
     currentTerm := currentTerm rf; votedFor := votedFor rf; log := x;
     commitIndex := commitIndex rf; lastApplied := lastApplied rf;
     nextIndex := nextIndex rf; matchIndex := matchIndex rf; exitFlag := exitFlag rf;
     AENotifyChan := AENotifyChan rf; commandToBeExec := commandToBeExec rf;
     applyCh := applyCh rf; lastIndexInSnapshot := lastIndexInSnapshot rf;
     lastTermInSnapshot := lastTermInSnapshot rf |}.
Definition set_commitIndex (x : Z) (rf : Raft) : Raft :=
  {| me := me rf; peers := peers rf; persister := persister rf; leaderNum := leaderNum rf;
     currentTerm := currentTerm rf; votedFor := votedFor rf; log := log rf;
     commitIndex := x; lastApplied := lastApplied rf; nextIndex := nextIndex rf;
     matchIndex := matchIndex rf; exitFlag := exitFlag rf; AENotifyChan := AENotifyChan rf;
     commandToBeExec := commandToBeExec rf; applyCh := applyCh rf;
     lastIndexInSnapshot := lastIndexInSnapshot rf;
     lastTermInSnapshot := lastTermInSnapshot rf |}.
Definition set_nextIndex (x : list Z) (rf : Raft) : Raft :=
  {| me := me rf; peers := peers rf; persister := persister rf; leaderNum := leaderNum rf;
     currentTerm := currentTerm rf; votedFor := votedFor rf; log := log rf;
     commitIndex := commitIndex rf; lastApplied := lastApplied rf; nextIndex := x;
     matchIndex := matchIndex rf; exitFlag := exitFlag rf; AENotifyChan := AENotifyChan rf;
     commandToBeExec := commandToBeExec rf; applyCh := applyCh rf;
     lastIndexInSnapshot := lastIndexInSnapshot rf;
     lastTermInSnapshot := lastTermInSnapshot rf |}.
Definition set_matchIndex (x : list Z) (rf : Raft) : Raft :=
  {| me := me rf; peers := peers rf; persister := persister rf; leaderNum := leaderNum rf;
     currentTerm := currentTerm rf; votedFor := votedFor rf; log := log rf;
     commitIndex := commitIndex rf; lastApplied := lastApplied rf;
     nextIndex := nextIndex rf; matchIndex := x; exitFlag := exitFlag rf;
     AENotifyChan := AENotifyChan rf; commandToBeExec := commandToBeExec rf;
     applyCh := applyCh rf; lastIndexInSnapshot := lastIndexInSnapshot rf;
     lastTermInSnapshot := lastTermInSnapshot rf |}.
Definition set_exitFlag (x : bool) (rf : Raft) : Raft :=
  {| me := me rf; peers := peers rf; persister := persister rf; leaderNum := leaderNum rf;
     currentTerm := currentTerm rf; votedFor := votedFor rf; log := log rf;
     commitIndex := commitIndex rf; lastApplied := lastApplied rf;
     nextIndex := nextIndex rf; matchIndex := matchIndex rf; exitFlag := x;
     AENotifyChan := AENotifyChan rf; commandToBeExec := commandToBeExec rf;
     applyCh := applyCh rf; lastIndexInSnapshot := lastIndexInSnapshot rf;
     lastTermInSnapshot := lastTermInSnapshot rf |}.
Definition set_AENotifyChan (x : Z) (rf : Raft) : Raft :=
  {| me := me rf; peers := peers rf; persister := persister rf; leaderNum := leaderNum rf;
     currentTerm := currentTerm rf; votedFor := votedFor rf; log := log rf;
     commitIndex := commitIndex rf; lastApplied := lastApplied rf;
     nextIndex := nextIndex rf; matchIndex := matchIndex rf; exitFlag := exitFlag rf;
     AENotifyChan := x; commandToBeExec := commandToBeExec rf; applyCh := applyCh rf;
     lastIndexInSnapshot := lastIndexInSnapshot rf;
     lastTermInSnapshot := lastTermInSnapshot rf |}.
Definition set_commandToBeExec (x : Z) (rf : Raft) : Raft :=
  {| me := me rf; peers := peers rf; persister := persister rf; leaderNum := leaderNum rf;
     currentTerm := currentTerm rf; votedFor := votedFor rf; log := log rf;
     commitIndex := commitIndex rf; lastApplied := lastApplied rf;
     nextIndex := nextIndex rf; matchIndex := matchIndex rf; exitFlag := exitFlag rf;
     AENotifyChan := AENotifyChan rf; commandToBeExec := x; applyCh := applyCh rf;
     lastIndexInSnapshot := lastIndexInSnapshot rf;
     lastTermInSnapshot := lastTermInSnapshot rf |}.
Definition set_applyCh (x : list ApplyMsg) (rf : Raft) : Raft :=
  {| me := me rf; peers := peers rf; persister := persister rf; leaderNum := leaderNum rf;
     currentTerm := currentTerm rf; votedFor := votedFor rf; log := log rf;
     commitIndex := commitIndex rf; lastApplied := lastApplied rf;
     nextIndex := nextIndex rf; matchIndex := matchIndex rf; exitFlag := exitFlag rf;
     AENotifyChan := AENotifyChan rf; commandToBeExec := commandToBeExec rf; applyCh := x;
     lastIndexInSnapshot := lastIndexInSnapshot rf;
     lastTermInSnapshot := lastTermInSnapshot rf |}.
Definition set_lastIndexInSnapshot (x : Z) (rf : Raft) : Raft :=
  {| me := me rf; peers := peers rf; persister := persister rf; leaderNum := leaderNum rf;
     currentTerm := currentTerm rf; votedFor := votedFor rf; log := log rf;
     commitIndex := commitIndex rf; lastApplied := lastApplied rf;
     nextIndex := nextIndex rf; matchIndex := matchIndex rf; exitFlag := exitFlag rf;
     AENotifyChan := AENotifyChan rf; commandToBeExec := commandToBeExec rf;
     applyCh := applyCh rf; lastIndexInSnapshot := x;
     lastTermInSnapshot := lastTermInSnapshot rf |}.
Definition set_lastTermInSnapshot (x : Z) (rf : Raft) : Raft :=
  {| me := me rf; peers := peers rf; persister := persister rf; leaderNum := leaderNum rf;
     currentTerm := currentTerm rf; votedFor := votedFor rf; log := log rf;
     commitIndex := commitIndex rf; lastApplied := lastApplied rf;
     nextIndex := nextIndex rf; matchIndex := matchIndex rf; exitFlag := exitFlag rf;
     AENotifyChan := AENotifyChan rf; commandToBeExec := commandToBeExec rf;
     applyCh := applyCh rf; lastIndexInSnapshot := lastIndexInSnapshot rf;
     lastTermInSnapshot := x |}.

(** ** Indices

    A "name" index counts from the beginning of time, a "true" index is a
    position in [rf.log], whose slot 0 stands for [lastIndexInSnapshot]. *)

Definition getLastLogIndex (rf : Raft) : Z := lastIndexInSnapshot rf + len (log rf) - 1.

Definition getTrueIndex (rf : Raft) (index : Z) : Z :=
  if index - lastIndexInSnapshot rf <? 0 then 0 else index - lastIndexInSnapshot rf.

Definition getNameIndex (rf : Raft) (index : Z) : Z := index + lastIndexInSnapshot rf.

Definition GetState (rf : Raft) : Z * bool := (currentTerm rf, leaderNum rf =? me rf).
Definition GetLeaderNum (rf : Raft) : Z := leaderNum rf.

(** [rf.log[len(rf.log)-1].Term] *)
Definition lastLogTerm (rf : Raft) : outcome Z :=
  e ← must (zlookup (log rf) (len (log rf) - 1)); Ok (Term e).

(** ** Persistence *)

Definition persist (rf : Raft) : Raft :=
  set_persister (SaveRaftState (persister rf) [GInt (currentTerm rf); GLog (log rf)]) rf.

Definition readPersist (rf : Raft) (data : gobbytes) : outcome Raft :=
  if bool_decide (data = []) then Ok rf else
  match decodeInt data with
  | None => Panic
  | Some (term, data) =>
      match decodeLog data with
      | None => Panic
      | Some (l, _) => Ok (set_log l (set_currentTerm term rf))
      end
  end.

(** ** Snapshots *)

Definition truncate (rf : Raft) (endIndex preIndex lastTerm : Z) : outcome (list CommandTerm) :=
  if endIndex <=? preIndex then Panic else
  let newLog := drop (Z.to_nat (endIndex - preIndex)) (log rf) in
  Ok (if len newLog =? 0 then newLog ++ [MkCT None lastTerm] else newLog).

(** The two maps are what the service's maps contain when they are encoded
    (under the service's lock). *)
Definition TakeSnapshots (rf : Raft) (seqs : gmap Z Z) (rsm : gmap string string)
    (index : Z) : outcome Raft :=
  let endIndex := index - 1 in
  if (endIndex <? 1) || (endIndex <=? lastIndexInSnapshot rf) then Ok rf else
  let trueEndIndex := getTrueIndex rf endIndex in
  e ← must (zlookup (log rf) trueEndIndex);
  let endIndexTerm := Term e in
  let data := [GSeqs seqs; GRsm rsm; GInt endIndex; GInt endIndexTerm] in
  let preIndex := lastIndexInSnapshot rf in
  if preIndex <? endIndex then
    let rf := set_lastTermInSnapshot endIndexTerm rf in
    let rf := set_lastIndexInSnapshot endIndex rf in
    l ← truncate rf (lastIndexInSnapshot rf) preIndex endIndexTerm;
    let rf := set_log l rf in
    let data2 := [GInt (currentTerm rf); GLog (log rf); GInt (lastIndexInSnapshot rf)] in
    Ok (set_persister (SaveStateAndSnapshot (persister rf) data2 data) rf)
  else Ok rf.

(** The four values of a snapshot; the code panics when one is missing. *)
Definition decodeSnapshot (data : gobbytes) : outcome (gmap Z Z * gmap string string * Z * Z) :=
  '(seqs, d) ← must (decodeSeqs data);
  '(rsm, d) ← must (decodeRsm d);
  '(lastIndex, d) ← must (decodeInt d);
  '(lastTerm, _) ← must (decodeInt d);
  Ok (seqs, rsm, lastIndex, lastTerm).

(** The critical section of [readSnapshotPersist]: the log begins at the snapshot. *)
Definition begin_at (rf : Raft) (lastIndex lastTerm : Z) : Raft :=
  let rf := set_lastTermInSnapshot lastTerm rf in
  let rf := set_log [MkCT None lastTerm] rf in
  let rf := set_lastIndexInSnapshot lastIndex rf in
  set_commitIndex lastIndex rf.

Definition snapshot_msg (seqs : gmap Z Z) (rsm : gmap string string) : ApplyMsg :=
  MkApplyMsg false None 0 seqs rsm.

Definition readSnapshotPersist (rf : Raft) (data : gobbytes) : outcome Raft :=
  if bool_decide (data = []) then Ok rf else
  '(seqs, rsm, lastIndex, lastTerm) ← decodeSnapshot data;
  if lastIndex <=? lastIndexInSnapshot rf then Ok rf else
  let rf := begin_at rf lastIndex lastTerm in
  let rf := set_applyCh (applyCh rf ++ [snapshot_msg seqs rsm]) rf in
  Ok (set_persister
        (SaveStateAndSnapshot (persister rf) (ReadRaftState (persister rf)) data) rf).

Record InstallSnapShotArgs := MkISArgs {
  ISTerm : Z;
  ISLeaderId : Z;
  LastIncludedIndex : Z;
  LastIncludedTerm : Z;
  ISData : gobbytes;
}.

Record InstallSnapShotReply := MkISReply {
  ISSuccess : bool;
  ISReplyTerm : Z;
  Err_code : Z;
  ISValue : Z;
}.

Definition InstallSnapShot (rf : Raft) (args : InstallSnapShotArgs) :
    outcome (Raft * InstallSnapShotReply) :=
  let term := currentTerm rf in
  if ISTerm args <? currentTerm rf then Ok (rf, MkISReply false term 1 0) else
  if LastIncludedIndex args <=? lastIndexInSnapshot rf
  then Ok (rf, MkISReply false term 2 (lastIndexInSnapshot rf)) else
  same ← (if LastIncludedIndex args <=? getLastLogIndex rf then
            e ← must (zlookup (log rf) (getTrueIndex rf (LastIncludedIndex args)));
            Ok (Term e =? LastIncludedTerm args)
          else Ok false);
  if (same : bool) then Ok (rf, MkISReply false term 3 0) else
  rf ← readSnapshotPersist rf (ISData args);
  if lastIndexInSnapshot rf <? LastIncludedIndex args then Panic else
  Ok (rf, MkISReply true term 0 0).

(** ** Creation and shutdown *)

(** [mainProcess] is started by [Make]; it is modelled in [RaftRole]. *)
Definition Make (npeers me : Z) (ps : Persister) : outcome Raft :=
  let rf := {| me := me; peers := npeers; persister := ps; leaderNum := -1; currentTerm := 0;
               votedFor := -1; log := []; commitIndex := 0; lastApplied := 0;
               nextIndex := []; matchIndex := []; exitFlag := false; AENotifyChan := 0;
               commandToBeExec := 0; applyCh := []; lastIndexInSnapshot := 0;
               lastTermInSnapshot := 0 |} in
  rf ← readSnapshotPersist rf (ReadSnapshot ps);
  rf ← readPersist rf (ReadRaftState ps);
  let rf := if len (log rf) <? 1 then set_log (log rf ++ [MkCT None 0]) rf else rf in
  Ok (set_commitIndex (lastIndexInSnapshot rf) rf).

Definition Kill (rf : Raft) : Raft := set_leaderNum (-1) (persist (set_exitFlag true rf)).

(** [Start(command)]: the reply is (index, term, isLeader). *)
Definition Start (rf : Raft) (command : option cmd) : outcome (Raft * (Z * Z * bool)) :=
  let curTerm := currentTerm rf in
  if negb (leaderNum rf =? me rf) then Ok (rf, (-1, curTerm, false)) else
  if 256 <=? commandToBeExec rf then Block else
  let rf := set_commandToBeExec (commandToBeExec rf + 1) rf in
  let rf := set_log (log rf ++ [MkCT command curTerm]) rf in
  let index := getNameIndex rf (len (log rf) - 1) in
  m ← must (zinsert (matchIndex rf) (me rf) index);
  let rf := set_matchIndex m rf in
  Ok (persist rf, (index, curTerm, true)).

End raft_state.

Arguments CommandTerm : clear implicits.
Arguments ApplyMsg : clear implicits.
Arguments gobval : clear implicits.
Arguments gobbytes : clear implicits.
Arguments Persister : clear implicits.
Arguments Raft : clear implicits.
Arguments InstallSnapShotArgs : clear implicits.

(** ** Well-formedness and lemmas *)
Section raft_facts.
Context {cmd : Type}.
Implicit Types rf : Raft cmd.

(** The log entry with name index [i]; slot 0 of [rf.log] has name
    [lastIndexInSnapshot]. *)
Definition entry_at rf (i : Z) : option (CommandTerm cmd) :=
  zlookup (log rf) (i - lastIndexInSnapshot rf).

Record wf rf : Prop := {
  wf_log : 1 ≤ len (log rf);
  wf_snap : 0 ≤ lastIndexInSnapshot rf;
  wf_commit : lastIndexInSnapshot rf ≤ commitIndex rf ≤ getLastLogIndex rf;
}.

(** The saved snapshot, if any, ends at [lastIndexInSnapshot]. *)
Definition snap_sync rf : Prop :=
  (snapshot (persister rf) = [] ∧ lastIndexInSnapshot rf = 0) ∨
  (0 < lastIndexInSnapshot rf ∧ ∃ seqs rsm t,
     snapshot (persister rf) = [GSeqs seqs; GRsm rsm; GInt (lastIndexInSnapshot rf); GInt t]).

(** The persisted bytes describe the peer: its term, its log, and the
    snapshot its log starts from. *)
Definition durable rf : Prop :=
  snap_sync rf ∧
  ∃ rest, raftstate (persister rf) = GInt (currentTerm rf) :: GLog (log rf) :: rest.

Lemma getTrueIndex_ge rf i :
  lastIndexInSnapshot rf ≤ i → getTrueIndex rf i = i - lastIndexInSnapshot rf.
Proof. unfold getTrueIndex. intros. destruct (Z.ltb_spec (i - lastIndexInSnapshot rf) 0); lia. Qed.

Lemma getTrueIndex_lt rf i : i < lastIndexInSnapshot rf → getTrueIndex rf i = 0.
Proof. unfold getTrueIndex. intros. destruct (Z.ltb_spec (i - lastIndexInSnapshot rf) 0); lia. Qed.

Lemma getTrueIndex_nonneg rf i : 0 ≤ getTrueIndex rf i.
Proof. unfold getTrueIndex. destruct (Z.ltb_spec (i - lastIndexInSnapshot rf) 0); lia. Qed.

Lemma getTrueIndex_bound rf i :
  wf rf → i ≤ getLastLogIndex rf → 0 ≤ getTrueIndex rf i < len (log rf).
Proof.
  intros [H1 H2 H3]. unfold getTrueIndex, getLastLogIndex in *.
  destruct (Z.ltb_spec (i - lastIndexInSnapshot rf) 0); lia.
Qed.

Lemma entry_at_is_Some rf i :
  is_Some (entry_at rf i) ↔ lastIndexInSnapshot rf ≤ i ≤ getLastLogIndex rf.
Proof. unfold entry_at, getLastLogIndex. rewrite zlookup_is_Some. lia. Qed.

Lemma entry_at_true rf i :
  lastIndexInSnapshot rf ≤ i → zlookup (log rf) (getTrueIndex rf i) = entry_at rf i.
Proof. intros. by rewrite getTrueIndex_ge. Qed.

Lemma log_lookup_total rf i :
  wf rf → i ≤ getLastLogIndex rf → ∃ e, zlookup (log rf) (getTrueIndex rf i) = Some e.
Proof. intros Hwf Hi. by apply zlookup_lt_Some, getTrueIndex_bound. Qed.

Lemma lastLogTerm_Ok rf : wf rf → ∃ e, lastLogTerm rf = Ok (Term e) ∧
  zlookup (log rf) (len (log rf) - 1) = Some e.
Proof.
  intros [H1 _ _]. destruct (zlookup_lt_Some (log rf) (len (log rf) - 1)) as [e He]; [lia|].
  exists e. unfold lastLogTerm. by rewrite He.
Qed.

(** A name index that is not below the snapshot survives the round trip
    through [getTrueIndex] and [getNameIndex]. *)
Lemma name_true_index rf i :
  lastIndexInSnapshot rf ≤ i → getNameIndex rf (getTrueIndex rf i) = i.
Proof. intros. rewrite getTrueIndex_ge by done. unfold getNameIndex. lia. Qed.

Lemma true_name_index rf i : 0 ≤ i → getTrueIndex rf (getNameIndex rf i) = i.
Proof. intros. unfold getNameIndex. rewrite getTrueIndex_ge by lia. lia. Qed.

Lemma wf_log_eq rf rf' :
  log rf' = log rf → lastIndexInSnapshot rf' = lastIndexInSnapshot rf →
  commitIndex rf' = commitIndex rf → wf rf → wf rf'.
Proof.
  intros El Es Ec [H1 H2 H3]. split; unfold getLastLogIndex in *; rewrite ?El, ?Es, ?Ec; lia.
Qed.

Lemma persist_wf rf : wf rf → wf (persist rf).
Proof. by intros []. Qed.

Lemma decodeSnapshot_Ok (d : gobbytes cmd) seqs rsm i t :
  decodeSnapshot d = Ok (seqs, rsm, i, t) → ∃ d', d = GSeqs seqs :: GRsm rsm :: GInt i :: GInt t :: d'.
Proof.
  unfold decodeSnapshot. intros H. apply bind_Ok in H as ([s d1] & H1 & H).
  apply bind_Ok in H as ([r d2] & H2 & H). apply bind_Ok in H as ([li d3] & H3 & H).
  apply bind_Ok in H as ([lt d4] & H4 & H). apply must_Ok in H1, H2, H3, H4.
  destruct d as [|[] d]; simplify_eq/=. destruct d1 as [|[] d1]; simplify_eq/=.
  destruct d2 as [|[] d2]; simplify_eq/=. destruct d3 as [|[] d3]; simplify_eq/=. eauto.
Qed.

Lemma persist_durable rf : snap_sync rf → durable (persist rf).
Proof. intros H. split; [done|]. by exists []. Qed.

(** What a restart recovers from a [durable] peer. *)
Lemma Make_durable rf n m :
  durable rf → 1 ≤ len (log rf) →
  ∃ rf', Make n m (persister rf) = Ok rf' ∧
    currentTerm rf' = currentTerm rf ∧ log rf' = log rf ∧
    lastIndexInSnapshot rf' = lastIndexInSnapshot rf ∧
    commitIndex rf' = lastIndexInSnapshot rf ∧
    leaderNum rf' = -1 ∧ votedFor rf' = -1 ∧ persister rf' = persister rf ∧
    me rf' = m ∧ peers rf' = n ∧
    (applyCh rf' = [] ∨ ∃ seqs rsm, applyCh rf' = [MkApplyMsg false None 0 seqs rsm]).
Proof.
  intros [Hs [rest Hr]] Hlen. destruct (persister rf) as [rs sn] eqn:Ep. simpl in *.
  assert (Hl : (len (log rf) <? 1) = false) by (apply Z.ltb_ge; lia).
  destruct Hs as [[Hsn H0]|[Hpos (seqs & rsm & t & Hsn)]];
    rewrite Ep in Hsn; simpl in Hsn; subst rs sn;
    unfold Make, readSnapshotPersist, readPersist; simpl.
  - rewrite Hl. simpl. eexists; split; [done|]. simpl. rewrite H0. split_and!; auto.
  - destruct (Z.leb_spec (lastIndexInSnapshot rf) 0); [lia|]. simpl.
    rewrite Hl. simpl. eexists; split; [done|]. simpl. split_and!; eauto.
Qed.

Lemma truncate_entry rf endIndex pre t l i :
  truncate rf endIndex pre t = Ok l → endIndex - pre < len (log rf) →
  0 ≤ i → zlookup l i = zlookup (log rf) (endIndex - pre + i).
Proof.
  unfold truncate. destruct (Z.leb_spec endIndex pre); [done|]. intros [= <-] Hlt Hi.
  rewrite len_drop. destruct (Z.eqb_spec (Z.max 0 (len (log rf) - Z.of_nat (Z.to_nat (endIndex - pre)))) 0);
    [lia|]. rewrite zlookup_drop by done. f_equal. lia.
Qed.

Lemma truncate_len rf endIndex pre t l :
  truncate rf endIndex pre t = Ok l → endIndex - pre < len (log rf) →
  len l = len (log rf) - (endIndex - pre).
Proof.
  unfold truncate. destruct (Z.leb_spec endIndex pre); [done|]. intros [= <-] Hlt.
  rewrite len_drop. destruct (Z.eqb_spec (Z.max 0 (len (log rf) - Z.of_nat (Z.to_nat (endIndex - pre)))) 0);
    [lia|]. rewrite len_drop. lia.
Qed.

(** ** Recovery *)

(** C20. What a peer persisted with [persist] is what [Make] recovers after a crash, if the snapshot
    on its disk is the one its log begins with ([snap_sync]: none is installed half-way): term,
    log and snapshot index; the commit index restarts at the snapshot, and [votedFor], which is
    not persisted, is forgotten. *)
Theorem persist_recover rf n m :
  wf rf → snap_sync rf →
  ∃ rf', Make n m (persister (persist rf)) = Ok rf' ∧
    currentTerm rf' = currentTerm rf ∧
    (∀ i, entry_at rf' i = entry_at rf i) ∧
    getLastLogIndex rf' = getLastLogIndex rf ∧
    commitIndex rf' = lastIndexInSnapshot rf ∧ votedFor rf' = -1 ∧ wf rf' ∧ durable rf'.
Proof.
  intros [H1 H2 H3] Hsync.
  destruct (Make_durable (persist rf) n m (persist_durable rf Hsync) H1)
    as (rf' & E & Ht & Hl & Hi & Hc & _ & Hv & Hp & _). simpl in *.
  exists rf'. unfold entry_at, getLastLogIndex, durable, snap_sync in *.
  rewrite Hp, Ht, Hl, Hi. repeat split; eauto; unfold getLastLogIndex; rewrite ?Hl, ?Hi, ?Hc; try lia.
Qed.

Lemma TakeSnapshots_Ok rf seqs rsm index :
  wf rf → lastIndexInSnapshot rf < index - 1 → index - 1 ≤ commitIndex rf →
  ∃ rf', TakeSnapshots rf seqs rsm index = Ok rf' ∧
    lastIndexInSnapshot rf' = index - 1 ∧
    (∀ i, index - 1 ≤ i → entry_at rf' i = entry_at rf i) ∧
    getLastLogIndex rf' = getLastLogIndex rf ∧ commitIndex rf' = commitIndex rf ∧
    currentTerm rf' = currentTerm rf ∧ wf rf' ∧ durable rf' ∧
    applyCh rf' = applyCh rf ∧ votedFor rf' = votedFor rf ∧ me rf' = me rf ∧ peers rf' = peers rf ∧
    ∃ e, entry_at rf (index - 1) = Some e ∧
      snapshot (persister rf') = [GSeqs seqs; GRsm rsm; GInt (index - 1); GInt (Term e)].
Proof.
  intros Hwf Hlo Hhi. pose proof Hwf as [H1 H2 H3]. unfold TakeSnapshots.
  destruct (Z.ltb_spec (index - 1) 1); [lia|].
  destruct (Z.leb_spec (index - 1) (lastIndexInSnapshot rf)); [lia|]. simpl.
  destruct (log_lookup_total rf (index - 1) Hwf) as [e He]; [lia|]. rewrite He. simpl.
  destruct (Z.ltb_spec (lastIndexInSnapshot rf) (index - 1)); [|lia].
  assert (Hlt : index - 1 - lastIndexInSnapshot rf < len (log rf))
    by (unfold getLastLogIndex in *; lia).
  match goal with |- context [truncate ?r ?a ?b ?c] =>
    destruct (truncate r a b c) as [l| |] eqn:El;
    [pose proof (λ i, truncate_entry r a b c l i El Hlt) as Hent;
     pose proof (truncate_len r a b c l El Hlt) as Hlen
    |unfold truncate in El; simpl in El..] end.
  2,3: destruct (Z.leb_spec (index - 1) (lastIndexInSnapshot rf)); [lia|done].
  simpl in Hent, Hlen. simpl. eexists; split; [done|].
  unfold entry_at, getLastLogIndex in *. simpl. split_and!; [done| |lia|done|done| | |done|done|done|done|].
  - intros i Hi. rewrite Hent by lia. f_equal. lia.
  - split; unfold getLastLogIndex; simpl; lia.
  - split; [right; simpl; split; [lia|eauto]|eexists; done].
  - exists e. split; [|done]. rewrite <- He, getTrueIndex_ge by lia. done.
Qed.

(** A restart hands the saved snapshot to the service. *)
Lemma Make_delivers n m ps rf seqs rsm li t :
  snapshot ps = [GSeqs seqs; GRsm rsm; GInt li; GInt t] → 0 < li → Make n m ps = Ok rf →
  applyCh rf = [MkApplyMsg false None 0 seqs rsm].
Proof.
  intros Hs Hli H. unfold Make, readSnapshotPersist, ReadSnapshot in H. rewrite Hs in H. simpl in H.
  destruct (Z.leb_spec li 0); [lia|]. simpl in H. apply bind_Ok in H as (r & Hr & H). simplify_eq.
  unfold readPersist in Hr. repeat case_match; by simplify_eq.
Qed.

(** C34. [TakeSnapshots] at an applied index keeps every entry from the snapshot
    index on, keeps the last log index and the commit index, and leaves state and
    snapshot on disk: a restart recovers the log and hands the service the two maps that were
    saved. *)
Theorem TakeSnapshots_spec rf seqs rsm index :
  wf rf → lastIndexInSnapshot rf < index - 1 → index - 1 ≤ commitIndex rf →
  ∃ rf', TakeSnapshots rf seqs rsm index = Ok rf' ∧
    lastIndexInSnapshot rf' = index - 1 ∧
    (∀ i, index - 1 ≤ i → entry_at rf' i = entry_at rf i) ∧
    getLastLogIndex rf' = getLastLogIndex rf ∧ commitIndex rf' = commitIndex rf ∧
    currentTerm rf' = currentTerm rf ∧ wf rf' ∧ durable rf' ∧
    ∀ n m, ∃ rf2, Make n m (persister rf') = Ok rf2 ∧ log rf2 = log rf' ∧
      lastIndexInSnapshot rf2 = index - 1 ∧ currentTerm rf2 = currentTerm rf ∧
      applyCh rf2 = [MkApplyMsg false None 0 seqs rsm].
Proof.
  intros Hwf Hlo Hhi. destruct (TakeSnapshots_Ok rf seqs rsm index Hwf Hlo Hhi)
    as (rf' & E & Ei & He & Hl & Hc & Ht & Hw & Hd & _ & _ & _ & _ & e & _ & Hs).
  exists rf'. split_and!; try done. intros n m. pose proof (wf_snap _ Hwf).
  destruct (Make_durable rf' n m Hd (wf_log _ Hw)) as (rf2 & E2 & Et & El & Es & _).
  exists rf2. split_and!; try congruence. eapply Make_delivers; [apply Hs|lia|done].
Qed.

Lemma readPersist_fields rf rf' d :
  readPersist rf d = Ok rf' →
  applyCh rf' = applyCh rf ∧ lastIndexInSnapshot rf' = lastIndexInSnapshot rf ∧
  persister rf' = persister rf.
Proof.
  unfold readPersist. intros H. case_bool_decide; [by go_inv|].
  destruct (decodeInt d) as [[t d']|]; [|done]. destruct (decodeLog d') as [[l d'']|]; [|done].
  by go_inv.
Qed.

(** ** Starting a command *)

(** C33. [Start] on every branch.  A peer that does not lead changes nothing and says so; a leader
    whose queue of commands is full waits; one that has no [matchIndex] yet (it was elected, and
    its [LeaderProcess] has not begun) panics; otherwise the command is appended with the
    current term at the index that is returned, the rest of the log, the commit index and what
    was applied are kept, the leader counts itself, and the log is on disk. *)
Theorem Start_spec rf c :
  wf rf →
  (leaderNum rf ≠ me rf → Start rf (Some c) = Ok (rf, (-1, currentTerm rf, false))) ∧
  (leaderNum rf = me rf → 256 ≤ commandToBeExec rf → Start rf (Some c) = Block) ∧
  (leaderNum rf = me rf → commandToBeExec rf < 256 → len (matchIndex rf) ≤ me rf →
     Start rf (Some c) = Panic) ∧
  (leaderNum rf = me rf → commandToBeExec rf < 256 → 0 ≤ me rf < len (matchIndex rf) →
   let index := getLastLogIndex rf + 1 in
   ∃ rf', Start rf (Some c) = Ok (rf', (index, currentTerm rf, true)) ∧
     entry_at rf' index = Some (MkCT (Some c) (currentTerm rf)) ∧ getLastLogIndex rf' = index ∧
     (∀ i, i < index → entry_at rf' i = entry_at rf i) ∧
     zlookup (matchIndex rf') (me rf) = Some index ∧
     commandToBeExec rf' = commandToBeExec rf + 1 ∧
     commitIndex rf' = commitIndex rf ∧ applyCh rf' = applyCh rf ∧ wf rf' ∧
     (snap_sync rf → durable rf')).
Proof.
  intros Hwf. pose proof Hwf as [H1 H2 H3]. unfold Start.
  destruct (Z.eqb_spec (leaderNum rf) (me rf)) as [El|El]; simpl; [|by split_and!].
  destruct (Z.leb_spec 256 (commandToBeExec rf)); [by split_and!; try done; lia|].
  split_and!; [done|lia|..].
  - intros _ _ Hm. unfold zinsert. by rewrite decide_False by lia.
  - intros _ _ Hm. unfold zinsert. rewrite decide_True by done. simpl. unfold getNameIndex, getLastLogIndex in *.
    replace (len (log rf ++ _) - 1 + lastIndexInSnapshot rf) with (lastIndexInSnapshot rf + len (log rf) - 1 + 1)
      by (rewrite len_app, len_cons, len_nil; lia).
    eexists. split; [done|]. unfold entry_at. simpl. rewrite len_app, len_cons, len_nil. split_and!; try done.
    + rewrite zlookup_app_r by lia.
      by replace (lastIndexInSnapshot rf + len (log rf) - 1 + 1 - lastIndexInSnapshot rf - len (log rf)) with 0 by lia.
    + lia.
    + intros i Hi. apply zlookup_app_l. lia.
    + rewrite <- (Z2Nat.id (me rf)) at 2 by lia. apply zlookup_insert_eq. unfold len in Hm. lia.
    + split; unfold getLastLogIndex; simpl; rewrite ?len_app, ?len_cons, ?len_nil; lia.
    + intros Hs. by split; [|exists []].
Qed.

(** ** Installing a snapshot *)

(** The bytes a leader sends: a snapshot that ends at [LastIncludedIndex]. *)
Definition good_snapshot (args : InstallSnapShotArgs cmd) seqs rsm t : Prop :=
  ISData args = [GSeqs seqs; GRsm rsm; GInt (LastIncludedIndex args); GInt t].

(** The refusal code of [InstallSnapShot], 0 when it installs. *)
Definition install_code rf (args : InstallSnapShotArgs cmd) : Z :=
  if ISTerm args <? currentTerm rf then 1 else
  if LastIncludedIndex args <=? lastIndexInSnapshot rf then 2 else
  match entry_at rf (LastIncludedIndex args) with
  | Some e => if Term e =? LastIncludedTerm args then 3 else 0
  | None => 0
  end.

Lemma entry_at_past rf i : getLastLogIndex rf < i → entry_at rf i = None.
Proof.
  intros. destruct (entry_at rf i) eqn:E; [|done].
  assert (is_Some (entry_at rf i)) as Hs by eauto. apply entry_at_is_Some in Hs. lia.
Qed.

(** The state after an installation. *)
Definition installed rf (args : InstallSnapShotArgs cmd) seqs rsm t : Raft cmd :=
  {| me := me rf; peers := peers rf;
     persister := MkPersister (raftstate (persister rf)) (ISData args);
     leaderNum := leaderNum rf; currentTerm := currentTerm rf; votedFor := votedFor rf;
     log := [MkCT None t]; commitIndex := LastIncludedIndex args;
     lastApplied := lastApplied rf; nextIndex := nextIndex rf; matchIndex := matchIndex rf;
     exitFlag := exitFlag rf; AENotifyChan := AENotifyChan rf;
     commandToBeExec := commandToBeExec rf;
     applyCh := applyCh rf ++ [MkApplyMsg false None 0 seqs rsm];
     lastIndexInSnapshot := LastIncludedIndex args; lastTermInSnapshot := t |}.

Lemma readSnapshotPersist_good rf args seqs rsm t :
  good_snapshot args seqs rsm t → lastIndexInSnapshot rf < LastIncludedIndex args →
  readSnapshotPersist rf (ISData args) = Ok (installed rf args seqs rsm t).
Proof.
  intros Hg Hlt. unfold readSnapshotPersist, installed. rewrite Hg. simpl.
  destruct (Z.leb_spec (LastIncludedIndex args) (lastIndexInSnapshot rf)); [lia|done].
Qed.

Lemma InstallSnapShot_cases rf args seqs rsm t :
  wf rf → good_snapshot args seqs rsm t →
  ∃ rf' reply, InstallSnapShot rf args = Ok (rf', reply) ∧ wf rf' ∧
    Err_code reply = install_code rf args ∧
    ISSuccess reply = (install_code rf args =? 0) ∧
    (if install_code rf args =? 0 then rf' = installed rf args seqs rsm t else rf' = rf).
Proof.
  intros Hwf Hg. unfold InstallSnapShot, install_code.
  destruct (Z.ltb_spec (ISTerm args) (currentTerm rf)); [by do 2 eexists; split; [done|]; split_and!|].
  destruct (Z.leb_spec (LastIncludedIndex args) (lastIndexInSnapshot rf)); [by do 2 eexists; split; [done|]; split_and!|].
  assert (Hins : ∀ reply, Err_code reply = 0 → ISSuccess reply = true →
    ∃ rf' reply', (rf0 ← readSnapshotPersist rf (ISData args);
       if lastIndexInSnapshot rf0 <? LastIncludedIndex args then Panic else Ok (rf0, reply)) =
         Ok (rf', reply') ∧ wf rf' ∧ Err_code reply' = 0 ∧ ISSuccess reply' = (0 =? 0) ∧
      (if 0 =? 0 then rf' = installed rf args seqs rsm t else rf' = rf)).
  { intros reply H1 H2. rewrite (readSnapshotPersist_good rf args seqs rsm t Hg) by done. simpl.
    rewrite Z.ltb_irrefl. do 2 eexists; split; [done|]. split_and!; try done.
    destruct Hwf. split; unfold getLastLogIndex; simpl; unfold len; simpl; lia. }
  destruct (Z.leb_spec (LastIncludedIndex args) (getLastLogIndex rf)).
  - destruct (log_lookup_total rf (LastIncludedIndex args) Hwf) as [e He]; [done|].
    rewrite He. rewrite entry_at_true in He by lia. rewrite He. simpl.
    destruct (Term e =? LastIncludedTerm args); simpl; [by do 2 eexists; split; [done|]; split_and!|]. by apply Hins.
  - rewrite entry_at_past by done. simpl. by apply Hins.
Qed.

(** C35. [InstallSnapShot] with a leader's snapshot never panics: it refuses
    (old term, already snapshotted, entry already present) without changing the
    peer, or replaces the whole log by the snapshot, moves the commit index to it
    and hands the state to the service; either way the peer stays well formed. *)
Theorem InstallSnapShot_spec rf args seqs rsm t :
  wf rf → good_snapshot args seqs rsm t →
  ∃ rf' reply, InstallSnapShot rf args = Ok (rf', reply) ∧ wf rf' ∧
    Err_code reply = install_code rf args ∧
    ISSuccess reply = (install_code rf args =? 0) ∧
    (if install_code rf args =? 0 then rf' = installed rf args seqs rsm t else rf' = rf).
Proof. apply InstallSnapShot_cases. Qed.

(** What [InstallSnapShot] leaves on disk is the new snapshot next to the OLD
    log: a crash before the next [persist] makes the restarted peer read the old
    log as if it started at the new snapshot, so that its entry [i] is the entry
    the peer used to have at [i - LastIncludedIndex + lastIndexInSnapshot]. *)
Theorem InstallSnapShot_crash_misaligned rf args seqs rsm t rf' reply n m :
  wf rf → durable rf → good_snapshot args seqs rsm t →
  InstallSnapShot rf args = Ok (rf', reply) → Err_code reply = 0 →
  ∃ rf'', Make n m (persister rf') = Ok rf'' ∧
    lastIndexInSnapshot rf'' = LastIncludedIndex args ∧
    (∀ i, entry_at rf'' i =
       entry_at rf (i - LastIncludedIndex args + lastIndexInSnapshot rf)) ∧
    getLastLogIndex rf'' = LastIncludedIndex args + len (log rf) - 1.
Proof.
  intros Hwf [_ [rest Hr]] Hg Hins Herr. pose proof Hwf as [H1 H2 _].
  destruct (InstallSnapShot_cases rf args seqs rsm t Hwf Hg)
    as (rf1 & reply1 & E & _ & Hcode & _ & Hst).
  rewrite Hins in E. injection E as <- <-. rewrite Herr in Hcode. rewrite <- Hcode in Hst.
  simpl in Hst. subst rf'.
  assert (Hlt : lastIndexInSnapshot rf < LastIncludedIndex args).
  { unfold install_code in Hcode. destruct (ISTerm args <? currentTerm rf); [done|].
    destruct (Z.leb_spec (LastIncludedIndex args) (lastIndexInSnapshot rf)); [done|lia]. }
  unfold Make. simpl persister. unfold ReadSnapshot, ReadRaftState. simpl.
  erewrite readSnapshotPersist_good; [|done|simpl; lia]. simpl. unfold readPersist.
  rewrite Hr. simpl. destruct (Z.ltb_spec (len (log rf)) 1); [lia|].
  eexists; split; [done|]. split_and!; [done| |].
  - intros i. unfold entry_at. simpl. f_equal. lia.
  - done.
Qed.
End raft_facts.

(** Witnesses: a three-entry follower of term 2 receives a snapshot up to index 5. *)
Definition demo_follower : Raft Z :=
  {| me := 1; peers := 3;
     persister := MkPersister [GInt 2; GLog [MkCT None 0; MkCT (Some 11) 1; MkCT (Some 12) 2]] [];
     leaderNum := 0; currentTerm := 2; votedFor := 1;
     log := [MkCT None 0; MkCT (Some 11) 1; MkCT (Some 12) 2];
     commitIndex := 2; lastApplied := 0; nextIndex := []; matchIndex := [];
     exitFlag := false; AENotifyChan := 0; commandToBeExec := 0; applyCh := [];
     lastIndexInSnapshot := 0; lastTermInSnapshot := 0 |}.

Definition demo_install : InstallSnapShotArgs Z :=
  MkISArgs 2 0 5 2 [GSeqs ∅; GRsm ∅; GInt 5; GInt 2].

Lemma demo_follower_wf : wf demo_follower.
Proof. split; vm_compute; repeat split; discriminate. Qed.

Lemma demo_follower_sync : snap_sync demo_follower.
Proof. by left. Qed.

Lemma persist_recover_witness : ∃ rf',
  Make 3 1 (persister (persist demo_follower)) = Ok rf' ∧ commitIndex rf' = 0.
Proof.
  destruct (persist_recover demo_follower 3 1 demo_follower_wf demo_follower_sync)
    as (rf' & E & _ & _ & _ & Hc & _). by exists rf'.
Defined.

Definition demo_rsm : gmap string string := {[ "k"%string := "v"%string ]}.

Lemma TakeSnapshots_spec_witness : ∃ rf' rf2,
  TakeSnapshots demo_follower ∅ demo_rsm 2 = Ok rf' ∧ lastIndexInSnapshot rf' = 1 ∧
  Make 3 1 (persister rf') = Ok rf2 ∧ applyCh rf2 = [MkApplyMsg false None 0 ∅ demo_rsm].
Proof.
  destruct (TakeSnapshots_spec demo_follower ∅ demo_rsm 2 demo_follower_wf)
    as (rf' & E & Hi & _ & _ & _ & _ & _ & _ & Hm); [done|done|].
  destruct (Hm 3 1) as (rf2 & E2 & _ & _ & _ & Ha). by exists rf', rf2.
Defined.

Definition demo_started : Raft Z := set_leaderNum (me demo_follower) (set_matchIndex [0; 0; 0] demo_follower).

Lemma Start_spec_witness : ∃ rf', Start demo_started (Some 77) =
    Ok (rf', (getLastLogIndex demo_started + 1, currentTerm demo_started, true)) ∧
  entry_at rf' (getLastLogIndex demo_started + 1) = Some (MkCT (Some 77) (currentTerm demo_started)).
Proof.
  destruct (Start_spec demo_started 77) as (_ & _ & _ & H); [apply (wf_log_eq demo_follower); [done..|apply demo_follower_wf]|].
  destruct (H eq_refl) as (rf' & E & He & _); [done|done|]. by exists rf'.
Defined.

Lemma InstallSnapShot_spec_witness : ∃ rf' reply,
  InstallSnapShot demo_follower demo_install = Ok (rf', reply) ∧ Err_code reply = 0.
Proof.
  destruct (InstallSnapShot_spec demo_follower demo_install ∅ ∅ 2 demo_follower_wf)
    as (rf' & reply & E & _ & Hc & _); [done|]. by exists rf', reply.
Defined.

Lemma InstallSnapShot_crash_witness : ∃ rf'',
  Make 3 1 (persister (installed demo_follower demo_install ∅ ∅ 2)) = Ok rf'' ∧
  entry_at rf'' 6 = Some (MkCT (Some 11) 1).
Proof.
  destruct (InstallSnapShot_crash_misaligned demo_follower demo_install ∅ ∅ 2
    (installed demo_follower demo_install ∅ ∅ 2) (MkISReply true 2 0 0) 3 1
    demo_follower_wf) as (rf'' & E & _ & He & _);
    [by split; [left|eexists]|done|done|done|].
  exists rf''. split; [done|]. by rewrite He.
Defined.
