(* ===== verification/RaftVote.v ===== *)
(** * Elections: [RequestVote], [CandidateProcess] and the majority of
    [mainProcess] in [raft/raft.go].

    [RequestVote] reads the peer's state before it takes the lock and tests the
    term again under the lock, so it is modelled as two steps, [rv_check] and
    [rv_locked]; the handler run alone is their composition. *)

From S2P Require Import Prelude RaftState.

Section vote.
Context {cmd : Type}.
Implicit Types rf : Raft cmd.

Record RequestVoteArgs := MkRVArgs {
  RVTerm : Z;
  CandidateID : Z;
  LastLogIndex : Z;
  LastLogTerm : Z;
}.

Record RequestVoteReply := MkRVReply {
  RVReplyTerm : Z;
  VoteGranted : bool;
}.

(** A non-blocking-by-intent send on [AENotifyChan]: [if len(ch) < n { ch <- true }];
    the channel has room for [len(rf.peers)] signals. *)
Definition notifyAE rf (n : Z) : outcome (Raft cmd) :=
  if AENotifyChan rf <? n then
    if AENotifyChan rf <? peers rf then Ok (set_AENotifyChan (AENotifyChan rf + 1) rf)
    else Block
  else Ok rf.

(** [localLastTerm]: 0 for an empty log. *)
Definition localLastTerm rf : Z :=
  match zlookup (log rf) (len (log rf) - 1) with Some e => Term e | None => 0 end.

(** Where the unlocked tests send the request: refused, to the critical section,
    or straight to the grant (same term). *)
Inductive rv_next := RvRefuse | RvLock | RvGrant.

Definition rv_check rf (args : RequestVoteArgs) : rv_next :=
  let candidateTerm := RVTerm args in
  if (candidateTerm <? currentTerm rf)
     || ((currentTerm rf =? candidateTerm) && negb (votedFor rf =? me rf)) then RvRefuse else
  if (currentTerm rf =? candidateTerm) && (LastLogTerm args <=? localLastTerm rf)
  then RvRefuse else
  if currentTerm rf <? candidateTerm then RvLock else RvGrant.

(** From [rf.mu.Lock()] on: the second test of the term, the update of the term,
    the comparison of the logs. The Boolean says whether the vote is granted. *)
Definition rv_locked rf (args : RequestVoteArgs) : outcome (Raft cmd * bool) :=
  if currentTerm rf =? RVTerm args then Ok (rf, false) else
  let rf := persist (set_currentTerm (RVTerm args) rf) in
  lastTerm ← lastLogTerm rf;
  if LastLogTerm args <? lastTerm then Ok (rf, false) else
  if (LastLogTerm args =? lastTerm) && (LastLogIndex args <? getLastLogIndex rf)
  then Ok (rf, false) else
  Ok (set_leaderNum (CandidateID args) rf, true).

(** The end of the handler, and the reply: [reply.Term] is the term read on entry. *)
Definition rv_finish rf (replyTerm : Z) (granted : bool) : outcome (Raft cmd * RequestVoteReply) :=
  if granted then
    rf ← notifyAE rf 2; Ok (rf, MkRVReply replyTerm true)
  else Ok (rf, MkRVReply replyTerm false).

Definition RequestVote rf (args : RequestVoteArgs) : outcome (Raft cmd * RequestVoteReply) :=
  let term := currentTerm rf in
  match rv_check rf args with
  | RvRefuse => rv_finish rf term false
  | RvLock => '(rf, granted) ← rv_locked rf args; rv_finish rf term granted
  | RvGrant => rv_finish rf term true
  end.

(** ** The candidate *)

(** [int(float32(peersNum)/2 + 0.5)], exact for any number of peers below [2^24]. *)
Definition majority (peersNum : Z) : Z := (peersNum + 1) / 2.

(** The request a candidate broadcasts, and its state change on entry. *)
Definition candidate_args rf : outcome RequestVoteArgs :=
  t ← lastLogTerm rf;
  Ok (MkRVArgs (currentTerm rf) (me rf) (getLastLogIndex rf) t).

Definition candidate_begin rf : Raft cmd := set_leaderNum (-1) (set_votedFor (me rf) rf).

(** What the [select] of [CandidateProcess] can receive. *)
Inductive cand_event :=
| CReply (r : RequestVoteReply)
| CTimeout
| CNotify.

(** Still waiting with [granted] votes, or returned with [isTimeOut]. *)
Inductive cand_state :=
| CWait (granted : Z)
| CReturn (isTimeOut : bool).

Definition candidate_step (maj : Z) rf (granted : Z) (ev : cand_event) :
    outcome (Raft cmd * cand_state) :=
  match ev with
  | CReply r =>
      let granted := if VoteGranted r then granted + 1 else granted in
      if VoteGranted r && (maj <=? granted) then Ok (set_leaderNum (me rf) rf, CReturn false) else
      if currentTerm rf <? RVReplyTerm r
      then Ok (persist (set_currentTerm (RVReplyTerm r) rf), CReturn false)
      else Ok (rf, CWait granted)
  | CTimeout => Ok (persist (set_currentTerm (currentTerm rf + 1) rf), CReturn true)
  | CNotify =>
      if AENotifyChan rf <=? 0 then Block else Ok (set_AENotifyChan 0 rf, CReturn false)
  end.

Fixpoint candidate_loop (maj : Z) rf (granted : Z) (evs : list cand_event) :
    outcome (Raft cmd * cand_state) :=
  match evs with
  | [] => Ok (rf, CWait granted)
  | ev :: evs =>
      '(rf, st) ← candidate_step maj rf granted ev;
      match st with
      | CWait granted => candidate_loop maj rf granted evs
      | CReturn b => Ok (rf, CReturn b)
      end
  end.

(** [CandidateProcess] run on the events its [select] receives, in order. *)
Definition CandidateProcess (maj : Z) rf (evs : list cand_event) :
    outcome (Raft cmd * cand_state) :=
  _ ← candidate_args rf;
  candidate_loop maj (candidate_begin rf) 1 evs.

(** ** Lemmas *)

Lemma localLastTerm_spec rf :
  wf rf → lastLogTerm rf = Ok (localLastTerm rf).
Proof.
  intros Hwf. destruct (lastLogTerm_Ok rf Hwf) as (e & -> & He).
  unfold localLastTerm. by rewrite He.
Qed.

Lemma notifyAE_Ok rf n : n ≤ peers rf → ∃ k,
  notifyAE rf n = Ok (set_AENotifyChan k rf) ∧
  (AENotifyChan rf ≤ k ≤ Z.max (AENotifyChan rf) n).
Proof.
  intros Hn. unfold notifyAE. destruct (Z.ltb_spec (AENotifyChan rf) n).
  - destruct (Z.ltb_spec (AENotifyChan rf) (peers rf)); [|lia]. eexists; split; [done|lia].
  - exists (AENotifyChan rf). split; [by destruct rf|lia].
Qed.

(** Outcome of the whole handler, branch by branch. *)
Definition up_to_date rf (args : RequestVoteArgs) : bool :=
  (localLastTerm rf <? LastLogTerm args)
  || ((LastLogTerm args =? localLastTerm rf) && (getLastLogIndex rf <=? LastLogIndex args)).

Definition vote_decision rf (args : RequestVoteArgs) : bool :=
  if RVTerm args <? currentTerm rf then false
  else if currentTerm rf =? RVTerm args
       then (votedFor rf =? me rf) && (localLastTerm rf <? LastLogTerm args)
       else up_to_date rf args.

Lemma RequestVote_char rf args :
  wf rf → 2 ≤ peers rf →
  ∃ k, AENotifyChan rf ≤ k ≤ Z.max (AENotifyChan rf) 2 ∧
  let newterm := currentTerm rf <? RVTerm args in
  let rf1 := if newterm then persist (set_currentTerm (RVTerm args) rf) else rf in
  let rf2 := if newterm && vote_decision rf args
             then set_leaderNum (CandidateID args) rf1 else rf1 in
  RequestVote rf args =
    Ok (if vote_decision rf args then set_AENotifyChan k rf2 else rf2,
        MkRVReply (currentTerm rf) (vote_decision rf args)).
Proof.
  intros Hwf Hp. unfold RequestVote, rv_check, vote_decision, up_to_date.
  assert (Hll : ∀ t, lastLogTerm (persist (set_currentTerm t rf)) = Ok (localLastTerm rf)).
  { intros t. by rewrite <- (localLastTerm_spec rf Hwf). }
  assert (Hno : ∀ r : Raft cmd, AENotifyChan rf ≤ AENotifyChan rf ≤ Z.max (AENotifyChan rf) 2)
    by (intros; lia).
  destruct (Z.ltb_spec (RVTerm args) (currentTerm rf)); simpl.
  { exists (AENotifyChan rf). split; [lia|].
    destruct (Z.ltb_spec (currentTerm rf) (RVTerm args)); [lia|done]. }
  destruct (Z.eqb_spec (currentTerm rf) (RVTerm args)) as [Heq|Hne]; simpl.
  - destruct (Z.ltb_spec (currentTerm rf) (RVTerm args)); [lia|]. simpl.
    destruct (votedFor rf =? me rf); simpl; [|exists (AENotifyChan rf); split; [lia|done]].
    destruct (Z.leb_spec (LastLogTerm args) (localLastTerm rf));
      destruct (Z.ltb_spec (localLastTerm rf) (LastLogTerm args)); try lia.
    + exists (AENotifyChan rf). split; [lia|done].
    + unfold rv_finish. destruct (notifyAE_Ok rf 2 Hp) as (k & -> & Hk). by exists k.
  - destruct (Z.ltb_spec (currentTerm rf) (RVTerm args)); [|lia]. simpl.
    unfold rv_locked. destruct (Z.eqb_spec (currentTerm rf) (RVTerm args)); [lia|].
    rewrite Hll. simpl. change (getLastLogIndex (persist (set_currentTerm (RVTerm args) rf)))
      with (getLastLogIndex rf).
    destruct (Z.ltb_spec (LastLogTerm args) (localLastTerm rf)),
      (Z.ltb_spec (localLastTerm rf) (LastLogTerm args)),
      (Z.eqb_spec (LastLogTerm args) (localLastTerm rf)),
      (Z.ltb_spec (LastLogIndex args) (getLastLogIndex rf)),
      (Z.leb_spec (getLastLogIndex rf) (LastLogIndex args)); try lia; simpl;
    solve [ exists (AENotifyChan rf); split; [lia|done]
          | destruct (notifyAE_Ok (set_leaderNum (CandidateID args)
              (persist (set_currentTerm (RVTerm args) rf))) 2 Hp) as (k & -> & Hk);
            by exists k ].
Qed.

(** ** Properties of one election *)

Lemma RequestVote_term rf args :
  wf rf → 2 ≤ peers rf →
  ∃ rf' reply, RequestVote rf args = Ok (rf', reply) ∧ wf rf' ∧
    currentTerm rf' = Z.max (currentTerm rf) (RVTerm args).
Proof.
  intros Hwf Hp. destruct (RequestVote_char rf args Hwf Hp) as (k & Hk & E).
  do 2 eexists; split; [apply E|]. destruct Hwf.
  destruct (Z.ltb_spec (currentTerm rf) (RVTerm args)), (vote_decision rf args); simpl;
    (split; [by split|lia]).
Qed.

(** C17. A vote request on a well-formed peer never panics or blocks; the term only
    grows (to the candidate's, if that is larger) and is persisted; the log and the
    commit index are untouched; and a vote is granted only to a candidate of at
    least the peer's term whose log is at least as up to date as the peer's. *)
Theorem RequestVote_safe rf args :
  wf rf → 2 ≤ peers rf →
  ∃ rf' reply, RequestVote rf args = Ok (rf', reply) ∧ wf rf' ∧
    currentTerm rf' = Z.max (currentTerm rf) (RVTerm args) ∧
    log rf' = log rf ∧ commitIndex rf' = commitIndex rf ∧
    (durable rf → durable rf') ∧
    (VoteGranted reply = true →
       currentTerm rf ≤ RVTerm args ∧ up_to_date rf args = true).
Proof.
  intros Hwf Hp. destruct (RequestVote_char rf args Hwf Hp) as (k & Hk & E).
  do 2 eexists; split; [apply E|]. clear E.
  assert (Hdec : vote_decision rf args = true →
    currentTerm rf ≤ RVTerm args ∧ up_to_date rf args = true).
  { unfold vote_decision, up_to_date.
    destruct (Z.ltb_spec (RVTerm args) (currentTerm rf)); [done|].
    destruct (Z.eqb_spec (currentTerm rf) (RVTerm args)); [|by auto].
    intros [_ ->]%andb_true_iff. done. }
  destruct Hwf as [H1 H2 H3].
  destruct (Z.ltb_spec (currentTerm rf) (RVTerm args)), (vote_decision rf args) eqn:Ed; simpl;
    split_and!; try done; try lia; try (by split); try (by intros _; apply Hdec);
    by intros [Hs _]; split; [apply Hs|eexists].
Qed.

(** Double-checked locking: of two requests for the same new term that both
    passed the unlocked tests, whichever enters the critical section second is
    refused and changes nothing. *)
Theorem rv_locked_once rf a b rf1 g :
  RVTerm a = RVTerm b → rv_check rf a = RvLock → rv_check rf b = RvLock →
  rv_locked rf a = Ok (rf1, g) → rv_locked rf1 b = Ok (rf1, false).
Proof.
  intros Hab Ha _ Hl. unfold rv_locked in Hl.
  destruct (Z.eqb_spec (currentTerm rf) (RVTerm a)) as [Heq|_].
  { unfold rv_check in Ha. rewrite Heq, Z.ltb_irrefl in Ha. simpl in Ha.
    by repeat case_match. }
  go_inv. assert (currentTerm rf1 = RVTerm b) as Ht.
  { rewrite <- Hab. repeat case_match; by go_inv; simplify_eq. }
  unfold rv_locked. by rewrite Ht, Z.eqb_refl.
Qed.

(** The second test compares for equality only: when a request for term [t1] has
    passed the unlocked tests and a request for a larger term [t2] is served before
    it takes the lock, the peer's persisted term goes back from [t2] to [t1]. *)
Theorem rv_interleaving_term_regression rf a b :
  wf rf → 2 ≤ peers rf → currentTerm rf < RVTerm a < RVTerm b →
  ∃ rf1 reply rf2 g,
    rv_check rf a = RvLock ∧ RequestVote rf b = Ok (rf1, reply) ∧
    currentTerm rf1 = RVTerm b ∧
    rv_locked rf1 a = Ok (rf2, g) ∧ currentTerm rf2 = RVTerm a ∧
    head (raftstate (persister rf2)) = Some (GInt (RVTerm a)).
Proof.
  intros Hwf Hp Ht. destruct (RequestVote_term rf b Hwf Hp) as (rf1 & reply & E & Hwf1 & Hc).
  rewrite Z.max_r in Hc by lia.
  destruct (lastLogTerm_Ok (persist (set_currentTerm (RVTerm a) rf1))) as (e & He & _).
  { by destruct Hwf1. }
  eexists rf1, reply, _, _. split_and!; [|done|done| | |].
  - unfold rv_check. destruct (Z.ltb_spec (RVTerm a) (currentTerm rf)); [lia|].
    destruct (Z.eqb_spec (currentTerm rf) (RVTerm a)); [lia|]. simpl.
    destruct (Z.ltb_spec (currentTerm rf) (RVTerm a)); [done|lia].
  - unfold rv_locked. rewrite Hc. destruct (Z.eqb_spec (RVTerm b) (RVTerm a)); [lia|].
    rewrite He. simpl.
    instantiate (1 := negb (LastLogTerm a <? Term e) && negb ((LastLogTerm a =? Term e) &&
      (LastLogIndex a <? getLastLogIndex (persist (set_currentTerm (RVTerm a) rf1))))).
    instantiate (1 := if negb (LastLogTerm a <? Term e) && negb ((LastLogTerm a =? Term e) &&
      (LastLogIndex a <? getLastLogIndex (persist (set_currentTerm (RVTerm a) rf1))))
      then set_leaderNum (CandidateID a) (persist (set_currentTerm (RVTerm a) rf1))
      else persist (set_currentTerm (RVTerm a) rf1)).
    by destruct (LastLogTerm a <? Term e), ((LastLogTerm a =? Term e) && _).
  - by case_match.
  - by case_match.
Qed.

(** ** Winning an election *)

(** The number of granted replies among the events. *)
Fixpoint grants (evs : list cand_event) : Z :=
  match evs with
  | [] => 0
  | CReply r :: evs => (if VoteGranted r then 1 else 0) + grants evs
  | _ :: evs => grants evs
  end.

Lemma grants_nonneg evs : 0 ≤ grants evs.
Proof. induction evs as [|[r| |] evs IH]; simpl; [done| |done|done]. case_match; lia. Qed.

Lemma candidate_loop_won maj rf g evs rf' :
  candidate_loop maj rf g evs = Ok (rf', CReturn false) →
  leaderNum rf ≠ me rf → leaderNum rf' = me rf →
  maj ≤ g + grants evs ∧ currentTerm rf' = currentTerm rf.
Proof.
  revert rf g. induction evs as [|ev evs IH]; intros rf g H Hne Hl; simpl in H; [done|].
  apply bind_Ok in H as ([rf1 st] & Hs & H). pose proof (grants_nonneg evs).
  destruct ev as [r| |]; simpl in Hs; simpl.
  - destruct (VoteGranted r && (maj <=? if VoteGranted r then g + 1 else g)) eqn:Hw.
    + apply andb_true_iff in Hw as [Hv Hm]. rewrite Hv in *. go_bools. simplify_eq/=.
      split; [lia|done].
    + destruct (currentTerm rf <? RVReplyTerm r); simplify_eq/=.
      destruct (IH rf1 _ H Hne Hl) as [? ?]. split; [case_match; lia|done].
  - by simplify_eq/=.
  - destruct (AENotifyChan rf <=? 0); by simplify_eq/=.
Qed.

(** A candidate returns as leader only after a majority: its own vote and
    [majority - 1] granted replies, and it leads the term it asked votes for. *)
Theorem CandidateProcess_majority maj rf evs rf' b :
  CandidateProcess maj rf evs = Ok (rf', CReturn b) → me rf ≠ -1 → leaderNum rf' = me rf →
  b = false → maj ≤ 1 + grants evs ∧ currentTerm rf' = currentTerm rf.
Proof.
  unfold CandidateProcess. intros H Hme Hl ->. go_inv.
  by apply candidate_loop_won in H; simpl; [|congruence|].
Qed.

(** Two sets of [majority n] peers out of [n] always overlap exactly when [n] is
    odd: with an even number of peers [majority] is only half of them. *)
Theorem majority_overlap n : 0 < n → (n < 2 * majority n ↔ Z.Odd n).
Proof.
  intros Hn. unfold majority. split; intros H.
  - exists (n / 2). pose proof (Z.div_mod n 2). pose proof (Z.mod_pos_bound n 2).
    assert ((n + 1) / 2 * 2 ≤ n + 1) by (pose proof (Z.mul_div_le (n + 1) 2); lia). lia.
  - destruct H as [k ->]. replace (2 * k + 1 + 1) with ((k + 1) * 2) by lia.
    rewrite Z.div_mul; lia.
Qed.

Lemma double_vote rf a b :
  wf rf → 2 ≤ peers rf → votedFor rf = me rf →
  RVTerm a = currentTerm rf → RVTerm b = currentTerm rf →
  localLastTerm rf < LastLogTerm a → localLastTerm rf < LastLogTerm b →
  ∃ rf1 rf2, RequestVote rf a = Ok (rf1, MkRVReply (currentTerm rf) true) ∧
             RequestVote rf1 b = Ok (rf2, MkRVReply (currentTerm rf) true).
Proof.
  intros Hwf Hp Hv Ha Hb Hla Hlb.
  assert (Hd : ∀ r c, currentTerm r = currentTerm rf → votedFor r = me r → log r = log rf →
    RVTerm c = currentTerm rf → localLastTerm rf < LastLogTerm c → vote_decision r c = true).
  { intros r c E1 E2 E3 E4 E5. unfold vote_decision, localLastTerm in *.
    rewrite E1, E2, E3, E4, Z.ltb_irrefl, !Z.eqb_refl. by apply Z.ltb_lt. }
  destruct (RequestVote_char rf a Hwf Hp) as (k & _ & E).
  cbv zeta in E. rewrite Ha, Z.ltb_irrefl, (Hd rf a) in E by done. simpl in E.
  destruct (RequestVote_char (set_AENotifyChan k rf) b) as (k' & _ & E'); [by destruct Hwf|done|].
  cbv zeta in E'. simpl in E'. rewrite Hb, Z.ltb_irrefl, (Hd _ b) in E' by done. simpl in E'.
  by eauto.
Qed.

(** Once a peer has been a candidate ([votedFor = me]), it grants its vote in its
    own term to every candidate whose last log term is larger, and does not record
    it: two different candidates of one term both get it. *)
Theorem RequestVote_double_vote rf a b :
  wf rf → 2 ≤ peers rf → votedFor rf = me rf →
  RVTerm a = currentTerm rf → RVTerm b = currentTerm rf →
  localLastTerm rf < LastLogTerm a → localLastTerm rf < LastLogTerm b →
  ∃ rf1 rf2, RequestVote rf a = Ok (rf1, MkRVReply (currentTerm rf) true) ∧
             RequestVote rf1 b = Ok (rf2, MkRVReply (currentTerm rf) true).
Proof. apply double_vote. Qed.

(** Three peers of one term, of which one has an older log: both others collect
    a majority of the three votes, and both are leaders of the same term. *)
Theorem two_leaders_one_term rf0 rf1 rf2 :
  wf rf0 → wf rf1 → wf rf2 → peers rf2 = 3 → votedFor rf2 = me rf2 →
  currentTerm rf0 = currentTerm rf2 → currentTerm rf1 = currentTerm rf2 →
  localLastTerm rf2 < localLastTerm rf0 → localLastTerm rf2 < localLastTerm rf1 →
  ∃ a0 a1 rf2' rf2'' r0 r1 l0 l1,
    candidate_args rf0 = Ok a0 ∧ RequestVote rf2 a0 = Ok (rf2', r0) ∧
    candidate_args rf1 = Ok a1 ∧ RequestVote rf2' a1 = Ok (rf2'', r1) ∧
    CandidateProcess (majority 3) rf0 [CReply r0] = Ok (l0, CReturn false) ∧
    CandidateProcess (majority 3) rf1 [CReply r1] = Ok (l1, CReturn false) ∧
    GetState l0 = (currentTerm rf2, true) ∧ GetState l1 = (currentTerm rf2, true).
Proof.
  intros Hw0 Hw1 Hw2 Hp Hv E0 E1 L0 L1.
  assert (Hargs : ∀ r, wf r → candidate_args r =
    Ok (MkRVArgs (currentTerm r) (me r) (getLastLogIndex r) (localLastTerm r))).
  { intros r Hr. unfold candidate_args. by rewrite localLastTerm_spec. }
  destruct (double_vote rf2
    (MkRVArgs (currentTerm rf0) (me rf0) (getLastLogIndex rf0) (localLastTerm rf0))
    (MkRVArgs (currentTerm rf1) (me rf1) (getLastLogIndex rf1) (localLastTerm rf1)))
    as (rf2' & rf2'' & V0 & V1); try done; [lia|].
  do 8 eexists. split_and!; [by apply Hargs|apply V0|by apply Hargs|apply V1| | | |].
  - unfold CandidateProcess. by rewrite Hargs.
  - unfold CandidateProcess. by rewrite Hargs.
  - unfold GetState. simpl. by rewrite Z.eqb_refl, E0.
  - unfold GetState. simpl. by rewrite Z.eqb_refl, E1.
Qed.

End vote.

(** ** Witnesses: three peers of term 3; peer 2 has an older log. *)
Definition demo_peer (i t : Z) (l : list (CommandTerm Z)) : Raft Z :=
  {| me := i; peers := 3; persister := MkPersister [GInt t; GLog l] [];
     leaderNum := -1; currentTerm := t; votedFor := i; log := l;
     commitIndex := 0; lastApplied := 0; nextIndex := []; matchIndex := [];
     exitFlag := false; AENotifyChan := 0; commandToBeExec := 0; applyCh := [];
     lastIndexInSnapshot := 0; lastTermInSnapshot := 0 |}.

Definition demo_new (i : Z) : Raft Z :=
  demo_peer i 3 [MkCT None 0; MkCT (Some 10) 1; MkCT (Some 20) 2].
Definition demo_old (i : Z) : Raft Z := demo_peer i 3 [MkCT None 0; MkCT (Some 10) 1].

Ltac solve_wf := split; vm_compute; repeat split; discriminate.

Lemma demo_new_wf i : wf (demo_new i).
Proof. solve_wf. Qed.
Lemma demo_old_wf i : wf (demo_old i).
Proof. solve_wf. Qed.

Lemma RequestVote_safe_witness : ∃ rf' reply,
  RequestVote (demo_old 2) (MkRVArgs 5 0 2 2) = Ok (rf', reply) ∧ currentTerm rf' = 5.
Proof.
  destruct (RequestVote_safe (demo_old 2) (MkRVArgs 5 0 2 2) (demo_old_wf 2))
    as (rf' & reply & E & _ & Ht & _); [done|]. by exists rf', reply.
Defined.

Lemma rv_locked_once_witness : ∃ rf1,
  rv_locked (demo_old 2) (MkRVArgs 5 0 2 2) = Ok (rf1, true) ∧
  rv_locked rf1 (MkRVArgs 5 1 2 2) = Ok (rf1, false).
Proof.
  eexists. split; [reflexivity|].
  by apply (rv_locked_once (demo_old 2) (MkRVArgs 5 0 2 2) (MkRVArgs 5 1 2 2) _ true).
Defined.

Lemma rv_interleaving_witness : ∃ rf1 reply rf2 g,
  RequestVote (demo_old 2) (MkRVArgs 6 1 2 2) = Ok (rf1, reply) ∧ currentTerm rf1 = 6 ∧
  rv_locked rf1 (MkRVArgs 5 0 2 2) = Ok (rf2, g) ∧ currentTerm rf2 = 5.
Proof.
  destruct (rv_interleaving_term_regression (demo_old 2) (MkRVArgs 5 0 2 2)
    (MkRVArgs 6 1 2 2) (demo_old_wf 2)) as (rf1 & reply & rf2 & g & _ & H1 & H2 & H3 & H4 & _);
    [done|done|]. by exists rf1, reply, rf2, g.
Defined.

Lemma CandidateProcess_majority_witness : ∃ rf',
  CandidateProcess (majority 3) (demo_new 0) [CReply (MkRVReply 3 true)] = Ok (rf', CReturn false) ∧
  majority 3 ≤ 1 + grants [CReply (MkRVReply 3 true)].
Proof.
  eexists. split; [reflexivity|].
  by apply (CandidateProcess_majority (majority 3) (demo_new 0) [CReply (MkRVReply 3 true)]
    (set_leaderNum 0 (candidate_begin (demo_new 0))) false).
Defined.

Lemma majority_overlap_witness : 5 < 2 * majority 5 ↔ Z.Odd 5.
Proof. apply (majority_overlap 5). lia. Defined.

Lemma RequestVote_double_vote_witness : ∃ rf1 rf2,
  RequestVote (demo_old 2) (MkRVArgs 3 0 2 2) = Ok (rf1, MkRVReply 3 true) ∧
  RequestVote rf1 (MkRVArgs 3 1 2 2) = Ok (rf2, MkRVReply 3 true).
Proof.
  apply (RequestVote_double_vote (demo_old 2) (MkRVArgs 3 0 2 2) (MkRVArgs 3 1 2 2)
    (demo_old_wf 2)); done.
Defined.

Lemma two_leaders_witness : ∃ l0 l1 r0 r1,
  CandidateProcess (majority 3) (demo_new 0) [CReply r0] = Ok (l0, CReturn false) ∧
  CandidateProcess (majority 3) (demo_new 1) [CReply r1] = Ok (l1, CReturn false) ∧
  GetState l0 = (3, true) ∧ GetState l1 = (3, true).
Proof.
  destruct (two_leaders_one_term (demo_new 0) (demo_new 1) (demo_old 2))
    as (a0 & a1 & v & w & r0 & r1 & l0 & l1 & H);
    [apply demo_new_wf|apply demo_new_wf|apply demo_old_wf|done..|].
  destruct H as (_ & _ & _ & _ & H1 & H2 & H3 & H4). by exists l0, l1, r0, r1.
Defined.
