(* ===== verification/RaftAppend.v ===== *)
(** * Log replication on the follower: the [AppendEntry] handler of [raft/raft.go], run without
    interference.  Its two critical sections are [ae_deliver] and [ae_write]; [AppendEntry_t] of
    [RaftThreads] lets others run between them and the statements around them. *)

From S2P Require Import Prelude RaftState RaftVote.

Section append.
Context {cmd : Type}.
Implicit Types rf : Raft cmd.

(** An empty slice and [nil] are not told apart by the encoding the arguments
    travel in, so [Entries == nil] is emptiness. *)
Record AppendEntryArgs := MkAEArgs {
  AETerm : Z;
  LeaderID : Z;
  PrevLogIndex : Z;
  PrevLogTerm : Z;
  Entries : list (CommandTerm cmd);
  LeaderCommit : Z;
}.

Record AppendEntryReply := MkAEReply {
  AEMe : Z;
  AEReplyTerm : Z;
  AESuccess : bool;
  AELastLogIndex : Z;
  AECommitIndex : Z;
  TermOfArgsPreLogIndex : Z;
}.

(** The term of the leader: step down if needed, adopt the term, persist. *)
Definition ae_term rf (args : AppendEntryArgs) : Raft cmd :=
  if currentTerm rf <? AETerm args then
    persist (if leaderNum rf =? me rf
             then set_currentTerm (AETerm args) (set_leaderNum (LeaderID args) rf)
             else set_currentTerm (AETerm args) rf)
  else rf.

(** [for i := getTrueIndex(PrevLogIndex); i > 0; i--]: the first smaller term found
    going down from position [i], [ret] if there is none. *)
Fixpoint ae_back_term (l : list (CommandTerm cmd)) (i : nat) (prevTerm ret : Z) : outcome Z :=
  match i with
  | O => Ok ret
  | S i' =>
      e ← must (zlookup l (Z.of_nat i));
      if Term e <? prevTerm then Ok (Term e) else ae_back_term l i' prevTerm ret
  end.

(** The consistency check: [None] to go on, or the refusal's
    ([LastLogIndex], [TermOfArgsPreLogIndex]). *)
Definition ae_consistent rf (args : AppendEntryArgs) : outcome (option (Z * Z)) :=
  if getLastLogIndex rf + 1 <=? PrevLogIndex args then
    t ← lastLogTerm rf; Ok (Some (getLastLogIndex rf, t))
  else
    e ← must (zlookup (log rf) (getTrueIndex rf (PrevLogIndex args)));
    if Term e =? PrevLogTerm args then Ok None else
    t ← (if PrevLogTerm args <? Term e
         then ae_back_term (log rf) (Z.to_nat (getTrueIndex rf (PrevLogIndex args)))
                (PrevLogTerm args) (Term e)
         else Ok (Term e));
    Ok (Some (0, t)).

(** [for ind := range rf.log[pre:aft]] with [n] iterations left. *)
Fixpoint ae_apply_loop (n : nat) (ind pre : Z) rf (msgs : list (ApplyMsg cmd)) :
    outcome (Raft cmd * list (ApplyMsg cmd)) :=
  match n with
  | O => Ok (rf, msgs)
  | S n =>
      let index := getNameIndex rf (ind + pre + 1) in
      e ← must (zlookup (log rf) (getTrueIndex rf index));
      if commitIndex rf <? index
      then ae_apply_loop n (ind + 1) pre (set_commitIndex index rf)
             (msgs ++ [MkApplyMsg true (Command e) index ∅ ∅])
      else ae_apply_loop n (ind + 1) pre rf msgs
  end.

(** Which entries the leader's commit index lets the peer apply. *)
Definition ae_range rf (args : AppendEntryArgs) : Z * Z :=
  if commitIndex rf <? LeaderCommit args then
    (commitIndex rf,
     if PrevLogIndex args <? LeaderCommit args then PrevLogIndex args else LeaderCommit args)
  else (0, 0).

(** The first critical section: the commit index, and the messages that are sent before the lock is
    given back. *)
Definition ae_deliver rf (preCommitIndex aftCommitIndex : Z) :
    outcome (Raft cmd * list (ApplyMsg cmd)) :=
  let pre := getTrueIndex rf preCommitIndex in
  let aft := getTrueIndex rf aftCommitIndex in
  let aft := if len (log rf) <=? aft then pre else aft in
  s ← must (slice (log rf) pre aft);
  ae_apply_loop (length s) 0 pre rf [].

Definition ae_commit rf (args : AppendEntryArgs) : outcome (Raft cmd) :=
  let '(pre, aft) := ae_range rf args in
  '(rf, msgs) ← ae_deliver rf pre aft;
  Ok (persist (set_applyCh (applyCh rf ++ msgs) rf)).

(** [for _, oneLog := range args.Entries] *)
Fixpoint ae_write_loop rf (startInd : Z) (es : list (CommandTerm cmd)) :
    outcome (Raft cmd * Z) :=
  match es with
  | [] => Ok (rf, startInd)
  | oneLog :: es =>
      if getNameIndex rf startInd <=? commitIndex rf then Ok (rf, startInd) else
      l ← (if len (log rf) <=? startInd then Ok (log rf ++ [oneLog])
           else must (zinsert (log rf) startInd oneLog));
      match Command oneLog with
      | None => Panic
      | Some _ => ae_write_loop (set_log l rf) (startInd + 1) es
      end
  end.

(** The second critical section. *)
Definition ae_write rf (args : AppendEntryArgs) : outcome (Raft cmd) :=
  let startInd := getTrueIndex rf (PrevLogIndex args + 1) in
  if (1 <=? startInd) && (startInd <=? len (log rf)) then
    '(rf, startInd) ← ae_write_loop rf startInd (Entries args);
    if startInd <? len (log rf) - 1 then
      e ← must (zlookup (log rf) (startInd - 1));
      t ← lastLogTerm rf;
      if t <? Term e then
        l ← must (slice_to (log rf) startInd); Ok (set_log l rf)
      else Ok rf
    else Ok rf
  else Ok rf.

Definition ae_append rf (args : AppendEntryArgs) : outcome (Raft cmd) :=
  rf ← ae_write rf args; Ok (persist rf).

Definition AppendEntry rf (args : AppendEntryArgs) : outcome (Raft cmd * AppendEntryReply) :=
  let curTerm := currentTerm rf in
  let reply ok last commit t := MkAEReply (me rf) curTerm ok last commit t in
  if AETerm args <? curTerm then Ok (rf, reply false 0 0 0) else
  let rf := ae_term rf args in
  rf ← notifyAE rf 3;
  c ← ae_consistent rf args;
  match c with
  | Some (last, t) => Ok (rf, reply false last 0 t)
  | None =>
      if PrevLogIndex args <? commitIndex rf
      then Ok (rf, reply true 0 (commitIndex rf) 0) else
      rf ← ae_commit rf args;
      if bool_decide (Entries args = []) then Ok (rf, reply true 0 0 0) else
      rf ← ae_append rf args;
      Ok (rf, reply true 0 0 0)
  end.

(** ** The commit step *)

(** The messages for the entries with name indices [lo+1 .. lo+n] of the log of [rf]. *)
Fixpoint apply_msgs rf (lo : Z) (n : nat) : list (ApplyMsg cmd) :=
  match n with
  | O => []
  | S n => MkApplyMsg true (entry_at rf (lo + 1) ≫= Command) (lo + 1) ∅ ∅
             :: apply_msgs rf (lo + 1) n
  end.

Lemma apply_msgs_log rf rf' lo n :
  log rf' = log rf → lastIndexInSnapshot rf' = lastIndexInSnapshot rf →
  apply_msgs rf' lo n = apply_msgs rf lo n.
Proof.
  intros Hl Hs. revert lo. induction n as [|n IH]; intros lo; simpl; [done|].
  unfold entry_at. by rewrite Hl, Hs, IH.
Qed.

(** The loop, started at the commit index, applies exactly the next [n] entries. *)
Lemma ae_apply_loop_spec n ind pre rf msgs :
  wf rf → commitIndex rf = getNameIndex rf (ind + pre) →
  commitIndex rf + Z.of_nat n ≤ getLastLogIndex rf →
  ae_apply_loop n ind pre rf msgs =
    Ok (set_commitIndex (commitIndex rf + Z.of_nat n) rf,
        msgs ++ apply_msgs rf (commitIndex rf) n).
Proof.
  revert ind rf msgs. induction n as [|n IH]; intros ind rf msgs Hwf Hc Hle; simpl.
  { rewrite app_nil_r, Z.add_0_r. by destruct rf. }
  pose proof Hwf as [H1 H2 H3].
  assert (Hi : getNameIndex rf (ind + pre + 1) = commitIndex rf + 1)
    by (unfold getNameIndex in *; lia).
  rewrite Hi. destruct (log_lookup_total rf (commitIndex rf + 1) Hwf) as [e He]; [lia|].
  rewrite He. simpl. destruct (Z.ltb_spec (commitIndex rf) (commitIndex rf + 1)); [|lia].
  rewrite entry_at_true in He by lia. rewrite IH; simpl.
  - f_equal. f_equal; [unfold set_commitIndex; simpl; f_equal; lia|].
    rewrite <- app_assoc. simpl. rewrite He. simpl. do 2 f_equal. by apply apply_msgs_log.
  - split; simpl; unfold getLastLogIndex in *; simpl; lia.
  - unfold getNameIndex in *. simpl. lia.
  - unfold getLastLogIndex in *. simpl. lia.
Qed.

(** The new commit index of a consistent request. *)
Definition ae_new_commit rf (args : AppendEntryArgs) : Z :=
  Z.max (commitIndex rf) (Z.min (LeaderCommit args) (PrevLogIndex args)).

Definition ae_committed rf (args : AppendEntryArgs) : Raft cmd :=
  persist (set_applyCh
    (applyCh rf ++ apply_msgs rf (commitIndex rf)
                     (Z.to_nat (ae_new_commit rf args - commitIndex rf)))
    (set_commitIndex (ae_new_commit rf args) rf)).

Lemma ae_commit_spec rf args :
  wf rf → commitIndex rf ≤ PrevLogIndex args ≤ getLastLogIndex rf →
  ae_commit rf args = Ok (ae_committed rf args).
Proof.
  intros Hwf Hp. pose proof Hwf as [H1 H2 H3]. unfold ae_commit, ae_range, ae_deliver, ae_committed, ae_new_commit.
  assert (Hgo : ∀ pre aft, pre = getTrueIndex rf (commitIndex rf) →
    aft = getTrueIndex rf (Z.max (commitIndex rf) (Z.min (LeaderCommit args) (PrevLogIndex args))) →
    ('(rf, msgs) ← (s ← must (slice (log rf) pre (if len (log rf) <=? aft then pre else aft));
       ae_apply_loop (length s) 0 pre rf []);
     Ok (persist (set_applyCh (applyCh rf ++ msgs) rf))) = Ok (ae_committed rf args)).
  { intros pre aft -> ->. rewrite !getTrueIndex_ge by lia. unfold getLastLogIndex in *.
    destruct (Z.leb_spec (len (log rf)) (Z.max (commitIndex rf)
      (Z.min (LeaderCommit args) (PrevLogIndex args)) - lastIndexInSnapshot rf)); [lia|].
    unfold slice. rewrite decide_True by lia. simpl.
    rewrite ae_apply_loop_spec; [|done|unfold getNameIndex; lia|].
    - simpl. unfold ae_committed, ae_new_commit. do 2 f_equal.
      rewrite length_take, length_drop. unfold len in *.
      rewrite Nat.min_l by lia. unfold set_applyCh, set_commitIndex. simpl. f_equal; [lia|].
      do 2 f_equal. lia.
    - unfold getLastLogIndex, len in *. rewrite length_take, length_drop. lia. }
  destruct (Z.ltb_spec (commitIndex rf) (LeaderCommit args)).
  - apply Hgo; [done|]. f_equal.
    destruct (Z.ltb_spec (PrevLogIndex args) (LeaderCommit args)); lia.
  - rewrite Z.max_l by lia. rewrite Z.sub_diag. simpl. rewrite app_nil_r.
    destruct (Z.leb_spec (len (log rf)) (getTrueIndex rf 0)).
    all: assert (getTrueIndex rf 0 = 0) as -> by
      (unfold getTrueIndex; destruct (Z.ltb_spec (0 - lastIndexInSnapshot rf) 0); lia).
    all: unfold slice; rewrite decide_True by lia; simpl; rewrite app_nil_r; by destruct rf.
Qed.

(** ** The append step *)

(** [es] written over [l] from position [i] on. *)
Definition overwrite (l es : list (CommandTerm cmd)) (i : Z) : list (CommandTerm cmd) :=
  take (Z.to_nat i) l ++ es ++ drop (Z.to_nat i + length es) l.

Lemma len_overwrite l es i :
  0 ≤ i ≤ len l → len (overwrite l es i) = Z.max (len l) (i + len es).
Proof.
  intros. unfold overwrite. rewrite !len_app, len_take, len_drop. unfold len in *. lia.
Qed.

Lemma overwrite_before l es i j : 0 ≤ i ≤ len l → j < i → zlookup (overwrite l es i) j = zlookup l j.
Proof.
  intros. unfold overwrite. rewrite zlookup_app_l by (rewrite len_take; lia).
  apply zlookup_take. lia.
Qed.

Lemma overwrite_in l es i j :
  0 ≤ i ≤ len l → 0 ≤ j < len es → zlookup (overwrite l es i) (i + j) = zlookup es j.
Proof.
  intros. unfold overwrite. rewrite zlookup_app_r by (rewrite len_take; lia).
  rewrite zlookup_app_l by (rewrite len_take; lia). f_equal. rewrite len_take. lia.
Qed.

Lemma overwrite_after l es i j :
  0 ≤ i ≤ len l → i + len es ≤ j → zlookup (overwrite l es i) j = zlookup l j.
Proof.
  intros Hi Hj. unfold overwrite. rewrite zlookup_app_r by (rewrite len_take; unfold len in *; lia).
  rewrite zlookup_app_r by (rewrite len_take; unfold len in *; lia).
  rewrite len_take. rewrite zlookup_drop by (unfold len in *; lia). f_equal. unfold len in *. lia.
Qed.

Lemma ae_write_loop_spec rf i es :
  0 ≤ i ≤ len (log rf) → commitIndex rf < getNameIndex rf i →
  Forall (λ e, Command e ≠ None) es →
  ae_write_loop rf i es = Ok (set_log (overwrite (log rf) es i) rf, i + len es).
Proof.
  intros Hi Hc Hes. revert rf i Hi Hc. induction Hes as [|e es He _ IH]; intros rf i Hi Hc; simpl.
  { unfold overwrite. rewrite len_nil, Z.add_0_r, Nat.add_0_r. simpl.
    rewrite take_drop. by destruct rf. }
  destruct (Z.leb_spec (getNameIndex rf i) (commitIndex rf)); [lia|].
  assert (∃ l, (if len (log rf) <=? i then Ok (log rf ++ [e]) else must (zinsert (log rf) i e)) = Ok l
    ∧ l = overwrite (log rf) [e] i) as (l & -> & Hl).
  { unfold overwrite. destruct (Z.leb_spec (len (log rf)) i).
    - eexists; split; [done|]. assert (i = len (log rf)) as -> by lia. unfold len.
      rewrite Nat2Z.id, take_ge, drop_ge by (simpl; lia). done.
    - unfold zinsert. rewrite decide_True by lia. eexists; split; [done|].
      rewrite insert_take_drop by (unfold len in *; lia). simpl. by rewrite Nat.add_comm. }
  simpl. destruct (Command e) as [c|] eqn:Ec; [|done].
  assert (Hll : len l = Z.max (len (log rf)) (i + 1))
    by (subst l; rewrite len_overwrite by done; done).
  rewrite IH; [|simpl; lia|unfold getNameIndex in *; simpl; lia].
  rewrite len_cons. f_equal. f_equal; [|lia]. unfold set_log. simpl. f_equal. subst l.
  apply list_eq_zlookup. intros j Hj.
  assert (H1 : len [e] = 1) by done. pose proof (len_nonneg es). simpl in Hll.
  pose proof (len_cons e es) as Hcons.
  destruct (decide (j < i)).
  { by rewrite !overwrite_before by lia. }
  destruct (decide (j = i)) as [->|].
  { rewrite overwrite_before by lia. replace i with (i + 0) at 2 4 by lia.
    by rewrite !overwrite_in by lia. }
  destruct (decide (j < i + 1 + len es)).
  { replace j with (i + 1 + (j - (i + 1))) at 1 by lia. replace j with (i + (j - i)) at 2 by lia.
    rewrite !overwrite_in by lia. unfold zlookup. rewrite !decide_True by lia.
    by replace (Z.to_nat (j - i)) with (S (Z.to_nat (j - (i + 1)))) by lia. }
  by rewrite !overwrite_after by lia.
Qed.

(** The log after the entries are written: shortened only when at least two old
    entries are left behind them and the last one has a smaller term. *)
Definition ae_new_log rf (args : AppendEntryArgs) : list (CommandTerm cmd) :=
  let i := PrevLogIndex args + 1 - lastIndexInSnapshot rf in
  let l := overwrite (log rf) (Entries args) i in
  let n := i + len (Entries args) in
  match zlookup l (n - 1), zlookup l (len l - 1) with
  | Some e, Some e' =>
      if (n <? len l - 1) && (Term e' <? Term e) then take (Z.to_nat n) l else l
  | _, _ => l
  end.

Lemma ae_append_spec rf args :
  wf rf → commitIndex rf ≤ PrevLogIndex args ≤ getLastLogIndex rf →
  Forall (λ e, Command e ≠ None) (Entries args) →
  ae_append rf args = Ok (persist (set_log (ae_new_log rf args) rf)).
Proof.
  intros Hwf Hp Hes. pose proof Hwf as [H1 H2 H3]. unfold ae_append, ae_write, getLastLogIndex in *.
  rewrite getTrueIndex_ge by lia. unfold ae_new_log.
  set (i := PrevLogIndex args + 1 - lastIndexInSnapshot rf).
  destruct (Z.leb_spec 1 i); [|lia]. destruct (Z.leb_spec i (len (log rf))); [|lia]. simpl.
  rewrite ae_write_loop_spec; [|lia|unfold getNameIndex; lia|done]. simpl.
  pose proof (len_overwrite (log rf) (Entries args) i) as Hl.
  pose proof (len_nonneg (Entries args)).
  set (l := overwrite (log rf) (Entries args) i) in *.
  destruct (zlookup_lt_Some l (i + len (Entries args) - 1)) as [e He]; [lia|].
  destruct (zlookup_lt_Some l (len l - 1)) as [e' He']; [lia|].
  unfold lastLogTerm. simpl. rewrite He, He'. simpl.
  destruct (Z.ltb_spec (i + len (Entries args)) (len l - 1)); simpl; [|done].
  destruct (Z.ltb_spec (Term e') (Term e)); simpl; [|done].
  unfold slice_to. rewrite decide_True by lia. done.
Qed.

Lemma ae_new_log_before rf args j :
  wf rf → commitIndex rf ≤ PrevLogIndex args ≤ getLastLogIndex rf →
  j ≤ PrevLogIndex args - lastIndexInSnapshot rf + len (Entries args) →
  zlookup (ae_new_log rf args) j =
  zlookup (overwrite (log rf) (Entries args) (PrevLogIndex args + 1 - lastIndexInSnapshot rf)) j.
Proof.
  intros [H1 H2 H3] Hp Hj. unfold ae_new_log, getLastLogIndex in *.
  repeat case_match; try done. apply zlookup_take. pose proof (len_nonneg (Entries args)). lia.
Qed.

Lemma ae_new_log_len rf args :
  wf rf → commitIndex rf ≤ PrevLogIndex args ≤ getLastLogIndex rf →
  PrevLogIndex args + 1 - lastIndexInSnapshot rf + len (Entries args) ≤ len (ae_new_log rf args).
Proof.
  intros [H1 H2 H3] Hp. unfold ae_new_log, getLastLogIndex in *.
  pose proof (len_nonneg (Entries args)).
  pose proof (len_overwrite (log rf) (Entries args) (PrevLogIndex args + 1 - lastIndexInSnapshot rf)).
  repeat case_match; try lia. rewrite len_take. lia.
Qed.

(** ** The consistency check *)

Definition consistent rf (args : AppendEntryArgs) : Prop :=
  PrevLogIndex args ≤ getLastLogIndex rf ∧
  ∃ e, zlookup (log rf) (getTrueIndex rf (PrevLogIndex args)) = Some e ∧
       Term e = PrevLogTerm args.

Lemma ae_back_term_spec l i prev ret :
  Z.of_nat i < len l → ∃ t, ae_back_term l i prev ret = Ok t ∧
    (t = ret ∨ ∃ j e, 0 < j ≤ Z.of_nat i ∧ zlookup l j = Some e ∧ Term e = t ∧ t < prev).
Proof.
  induction i as [|i IH]; intros Hi; [by eauto|]. cbn [ae_back_term].
  destruct (zlookup_lt_Some l (Z.of_nat (S i))) as [e He]; [lia|]. rewrite He. simpl.
  destruct (Z.ltb_spec (Term e) prev).
  - eexists; split; [done|]. right. exists (Z.of_nat (S i)), e. split_and!; try done; lia.
  - destruct IH as (t & -> & Ht); [lia|]. eexists; split; [done|].
    destruct Ht as [->|(j & e' & ? & ? & ? & ?)]; [by left|].
    right. exists j, e'. split_and!; try done; lia.
Qed.

Lemma ae_consistent_spec rf args :
  wf rf → ∃ c, ae_consistent rf args = Ok c ∧
    match c with
    | None => consistent rf args
    | Some (last, t) =>
        ¬ consistent rf args ∧ (last = 0 ∨ last = getLastLogIndex rf) ∧
        ∃ j e, 0 ≤ j < len (log rf) ∧ zlookup (log rf) j = Some e ∧ Term e = t
    end.
Proof.
  intros Hwf. pose proof Hwf as [H1 H2 H3]. unfold ae_consistent, consistent.
  destruct (Z.leb_spec (getLastLogIndex rf + 1) (PrevLogIndex args)).
  { destruct (lastLogTerm_Ok rf Hwf) as (e & -> & He). simpl. eexists; split; [done|].
    simpl. split; [lia|]. split; [by right|]. exists (len (log rf) - 1), e.
    split_and!; try done; lia. }
  destruct (log_lookup_total rf (PrevLogIndex args) Hwf) as [e He]; [lia|].
  rewrite He. simpl. destruct (Z.eqb_spec (Term e) (PrevLogTerm args)) as [Heq|Hne].
  { eexists; split; [done|]. simpl. split; [lia|]. eauto. }
  assert (¬ (PrevLogIndex args ≤ getLastLogIndex rf ∧ ∃ e0, Some e = Some e0 ∧
    Term e0 = PrevLogTerm args)) as Hn by naive_solver.
  pose proof (getTrueIndex_bound rf (PrevLogIndex args) Hwf ltac:(lia)) as Hb.
  destruct (PrevLogTerm args <? Term e).
  - destruct (ae_back_term_spec (log rf) (Z.to_nat (getTrueIndex rf (PrevLogIndex args)))
      (PrevLogTerm args) (Term e)) as (t & -> & Ht); [lia|].
    simpl. eexists; split; [done|]. simpl. split; [done|]. split; [by left|].
    destruct Ht as [->|(j & e' & ? & ? & ? & ?)];
      [exists (getTrueIndex rf (PrevLogIndex args)), e; split_and!; try done; lia|].
    exists j, e'. split_and!; try done; lia.
  - simpl. eexists; split; [done|]. simpl. split; [done|]. split; [by left|].
    exists (getTrueIndex rf (PrevLogIndex args)), e. split_and!; try done; lia.
Qed.

(** ** The whole handler, case by case *)

Inductive ae_outcome rf (args : AppendEntryArgs) : Raft cmd → AppendEntryReply → Prop :=
| ae_old_term reply :
    AETerm args < currentTerm rf → AESuccess reply = false →
    ae_outcome rf args rf reply
| ae_refused k reply :
    currentTerm rf ≤ AETerm args → ¬ consistent rf args → AESuccess reply = false →
    (AELastLogIndex reply = 0 ∨ AELastLogIndex reply = getLastLogIndex rf) →
    (∃ j e, 0 ≤ j < len (log rf) ∧ zlookup (log rf) j = Some e ∧
            Term e = TermOfArgsPreLogIndex reply) →
    ae_outcome rf args (set_AENotifyChan k (ae_term rf args)) reply
| ae_already k reply :
    currentTerm rf ≤ AETerm args → consistent rf args →
    PrevLogIndex args < commitIndex rf → AESuccess reply = true →
    AECommitIndex reply = commitIndex rf →
    ae_outcome rf args (set_AENotifyChan k (ae_term rf args)) reply
| ae_accepted k reply rf2 :
    currentTerm rf ≤ AETerm args → consistent rf args →
    commitIndex rf ≤ PrevLogIndex args → AESuccess reply = true → AECommitIndex reply = 0 →
    rf2 = ae_committed (set_AENotifyChan k (ae_term rf args)) args →
    ae_outcome rf args
      (if bool_decide (Entries args = []) then rf2
       else persist (set_log (ae_new_log rf2 args) rf2)) reply.

Lemma ae_term_fields rf args :
  log (ae_term rf args) = log rf ∧
  lastIndexInSnapshot (ae_term rf args) = lastIndexInSnapshot rf ∧
  commitIndex (ae_term rf args) = commitIndex rf ∧ applyCh (ae_term rf args) = applyCh rf ∧
  peers (ae_term rf args) = peers rf ∧
  snapshot (persister (ae_term rf args)) = snapshot (persister rf).
Proof. unfold ae_term. repeat case_match; by split_and!. Qed.

Lemma ae_term_term rf args :
  currentTerm (ae_term rf args) = Z.max (currentTerm rf) (AETerm args).
Proof.
  unfold ae_term. destruct (Z.ltb_spec (currentTerm rf) (AETerm args)); [|lia].
  case_match; simpl; lia.
Qed.

Lemma ae_term_durable rf args : durable rf → durable (ae_term rf args).
Proof.
  intros [Hs Hr]. unfold ae_term. case_match; [|done].
  apply persist_durable. by case_match.
Qed.

Lemma AppendEntry_cases rf args :
  wf rf → 3 ≤ peers rf → Forall (λ e, Command e ≠ None) (Entries args) →
  ∃ rf' reply, AppendEntry rf args = Ok (rf', reply) ∧ ae_outcome rf args rf' reply.
Proof.
  intros Hwf Hpeers Hes. unfold AppendEntry.
  destruct (Z.ltb_spec (AETerm args) (currentTerm rf)).
  { do 2 eexists; split; [done|]. by constructor. }
  destruct (ae_term_fields rf args) as (El & Es & Ec & Ea & Ep & _).
  destruct (notifyAE_Ok (ae_term rf args) 3) as (k & -> & _); [by rewrite Ep|]. simpl.
  set (rf1 := set_AENotifyChan k (ae_term rf args)).
  assert (Hwf1 : wf rf1) by (by apply (wf_log_eq rf)).
  assert (Hcons : consistent rf1 args ↔ consistent rf args)
    by (unfold consistent, getLastLogIndex, getTrueIndex; simpl; by rewrite El, Es).
  destruct (ae_consistent_spec rf1 args Hwf1) as ([[last t]|] & -> & Hc); simpl.
  - destruct Hc as (Hn & Hlast & Hj). do 2 eexists; split; [done|].
    apply ae_refused; simpl in *; try done; [by rewrite <- Hcons| |by rewrite El in Hj].
    unfold getLastLogIndex in *. simpl in *. by rewrite El, Es in Hlast.
  - apply Hcons in Hc. rewrite Ec.
    destruct (Z.ltb_spec (PrevLogIndex args) (commitIndex rf)).
    { do 2 eexists; split; [done|]. by apply ae_already. }
    assert (Hrange : commitIndex rf1 ≤ PrevLogIndex args ≤ getLastLogIndex rf1).
    { unfold getLastLogIndex. simpl. rewrite El, Es, Ec. destruct Hc as [Hc _].
      unfold getLastLogIndex in Hc. lia. }
    rewrite (ae_commit_spec rf1 args Hwf1 Hrange). simpl.
    assert (Hacc : ∀ reply, AESuccess reply = true → AECommitIndex reply = 0 →
      ae_outcome rf args (if bool_decide (Entries args = []) then ae_committed rf1 args
        else persist (set_log (ae_new_log (ae_committed rf1 args) args) (ae_committed rf1 args)))
        reply) by (intros reply ? ?; by apply (ae_accepted rf args k reply)).
    case_bool_decide as HE; [by eauto|].
    rewrite ae_append_spec; [by eauto| | |done]; destruct Hwf1 as [H1 H2 H3];
      [split|]; unfold ae_committed, ae_new_commit, getLastLogIndex in *; simpl in *; lia.
Qed.

(** ** Properties of log replication *)

Lemma ae_committed_fields rf args k :
  let rf2 := ae_committed (set_AENotifyChan k (ae_term rf args)) args in
  log rf2 = log rf ∧ lastIndexInSnapshot rf2 = lastIndexInSnapshot rf ∧
  commitIndex rf2 = ae_new_commit rf args ∧
  applyCh rf2 = applyCh rf ++ apply_msgs rf (commitIndex rf)
                  (Z.to_nat (ae_new_commit rf args - commitIndex rf)) ∧
  currentTerm rf2 = Z.max (currentTerm rf) (AETerm args) ∧
  (snap_sync rf → snap_sync rf2).
Proof.
  destruct (ae_term_fields rf args) as (El & Es & Ec & Ea & Ep & Esn).
  unfold ae_committed, ae_new_commit. simpl. rewrite Ec, Ea. split_and!; try done.
  - f_equal. by apply apply_msgs_log.
  - apply ae_term_term.
  - unfold snap_sync. simpl. by rewrite Es, Esn.
Qed.

(** Facts about an accepted request, whichever way it ends. *)
Lemma ae_accepted_spec rf args k rf2 rf' :
  wf rf → consistent rf args → commitIndex rf ≤ PrevLogIndex args →
  rf2 = ae_committed (set_AENotifyChan k (ae_term rf args)) args →
  rf' = (if bool_decide (Entries args = []) then rf2
         else persist (set_log (ae_new_log rf2 args) rf2)) →
  wf rf' ∧ lastIndexInSnapshot rf' = lastIndexInSnapshot rf ∧
  commitIndex rf' = ae_new_commit rf args ∧
  applyCh rf' = applyCh rf ++ apply_msgs rf (commitIndex rf)
                  (Z.to_nat (commitIndex rf' - commitIndex rf)) ∧
  currentTerm rf' = Z.max (currentTerm rf) (AETerm args) ∧
  (snap_sync rf → durable rf') ∧
  (∀ i, i ≤ PrevLogIndex args → entry_at rf' i = entry_at rf i) ∧
  (∀ j, 0 ≤ j < len (Entries args) →
     entry_at rf' (PrevLogIndex args + 1 + j) = zlookup (Entries args) j).
Proof.
  intros Hwf [Hlast _] Hc -> ->. pose proof Hwf as [H1 H2 H3].
  destruct (ae_committed_fields rf args k) as (El & Es & Ec & Ea & Et & Hsn).
  set (rf2 := ae_committed (set_AENotifyChan k (ae_term rf args)) args) in *.
  assert (Hnc : commitIndex rf ≤ ae_new_commit rf args ≤ PrevLogIndex args)
    by (unfold ae_new_commit; lia).
  assert (Hwf2 : wf rf2).
  { split; unfold getLastLogIndex in *; rewrite ?El, ?Es, ?Ec; lia. }
  assert (Hd2 : snap_sync rf → durable rf2).
  { intros Hs. split; [by apply Hsn|]. unfold rf2, ae_committed. simpl. eauto. }
  clearbody rf2. case_bool_decide as HE.
  - rewrite HE. rewrite Ec. split_and!; try done.
    + intros i _. unfold entry_at. by rewrite El, Es.
    + intros j Hj. unfold len in Hj. simpl in Hj. lia.
  - assert (Hr2 : commitIndex rf2 ≤ PrevLogIndex args ≤ getLastLogIndex rf2)
      by (unfold getLastLogIndex in *; rewrite El, Es, Ec; lia).
    pose proof (ae_new_log_len rf2 args Hwf2 Hr2) as Hlen.
    pose proof (λ j, ae_new_log_before rf2 args j Hwf2 Hr2) as Hbef.
    pose proof (len_nonneg (Entries args)). unfold getLastLogIndex in *.
    rewrite Es in Hlen. rewrite El, Es in Hbef. simpl. rewrite Ec, Es. split_and!; try done.
    + split; unfold getLastLogIndex; simpl; rewrite ?Es, ?Ec; lia.
    + by intros Hs%Hd2; destruct Hs as [Hs _]; split; [apply Hs|eexists].
    + intros i Hi. unfold entry_at. simpl. rewrite Es. rewrite Hbef by lia.
      apply overwrite_before; lia.
    + intros j Hj. unfold entry_at. simpl. rewrite Es. rewrite Hbef by lia.
      replace (PrevLogIndex args + 1 + j - lastIndexInSnapshot rf)
        with (PrevLogIndex args + 1 - lastIndexInSnapshot rf + j) by lia.
      apply overwrite_in; lia.
Qed.

(** C6. [AppendEntry] run by itself on a well-formed peer of a cluster of three or more, with a
    request all of whose entries hold a command (the code panics on one that does not): it never
    panics, nor blocks on [AENotifyChan] (its sends on [applyCh] wait for the service), and
    keeps the peer well formed; the term becomes the larger of the two; the commit index never
    decreases and never passes the leader's; no entry up to the (new) commit index is changed or
    removed; and a peer whose state was on disk has its new state on disk. *)
Theorem AppendEntry_safe rf args :
  wf rf → 3 ≤ peers rf → Forall (λ e, Command e ≠ None) (Entries args) →
  ∃ rf' reply, AppendEntry rf args = Ok (rf', reply) ∧ wf rf' ∧
    currentTerm rf' = Z.max (currentTerm rf) (AETerm args) ∧
    commitIndex rf ≤ commitIndex rf' ≤ Z.max (commitIndex rf) (LeaderCommit args) ∧
    (∀ i, i ≤ commitIndex rf' → entry_at rf' i = entry_at rf i) ∧
    (durable rf → durable rf').
Proof.
  intros Hwf Hp Hes. destruct (AppendEntry_cases rf args Hwf Hp Hes) as (rf' & reply & E & Hout).
  exists rf', reply. split; [done|]. clear E.
  destruct (ae_term_fields rf args) as (El & Es & Ec & Ea & Ep & _).
  assert (Hpre : ∀ k, wf (set_AENotifyChan k (ae_term rf args)) ∧
    ∀ i, entry_at (set_AENotifyChan k (ae_term rf args)) i = entry_at rf i).
  { intros k. split; [by apply (wf_log_eq rf)|]. intros i. unfold entry_at. simpl. by rewrite El, Es. }
  destruct Hout as [reply Ht _|k reply Ht _ _ _ _|k reply Ht _ _ _ _|k reply rf2 Ht Hcons Hc _ _ ->].
  - split_and!; try done; lia.
  - destruct (Hpre k) as [Hw He]. split_and!; simpl; rewrite ?Ec; try done; try lia.
    + apply ae_term_term.
    + by intros Hd%(ae_term_durable _ args).
  - destruct (Hpre k) as [Hw He]. split_and!; simpl; rewrite ?Ec; try done; try lia.
    + apply ae_term_term.
    + by intros Hd%(ae_term_durable _ args).
  - edestruct (ae_accepted_spec rf args k _ _ Hwf Hcons Hc eq_refl eq_refl)
      as (Hw & Hs & Hci & _ & Htm & Hd & Hbef & _).
    split_and!; try done; rewrite ?Hci; unfold ae_new_commit; try lia.
    + intros i Hi. apply Hbef. lia.
    + intros [Hd' _]. by apply Hd.
Qed.

(** The service sees every committed entry once and in order: what the handler
    sends on [applyCh] is exactly the entries from the old commit index (excluded)
    to the new one (included), each with its index and command. *)
Theorem AppendEntry_applies rf args rf' reply :
  wf rf → 3 ≤ peers rf → Forall (λ e, Command e ≠ None) (Entries args) →
  AppendEntry rf args = Ok (rf', reply) →
  applyCh rf' = applyCh rf ++
    apply_msgs rf (commitIndex rf) (Z.to_nat (commitIndex rf' - commitIndex rf)).
Proof.
  intros Hwf Hp Hes E. destruct (AppendEntry_cases rf args Hwf Hp Hes) as (rf1 & reply1 & E1 & Hout).
  rewrite E in E1. injection E1 as <- <-.
  destruct (ae_term_fields rf args) as (El & Es & Ec & Ea & Ep & _).
  destruct Hout as [reply Ht _|k reply Ht _ _ _ _|k reply Ht _ _ _ _|k reply rf2 Ht Hcons Hc _ _ ->].
  1-3: simpl; rewrite ?Ec, Z.sub_diag; simpl; rewrite app_nil_r; done.
  by edestruct (ae_accepted_spec rf args k _ _ Hwf Hcons Hc eq_refl eq_refl)
      as (_ & _ & _ & Ha & _).
Qed.

(** C16. A successful [AppendEntry] that is not answered with a commit index has
    checked that the peer's entry at [PrevLogIndex] has the leader's term, keeps the
    log up to there, holds exactly the sent entries after it, and is on disk. *)
Theorem AppendEntry_replicates rf args rf' reply :
  wf rf → 3 ≤ peers rf → Forall (λ e, Command e ≠ None) (Entries args) →
  AppendEntry rf args = Ok (rf', reply) → AESuccess reply = true → AECommitIndex reply = 0 →
  0 < commitIndex rf ∨ 0 ≤ PrevLogIndex args →
  (Term <$> entry_at rf' (PrevLogIndex args) = Some (PrevLogTerm args)) ∧
  (∀ i, i ≤ PrevLogIndex args → entry_at rf' i = entry_at rf i) ∧
  (∀ j, 0 ≤ j < len (Entries args) →
     entry_at rf' (PrevLogIndex args + 1 + j) = zlookup (Entries args) j) ∧
  (snap_sync rf → durable rf').
Proof.
  intros Hwf Hp Hes E Hok Hc0 Hpos.
  destruct (AppendEntry_cases rf args Hwf Hp Hes) as (rf1 & reply1 & E1 & Hout).
  rewrite E in E1. injection E1 as <- <-. pose proof Hwf as [H1 H2 H3].
  destruct Hout as [reply Ht Hf|k reply Ht _ Hf _ _|k reply Ht _ Hlt _ Hci|k reply rf2 Ht Hcons Hc _ _ ->];
    [congruence|congruence|lia|].
  edestruct (ae_accepted_spec rf args k _ _ Hwf Hcons Hc eq_refl eq_refl)
      as (_ & _ & _ & _ & _ & Hd & Hbef & Hin).
  split_and!; try done. rewrite Hbef by lia. destruct Hcons as [Hl (e & He & Hte)].
  rewrite entry_at_true in He by lia. rewrite He. simpl. by f_equal.
Qed.

(** A refused [AppendEntry] leaves log, commit index and applied messages alone,
    and (unless the term was old) its hint is the term of an entry of the peer's log. *)
Theorem AppendEntry_refused rf args rf' reply :
  wf rf → 3 ≤ peers rf → Forall (λ e, Command e ≠ None) (Entries args) →
  AppendEntry rf args = Ok (rf', reply) → AESuccess reply = false →
  log rf' = log rf ∧ commitIndex rf' = commitIndex rf ∧ applyCh rf' = applyCh rf ∧
  (AETerm args < currentTerm rf ∨
   ¬ consistent rf args ∧ ∃ i e, entry_at rf i = Some e ∧ Term e = TermOfArgsPreLogIndex reply).
Proof.
  intros Hwf Hp Hes E Hok.
  destruct (AppendEntry_cases rf args Hwf Hp Hes) as (rf1 & reply1 & E1 & Hout).
  rewrite E in E1. injection E1 as <- <-.
  destruct (ae_term_fields rf args) as (El & Es & Ec & Ea & Ep & _).
  destruct Hout as [reply Ht Hf|k reply Ht Hn Hf _ (j & e & Hj & He & Hte)
    |k reply Ht _ Hlt Hs _|k reply rf2 Ht Hcons Hc Hs _ ->]; [by auto| |congruence|congruence].
  simpl. split_and!; try done. right. split; [done|]. exists (j + lastIndexInSnapshot rf), e.
  split; [|done]. unfold entry_at. rewrite <- He. f_equal. lia.
Qed.

(** The handler does not delete a conflicting suffix: when exactly one entry is
    left behind the entries it wrote, that entry stays, whatever its term, although
    step 3 of the comment (and of the Raft paper) deletes it after a conflict. *)
Theorem AppendEntry_keeps_stale_entry rf args rf' reply :
  wf rf → 3 ≤ peers rf → Forall (λ e, Command e ≠ None) (Entries args) →
  AppendEntry rf args = Ok (rf', reply) → AESuccess reply = true →
  commitIndex rf ≤ PrevLogIndex args →
  PrevLogIndex args + len (Entries args) + 1 = getLastLogIndex rf →
  getLastLogIndex rf' = getLastLogIndex rf ∧
  entry_at rf' (getLastLogIndex rf) = entry_at rf (getLastLogIndex rf).
Proof.
  intros Hwf Hp Hes E Hok Hc Hlast.
  destruct (AppendEntry_cases rf args Hwf Hp Hes) as (rf1 & reply1 & E1 & Hout).
  rewrite E in E1. injection E1 as <- <-. pose proof Hwf as [H1 H2 H3].
  destruct Hout as [reply Ht Hf|k reply Ht _ Hf _ _|k reply Ht _ Hlt _ Hci|k reply rf2 Ht Hcons _ _ _ ->];
    [congruence|congruence|lia|].
  destruct (ae_committed_fields rf args k) as (El & Es & _).
  set (rf2 := ae_committed (set_AENotifyChan k (ae_term rf args)) args) in *. clearbody rf2.
  unfold getLastLogIndex, entry_at in *. case_bool_decide; simpl; [by rewrite El, Es|].
  pose proof (len_nonneg (Entries args)).
  assert (Hnew : ae_new_log rf2 args = overwrite (log rf) (Entries args)
    (PrevLogIndex args + 1 - lastIndexInSnapshot rf)).
  { unfold ae_new_log. rewrite El, Es.
    pose proof (len_overwrite (log rf) (Entries args) (PrevLogIndex args + 1 - lastIndexInSnapshot rf)).
    repeat case_match; try done. go_bools. lia. }
  rewrite Hnew, Es, len_overwrite by lia. split; [lia|]. apply overwrite_after; lia.
Qed.
End append.

Arguments AppendEntryArgs : clear implicits.

(** ** Witnesses: a follower with a stale suffix of term 2 and a leader of term 3. *)
Definition demo_stale : Raft Z :=
  demo_peer 1 2 [MkCT None 0; MkCT (Some 10) 1; MkCT (Some 20) 2; MkCT (Some 30) 2].
Definition demo_ae : AppendEntryArgs Z := MkAEArgs 3 0 1 1 [MkCT (Some 40) 3] 1.
Definition demo_ae_far : AppendEntryArgs Z := MkAEArgs 3 0 7 3 [MkCT (Some 40) 3] 1.

Lemma demo_stale_wf : wf demo_stale.
Proof. solve_wf. Qed.

Lemma demo_entries : Forall (λ e : CommandTerm Z, Command e ≠ None) [MkCT (Some 40) 3].
Proof. by repeat constructor. Qed.

Lemma AppendEntry_safe_witness : ∃ rf' reply,
  AppendEntry demo_stale demo_ae = Ok (rf', reply) ∧ currentTerm rf' = 3.
Proof.
  destruct (AppendEntry_safe demo_stale demo_ae demo_stale_wf) as (rf' & reply & E & _ & Ht & _);
    [done|apply demo_entries|]. by exists rf', reply.
Defined.

(** The request succeeds, resp. is refused. *)
Lemma demo_ae_result : ∃ rf' reply, AppendEntry demo_stale demo_ae = Ok (rf', reply) ∧
  AESuccess reply = true ∧ AECommitIndex reply = 0.
Proof. vm_compute. eauto. Qed.
Lemma demo_ae_far_result : ∃ rf' reply, AppendEntry demo_stale demo_ae_far = Ok (rf', reply) ∧
  AESuccess reply = false.
Proof. vm_compute. eauto. Qed.

Lemma AppendEntry_applies_witness : ∃ rf' reply,
  AppendEntry demo_stale demo_ae = Ok (rf', reply) ∧
  applyCh rf' = applyCh demo_stale ++ apply_msgs demo_stale (commitIndex demo_stale)
    (Z.to_nat (commitIndex rf' - commitIndex demo_stale)).
Proof.
  destruct demo_ae_result as (rf' & reply & E & _ & _). exists rf', reply. split; [done|].
  apply (AppendEntry_applies demo_stale demo_ae rf' reply demo_stale_wf ltac:(done) demo_entries E).
Defined.

Lemma AppendEntry_replicates_witness : ∃ rf' reply,
  AppendEntry demo_stale demo_ae = Ok (rf', reply) ∧
  entry_at rf' (1 + 1 + 0) = Some (MkCT (Some 40) 3).
Proof.
  destruct demo_ae_result as (rf' & reply & E & Hs & Hc). exists rf', reply. split; [done|].
  destruct (AppendEntry_replicates demo_stale demo_ae rf' reply demo_stale_wf ltac:(done)
    demo_entries E Hs Hc ltac:(by right)) as (_ & _ & Hin & _).
  by apply (Hin 0).
Defined.

Lemma AppendEntry_refused_witness : ∃ rf' reply,
  AppendEntry demo_stale demo_ae_far = Ok (rf', reply) ∧ log rf' = log demo_stale.
Proof.
  destruct demo_ae_far_result as (rf' & reply & E & Hs). exists rf', reply. split; [done|].
  by destruct (AppendEntry_refused demo_stale demo_ae_far rf' reply demo_stale_wf ltac:(done)
    demo_entries E Hs) as (Hl & _).
Defined.

(** The entry of term 3 at index 2 is followed by the stale one of term 2 at index 3. *)
Lemma AppendEntry_keeps_stale_witness : ∃ rf' reply,
  AppendEntry demo_stale demo_ae = Ok (rf', reply) ∧ entry_at rf' 3 = Some (MkCT (Some 30) 2).
Proof.
  destruct demo_ae_result as (rf' & reply & E & Hs & Hc). exists rf', reply. split; [done|].
  by destruct (AppendEntry_keeps_stale_entry demo_stale demo_ae rf' reply demo_stale_wf
    ltac:(done) demo_entries E Hs) as [_ He].
Defined.
