(* ===== verification/RaftLeader.v ===== *)
(** * Log replication on the leader: [LeaderProcess], [makeTermIndex] and
    [sendSnapShot] of [raft/raft.go].

    The goroutine the leader starts per peer is modelled one RPC answer at a time:
    [ae_build] is the request it starts with, [ae_reply] what it does with an
    answer, [ae_goroutine] the loop over the answers the network gives.  The maps
    [commIndtoState] and the counter [state] are written and never read; they are
    left out. *)

From S2P Require Import Prelude RaftState RaftVote RaftAppend.

Section leader.
Context {cmd : Type}.
Implicit Types rf : Raft cmd.

(** [TermIndex]: (Term, LastIndexOfTerm). *)
Definition TermIndex : Type := Z * Z.

(** The variables local to [LeaderProcess] that its goroutines share. *)
Record LeaderLocal := MkLL {
  termList : list TermIndex;
  curLastSnapshotIndex : Z;
  AEDistributedChan : Z;      (** number of buffered signals, capacity [len(rf.peers)] *)
}.

(** ** [makeTermIndex] *)

(** [for IndexIte >= 0] with [n] = [IndexIte + 1]; the branch that prints
    "ATTENTION" is dead: [curLastTerm] has just been set to the entry's term. *)
Fixpoint makeTermIndex_loop (l : list (CommandTerm cmd)) (n : nat) (curLastTerm : Z) :
    outcome (list TermIndex) :=
  match n with
  | O => Ok []
  | S n =>
      e ← must (l !! n);
      if negb (Term e =? curLastTerm)
      then r ← makeTermIndex_loop l n (Term e); Ok ((Term e, Z.of_nat n) :: r)
      else makeTermIndex_loop l n curLastTerm
  end.

Definition makeTermIndex rf : outcome (list TermIndex) :=
  t ← lastLogTerm rf;
  makeTermIndex_loop (log rf) (length (log rf)) (t + 1).

(** ** [sendSnapShot] *)

Definition snapshot_args rf : InstallSnapShotArgs cmd :=
  MkISArgs (currentTerm rf) (leaderNum rf) (lastIndexInSnapshot rf) (lastTermInSnapshot rf)
    (ReadSnapshot (persister rf)).

(** The first answer among at most [count] calls; the zero reply if none arrives. *)
Fixpoint first_answer (count : nat) (net : list (option InstallSnapShotReply)) :
    InstallSnapShotReply :=
  match count, net with
  | S count, Some r :: _ => r
  | S count, None :: net => first_answer count net
  | _, _ => MkISReply false 0 0 0
  end.

(** [rf.nextIndex[ind] = v + 1; rf.matchIndex[ind] = v] *)
Definition set_progress rf (ind v : Z) : outcome (Raft cmd) :=
  n ← must (zinsert (nextIndex rf) ind (v + 1));
  m ← must (zinsert (matchIndex rf) ind v);
  Ok (set_matchIndex m (set_nextIndex n rf)).

(** [net] is what the (at most five) calls to [Raft.InstallSnapShot] give. *)
Definition sendSnapShot rf (ind : Z) (net : list (option InstallSnapShotReply)) :
    outcome (Raft cmd) :=
  let args := snapshot_args rf in
  let reply := first_answer 5 net in
  if negb (Err_code reply =? 0) then
    if Err_code reply =? 1
    then Ok (set_leaderNum (ISValue reply) (set_currentTerm (ISReplyTerm reply) rf))
    else if Err_code reply =? 2 then set_progress rf ind (ISValue reply)
    else if Err_code reply =? 3 then set_progress rf ind (LastIncludedIndex args)
    else Ok rf
  else set_progress rf ind (LastIncludedIndex args).

(** ** [LeaderProcess] up to its loop *)

Definition leader_begin rf : outcome (Raft cmd * LeaderLocal) :=
  let rf := set_matchIndex (replicate (Z.to_nat (peers rf)) 0) rf in
  tl ← makeTermIndex rf;
  let rf := set_nextIndex (replicate (Z.to_nat (peers rf)) (getLastLogIndex rf + 1)) rf in
  Ok (rf, MkLL tl (lastIndexInSnapshot rf) 1).

(** ** The request for one peer

    The body of [for ind := range rf.peers]: [None] is its [continue]. *)
Definition ae_build rf (logLen ind : Z) (net : list (option InstallSnapShotReply)) :
    outcome (Raft cmd * option (AppendEntryArgs cmd)) :=
  next ← must (zlookup (nextIndex rf) ind);
  let prevLogIndex := next - 1 in
  let term := currentTerm rf in
  let commit := commitIndex rf in
  rf ← (if next <=? lastIndexInSnapshot rf then sendSnapShot rf ind net else Ok rf);
  next ← must (zlookup (nextIndex rf) ind);
  es ← (if next <? logLen then
          if 0 <? prevLogIndex + 1 - lastIndexInSnapshot rf
          then must (slice_from (log rf) (getTrueIndex rf (prevLogIndex + 1)))
          else Ok []
        else Ok []);
  if len (log rf) <=? getTrueIndex rf prevLogIndex then Ok (rf, None) else
  e ← must (zlookup (log rf) (getTrueIndex rf prevLogIndex));
  Ok (rf, Some (MkAEArgs term (me rf) prevLogIndex (Term e) es commit)).

(** ** An answer to [AppendEntry] *)

(** What the goroutine does next: return, or send another request, remembering
    the term it was built with. *)
Inductive ae_next :=
| AEDone
| AERetry (appEn : AppendEntryArgs cmd) (appEnTerm : Z).

(** [for i := rf.commitIndex + 1; i <= currComInd; i++] with [n] iterations left. *)
Fixpoint leader_commit_loop (n : nat) (i : Z) rf (ll : LeaderLocal) :
    outcome (Raft cmd * LeaderLocal) :=
  match n with
  | O => Ok (rf, ll)
  | S n =>
      if (len (log rf) <=? getTrueIndex rf i) || (getTrueIndex rf i <? 1) then Ok (rf, ll) else
      e ← must (zlookup (log rf) (getTrueIndex rf i));
      if commitIndex rf <? i then
        let rf := set_commitIndex i rf in
        let rf := set_applyCh (applyCh rf ++ [MkApplyMsg true (Command e) i ∅ ∅]) rf in
        let ll := if AEDistributedChan ll =? 0
                  then MkLL (termList ll) (curLastSnapshotIndex ll) 1 else ll in
        leader_commit_loop n (i + 1) rf ll
      else leader_commit_loop n (i + 1) rf ll
  end.

(** [tmpMatchList[len(rf.matchIndex)/2]] of the sorted copy. *)
Definition toBeCommitIndex rf : outcome Z :=
  must (zlookup (sort_ints (matchIndex rf)) (len (matchIndex rf) / 2)).

Definition leader_commit rf (ll : LeaderLocal) (currComInd : Z) :
    outcome (Raft cmd * LeaderLocal) :=
  if currComInd <=? commitIndex rf then Ok (rf, ll) else
  toBe ← toBeCommitIndex rf;
  if toBe <=? commitIndex rf then Ok (rf, ll) else
  if negb (leaderNum rf =? me rf) then Ok (rf, ll) else
  '(rf, ll) ← leader_commit_loop (Z.to_nat (toBe - commitIndex rf)) (commitIndex rf + 1) rf ll;
  next ← must (zlookup (nextIndex rf) (me rf));
  if next <? commitIndex rf then
    n ← must (zinsert (nextIndex rf) (me rf) (commitIndex rf)); Ok (set_nextIndex n rf, ll)
  else Ok (rf, ll).

(** The branch [if appendEntryReply.Success]. *)
Definition ae_success rf (ll : LeaderLocal) (ind : Z) (appEn : AppendEntryArgs cmd)
    (prevLogIndex : Z) (reply : AppendEntryReply) : outcome (Raft cmd * LeaderLocal * ae_next) :=
  if len (Entries appEn) =? 0 then Ok (rf, ll, AEDone) else
  next ← must (zlookup (nextIndex rf) ind);
  m ← must (zlookup (matchIndex rf) ind);
  let sent := PrevLogIndex appEn + len (Entries appEn) + 1 in
  upd ← (if AECommitIndex reply =? 0 then
           let next := if next <? sent then sent else next in
           n ← must (zinsert (nextIndex rf) ind next);
           let rf := set_nextIndex n rf in
           if negb (m =? next - 1) then
             m' ← must (zinsert (matchIndex rf) ind (next - 1)); Ok (set_matchIndex m' rf, true)
           else Ok (rf, false)
         else rf ← set_progress rf ind (AECommitIndex reply); Ok (rf, true));
  let '(rf, go_on) := upd in
  if negb (go_on : bool) then Ok (rf, ll, AEDone) else
  currComInd ← must (zlookup (matchIndex rf) ind);
  if currComInd <? prevLogIndex then
    let appEnTerm := currentTerm rf in
    if negb (AECommitIndex reply =? 0) then
      let prev := AECommitIndex reply in
      if getLastLogIndex rf <=? prev then Ok (rf, ll, AEDone) else
      let one := getTrueIndex rf prev in
      e ← must (zlookup (log rf) one);
      es ← (if 0 <? one then must (slice (log rf) (one + 1) (one + 2)) else Ok []);
      Ok (rf, ll, AERetry (MkAEArgs appEnTerm (LeaderID appEn) prev (Term e) es (commitIndex rf))
                    appEnTerm)
    else
      let one := getTrueIndex rf currComInd in
      e ← must (zlookup (log rf) one);
      es ← must (slice_from (log rf) (one + 1));
      Ok (rf, ll, AERetry (MkAEArgs appEnTerm (LeaderID appEn) currComInd (Term e) es
                             (commitIndex rf)) appEnTerm)
  else
    '(rf, ll) ← leader_commit rf ll currComInd;
    Ok (rf, ll, AEDone).

(** [for index < len(termList)-1 && termList[index].Term > lastTerm { index++ }]:
    the suffix of the list the loop stops at. *)
Fixpoint skip_terms (tl : list TermIndex) (lastTerm : Z) : list TermIndex :=
  match tl with
  | [] => []
  | ti :: tl' =>
      match tl' with
      | [] => tl
      | _ :: _ => if lastTerm <? fst ti then skip_terms tl' lastTerm else tl
      end
  end.

(** The index to retry from, before the snapshot is considered. *)
Definition backoff (tl : list TermIndex) (prev : Z) (reply : AppendEntryReply) : outcome Z :=
  let prevlog := prev - 1 in
  let prevlog := if negb (AELastLogIndex reply =? 0) && (AELastLogIndex reply <? prevlog)
                 then AELastLogIndex reply else prevlog in
  let lastTerm := TermOfArgsPreLogIndex reply in
  if negb (lastTerm =? 0) then
    ti ← must (head (skip_terms tl lastTerm));
    Ok (if (fst ti <=? lastTerm) && (snd ti <? prevlog) then snd ti else prevlog)
  else Ok prevlog.

(** The other branch: the request was refused. *)
Definition ae_failure rf (ll : LeaderLocal) (ind : Z) (appEn : AppendEntryArgs cmd)
    (appEnTerm : Z) (reply : AppendEntryReply) (net : list (option InstallSnapShotReply)) :
    outcome (Raft cmd * LeaderLocal * ae_next) :=
  if appEnTerm <? AEReplyTerm reply then
    rf ← notifyAE (set_leaderNum (-1) rf) 2; Ok (rf, ll, AEDone)
  else
  m ← must (zlookup (matchIndex rf) ind);
  if PrevLogIndex appEn <=? m then Ok (rf, ll, AEDone) else
  tl ← (if negb (TermOfArgsPreLogIndex reply =? 0)
           && negb (curLastSnapshotIndex ll =? lastIndexInSnapshot rf)
        then makeTermIndex rf else Ok (termList ll));
  let ll := MkLL tl (curLastSnapshotIndex ll) (AEDistributedChan ll) in
  prevlog ← backoff tl (PrevLogIndex appEn) reply;
  n ← must (zinsert (nextIndex rf) ind (prevlog + 1));
  let rf := set_nextIndex n rf in
  if prevlog <? 0 then Panic else
  '(rf, prevlog) ← (if prevlog <? lastIndexInSnapshot rf then
                      rf ← sendSnapShot rf ind net;
                      m ← must (zlookup (matchIndex rf) ind); Ok (rf, m)
                    else Ok (rf, prevlog));
  if len (log rf) <=? prevlog then Ok (rf, ll, AEDone) else
  e1 ← must (zlookup (log rf) (getTrueIndex rf (prevlog + 1)));
  e0 ← must (zlookup (log rf) (getTrueIndex rf prevlog));
  Ok (rf, ll, AERetry (MkAEArgs (currentTerm rf) (LeaderID appEn) prevlog (Term e0) [e1] 0)
                appEnTerm).

Definition ae_reply rf (ll : LeaderLocal) (ind : Z) (appEn : AppendEntryArgs cmd)
    (appEnTerm prevLogIndex : Z) (reply : AppendEntryReply)
    (net : list (option InstallSnapShotReply)) : outcome (Raft cmd * LeaderLocal * ae_next) :=
  if AESuccess reply then ae_success rf ll ind appEn prevLogIndex reply
  else ae_failure rf ll ind appEn appEnTerm reply net.

(** The goroutine's loop over what its calls give: [None] is a failed call, and
    the eighth one ends it. *)
Fixpoint ae_goroutine (answers : list (option (AppendEntryReply * list (option InstallSnapShotReply))))
    (count : Z) rf (ll : LeaderLocal) (ind : Z) (appEn : AppendEntryArgs cmd)
    (appEnTerm prevLogIndex : Z) : outcome (Raft cmd * LeaderLocal * ae_next) :=
  match answers with
  | [] => Ok (rf, ll, AERetry appEn appEnTerm)
  | a :: answers =>
      if negb (leaderNum rf =? me rf) then
        rf ← notifyAE rf 2; Ok (rf, ll, AEDone)
      else
      match a with
      | None => if 8 <=? count + 1 then Ok (rf, ll, AEDone)
                else ae_goroutine answers (count + 1) rf ll ind appEn appEnTerm prevLogIndex
      | Some (reply, net) =>
          '(rf, ll, next) ← ae_reply rf ll ind appEn appEnTerm prevLogIndex reply net;
          match next with
          | AEDone => Ok (rf, ll, AEDone)
          | AERetry appEn appEnTerm =>
              ae_goroutine answers count rf ll ind appEn appEnTerm prevLogIndex
          end
      end
  end.

(** ** The term cache *)

(** [i] is the last position of a run of entries of term [t] among the first [n],
    when the entry after them has term [cur]. *)
Definition run_end (l : list (CommandTerm cmd)) (n : nat) (cur t : Z) (i : nat) : Prop :=
  (i < n)%nat ∧ Term <$> l !! i = Some t ∧
  (if decide (S i = n) then t ≠ cur else Term <$> l !! S i ≠ Some t).

Lemma makeTermIndex_loop_spec l n cur :
  (n ≤ length l)%nat →
  ∃ r, makeTermIndex_loop l n cur = Ok r ∧
    (∀ t z, (t, z) ∈ r ↔ ∃ i, z = Z.of_nat i ∧ run_end l n cur t i) ∧
    StronglySorted (λ a b, snd b < snd a) r.
Proof.
  revert cur. induction n as [|n IH]; intros cur Hn; simpl.
  { exists []. split; [done|]. split; [|constructor]. intros t z. rewrite elem_of_nil.
    split; [done|]. intros (i & _ & Hi & _). lia. }
  destruct (lookup_lt_is_Some_2 l n Hn) as [e He]. rewrite He. simpl.
  destruct (IH (Term e)) as (r & Hr & Hin & Hs); [lia|]. destruct (IH cur) as (r' & Hr' & Hin' & Hs'); [lia|].
  assert (Hstep : ∀ c t i, (i < n)%nat → c = Term e → run_end l n c t i ↔ run_end l (S n) cur t i).
  { intros c t i Hi ->. unfold run_end. rewrite (decide_False (P := S i = S n)) by lia.
    destruct (decide (S i = n)) as [<-|]; [rewrite He; simpl|]; naive_solver lia. }
  destruct (Z.eqb_spec (Term e) cur) as [Heq|Hne]; simpl.
  - exists r'. split; [done|]. split; [|done]. intros t z. rewrite Hin'.
    split; intros (i & -> & Hi); exists i; (split; [done|]).
    + apply (Hstep cur); [by destruct Hi|done|done].
    + destruct (decide (i = n)) as [->|].
      * destruct Hi as (_ & Ht & Hlast). rewrite decide_True in Hlast by done.
        rewrite He in Ht. simpl in Ht. congruence.
      * apply (Hstep cur); [destruct Hi; lia|done|done].
  - rewrite Hr. simpl. exists ((Term e, Z.of_nat n) :: r). split; [done|]. split.
    + intros t z. rewrite elem_of_cons, Hin. split.
      * intros [[= -> ->]|(i & -> & Hi)].
        { exists n. split; [done|]. split; [lia|]. rewrite He, decide_True by done. by split. }
        exists i. split; [done|]. apply (Hstep (Term e)); [by destruct Hi|done|done].
      * intros (i & -> & Hi). destruct (decide (i = n)) as [->|].
        { left. destruct Hi as (_ & Ht & _). rewrite He in Ht. simpl in Ht. congruence. }
        right. exists i. split; [done|]. apply (Hstep (Term e)); [destruct Hi; lia|done|done].
    + constructor; [done|]. apply Forall_forall. intros [t z] Hz%Hin.
      destruct Hz as (i & -> & Hi & _). simpl. lia.
Qed.

(** ** The back-off *)

Lemma skip_terms_head tl t : tl ≠ [] → ∃ ti, head (skip_terms tl t) = Some ti ∧ ti ∈ tl.
Proof.
  induction tl as [|ti tl IH]; [done|]. intros _. simpl. destruct tl as [|ti' tl'].
  - exists ti. simpl. split; [done|]. by left.
  - destruct (t <? fst ti).
    + destruct IH as (x & Hx & Hin); [done|]. exists x. split; [done|]. by right.
    + exists ti. split; [done|]. by left.
Qed.

Lemma backoff_spec tl prev reply :
  tl ≠ [] → Forall (λ ti, 0 ≤ snd ti) tl → 1 ≤ prev → 0 ≤ AELastLogIndex reply →
  ∃ p, backoff tl prev reply = Ok p ∧ 0 ≤ p < prev.
Proof.
  intros Hne Hall Hp Hl. unfold backoff.
  set (q := if negb (AELastLogIndex reply =? 0) && (AELastLogIndex reply <? prev - 1)
            then AELastLogIndex reply else prev - 1).
  assert (0 ≤ q < prev) by (unfold q; case_match; go_bools; lia).
  destruct (negb (TermOfArgsPreLogIndex reply =? 0)); [|by eauto].
  destruct (skip_terms_head tl (TermOfArgsPreLogIndex reply) Hne) as (ti & -> & Hin). simpl.
  rewrite Forall_forall in Hall. specialize (Hall ti Hin).
  eexists; split; [done|]. case_match; go_bools; lia.
Qed.

(** ** The commit rule *)

(** How many peers have acknowledged index [v]. *)
Definition acks (l : list Z) (v : Z) : Z := len (filter (λ m, v ≤ m) l).

Lemma acks_perm l l' v : l ≡ₚ l' → acks l v = acks l' v.
Proof. intros H. unfold acks, len. by rewrite H. Qed.

Lemma acks_anti l v w : v ≤ w → acks l w ≤ acks l v.
Proof.
  intros Hv. unfold acks. induction l as [|m l IH]; [done|]. rewrite !filter_cons.
  repeat case_decide; rewrite ?len_cons; lia.
Qed.

Lemma acks_all l v : Forall (λ m, v ≤ m) l → acks l v = len l.
Proof.
  intros H. unfold acks. induction H as [|m l Hm H IH]; [done|].
  rewrite filter_cons_True by done. rewrite !len_cons. by rewrite IH.
Qed.

Lemma acks_app l1 l2 v : acks (l1 ++ l2) v = acks l1 v + acks l2 v.
Proof. unfold acks. by rewrite filter_app, len_app. Qed.

Lemma sorted_acks l k v :
  StronglySorted (≤) l → zlookup l k = Some v → len l - k ≤ acks l v.
Proof.
  intros Hs Hk. pose proof (zlookup_Some_lt _ _ _ Hk) as Hr.
  unfold zlookup in Hk. rewrite decide_True in Hk by lia.
  assert (Hd : Forall (λ m, v ≤ m) (drop (Z.to_nat k) l)).
  { apply Forall_lookup. intros j m Hj. rewrite lookup_drop in Hj.
    destruct j as [|j]; [rewrite Nat.add_0_r in Hj; simplify_eq; lia|].
    revert Hk Hj. generalize (Z.to_nat k). clear -Hs. revert j.
    induction Hs as [|x l Hs IH Hx]; intros j n Hk Hj; [done|].
    destruct n as [|n]; simpl in *.
    - simplify_eq. rewrite Forall_lookup in Hx. by eapply Hx.
    - by eapply IH. }
  apply acks_all in Hd. rewrite <- (take_drop (Z.to_nat k) l) at 2. rewrite acks_app, Hd, len_drop.
  pose proof (len_nonneg (filter (λ m, v ≤ m) (take (Z.to_nat k) l))). unfold acks. lia.
Qed.

Lemma toBeCommitIndex_acks rf v :
  toBeCommitIndex rf = Ok v → majority (len (matchIndex rf)) ≤ acks (matchIndex rf) v.
Proof.
  unfold toBeCommitIndex. intros H. go_inv.
  rewrite <- (acks_perm _ _ v (sort_ints_Permutation (matchIndex rf))).
  pose proof (sorted_acks _ _ _ (sort_ints_Sorted (matchIndex rf)) H) as Ha.
  assert (len (sort_ints (matchIndex rf)) = len (matchIndex rf)) as Hlen
    by (unfold len; by rewrite sort_ints_length).
  rewrite Hlen in Ha. unfold majority. pose proof (len_nonneg (matchIndex rf)).
  assert ((len (matchIndex rf) + 1) / 2 ≤ len (matchIndex rf) - len (matchIndex rf) / 2); [|lia].
  pose proof (Z.div_mod (len (matchIndex rf)) 2). pose proof (Z.mod_pos_bound (len (matchIndex rf)) 2).
  enough ((len (matchIndex rf) + 1) / 2 < len (matchIndex rf) - len (matchIndex rf) / 2 + 1) by lia.
  apply Z.div_lt_upper_bound; lia.
Qed.

Lemma leader_commit_loop_spec n i rf ll :
  wf rf → i = commitIndex rf + 1 →
  ∃ rf' ll', leader_commit_loop n i rf ll = Ok (rf', ll') ∧ wf rf' ∧
    log rf' = log rf ∧ lastIndexInSnapshot rf' = lastIndexInSnapshot rf ∧
    matchIndex rf' = matchIndex rf ∧ nextIndex rf' = nextIndex rf ∧ me rf' = me rf ∧
    currentTerm rf' = currentTerm rf ∧
    commitIndex rf' = Z.min (commitIndex rf + Z.of_nat n) (getLastLogIndex rf) ∧
    applyCh rf' = applyCh rf ++
      apply_msgs rf (commitIndex rf) (Z.to_nat (commitIndex rf' - commitIndex rf)).
Proof.
  revert i rf ll. induction n as [|n IH]; intros i rf ll Hwf Hi; simpl; pose proof Hwf as [H1 H2 H3].
  { exists rf, ll. rewrite Z.sub_diag. simpl. rewrite app_nil_r. split_and!; try done; lia. }
  rewrite getTrueIndex_ge by lia. unfold getLastLogIndex in *.
  destruct (Z.leb_spec (len (log rf)) (i - lastIndexInSnapshot rf)); simpl.
  { exists rf, ll. rewrite Z.sub_diag. simpl. rewrite app_nil_r. split_and!; try done; lia. }
  destruct (Z.ltb_spec (i - lastIndexInSnapshot rf) 1); [lia|].
  destruct (zlookup_lt_Some (log rf) (i - lastIndexInSnapshot rf)) as [e He]; [lia|].
  rewrite He. simpl. destruct (Z.ltb_spec (commitIndex rf) i); [|lia].
  match goal with |- context [leader_commit_loop n ?j ?r ?l] =>
    destruct (IH j r l) as (rf' & ll' & -> & Hw & El & Es & Em & En & Eme & Et & Ec & Ea) end.
  { split; unfold getLastLogIndex; simpl; lia. }
  { simpl. lia. }
  simpl in *. exists rf', ll'. split_and!; try done; [lia|].
  rewrite Ea, <- app_assoc. f_equal. simpl.
  replace (Z.to_nat (commitIndex rf' - commitIndex rf))
    with (S (Z.to_nat (commitIndex rf' - i))) by lia. simpl. unfold entry_at at 1. rewrite <- Hi, He. simpl.
  f_equal. by apply apply_msgs_log.
Qed.

(** ** Properties of the leader *)

(** The leader's bookkeeping has one slot per peer. *)
Record leader_wf rf : Prop := {
  lw_wf : wf rf;
  lw_me : 0 ≤ me rf < peers rf;
  lw_next : len (nextIndex rf) = peers rf;
  lw_match : len (matchIndex rf) = peers rf;
}.

(** Everything the replicated state consists of, apart from the leader's bookkeeping,
    the term and the role. *)
Definition same_core rf rf' : Prop :=
  log rf' = log rf ∧ lastIndexInSnapshot rf' = lastIndexInSnapshot rf ∧
  commitIndex rf' = commitIndex rf ∧ applyCh rf' = applyCh rf ∧
  votedFor rf' = votedFor rf ∧ me rf' = me rf ∧ peers rf' = peers rf.

#[export] Instance same_core_refl : Reflexive same_core.
Proof. intros rf. unfold same_core. by split_and!. Qed.
#[export] Instance same_core_trans : Transitive same_core.
Proof. intros x y z. unfold same_core. intros. destruct_and!. split_and!; congruence. Qed.

Lemma leader_commit_loop_core n i rf ll rf' ll' :
  leader_commit_loop n i rf ll = Ok (rf', ll') →
  votedFor rf' = votedFor rf ∧ me rf' = me rf ∧ peers rf' = peers rf.
Proof.
  revert i rf ll. induction n as [|n IH]; intros i rf ll E; simpl in E; [by simplify_eq|].
  case_match; [by simplify_eq|]. go_inv. case_match; by apply IH in E.
Qed.

Lemma leader_commit_cases rf ll c rf' ll' :
  leader_wf rf → leader_commit rf ll c = Ok (rf', ll') →
  (rf' = rf ∧ ll' = ll) ∨
  ∃ v, toBeCommitIndex rf = Ok v ∧ commitIndex rf < v ∧ leaderNum rf = me rf ∧
    leader_wf rf' ∧ log rf' = log rf ∧ lastIndexInSnapshot rf' = lastIndexInSnapshot rf ∧
    matchIndex rf' = matchIndex rf ∧ currentTerm rf' = currentTerm rf ∧
    commitIndex rf' = Z.min v (getLastLogIndex rf) ∧
    applyCh rf' = applyCh rf ++
      apply_msgs rf (commitIndex rf) (Z.to_nat (commitIndex rf' - commitIndex rf)).
Proof.
  intros [Hwf Hme Hn Hm] H. unfold leader_commit in H.
  destruct (c <=? commitIndex rf); [go_inv; naive_solver|].
  apply bind_Ok in H as (v & Hv & H).
  destruct (Z.leb_spec v (commitIndex rf)); [go_inv; naive_solver|].
  destruct (Z.eqb_spec (leaderNum rf) (me rf)) as [Hl|]; simpl in H; [|go_inv; naive_solver].
  destruct (leader_commit_loop_spec (Z.to_nat (v - commitIndex rf)) (commitIndex rf + 1) rf ll Hwf)
    as (rf1 & ll1 & E & Hw1 & El & Es & Em & En & Eme & Et & Ec & Ea); [done|].
  rewrite E in H. simpl in H. rewrite En, Eme in H.
  destruct (zlookup_lt_Some (nextIndex rf) (me rf)) as [x Hx]; [lia|]. rewrite Hx in H. simpl in H.
  right. exists v. rewrite Z2Nat.id in Ec by lia.
  replace (commitIndex rf + (v - commitIndex rf)) with v in Ec by lia.
  apply leader_commit_loop_core in E as (_ & _ & Hp).
  destruct (x <? commitIndex rf1).
  - unfold zinsert in H. rewrite decide_True in H by lia. simpl in H. simplify_eq/=.
    split_and!; try done. split; simpl; rewrite ?len_insert, ?Em, ?Eme, ?Hp; try done; try lia.
    by apply (wf_log_eq rf1).
  - simplify_eq/=. split_and!; try done. by split; rewrite ?Em, ?En, ?Eme, ?Hp.
Qed.

(** C7. The leader's commit rule: when an acknowledgement moves the commit index to
    [N], at least [majority] of the peers have acknowledged [N], the log holds an
    entry at [N], and the service gets exactly the newly committed entries in order. *)
Theorem leader_commit_majority rf ll c rf' ll' :
  leader_wf rf → leader_commit rf ll c = Ok (rf', ll') → commitIndex rf < commitIndex rf' →
  majority (peers rf) ≤ acks (matchIndex rf) (commitIndex rf') ∧
  is_Some (entry_at rf (commitIndex rf')) ∧ log rf' = log rf ∧ leader_wf rf' ∧
  applyCh rf' = applyCh rf ++
    apply_msgs rf (commitIndex rf) (Z.to_nat (commitIndex rf' - commitIndex rf)).
Proof.
  intros Hlw H Hlt. pose proof Hlw as [Hwf Hme Hn Hm].
  destruct (leader_commit_cases rf ll c rf' ll' Hlw H)
    as [[-> _]|(v & Hv & Hcv & _ & Hlw' & El & _ & _ & _ & Ec & Ea)]; [lia|].
  split_and!; try done.
  - apply toBeCommitIndex_acks in Hv. rewrite Hm in Hv. etrans; [apply Hv|].
    apply acks_anti. lia.
  - apply entry_at_is_Some. destruct Hwf as [_ _ Hc]. lia.
Qed.

(** The commit rule does not look at the term of the entry: a leader of three
    peers that has not appended anything itself ([matchIndex[me] = 0]) commits an
    entry of any earlier term as soon as both followers acknowledge it. *)
Theorem leader_commits_old_terms rf ll n :
  leader_wf rf → peers rf = 3 → me rf = 0 → leaderNum rf = 0 →
  matchIndex rf = [0; n; n] → commitIndex rf < n ≤ getLastLogIndex rf →
  ∃ rf' ll', leader_commit rf ll n = Ok (rf', ll') ∧ commitIndex rf' = n ∧
    currentTerm rf' = currentTerm rf.
Proof.
  intros Hlw Hp Hme Hl Hm Hn. pose proof Hlw as [Hwf _ Hnx _]. pose proof Hwf as [H1 H2 H3].
  assert (Hv : toBeCommitIndex rf = Ok n).
  { unfold toBeCommitIndex. rewrite Hm.
    replace (sort_ints [0; n; n]) with [0; n; n]; [done|].
    apply (StronglySorted_unique (≤)); [|apply sort_ints_Sorted|by rewrite sort_ints_Permutation].
    repeat constructor; lia. }
  destruct (leader_commit_loop_spec (Z.to_nat (n - commitIndex rf)) (commitIndex rf + 1) rf ll Hwf)
    as (rf1 & ll1 & E & _ & _ & _ & _ & En & Eme & Et & Ec & _); [done|].
  unfold leader_commit. destruct (Z.leb_spec n (commitIndex rf)); [lia|].
  rewrite Hv. simpl. destruct (Z.leb_spec n (commitIndex rf)); [lia|].
  rewrite Hl, Hme. simpl. rewrite E. simpl. rewrite En, Eme, Hme.
  destruct (zlookup_lt_Some (nextIndex rf) 0) as [x Hx]; [lia|]. rewrite Hx. simpl.
  rewrite Z2Nat.id in Ec by lia.
  destruct (x <? commitIndex rf1).
  - unfold zinsert. rewrite decide_True by lia. simpl.
    do 2 eexists; split; [done|]. simpl. split; [lia|done].
  - do 2 eexists; split; [done|]. split; [lia|done].
Qed.

Lemma makeTermIndex_Ok rf :
  wf rf → ∃ r, makeTermIndex rf = Ok r ∧
    (∀ t z, (t, z) ∈ r ↔ ∃ i, z = Z.of_nat i ∧
        run_end (log rf) (length (log rf)) (localLastTerm rf + 1) t i) ∧
    StronglySorted (λ a b, snd b < snd a) r ∧ r ≠ [].
Proof.
  intros Hwf. unfold makeTermIndex. rewrite localLastTerm_spec by done. simpl.
  destruct (makeTermIndex_loop_spec (log rf) (length (log rf)) (localLastTerm rf + 1))
    as (r & Hr & Hin & Hs); [lia|]. exists r. split_and!; try done.
  destruct (lastLogTerm_Ok rf Hwf) as (e & Hl & He). rewrite localLastTerm_spec in Hl by done.
  injection Hl as Hl. destruct Hwf as [H1 _ _]. intros ->.
  assert ((Term e, Z.of_nat (length (log rf) - 1)) ∈ @nil TermIndex) as Hn; [|by inversion Hn].
  apply Hin. eexists; split; [done|]. unfold len in *. split; [lia|].
  replace (Z.of_nat (length (log rf)) - 1) with (Z.of_nat (length (log rf) - 1)) in He by lia.
  rewrite zlookup_nat in He. rewrite He. split; [done|].
  rewrite decide_True by lia. lia.
Qed.

(** [makeTermIndex] lists, last first, exactly the positions of the log where a
    run of equal terms ends, each with its term. *)
Theorem makeTermIndex_spec rf :
  wf rf → ∃ r, makeTermIndex rf = Ok r ∧
    StronglySorted (λ a b, snd b < snd a) r ∧
    ∀ t z, (t, z) ∈ r ↔
      ∃ e, zlookup (log rf) z = Some e ∧ Term e = t ∧
        ∀ e', zlookup (log rf) (z + 1) = Some e' → Term e' ≠ t.
Proof.
  intros Hwf. destruct (makeTermIndex_Ok rf Hwf) as (r & Hr & Hin & Hs & _).
  exists r. split_and!; try done. intros t z. rewrite Hin. unfold run_end. split.
  - intros (i & -> & Hi & Ht & Hn). destruct (log rf !! i) as [e|] eqn:He; [|done].
    simpl in Ht. simplify_eq. exists e. rewrite zlookup_nat. split_and!; try done.
    intros e'. replace (Z.of_nat i + 1) with (Z.of_nat (S i)) by lia. rewrite zlookup_nat.
    intros He'. pose proof (lookup_lt_Some _ _ _ He'). rewrite decide_False in Hn by lia.
    rewrite He' in Hn. simpl in Hn. congruence.
  - intros (e & He & <- & Hn). pose proof (zlookup_Some_lt _ _ _ He) as Hz.
    exists (Z.to_nat z). rewrite Z2Nat.id by lia. split; [done|].
    unfold zlookup in He. rewrite decide_True in He by lia. unfold len in Hz. split; [lia|].
    rewrite He. split; [done|]. case_decide as Hd.
    + unfold localLastTerm, len. replace (Z.of_nat (length (log rf)) - 1) with (Z.of_nat (Z.to_nat z)) by lia.
      rewrite zlookup_nat, He. lia.
    + intros Hc. destruct (log rf !! S (Z.to_nat z)) as [e'|] eqn:He'; [|done].
      apply (Hn e'); [|simpl in Hc; congruence]. unfold zlookup. rewrite decide_True by lia.
      by replace (Z.to_nat (z + 1)) with (S (Z.to_nat z)) by lia.
Qed.

(** [sendSnapShot] takes silence for success: when none of its calls is answered,
    it still records the peer as having the snapshot. *)
Theorem sendSnapShot_unanswered rf ind net :
  Forall (λ r, r = None) net →
  0 ≤ ind < len (nextIndex rf) → 0 ≤ ind < len (matchIndex rf) →
  ∃ rf', sendSnapShot rf ind net = Ok rf' ∧
    zlookup (matchIndex rf') ind = Some (lastIndexInSnapshot rf) ∧
    zlookup (nextIndex rf') ind = Some (lastIndexInSnapshot rf + 1).
Proof.
  intros Hnet Hn Hm.
  assert (Hf : first_answer 5 net = MkISReply false 0 0 0).
  { generalize 5%nat. induction Hnet as [|r net -> _ IH]; intros [|c]; simpl; auto. }
  unfold sendSnapShot. rewrite Hf. simpl. unfold set_progress, zinsert.
  rewrite !decide_True by done. simpl. eexists; split; [done|]. simpl. unfold len in *.
  split; (rewrite <- (Z2Nat.id ind) at 2 by lia); apply zlookup_insert_eq; lia.
Qed.

(** A leader whose snapshot is refused for its old term adopts the new term and
    takes [reply.Value], which the refusing peer never sets, as the leader: peer 0
    goes on as leader of a term it was not elected in. *)
Theorem sendSnapShot_peer0_keeps_leading rf fo ind rf' fo' reply :
  me rf = 0 → leaderNum rf = 0 → currentTerm rf < currentTerm fo →
  InstallSnapShot fo (snapshot_args rf) = Ok (fo', reply) →
  sendSnapShot rf ind [Some reply] = Ok rf' →
  GetState rf' = (currentTerm fo, true).
Proof.
  intros Hme Hl Ht Hi Hs. unfold InstallSnapShot in Hi. simpl in Hi.
  destruct (Z.ltb_spec (currentTerm rf) (currentTerm fo)); [|lia]. go_inv. simplify_eq/=.
  unfold sendSnapShot in Hs. simpl in Hs. go_inv. unfold GetState. simpl. by rewrite Hme.
Qed.

(** ** The back-off terminates *)

(** What the goroutine needs of the leader while it retries (no snapshot taken yet). *)
Record retry_ok rf (ll : LeaderLocal) (ind : Z) : Prop := {
  ro_wf : leader_wf rf;
  ro_snap : lastIndexInSnapshot rf = 0;
  ro_cur : curLastSnapshotIndex ll = 0;
  ro_ind : 0 ≤ ind < peers rf;
  ro_match : Forall (λ m, 0 ≤ m) (matchIndex rf);
  ro_tl : termList ll ≠ [];
  ro_idx : Forall (λ ti, 0 ≤ snd ti) (termList ll);
}.

Definition refusal (r : AppendEntryReply) : Prop := AESuccess r = false ∧ 0 ≤ AELastLogIndex r.

Lemma ae_failure_progress rf ll ind appEn t reply net :
  retry_ok rf ll ind → 2 ≤ peers rf → refusal reply →
  PrevLogIndex appEn ≤ getLastLogIndex rf →
  ∃ rf' ll' next, ae_failure rf ll ind appEn t reply net = Ok (rf', ll', next) ∧
    match next with
    | AEDone => True
    | AERetry appEn' t' =>
        0 ≤ PrevLogIndex appEn' < PrevLogIndex appEn ∧ retry_ok rf' ll' ind ∧
        log rf' = log rf ∧ peers rf' = peers rf ∧ lastIndexInSnapshot rf' = lastIndexInSnapshot rf
    end.
Proof.
  intros [Hlw Hsn Hcur Hind Hm Htl Hidx] Hp [_ Hl] Hprev. pose proof Hlw as [Hwf Hme Hn Hml].
  unfold ae_failure. destruct (t <? AEReplyTerm reply).
  { destruct (notifyAE_Ok (set_leaderNum (-1) rf) 2) as (k & -> & _); [done|]. simpl.
    by do 3 eexists; split; [done|]. }
  destruct (zlookup_lt_Some (matchIndex rf) ind) as [m Hmi]; [lia|]. rewrite Hmi. simpl.
  destruct (Z.leb_spec (PrevLogIndex appEn) m) as [|Hpm]; [by do 3 eexists; split; [done|]|].
  rewrite Hcur, Hsn, Z.eqb_refl, andb_false_r. simpl.
  assert (0 ≤ m).
  { rewrite Forall_forall in Hm. apply Hm. unfold zlookup in Hmi. case_decide; [|done].
    by eapply list_elem_of_lookup_2. }
  destruct (backoff_spec (termList ll) (PrevLogIndex appEn) reply) as (p & -> & Hpb);
    [done|done|lia|done|]. simpl.
  unfold zinsert. rewrite decide_True by lia. simpl.
  destruct (Z.ltb_spec p 0); [lia|]. simpl. rewrite ?Hsn.
  destruct (Z.ltb_spec p 0); [lia|]. simpl.
  destruct (Z.leb_spec (len (log rf)) p); [by do 3 eexists; split; [done|]|].
  unfold getLastLogIndex in *. destruct (Hwf) as [Hw1 Hw2 Hw3].
  rewrite !getTrueIndex_ge by (simpl; lia). simpl. rewrite ?Hsn.
  destruct (zlookup_lt_Some (log rf) (p + 1 - 0)) as [e1 He1]; [lia|].
  destruct (zlookup_lt_Some (log rf) (p - 0)) as [e0 He0]; [lia|].
  rewrite He1, He0. simpl. do 3 eexists; split; [done|]. simpl. split_and!; try done; [lia|].
  split; simpl; try done. split; simpl; rewrite ?len_insert; try done.
Qed.

(** C39. On a leader that has taken no snapshot, the goroutine of a peer terminates: a refusal makes
    the leader lower [PrevLogIndex], and the eighth unanswered call ends it, so whatever mix of
    refusals and lost calls it meets, after at most [PrevLogIndex] + 8 - [count] calls it has
    returned, without panicking. (With a snapshot, makeTermIndex and the retries mix up two
    kinds of indices; see the findings.) *)
Theorem ae_goroutine_terminates rf ll ind appEn t prev answers count :
  retry_ok rf ll ind → 2 ≤ peers rf →
  Forall (λ a, a = None ∨ ∃ r net, a = Some (r, net) ∧ refusal r) answers →
  0 ≤ PrevLogIndex appEn ≤ getLastLogIndex rf → 0 ≤ count < 8 →
  PrevLogIndex appEn + 8 - count ≤ len answers →
  ∃ rf' ll', ae_goroutine answers count rf ll ind appEn t prev = Ok (rf', ll', AEDone).
Proof.
  intros Hro Hp Hall. revert rf ll appEn t count Hro Hp.
  induction Hall as [|a answers Ha _ IH]; intros rf ll appEn t count Hro Hp Hlast Hc Hlen; simpl.
  { unfold len in Hlen. simpl in Hlen. lia. }
  rewrite len_cons in Hlen. destruct (negb (leaderNum rf =? me rf)).
  { destruct (notifyAE_Ok rf 2 Hp) as (k & -> & _). simpl. by eauto. }
  destruct Ha as [->|(r & net & -> & Hr)].
  { destruct (Z.leb_spec 8 (count + 1)); [by eauto|]. apply IH; [done|done|lia..]. }
  destruct (ae_failure_progress rf ll ind appEn t r net Hro Hp Hr) as (rf1 & ll1 & next & E & Hnext); [lia|].
  destruct Hr as [Hs _]. unfold ae_reply. rewrite Hs, E. simpl.
  destruct next as [|appEn' t']; [by eauto|].
  destruct Hnext as (Hlt & Hro1 & El & Ep & Es).
  assert (getLastLogIndex rf1 = getLastLogIndex rf) as El' by (unfold getLastLogIndex; by rewrite El, Es).
  apply IH; [done|by rewrite Ep|lia..].
Qed.
End leader.

(** ** Witnesses: a leader of term 3 whose log holds entries of terms 1 and 2 that both
    followers have acknowledged. *)
Definition demo_leader : Raft Z :=
  set_nextIndex [3; 3; 3] (set_matchIndex [0; 2; 2] (set_leaderNum 0 (demo_new 0))).
Definition demo_ll : LeaderLocal := MkLL [(2, 2); (1, 1); (0, 0)] 0 0.

Lemma demo_leader_wf : leader_wf demo_leader.
Proof. by split; [apply (wf_log_eq (demo_new 0)); [..|apply demo_new_wf]|..]. Qed.

Lemma demo_commit : ∃ rf' ll', leader_commit demo_leader demo_ll 2 = Ok (rf', ll') ∧
  commitIndex demo_leader < commitIndex rf' ∧ commitIndex rf' = 2.
Proof. vm_compute. eauto. Qed.

Lemma leader_commit_majority_witness : ∃ rf' ll',
  leader_commit demo_leader demo_ll 2 = Ok (rf', ll') ∧
  majority 3 ≤ acks [0; 2; 2] (commitIndex rf').
Proof.
  destruct demo_commit as (rf' & ll' & E & Hlt & _). exists rf', ll'. split; [done|].
  by destruct (leader_commit_majority demo_leader demo_ll 2 rf' ll' demo_leader_wf E Hlt).
Defined.

Lemma leader_commits_old_terms_witness : ∃ rf' ll',
  leader_commit demo_leader demo_ll 2 = Ok (rf', ll') ∧ commitIndex rf' = 2 ∧ currentTerm rf' = 3.
Proof. by apply (leader_commits_old_terms demo_leader demo_ll 2 demo_leader_wf). Defined.

Lemma makeTermIndex_spec_witness : ∃ r, makeTermIndex demo_leader = Ok r ∧ (2, 2) ∈ r.
Proof.
  destruct (makeTermIndex_spec demo_leader) as (r & E & _ & Hr); [apply demo_leader_wf|].
  exists r. split; [done|]. apply Hr. by exists (MkCT (Some 20) 2).
Defined.

Lemma sendSnapShot_unanswered_witness : ∃ rf',
  sendSnapShot demo_leader 1 [None; None; None; None; None] = Ok rf' ∧
  zlookup (matchIndex rf') 1 = Some 0.
Proof.
  destruct (sendSnapShot_unanswered demo_leader 1 [None; None; None; None; None])
    as (rf' & E & Hm & _); [by repeat constructor|done|done|]. by exists rf'.
Defined.

Lemma sendSnapShot_peer0_witness : ∃ reply rf',
  InstallSnapShot (demo_peer 2 9 [MkCT None 0]) (snapshot_args demo_leader) =
    Ok (demo_peer 2 9 [MkCT None 0], reply) ∧
  sendSnapShot demo_leader 2 [Some reply] = Ok rf' ∧ GetState rf' = (9, true).
Proof.
  eexists _, _. split; [reflexivity|]. split; [reflexivity|].
  by apply (sendSnapShot_peer0_keeps_leading demo_leader (demo_peer 2 9 [MkCT None 0]) 2 _
    (demo_peer 2 9 [MkCT None 0]) (MkISReply false 9 1 0)).
Defined.

Definition demo_retry : Raft Z := set_matchIndex [0; 0; 0] demo_leader.

Lemma demo_retry_ok : retry_ok demo_retry demo_ll 2.
Proof. 
  split; [|done..|by repeat constructor|done|by repeat constructor].
  by split; [apply (wf_log_eq (demo_new 0)); [..|apply demo_new_wf]|..]. Qed.

Lemma ae_goroutine_terminates_witness : ∃ rf' ll',
  ae_goroutine (replicate 2 None ++ replicate 3 (Some (MkAEReply 2 3 false 0 0 0, [])) ++ replicate 5 None)
    0 demo_retry demo_ll 2 (MkAEArgs 3 0 2 2 [] 0) 3 2 = Ok (rf', ll', AEDone).
Proof.
  apply (ae_goroutine_terminates demo_retry demo_ll 2 (MkAEArgs 3 0 2 2 [] 0) 3 2 _ 0 demo_retry_ok);
    [done| |done|lia|done].
  simpl. repeat (constructor; [first [by left|right; eexists _, _; by repeat split]|]). constructor.
Defined.
