(* ===== verification/RaftRole.v ===== *)
(** * The life of a Raft peer: [Follower], the loop of [LeaderProcess] and
    [mainProcess] of [raft/raft.go] as a transition system.

    A node is the peer, the place of [mainProcess], the local variables of every
    [LeaderProcess] it has run and the replication goroutines in flight (they
    outlive the [LeaderProcess] that started them).  A step is one [select] case,
    one RPC handler, one call by the service, or one answer to a goroutine, and runs to
    its end before the next begins; [RaftPool] cuts them into their statements. *)

From S2P Require Import Prelude RaftState RaftVote RaftAppend RaftLeader.

Section role.
Context {cmd : Type}.
Implicit Types rf : Raft cmd.

(** ** The [select] cases *)

(** [Follower]: the election timer, and [AENotifyChan] (drained to one signal). *)
Definition follower_timeout rf : Raft cmd :=
  persist (set_leaderNum (-1) (set_currentTerm (currentTerm rf + 1) rf)).

Definition follower_notify rf : outcome (Raft cmd) :=
  if AENotifyChan rf <=? 0 then Block
  else Ok (set_AENotifyChan (Z.min (AENotifyChan rf - 1) 1) rf).

(** [LeaderProcess]: the heartbeat timer. *)
Definition leader_heartbeat rf (ll : LeaderLocal) : outcome LeaderLocal :=
  if AEDistributedChan ll <? peers rf
  then Ok (MkLL (termList ll) (curLastSnapshotIndex ll) (AEDistributedChan ll + 1))
  else Block.

(** The end of the leader's term. *)
Definition leader_timeout rf : Raft cmd := persist (set_currentTerm (currentTerm rf + 1) rf).

(** [AENotifyChan]: drained to two signals; [true] when the peer no longer leads. *)
Definition leader_notify rf : outcome (Raft cmd * bool) :=
  if AENotifyChan rf <=? 0 then Block
  else Ok (set_AENotifyChan (Z.min (AENotifyChan rf - 1) 2) rf, negb (me rf =? leaderNum rf)).

(** A command was started: the distribution channel is drained to one signal and
    another one is sent. *)
Definition leader_command rf (ll : LeaderLocal) : outcome (Raft cmd * LeaderLocal) :=
  if commandToBeExec rf <=? 0 then Block else
  let rf := set_commandToBeExec (commandToBeExec rf - 1) rf in
  let n := Z.min (AEDistributedChan ll) 1 in
  if n <? peers rf then Ok (rf, MkLL (termList ll) (curLastSnapshotIndex ll) (n + 1)) else Block.

(** A goroutine replicating to one peer. *)
Record flight := MkFlight {
  fl_session : nat;
  fl_ind : Z;
  fl_args : AppendEntryArgs cmd;
  fl_term : Z;
  fl_prev : Z;
  fl_count : Z;
}.

(** [case <-AEDistributedChan]: one request per other peer. [nets] gives the answers
    to the snapshots sent on the way. *)
Fixpoint distribute_loop (inds : list Z) (session : nat) (logLen : Z) rf
    (nets : Z → list (option InstallSnapShotReply)) : outcome (Raft cmd * list flight) :=
  match inds with
  | [] => Ok (rf, [])
  | ind :: inds =>
      if ind =? me rf then distribute_loop inds session logLen rf nets else
      '(rf, req) ← ae_build rf logLen ind (nets ind);
      '(rf, fls) ← distribute_loop inds session logLen rf nets;
      Ok (rf, match req with
              | Some args => MkFlight session ind args (AETerm args) (PrevLogIndex args) 0 :: fls
              | None => fls
              end)
  end.

Definition leader_distribute (session : nat) rf (ll : LeaderLocal)
    (nets : Z → list (option InstallSnapShotReply)) :
    outcome (Raft cmd * LeaderLocal * list flight) :=
  if AEDistributedChan ll <=? 0 then Block else
  '(rf, fls) ← distribute_loop (seqZ 0 (peers rf)) session (getLastLogIndex rf + 1) rf nets;
  Ok (rf, MkLL (termList ll) (curLastSnapshotIndex ll) (AEDistributedChan ll - 1), fls).

(** ** The transition system *)

(** Where [mainProcess] is. A candidate has broadcast its request, and one goroutine for each
    other peer hands in one answer at most: [heard] are those that did. *)
Inductive place :=
| AtTop
| AtCandidate (args : RequestVoteArgs) (granted : Z) (heard : list Z)
| AtLeader (session : nat)
| AtFollower
| AtExit.

Record node := MkNode {
  nd_rf : Raft cmd;
  nd_place : place;
  nd_sessions : list LeaderLocal;
  nd_flights : list flight;
}.

(** After [CandidateProcess] returned. *)
Definition after_candidate (nd : node) rf (isTimeOut : bool) : outcome node :=
  if isTimeOut then Ok (MkNode rf AtTop (nd_sessions nd) (nd_flights nd)) else
  if me rf =? leaderNum rf then
    '(rf, ll) ← leader_begin rf;
    Ok (MkNode rf (AtLeader (length (nd_sessions nd))) (nd_sessions nd ++ [ll]) (nd_flights nd))
  else Ok (MkNode rf AtFollower (nd_sessions nd) (nd_flights nd)).

(** What the other peers have answered to which request, by the number of the peer. *)
Record answers := MkAnswers {
  rv_answer : Z → RequestVoteArgs → RequestVoteReply → Prop;
  ae_answer : Z → AppendEntryArgs cmd → AppendEntryReply → Prop;
  is_answer : Z → InstallSnapShotArgs cmd → InstallSnapShotReply → Prop;
}.

Definition no_answers : answers :=
  MkAnswers (λ _ _ _, False) (λ _ _ _, False) (λ _ _ _, False).

(** The answer to a vote comes from peer [ind], which was asked and has not answered yet. *)
Definition cand_event_ok (A : answers) rf (args : RequestVoteArgs) (heard : list Z) (ind : Z)
    (ev : cand_event) : Prop :=
  match ev with
  | CReply r => 0 ≤ ind < peers rf ∧ ind ≠ me rf ∧ (ind ∉ heard) ∧ rv_answer A ind args r
  | _ => True
  end.

(** What the calls of [sendSnapShot] to peer [ind] give. *)
Definition snapshot_ok (A : answers) rf (ind : Z) (net : list (option InstallSnapShotReply)) : Prop :=
  ∀ r, Some r ∈ net → ∃ args, LastIncludedIndex args = lastIndexInSnapshot rf ∧
    ISData args = ReadSnapshot (persister rf) ∧ is_answer A ind args r.

(** What a goroutine's call of [sendAppendEntry] gives. *)
Definition flight_ok (A : answers) rf (f : flight)
    (a : option (AppendEntryReply * list (option InstallSnapShotReply))) : Prop :=
  ∀ reply net, a = Some (reply, net) →
    ae_answer A (fl_ind f) (fl_args f) reply ∧ snapshot_ok A rf (fl_ind f) net.

(** What a peer does by itself, given what the others have answered. *)
Inductive local_step (A : answers) : node → node → Prop :=
(* mainProcess *)
| st_exit rf ss fs :
    exitFlag rf = true →
    local_step A (MkNode rf AtTop ss fs) (MkNode (set_leaderNum (-1) rf) AtExit ss fs)
| st_candidate rf args ss fs :
    exitFlag rf = false → candidate_args rf = Ok args →
    local_step A (MkNode rf AtTop ss fs) (MkNode (candidate_begin rf) (AtCandidate args 1 []) ss fs)
| st_cand_wait rf args g heard ss fs ind ev rf' g' :
    cand_event_ok A rf args heard ind ev →
    candidate_step (majority (peers rf)) rf g ev = Ok (rf', CWait g') →
    local_step A (MkNode rf (AtCandidate args g heard) ss fs)
      (MkNode rf' (AtCandidate args g' (ind :: heard)) ss fs)
| st_cand_return rf args g heard ss fs ind ev rf' b nd' :
    cand_event_ok A rf args heard ind ev →
    candidate_step (majority (peers rf)) rf g ev = Ok (rf', CReturn b) →
    after_candidate (MkNode rf (AtCandidate args g heard) ss fs) rf' b = Ok nd' →
    local_step A (MkNode rf (AtCandidate args g heard) ss fs) nd'
| st_follower_timeout rf ss fs :
    local_step A (MkNode rf AtFollower ss fs) (MkNode (follower_timeout rf) AtTop ss fs)
| st_follower_notify rf ss fs rf' :
    follower_notify rf = Ok rf' →
    local_step A (MkNode rf AtFollower ss fs) (MkNode rf' AtFollower ss fs)
(* LeaderProcess *)
| st_heartbeat rf s ss fs ll ll' :
    ss !! s = Some ll → leader_heartbeat rf ll = Ok ll' →
    local_step A (MkNode rf (AtLeader s) ss fs) (MkNode rf (AtLeader s) (<[s := ll']> ss) fs)
| st_leader_timeout rf s ss fs :
    local_step A (MkNode rf (AtLeader s) ss fs) (MkNode (leader_timeout rf) AtTop ss fs)
| st_leader_notify rf s ss fs rf' b :
    leader_notify rf = Ok (rf', b) →
    local_step A (MkNode rf (AtLeader s) ss fs)
      (MkNode rf' (if b then AtFollower else AtLeader s) ss fs)
| st_leader_command rf s ss fs ll rf' ll' :
    ss !! s = Some ll → leader_command rf ll = Ok (rf', ll') →
    local_step A (MkNode rf (AtLeader s) ss fs) (MkNode rf' (AtLeader s) (<[s := ll']> ss) fs)
| st_distribute rf s ss fs ll nets rf' ll' fls :
    (∀ ind, snapshot_ok A rf ind (nets ind)) → ss !! s = Some ll →
    leader_distribute s rf ll nets = Ok (rf', ll', fls) →
    local_step A (MkNode rf (AtLeader s) ss fs)
      (MkNode rf' (AtLeader s) (<[s := ll']> ss) (fs ++ fls))
(* a goroutine gets an answer (or none) *)
| st_flight_done rf pl ss fs1 f fs2 ll a rf' ll' :
    flight_ok A rf f a → ss !! fl_session f = Some ll →
    ae_goroutine [a] (fl_count f) rf ll (fl_ind f) (fl_args f) (fl_term f) (fl_prev f) =
      Ok (rf', ll', AEDone) →
    local_step A (MkNode rf pl ss (fs1 ++ f :: fs2))
      (MkNode rf' pl (<[fl_session f := ll']> ss) (fs1 ++ fs2))
| st_flight_retry rf pl ss fs1 f fs2 ll a rf' ll' args t :
    flight_ok A rf f a → ss !! fl_session f = Some ll →
    ae_goroutine [a] (fl_count f) rf ll (fl_ind f) (fl_args f) (fl_term f) (fl_prev f) =
      Ok (rf', ll', AERetry args t) →
    local_step A (MkNode rf pl ss (fs1 ++ f :: fs2))
      (MkNode rf' pl (<[fl_session f := ll']> ss)
         (fs1 ++ MkFlight (fl_session f) (fl_ind f) args t (fl_prev f)
                   (fl_count f + (match a with Some _ => 0 | None => 1 end)) :: fs2))
(* shutdown *)
| st_Kill rf pl ss fs :
    local_step A (MkNode rf pl ss fs) (MkNode (Kill rf) pl ss fs).

(** Every step of a peer, whatever the others answer. *)
Inductive node_step : node → node → Prop :=
| st_local A nd nd' : local_step A nd nd' → node_step nd nd'
(* RPC handlers *)
| st_RequestVote rf pl ss fs args rf' reply :
    RequestVote rf args = Ok (rf', reply) →
    node_step (MkNode rf pl ss fs) (MkNode rf' pl ss fs)
| st_AppendEntry rf pl ss fs args rf' reply :
    Forall (λ e, Command e ≠ None) (Entries args) →
    AppendEntry rf args = Ok (rf', reply) →
    node_step (MkNode rf pl ss fs) (MkNode rf' pl ss fs)
| st_InstallSnapShot rf pl ss fs args seqs rsm t rf' reply :
    good_snapshot args seqs rsm t →
    InstallSnapShot rf args = Ok (rf', reply) →
    node_step (MkNode rf pl ss fs) (MkNode rf' pl ss fs)
(* the service *)
| st_Start rf pl ss fs c rf' r :
    Start rf (Some c) = Ok (rf', r) →
    node_step (MkNode rf pl ss fs) (MkNode rf' pl ss fs)
| st_TakeSnapshots rf pl ss fs seqs rsm index rf' :
    index - 1 ≤ commitIndex rf →
    TakeSnapshots rf seqs rsm index = Ok rf' →
    node_step (MkNode rf pl ss fs) (MkNode rf' pl ss fs).

(** ** Steps that leave the replicated state alone *)

Ltac core_solve :=
  repeat (go_inv; simplify_eq/=; try case_match); simplify_eq/=; try done;
  unfold same_core; by split_and!.

Lemma notifyAE_core rf n rf' : notifyAE rf n = Ok rf' → same_core rf rf'.
Proof. unfold notifyAE. intros. core_solve. Qed.

Lemma RequestVote_core rf args rf' reply : RequestVote rf args = Ok (rf', reply) → same_core rf rf'.
Proof.
  unfold RequestVote, rv_finish. intros H.
  assert (Hf : ∀ (r : Raft cmd) b t r' p, same_core rf r →
    (if b : bool then r0 ← notifyAE r 2; Ok (r0, MkRVReply t true)
     else Ok (r, MkRVReply t false)) = Ok (r', p) → same_core rf r').
  { intros r [] t r' p Hr E; go_inv; simplify_eq; [|done]. etrans; [done|by eapply notifyAE_core]. }
  destruct (rv_check rf args).
  - by simplify_eq.
  - apply bind_Ok in H as ([r g] & Hl & H). eapply Hf; [|apply H].
    clear H. unfold rv_locked in Hl. core_solve.
  - go_inv. simplify_eq. by eapply notifyAE_core.
Qed.

Lemma candidate_step_core maj rf g ev rf' st :
  candidate_step maj rf g ev = Ok (rf', st) → same_core rf rf'.
Proof. unfold candidate_step. destruct ev; intros; core_solve. Qed.

Lemma leader_begin_core rf rf' ll : leader_begin rf = Ok (rf', ll) → same_core rf rf'.
Proof. unfold leader_begin. intros. core_solve. Qed.

Lemma set_progress_core rf ind v rf' : set_progress rf ind v = Ok rf' → same_core rf rf'.
Proof. unfold set_progress. intros. core_solve. Qed.

Lemma sendSnapShot_core rf ind net rf' : sendSnapShot rf ind net = Ok rf' → same_core rf rf'.
Proof.
  unfold sendSnapShot. intros H. repeat case_match; try (by eapply set_progress_core); core_solve.
Qed.

Lemma ae_build_core rf logLen ind net rf' req :
  ae_build rf logLen ind net = Ok (rf', req) → same_core rf rf'.
Proof.
  unfold ae_build. intros H. apply bind_Ok in H as (next & _ & H). apply bind_Ok in H as (r & Hr & H).
  assert (same_core rf r) as Hc.
  { clear H. case_match; [by eapply sendSnapShot_core|]. by go_inv. }
  clear Hr. go_inv. case_match; go_inv; by simplify_eq.
Qed.

Lemma distribute_loop_core inds session logLen rf nets rf' fls :
  distribute_loop inds session logLen rf nets = Ok (rf', fls) → same_core rf rf'.
Proof.
  revert rf fls. induction inds as [|ind inds IH]; intros rf fls H; simpl in H; [by simplify_eq|].
  case_match; [by eapply IH|]. apply bind_Ok in H as ([r req] & Hb & H).
  apply bind_Ok in H as ([r' f] & Hd & H). simplify_eq.
  etrans; [by eapply ae_build_core|by eapply IH].
Qed.

Lemma ae_failure_core rf ll ind appEn t reply net rf' ll' next :
  ae_failure rf ll ind appEn t reply net = Ok (rf', ll', next) → same_core rf rf'.
Proof.
  unfold ae_failure. intros H. case_match.
  { apply bind_Ok in H as (r & Hn & H). simplify_eq. by apply notifyAE_core in Hn. }
  apply bind_Ok in H as (m & _ & H). case_match; [by simplify_eq|].
  apply bind_Ok in H as (tl & _ & H). apply bind_Ok in H as (p & _ & H).
  apply bind_Ok in H as (n & _ & H). case_match; [done|].
  apply bind_Ok in H as ([r q] & Hr & H).
  assert (same_core rf r) as Hc.
  { clear H. case_match; [|by simplify_eq]. apply bind_Ok in Hr as (r0 & Hs & Hr). go_inv.
    simplify_eq. by apply sendSnapShot_core in Hs. }
  clear Hr. case_match; [by simplify_eq|]. go_inv. by simplify_eq.
Qed.

(** ** The invariant *)

(** Above the snapshot every entry holds a command. *)
Definition cmds_ok rf : Prop :=
  ∀ i e, lastIndexInSnapshot rf < i → entry_at rf i = Some e → Command e ≠ None.

(** [stream_ok a ms b]: starting after index [a], the messages [ms] are commands with
    consecutive indices, with snapshots in between, and end at index [b]. *)
Inductive stream_ok : Z → list (ApplyMsg cmd) → Z → Prop :=
| stream_nil a : stream_ok a [] a
| stream_cmd a m ms b :
    CommandValid m = true → CommandIndex m = a + 1 → ApplyCommand m ≠ None →
    stream_ok (a + 1) ms b → stream_ok a (m :: ms) b
| stream_snap a c m ms b :
    CommandValid m = false → stream_ok c ms b → stream_ok a (m :: ms) b.

Lemma stream_ok_app a ms b ms' c :
  stream_ok a ms b → stream_ok b ms' c → stream_ok a (ms ++ ms') c.
Proof. induction 1; simpl; [done| |]; intros; [by apply stream_cmd; auto|eapply stream_snap; eauto]. Qed.

Lemma stream_ok_apply_msgs rf lo n :
  wf rf → cmds_ok rf → lastIndexInSnapshot rf ≤ lo → lo + Z.of_nat n ≤ getLastLogIndex rf →
  stream_ok lo (apply_msgs rf lo n) (lo + Z.of_nat n).
Proof.
  intros Hwf Hc. revert lo. induction n as [|n IH]; intros lo Hlo Hhi; simpl.
  { rewrite Z.add_0_r. constructor. }
  destruct (entry_at rf (lo + 1)) as [e|] eqn:He.
  - apply stream_cmd; [done|done|simpl; apply (Hc (lo + 1)); [lia|done]|].
    replace (lo + Z.of_nat (S n)) with (lo + 1 + Z.of_nat n) by lia. apply IH; lia.
  - exfalso. assert (is_Some (entry_at rf (lo + 1))) as [? ?]; [|congruence].
    apply entry_at_is_Some. lia.
Qed.

Record inv rf : Prop := {
  inv_wf : wf rf;
  inv_peers : 3 ≤ peers rf;
  inv_cmds : cmds_ok rf;
  inv_stream : ∃ a, stream_ok a (applyCh rf) (commitIndex rf);
  inv_voted : votedFor rf = -1 ∨ votedFor rf = me rf;
}.

Lemma inv_core rf rf' : same_core rf rf' → inv rf → inv rf'.
Proof.
  intros (El & Es & Ec & Ea & Ev & Em & Ep) [Hw Hp Hc Hs Hv]. split.
  - by apply (wf_log_eq rf).
  - by rewrite Ep.
  - unfold cmds_ok, entry_at. by rewrite El, Es.
  - by rewrite Ea, Ec.
  - by rewrite Ev, Em.
Qed.

(** A step that applies the next entries of an unchanged log. *)
Lemma inv_apply rf rf' :
  inv rf → wf rf' → log rf' = log rf → lastIndexInSnapshot rf' = lastIndexInSnapshot rf →
  commitIndex rf ≤ commitIndex rf' →
  applyCh rf' = applyCh rf ++ apply_msgs rf (commitIndex rf) (Z.to_nat (commitIndex rf' - commitIndex rf)) →
  votedFor rf' = votedFor rf → me rf' = me rf → peers rf' = peers rf → inv rf'.
Proof.
  intros [Hw Hp Hc [a Hs] Hv] Hw' El Es Hle Ea Ev Em Ep. split; rewrite ?Ep, ?Ev, ?Em; try done.
  - unfold cmds_ok, entry_at. by rewrite El, Es.
  - exists a. rewrite Ea. eapply stream_ok_app; [apply Hs|].
    destruct Hw as [H1 H2 H3], Hw' as [H1' H2' H3']. unfold getLastLogIndex in *. rewrite El, Es in *.
    replace (commitIndex rf') with (commitIndex rf + Z.of_nat (Z.to_nat (commitIndex rf' - commitIndex rf))) at 2 by lia.
    apply stream_ok_apply_msgs; try done; unfold getLastLogIndex; try lia.
Qed.

Lemma set_AENotifyChan_ae_term_core rf args k :
  same_core rf (set_AENotifyChan k (ae_term rf args)).
Proof. unfold ae_term, same_core. repeat case_match; by split_and!. Qed.

(** Nothing but the old entries and the sent ones is in the log afterwards. *)
Lemma ae_new_log_elem rf args j e :
  wf rf → commitIndex rf ≤ PrevLogIndex args ≤ getLastLogIndex rf →
  zlookup (ae_new_log rf args) j = Some e → zlookup (log rf) j = Some e ∨ e ∈ Entries args.
Proof.
  intros [H1 H2 H3] Hp Hj. unfold getLastLogIndex in *.
  set (i := PrevLogIndex args + 1 - lastIndexInSnapshot rf) in *.
  assert (Ho : zlookup (overwrite (log rf) (Entries args) i) j = Some e →
    zlookup (log rf) j = Some e ∨ e ∈ Entries args).
  { intros Hz. destruct (decide (j < i)); [left; by rewrite overwrite_before in Hz by lia|].
    destruct (decide (i + len (Entries args) ≤ j)); [left; by rewrite overwrite_after in Hz by lia|].
    right. replace j with (i + (j - i)) in Hz by lia. rewrite overwrite_in in Hz by lia.
    unfold zlookup in Hz. case_decide; [|done]. by eapply list_elem_of_lookup_2. }
  unfold ae_new_log in Hj. fold i in Hj. repeat case_match; try (by apply Ho).
  apply Ho. rewrite <- Hj. symmetry. apply zlookup_take.
  apply zlookup_Some_lt in Hj. rewrite len_take in Hj. lia.
Qed.

Lemma inv_AppendEntry rf args rf' reply :
  inv rf → Forall (λ e, Command e ≠ None) (Entries args) →
  AppendEntry rf args = Ok (rf', reply) → inv rf'.
Proof.
  intros Hinv Hes E. pose proof Hinv as [Hw Hp Hc Hs Hv].
  destruct (AppendEntry_cases rf args Hw Hp Hes) as (rf1 & reply1 & E1 & Hout).
  rewrite E in E1. injection E1 as <- <-.
  destruct Hout as [| | |k reply rf2 Ht Hcons Hle _ _ Heq]; [done|..].
  1,2: eapply inv_core; [apply set_AENotifyChan_ae_term_core|done].
  edestruct (ae_accepted_spec rf args k rf2 _ Hw Hcons Hle Heq eq_refl)
    as (Hw' & Es & Eci & Ea & _). destruct (ae_committed_fields rf args k) as (El2 & Es2 & Ec2 & Ea2 & _).
  destruct (set_AENotifyChan_ae_term_core rf args k) as (_ & _ & _ & _ & Ev & Em & Ep).
  rewrite <- Heq in El2, Es2, Ec2, Ea2.
  assert (Hnc : commitIndex rf ≤ ae_new_commit rf args ≤ PrevLogIndex args)
    by (unfold ae_new_commit; lia).
  destruct Hcons as [Hlast _].
  assert (Hinv2 : inv rf2).
  { apply (inv_apply rf); rewrite ?Ec2; try done; [| |by subst rf2..]; [|lia].
    apply (wf_log_eq (set_commitIndex (ae_new_commit rf args) rf)); [done..|].
    destruct Hw as [A1 A2 A3]. split; simpl; unfold getLastLogIndex in *; simpl; lia. }
  case_bool_decide; [done|]. destruct Hinv2 as [W2 P2 C2 S2 V2]. split; simpl; try done.
  intros i e Hi He. unfold entry_at in He. simpl in He, Hi.
  apply ae_new_log_elem in He as [He|He]; [by eapply C2| |done|].
  - rewrite Forall_forall in Hes. by apply Hes.
  - unfold getLastLogIndex in *. rewrite El2, Es2, Ec2. lia.
Qed.

Lemma inv_InstallSnapShot rf args seqs rsm t rf' reply :
  inv rf → good_snapshot args seqs rsm t → InstallSnapShot rf args = Ok (rf', reply) → inv rf'.
Proof.
  intros [Hw Hp Hc [a Hs] Hv] Hg E.
  destruct (InstallSnapShot_cases rf args seqs rsm t Hw Hg) as (rf1 & reply1 & E1 & Hw1 & _ & _ & Hst).
  rewrite E in E1. injection E1 as <- <-.
  destruct (install_code rf args =? 0); subst rf'; [|by split; eauto]. split; simpl; try done.
  - intros i e Hi He. unfold entry_at in He. simpl in *.
    apply zlookup_Some_lt in He. unfold len in He. simpl in He. lia.
  - exists a. eapply stream_ok_app; [apply Hs|]. eapply stream_snap; [done|constructor].
Qed.

Lemma inv_Start rf c rf' r : inv rf → Start rf (Some c) = Ok (rf', r) → inv rf'.
Proof.
  intros Hinv E. pose proof Hinv as [[H1 H2 H3] Hp Hc Hs Hv]. unfold Start in E.
  case_match; [by simplify_eq|]. case_match; [done|].
  apply bind_Ok in E as (m & _ & E). simplify_eq/=. split; try done.
  - split; unfold getLastLogIndex in *; simpl; rewrite ?len_app, ?len_cons, ?len_nil; lia.
  - intros i e Hi He. unfold entry_at in He. simpl in *.
    destruct (decide (i - lastIndexInSnapshot rf < len (log rf))).
    + rewrite zlookup_app_l in He by done. by eapply Hc.
    + rewrite zlookup_app_r in He by lia. pose proof (zlookup_Some_lt _ _ _ He) as Hlt.
      unfold len in Hlt, n. simpl in Hlt.
      replace (i - lastIndexInSnapshot rf - len (log rf)) with 0 in He by (unfold len; lia). injection He as <-. done.
Qed.

Lemma inv_TakeSnapshots rf seqs rsm index rf' :
  inv rf → index - 1 ≤ commitIndex rf → TakeSnapshots rf seqs rsm index = Ok rf' → inv rf'.
Proof.
  intros Hinv Hi E. pose proof Hinv as [Hw Hp Hc Hs Hv].
  destruct (decide (index - 1 ≤ lastIndexInSnapshot rf)) as [Hle|Hlt].
  { unfold TakeSnapshots in E. rewrite (proj2 (Z.leb_le _ _) Hle), orb_true_r in E. by simplify_eq. }
  destruct (TakeSnapshots_Ok rf seqs rsm index Hw) as (r & E' & El & Hent & _ & Ec & _ & Hw' & _ & Ea & Ev & Em & Ep & _);
    [lia|done|]. rewrite E in E'. injection E' as <-. split; rewrite ?Ep, ?Ev, ?Em; try done.
  - intros i e Hlo He. rewrite Hent in He by lia. eapply Hc; [|done]. lia.
  - by rewrite Ea, Ec.
Qed.

Lemma inv_leader_commit rf ll c rf' ll' :
  inv rf → leader_commit rf ll c = Ok (rf', ll') → inv rf'.
Proof.
  intros Hinv H. pose proof (inv_wf _ Hinv) as Hwf. unfold leader_commit in H.
  case_match; [by simplify_eq|]. apply bind_Ok in H as (v & _ & H).
  case_match; [by simplify_eq|]. case_match; [by simplify_eq|].
  apply bind_Ok in H as ([rf1 ll1] & E & H).
  destruct (leader_commit_loop_spec (Z.to_nat (v - commitIndex rf)) (commitIndex rf + 1) rf ll Hwf)
    as (rf2 & ll2 & E2 & Hw1 & El & Es & _ & _ & _ & _ & Ec & Ea); [done|].
  rewrite E in E2. injection E2 as <- <-. apply leader_commit_loop_core in E as (Ev & Em & Ep).
  assert (inv rf1).
  { apply (inv_apply rf); try done. rewrite Ec. destruct Hwf. lia. }
  apply bind_Ok in H as (nx & _ & H). case_match; [|by simplify_eq].
  apply bind_Ok in H as (n & _ & H). simplify_eq. by apply (inv_core rf1).
Qed.

Lemma inv_ae_success rf ll ind appEn prev reply rf' ll' next :
  inv rf → ae_success rf ll ind appEn prev reply = Ok (rf', ll', next) → inv rf'.
Proof.
  intros Hinv H. unfold ae_success in H. case_match; [by simplify_eq|].
  apply bind_Ok in H as (nx & _ & H). apply bind_Ok in H as (m & _ & H).
  apply bind_Ok in H as ([r go] & Hu & H).
  assert (inv r) as Hr.
  { apply (inv_core rf); [|done]. clear H. case_match.
    - apply bind_Ok in Hu as (n & _ & Hu). case_match; go_inv; by simplify_eq.
    - apply bind_Ok in Hu as (r0 & Hs & Hu). simplify_eq. by eapply set_progress_core. }
  clear Hu. case_match; [by simplify_eq|]. apply bind_Ok in H as (cc & _ & H).
  case_match.
  - case_match; [case_match; [by simplify_eq|]|]; apply bind_Ok in H as (e & _ & H);
      apply bind_Ok in H as (es & _ & H); by simplify_eq.
  - apply bind_Ok in H as ([r1 l1] & Hc & H). simplify_eq. by eapply inv_leader_commit.
Qed.

Lemma inv_ae_goroutine a count rf ll ind appEn t prev rf' ll' next :
  inv rf → ae_goroutine [a] count rf ll ind appEn t prev = Ok (rf', ll', next) → inv rf'.
Proof.
  intros Hinv H. simpl in H. case_match.
  { apply bind_Ok in H as (r & Hn & H). simplify_eq. eapply inv_core; [by eapply notifyAE_core|done]. }
  destruct a as [[reply net]|]; [|case_match; by simplify_eq].
  apply bind_Ok in H as ([[r l] n] & Hr & H).
  assert (inv r); [|destruct n; by simplify_eq]. clear H. unfold ae_reply in Hr. case_match.
  - by eapply inv_ae_success.
  - eapply inv_core; [by eapply ae_failure_core|done].
Qed.

Lemma after_candidate_inv nd rf b nd' :
  inv rf → after_candidate nd rf b = Ok nd' → inv (nd_rf nd').
Proof.
  intros Hinv H. unfold after_candidate in H. case_match; [by simplify_eq|].
  case_match; [|by simplify_eq]. apply bind_Ok in H as ([r ll] & Hb & H). simplify_eq. simpl.
  eapply inv_core; [by eapply leader_begin_core|done].
Qed.

Lemma inv_local_step A nd nd' : local_step A nd nd' → inv (nd_rf nd) → inv (nd_rf nd').
Proof.
  assert (Hcore : ∀ rf rf', inv rf → same_core rf rf' → inv rf') by eauto using inv_core.
  destruct 1; simpl; intros Hinv;
    try (eapply Hcore; [done|]; first [by eapply candidate_step_core|unfold same_core; by split_and!]);
    eauto using inv_ae_goroutine.
  - destruct Hinv as [Hw Hp Hc Hs Hv]. split; simpl; try done; [|by right].
    by apply (wf_log_eq rf).
  - eapply after_candidate_inv; [|done]. eapply Hcore; [done|]. by eapply candidate_step_core.
  - eapply Hcore; [done|]. unfold follower_notify in *. core_solve.
  - eapply Hcore; [done|]. unfold leader_notify in *. core_solve.
  - eapply Hcore; [done|]. unfold leader_command in *. core_solve.
  - eapply Hcore; [done|]. unfold leader_distribute in *. case_match; [done|].
    match goal with H : _ ≫= _ = Ok _ |- _ => apply bind_Ok in H as ([r f] & Hd & H) end.
    simplify_eq. by eapply distribute_loop_core.
Qed.

Lemma inv_node_step nd nd' : node_step nd nd' → inv (nd_rf nd) → inv (nd_rf nd').
Proof.
  destruct 1; simpl; intros Hinv;
    eauto using inv_local_step, inv_AppendEntry, inv_InstallSnapShot, inv_Start, inv_TakeSnapshots.
  by eapply inv_core; [eapply RequestVote_core|].
Qed.

(** ** Reachable nodes *)

(** What a peer can be started from: an empty disk, or one written by a peer that
    satisfied the invariant and whose disk was up to date. *)
Definition good_disk (ps : Persister cmd) : Prop :=
  ps = MakePersister ∨ ∃ rf0, inv rf0 ∧ durable rf0 ∧ ps = persister rf0.

Lemma inv_Make n m ps rf : good_disk ps → 3 ≤ n → Make n m ps = Ok rf → inv rf.
Proof.
  intros [->|(rf0 & [Hw Hp Hc Hs Hv] & Hd & ->)] Hn E.
  - vm_compute in E. simplify_eq. split; simpl; try done; [|by exists 0; constructor|by left].
    intros i e Hi He. unfold entry_at in He. simpl in *. apply zlookup_Some_lt in He.
    unfold len in He. simpl in He. lia.
  - pose proof Hw as [H1 H2 H3].
    destruct (Make_durable rf0 n m Hd H1) as (r & E' & _ & El & Es & Ec & _ & Ev & _ & Em & Ep & Ea).
    rewrite E in E'. injection E' as <-. split; rewrite ?Ep, ?Ev; auto.
    + split; unfold getLastLogIndex; rewrite ?El, ?Es, ?Ec; lia.
    + unfold cmds_ok, entry_at. by rewrite El, Es.
    + destruct Ea as [->|(seqs & rsm & ->)]; [eexists; constructor|].
      exists 0. eapply stream_snap; [done|constructor].
Qed.

Lemma cmds_ok_from rf j es :
  cmds_ok rf → 1 ≤ j → slice_from (log rf) j = Some es → Forall (λ e, Command e ≠ None) es.
Proof.
  intros Hc Hj Hs. unfold slice_from in Hs. case_decide; simplify_eq.
  apply Forall_lookup. intros k e He. rewrite lookup_drop, <- zlookup_nat in He.
  apply (Hc (lastIndexInSnapshot rf + j + Z.of_nat k)); [lia|].
  unfold entry_at. rewrite <- He. f_equal. lia.
Qed.

Lemma ae_build_cmds rf logLen ind net rf' args :
  inv rf → ae_build rf logLen ind net = Ok (rf', Some args) →
  Forall (λ e, Command e ≠ None) (Entries args).
Proof.
  intros Hinv H. unfold ae_build in H. apply bind_Ok in H as (nx & _ & H).
  apply bind_Ok in H as (r & Hr & H).
  assert (inv r) as Hir.
  { clear H. case_match; [|by simplify_eq]. by eapply inv_core; [eapply sendSnapShot_core|]. }
  clear Hr. apply bind_Ok in H as (nx' & _ & H). apply bind_Ok in H as (es & Hes & H).
  assert (Forall (λ e, Command e ≠ None) es).
  { clear H. case_match; [|by simplify_eq; constructor].
    case_match; [|by simplify_eq; constructor]. go_inv. go_bools.
    eapply cmds_ok_from; [apply Hir| |done]. rewrite getTrueIndex_ge by lia. lia. }
  case_match; [by simplify_eq|]. apply bind_Ok in H as (e & _ & H). by simplify_eq.
Qed.

(** C5. A peer of a cluster of at least three, started from an empty disk or one that its
    predecessor had brought up to date, whose handlers, answers, timers and calls of the service run
    one after the other, each to its end before the next begins: whatever they are and in whatever
    order they come, the peer stays well formed (its commit index between its snapshot and its last
    entry, real commands above the snapshot), has handed the service an unbroken run of indices,
    restarted only by snapshots, that ends exactly at the commit index, and only ever records a vote
    for itself; and the requests a leader in that state builds carry only real commands, which the
    step relation assumes of the requests a peer receives.  (RaftPool has what is left of it when
    they overlap, and KvPool what an overlapping [InstallSnapShot] does.) *)
Theorem reachable_inv n m ps rf nd :
  good_disk ps → 3 ≤ n → Make n m ps = Ok rf →
  rtc node_step (MkNode rf AtTop [] []) nd →
  inv (nd_rf nd) ∧
  ∀ logLen ind net rf' args, ae_build (nd_rf nd) logLen ind net = Ok (rf', Some args) →
    Forall (λ e, Command e ≠ None) (Entries args).
Proof.
  intros Hd Hn HM Hrtc.
  assert (inv (nd_rf (MkNode rf AtTop [] []))) as Hi by (by eapply inv_Make).
  assert (inv (nd_rf nd)) by (revert Hi; induction Hrtc; eauto using inv_node_step).
  split; [done|]. intros. by eapply ae_build_cmds.
Qed.
End role.

Arguments node : clear implicits.
Arguments flight : clear implicits.

(** ** Witness: a new peer times out of its election, receives an entry and then the
    commit of that entry. *)
Lemma reachable_inv_witness : ∃ rf nd,
  Make 3 1 (@MakePersister Z) = Ok rf ∧ rtc node_step (MkNode rf AtTop [] []) nd ∧
  inv (nd_rf nd) ∧ applyCh (nd_rf nd) = [MkApplyMsg true (Some 7) 1 ∅ ∅].
Proof.
  eexists _, _. split; [vm_compute; reflexivity|]. split.
  { eapply rtc_l; [eapply (st_local no_answers), st_candidate; reflexivity|].
    eapply rtc_l; [eapply (st_local no_answers), (st_cand_return _ _ _ _ _ _ _ 1 CTimeout); [done|vm_compute; reflexivity..]|].
    eapply rtc_l; [eapply st_AppendEntry with (args := MkAEArgs 4 0 0 0 [MkCT (Some 7) 4] 0);
      [by repeat constructor|vm_compute; reflexivity]|].
    eapply rtc_l; [eapply st_AppendEntry with (args := MkAEArgs 4 0 1 4 [] 1);
      [by repeat constructor|vm_compute; reflexivity]|].
    apply rtc_refl. }
  split; [|vm_compute; reflexivity].
  eapply (reachable_inv 3 1 (@MakePersister Z)); [by left|done|vm_compute; reflexivity|].
  eapply rtc_l; [eapply (st_local no_answers), st_candidate; reflexivity|].
  eapply rtc_l; [eapply (st_local no_answers), (st_cand_return _ _ _ _ _ _ _ 1 CTimeout); [done|vm_compute; reflexivity..]|].
  eapply rtc_l; [eapply st_AppendEntry with (args := MkAEArgs 4 0 0 0 [MkCT (Some 7) 4] 0);
    [by repeat constructor|vm_compute; reflexivity]|].
  eapply rtc_l; [eapply st_AppendEntry with (args := MkAEArgs 4 0 1 4 [] 1);
    [by repeat constructor|vm_compute; reflexivity]|].
  apply rtc_refl.
Defined.
