(* ===== verification/RaftThreads.v ===== *)
(** * [raft/raft.go] as the threads it runs.

    The other files run a handler as one step.  Here it is cut where other goroutines can come in
    between: at every statement outside of the lock that reads or writes the peer, at every critical
    section, at every message on [applyCh] (which is unbuffered) and at every remote call of
    [sendSnapShot].  All of [raft.go] is here but for [Make]: the handlers, the calls of the service,
    the goroutines of [LeaderProcess] and the [select] cases of [mainProcess].  Three things stay one
    step: what a critical section reads and writes (its sends come after, with the lock still held),
    a loop that only reads the log outside of the lock ([makeTermIndex], the back-off of
    [AppendEntry]), and emptying a channel of signals.  [RaftAlone] compares the threads with the
    handlers of the other files, [RaftPool] runs the threads of a peer against each other. *)

From S2P Require Import Prelude RaftState RaftVote RaftAppend RaftLeader RaftRole.

Section threads.
Context {cmd : Type}.
Implicit Types rf : Raft cmd.

(** What the goroutines of a peer share: the peer, and the variables of its [LeaderProcess]es. *)
Record shared := MkSh { sh_rf : Raft cmd; sh_ss : list LeaderLocal }.

Definition on_rf (f : Raft cmd → Raft cmd) (sh : shared) : shared := MkSh (f (sh_rf sh)) (sh_ss sh).

(** A thread that ends with an [A].  [Locked] is a critical section, with the messages sent on
    [applyCh] in it; [Unlock] waits until they are sent. *)
#[warnings="-register-all"]
Inductive thread (A : Type) : Type :=
| Done (a : A)
| Do (k : shared → outcome (shared * thread A))
| Locked (k : shared → outcome (shared * list (ApplyMsg cmd) * thread A))
| Unlock (t : thread A)
| Send (m : ApplyMsg cmd) (t : thread A)
| CallSnap (args : InstallSnapShotArgs cmd) (k : option InstallSnapShotReply → thread A)
| Go (f : flight cmd) (t : thread A).

#[export] Instance thread_ret : MRet thread := Done.
#[export] Instance thread_bind : MBind thread := λ A B f,
  fix go t := match t with
  | Done _ a => f a
  | Do _ k => Do _ (λ sh, match k sh with
                          | Ok (sh, t) => Ok (sh, go t) | Panic => Panic | Block => Block end)
  | Locked _ k => Locked _ (λ sh, match k sh with
                          | Ok (sh, ms, t) => Ok (sh, ms, go t) | Panic => Panic | Block => Block end)
  | Unlock _ t => Unlock _ (go t)
  | Send _ m t => Send _ m (go t)
  | CallSnap _ args k => CallSnap _ args (λ r, go (k r))
  | Go _ f t => Go _ f (go t)
  end.

(** ** Statements *)

(** Outside of the lock: a read, a read that may panic, a write, a write that may fail. *)
Definition rd {A} (f : Raft cmd → A) : thread A := Do _ (λ sh, Ok (sh, Done _ (f (sh_rf sh)))).
Definition rdm {A} (f : Raft cmd → outcome A) : thread A :=
  Do _ (λ sh, a ← f (sh_rf sh); Ok (sh, Done _ a)).
Definition wrm (f : Raft cmd → outcome (Raft cmd)) : thread unit :=
  Do _ (λ sh, rf ← f (sh_rf sh); Ok (on_rf (λ _, rf) sh, Done _ tt)).
Definition wr (f : Raft cmd → Raft cmd) : thread unit := wrm (λ rf, Ok (f rf)).

(** A critical section that only reads and writes. *)
Definition crit {A} (f : Raft cmd → outcome (Raft cmd * A)) : thread A :=
  Locked _ (λ sh, '(rf, a) ← f (sh_rf sh); Ok (on_rf (λ _, rf) sh, [], Done _ a)).
Definition crit_wr (f : Raft cmd → Raft cmd) : thread unit := crit (λ rf, Ok (f rf, tt)).

(** [persist]: the fields are encoded one after the other, then saved. *)
Definition persist_t : thread unit :=
  t ← rd currentTerm;
  l ← rd log;
  wr (λ rf, set_persister (SaveRaftState (persister rf) [GInt t; GLog l]) rf).

(** [if len(rf.AENotifyChan) < n { rf.AENotifyChan <- true }] *)
Definition notify_t (n : Z) : thread unit :=
  room ← rd (λ rf, AENotifyChan rf <? n);
  if (room : bool) then
    wrm (λ rf, if AENotifyChan rf <? peers rf then Ok (set_AENotifyChan (AENotifyChan rf + 1) rf)
               else Block)
  else mret tt.

(** ** The handlers *)

Definition RequestVote_t (args : RequestVoteArgs) : thread RequestVoteReply :=
  let candidateTerm := RVTerm args in
  term ← rd currentTerm;
  let reply granted := mret (MkRVReply term granted) in
  localLastTerm ← rd localLastTerm;
  test1 ← rd (λ rf, (candidateTerm <? currentTerm rf)
                    || ((currentTerm rf =? candidateTerm) && negb (votedFor rf =? me rf)));
  if (test1 : bool) then reply false else
  test2 ← rd (λ rf, (currentTerm rf =? candidateTerm) && (LastLogTerm args <=? localLastTerm));
  if (test2 : bool) then reply false else
  newer ← rd (λ rf, currentTerm rf <? candidateTerm);
  granted ←
    (if (newer : bool) then
       same ← crit (λ rf, if currentTerm rf =? candidateTerm then Ok (rf, true)
                          else Ok (set_currentTerm candidateTerm rf, false));
       if (same : bool) then mret false else
       persist_t;;
       test3 ← rdm (λ rf, t ← lastLogTerm rf; Ok (LastLogTerm args <? t));
       if (test3 : bool) then mret false else
       test4 ← rdm (λ rf, t ← lastLogTerm rf;
                          Ok ((LastLogTerm args =? t) && (LastLogIndex args <? getLastLogIndex rf)));
       if (test4 : bool) then mret false else
       wr (set_leaderNum (CandidateID args));; mret true
     else mret true);
  if (granted : bool) then notify_t 2;; reply true else reply false.

(** [rf.log[rf.getTrueIndex(i)].Term] *)
Definition term_at rf (i : Z) : outcome Z := e ← must (zlookup (log rf) (getTrueIndex rf i)); Ok (Term e).

(** The critical section that delivers. *)
Definition deliver_t (pre aft : Z) : thread unit :=
  Locked _ (λ sh, '(rf, msgs) ← ae_deliver (sh_rf sh) pre aft;
                  Ok (on_rf (λ _, rf) sh, msgs, Unlock _ (mret tt))).

(** Which entries are committed is settled before the lock is taken. *)
Definition commit_entries_t (args : AppendEntryArgs cmd) : thread unit :=
  ahead ← rd (λ rf, commitIndex rf <? LeaderCommit args);
  '(pre, aft) ← (if (ahead : bool) then
                   pre ← rd commitIndex;
                   mret (pre, if PrevLogIndex args <? LeaderCommit args then PrevLogIndex args
                              else LeaderCommit args)
                 else mret (0, 0));
  deliver_t pre aft.

Definition AppendEntry_t (args : AppendEntryArgs cmd) : thread AppendEntryReply :=
  let prev := PrevLogIndex args in
  curTerm ← rd currentTerm;
  me ← rd me;
  let reply ok last commit t := mret (MkAEReply me curTerm ok last commit t) in
  if AETerm args <? curTerm then reply false 0 0 0 else
  (if curTerm <? AETerm args then
     leads ← rd (λ rf, leaderNum rf =? me);
     (if (leads : bool)
      then crit_wr (λ rf, set_currentTerm (AETerm args) (set_leaderNum (LeaderID args) rf))
      else crit_wr (set_currentTerm (AETerm args)));;
     persist_t
   else mret tt);;
  notify_t 3;;
  short ← rd (λ rf, getLastLogIndex rf + 1 <=? prev);
  if (short : bool) then
    last ← rd getLastLogIndex;
    t ← rdm lastLogTerm;
    reply false last 0 t
  else
  differs ← rdm (λ rf, t ← term_at rf prev; Ok (negb (t =? PrevLogTerm args)));
  if (differs : bool) then
    prevIndexTerm ← rdm (λ rf, term_at rf prev);
    retTerm ← (if PrevLogTerm args <? prevIndexTerm
               then rdm (λ rf, ae_back_term (log rf) (Z.to_nat (getTrueIndex rf prev))
                                 (PrevLogTerm args) prevIndexTerm)
               else mret prevIndexTerm);
    reply false 0 0 retTerm
  else
  below ← rd (λ rf, prev <? commitIndex rf);
  if (below : bool) then commit ← rd commitIndex; reply true 0 commit 0 else
  commit_entries_t args;;
  persist_t;;
  if bool_decide (Entries args = []) then reply true 0 0 0 else
  crit (λ rf, rf ← ae_write rf args; Ok (rf, tt));;
  persist_t;;
  reply true 0 0 0.

(** The snapshot is sent on [applyCh], and then saved, after the lock has been given back. *)
Definition readSnapshotPersist_t (data : gobbytes cmd) : thread unit :=
  if bool_decide (data = []) then mret tt else
  '(seqs, rsm, lastIndex, lastTerm) ← rdm (λ _, decodeSnapshot data);
  Locked _ (λ sh,
    if lastIndex <=? lastIndexInSnapshot (sh_rf sh) then Ok (sh, [], mret tt) else
    Ok (on_rf (λ rf, begin_at rf lastIndex lastTerm) sh, [],
        Send _ (snapshot_msg seqs rsm)
          (state ← rd (λ rf, ReadRaftState (persister rf));
           wr (λ rf, set_persister (SaveStateAndSnapshot (persister rf) state data) rf)))).

Definition InstallSnapShot_t (args : InstallSnapShotArgs cmd) : thread InstallSnapShotReply :=
  term ← rd currentTerm;
  old ← rd (λ rf, ISTerm args <? currentTerm rf);
  if (old : bool) then mret (MkISReply false term 1 0) else
  have ← rd (λ rf, LastIncludedIndex args <=? lastIndexInSnapshot rf);
  if (have : bool) then value ← rd lastIndexInSnapshot; mret (MkISReply false term 2 value) else
  long ← rd (λ rf, LastIncludedIndex args <=? getLastLogIndex rf);
  same ← (if (long : bool)
          then rdm (λ rf, t ← term_at rf (LastIncludedIndex args); Ok (t =? LastIncludedTerm args))
          else mret false);
  if (same : bool) then mret (MkISReply false term 3 0) else
  readSnapshotPersist_t (ISData args);;
  rdm (λ rf, if lastIndexInSnapshot rf <? LastIncludedIndex args then Panic else Ok tt);;
  mret (MkISReply true term 0 0).

(** ** The calls of the service *)

Definition Start_t (command : option cmd) : thread (Z * Z * bool) :=
  '(leader, curTerm) ← crit (λ rf, Ok (rf, (leaderNum rf, currentTerm rf)));
  self ← rd me;
  if negb (leader =? self) then mret (-1, curTerm, false) else
  wrm (λ rf, if 256 <=? commandToBeExec rf then Block
             else Ok (set_commandToBeExec (commandToBeExec rf + 1) rf));;
  index ← crit (λ rf,
    let rf := set_log (log rf ++ [MkCT command curTerm]) rf in
    let index := getNameIndex rf (len (log rf) - 1) in
    m ← must (zinsert (matchIndex rf) (me rf) index);
    Ok (set_matchIndex m rf, index));
  persist_t;;
  mret (index, curTerm, true).

(** The lock is held to the end, the file included. *)
Definition TakeSnapshots_t (seqs : gmap Z Z) (rsm : gmap string string) (index : Z) : thread unit :=
  skip ← rd (λ rf, (index - 1 <? 1) || (index - 1 <=? lastIndexInSnapshot rf));
  if (skip : bool) then mret tt else
  crit (λ rf, rf ← TakeSnapshots rf seqs rsm index; Ok (rf, tt)).

Definition Kill_t : thread unit :=
  wr (set_exitFlag true);; persist_t;; wr (set_leaderNum (-1)).

(** ** The leader

    [s] is the number of the [LeaderProcess] a goroutine belongs to. *)

(** [rf.nextIndex[ind] = v], [rf.matchIndex[ind] = v] *)
Definition set_next_t (ind : Z) (v : Raft cmd → outcome Z) : thread unit :=
  wrm (λ rf, v ← v rf; n ← must (zinsert (nextIndex rf) ind v); Ok (set_nextIndex n rf)).
Definition set_match_t (ind : Z) (v : Raft cmd → outcome Z) : thread unit :=
  wrm (λ rf, v ← v rf; m ← must (zinsert (matchIndex rf) ind v); Ok (set_matchIndex m rf)).
Definition next_of rf (ind : Z) : outcome Z := must (zlookup (nextIndex rf) ind).
Definition match_of rf (ind : Z) : outcome Z := must (zlookup (matchIndex rf) ind).

(** [for ; count > 0; count--]: the reply stays zero while no call gets through. *)
Fixpoint calls_t (count : nat) (args : InstallSnapShotArgs cmd) : thread InstallSnapShotReply :=
  match count with
  | O => mret (MkISReply false 0 0 0)
  | S count => CallSnap _ args (λ r, match r with Some r => mret r | None => calls_t count args end)
  end.

Definition sendSnapShot_t (ind : Z) : thread unit :=
  args ← crit (λ rf, Ok (rf, snapshot_args rf));
  reply ← calls_t 5 args;
  let progress v := set_next_t ind (λ _, Ok (v + 1));; set_match_t ind (λ _, Ok v) in
  if negb (Err_code reply =? 0) then
    if Err_code reply =? 1
    then crit_wr (λ rf, set_leaderNum (ISValue reply) (set_currentTerm (ISReplyTerm reply) rf))
    else if Err_code reply =? 2 then progress (ISValue reply)
    else if Err_code reply =? 3 then progress (LastIncludedIndex args)
    else mret tt
  else progress (LastIncludedIndex args).

Definition build_t (logLen ind : Z) : thread (option (AppendEntryArgs cmd)) :=
  term ← rd currentTerm;
  me ← rd me;
  commit ← rd commitIndex;
  next ← rdm (λ rf, next_of rf ind);
  let prevLogIndex := next - 1 in
  behind ← rdm (λ rf, next ← next_of rf ind; Ok (next <=? lastIndexInSnapshot rf));
  (if (behind : bool) then sendSnapShot_t ind else mret tt);;
  more ← rdm (λ rf, next ← next_of rf ind; Ok (next <? logLen));
  es ← (if (more : bool) then
          crit (λ rf, es ← (if 0 <? prevLogIndex + 1 - lastIndexInSnapshot rf
                            then must (slice_from (log rf) (getTrueIndex rf (prevLogIndex + 1)))
                            else Ok []);
                      Ok (rf, es))
        else mret []);
  past ← rd (λ rf, len (log rf) <=? getTrueIndex rf prevLogIndex);
  if (past : bool) then mret None else
  t ← rdm (λ rf, term_at rf prevLogIndex);
  mret (Some (MkAEArgs term me prevLogIndex t es commit)).

(** The variables of a [LeaderProcess]. *)
Definition local_t {A} (s : nat) (f : LeaderLocal → outcome (LeaderLocal * A)) : thread A :=
  Do _ (λ sh, ll ← must (sh_ss sh !! s); '(ll, a) ← f ll;
              Ok (MkSh (sh_rf sh) (<[s := ll]> (sh_ss sh)), Done _ a)).

Fixpoint distribute_t (inds : list Z) (s : nat) (logLen : Z) : thread unit :=
  match inds with
  | [] => mret tt
  | ind :: inds =>
      self ← rd me;
      if ind =? self then distribute_t inds s logLen else
      req ← build_t logLen ind;
      match req with
      | Some args => Go _ (MkFlight s ind args (AETerm args) (PrevLogIndex args) 0) (mret tt)
      | None => mret tt
      end;;
      distribute_t inds s logLen
  end.

(** The second critical section of a commit: the loop, and the messages sent in it. *)
Definition leader_deliver_t (s : nat) (toBe : Z) : thread unit :=
  Locked _ (λ sh,
    ll ← must (sh_ss sh !! s);
    let rf := sh_rf sh in
    '(rf', ll) ← leader_commit_loop (Z.to_nat (toBe - commitIndex rf)) (commitIndex rf + 1)
                   (set_applyCh [] rf) ll;
    Ok (MkSh (set_applyCh (applyCh rf) rf') (<[s := ll]> (sh_ss sh)), applyCh rf', Unlock _ (mret tt))).

Definition commit_t (s : nat) (currComInd : Z) : thread unit :=
  below ← rd (λ rf, currComInd <=? commitIndex rf);
  if (below : bool) then mret tt else
  toBe ← rdm toBeCommitIndex;
  below ← crit (λ rf, Ok (rf, toBe <=? commitIndex rf));
  if (below : bool) then mret tt else
  leads ← rd (λ rf, leaderNum rf =? me rf);
  if negb leads then mret tt else
  leader_deliver_t s toBe;;
  less ← rdm (λ rf, next ← next_of rf (me rf); Ok (next <? commitIndex rf));
  if (less : bool) then self ← rd me; set_next_t self (λ rf, Ok (commitIndex rf)) else mret tt.

(** The bookkeeping of an acknowledged request: [false] if it tells nothing new. *)
Definition ack_t (ind : Z) (appEn : AppendEntryArgs cmd) (reply : AppendEntryReply) : thread bool :=
  let sent := PrevLogIndex appEn + len (Entries appEn) + 1 in
  if AECommitIndex reply =? 0 then
    less ← rdm (λ rf, next ← next_of rf ind; Ok (next <? sent));
    (if (less : bool) then set_next_t ind (λ _, Ok sent) else mret tt);;
    same ← rdm (λ rf, m ← match_of rf ind; next ← next_of rf ind; Ok (m =? next - 1));
    if negb same then set_match_t ind (λ rf, next ← next_of rf ind; Ok (next - 1));; mret true
    else mret false
  else
    set_match_t ind (λ _, Ok (AECommitIndex reply));;
    set_next_t ind (λ rf, m ← match_of rf ind; Ok (m + 1));;
    mret true.

(** The branch [if appendEntryReply.Success]; the request it continues with, if any. *)
Definition success_t (s : nat) (ind : Z) (appEn : AppendEntryArgs cmd) (prevLogIndex : Z)
    (reply : AppendEntryReply) : thread ae_next :=
  if len (Entries appEn) =? 0 then mret AEDone else
  go_on ← ack_t ind appEn reply;
  if negb go_on then mret AEDone else
  currComInd ← rdm (λ rf, match_of rf ind);
  if currComInd <? prevLogIndex then
    appEnTerm ← rd currentTerm;
    let next prev t es :=
      commit ← rd commitIndex;
      mret (AERetry (MkAEArgs appEnTerm (LeaderID appEn) prev t es commit) appEnTerm) in
    if negb (AECommitIndex reply =? 0) then
      let prev := AECommitIndex reply in
      past ← rd (λ rf, getLastLogIndex rf <=? prev);
      if (past : bool) then mret AEDone else
      '(t, es) ← crit (λ rf,
        let one := getTrueIndex rf prev in
        t ← term_at rf prev;
        es ← (if 0 <? one then must (slice (log rf) (one + 1) (one + 2)) else Ok []);
        Ok (rf, (t, es)));
      next prev t es
    else
      one ← rd (λ rf, getTrueIndex rf currComInd);
      t ← rdm (λ rf, e ← must (zlookup (log rf) one); Ok (Term e));
      es ← rdm (λ rf, must (slice_from (log rf) (one + 1)));
      next currComInd t es
  else commit_t s currComInd;; mret AEDone.

(** Back to an earlier entry, which may be in the snapshot only. *)
Definition retreat_t (s : nat) (ind : Z) (appEn : AppendEntryArgs cmd) (appEnTerm : Z)
    (reply : AppendEntryReply) : thread ae_next :=
  prevlog ← local_t s (λ ll, p ← backoff (termList ll) (PrevLogIndex appEn) reply; Ok (ll, p));
  set_next_t ind (λ _, Ok (prevlog + 1));;
  rdm (λ _, if prevlog <? 0 then Panic else Ok tt);;
  behind ← rd (λ rf, prevlog <? lastIndexInSnapshot rf);
  prevlog ← (if (behind : bool) then sendSnapShot_t ind;; rdm (λ rf, match_of rf ind) else mret prevlog);
  past ← rd (λ rf, len (log rf) <=? prevlog);
  if (past : bool) then mret AEDone else
  e1 ← rdm (λ rf, must (zlookup (log rf) (getTrueIndex rf (prevlog + 1))));
  term ← rd currentTerm;
  t ← rdm (λ rf, term_at rf prevlog);
  mret (AERetry (MkAEArgs term (LeaderID appEn) prevlog t [e1] 0) appEnTerm).

(** The other branch. *)
Definition failure_t (s : nat) (ind : Z) (appEn : AppendEntryArgs cmd) (appEnTerm : Z)
    (reply : AppendEntryReply) : thread ae_next :=
  if appEnTerm <? AEReplyTerm reply then
    wr (set_leaderNum (-1));; notify_t 2;; mret AEDone
  else
  have ← rdm (λ rf, m ← match_of rf ind; Ok (PrevLogIndex appEn <=? m));
  if (have : bool) then mret AEDone else
  cur ← local_t s (λ ll, Ok (ll, curLastSnapshotIndex ll));
  moved ← rd (λ rf, negb (cur =? lastIndexInSnapshot rf));
  (if negb (TermOfArgsPreLogIndex reply =? 0) && moved then
     tl ← rdm makeTermIndex;
     local_t s (λ ll, Ok (MkLL tl (curLastSnapshotIndex ll) (AEDistributedChan ll), tt))
   else mret tt);;
  retreat_t s ind appEn appEnTerm reply.

(** One turn of a goroutine's loop, with what its call gives. *)
Definition flight_t (f : flight cmd) (answer : option AppendEntryReply) : thread (option (flight cmd)) :=
  let next args t count := MkFlight (fl_session f) (fl_ind f) args t (fl_prev f) count in
  leads ← rd (λ rf, leaderNum rf =? me rf);
  if negb leads then notify_t 2;; mret None else
  match answer with
  | None => mret (if 8 <=? fl_count f + 1 then None
                  else Some (next (fl_args f) (fl_term f) (fl_count f + 1)))
  | Some reply =>
      n ← (if AESuccess reply then success_t (fl_session f) (fl_ind f) (fl_args f) (fl_prev f) reply
           else failure_t (fl_session f) (fl_ind f) (fl_args f) (fl_term f) reply);
      mret (match n with AEDone => None | AERetry args t => Some (next args t (fl_count f)) end)
  end.

(** ** [mainProcess]

    Each thread ends in the place [mainProcess] is at next. *)

(** [rf.currentTerm++] *)
Definition incr_term_t : thread unit := t ← rd currentTerm; wr (set_currentTerm (t + 1)).

Definition candidate_t : thread place :=
  exit ← rd exitFlag;
  if (exit : bool) then wr (set_leaderNum (-1));; mret AtExit else
  term ← rd currentTerm;
  me ← rd me;
  last ← rd getLastLogIndex;
  t ← rdm lastLogTerm;
  wr (set_votedFor me);;
  wr (set_leaderNum (-1));;
  mret (AtCandidate (MkRVArgs term me last t) 1 []).

Definition leader_begin_t : thread place :=
  wr (λ rf, set_matchIndex (replicate (Z.to_nat (peers rf)) 0) rf);;
  tl ← rdm makeTermIndex;
  snap ← rd lastIndexInSnapshot;
  next ← rd (λ rf, getLastLogIndex rf + 1);
  wr (λ rf, set_nextIndex (replicate (Z.to_nat (peers rf)) next) rf);;
  Do _ (λ sh, Ok (MkSh (sh_rf sh) (sh_ss sh ++ [MkLL tl snap 1]),
                  Done _ (AtLeader (length (sh_ss sh))))).

(** After [CandidateProcess] returned [false]. *)
Definition elected_t : thread place :=
  leads ← rd (λ rf, me rf =? leaderNum rf);
  if (leads : bool) then leader_begin_t else mret AtFollower.

(** A [select] case of [CandidateProcess]; emptying [AENotifyChan] is one step, here and below. *)
Definition candidate_case_t (args : RequestVoteArgs) (granted : Z) (heard : list Z) (ind : Z)
    (ev : cand_event) : thread place :=
  match ev with
  | CReply r =>
      let granted := if VoteGranted r then granted + 1 else granted in
      maj ← rd (λ rf, majority (peers rf));
      if VoteGranted r && (maj <=? granted) then
        self ← rd me; wr (set_leaderNum self);; elected_t
      else
      newer ← rd (λ rf, currentTerm rf <? RVReplyTerm r);
      if (newer : bool) then crit_wr (set_currentTerm (RVReplyTerm r));; persist_t;; elected_t
      else mret (AtCandidate args granted (ind :: heard))
  | CTimeout => incr_term_t;; persist_t;; mret AtTop
  | CNotify =>
      wrm (λ rf, if AENotifyChan rf <=? 0 then Block else Ok (set_AENotifyChan 0 rf));; elected_t
  end.

Inductive select_event :=
| EvTimer                  (** the election timer of [Follower], the term timer of [LeaderProcess] *)
| EvNotify
| EvHeartbeat
| EvDistribute
| EvCommand
| EvVote (ind : Z) (ev : cand_event).

Definition drain (keep : Z) : thread unit :=
  wrm (λ rf, if AENotifyChan rf <=? 0 then Block
             else Ok (set_AENotifyChan (Z.min (AENotifyChan rf - 1) keep) rf)).

(** [n] signals taken from [AEDistributedChan] and put in it. *)
Definition signal_t (s : nat) (f : LeaderLocal → outcome Z) : thread unit :=
  local_t s (λ ll, n ← f ll; Ok (MkLL (termList ll) (curLastSnapshotIndex ll) n, tt)).

Definition leader_case_t (s : nat) (ev : select_event) : option (thread place) :=
  match ev with
  | EvHeartbeat => Some (
      n ← rd peers;
      signal_t s (λ ll, if AEDistributedChan ll <? n then Ok (AEDistributedChan ll + 1) else Block);;
      mret (AtLeader s))
  | EvDistribute => Some (
      signal_t s (λ ll, if AEDistributedChan ll <=? 0 then Block else Ok (AEDistributedChan ll - 1));;
      logLen ← rd (λ rf, getLastLogIndex rf + 1);
      n ← rd peers;
      distribute_t (seqZ 0 n) s logLen;;
      mret (AtLeader s))
  | EvTimer => Some (
      crit_wr (λ rf, set_currentTerm (currentTerm rf + 1) rf);; persist_t;; mret AtTop)
  | EvNotify => Some (
      drain 2;;
      out ← rd (λ rf, negb (me rf =? leaderNum rf));
      mret (if (out : bool) then AtFollower else AtLeader s))
  | EvCommand => Some (
      wrm (λ rf, if commandToBeExec rf <=? 0 then Block
                 else Ok (set_commandToBeExec (commandToBeExec rf - 1) rf));;
      n ← rd peers;
      signal_t s (λ ll, Ok (Z.min (AEDistributedChan ll) 1));;
      signal_t s (λ ll, if AEDistributedChan ll <? n then Ok (AEDistributedChan ll + 1) else Block);;
      mret (AtLeader s))
  | EvVote _ _ => None
  end.

Definition main_t (p : place) (ev : select_event) : option (thread place) :=
  match p, ev with
  | AtTop, _ => Some candidate_t
  | AtCandidate args granted heard, EvVote ind ev => Some (candidate_case_t args granted heard ind ev)
  | AtLeader s, ev => leader_case_t s ev
  | AtFollower, EvTimer => Some (
      crit_wr (λ rf, set_leaderNum (-1) (set_currentTerm (currentTerm rf + 1) rf));;
      persist_t;; mret AtTop)
  | AtFollower, EvNotify => Some (drain 1;; mret AtFollower)
  | _, _ => None
  end.
End threads.

Arguments shared : clear implicits.
Arguments thread : clear implicits.
