(* ===== verification/RaftPool.v ===== *)
(** * The goroutines of one Raft peer, run against each other.

    A peer is the variables its goroutines share, the messages that the holder of [rf.mu] is
    sending on [applyCh], the thread of [mainProcess], the replication goroutines that wait for an
    answer, and the threads that run: handlers, calls of the service, goroutines that got an
    answer.  Any of them may take the next step (file RaftThreads says what a step is).  A thread
    that would panic takes no step: the process is gone. *)

From S2P Require Import Prelude RaftState RaftVote RaftAppend RaftLeader RaftRole RaftThreads.

Create HintDb ok.

Section pool.
Context {cmd : Type}.
Implicit Types rf : Raft cmd.
Implicit Types sh : shared cmd.
Implicit Types hold : list (ApplyMsg cmd).

(** ** Steps *)

(** The service takes a message. *)
Definition receive (m : ApplyMsg cmd) sh : shared cmd :=
  on_rf (λ rf, set_applyCh (applyCh rf ++ [m]) rf) sh.

(** A step of a thread, with the goroutines it starts.  [hold]: what the holder of the lock has
    still to send; nobody else gets the lock before. *)
Inductive thread_step {A} : shared cmd → list (ApplyMsg cmd) → thread cmd A →
    shared cmd → list (ApplyMsg cmd) → thread cmd A → list (flight cmd) → Prop :=
| ts_Do sh hold k sh' t : k sh = Ok (sh', t) → thread_step sh hold (Do A k) sh' hold t []
| ts_Locked sh k sh' ms t : k sh = Ok (sh', ms, t) → thread_step sh [] (Locked A k) sh' ms t []
| ts_Unlock sh t : thread_step sh [] (Unlock A t) sh [] t []
| ts_Send sh hold m t : thread_step sh hold (Send A m t) (receive m sh) hold t []
| ts_CallSnap sh hold args k r : thread_step sh hold (CallSnap A args k) sh hold (k r) []
| ts_Go sh hold f t : thread_step sh hold (Go A f t) sh hold t [f].

Record pool := MkPool {
  pl_sh : shared cmd;
  pl_hold : list (ApplyMsg cmd);
  pl_main : thread cmd place;
  pl_flights : list (flight cmd);
  pl_jobs : list (thread cmd (option (flight cmd)));
}.

(** A call from outside. *)
Inductive request :=
| ReqVote (args : RequestVoteArgs)
| ReqAppend (args : AppendEntryArgs cmd)
| ReqInstall (args : InstallSnapShotArgs cmd)
| ReqStart (c : cmd)
| ReqSnapshot (seqs : gmap Z Z) (rsm : gmap string string) (index : Z)
| ReqKill.

Definition request_t (req : request) : thread cmd (option (flight cmd)) :=
  match req with
  | ReqVote args => RequestVote_t args;; mret None
  | ReqAppend args => AppendEntry_t args;; mret None
  | ReqInstall args => InstallSnapShot_t args;; mret None
  | ReqStart c => Start_t (Some c);; mret None
  | ReqSnapshot seqs rsm index => TakeSnapshots_t seqs rsm index;; mret None
  | ReqKill => Kill_t;; mret None
  end.

(** [installs]: [InstallSnapShot] is among the calls. The service asks for snapshots of what it has
    been given. *)
Definition allowed (installs : bool) rf (req : request) : bool :=
  match req with
  | ReqInstall _ => installs
  | ReqSnapshot _ _ index => index - 1 <=? commitIndex rf
  | _ => true
  end.

Inductive pool_step (installs : bool) : pool → pool → Prop :=
(* mainProcess *)
| ps_select sh hold p ev t fs js :
    main_t p ev = Some t →
    pool_step installs (MkPool sh hold (mret p) fs js) (MkPool sh hold t fs js)
| ps_main sh hold t sh' hold' t' fls fs js :
    thread_step sh hold t sh' hold' t' fls →
    pool_step installs (MkPool sh hold t fs js) (MkPool sh' hold' t' (fs ++ fls) js)
(* the others *)
| ps_call sh hold m fs js req :
    allowed installs (sh_rf sh) req = true →
    pool_step installs (MkPool sh hold m fs js) (MkPool sh hold m fs (js ++ [request_t req]))
| ps_answer sh hold m fs1 f fs2 js answer :
    pool_step installs (MkPool sh hold m (fs1 ++ f :: fs2) js)
      (MkPool sh hold m (fs1 ++ fs2) (js ++ [flight_t f answer]))
| ps_job sh hold m fs js1 t js2 sh' hold' t' fls :
    thread_step sh hold t sh' hold' t' fls →
    pool_step installs (MkPool sh hold m fs (js1 ++ t :: js2))
      (MkPool sh' hold' m (fs ++ fls) (js1 ++ t' :: js2))
| ps_end sh hold m fs js1 f js2 :
    pool_step installs (MkPool sh hold m fs (js1 ++ mret f :: js2))
      (MkPool sh hold m (fs ++ option_list f) (js1 ++ js2))
(* the service takes the next message of the holder of the lock *)
| ps_receive sh x hold m fs js :
    pool_step installs (MkPool sh (x :: hold) m fs js) (MkPool (receive x sh) hold m fs js).

Definition pool_of rf : pool := MkPool (MkSh rf []) [] (mret AtTop) [] [].

(** ** The invariant *)

(** Commands, one for each index from [a + 1] to [b]. *)
Definition numbered (a : Z) (ms : list (ApplyMsg cmd)) (b : Z) : Prop :=
  b = a + len ms ∧
  ∀ k m, ms !! k = Some m →
    CommandValid m = true ∧ CommandIndex m = a + 1 + Z.of_nat k ∧ ApplyCommand m ≠ None.

Lemma numbered_nil a : numbered a [] a.
Proof. split; [rewrite len_nil; lia|done]. Qed.

Lemma numbered_app a ms b ms' c : numbered a ms b → numbered b ms' c → numbered a (ms ++ ms') c.
Proof.
  intros [Eb H1] [Ec H2]. split; [rewrite len_app; lia|]. intros k m [Hm|[Hk Hm]]%lookup_app_Some; [by apply H1|].
  apply H2 in Hm as (? & -> & ?). split_and!; [done| |done]. unfold len in Eb. lia.
Qed.

Lemma numbered_snoc a ms b c : numbered a ms b → c ≠ None → numbered a (ms ++ [MkApplyMsg true c (b + 1) ∅ ∅]) (b + 1).
Proof.
  intros. eapply numbered_app; [done|]. split; [done|]. intros [|k] m ?; simplify_eq/=. split_and!; [done|lia|done].
Qed.

(** The service had been sent [ms0] when the commit index was [a0]. *)
Context (ms0 : list (ApplyMsg cmd)) (a0 : Z).

Record streams rf hold : Prop := {
  st_cmds : cmds_ok rf;
  st_snap : 0 ≤ lastIndexInSnapshot rf ≤ commitIndex rf;
  st_stream : ∃ ms, applyCh rf ++ hold = ms0 ++ ms ∧ numbered a0 ms (commitIndex rf);
}.

(** What every statement outside of the lock leaves alone. *)
Definition quiet rf rf' : Prop :=
  log rf' = log rf ∧ lastIndexInSnapshot rf' = lastIndexInSnapshot rf ∧
  commitIndex rf' = commitIndex rf ∧ applyCh rf' = applyCh rf.

Lemma streams_quiet rf rf' hold : quiet rf rf' → streams rf hold → streams rf' hold.
Proof.
  intros (El & Es & Ec & Ea) [H1 H2 H3]. split; [|by rewrite Es, Ec|by rewrite Ea, Ec].
  unfold cmds_ok, entry_at. by rewrite El, Es.
Qed.

(** [t] run from a commit index of at least [c], whatever the others do: it keeps the invariant,
    never lowers the commit index, and ends with [Q]. *)
Fixpoint safe {A} (Q : Z → A → Prop) (c : Z) (t : thread cmd A) : Prop :=
  match t with
  | Done _ a => ∀ c', c ≤ c' → Q c' a
  | Do _ k => ∀ sh, c ≤ commitIndex (sh_rf sh) →
      match k sh with
      | Ok (sh', t) => quiet (sh_rf sh) (sh_rf sh') ∧ safe Q (commitIndex (sh_rf sh')) t
      | _ => True
      end
  | Locked _ k => ∀ sh, c ≤ commitIndex (sh_rf sh) → streams (sh_rf sh) [] →
      match k sh with
      | Ok (sh', ms, t) =>
          streams (sh_rf sh') ms ∧ commitIndex (sh_rf sh) ≤ commitIndex (sh_rf sh') ∧
          safe Q (commitIndex (sh_rf sh')) t
      | _ => True
      end
  | Unlock _ t | Go _ _ t => safe Q c t
  | Send _ _ _ => False
  | CallSnap _ _ k => ∀ r, safe Q c (k r)
  end.

Lemma safe_le {A} (Q : Z → A → Prop) c c' t : c ≤ c' → safe Q c t → safe Q c' t.
Proof.
  intros Hc. revert t. fix IH 1. intros [a|k|k|t|m t|args k|f t]; simpl; try done.
  - intros H c'' ?. apply H. lia.
  - intros H sh ?. apply H. lia.
  - intros H sh ?. apply H. lia.
  - apply IH.
  - intros H r. by apply IH.
  - apply IH.
Qed.

Lemma safe_bind {A B} (Q : Z → B → Prop) c (t : thread cmd A) (f : A → thread cmd B) :
  safe (λ c a, safe Q c (f a)) c t → safe Q c (t ≫= f).
Proof.
  revert c t. fix IH 2. intros c [a|k|k|t|m t|args k|fl t]; cbn [safe mbind thread_bind]; try done.
  - intros H. apply H. lia.
  - intros H sh Hc. specialize (H sh Hc). destruct (k sh) as [[sh' t]| |]; [|done..].
    destruct H as [? H]. split; [done|]. by apply IH.
  - intros H sh Hc Hs. specialize (H sh Hc Hs). destruct (k sh) as [[[sh' ms] t]| |]; [|done..].
    destruct H as (? & ? & H). split_and!; [done..|]. by apply IH.
  - apply IH.
  - intros H r. by apply IH.
  - apply IH.
Qed.

(** What is kept by a step of a thread. *)
Lemma safe_step {A} (Q : Z → A → Prop) sh hold t sh' hold' t' fls :
  thread_step sh hold t sh' hold' t' fls →
  streams (sh_rf sh) hold → safe Q (commitIndex (sh_rf sh)) t →
  streams (sh_rf sh') hold' ∧ commitIndex (sh_rf sh) ≤ commitIndex (sh_rf sh') ∧
  safe Q (commitIndex (sh_rf sh')) t'.
Proof.
  destruct 1 as [sh hold k sh' t E|sh k sh' ms t E|sh t|sh hold m t|sh hold args k r|sh hold f t];
    intros Hs H; simpl in H.
  - specialize (H sh). rewrite E in H. destruct H as [Hq H]; [lia|].
    split_and!; [by eapply streams_quiet| |done]. destruct Hq as (_ & _ & -> & _). lia.
  - specialize (H sh). rewrite E in H. apply H; [lia|done].
  - split_and!; [done|lia|done].
  - done.
  - split_and!; [done|lia|apply H].
  - split_and!; [done|lia|done].
Qed.

(** ** The critical sections *)

(** An entry above the snapshot has a command. *)
Lemma cmds_ok_true rf i e :
  cmds_ok rf → lastIndexInSnapshot rf < i → zlookup (log rf) (getTrueIndex rf i) = Some e → Command e ≠ None.
Proof. intros Hc Hi He. rewrite entry_at_true in He by lia. by eapply Hc. Qed.

Lemma ae_apply_loop_streams n ind pre rf msgs rf' msgs' a :
  ae_apply_loop n ind pre rf msgs = Ok (rf', msgs') →
  cmds_ok rf → lastIndexInSnapshot rf ≤ commitIndex rf →
  getNameIndex rf (ind + pre) ≤ commitIndex rf → numbered a msgs (commitIndex rf) →
  rf' = set_commitIndex (commitIndex rf') rf ∧ commitIndex rf ≤ commitIndex rf' ∧
  numbered a msgs' (commitIndex rf').
Proof.
  revert ind rf msgs. induction n as [|n IH]; intros ind rf msgs H Hc Hs Hi Hm; simpl in H.
  { simplify_eq. split_and!; [by destruct rf'|lia|done]. }
  apply bind_Ok in H as (e & He & H). unfold getNameIndex in *.
  case_match; go_bools; [|eapply (IH (ind + 1)); try done; lia].
  assert (Hx : ind + pre + 1 + lastIndexInSnapshot rf = commitIndex rf + 1) by lia. rewrite Hx in *.
  apply IH in H as (E & Hle & Hst); [|done|simpl; lia..|].
  - simpl in *. split_and!; [|lia|done]. by rewrite E at 1.
  - simpl. apply numbered_snoc; [done|]. go_inv. eapply cmds_ok_true; [done| |done]. lia.
Qed.

Lemma ae_deliver_streams rf pre aft rf' ms :
  streams rf [] → pre ≤ commitIndex rf → ae_deliver rf pre aft = Ok (rf', ms) →
  streams rf' ms ∧ commitIndex rf ≤ commitIndex rf'.
Proof.
  intros [Hc Hs (sent & Hsent & Hst)] Hp H. unfold ae_deliver in H. apply bind_Ok in H as (s & _ & H).
  rewrite app_nil_r in Hsent.
  destruct (ae_apply_loop_streams _ _ _ _ _ _ _ (commitIndex rf) H) as (E & Hle & Hm); [done|lia| |apply numbered_nil|].
  { unfold getNameIndex, getTrueIndex. case_match; go_bools; lia. }
  split; [|done]. rewrite E. split; simpl; [done|lia|].
  exists (sent ++ ms). split; [by rewrite Hsent, app_assoc|by eapply numbered_app].
Qed.

Lemma leader_commit_loop_streams n rf ll rf' ll' a :
  leader_commit_loop n (commitIndex rf + 1) rf ll = Ok (rf', ll') →
  cmds_ok rf → lastIndexInSnapshot rf ≤ commitIndex rf → numbered a (applyCh rf) (commitIndex rf) →
  cmds_ok rf' ∧ lastIndexInSnapshot rf' = lastIndexInSnapshot rf ∧ commitIndex rf ≤ commitIndex rf' ∧
  numbered a (applyCh rf') (commitIndex rf').
Proof.
  revert rf ll. induction n as [|n IH]; intros rf ll H Hc Hs Hm; simpl in H.
  { simplify_eq. by split_and!. }
  case_match; [simplify_eq; by split_and!|]. apply bind_Ok in H as (e & He & H).
  case_match; go_bools; [|lia].
  apply (IH (set_applyCh _ (set_commitIndex (commitIndex rf + 1) rf))) in H as (? & ? & ? & ?);
    simpl in *; [|done|lia|].
  - split_and!; [done..|lia|done].
  - apply numbered_snoc; [done|]. go_inv. eapply cmds_ok_true; [done| |done]. lia.
Qed.

Lemma cmds_ok_log rf l :
  cmds_ok rf → (∀ j e, 0 < j → zlookup l j = Some e → Command e ≠ None ∨ zlookup (log rf) j = Some e) →
  cmds_ok (set_log l rf).
Proof.
  intros Hc Hl i e Hi He. unfold entry_at in He. simpl in *. apply Hl in He as [?|He]; [done| |lia].
  by eapply Hc.
Qed.

Lemma streams_log rf l hold : cmds_ok (set_log l rf) → streams rf hold → streams (set_log l rf) hold.
Proof. intros Hc [_ H2 H3]. by split. Qed.

Lemma ae_write_loop_streams es i rf rf' j :
  ae_write_loop rf i es = Ok (rf', j) → 1 ≤ i → streams rf [] →
  streams rf' [] ∧ commitIndex rf' = commitIndex rf ∧ lastIndexInSnapshot rf' = lastIndexInSnapshot rf.
Proof.
  revert i rf. induction es as [|e es IH]; intros i rf H Hi Hs; simpl in H; [by simplify_eq|].
  case_match; [by simplify_eq|]. apply bind_Ok in H as (l & Hl & H).
  destruct (Command e) as [c|] eqn:Ec; [|done].
  apply IH in H as (? & ? & ?); [by split_and!|lia|]. apply streams_log; [|done].
  apply cmds_ok_log; [apply Hs|]. intros k e' Hk He'. case_match; go_bools; simplify_eq.
  - destruct (decide (k < len (log rf))); [right; by rewrite zlookup_app_l in He'|].
    left. rewrite zlookup_app_r in He' by lia. apply zlookup_Some_lt in He' as Hb. unfold zlookup in He'.
    case_decide; [|done]. destruct (Z.to_nat _); [by simplify_eq/=; congruence|done].
  - destruct (zinsert (log rf) i e) as [l'|] eqn:E; [|done]. simpl in Hl. injection Hl as <-.
    erewrite zlookup_zinsert in He' by done. case_decide; [simplify_eq; left; congruence|by right].
Qed.

Lemma ae_write_streams rf args rf' :
  ae_write rf args = Ok rf' → streams rf [] → streams rf' [] ∧ commitIndex rf' = commitIndex rf.
Proof.
  unfold ae_write. intros H Hs. case_match; [|by simplify_eq]. go_bools.
  apply bind_Ok in H as ([r j] & Hl & H). apply ae_write_loop_streams in Hl as (Hr & Ec & _); [|lia|done].
  case_match; [|by simplify_eq]. apply bind_Ok in H as (e & _ & H). apply bind_Ok in H as (t & _ & H).
  case_match; [|by simplify_eq]. apply bind_Ok in H as (l & Hl & H). simplify_eq. split; [|done].
  apply streams_log; [|done]. apply cmds_ok_log; [apply Hr|]. intros k e' Hk He'. right.
  unfold slice_to in Hl. case_decide; [|done]. simplify_eq/=.
  pose proof (zlookup_Some_lt _ _ _ He') as Hlt. rewrite len_take in Hlt.
  rewrite zlookup_take in He' by lia. done.
Qed.

Lemma TakeSnapshots_streams rf seqs rsm index rf' :
  TakeSnapshots rf seqs rsm index = Ok rf' → index - 1 ≤ commitIndex rf → streams rf [] →
  streams rf' [] ∧ commitIndex rf' = commitIndex rf.
Proof.
  unfold TakeSnapshots. intros H Hi Hs. case_match; [by simplify_eq|]. go_bools.
  apply bind_Ok in H as (e & He & H). case_match; [|by simplify_eq]. go_bools.
  apply bind_Ok in H as (l & Hl & H). simplify_eq/=. split; [|done].
  destruct Hs as [Hc Hs Hst]. rewrite getTrueIndex_ge in He by lia.
  unfold truncate in Hl. case_match; [done|]. simpl in Hl. go_inv.
  apply zlookup_Some_lt in He. case_match; go_bools.
  { rewrite len_drop in *. unfold len in *. lia. }
  simplify_eq. split; simpl; [|lia|done].
  intros i e' Hlt He'. unfold entry_at in He'. simpl in *.
  pose proof (zlookup_Some_lt _ _ _ He'). rewrite zlookup_drop in He' by lia.
  apply (Hc i); [lia|]. unfold entry_at. rewrite <- He'. f_equal. lia.
Qed.

(** ** The threads *)

(** [t] is safe from a commit index of [c] on, whatever it ends with. *)
Definition ok {A} (c : Z) (t : thread cmd A) : Prop :=
  ∀ Q c', c ≤ c' → (∀ c'' a, c' ≤ c'' → Q c'' a) → safe Q c' t.

Lemma ok_ret {A} c (a : A) : ok c (mret a).
Proof. intros Q c' _ HQ c'' ?. by apply HQ. Qed.

Lemma ok_bind {A B} c (t : thread cmd A) (f : A → thread cmd B) :
  ok c t → (∀ a, ok c (f a)) → ok c (t ≫= f).
Proof.
  intros Ht Hf Q c' Hc HQ. apply safe_bind, Ht; [done|]. intros c'' a ?. apply Hf; [lia|].
  intros. apply HQ. lia.
Qed.

Lemma ok_do {A} c (f : shared cmd → outcome (shared cmd * A)) :
  (∀ sh sh' a, f sh = Ok (sh', a) → quiet (sh_rf sh) (sh_rf sh')) →
  ok c (Do A (λ sh, '(sh, a) ← f sh; Ok (sh, Done A a))).
Proof.
  intros Hf Q c' Hc HQ sh Hle. destruct (f sh) as [[sh' a]| |] eqn:E; [|done..]. simpl.
  apply Hf in E. split; [done|]. destruct E as (_ & _ & -> & _). intros c'' ?. apply HQ. lia.
Qed.

Lemma ok_rd {A} c (f : Raft cmd → A) : ok c (rd f).
Proof. intros Q c' Hc HQ sh Hle. split; [by split_and!|]. intros c'' ?. apply HQ. lia. Qed.

Lemma ok_rdm {A} c (f : Raft cmd → outcome A) : ok c (rdm f).
Proof.
  intros Q c' Hc HQ sh Hle. destruct (f (sh_rf sh)); [|done..].
  split; [by split_and!|]. intros c'' ?. apply HQ. lia.
Qed.

Lemma ok_wrm c (f : Raft cmd → outcome (Raft cmd)) :
  (∀ rf rf', f rf = Ok rf' → quiet rf rf') → ok c (wrm f).
Proof.
  intros Hf Q c' Hc HQ sh Hle. simpl. destruct (f (sh_rf sh)) as [rf'| |] eqn:E; [|done..]. simpl.
  apply Hf in E. split; [done|]. destruct E as (_ & _ & -> & _). intros c'' ?. apply HQ. lia.
Qed.

Lemma ok_wr c (f : Raft cmd → Raft cmd) : (∀ rf, quiet rf (f rf)) → ok c (wr f).
Proof. intros Hf. apply ok_wrm. intros. by simplify_eq. Qed.

Lemma ok_local {A} c s (f : LeaderLocal → outcome (LeaderLocal * A)) : ok c (local_t s f).
Proof.
  intros Q c' Hc HQ sh Hle. destruct (sh_ss sh !! s); [|done]. simpl.
  destruct (f _) as [[ll a]| |]; [|done..]. split; [by split_and!|]. intros c'' ?. apply HQ. simpl in *. lia.
Qed.

Lemma ok_crit {A} c (f : Raft cmd → outcome (Raft cmd * A)) :
  (∀ rf rf' a, c ≤ commitIndex rf → f rf = Ok (rf', a) → streams rf [] →
     streams rf' [] ∧ commitIndex rf' = commitIndex rf) →
  ok c (crit f).
Proof.
  intros Hf Q c' Hc HQ sh Hle Hs. destruct (f (sh_rf sh)) as [[rf' a]| |] eqn:E; [|done..]. simpl.
  apply Hf in E as [Hs' Ec]; [|lia|done]. rewrite Ec. split_and!; [done|lia|]. intros c'' ?. apply HQ. lia.
Qed.

Lemma ok_crit_quiet {A} c (f : Raft cmd → outcome (Raft cmd * A)) :
  (∀ rf rf' a, f rf = Ok (rf', a) → quiet rf rf') → ok c (crit f).
Proof.
  intros Hf. apply ok_crit. intros rf rf' a _ E Hs. apply Hf in E as Hq.
  split; [by eapply streams_quiet|]. by destruct Hq as (_ & _ & ? & _).
Qed.

Lemma ok_snapshot_calls c n args : ok c (calls_t (cmd:=cmd) n args).
Proof. induction n as [|n IH]; [apply ok_ret|]. intros Q c' Hc HQ [r|]; [by apply ok_ret with c|by apply IH]. Qed.
#[local] Hint Resolve ok_ret ok_rd ok_rdm ok_local ok_snapshot_calls : ok.

(** Goes through a thread statement by statement. *)
Ltac quiet_go :=
  intros; go_inv; repeat (case_match; go_inv); simplify_eq/=; by split_and!.
Ltac ok_go :=
  repeat first
    [ solve [eauto 2 with ok]
    | apply ok_wr; [solve [quiet_go]..]
    | apply ok_wrm; [solve [quiet_go]..]
    | apply ok_crit_quiet; [solve [quiet_go]..]
    | apply ok_bind; [|intros ?]
    | case_match ].

Lemma ok_persist c : ok c (persist_t (cmd:=cmd)).
Proof. unfold persist_t. ok_go. Qed.

Lemma ok_notify c n : ok c (notify_t (cmd:=cmd) n).
Proof. unfold notify_t. ok_go. Qed.

Lemma ok_RequestVote c args : ok c (RequestVote_t (cmd:=cmd) args).
Proof. pose proof ok_persist. pose proof ok_notify. unfold RequestVote_t, crit_wr. ok_go. Qed.

Lemma safe_deliver (Q : Z → () → Prop) c pre aft :
  pre ≤ c → (∀ c' a, c ≤ c' → Q c' a) → safe Q c (deliver_t (cmd:=cmd) pre aft).
Proof.
  intros Hp HQ sh Hle Hs. destruct (ae_deliver (sh_rf sh) pre aft) as [[rf' ms]| |] eqn:E; [|done..].
  apply ae_deliver_streams in E as [Hs' Hc]; [|done|lia]. split_and!; [done..|]. intros c' ?. apply HQ.
  simpl in *. lia.
Qed.

(** The commit index read before the lock is taken is still a lower bound under the lock. *)
Lemma ok_commit_entries args : ok 0 (commit_entries_t (cmd:=cmd) args).
Proof.
  intros Q c Hc HQ. unfold commit_entries_t. apply safe_bind, (ok_rd 0); [lia|]. intros c1 ahead ?.
  apply safe_bind, safe_le with c; [done|].
  assert (Hd : ∀ c' p, c ≤ c' → fst p ≤ c' →
    safe Q c' (let '(pre, aft) := p in deliver_t (cmd:=cmd) pre aft)).
  { intros c' [pre aft] ? ?. apply safe_deliver; [done|]. intros. apply HQ. lia. }
  destruct ahead.
  - intros sh Hle. split; [by split_and!|]. intros c' ?.
    apply (Hd c' (commitIndex (sh_rf sh), _)); simpl; lia.
  - intros c' ?. apply (Hd c' (0, 0)); simpl; lia.
Qed.

Lemma ok_AppendEntry args : ok 0 (AppendEntry_t (cmd:=cmd) args).
Proof.
  pose proof ok_persist. pose proof ok_notify. pose proof ok_commit_entries.
  unfold AppendEntry_t, crit_wr. ok_go.
  apply ok_crit. intros rf rf' [] _ E Hs. apply bind_Ok in E as (r & E & ?). simplify_eq.
  by eapply ae_write_streams.
Qed.

Lemma ok_Start c x : ok c (Start_t (cmd:=cmd) (Some x)).
Proof.
  pose proof ok_persist. unfold Start_t. ok_go.
  apply ok_crit. intros rf rf' i _ E Hs. apply bind_Ok in E as (m & _ & E). simplify_eq. split; [|done].
  eapply (streams_quiet (set_log _ rf)), streams_log; [by split_and!| |done].
  apply cmds_ok_log; [apply Hs|]. intros j e Hj He.
  destruct (decide (j < len (log rf))); [right; by rewrite zlookup_app_l in He|left].
  rewrite zlookup_app_r in He by lia. apply zlookup_Some_lt in He as Hb. unfold zlookup in He.
  case_decide; [|done]. destruct (Z.to_nat _) as [|k]; simpl in He; [by simplify_eq|by destruct k].
Qed.

Lemma ok_TakeSnapshots seqs rsm index : ok (index - 1) (TakeSnapshots_t (cmd:=cmd) seqs rsm index).
Proof.
  unfold TakeSnapshots_t. ok_go. apply ok_crit. intros rf rf' [] Hc E Hs.
  apply bind_Ok in E as (r & E & ?). simplify_eq. by eapply TakeSnapshots_streams.
Qed.

Lemma ok_Kill c : ok c (Kill_t (cmd:=cmd)).
Proof. pose proof ok_persist. unfold Kill_t. ok_go. Qed.

Lemma ok_sendSnapShot c ind : ok c (sendSnapShot_t (cmd:=cmd) ind).
Proof. unfold sendSnapShot_t, set_next_t, set_match_t, crit_wr. ok_go. Qed.

Lemma ok_build c logLen ind : ok c (build_t (cmd:=cmd) logLen ind).
Proof. pose proof ok_sendSnapShot. unfold build_t. ok_go. Qed.

Lemma ok_distribute c inds s logLen : ok c (distribute_t (cmd:=cmd) inds s logLen).
Proof.
  pose proof ok_build. induction inds as [|ind inds IH]; cbn [distribute_t]; ok_go.
Qed.

Lemma ok_leader_deliver c s toBe : ok c (leader_deliver_t (cmd:=cmd) s toBe).
Proof.
  intros Q c' Hc HQ [rf ss] Hle [H1 H2 (sent & H3 & H4)]. simpl in *. destruct (ss !! s) as [ll|]; [|done]. simpl.
  destruct (leader_commit_loop _ _ (set_applyCh [] rf) ll) as [[rf' ll']| |] eqn:E; [|done..]. simpl.
  apply (leader_commit_loop_streams _ (set_applyCh [] rf) _ _ _ (commitIndex rf)) in E
    as (? & Es & ? & ?); [|done|simpl; lia|apply numbered_nil].
  rewrite app_nil_r in H3. simpl in *. split_and!; [|done|intros; apply HQ; lia].
  split; simpl; [done|lia|].
  exists (sent ++ applyCh rf'). split; [by rewrite H3, app_assoc|by eapply numbered_app].
Qed.

Lemma ok_commit c s i : ok c (commit_t (cmd:=cmd) s i).
Proof. pose proof ok_leader_deliver. unfold commit_t, set_next_t. ok_go. Qed.

Lemma ok_success c s ind appEn prev reply : ok c (success_t (cmd:=cmd) s ind appEn prev reply).
Proof.
  pose proof ok_commit. unfold success_t, ack_t, set_next_t, set_match_t. ok_go.
Qed.

Lemma ok_failure c s ind appEn t reply : ok c (failure_t (cmd:=cmd) s ind appEn t reply).
Proof.
  pose proof ok_sendSnapShot. pose proof ok_notify.
  unfold failure_t, retreat_t, set_next_t. ok_go.
Qed.

Lemma ok_flight c f answer : ok c (flight_t (cmd:=cmd) f answer).
Proof. pose proof ok_success. pose proof ok_failure. pose proof ok_notify. unfold flight_t. ok_go. Qed.

Lemma ok_elected c : ok c (elected_t (cmd:=cmd)).
Proof.
  unfold elected_t, leader_begin_t. ok_go.
  intros Q c' ? HQ sh Hle. split; [by split_and!|]. intros c'' ?. apply HQ. simpl in *. lia.
Qed.

Lemma ok_candidate_case c args g heard ind ev : ok c (candidate_case_t (cmd:=cmd) args g heard ind ev).
Proof.
  pose proof ok_persist. pose proof ok_elected.
  unfold candidate_case_t, incr_term_t, crit_wr. ok_go.
Qed.

Lemma ok_leader_case c s ev t : leader_case_t (cmd:=cmd) s ev = Some t → ok c t.
Proof.
  pose proof ok_persist. pose proof ok_distribute. unfold leader_case_t, signal_t, drain, crit_wr.
  destruct ev; intros E; try done; apply (inj Some) in E as <-; ok_go.
Qed.

Lemma ok_main c p ev t : main_t (cmd:=cmd) p ev = Some t → ok c t.
Proof.
  pose proof ok_persist. pose proof ok_candidate_case.
  assert (ok c (candidate_t (cmd:=cmd))) by (unfold candidate_t; ok_go).
  unfold main_t; destruct p; [|destruct ev|by apply ok_leader_case|destruct ev|]; intros E; try done;
    apply (inj Some) in E as <-; unfold drain, crit_wr; ok_go.
Qed.

Lemma ok_request rf req :
  0 ≤ commitIndex rf → allowed false rf req = true → ok (commitIndex rf) (request_t req).
Proof.
  assert (Hle : ∀ A c c' (t : thread cmd A), ok c t → c ≤ c' → ok c' t).
  { intros A c c' t' Ht Hc Q c'' ?. apply Ht. lia. }
  intros Hc. destruct req; intros Ha; simpl in Ha; try done; go_bools; unfold request_t; (apply ok_bind; [|intros; apply ok_ret]).
  - apply ok_RequestVote.
  - eapply Hle; [apply ok_AppendEntry|lia].
  - apply ok_Start.
  - eapply Hle; [apply ok_TakeSnapshots|lia].
  - apply ok_Kill.
Qed.

(** ** Runs *)

Record pool_ok (pl : pool) : Prop := {
  po_streams : streams (sh_rf (pl_sh pl)) (pl_hold pl);
  po_main : safe (λ _ _, True) (commitIndex (sh_rf (pl_sh pl))) (pl_main pl);
  po_jobs : Forall (safe (λ _ _, True) (commitIndex (sh_rf (pl_sh pl)))) (pl_jobs pl);
}.

Lemma pool_step_ok pl pl' : pool_step false pl pl' → pool_ok pl → pool_ok pl'.
Proof.
  assert (Hall : ∀ A c c' (ts : list (thread cmd A)), c ≤ c' →
    Forall (safe (λ _ _, True) c) ts → Forall (safe (λ _ _, True) c') ts).
  { intros A c c' ts Hc. intros H. eapply Forall_impl; [done|]. intros. by eapply safe_le. }
  destruct 1; intros [Hs Hm Hj]; simpl in *.
  - split; simpl; [done| |done]. by eapply ok_main.
  - edestruct @safe_step as (? & ? & ?); [done..|]. split; simpl; [done..|]. by eapply Hall.
  - split; simpl; [done..|]. apply Forall_app. split; [done|]. constructor; [|done].
    destruct Hs as [_ [? ?] _]. eapply ok_request; [|done|lia|done]. lia.
  - split; simpl; [done..|]. apply Forall_app. split; [done|]. constructor; [|done]. by apply (ok_flight 0); [destruct Hs as [_ [? ?] _]; lia|].
  - apply Forall_app in Hj as [Hj1 [Ht Hj2]%Forall_cons].
    edestruct @safe_step as (? & ? & ?); [done..|]. split; simpl; [done|by eapply safe_le|].
    apply Forall_app. split; [by eapply Hall|]. constructor; [done|by eapply Hall].
  - split; simpl; [done..|]. apply Forall_app in Hj as [? [? ?]%Forall_cons]. by apply Forall_app.
  - split; simpl; [|done..]. destruct Hs as [H1 H2 H3]. split; simpl; [done..|].
    by rewrite <- app_assoc.
Qed.

End pool.

(** A peer as [Make] leaves it. *)
Lemma streams_Make {cmd} n m ps (rf : Raft cmd) :
  good_disk ps → Make n m ps = Ok rf → streams (applyCh rf) (commitIndex rf) rf [].
Proof.
  assert (Hst : ∃ ms, applyCh rf ++ [] = applyCh rf ++ ms ∧ numbered (commitIndex rf) ms (commitIndex rf))
    by (exists []; split; [done|apply numbered_nil]).
  intros [->|(rf0 & [Hw Hp Hc _ _] & Hd & ->)] E.
  - vm_compute in E. simplify_eq. split; simpl; [|done|done].
    intros i e Hi He. unfold entry_at in He. simpl in *. apply zlookup_Some_lt in He.
    unfold len in He. simpl in He. lia.
  - destruct Hw as [H1 H2 H3].
    destruct (Make_durable rf0 n m Hd H1) as (r & E' & _ & El & Es & Ec & _).
    rewrite E in E'. injection E' as <-. split; [|rewrite Es, Ec; lia|done].
    unfold cmds_ok, entry_at. by rewrite El, Es.
Qed.

(** C2. The goroutines of a peer run against each other in any interleaving: unlocked reads and
    writes, critical sections, sends on the unbuffered [applyCh] and calls of the network come one
    at a time and in any order, with any number of requests, votes, answers, timers, client commands
    and snapshots by the service at once.  As long as no leader installs a snapshot, what the
    service is sent after the start, up to what the holder of the lock is still sending, is one real
    command for each index, in order, from the commit index the peer was started with up to the
    commit index it has. *)
Theorem pool_delivers {cmd} n m ps (rf : Raft cmd) pl :
  good_disk ps → Make n m ps = Ok rf → rtc (pool_step false) (pool_of rf) pl →
  ∃ ms, applyCh (sh_rf (pl_sh pl)) ++ pl_hold pl = applyCh rf ++ ms ∧
    numbered (commitIndex rf) ms (commitIndex (sh_rf (pl_sh pl))).
Proof.
  intros Hd HM Hrtc. assert (pool_ok (applyCh rf) (commitIndex rf) (pool_of rf)) as Hi.
  { split; simpl; [by eapply streams_Make|done|constructor]. }
  assert (pool_ok (applyCh rf) (commitIndex rf) pl) as [[_ _ Hs] _ _]; [|done].
  revert Hi. induction Hrtc; eauto using pool_step_ok.
Qed.

(** ** Runs that are computed *)
Section exec.
Context {cmd : Type}.
Implicit Types pl : pool (cmd:=cmd).

(** Who goes next; [r] is what a call of [InstallSnapShot] gives. *)
Inductive move :=
| MSelect (ev : select_event)
| MMain (r : option InstallSnapShotReply)
| MCall (req : request (cmd:=cmd))
| MAnswer (i : nat) (answer : option AppendEntryReply)
| MJob (i : nat) (r : option InstallSnapShotReply)
| MEnd (i : nat)
| MReceive.

Definition thread_exec {A} (r : option InstallSnapShotReply) (sh : shared cmd) hold (t : thread cmd A) :
    option (shared cmd * list (ApplyMsg cmd) * thread cmd A * list (flight cmd)) :=
  match t with
  | Done _ _ => None
  | Do _ k => match k sh with Ok (sh, t) => Some (sh, hold, t, []) | _ => None end
  | Locked _ k =>
      match hold, k sh with [], Ok (sh, ms, t) => Some (sh, ms, t, []) | _, _ => None end
  | Unlock _ t => match hold with [] => Some (sh, [], t, []) | _ => None end
  | Send _ m t => Some (receive m sh, hold, t, [])
  | CallSnap _ _ k => Some (sh, hold, k r, [])
  | Go _ f t => Some (sh, hold, t, [f])
  end.

Definition exec_move (installs : bool) pl (mv : move) : option pool :=
  let '(MkPool sh hold m fs js) := pl in
  match mv with
  | MSelect ev =>
      match m with
      | Done _ p => t ← main_t p ev; Some (MkPool sh hold t fs js)
      | _ => None
      end
  | MMain r => '(sh, hold, t, fls) ← thread_exec r sh hold m; Some (MkPool sh hold t (fs ++ fls) js)
  | MCall req =>
      if allowed installs (sh_rf sh) req then Some (MkPool sh hold m fs (js ++ [request_t req])) else None
  | MAnswer i answer =>
      f ← fs !! i; Some (MkPool sh hold m (take i fs ++ drop (S i) fs) (js ++ [flight_t f answer]))
  | MJob i r =>
      t ← js !! i;
      '(sh, hold, t, fls) ← thread_exec r sh hold t;
      Some (MkPool sh hold m (fs ++ fls) (take i js ++ t :: drop (S i) js))
  | MEnd i =>
      match js !! i with
      | Some (Done _ f) => Some (MkPool sh hold m (fs ++ option_list f) (take i js ++ drop (S i) js))
      | _ => None
      end
  | MReceive => match hold with x :: hold => Some (MkPool (receive x sh) hold m fs js) | [] => None end
  end.

Fixpoint exec (installs : bool) (mvs : list move) pl : option pool :=
  match mvs with
  | [] => Some pl
  | mv :: mvs => pl ← exec_move installs pl mv; exec installs mvs pl
  end.

Lemma thread_exec_step {A} r sh hold (t : thread cmd A) sh' hold' t' fls :
  thread_exec r sh hold t = Some (sh', hold', t', fls) → thread_step sh hold t sh' hold' t' fls.
Proof.
  intros H. destruct t; simpl in H; repeat case_match; simplify_eq; by constructor.
Qed.

Lemma exec_move_step installs pl mv pl' : exec_move installs pl mv = Some pl' → pool_step installs pl pl'.
Proof.
  destruct pl as [sh hold m fs js], mv; simpl; intros H.
  - destruct m; try done. simplify_option_eq. by eapply ps_select.
  - destruct (thread_exec _ _ _ _) as [[[[? ?] ?] ?]|] eqn:E; [|done]. simplify_eq/=.
    apply thread_exec_step in E. by apply ps_main.
  - case_match; [|done]. simplify_eq. by apply ps_call.
  - destruct (fs !! i) as [f|] eqn:Ef; [|done]. simplify_eq/=.
    rewrite <- (take_drop_middle fs i f) at 1 by done. apply ps_answer.
  - destruct (js !! i) as [t|] eqn:Et; [|done]. simpl in H.
    destruct (thread_exec _ _ _ _) as [[[[? ?] ?] ?]|] eqn:E; [|done]. simplify_eq/=.
    rewrite <- (take_drop_middle js i t) at 1 by done. apply thread_exec_step in E. by apply ps_job.
  - destruct (js !! i) as [t|] eqn:Et; [|done]. destruct t; try done. simplify_eq/=.
    rewrite <- (take_drop_middle js i (mret a)) at 1 by done. apply ps_end.
  - case_match; [done|]. simplify_eq. apply ps_receive.
Qed.

Lemma exec_run installs mvs pl pl' : exec installs mvs pl = Some pl' → rtc (pool_step installs) pl pl'.
Proof.
  revert pl. induction mvs as [|mv mvs IH]; intros pl H; simpl in H; [by simplify_eq|].
  destruct (exec_move installs pl mv) as [pl1|] eqn:E; [|done].
  eapply rtc_l; [by eapply exec_move_step|by apply IH].
Qed.
End exec.

(** A new peer, one of three, and requests of a leader of term 1. *)
Section demo.
Context {cmd : Type}.

Definition demo_run (installs : bool) (mvs : list move) : option (pool (cmd:=cmd)) :=
  match Make 3 1 MakePersister with Ok rf => exec installs mvs (pool_of rf) | _ => None end.
Definition append_req (prev term : Z) (es : list (CommandTerm cmd)) (commit : Z) : request :=
  ReqAppend (MkAEArgs 1 0 prev term es commit).
Definition job (i n : nat) : list (move (cmd:=cmd)) := replicate n (MJob i None).

Lemma demo_run_rtc installs mvs {A} (f : pool → A) x :
  f <$> demo_run installs mvs = Some x →
  ∃ rf pl, Make 3 1 MakePersister = Ok rf ∧ rtc (pool_step installs) (pool_of rf) pl ∧ f pl = x.
Proof.
  unfold demo_run. destruct (Make 3 1 MakePersister) as [rf| |] eqn:EM; [|done..].
  intros H. apply fmap_Some_1 in H as (pl & E & ->). exists rf, pl. split_and!; [done|by eapply exec_run|done].
Qed.
End demo.

(** ** Witness: a heartbeat that commits runs while the entry is written, and both deliver. *)
Lemma pool_delivers_witness : ∃ (rf : Raft Z) pl ms,
  Make 3 1 MakePersister = Ok rf ∧ rtc (pool_step false) (pool_of rf) pl ∧
  applyCh (sh_rf (pl_sh pl)) ++ pl_hold pl = applyCh rf ++ ms ∧
  numbered (commitIndex rf) ms (commitIndex (sh_rf (pl_sh pl))) ∧
  (applyCh (sh_rf (pl_sh pl)), pl_hold pl) =
    ([MkApplyMsg true (Some 7) 1 ∅ ∅], [MkApplyMsg true (Some 8) 2 ∅ ∅]).
Proof.
  destruct (demo_run_rtc (cmd:=Z) false
    ([MCall (append_req 0 0 [MkCT (Some 7) 1; MkCT (Some 8) 1] 0)] ++ job 0 22 ++
     [MCall (append_req 2 1 [] 1); MCall (append_req 2 1 [] 2)] ++ job 1 9 ++ job 2 9 ++
     job 1 1 ++ [MReceive] ++ job 2 1)
    (λ pl, (applyCh (sh_rf (pl_sh pl)), pl_hold pl))
    ([MkApplyMsg true (Some 7) 1 ∅ ∅], [MkApplyMsg true (Some 8) 2 ∅ ∅])) as (rf & pl & HM & Hr & Hf).
  { vm_compute. reflexivity. }
  destruct (pool_delivers 3 1 MakePersister rf pl) as (ms & Hms & Hrun); [by left|done|done|].
  by exists rf, pl, ms.
Defined.

(** A handler can wait on [AENotifyChan], although it looked whether there is room: the test and the
    send are two operations, and another handler came in between. *)
Theorem notify_blocks : ∃ (rf : Raft Z) pl,
  Make 3 1 MakePersister = Ok rf ∧ rtc (pool_step false) (pool_of rf) pl ∧
  ∃ k, pl_jobs pl !! 3%nat = Some (Do _ k) ∧ k (pl_sh pl) = Block.
Proof.
  destruct (demo_run_rtc (cmd:=Z) false
    ([MCall (append_req 0 0 [] 0)] ++ job 0 9 ++
     [MCall (append_req 0 0 [] 0)] ++ job 1 4 ++
     [MCall (append_req 0 0 [] 0); MCall (append_req 0 0 [] 0)] ++ job 2 3 ++ job 3 3 ++ job 2 1)
    (λ pl, match pl_jobs pl !! 3%nat with
           | Some (Do _ k) => match k (pl_sh pl) with Block => true | _ => false end
           | _ => false end) true) as (rf & pl & HM & Hr & Hf).
  { vm_compute. reflexivity. }
  exists rf, pl. split_and!; [done..|].
  destruct (pl_jobs pl !! 3%nat) as [[]|]; try done. eexists; split; [done|]. by case_match.
Qed.
