(* ===== verification/RaftAlone.v ===== *)
(** * The threads of file RaftThreads against the handlers.

    A thread that nobody interrupts does what the definition of the handler says ([RequestVote],
    [AppendEntry], [InstallSnapShot], [Start], [TakeSnapshots], [sendSnapShot], [ae_build],
    [ae_goroutine]): the two are the same code, cut more or less finely. *)

From S2P Require Import Prelude RaftState RaftVote RaftAppend RaftLeader RaftRole RaftThreads.

Section run.
Context {cmd : Type}.
Implicit Types rf : Raft cmd.

(** ** A thread that nobody interrupts *)

(** [net] is what its calls give; the rest of it is returned. *)
Abbreviation answers_left := (list (option InstallSnapShotReply)).
Fixpoint alone {A} (t : thread cmd A) (net : answers_left)
    (sh : shared cmd) : outcome (shared cmd * A * answers_left) :=
  match t with
  | Done _ a => Ok (sh, a, net)
  | Do _ k => match k sh with Ok (sh, t) => alone t net sh | Panic => Panic | Block => Block end
  | Locked _ k =>
      match k sh with
      | Ok (sh, ms, t) => alone t net (on_rf (λ rf, set_applyCh (applyCh rf ++ ms) rf) sh)
      | Panic => Panic | Block => Block
      end
  | Unlock _ t => alone t net sh
  | Send _ m t => alone t net (on_rf (λ rf, set_applyCh (applyCh rf ++ [m]) rf) sh)
  | CallSnap _ _ k => match net with r :: net => alone (k r) net sh | [] => alone (k None) [] sh end
  | Go _ _ t => alone t net sh
  end.

Lemma alone_bind {A B} (t : thread cmd A) (f : A → thread cmd B) net sh :
  alone (t ≫= f) net sh = '(sh, a, net) ← alone t net sh; alone (f a) net sh.
Proof.
  revert t net sh. fix IH 1. intros [a|k|k|t|m t|args k|fl t] net sh; cbn [alone mbind thread_bind].
  - done.
  - destruct (k sh) as [[sh' t]| |]; [apply IH|done..].
  - destruct (k sh) as [[[sh' ms] t]| |]; [apply IH|done..].
  - apply IH.
  - apply IH.
  - destruct net; apply IH.
  - apply IH.
Qed.

Lemma alone_ret {A} (a : A) net sh : alone (mret a) net sh = Ok (sh, a, net).
Proof. done. Qed.
Lemma alone_rd {A} (f : Raft cmd → A) net rf ss :
  alone (rd f) net (MkSh rf ss) = Ok (MkSh rf ss, f rf, net).
Proof. done. Qed.
Lemma alone_rdm {A} (f : Raft cmd → outcome A) net rf ss :
  alone (rdm f) net (MkSh rf ss) = a ← f rf; Ok (MkSh rf ss, a, net).
Proof. simpl. by destruct (f rf). Qed.
Lemma alone_wrm (f : Raft cmd → outcome (Raft cmd)) net rf ss :
  alone (wrm f) net (MkSh rf ss) = rf ← f rf; Ok (MkSh rf ss, tt, net).
Proof. simpl. by destruct (f rf). Qed.
Lemma alone_wr (f : Raft cmd → Raft cmd) net rf ss :
  alone (wr f) net (MkSh rf ss) = Ok (MkSh (f rf) ss, tt, net).
Proof. done. Qed.

Lemma set_applyCh_same rf : set_applyCh (applyCh rf ++ []) rf = rf.
Proof. rewrite app_nil_r. by destruct rf. Qed.

Lemma alone_crit {A} (f : Raft cmd → outcome (Raft cmd * A)) net rf ss :
  alone (crit f) net (MkSh rf ss) = '(rf, a) ← f rf; Ok (MkSh rf ss, a, net).
Proof.
  simpl. destruct (f rf) as [[rf' a]| |]; [|done..]. simpl. unfold on_rf. simpl. by rewrite set_applyCh_same.
Qed.
Lemma alone_crit_wr (f : Raft cmd → Raft cmd) net rf ss :
  alone (crit_wr f) net (MkSh rf ss) = Ok (MkSh (f rf) ss, tt, net).
Proof. unfold crit_wr. by rewrite alone_crit. Qed.

Lemma alone_persist net rf ss : alone persist_t net (MkSh rf ss) = Ok (MkSh (persist rf) ss, tt, net).
Proof. done. Qed.
Lemma alone_deliver pre aft net rf ss :
  alone (deliver_t pre aft) net (MkSh rf ss) =
    '(rf, msgs) ← ae_deliver rf pre aft; Ok (MkSh (set_applyCh (applyCh rf ++ msgs) rf) ss, tt, net).
Proof. simpl. by destruct (ae_deliver rf pre aft) as [[rf' ms]| |]. Qed.
Lemma alone_notify n net rf ss :
  alone (notify_t n) net (MkSh rf ss) = rf ← notifyAE rf n; Ok (MkSh rf ss, tt, net).
Proof.
  unfold notify_t, notifyAE. rewrite alone_bind, alone_rd. cbn [mbind outcome_bind].
  destruct (AENotifyChan rf <? n); [|done]. rewrite alone_wrm. by case_match.
Qed.
End run.

Create Rewrite HintDb alone.
#[export] Hint Rewrite @alone_ret @alone_rd @alone_rdm @alone_wrm @alone_wr @alone_crit @alone_crit_wr
  @alone_persist @alone_notify @alone_deliver : alone.

(** Runs a thread to its next test. *)
Ltac run_alone :=
  repeat (rewrite ?alone_bind; autorewrite with alone;
          cbn [mbind outcome_bind negb andb orb sh_rf sh_ss on_rf alone mret thread_ret]).
(** Both sides test the same. *)
Ltac same_test :=
  match goal with
  | |- context [if ?b then _ else _] =>
      lazymatch b with context [match _ with _ => _ end] => fail | _ => idtac end;
      destruct b eqn:?
  end; run_alone; try done.
(** Both sides do the same, which may fail. *)
Ltac same_op :=
  match goal with
  | |- context [mbind _ ?m] =>
      lazymatch type of m with outcome _ => idtac end;
      lazymatch m with
      | context [match _ with _ => _ end] => fail | context [mbind] => fail | context [@alone] => fail | _ => idtac
      end; destruct m eqn:?
  end; repeat match goal with p : _ * _ |- _ => destruct p end; run_alone; simplify_eq; try done.

Section alone.
Context {cmd : Type}.
Implicit Types rf : Raft cmd.

Theorem RequestVote_alone args rf ss :
  alone (RequestVote_t args) [] (MkSh rf ss) = '(rf, reply) ← RequestVote rf args; Ok (MkSh rf ss, reply, []).
Proof.
  unfold RequestVote_t, RequestVote, rv_check, rv_locked, rv_finish. run_alone.
  repeat first [same_test|same_op].
Qed.

Theorem AppendEntry_alone args rf ss :
  alone (AppendEntry_t args) [] (MkSh rf ss) = '(rf, reply) ← AppendEntry rf args; Ok (MkSh rf ss, reply, []).
Proof.
  unfold AppendEntry_t, commit_entries_t, AppendEntry, ae_term, ae_consistent, term_at, ae_commit, ae_append, ae_range. run_alone.
  repeat first [same_test|same_op].
Qed.

Lemma alone_readSnapshotPersist data net rf ss :
  alone (readSnapshotPersist_t data) net (MkSh rf ss) =
    rf ← readSnapshotPersist rf data; Ok (MkSh rf ss, tt, net).
Proof.
  unfold readSnapshotPersist_t, readSnapshotPersist. case_bool_decide; [done|].
  run_alone. destruct (decodeSnapshot data) as [[[[seqs rsm] i] t]| |]; [|done..].
  simpl. destruct (i <=? lastIndexInSnapshot rf); simpl;
    unfold on_rf; cbn [sh_rf sh_ss]; rewrite ?app_nil_r; by destruct rf.
Qed.

Theorem InstallSnapShot_alone args rf ss :
  alone (InstallSnapShot_t args) [] (MkSh rf ss) =
    '(rf, reply) ← InstallSnapShot rf args; Ok (MkSh rf ss, reply, []).
Proof.
  unfold InstallSnapShot_t, InstallSnapShot, term_at. run_alone.
  repeat first [rewrite alone_readSnapshotPersist|same_test|same_op].
Qed.

Theorem Start_alone c rf ss :
  alone (Start_t c) [] (MkSh rf ss) = '(rf, r) ← Start rf c; Ok (MkSh rf ss, r, []).
Proof.
  unfold Start_t, Start. run_alone.
  repeat first [same_test|same_op].
Qed.

Theorem TakeSnapshots_alone seqs rsm i rf ss :
  alone (TakeSnapshots_t seqs rsm i) [] (MkSh rf ss) = rf ← TakeSnapshots rf seqs rsm i; Ok (MkSh rf ss, tt, []).
Proof.
  unfold TakeSnapshots_t. run_alone. unfold TakeSnapshots.
  repeat first [same_test|same_op].
Qed.


(** ** The leader *)

(** What a run of [calls_t] leaves of the answers. *)
Fixpoint calls_left (count : nat) (net : list (option InstallSnapShotReply)) :=
  match count, net with
  | S count, None :: net => calls_left count net
  | S _, Some _ :: net => net
  | _, _ => net
  end.

Lemma alone_calls n args net (sh : shared cmd) :
  alone (calls_t n args) net sh = Ok (sh, first_answer n net, calls_left n net).
Proof.
  revert net. induction n as [|n IH]; intros [|[r|] net]; simpl; try done. rewrite IH.
  clear. by destruct n.
Qed.

Lemma alone_sendSnapShot ind net rf ss :
  alone (sendSnapShot_t ind) net (MkSh rf ss) =
    rf' ← sendSnapShot rf ind net; Ok (MkSh rf' ss, tt, calls_left 5 net).
Proof.
  unfold sendSnapShot_t, sendSnapShot, set_progress, set_next_t, set_match_t. run_alone.
  rewrite alone_calls. run_alone. repeat first [same_test|same_op].
Qed.

Lemma alone_build logLen ind net rf ss :
  ∃ net', alone (build_t logLen ind) net (MkSh rf ss) =
    '(rf', req) ← ae_build rf logLen ind net; Ok (MkSh rf' ss, req, net').
Proof.
  unfold build_t, ae_build, next_of, term_at.
  exists (if match zlookup (nextIndex rf) ind with Some next => next <=? lastIndexInSnapshot rf | None => false end
     then calls_left 5 net else net). run_alone.
  destruct (zlookup (nextIndex rf) ind) as [next|] eqn:Hn; [|done]. cbn [must]. run_alone.
  rewrite Hn. cbn [must]. run_alone.
  destruct (next <=? lastIndexInSnapshot rf); run_alone; rewrite ?alone_sendSnapShot.
  all: repeat first [same_op|same_test].
  all: match goal with H : sendSnapShot _ _ _ = Ok _ |- _ => apply sendSnapShot_core in H end.
  all: unfold same_core in *; destruct_and!; congruence.
Qed.

(** The messages are put behind those that are there. *)
Lemma leader_commit_loop_app n i rf ll ms :
  leader_commit_loop n i (set_applyCh (ms ++ applyCh rf) rf) ll =
    '(rf', ll') ← leader_commit_loop n i rf ll; Ok (set_applyCh (ms ++ applyCh rf') rf', ll').
Proof.
  revert i rf ll. induction n as [|n IH]; intros i rf ll; [done|]. cbn [leader_commit_loop].
  change (getTrueIndex (set_applyCh _ rf)) with (getTrueIndex rf).
  change (log (set_applyCh _ rf)) with (log rf).
  change (commitIndex (set_applyCh _ rf)) with (commitIndex rf).
  destruct (_ || _); [done|]. destruct (must _) as [e| |]; [|done..]. cbn [mbind outcome_bind].
  destruct (commitIndex rf <? i); [|apply IH].
  rewrite <- IH. cbn [applyCh set_applyCh set_commitIndex]. by rewrite app_assoc.
Qed.

Lemma alone_leader_deliver s toBe net rf ss ll :
  ss !! s = Some ll →
  alone (leader_deliver_t s toBe) net (MkSh rf ss) =
    '(rf', ll') ← leader_commit_loop (Z.to_nat (toBe - commitIndex rf)) (commitIndex rf + 1) rf ll;
    Ok (MkSh rf' (<[s := ll']> ss), tt, net).
Proof.
  intros Hs. pose proof (leader_commit_loop_app (Z.to_nat (toBe - commitIndex rf)) (commitIndex rf + 1)
    (set_applyCh [] rf) ll (applyCh rf)) as H.
  cbn [applyCh set_applyCh] in H. rewrite app_nil_r in H.
  replace (set_applyCh (applyCh rf) (set_applyCh [] rf)) with rf in H by by destruct rf.
  rewrite H. simpl. rewrite Hs. cbn [must mbind outcome_bind].
  by destruct (leader_commit_loop _ _ (set_applyCh [] rf) ll) as [[r l]| |].
Qed.

Lemma alone_local {A} s (f : LeaderLocal → outcome (LeaderLocal * A)) net rf ss ll :
  ss !! s = Some ll →
  alone (local_t s f) net (MkSh rf ss) = '(ll, a) ← f ll; Ok (MkSh rf (<[s := ll]> ss), a, net).
Proof. intros Hs. simpl. rewrite Hs. simpl. by destruct (f ll) as [[l a]| |]. Qed.

Lemma alone_commit s c net rf ss ll :
  ss !! s = Some ll →
  alone (commit_t s c) net (MkSh rf ss) =
    '(rf', ll') ← leader_commit rf ll c; Ok (MkSh rf' (<[s := ll']> ss), tt, net).
Proof.
  intros Hs. unfold commit_t, leader_commit, next_of, set_next_t. run_alone.
  repeat first [rewrite (alone_leader_deliver _ _ _ _ _ ll) by done|same_test|same_op].
  all: by rewrite list_insert_id.
Qed.

Lemma zinsert_in_range {A} (l : list A) i x y : zlookup l i = Some y → zinsert l i x = Some (<[Z.to_nat i := x]> l).
Proof. intros Hi%zlookup_Some_lt. by apply zinsert_Some. Qed.

Lemma zinsert_out_of_range {A} (l : list A) i x : zlookup l i = None → zinsert l i x = None.
Proof.
  intros Hi. destruct (zinsert l i x) as [l'|] eqn:E; [|done].
  apply zinsert_Some in E as [Hb _]. apply zlookup_lt_Some in Hb as [y Hy]. congruence.
Qed.

Lemma zlookup_insert {A} (l : list A) i x y :
  zlookup l i = Some y → zlookup (<[Z.to_nat i := x]> l) i = Some x.
Proof. intros Hi. rewrite (zlookup_zinsert l _ i x); [by rewrite decide_True|by eapply zinsert_in_range]. Qed.

(** What [ae_success] does with the bookkeeping. *)
Definition ae_ack rf (ind : Z) (appEn : AppendEntryArgs cmd) (reply : AppendEntryReply) :
    outcome (Raft cmd * bool) :=
  next ← must (zlookup (nextIndex rf) ind);
  m ← must (zlookup (matchIndex rf) ind);
  let sent := PrevLogIndex appEn + len (Entries appEn) + 1 in
  if AECommitIndex reply =? 0 then
    let next := if next <? sent then sent else next in
    n ← must (zinsert (nextIndex rf) ind next);
    let rf := set_nextIndex n rf in
    if negb (m =? next - 1) then
      m' ← must (zinsert (matchIndex rf) ind (next - 1)); Ok (set_matchIndex m' rf, true)
    else Ok (rf, false)
  else rf ← set_progress rf ind (AECommitIndex reply); Ok (rf, true).

Lemma alone_ack ind appEn reply net rf ss :
  alone (ack_t ind appEn reply) net (MkSh rf ss) =
    '(rf, b) ← ae_ack rf ind appEn reply; Ok (MkSh rf ss, b, net).
Proof.
  unfold ack_t, ae_ack, set_next_t, set_match_t, set_progress.
  destruct (zlookup (nextIndex rf) ind) as [next|] eqn:Hn;
    [|destruct (zlookup (matchIndex rf) ind) as [m|] eqn:Hm];
    [destruct (zlookup (matchIndex rf) ind) as [m|] eqn:Hm| |].
  all: cbn [must mbind outcome_bind]; destruct (AECommitIndex reply =? 0).
  all: repeat (run_alone; unfold next_of, match_of; cbn [nextIndex matchIndex set_nextIndex set_matchIndex];
    erewrite ?Hn, ?Hm, ?zinsert_out_of_range by done; 
    erewrite ?zinsert_in_range by done;
    erewrite ?zlookup_insert by done;
    cbn [must mbind outcome_bind nextIndex matchIndex set_nextIndex set_matchIndex]; run_alone; try done; repeat same_test).
  all: rewrite (list_insert_id (nextIndex rf)) by (unfold zlookup in Hn; by case_decide); by destruct rf.
Qed.

(** [ae_success] after the bookkeeping. *)
Definition ae_more rf (ll : LeaderLocal) (ind : Z) (appEn : AppendEntryArgs cmd) (prevLogIndex : Z)
    (reply : AppendEntryReply) : outcome (Raft cmd * LeaderLocal * ae_next) :=
  currComInd ← must (zlookup (matchIndex rf) ind);
  if currComInd <? prevLogIndex then
    let retry prev t es :=
      Ok (rf, ll, AERetry (MkAEArgs (currentTerm rf) (LeaderID appEn) prev t es (commitIndex rf))
                    (currentTerm rf)) in
    if negb (AECommitIndex reply =? 0) then
      let prev := AECommitIndex reply in
      if getLastLogIndex rf <=? prev then Ok (rf, ll, AEDone) else
      let one := getTrueIndex rf prev in
      e ← must (zlookup (log rf) one);
      es ← (if 0 <? one then must (slice (log rf) (one + 1) (one + 2)) else Ok []);
      retry prev (Term e) es
    else
      let one := getTrueIndex rf currComInd in
      e ← must (zlookup (log rf) one);
      es ← must (slice_from (log rf) (one + 1));
      retry currComInd (Term e) es
  else
    '(rf, ll) ← leader_commit rf ll currComInd; Ok (rf, ll, AEDone).

Lemma ae_success_eq rf ll ind appEn prev reply :
  ae_success rf ll ind appEn prev reply =
    if len (Entries appEn) =? 0 then Ok (rf, ll, AEDone) else
    '(rf, go_on) ← ae_ack rf ind appEn reply;
    if negb go_on then Ok (rf, ll, AEDone) else ae_more rf ll ind appEn prev reply.
Proof.
  unfold ae_success, ae_ack. destruct (len (Entries appEn) =? 0); [done|].
  destruct (must (zlookup (nextIndex rf) ind)); [|done..].
  by destruct (must (zlookup (matchIndex rf) ind)).
Qed.

Lemma alone_success s ind appEn prev reply net rf ss ll :
  ss !! s = Some ll →
  alone (success_t s ind appEn prev reply) net (MkSh rf ss) =
    '(rf', ll', next) ← ae_success rf ll ind appEn prev reply; Ok (MkSh rf' (<[s := ll']> ss), next, net).
Proof.
  intros Hs. rewrite ae_success_eq. unfold success_t, ae_more, match_of, term_at. run_alone.
  rewrite <- (list_insert_id ss s ll) at 1 by done.
  same_test. rewrite alone_ack. destruct (ae_ack rf ind appEn reply) as [[rf1 b]| |]; [|done..]. run_alone.
  repeat first [rewrite (alone_commit _ _ _ _ _ ll) by (by rewrite ?list_insert_id)|same_test|same_op].
  all: by rewrite list_insert_insert_eq.
Qed.

(** [ae_failure] from the back-off on. *)
Definition ae_retreat rf (ll : LeaderLocal) (ind : Z) (appEn : AppendEntryArgs cmd) (appEnTerm : Z)
    (reply : AppendEntryReply) (net : list (option InstallSnapShotReply)) :
    outcome (Raft cmd * LeaderLocal * ae_next) :=
  prevlog ← backoff (termList ll) (PrevLogIndex appEn) reply;
  n ← must (zinsert (nextIndex rf) ind (prevlog + 1));
  let rf := set_nextIndex n rf in
  if prevlog <? 0 then Panic else
  '(rf, prevlog) ← (if prevlog <? lastIndexInSnapshot rf then
                      rf ← sendSnapShot rf ind net;
                      m ← must (zlookup (matchIndex rf) ind); Ok (rf, m)
                    else Ok (rf, prevlog));
  if len (log rf) <=? prevlog then Ok (rf, ll, AEDone) else
  e1 ← must (zlookup (log rf) (getTrueIndex rf (prevlog + 1)));
  e0 ← must (zlookup (log rf) (getTrueIndex rf prevlog));
  Ok (rf, ll, AERetry (MkAEArgs (currentTerm rf) (LeaderID appEn) prevlog (Term e0) [e1] 0) appEnTerm).

Lemma alone_retreat s ind appEn t reply net rf ss ll :
  ss !! s = Some ll →
  ∃ net', alone (retreat_t s ind appEn t reply) net (MkSh rf ss) =
    '(rf', ll', next) ← ae_retreat rf ll ind appEn t reply net;
    Ok (MkSh rf' (<[s := ll']> ss), next, net').
Proof.
  intros Hs. unfold retreat_t, ae_retreat, match_of, set_next_t, term_at. run_alone.
  rewrite (alone_local _ _ _ _ _ ll) by done. run_alone.
  same_op; try by eexists. rewrite list_insert_id by done.
  same_op; try by eexists. same_test; try by eexists.
  same_test; try rewrite alone_sendSnapShot.
  all: repeat first [same_test|same_op].
  all: eexists; try done; by rewrite list_insert_id.
Qed.

Lemma alone_failure s ind appEn t reply net rf ss ll :
  ss !! s = Some ll →
  ∃ net', alone (failure_t s ind appEn t reply) net (MkSh rf ss) =
    '(rf', ll', next) ← ae_failure rf ll ind appEn t reply net;
    Ok (MkSh rf' (<[s := ll']> ss), next, net').
Proof.
  intros Hs. unfold failure_t, ae_failure, match_of. run_alone.
  same_test; [same_op; eexists; by rewrite ?list_insert_id|].
  same_op; try by eexists.
  same_test; [eexists; by rewrite ?list_insert_id|].
  rewrite (alone_local _ _ _ _ _ ll) by done. run_alone.
  rewrite list_insert_id by done. same_test.
  - same_op; try by eexists. rewrite (alone_local _ _ _ _ _ ll) by done. run_alone.
    edestruct alone_retreat as [net' ->]; [by rewrite list_lookup_insert_eq by by eapply lookup_lt_Some|].
    exists net'. trans ('(rf', ll', next) ← ae_retreat rf (MkLL a0 (curLastSnapshotIndex ll)
      (AEDistributedChan ll)) ind appEn t reply net; Ok (MkSh rf' (<[s := ll']> ss), next, net')); [|done].
    destruct (ae_retreat _ _ _ _ _ _ _) as [[[r l] n]| |]; [|done..]. simpl.
    by rewrite list_insert_insert_eq.
  - edestruct alone_retreat as [net' ->]; [done|].
    exists net'. by destruct ll.
Qed.

(** A turn of a goroutine's loop is [ae_goroutine] with one answer. *)
Theorem flight_alone (f : flight cmd) reply net rf ss ll :
  ss !! fl_session f = Some ll →
  ∃ net', alone (flight_t f (Some reply)) net (MkSh rf ss) =
    '(rf', ll', next) ← ae_goroutine [Some (reply, net)] (fl_count f) rf ll (fl_ind f) (fl_args f)
                          (fl_term f) (fl_prev f);
    Ok (MkSh rf' (<[fl_session f := ll']> ss),
        match next with
        | AEDone => None
        | AERetry args t => Some (MkFlight (fl_session f) (fl_ind f) args t (fl_prev f) (fl_count f))
        end, net').
Proof.
  intros Hs. unfold flight_t, ae_goroutine, ae_reply. run_alone.
  same_test; [same_op; eexists; by rewrite ?list_insert_id|].
  destruct (AESuccess reply).
  - rewrite (alone_success _ _ _ _ _ _ _ _ ll) by done. exists net.
    destruct (ae_success _ _ _ _ _ _) as [[[r l] [|args t]]| |]; done.
  - destruct (alone_failure (fl_session f) (fl_ind f) (fl_args f) (fl_term f) reply net rf ss ll Hs)
      as [net' ->].
    exists net'. destruct (ae_failure _ _ _ _ _ _ _) as [[[r l] [|args t]]| |]; done.
Qed.

(** ** [mainProcess] *)

Theorem candidate_alone rf ss :
  alone candidate_t [] (MkSh rf ss) =
    if exitFlag rf then Ok (MkSh (set_leaderNum (-1) rf) ss, AtExit, [])
    else args ← candidate_args rf; Ok (MkSh (candidate_begin rf) ss, AtCandidate args 1 [], []).
Proof. unfold candidate_t, candidate_args, candidate_begin. run_alone. repeat first [same_test|same_op]. Qed.

Lemma alone_elected rf0 rf ss fs args g heard :
  alone elected_t [] (MkSh rf ss) =
    nd ← after_candidate (MkNode rf0 (AtCandidate args g heard) ss fs) rf false;
    Ok (MkSh (nd_rf nd) (nd_sessions nd), nd_place nd, []).
Proof.
  unfold elected_t, leader_begin_t, after_candidate, leader_begin. run_alone.
  repeat first [same_test|same_op].
Qed.

(** A [select] case of [CandidateProcess], to where [mainProcess] is then. *)
Theorem candidate_case_alone args g heard ind ev rf ss fs :
  alone (candidate_case_t args g heard ind ev) [] (MkSh rf ss) =
    '(rf', st) ← candidate_step (majority (peers rf)) rf g ev;
    match st with
    | CWait g' => Ok (MkSh rf' ss, AtCandidate args g' (ind :: heard), [])
    | CReturn b =>
        nd ← after_candidate (MkNode rf (AtCandidate args g heard) ss fs) rf' b;
        Ok (MkSh (nd_rf nd) (nd_sessions nd), nd_place nd, [])
    end.
Proof.
  pose proof alone_elected as He. unfold candidate_case_t, candidate_step, incr_term_t.
  destruct ev as [r| |]; run_alone.
  - destruct (VoteGranted r && _); run_alone; [|destruct (currentTerm rf <? RVReplyTerm r); run_alone; [|done]].
    all: by rewrite (He rf _ _ fs args g heard).
  - done.
  - case_match; run_alone; [done|]. by rewrite (He rf _ _ fs args g heard).
Qed.

Theorem follower_alone rf ss :
  (t ← main_t AtFollower EvTimer; Some (alone t [] (MkSh rf ss))) =
    Some (Ok (MkSh (follower_timeout rf) ss, AtTop, [])) ∧
  (t ← main_t AtFollower EvNotify; Some (alone t [] (MkSh rf ss))) =
    Some (rf ← follower_notify rf; Ok (MkSh rf ss, AtFollower, [])).
Proof.
  unfold main_t, drain. cbn [mbind option_bind]. run_alone. split; [done|]. unfold follower_notify.
  repeat first [same_test|same_op].
Qed.

(** The cases of [LeaderProcess] but for the distribution, which is [ae_build] for each peer. *)
Theorem leader_alone s ll rf ss :
  ss !! s = Some ll →
  (t ← leader_case_t s EvTimer; Some (alone t [] (MkSh rf ss))) =
    Some (Ok (MkSh (leader_timeout rf) ss, AtTop, [])) ∧
  (t ← leader_case_t s EvNotify; Some (alone t [] (MkSh rf ss))) =
    Some ('(rf, b) ← leader_notify rf; Ok (MkSh rf ss, if b : bool then AtFollower else AtLeader s, [])) ∧
  (t ← leader_case_t s EvHeartbeat; Some (alone t [] (MkSh rf ss))) =
    Some (ll ← leader_heartbeat rf ll; Ok (MkSh rf (<[s := ll]> ss), AtLeader s, [])) ∧
  (t ← leader_case_t s EvCommand; Some (alone t [] (MkSh rf ss))) =
    Some ('(rf, ll) ← leader_command rf ll; Ok (MkSh rf (<[s := ll]> ss), AtLeader s, [])).
Proof.
  intros Hs. unfold leader_case_t, drain, signal_t, leader_notify, leader_heartbeat, leader_command.
  cbn [mbind option_bind]. run_alone. split_and!; [done| | |]; f_equal.
  - repeat first [same_test|same_op].
  - rewrite (alone_local _ _ _ _ _ ll) by done. repeat first [same_test|same_op].
  - case_match; run_alone; [done|]. rewrite (alone_local _ _ _ _ _ ll) by done. run_alone.
    erewrite alone_local by (apply list_lookup_insert_eq; by eapply lookup_lt_Some). simpl.
    case_match; run_alone; [|done]. by rewrite list_insert_insert_eq.
Qed.
End alone.
