(* ===== verification/RaftProgress.v ===== *)
(** * What a leader knows of its followers: the requests of [LeaderProcess] against its log, and
    [matchIndex] against what the followers hold. *)

From S2P Require Import Prelude RaftState RaftVote RaftAppend RaftLeader RaftRole.

Section progress.
Context {cmd : Type}.
Implicit Types rf : Raft cmd.

(** ** Requests say what the leader's log says *)

(** [PrevLogTerm] is the term of the leader's entry at [PrevLogIndex], and the entries are those
    that follow it. *)
Definition truthful rf (args : AppendEntryArgs cmd) : Prop :=
  (∃ e, entry_at rf (PrevLogIndex args) = Some e ∧ Term e = PrevLogTerm args) ∧
  ∀ j, 0 ≤ j < len (Entries args) →
    entry_at rf (PrevLogIndex args + 1 + j) = zlookup (Entries args) j.

Lemma truthful_core rf rf' args : same_core rf rf' → truthful rf' args → truthful rf args.
Proof. intros (El & Es & _). unfold truthful, entry_at. by rewrite El, Es. Qed.

Lemma zlookup_slice_from {A} (l l' : list A) i j :
  slice_from l i = Some l' → 0 ≤ j → zlookup l (i + j) = zlookup l' j.
Proof.
  unfold slice_from. intros H Hj. case_decide; simplify_eq. rewrite zlookup_drop by done. f_equal. lia.
Qed.

Lemma zlookup_slice {A} (l l' : list A) i k j :
  slice l i k = Some l' → 0 ≤ j < len l' → zlookup l (i + j) = zlookup l' j.
Proof.
  intros (Hi & Hk & ->)%slice_Some Hj. rewrite len_take in Hj.
  rewrite zlookup_take by lia. rewrite zlookup_drop by lia. f_equal. lia.
Qed.

(** Entries from position [getTrueIndex prev + 1] on. *)
Lemma truthful_from rf t l prev e es c :
  lastIndexInSnapshot rf ≤ prev → zlookup (log rf) (getTrueIndex rf prev) = Some e →
  (∀ j, 0 ≤ j < len es → zlookup (log rf) (getTrueIndex rf prev + 1 + j) = zlookup es j) →
  truthful rf (MkAEArgs t l prev (Term e) es c).
Proof.
  intros Hp He Hes. rewrite entry_at_true in He by done. split; simpl; [by exists e|].
  intros j Hj. rewrite <- Hes by done. rewrite getTrueIndex_ge by done. unfold entry_at. f_equal. lia.
Qed.

Lemma ae_build_truthful rf logLen ind net rf' args :
  ae_build rf logLen ind net = Ok (rf', Some args) →
  lastIndexInSnapshot rf ≤ PrevLogIndex args → truthful rf args.
Proof.
  unfold ae_build. intros H Hp. apply bind_Ok in H as (next & _ & H).
  apply bind_Ok in H as (r & Hr & H).
  assert (same_core rf r) as Hc
    by (clear H; case_match; [by eapply sendSnapShot_core|by go_inv]).
  clear Hr. apply bind_Ok in H as (nx & _ & H). apply bind_Ok in H as (es & Hes & H).
  case_match; [by simplify_eq|]. apply bind_Ok in H as (e & He & H). apply must_Ok in He. simplify_eq/=.
  destruct Hc as (El & Es & Hc). eapply truthful_core; [split; [exact El|split; [exact Es|exact Hc]]|].
  rewrite <- Es in Hp. apply truthful_from; [done..|]. intros j Hj.
  repeat case_match; go_inv; try (unfold len in Hj; simpl in Hj; lia).
  rewrite <- (zlookup_slice_from _ _ _ j Hes) by lia. rewrite !getTrueIndex_ge by lia. f_equal. lia.
Qed.

Lemma ae_success_truthful rf ll ind appEn prev reply rf' ll' args t :
  ae_success rf ll ind appEn prev reply = Ok (rf', ll', AERetry args t) →
  lastIndexInSnapshot rf ≤ PrevLogIndex args → truthful rf args.
Proof.
  intros H Hp. unfold ae_success in H. case_match; [by simplify_eq|].
  apply bind_Ok in H as (nx & _ & H). apply bind_Ok in H as (m & _ & H).
  apply bind_Ok in H as ([r go] & Hu & H).
  assert (same_core rf r) as (El & Es & Hc).
  { clear H. case_match.
    - apply bind_Ok in Hu as (n & _ & Hu). case_match; go_inv; by simplify_eq.
    - apply bind_Ok in Hu as (r0 & Hs & Hu). simplify_eq. by eapply set_progress_core. }
  clear Hu. case_match; [by simplify_eq|]. apply bind_Ok in H as (cc & _ & H). case_match;
    [|by apply bind_Ok in H as ([r1 l1] & _ & H)].
  eapply truthful_core; [split; [exact El|split; [exact Es|exact Hc]]|]. rewrite <- Es in Hp.
  case_match; [case_match; [by simplify_eq|]|]; apply bind_Ok in H as (e & He & H);
    apply bind_Ok in H as (es & Hes & H); apply must_Ok in He; simplify_eq/=;
    (apply truthful_from; [done..|]); intros j Hj.
  - case_match; go_inv; [|unfold len in Hj; simpl in Hj; lia]. by apply zlookup_slice with (1 := Hes).
  - go_inv. apply zlookup_slice_from with (1 := Hes); lia.
Qed.

Lemma ae_failure_truthful rf ll ind appEn t0 reply net rf' ll' args t :
  ae_failure rf ll ind appEn t0 reply net = Ok (rf', ll', AERetry args t) →
  lastIndexInSnapshot rf ≤ PrevLogIndex args → truthful rf args.
Proof.
  unfold ae_failure. intros H Hp. case_match.
  { by apply bind_Ok in H as (r & _ & H). }
  apply bind_Ok in H as (m & _ & H). case_match; [by simplify_eq|].
  apply bind_Ok in H as (tl & _ & H). apply bind_Ok in H as (p & _ & H).
  apply bind_Ok in H as (n & _ & H). case_match; [done|].
  apply bind_Ok in H as ([r q] & Hr & H).
  assert (same_core rf r) as (El & Es & Hc).
  { clear H. case_match; [|by simplify_eq]. apply bind_Ok in Hr as (r0 & Hs & Hr). go_inv.
    simplify_eq. by apply sendSnapShot_core in Hs. }
  clear Hr. case_match; [by simplify_eq|]. apply bind_Ok in H as (e1 & He1 & H).
  apply bind_Ok in H as (e0 & He0 & H). apply must_Ok in He1, He0. simplify_eq/=.
  eapply truthful_core; [split; [exact El|split; [exact Es|exact Hc]]|]. rewrite <- Es in Hp.
  apply truthful_from; [done..|]. intros j Hj. unfold len in Hj. simpl in Hj.
  replace j with 0 by lia. rewrite zlookup_0_cons, <- He1, !getTrueIndex_ge by lia. f_equal. lia.
Qed.

(** C14. The requests a leader makes say what its log says. Every request that [LeaderProcess]
    builds for a peer ([ae_build]) and every request that a goroutine sends next, after an
    accepted one ([ae_success]) or a refused one ([ae_failure]), carries as [PrevLogTerm] the
    term of the leader's entry at [PrevLogIndex], and as entries those that follow it in the
    leader's log, provided that [PrevLogIndex] is not below the leader's snapshot. (Below it the
    statement fails: see [cluster_snapshot_shifts_entries].) *)
Theorem requests_truthful rf args :
  lastIndexInSnapshot rf ≤ PrevLogIndex args →
  (∃ logLen ind net rf', ae_build rf logLen ind net = Ok (rf', Some args)) ∨
  (∃ ll ind appEn prev reply rf' ll' t,
     ae_success rf ll ind appEn prev reply = Ok (rf', ll', AERetry args t)) ∨
  (∃ ll ind appEn t0 reply net rf' ll' t,
     ae_failure rf ll ind appEn t0 reply net = Ok (rf', ll', AERetry args t)) →
  truthful rf args.
Proof.
  intros Hp [(?&?&?&?&H)|[(?&?&?&?&?&?&?&?&H)|(?&?&?&?&?&?&?&?&?&H)]];
    eauto using ae_build_truthful, ae_success_truthful, ae_failure_truthful.
Qed.

(** ** [matchIndex] *)

Lemma leader_commit_loop_match n i rf ll rf' ll' :
  leader_commit_loop n i rf ll = Ok (rf', ll') → matchIndex rf' = matchIndex rf.
Proof.
  revert i rf ll. induction n as [|n IH]; intros i rf ll H; simpl in H; [by simplify_eq|].
  case_match; [by simplify_eq|]. apply bind_Ok in H as (e & _ & H). case_match; by apply IH in H.
Qed.

Lemma leader_commit_match rf ll c rf' ll' :
  leader_commit rf ll c = Ok (rf', ll') → matchIndex rf' = matchIndex rf.
Proof.
  unfold leader_commit. intros H. case_match; [by simplify_eq|].
  apply bind_Ok in H as (v & _ & H). do 2 (case_match; [by simplify_eq|]).
  apply bind_Ok in H as ([r l] & Hl & H). apply leader_commit_loop_match in Hl.
  apply bind_Ok in H as (nx & _ & H). case_match; go_inv; by simplify_eq.
Qed.

(** An accepted request with entries: [matchIndex] goes to the end of the request, or to where
    [nextIndex] points if that is further. *)
Lemma ae_success_match rf ll ind appEn prev reply rf' ll' next nx :
  zlookup (nextIndex rf) ind = Some nx → Entries appEn ≠ [] → AECommitIndex reply = 0 →
  ae_success rf ll ind appEn prev reply = Ok (rf', ll', next) →
  zlookup (matchIndex rf') ind = Some (Z.max nx (PrevLogIndex appEn + len (Entries appEn) + 1) - 1).
Proof.
  intros Hnx Hes Hc H. unfold ae_success in H. case_match eqn:E0.
  { apply Z.eqb_eq in E0. destruct (Entries appEn); [done|]. unfold len in E0. simpl in E0. lia. }
  clear E0. rewrite Hnx, Hc in H. simpl in H. apply bind_Ok in H as (m & Hm & H). apply must_Ok in Hm.
  set (sent := PrevLogIndex appEn + len (Entries appEn) + 1) in *.
  replace (if nx <? sent then sent else nx) with (Z.max nx sent) in H
    by (destruct (Z.ltb_spec nx sent); lia).
  apply bind_Ok in H as ([r go] & Hu & H). apply bind_Ok in Hu as (n & _ & Hu).
  assert (zlookup (matchIndex r) ind = Some (Z.max nx sent - 1)) as Hr.
  { destruct (negb (m =? Z.max nx sent - 1)) eqn:E1;
      [|apply negb_false_iff, Z.eqb_eq in E1; simplify_eq/=; by f_equal].
    apply bind_Ok in Hu as (m' & Hm' & Hu). apply must_Ok in Hm'. simplify_eq/=.
    rewrite (zlookup_zinsert _ _ _ _ ind Hm'). by rewrite decide_True. }
  clear Hu. case_match; [by simplify_eq|]. rewrite Hr in H. simpl in H. case_match.
  - by apply bind_Ok in H as (e & _ & H); apply bind_Ok in H as (es & _ & H); simplify_eq.
  - apply bind_Ok in H as ([r1 l1] & Hl & H). simplify_eq. by apply leader_commit_match in Hl as ->.
Qed.

(** A retry after a refusal leaves [nextIndex] at the first entry it sends (as long as no snapshot
    is involved), so the acceptance of that retry moves [matchIndex] to the end of it. *)
Lemma ae_failure_next rf ll ind appEn t0 reply net rf' ll' args t :
  lastIndexInSnapshot rf ≤ 0 →
  ae_failure rf ll ind appEn t0 reply net = Ok (rf', ll', AERetry args t) →
  zlookup (nextIndex rf') ind = Some (PrevLogIndex args + 1) ∧ len (Entries args) = 1 ∧ t = t0.
Proof.
  unfold ae_failure. intros Hs H. case_match; [by apply bind_Ok in H as (r & _ & H)|].
  apply bind_Ok in H as (m & _ & H). case_match; [by simplify_eq|].
  apply bind_Ok in H as (tl & _ & H). apply bind_Ok in H as (p & _ & H).
  apply bind_Ok in H as (n & Hn & H). apply must_Ok in Hn. destruct (Z.ltb_spec p 0); [done|].
  simpl in H. destruct (Z.ltb_spec p (lastIndexInSnapshot rf)); [lia|]. simpl in H.
  case_match; [by simplify_eq|]. apply bind_Ok in H as (e1 & _ & H). apply bind_Ok in H as (e0 & _ & H).
  simplify_eq/=. split_and!; [|done..]. rewrite (zlookup_zinsert _ _ _ _ ind Hn). by rewrite decide_True.
Qed.

(** C15. Leader to follower and back. When a follower accepts a truthful request (one that says what
    the leader's log says, with a command in every entry) and does not answer with its commit
    index (as it does, storing nothing, when the request starts below it), the follower has the
    leader's entries from [PrevLogIndex] (in term) to the end of the request; and the leader,
    for a request with entries and when no other goroutine has moved [nextIndex] past that end,
    records exactly that index in [matchIndex]. *)
Theorem replication_agrees rf args fo fo' reply :
  truthful rf args → Forall (λ e, Command e ≠ None) (Entries args) → 0 ≤ PrevLogIndex args →
  wf fo → 3 ≤ peers fo → AppendEntry fo args = Ok (fo', reply) →
  AESuccess reply = true → AECommitIndex reply = 0 →
  let end_ := PrevLogIndex args + len (Entries args) in
  Term <$> entry_at fo' (PrevLogIndex args) = Term <$> entry_at rf (PrevLogIndex args) ∧
  (∀ i, PrevLogIndex args < i ≤ end_ → entry_at fo' i = entry_at rf i) ∧
  ∀ rf2 ll ind nx prev rf3 ll3 next,
    Entries args ≠ [] → zlookup (nextIndex rf2) ind = Some nx → nx ≤ end_ + 1 →
    ae_success rf2 ll ind args prev reply = Ok (rf3, ll3, next) →
    zlookup (matchIndex rf3) ind = Some end_.
Proof.
  intros [(e & He & Hte) Hes] Hcmd Hpos Hfo Hfp Hae Hok Hc0 end_.
  destruct (AppendEntry_cases fo args Hfo Hfp Hcmd) as (fo1 & reply1 & E1 & Hout).
  rewrite Hae in E1. injection E1 as <- <-. pose proof Hfo as [F1 F2 F3].
  destruct Hout as [reply Ht Hf|k reply Ht _ Hf _ _|k reply Ht _ Hlt _ Hci|k reply rf2 Ht Hcons Hc _ _ ->];
    [congruence|congruence|lia|].
  edestruct (ae_accepted_spec fo args k _ _ Hfo Hcons Hc eq_refl eq_refl)
      as (_ & _ & _ & _ & _ & _ & Hbef & Hin).
  split_and!.
  - rewrite Hbef by lia. destruct Hcons as [Hl (x & Hx & Hx')].
    rewrite entry_at_true in Hx by lia. rewrite Hx, He. simpl. congruence.
  - intros i Hi. unfold end_ in Hi.
    replace i with (PrevLogIndex args + 1 + (i - PrevLogIndex args - 1)) by lia.
    rewrite Hin, Hes by lia. done.
  - intros rf3 ll ind nx prev rf4 ll4 next Hne Hnx Hle Hs.
    rewrite (ae_success_match _ _ _ _ _ _ _ _ _ _ Hnx Hne Hc0 Hs). f_equal. unfold end_ in *. lia.
Qed.
End progress.

(** ** Witnesses *)

(** The leader brings the peer of [demo_old] up to date. *)
Definition demo_repl_args : AppendEntryArgs Z := MkAEArgs 3 0 1 1 [MkCT (Some 20) 2] 0.

Lemma demo_replication_build :
  ae_build (set_nextIndex [3; 3; 2] demo_leader) 3 2 [] =
    Ok (set_nextIndex [3; 3; 2] demo_leader, Some demo_repl_args).
Proof. vm_compute. reflexivity. Qed.

Lemma demo_replication : ∃ fo' reply,
  AppendEntry (demo_old 2) demo_repl_args = Ok (fo', reply) ∧
  AESuccess reply = true ∧ AECommitIndex reply = 0.
Proof. vm_compute. eauto. Qed.

Lemma demo_truthful : truthful demo_leader demo_repl_args.
Proof.
  apply (ae_build_truthful (set_nextIndex [3; 3; 2] demo_leader) 3 2 []
    (set_nextIndex [3; 3; 2] demo_leader)); [apply demo_replication_build|done].
Qed.

Lemma requests_truthful_witness :
  truthful (set_nextIndex [3; 3; 2] demo_leader) demo_repl_args.
Proof.
  apply requests_truthful; [done|]. left.
  exists 3, 2, [], (set_nextIndex [3; 3; 2] demo_leader). apply demo_replication_build.
Defined.

Lemma replication_agrees_witness : ∃ fo' reply rf3 ll3,
  AppendEntry (demo_old 2) demo_repl_args = Ok (fo', reply) ∧
  ae_success (set_nextIndex [3; 3; 2] demo_leader) demo_ll 2 demo_repl_args 1 reply =
    Ok (rf3, ll3, AEDone) ∧
  entry_at fo' 2 = entry_at demo_leader 2 ∧ zlookup (matchIndex rf3) 2 = Some 2.
Proof.
  destruct demo_replication as (fo' & reply & Ha & Hs & Hc).
  assert (∃ rf3 ll3, ae_success (set_nextIndex [3; 3; 2] demo_leader) demo_ll 2 demo_repl_args 1 reply =
    Ok (rf3, ll3, AEDone)) as (rf3 & ll3 & Hae).
  { vm_compute in Ha. injection Ha as <- <-. vm_compute. eauto. }
  destruct (replication_agrees demo_leader demo_repl_args (demo_old 2) fo' reply demo_truthful)
    as (_ & He & Hm); [by repeat constructor|done|apply demo_old_wf|done..|].
  exists fo', reply, rf3, ll3. split_and!; [done|done|by apply He|].
  by apply (Hm (set_nextIndex [3; 3; 2] demo_leader) demo_ll 2 2 1 rf3 ll3 AEDone).
Defined.
