(* ===== verification/RaftCluster.v ===== *)
(** * A cluster of Raft peers: the peers of [RaftRole] joined by a network that loses, delays,
    repeats and reorders what it carries, crashing and restarting at any point.

    The network is what was sent so far: a peer may handle any request that was ever sent to it,
    at any time and as often as it likes; what is not handled is lost.  A request is on the
    network from when it could first be sent (a goroutine that sends late is a request that
    arrives late), and a snapshot may be sent at any time.  Candidates and goroutines get answers
    that were given to their requests.  Every handler and every reaction to an
    answer runs to its end before the next begins here, and [applyCh] takes what is sent;
    [RaftVote] has the interleavings of the two parts of [RequestVote], [RaftPool] those of all
    goroutines of one peer.

    [prov] and the lemmas about it follow where log entries and snapshots come from through every
    operation of a peer; [cluster_integrity] puts them together.  The tactics at the end follow
    concrete runs. *)

From S2P Require Import Prelude RaftState RaftVote RaftAppend RaftLeader RaftRole.

(** ** Where entries and snapshots come from

    [P] is what is known of the log entries of a peer, [Q] of the index of a snapshot and its
    two maps; [B] are messages that the service was sent first. *)
Section provenance.
Context {cmd : Type}.
Context (P : CommandTerm cmd → Prop) (Q : Z → gmap Z Z → gmap string string → Prop).
Context (B : list (ApplyMsg cmd)).
Implicit Types rf : Raft cmd.

Definition snap_prov (d : gobbytes cmd) : Prop :=
  ∀ seqs rsm i d', d = GSeqs seqs :: GRsm rsm :: GInt i :: d' → Q i seqs rsm.

Definition msg_prov (m : ApplyMsg cmd) : Prop :=
  if CommandValid m then ∀ c, ApplyCommand m = Some c → ∃ t, P (MkCT (Some c) t)
  else ∃ i, Q i (ClientMaxRequestSeq m) (Rsm m).

(** All that a peer holds, in memory, on its disk and on its way to the service. *)
Record prov rf : Prop := {
  prov_log : Forall P (log rf);
  prov_disk : ∀ l, GLog l ∈ raftstate (persister rf) → Forall P l;
  prov_snap : snap_prov (snapshot (persister rf));
  prov_ch : Forall msg_prov (applyCh rf);
  prov_sent : B `prefix_of` applyCh rf;
}.

Lemma prov_fields rf rf' :
  log rf' = log rf → persister rf' = persister rf → applyCh rf' = applyCh rf → prov rf → prov rf'.
Proof. intros El Ep Ea []. by split; rewrite ?El, ?Ep, ?Ea. Qed.

Lemma prov_set_log l rf : Forall P l → prov rf → prov (set_log l rf).
Proof. by intros Hl []. Qed.

Lemma prov_persist rf : prov rf → prov (persist rf).
Proof.
  intros [Hl _ Hs Hc Hb]. split; try done. simpl. intros l Hin.
  repeat (apply elem_of_cons in Hin as [Hin|Hin]; [by simplify_eq|]). set_solver.
Qed.

Lemma entry_msg_prov rf i e k :
  prov rf → zlookup (log rf) i = Some e → msg_prov (MkApplyMsg true (Command e) k ∅ ∅).
Proof.
  intros [Hl _ _ _ _] He c. simpl. intros Hc. exists (Term e). destruct e as [o t]. simpl in *. subst o.
  by eapply Forall_zlookup in He.
Qed.

Lemma prov_emit rf m : msg_prov m → prov rf → prov (set_applyCh (applyCh rf ++ [m]) rf).
Proof.
  intros Hm [Hl Hd Hs Hc Hb]. split; try done; simpl; [apply Forall_app; auto|by apply prefix_app_r].
Qed.

(** Peels [persist] and the setters of other fields off a peer. *)
Ltac prov_solve :=
  match goal with
  | |- prov (persist _) => apply prov_persist; prov_solve
  | |- prov (_ _ ?rf) => apply (prov_fields rf); [done..|prov_solve]
  | _ => done
  end.

(** Runs through the branches of an operation that sets other fields only. *)
Ltac prov_cases :=
  repeat (go_inv; simplify_eq/=; try case_match); simplify_eq/=; try done; prov_solve.

(** ** Elections and the leader's bookkeeping *)

Lemma prov_notifyAE rf k rf' : prov rf → notifyAE rf k = Ok rf' → prov rf'.
Proof. unfold notifyAE. intros. prov_cases. Qed.

Lemma prov_RequestVote rf args rf' reply :
  prov rf → RequestVote rf args = Ok (rf', reply) → prov rf'.
Proof.
  intros Hp H. unfold RequestVote, rv_finish in H. destruct (rv_check rf args); [by simplify_eq| |].
  - apply bind_Ok in H as ([r g] & Hl & H).
    assert (prov r) by (clear H; unfold rv_locked in Hl; prov_cases).
    destruct g; go_inv; simplify_eq; [by eapply prov_notifyAE|done].
  - go_inv. simplify_eq. by eapply prov_notifyAE.
Qed.

Lemma prov_candidate_step maj rf g ev rf' st :
  prov rf → candidate_step maj rf g ev = Ok (rf', st) → prov rf'.
Proof. unfold candidate_step. destruct ev; intros; prov_cases. Qed.

Lemma prov_leader_begin rf rf' ll : prov rf → leader_begin rf = Ok (rf', ll) → prov rf'.
Proof. unfold leader_begin. intros. prov_cases. Qed.

Lemma prov_set_progress rf ind v rf' : prov rf → set_progress rf ind v = Ok rf' → prov rf'.
Proof. unfold set_progress. intros. prov_cases. Qed.

Lemma prov_sendSnapShot rf ind net rf' : prov rf → sendSnapShot rf ind net = Ok rf' → prov rf'.
Proof.
  unfold sendSnapShot. intros Hp H.
  repeat case_match; try (by eapply prov_set_progress); prov_cases.
Qed.

(** A request under construction holds entries of the log only. *)
Lemma prov_ae_build rf logLen ind net rf' req :
  prov rf → ae_build rf logLen ind net = Ok (rf', req) →
  prov rf' ∧ ∀ args, req = Some args → Forall P (Entries args).
Proof.
  unfold ae_build. intros Hp H. apply bind_Ok in H as (next & _ & H).
  apply bind_Ok in H as (r & Hr & H).
  assert (prov r) as Hpr by (clear H; case_match; [by eapply prov_sendSnapShot|by go_inv]).
  clear Hr. apply bind_Ok in H as (nx & _ & H). apply bind_Ok in H as (es & Hes & H).
  assert (Forall P es) as Hall.
  { clear H. repeat case_match; go_inv; [|constructor..].
    eapply Forall_slice_from; [apply Hpr|done]. }
  case_match; [by simplify_eq|]. apply bind_Ok in H as (e & _ & H). simplify_eq.
  split; [done|]. by intros args [= <-].
Qed.

Lemma prov_leader_commit_loop n i rf ll rf' ll' :
  prov rf → leader_commit_loop n i rf ll = Ok (rf', ll') → prov rf'.
Proof.
  revert i rf ll. induction n as [|n IH]; intros i rf ll Hp H; simpl in H; [by simplify_eq|].
  case_match; [by simplify_eq|]. apply bind_Ok in H as (e & He & H). go_inv.
  case_match; [|by eapply IH]. eapply IH, H.
  apply (prov_emit (set_commitIndex i rf)); [by eapply entry_msg_prov|prov_solve].
Qed.

Lemma prov_leader_commit rf ll c rf' ll' :
  prov rf → leader_commit rf ll c = Ok (rf', ll') → prov rf'.
Proof.
  unfold leader_commit. intros Hp H. case_match; [by simplify_eq|].
  apply bind_Ok in H as (v & _ & H). do 2 (case_match; [by simplify_eq|]).
  apply bind_Ok in H as ([r l] & Hl & H). apply prov_leader_commit_loop in Hl; [|done].
  prov_cases.
Qed.

(** The request a goroutine goes on with, if it does. *)
Definition next_prov (next : ae_next (cmd := cmd)) : Prop :=
  match next with AEDone => True | AERetry args _ => Forall P (Entries args) end.

Lemma prov_ae_success rf ll ind appEn prev reply rf' ll' next :
  prov rf → ae_success rf ll ind appEn prev reply = Ok (rf', ll', next) →
  prov rf' ∧ next_prov next.
Proof.
  intros Hp H. unfold ae_success in H. case_match; [by simplify_eq|].
  apply bind_Ok in H as (nx & _ & H). apply bind_Ok in H as (m & _ & H).
  apply bind_Ok in H as ([r go] & Hu & H).
  assert (prov r) as Hr.
  { clear H. case_match.
    - prov_cases.
    - apply bind_Ok in Hu as (r0 & Hs & Hu). simplify_eq. by eapply prov_set_progress. }
  clear Hu. case_match; [by simplify_eq|]. apply bind_Ok in H as (cc & _ & H). case_match.
  - case_match; [case_match; [by simplify_eq|]|]; apply bind_Ok in H as (e & _ & H);
      apply bind_Ok in H as (es & Hes & H); simplify_eq/=; split; try done.
    + case_match; go_inv; [|constructor]. eapply Forall_slice; [apply Hr|done].
    + go_inv. eapply Forall_slice_from; [apply Hr|done].
  - apply bind_Ok in H as ([r1 l1] & Hc & H). simplify_eq. split; [by eapply prov_leader_commit|done].
Qed.

Lemma prov_ae_failure rf ll ind appEn t reply net rf' ll' next :
  prov rf → ae_failure rf ll ind appEn t reply net = Ok (rf', ll', next) →
  prov rf' ∧ next_prov next.
Proof.
  unfold ae_failure. intros Hp H. case_match.
  { apply bind_Ok in H as (r & Hn & H). simplify_eq. split; [|done].
    eapply prov_notifyAE; [|done]. prov_solve. }
  apply bind_Ok in H as (m & _ & H). case_match; [by simplify_eq|].
  apply bind_Ok in H as (tl & _ & H). apply bind_Ok in H as (p & _ & H).
  apply bind_Ok in H as (n & _ & H). case_match; [done|].
  apply bind_Ok in H as ([r q] & Hr & H).
  assert (prov r) as Hpr.
  { clear H. assert (prov (set_nextIndex n rf)) by prov_solve.
    case_match; [|by simplify_eq]. apply bind_Ok in Hr as (r0 & Hs & Hr). go_inv.
    simplify_eq. by eapply prov_sendSnapShot. }
  clear Hr. case_match; [by simplify_eq|]. apply bind_Ok in H as (e1 & He & H). go_inv. simplify_eq/=.
  split; [done|]. repeat constructor. eapply Forall_zlookup; [apply Hpr|done].
Qed.

Lemma prov_ae_goroutine a count rf ll ind appEn t prev rf' ll' next :
  prov rf → Forall P (Entries appEn) →
  ae_goroutine [a] count rf ll ind appEn t prev = Ok (rf', ll', next) →
  prov rf' ∧ next_prov next.
Proof.
  intros Hp Hes H. simpl in H. case_match.
  { apply bind_Ok in H as (r & Hn & H). simplify_eq. split; [by eapply prov_notifyAE|done]. }
  destruct a as [[reply net]|]; [|case_match; by simplify_eq].
  apply bind_Ok in H as ([[r l] n] & Hr & H).
  assert (prov r ∧ next_prov n); [|destruct n; by simplify_eq]. clear H. unfold ae_reply in Hr.
  case_match; [by eapply prov_ae_success|by eapply prov_ae_failure].
Qed.

Lemma prov_distribute_loop inds session logLen rf nets rf' fls :
  prov rf → distribute_loop inds session logLen rf nets = Ok (rf', fls) →
  prov rf' ∧ Forall (λ f, Forall P (Entries (fl_args f))) fls.
Proof.
  revert rf fls. induction inds as [|ind inds IH]; intros rf fls Hp H; simpl in H; [by simplify_eq|].
  case_match; [by eapply IH|]. apply bind_Ok in H as ([r req] & Hb & H).
  apply bind_Ok in H as ([r' f] & Hd & H). simplify_eq.
  apply prov_ae_build in Hb as [Hr Hreq]; [|done]. apply IH in Hd as [Hr' Hf]; [|done].
  split; [done|]. destruct req; [|done]. constructor; [by apply Hreq|done].
Qed.

(** ** The handlers and the service's calls *)

Lemma prov_ae_apply_loop n ind pre rf msgs rf' msgs' :
  prov rf → Forall msg_prov msgs → ae_apply_loop n ind pre rf msgs = Ok (rf', msgs') →
  prov rf' ∧ Forall msg_prov msgs'.
Proof.
  revert ind rf msgs. induction n as [|n IH]; intros ind rf msgs Hp Hm H; simpl in H; [by simplify_eq|].
  apply bind_Ok in H as (e & He & H). go_inv. case_match; [|by eapply IH].
  eapply IH, H; [prov_solve|]. apply Forall_app. split; [done|].
  repeat constructor. by eapply entry_msg_prov.
Qed.

Lemma prov_ae_commit rf args rf' : prov rf → ae_commit rf args = Ok rf' → prov rf'.
Proof.
  intros Hp H. unfold ae_commit in H. case_match. apply bind_Ok in H as ([r msgs] & Hl & H).
  unfold ae_deliver in Hl. apply bind_Ok in Hl as (s & _ & Hl). simplify_eq.
  apply prov_ae_apply_loop in Hl as [[Ha Hb Hc Hd He] Hm]; [|done|constructor].
  apply prov_persist. split; try done; simpl; [by apply Forall_app|by apply prefix_app_r].
Qed.

Lemma prov_ae_write_loop rf i es rf' i' :
  prov rf → Forall P es → ae_write_loop rf i es = Ok (rf', i') → prov rf'.
Proof.
  intros Hp Hes. revert i rf Hp. induction Hes as [|e es He _ IH]; intros i rf Hp H; simpl in H;
    [by simplify_eq|]. case_match; [by simplify_eq|].
  apply bind_Ok in H as (l & Hl & H). case_match; [|done]. eapply IH, H.
  apply prov_set_log; [|done]. destruct Hp as [Hlog _ _ _ _]. case_match; simplify_eq.
  - apply Forall_app. auto.
  - apply must_Ok in Hl. by eapply Forall_zinsert.
Qed.

Lemma prov_ae_append rf args rf' :
  prov rf → Forall P (Entries args) → ae_append rf args = Ok rf' → prov rf'.
Proof.
  intros Hp Hes H. unfold ae_append in H. apply bind_Ok in H as (r & Hr & H). simplify_eq.
  apply prov_persist. unfold ae_write in Hr. case_match; [|by simplify_eq].
  apply bind_Ok in Hr as ([r1 i] & Hw & Hr). apply prov_ae_write_loop in Hw; [|done..]. case_match; [|by simplify_eq]. go_inv.
  case_match; go_inv; [|done]. apply prov_set_log; [|done]. eapply Forall_slice_to; [apply Hw|done].
Qed.

Lemma prov_AppendEntry rf args rf' reply :
  prov rf → Forall P (Entries args) → AppendEntry rf args = Ok (rf', reply) → prov rf'.
Proof.
  intros Hp Hes H. unfold AppendEntry in H. case_match; [by simplify_eq|].
  apply bind_Ok in H as (r & Hr & H). apply prov_notifyAE in Hr; [|unfold ae_term; prov_cases].
  apply bind_Ok in H as (c & _ & H). case_match; [case_match; by simplify_eq|].
  case_match; [by simplify_eq|]. apply bind_Ok in H as (r1 & Hc & H).
  apply prov_ae_commit in Hc; [|done]. case_match; [by simplify_eq|].
  apply bind_Ok in H as (r2 & Ha & H). simplify_eq. by eapply prov_ae_append.
Qed.

(** From here on, slot 0 of a log that starts at a snapshot. *)
Context (P_nil : ∀ t, P (MkCT None t)).

Lemma prov_readSnapshotPersist rf d rf' :
  prov rf → snap_prov d → readSnapshotPersist rf d = Ok rf' → prov rf'.
Proof.
  intros Hp Hd H. unfold readSnapshotPersist in H. case_bool_decide; [by simplify_eq|].
  apply bind_Ok in H as ([[[seqs rsm] li] lt] & (d' & ->)%decodeSnapshot_Ok & H).
  case_match; simplify_eq; [done|]. destruct Hp as [Ha Hb Hc He Hp].
  split; simpl; try done; [by repeat constructor| |by apply prefix_app_r].
  apply Forall_app. split; [done|]. repeat constructor. eexists. by eapply Hd.
Qed.

Lemma prov_InstallSnapShot rf args rf' reply :
  prov rf → snap_prov (ISData args) → InstallSnapShot rf args = Ok (rf', reply) → prov rf'.
Proof.
  intros Hp Hd H. unfold InstallSnapShot in H. do 2 (case_match; [by simplify_eq|]).
  apply bind_Ok in H as (same & _ & H). case_match; [by simplify_eq|].
  apply bind_Ok in H as (r & Hr & H). case_match; [done|]. simplify_eq.
  by eapply prov_readSnapshotPersist.
Qed.

(** Only a leader adds an entry, one with the command and its term. *)
Lemma prov_Start rf c rf' i t b :
  prov rf → Start rf (Some c) = Ok (rf', (i, t, b)) → (b = true → P (MkCT (Some c) t)) → prov rf'.
Proof.
  intros Hp H Hc. unfold Start in H. case_match; [by simplify_eq|]. case_match; [done|].
  apply bind_Ok in H as (m & _ & H). simplify_eq. apply prov_persist.
  eapply (prov_fields (set_log _ rf)); [done..|]. apply prov_set_log; [|done].
  apply Forall_app. split; [apply Hp|]. repeat constructor. by apply Hc.
Qed.

Lemma prov_TakeSnapshots rf seqs rsm index rf' :
  prov rf → Q (index - 1) seqs rsm → TakeSnapshots rf seqs rsm index = Ok rf' → prov rf'.
Proof.
  intros [Ha Hb Hc Hd He] HQ H. unfold TakeSnapshots in H. case_match; [by simplify_eq|].
  apply bind_Ok in H as (e & _ & H). case_match; [|by simplify_eq].
  apply bind_Ok in H as (l & Hl & H). simplify_eq.
  assert (Forall P l).
  { unfold truncate in Hl. case_match; [done|]. case_match; simplify_eq/=; try by apply Forall_drop.
    apply Forall_app. split; [by apply Forall_drop|]. by repeat constructor. }
  split; simpl; try done.
  - intros l0 Hin. repeat (apply elem_of_cons in Hin as [Hin|Hin]; [by simplify_eq|]). set_solver.
  - intros s r i d' E. by simplify_eq.
Qed.

(** A restarted peer holds what was on its disk. *)
Lemma prov_Make n m rf rf' : B = [] → prov rf → Make n m (Copy (persister rf)) = Ok rf' → prov rf'.
Proof.
  intros HB [Ha Hb Hc Hd _] H. unfold Make in H. apply bind_Ok in H as (r & Hr & H).
  apply prov_readSnapshotPersist in Hr; [|split; simpl; rewrite ?HB; try done; by repeat constructor|done].
  apply bind_Ok in H as (r1 & H1 & H).
  assert (prov r1) as Hp1.
  { unfold readPersist in H1. case_bool_decide; [by simplify_eq|].
    destruct (decodeInt _) as [[t d]|] eqn:Ed; [|done]. destruct (decodeLog d) as [[l d']|] eqn:El; [|done].
    simplify_eq. apply prov_set_log; [|prov_solve]. apply Hb. unfold ReadRaftState in Ed. simpl in Ed.
    destruct (raftstate (persister rf)) as [|[] ?]; simplify_eq/=.
    destruct d as [|[] ?]; simplify_eq/=. set_solver. }
  simplify_eq. case_match; [|prov_solve]. apply (prov_fields (set_log (log r1 ++ [MkCT None 0]) r1)); [done..|].
  apply prov_set_log; [|done]. apply Forall_app. split; [apply Hp1|]. by repeat constructor.
Qed.

(** ** A peer and its requests in flight *)

Definition flights_prov (fs : list (flight cmd)) : Prop :=
  Forall (λ f, Forall P (Entries (fl_args f))) fs.

Definition node_prov (nd : node cmd) : Prop := prov (nd_rf nd) ∧ flights_prov (nd_flights nd).

Lemma after_candidate_prov nd rf b nd' :
  prov rf → flights_prov (nd_flights nd) → after_candidate nd rf b = Ok nd' → node_prov nd'.
Proof.
  intros Hp Hf H. unfold after_candidate in H. case_match; [by simplify_eq|].
  case_match; [|by simplify_eq]. apply bind_Ok in H as ([r ll] & Hb & H). simplify_eq.
  split; [by eapply prov_leader_begin|done].
Qed.

Lemma local_step_prov A nd nd' : local_step A nd nd' → node_prov nd → node_prov nd'.
Proof.
  unfold node_prov. destruct 1; simpl; intros [Hp Hf]; try (split; [|done]);
    eauto using prov_candidate_step, prov_RequestVote;
    try (unfold candidate_begin, follower_timeout, leader_timeout, Kill; prov_solve).
  - eapply after_candidate_prov; [..|done]; [by eapply prov_candidate_step|done].
  - unfold follower_notify in *. prov_cases.
  - unfold leader_notify in *. prov_cases.
  - unfold leader_command in *. prov_cases.
  - unfold leader_distribute in *. case_match; [done|].
    match goal with H : _ ≫= _ = Ok _ |- _ => apply bind_Ok in H as ([r f] & Hd & H) end.
    simplify_eq. apply prov_distribute_loop in Hd as [? ?]; [|done]. split; [done|]. by apply Forall_app.
  - apply Forall_app in Hf as [F1 F2]. apply Forall_cons in F2 as [Hargs F2].
    edestruct prov_ae_goroutine as [Hr _]; [..|done|]; [done..|]. split; [done|]. by apply Forall_app.
  - apply Forall_app in Hf as [F1 F2]. apply Forall_cons in F2 as [Hargs F2].
    edestruct prov_ae_goroutine as [Hr Hn]; [..|done|]; [done..|]. split; [done|].
    apply Forall_app. split; [done|]. by constructor.
Qed.
End provenance.

(** ** The cluster *)
Section cluster.
Context {cmd : Type}.

(** The peers by number; every request ever sent, with the peer it is for ([RequestVote] goes
    to all); every answer, with the peer that gave it and the request; the entries [Start]
    accepted, with their term; and the snapshots [TakeSnapshots] was asked for, by index. *)
Record cluster := MkCluster {
  nodes : list (node cmd);
  rv_sent : list RequestVoteArgs;
  ae_sent : list (Z * AppendEntryArgs cmd);
  is_sent : list (Z * InstallSnapShotArgs cmd);
  rv_replied : list (Z * RequestVoteArgs * RequestVoteReply);
  ae_replied : list (Z * AppendEntryArgs cmd * AppendEntryReply);
  is_replied : list (Z * InstallSnapShotArgs cmd * InstallSnapShotReply);
  started : list (CommandTerm cmd);
  taken : list (Z * gmap Z Z * gmap string string);
}.
Implicit Types cl : cluster.

Definition set_node (i : Z) (nd : node cmd) cl : cluster :=
  MkCluster (<[Z.to_nat i := nd]> (nodes cl)) (rv_sent cl) (ae_sent cl) (is_sent cl)
    (rv_replied cl) (ae_replied cl) (is_replied cl) (started cl) (taken cl).
Definition send_rv (args : RequestVoteArgs) cl : cluster :=
  MkCluster (nodes cl) (args :: rv_sent cl) (ae_sent cl) (is_sent cl)
    (rv_replied cl) (ae_replied cl) (is_replied cl) (started cl) (taken cl).
Definition send_ae (ind : Z) (args : AppendEntryArgs cmd) cl : cluster :=
  MkCluster (nodes cl) (rv_sent cl) ((ind, args) :: ae_sent cl) (is_sent cl)
    (rv_replied cl) (ae_replied cl) (is_replied cl) (started cl) (taken cl).
Definition send_is (ind : Z) (args : InstallSnapShotArgs cmd) cl : cluster :=
  MkCluster (nodes cl) (rv_sent cl) (ae_sent cl) ((ind, args) :: is_sent cl)
    (rv_replied cl) (ae_replied cl) (is_replied cl) (started cl) (taken cl).
Definition reply_rv (i : Z) (args : RequestVoteArgs) (reply : RequestVoteReply) cl : cluster :=
  MkCluster (nodes cl) (rv_sent cl) (ae_sent cl) (is_sent cl)
    ((i, args, reply) :: rv_replied cl) (ae_replied cl) (is_replied cl) (started cl) (taken cl).
Definition reply_ae (i : Z) (args : AppendEntryArgs cmd) (reply : AppendEntryReply) cl : cluster :=
  MkCluster (nodes cl) (rv_sent cl) (ae_sent cl) (is_sent cl)
    (rv_replied cl) ((i, args, reply) :: ae_replied cl) (is_replied cl) (started cl) (taken cl).
Definition reply_is (i : Z) (args : InstallSnapShotArgs cmd) (reply : InstallSnapShotReply) cl : cluster :=
  MkCluster (nodes cl) (rv_sent cl) (ae_sent cl) (is_sent cl)
    (rv_replied cl) (ae_replied cl) ((i, args, reply) :: is_replied cl) (started cl) (taken cl).
Definition add_started (es : list (CommandTerm cmd)) cl : cluster :=
  MkCluster (nodes cl) (rv_sent cl) (ae_sent cl) (is_sent cl)
    (rv_replied cl) (ae_replied cl) (is_replied cl) (es ++ started cl) (taken cl).
Definition add_taken (i : Z) (seqs : gmap Z Z) (rsm : gmap string string) cl : cluster :=
  MkCluster (nodes cl) (rv_sent cl) (ae_sent cl) (is_sent cl)
    (rv_replied cl) (ae_replied cl) (is_replied cl) (started cl) ((i, seqs, rsm) :: taken cl).

Definition with_rf (nd : node cmd) (rf : Raft cmd) : node cmd :=
  MkNode rf (nd_place nd) (nd_sessions nd) (nd_flights nd).

(** The answers given so far. *)
Definition replied cl : answers (cmd := cmd) :=
  MkAnswers (λ i args r, (i, args, r) ∈ rv_replied cl) (λ i args r, (i, args, r) ∈ ae_replied cl)
    (λ i args r, (i, args, r) ∈ is_replied cl).

(** What the peers and the network do. *)
Inductive net_step cl : cluster → Prop :=
| cs_local i nd nd' :
    zlookup (nodes cl) i = Some nd → local_step (replied cl) nd nd' →
    net_step cl (set_node i nd' cl)
(* requests *)
| cs_send_rv i nd args g heard :
    zlookup (nodes cl) i = Some nd → nd_place nd = AtCandidate args g heard →
    votedFor (nd_rf nd) = me (nd_rf nd) →
    net_step cl (send_rv args cl)
| cs_send_ae i nd f :
    zlookup (nodes cl) i = Some nd → f ∈ nd_flights nd →
    leaderNum (nd_rf nd) = me (nd_rf nd) →
    net_step cl (send_ae (fl_ind f) (fl_args f) cl)
| cs_send_is i nd ind :
    zlookup (nodes cl) i = Some nd → ind ≠ i →
    net_step cl (send_is ind (snapshot_args (nd_rf nd)) cl)
(* handlers *)
| cs_RequestVote i nd args rf' reply :
    zlookup (nodes cl) i = Some nd → args ∈ rv_sent cl → CandidateID args ≠ i →
    RequestVote (nd_rf nd) args = Ok (rf', reply) →
    net_step cl (reply_rv i args reply (set_node i (with_rf nd rf') cl))
| cs_AppendEntry i nd args rf' reply :
    zlookup (nodes cl) i = Some nd → (i, args) ∈ ae_sent cl →
    AppendEntry (nd_rf nd) args = Ok (rf', reply) →
    net_step cl (reply_ae i args reply (set_node i (with_rf nd rf') cl))
| cs_InstallSnapShot i nd args rf' reply :
    zlookup (nodes cl) i = Some nd → (i, args) ∈ is_sent cl →
    InstallSnapShot (nd_rf nd) args = Ok (rf', reply) →
    net_step cl (reply_is i args reply (set_node i (with_rf nd rf') cl)).

Inductive cluster_step cl : cluster → Prop :=
| cs_net cl' : net_step cl cl' → cluster_step cl cl'
(* the service *)
| cs_Start i nd c rf' index t isLeader :
    zlookup (nodes cl) i = Some nd → Start (nd_rf nd) (Some c) = Ok (rf', (index, t, isLeader)) →
    cluster_step cl (add_started (if isLeader then [MkCT (Some c) t] else [])
                       (set_node i (with_rf nd rf') cl))
| cs_TakeSnapshots i nd seqs rsm index rf' :
    zlookup (nodes cl) i = Some nd → TakeSnapshots (nd_rf nd) seqs rsm index = Ok rf' →
    cluster_step cl (add_taken (index - 1) seqs rsm (set_node i (with_rf nd rf') cl))
(* a crash at any point: the next life starts with a copy of the disk *)
| cs_restart i nd rf' :
    zlookup (nodes cl) i = Some nd →
    Make (len (nodes cl)) i (Copy (persister (nd_rf nd))) = Ok rf' →
    cluster_step cl (set_node i (MkNode rf' AtTop [] []) cl).

(** [n] new peers. *)
Definition start_node (n i : Z) : outcome (node cmd) :=
  rf ← Make n i MakePersister; Ok (MkNode rf AtTop [] []).

Fixpoint start_nodes (n : Z) (ids : list Z) : outcome (list (node cmd)) :=
  match ids with
  | [] => Ok []
  | i :: ids => nd ← start_node n i; nds ← start_nodes n ids; Ok (nd :: nds)
  end.

Definition start_cluster (n : Z) : outcome cluster :=
  nds ← start_nodes n (seqZ 0 n); Ok (MkCluster nds [] [] [] [] [] [] [] []).

(** ** Integrity *)

(** An entry that [Start] accepted, or one without a command. *)
Definition accepted cl (e : CommandTerm cmd) : Prop := Command e = None ∨ e ∈ started cl.
Definition was_taken cl (i : Z) (seqs : gmap Z Z) (rsm : gmap string string) : Prop :=
  (i, seqs, rsm) ∈ taken cl.

(** Nothing in the peers or on the network comes from elsewhere. *)
Record cluster_prov (P : CommandTerm cmd → Prop) (Q : Z → gmap Z Z → gmap string string → Prop) cl : Prop := {
  cp_nodes : Forall (node_prov P Q []) (nodes cl);
  cp_ae : Forall (λ p, Forall P (Entries p.2)) (ae_sent cl);
  cp_is : Forall (λ p, snap_prov Q (ISData p.2)) (is_sent cl);
}.

Lemma prov_mono (P P' : CommandTerm cmd → Prop) (Q Q' : Z → gmap Z Z → gmap string string → Prop) B rf :
  (∀ e, P e → P' e) → (∀ i s r, Q i s r → Q' i s r) → prov P Q B rf → prov P' Q' B rf.
Proof.
  intros HP HQ [Ha Hb Hc Hd He]. split; [..|done].
  - by eapply Forall_impl.
  - intros l Hl. eapply Forall_impl; [by apply Hb|done].
  - intros s r i d' E. eapply HQ, Hc, E.
  - eapply Forall_impl; [done|]. intros m. unfold msg_prov. case_match; [|by intros [i Hm]; eauto].
    intros Hm c Hc'. destruct (Hm c Hc') as [t Ht]. eauto.
Qed.

Lemma cluster_prov_mono P P' Q Q' cl :
  (∀ e, P e → P' e) → (∀ i s r, Q i s r → Q' i s r) → cluster_prov P Q cl → cluster_prov P' Q' cl.
Proof.
  intros HP HQ [Hn Ha Hi]. split.
  - eapply Forall_impl; [done|]. intros nd [Hp Hf]. split; [by eapply prov_mono|].
    eapply Forall_impl; [done|]. intros f Hf'. by apply (Forall_impl P).
  - eapply Forall_impl; [done|]. intros x Hx. by apply (Forall_impl P).
  - eapply Forall_impl; [done|]. intros x Hx s r i d' E. eapply HQ, Hx, E.
Qed.

(** The record of what was accepted and taken only grows. *)
Lemma net_step_records cl cl' :
  net_step cl cl' → started cl' = started cl ∧ taken cl' = taken cl.
Proof. by destruct 1. Qed.

Lemma cluster_step_grows cl cl' :
  cluster_step cl cl' → started cl ⊆ started cl' ∧ taken cl ⊆ taken cl'.
Proof.
  destruct 1 as [cl' Hn| | |]; simpl; [apply net_step_records in Hn as [-> ->]|..]; set_solver.
Qed.

(** What was sent to the service stays sent. *)
Lemma net_step_applyCh cl cl' j nd :
  net_step cl cl' → zlookup (nodes cl) j = Some nd →
  ∃ nd', zlookup (nodes cl') j = Some nd' ∧ applyCh (nd_rf nd) `prefix_of` applyCh (nd_rf nd').
Proof.
  set (yes := λ _ : CommandTerm cmd, True). set (any := λ (_ : Z) (_ : gmap Z Z) (_ : gmap string string), True).
  assert (Hall : ∀ es, Forall yes es) by (intros; by apply Forall_true).
  assert (Hyes : ∀ rf, prov yes any (applyCh rf) rf).
  { intros rf. split; try done. apply Forall_true. intros m. unfold msg_prov.
    case_match; [by exists 0|by exists 0]. }
  assert (Hset : ∀ i nd0 nd1, zlookup (nodes cl) i = Some nd0 →
    prov yes any (applyCh (nd_rf nd0)) (nd_rf nd1) → zlookup (nodes cl) j = Some nd →
    ∃ nd', zlookup (nodes (set_node i nd1 cl)) j = Some nd' ∧
      applyCh (nd_rf nd) `prefix_of` applyCh (nd_rf nd')).
  { intros i nd0 nd1 Hi Hp Hj. simpl. rewrite (zlookup_set _ _ _ _ _ Hi). case_decide; [|by exists nd].
    simplify_eq. exists nd1. split; [done|apply Hp]. }
  intros Hstep Hj. destruct Hstep; try (by exists nd); eapply Hset; try done.
  - apply (local_step_prov yes any _ (replied cl) nd0); [done|]. split; [done|].
    apply Forall_true. intros. apply Hall.
  - by eapply prov_RequestVote.
  - by eapply prov_AppendEntry.
  - by eapply prov_InstallSnapShot.
Qed.

Section step.
Context (P : CommandTerm cmd → Prop) (Q : Z → gmap Z Z → gmap string string → Prop).
Context (P_nil : ∀ t, P (MkCT None t)).

Lemma cluster_prov_node cl i nd :
  cluster_prov P Q cl → zlookup (nodes cl) i = Some nd → node_prov P Q [] nd.
Proof. intros [Hn _ _] Hi. by eapply Forall_zlookup in Hi. Qed.

Lemma cluster_prov_set cl i nd :
  node_prov P Q [] nd → cluster_prov P Q cl → cluster_prov P Q (set_node i nd cl).
Proof. intros Hnd [Hn Ha Hi]. split; try done. simpl. by apply Forall_insert. Qed.

(** Steps that only add to what was sent, answered, started or taken. *)
Lemma cluster_prov_with_rf cl i nd rf' cl' :
  cluster_prov P Q cl → zlookup (nodes cl) i = Some nd → (prov P Q [] (nd_rf nd) → prov P Q [] rf') →
  nodes cl' = nodes (set_node i (with_rf nd rf') cl) → ae_sent cl' = ae_sent cl →
  is_sent cl' = is_sent cl → cluster_prov P Q cl'.
Proof.
  intros Hcl Hi Hrf En Ea Es. destruct (cluster_prov_node _ _ _ Hcl Hi) as [Hp Hf].
  destruct (cluster_prov_set cl i (with_rf nd rf')) as [Hn' Ha' Hi']; [split; auto|done|].
  split; by rewrite ?En, ?Ea, ?Es.
Qed.

Lemma net_step_prov cl cl' : net_step cl cl' → cluster_prov P Q cl → cluster_prov P Q cl'.
Proof.
  intros Hstep Hcl. destruct Hstep;
    match goal with H : zlookup _ _ = Some _ |- _ =>
      destruct (cluster_prov_node _ _ _ Hcl H) as [Hp Hf] end.
  - apply cluster_prov_set; [|done]. by eapply local_step_prov.
  - destruct Hcl. by split.
  - destruct Hcl as [Hn Ha Hi]. split; try done. constructor; [|done].
    by apply (proj1 (Forall_forall _ _) Hf).
  - destruct Hcl as [Hn Ha Hi]. split; try done. constructor; [apply Hp|done].
  - apply (cluster_prov_with_rf cl i nd rf'); eauto using prov_RequestVote.
  - apply (cluster_prov_with_rf cl i nd rf'); eauto. intros _. eapply prov_AppendEntry; [done| |done].
    by apply (proj1 (Forall_forall _ _) (cp_ae _ _ _ Hcl) (i, args)).
  - apply (cluster_prov_with_rf cl i nd rf'); eauto. intros _. eapply prov_InstallSnapShot; [done..| |done].
    by apply (proj1 (Forall_forall _ _) (cp_is _ _ _ Hcl) (i, args)).
Qed.

(** What a step adds to the records satisfies [P] and [Q]: then they hold everywhere. *)
Lemma cluster_step_prov cl cl' :
  cluster_step cl cl' → (∀ e, e ∈ started cl' → P e) → (∀ i seqs rsm, (i, seqs, rsm) ∈ taken cl' → Q i seqs rsm) →
  cluster_prov P Q cl → cluster_prov P Q cl'.
Proof.
  intros Hstep HP HQ Hcl. destruct Hstep; [by eapply net_step_prov|..];
    match goal with H : zlookup _ _ = Some _ |- _ =>
      destruct (cluster_prov_node _ _ _ Hcl H) as [Hp Hf] end.
  - apply (cluster_prov_with_rf cl i nd rf'); eauto. intros _. eapply prov_Start; [done..|].
    intros ->. apply HP. simpl. set_solver.
  - apply (cluster_prov_with_rf cl i nd rf'); eauto. intros _. eapply prov_TakeSnapshots; [done..| |done].
    apply HQ. simpl. set_solver.
  - apply cluster_prov_set; [|done]. split; [|constructor]. by eapply prov_Make.
Qed.
End step.

Lemma start_nodes_prov P Q n ids nds : (∀ t, P (MkCT None t)) →
  start_nodes n ids = Ok nds → Forall (node_prov P Q []) nds.
Proof.
  intros HP. revert nds. induction ids as [|i ids IH]; intros nds H; cbn [start_nodes] in H; [by simplify_eq|].
  apply bind_Ok in H as (nd & Hnd & H). apply bind_Ok in H as (nds' & Hr & H). simplify_eq.
  constructor; [|by apply IH]. unfold start_node in Hnd. apply bind_Ok in Hnd as (rf & Hm & Hnd).
  vm_compute in Hm. simplify_eq. split; [|constructor]. split; simpl.
  - by repeat constructor.
  - set_solver.
  - by intros ????.
  - constructor.
  - done.
Qed.

Lemma reachable_prov n cl0 cl :
  start_cluster n = Ok cl0 → rtc cluster_step cl0 cl → cluster_prov (accepted cl) (was_taken cl) cl.
Proof.
  intros H0 Hr. pattern cl. eapply rtc_ind_r; [| |exact Hr]; clear cl Hr.
  - unfold start_cluster in H0. apply bind_Ok in H0 as (nds & Hn & H0). simplify_eq.
    split; [|constructor..]. eapply start_nodes_prov; [|done]. by left.
  - intros cl cl' Hr Hstep IH. pose proof (cluster_step_grows _ _ Hstep) as [Hs Ht].
    eapply cluster_step_prov; [by left|done|by right|done|].
    eapply cluster_prov_mono; [..|exact IH].
    + intros e [|]; [by left|right; set_solver].
    + intros i s r. unfold was_taken. set_solver.
Qed.

(** C4. However the network and the crashes go, the peers make nothing up: every command in a log
    and every command handed to the service is one that [Start] accepted on some peer (with the
    term the entry has), and every snapshot handed to the service is one that a service gave to
    [TakeSnapshots]. *)
Theorem cluster_integrity n cl0 cl i nd :
  start_cluster n = Ok cl0 → rtc cluster_step cl0 cl → zlookup (nodes cl) i = Some nd →
  (∀ e c, e ∈ log (nd_rf nd) → Command e = Some c → e ∈ started cl) ∧
  (∀ m c, m ∈ applyCh (nd_rf nd) → CommandValid m = true → ApplyCommand m = Some c →
     ∃ t, MkCT (Some c) t ∈ started cl) ∧
  (∀ m, m ∈ applyCh (nd_rf nd) → CommandValid m = false →
     ∃ index, (index, ClientMaxRequestSeq m, Rsm m) ∈ taken cl).
Proof.
  intros H0 Hr Hi. pose proof (reachable_prov _ _ _ H0 Hr) as Hcp.
  destruct (cluster_prov_node _ _ _ _ _ Hcp Hi) as [[Hl _ _ Hc] _].
  rewrite Forall_forall in Hl. rewrite Forall_forall in Hc. split_and!.
  - intros e c He Ec. destruct (Hl e He) as [E|?]; [congruence|done].
  - intros m c Hm Hv Em. specialize (Hc m Hm). unfold msg_prov in Hc. rewrite Hv in Hc.
    destruct (Hc c Em) as [t [E|?]]; [done|by exists t].
  - intros m Hm Hv. specialize (Hc m Hm). unfold msg_prov in Hc. by rewrite Hv in Hc.
Qed.

(** ** What a service sees *)

(** The entries a call of [Start] has added. *)
Definition new_entries (rf rf' : Raft cmd) : list (CommandTerm cmd) := drop (length (log rf)) (log rf').

Lemma Start_entries (rf rf' : Raft cmd) c i t b :
  Start rf (Some c) = Ok (rf', (i, t, b)) → new_entries rf rf' = if b then [MkCT (Some c) t] else [].
Proof.
  unfold Start, new_entries. intros H. case_match; [simplify_eq; by rewrite drop_all|].
  case_match; [done|]. apply bind_Ok in H as (m & _ & H). simplify_eq/=. by rewrite drop_app_length.
Qed.

Lemma Start_applyCh (rf rf' : Raft cmd) c r : Start rf c = Ok (rf', r) → applyCh rf' = applyCh rf.
Proof.
  unfold Start. intros H. case_match; [by simplify_eq|]. case_match; [done|].
  apply bind_Ok in H as (m & _ & H). by simplify_eq.
Qed.

(** What a peer that starts on a disk sends first: nothing, or its snapshot. *)
Lemma Make_messages n m ps (rf : Raft cmd) : Make n m ps = Ok rf →
  applyCh rf = [] ∨ ∃ seqs rsm, applyCh rf = [MkApplyMsg false None 0 seqs rsm].
Proof.
  unfold Make. intros H. apply bind_Ok in H as (r1 & Hs & H). apply bind_Ok in H as (r2 & Hp & H).
  apply readPersist_fields in Hp as (Ea & _ & _).
  assert (applyCh rf = applyCh r1) as -> by (simplify_eq; by case_match).
  clear -Hs. unfold readSnapshotPersist in Hs. case_bool_decide; [simplify_eq; by left|].
  apply bind_Ok in Hs as ([[[seqs rsm] li] lt] & _ & Hs). case_match; simplify_eq/=; [by left|right; by eexists _, _].
Qed.

Lemma net_step_peer cl cl' i nd' : net_step cl cl' → zlookup (nodes cl') i = Some nd' →
  ∃ nd : node cmd, zlookup (nodes cl) i = Some nd ∧ applyCh (nd_rf nd) `prefix_of` applyCh (nd_rf nd').
Proof.
  intros Hn Hi. assert (len (nodes cl') = len (nodes cl)) as El by (destruct Hn; simpl; by rewrite ?len_insert).
  pose proof (zlookup_Some_lt _ _ _ Hi). destruct (zlookup_lt_Some (nodes cl) i) as [nd Hnd]; [lia|].
  exists nd. split; [done|]. destruct (net_step_applyCh _ _ _ _ Hn Hnd) as (nd2 & H2 & Hp). by simplify_eq.
Qed.

End cluster.
Arguments cluster : clear implicits.

(** ** A run of three peers *)

(** One step, after which the state is computed. *)
Ltac run_step tac := eapply rtc_l; [solve [tac]|vm_compute].
Ltac at_peer := vm_compute; reflexivity.
(** From a step of the network to one of the system that is run. *)
Ltac into_net := eapply cs_net.
Ltac run_local i tac := run_step ltac:(into_net; eapply (cs_local _ i); [at_peer|tac]).
(** Peer [i] becomes a candidate and asks for votes, or lets its election time out. *)
Ltac run_candidate i := run_local i ltac:(eapply st_candidate; at_peer).
Ltac run_ask i := run_step ltac:(into_net; eapply (cs_send_rv _ i); at_peer).
Ltac run_timeout i :=
  run_local i ltac:(eapply (st_cand_return _ _ _ _ _ _ _ i CTimeout); [done|at_peer..]).
(** Peer [j] handles the last request for a vote, and peer [i] the last answer, which makes it leader. *)
Ltac run_vote j := run_step ltac:(into_net; eapply (cs_RequestVote _ j); [at_peer|apply list_elem_of_here|done|at_peer]).
Ltac run_elected i j :=
  run_local i ltac:(eapply (st_cand_return _ _ _ _ _ _ _ j (CReply _));
    [simpl; split_and!; [lia..|set_solver|apply list_elem_of_here]|at_peer..]).
(** Peer [i] gets a command, and makes the requests that replicate it. *)
Ltac run_start i c := run_step ltac:(eapply (cs_Start _ i _ c); at_peer).
Ltac run_distribute i :=
  run_local i ltac:(eapply (st_distribute _ _ _ _ _ _ (λ _, [])); [intros ?? []%not_elem_of_nil|at_peer..]).
(** The request in flight number [k] of peer [i] is sent; the last request sent reaches peer [j]. *)
Ltac run_send i k :=
  run_step ltac:(into_net; eapply (cs_send_ae _ i); [at_peer|by apply (list_elem_of_lookup_2 _ k)|at_peer]).
Ltac run_append j := run_step ltac:(into_net; eapply (cs_AppendEntry _ j); [at_peer|apply list_elem_of_here|at_peer]).
(** The last answer to the request after those of [fs] reaches peer [i]: it is done, or tried
    again. *)
Ltac find_answer := first [apply list_elem_of_here|apply list_elem_of_further; find_answer].
Ltac answered :=
  intros ?? E; injection E as <- <-; split; [find_answer|intros ? []%not_elem_of_nil].
Ltac run_done i fs :=
  run_local i ltac:(eapply (st_flight_done _ _ _ _ fs _ _ _ (Some (_, []))); [answered|at_peer..]).
Ltac run_retry i fs :=
  run_local i ltac:(eapply (st_flight_retry _ _ _ _ fs _ _ _ (Some (_, []))); [answered|at_peer..]).

(** From the start: peer 0 is elected in term 1 by peer 1, gets a command and replicates it to
    peer 1. *)
Ltac run_first_entry :=
  run_candidate 0; run_timeout 0; run_candidate 0; run_ask 0; run_vote 1; run_elected 0 1;
  run_start 0 10; run_distribute 0; run_send 0 0%nat; run_append 1.

Lemma cluster_integrity_witness : ∃ cl0 cl nd, start_cluster (cmd := Z) 3 = Ok cl0 ∧
  rtc cluster_step cl0 cl ∧ zlookup (nodes cl) 0 = Some nd ∧
  applyCh (nd_rf nd) = [MkApplyMsg true (Some 10) 1 ∅ ∅] ∧ ∃ t, MkCT (Some 10) t ∈ started cl.
Proof.
  assert (∃ cl0 cl nd, start_cluster (cmd := Z) 3 = Ok cl0 ∧ rtc cluster_step cl0 cl ∧
    zlookup (nodes cl) 0 = Some nd ∧ applyCh (nd_rf nd) = [MkApplyMsg true (Some 10) 1 ∅ ∅])
    as (cl0 & cl & nd & H0 & Hr & Hi & Ha).
  { eexists _, _, _. split; [at_peer|]. split.
    { run_first_entry. run_done 0 uconstr:([]). apply rtc_refl. }
    split; at_peer. }
  exists cl0, cl, nd. split_and!; try done.
  eapply (cluster_integrity 3 cl0 cl 0 nd H0 Hr Hi); [rewrite Ha; apply list_elem_of_here|done..].
Defined.
