(* ===== verification/RaftRuns.v ===== *)
(** * Runs of three peers that end with different commands at one index. *)

From S2P Require Import Prelude RaftState RaftVote RaftAppend RaftLeader RaftRole RaftCluster.

(** What peer [i] delivered on its [applyCh]: the commands, each with its index. *)
Definition delivered {cmd} (cl : @cluster cmd) (i : Z) : option (list (Z * option cmd)) :=
  nd ← zlookup (nodes cl) i;
  Some (map (λ m, (CommandIndex m, ApplyCommand m)) (applyCh (nd_rf nd))).

(** Its term, and whether it takes itself for the leader. *)
Definition role_at {cmd} (cl : @cluster cmd) (i : Z) : option (Z * bool) :=
  nd ← zlookup (nodes cl) i; Some (GetState (nd_rf nd)).

(** What the cluster does while nobody crashes, restarts or takes a snapshot: the steps of peers and
    network, and new commands. *)
Inductive calm_step {cmd} (cl : @cluster cmd) : @cluster cmd → Prop :=
| calm_net cl' : net_step cl cl' → calm_step cl cl'
| calm_Start i nd c rf' index t isLeader :
    zlookup (nodes cl) i = Some nd → Start (nd_rf nd) (Some c) = Ok (rf', (index, t, isLeader)) →
    calm_step cl (add_started (if isLeader then [MkCT (Some c) t] else [])
                    (set_node i (with_rf nd rf') cl)).

Lemma calm_cluster {cmd} (cl cl' : @cluster cmd) : calm_step cl cl' → cluster_step cl cl'.
Proof. destruct 1; [by apply cs_net|by eapply cs_Start]. Qed.

(** Nobody has been told to end. *)
Definition all_run {cmd} (cl : @cluster cmd) : bool := forallb (λ nd, negb (exitFlag (nd_rf nd))) (nodes cl).

Section calm.
Ltac into_net ::= eapply calm_net.
Ltac run_start i c ::= run_step ltac:(eapply (calm_Start _ i _ c); at_peer).

(** C18. There is a run of three new peers without crashes, restarts or snapshots after which two of
    them take themselves for the leader of term 2 and have handed their services different commands
    at one index (index 2), after the same one at index 1. *)
Theorem cluster_disagrees : ∃ cl0 cl, start_cluster (cmd := Z) 3 = Ok cl0 ∧
  rtc calm_step cl0 cl ∧ all_run cl = true ∧
  role_at cl 0 = Some (2, true) ∧ role_at cl 1 = Some (2, true) ∧
  delivered cl 0 = Some [(1, Some 10); (2, Some 20)] ∧
  delivered cl 1 = Some [(1, Some 10); (2, Some 30)].
Proof.
  eexists _, _. split; [at_peer|]. split.
  { (* one entry is on peers 0 and 1 *)
    run_first_entry.
    (* all three stand for election in term 2 *)
    run_local 0 ltac:(apply st_leader_timeout). run_candidate 0.
    run_candidate 1. run_timeout 1. run_candidate 1.
    run_candidate 2. run_timeout 2. run_candidate 2. run_timeout 2. run_candidate 2.
    (* peer 2, whose log is behind, votes for both others *)
    run_ask 0. run_vote 2. run_elected 0 2. run_ask 1. run_vote 2. run_elected 1 2.
    run_start 0 20. run_start 1 30.
    (* peer 0 brings peer 2 up to date and commits *)
    run_distribute 0. run_send 0 3%nat. run_append 2. run_retry 0 uconstr:([_; _; _]).
    run_send 0 3%nat. run_append 2. run_done 0 uconstr:([_; _; _]).
    run_distribute 0. run_send 0 4%nat. run_append 2. run_done 0 uconstr:([_; _; _; _]).
    (* peer 1 overwrites the entry there with its own, and commits that *)
    run_distribute 1. run_send 1 1%nat. run_append 2. run_done 1 uconstr:([_]). apply rtc_refl. }
  split_and!; at_peer.
Qed.
End calm.

(** The heartbeat timer of leader [i]. *)
Ltac run_heartbeat i := run_local i ltac:(eapply st_heartbeat; at_peer).

(** One leader in every term is not enough either.  Peer 0 role_at term 2 with entries that nobody
    else has.  Of two requests that peer 2 refused, one was answered at once and made the leader
    go back; the late answer to the other one moves [nextIndex] up again, just before the answer
    that accepts the first entry.  The leader takes [nextIndex - 1] for what the peer has, and
    commits entry 2, which only it has.  Peer 2 is elected in term 3 and commits another one. *)
Theorem cluster_commits_on_minority : ∃ cl0 cl, start_cluster (cmd := Z) 3 = Ok cl0 ∧ rtc cluster_step cl0 cl ∧
  delivered cl 0 = Some [(1, Some 10); (2, Some 11)] ∧
  delivered cl 2 = Some [(1, Some 10); (2, Some 99)].
Proof.
  eexists _, _. split; [at_peer|]. split.
  { (* peer 0 role_at term 1, then term 2 *)
    run_candidate 0. run_timeout 0. run_candidate 0. run_ask 0. run_vote 1. run_elected 0 1.
    run_start 0 10. run_start 0 11. run_start 0 12.
    run_local 0 ltac:(apply st_leader_timeout). run_candidate 0.
    run_ask 0. run_vote 1. run_elected 0 1. run_start 0 13.
    (* two requests to peer 2, both refused *)
    run_distribute 0. run_heartbeat 0. run_distribute 0.
    run_send 0 1%nat. run_append 2. run_send 0 3%nat. run_append 2.
    (* the first one goes back twice, and a third request starts there *)
    run_retry 0 uconstr:([_]). run_send 0 1%nat. run_append 2. run_retry 0 uconstr:([_]).
    run_heartbeat 0. run_distribute 0. run_send 0 5%nat. run_append 2.
    run_retry 0 uconstr:([_; _; _; _; _]). run_send 0 5%nat. run_append 2.
    (* the late refusal, then the acceptance *)
    run_retry 0 uconstr:([_; _; _]). run_done 0 uconstr:([_; _; _; _; _]).
    (* peer 2 role_at term 3 *)
    run_candidate 2. run_timeout 2. run_candidate 2. run_ask 2. run_vote 1. run_elected 2 1.
    run_start 2 99. run_distribute 2. run_send 2 1%nat. run_append 1.
    run_retry 2 uconstr:([_]). run_send 2 1%nat. run_append 1. run_done 2 uconstr:([_]).
    run_distribute 2. run_send 2 2%nat. run_append 1. run_done 2 uconstr:([_; _]). apply rtc_refl. }
  split_and!; at_peer.
Qed.

(** A snapshot taken while a request is in flight.  Peer 0 has committed entries 1 to 4 and is
    elected again in term 2; its heartbeat goes back to the first entry for peer 2, which has
    nothing.  Before the answer arrives its service has entries 1 to 3 put in a snapshot.  The
    retry starts from index 1, which the log no longer has: [getTrueIndex] gives 0, so entry 4 is
    sent as entry 2, and peer 2 delivers it there.  No term has two leaders and nothing is lost. *)
Theorem cluster_snapshot_shifts_entries : ∃ cl0 cl, start_cluster (cmd := Z) 3 = Ok cl0 ∧
  rtc cluster_step cl0 cl ∧
  delivered cl 0 = Some [(1, Some 10); (2, Some 11); (3, Some 12); (4, Some 13)] ∧
  delivered cl 2 = Some [(1, Some 10); (2, Some 13)].
Proof.
  eexists _, _. split; [at_peer|]. split.
  { (* peers 0 and 1 have four entries, which peer 0 commits *)
    run_candidate 0. run_timeout 0. run_candidate 0. run_ask 0. run_vote 1. run_elected 0 1.
    run_start 0 10. run_start 0 11. run_start 0 12. run_start 0 13.
    run_distribute 0. run_send 0 0%nat. run_append 1. run_done 0 uconstr:([]).
    (* term 2: the heartbeat for peer 2 is refused until it starts at the first entry *)
    run_local 0 ltac:(apply st_leader_timeout). run_candidate 0.
    run_ask 0. run_vote 1. run_elected 0 1. run_distribute 0.
    do 4 (run_send 0 2%nat; run_append 2; run_retry 0 uconstr:([_; _])).
    run_send 0 2%nat. run_append 2.
    (* the snapshot, and the retries *)
    run_step ltac:(eapply (cs_TakeSnapshots _ 0 _ ∅ ∅ 4); at_peer).
    do 2 (run_retry 0 uconstr:([_; _]); run_send 0 2%nat; run_append 2). apply rtc_refl. }
  split_and!; at_peer.
Qed.
