(* ===== verification/Session.v ===== *)
(** * Replicated services with client sessions: the interface [kvraft/server.go] and
    [shardmaster/server.go] share.

    Both services apply the committed log to a state that remembers, per client, the
    largest request number applied, and skip what it covers.  The class [Session]
    states the three laws of that scheme; what follows from them (replaying a covered
    part of the log is harmless, retried requests take effect once) is proved once and
    used for both services.  Instances: [KvServer.kv_session],
    [ShardMaster.sm_session]. *)

From S2P Require Import Prelude.

Class Session (St Op : Type) `{Equiv St} := {
  sess_apply : St → Op → St;
  covered : St → Op → Prop;
  sess_equivalence :: Equivalence (≡@{St});
  sess_apply_proper :: Proper ((≡) ==> (=) ==> (≡)) sess_apply;
  covered_proper :: Proper ((≡) ==> (=) ==> iff) covered;
  (** A covered request changes nothing. *)
  covered_noop s op : covered s op → sess_apply s op ≡ s;
  (** A request is covered once it was applied. *)
  covered_self s op : covered (sess_apply s op) op;
  (** Coverage is never lost. *)
  covered_mono s op op' : covered s op → covered (sess_apply s op') op;
}.

Section session.
Context {St Op : Type} `{HS : Session St Op}.
Implicit Types (s : St) (op : Op) (l : list Op).

(** The state after a log. *)
Definition run s l : St := foldl sess_apply s l.

#[export] Instance run_proper : Proper ((≡) ==> (=) ==> (≡)) run.
Proof.
  intros s s' Hs l ? <-. revert s s' Hs.
  induction l as [|op l IH]; intros s s' Hs; simpl; [done|]. apply IH. by rewrite Hs.
Qed.

Lemma run_app s l1 l2 : run s (l1 ++ l2) = run (run s l1) l2.
Proof. apply foldl_app. Qed.

Lemma run_snoc s l op : run s (l ++ [op]) = sess_apply (run s l) op.
Proof. by rewrite run_app. Qed.

Lemma run_mono s l op : covered s op → covered (run s l) op.
Proof. revert s. induction l as [|op' l IH]; intros s Hc; simpl; auto using covered_mono. Qed.

Lemma run_covers s l op : op ∈ l → covered (run s l) op.
Proof.
  intros (l1 & l2 & ->)%list_elem_of_split. rewrite run_app. simpl. apply run_mono, covered_self.
Qed.

Lemma run_covered s l : (∀ op, op ∈ l → covered s op) → run s l ≡ s.
Proof.
  induction l as [|op l IH]; simpl; intros Hc; [done|].
  rewrite covered_noop by (apply Hc; by left). apply IH. intros. apply Hc. by right.
Qed.

(** Replaying a stretch [l2] of the log that the state already contains, as a restart
    from a snapshot labelled too low does, gives the state of the whole log. *)
Lemma run_replay s l1 l2 l3 : run (run s (l1 ++ l2)) (l2 ++ l3) ≡ run s (l1 ++ l2 ++ l3).
Proof.
  rewrite !run_app. rewrite (run_covered (run (run s l1) l2) l2); [done|].
  intros op Hop. by apply run_covers.
Qed.

(** A retried request, logged twice, takes effect once. *)
Lemma run_retry s l1 op l2 l3 :
  run s (l1 ++ op :: l2 ++ op :: l3) ≡ run s (l1 ++ op :: l2 ++ l3).
Proof.
  rewrite !run_app. simpl. rewrite !run_app. simpl.
  rewrite covered_noop by apply run_mono, covered_self. done.
Qed.

(** Keep the first copy of every request. *)
Fixpoint firsts `{EqDecision Op} (seen l : list Op) : list Op :=
  match l with
  | [] => []
  | op :: l => if decide (op ∈ seen) then firsts seen l else op :: firsts (op :: seen) l
  end.

Lemma firsts_sub `{EqDecision Op} seen l op : op ∈ firsts seen l → op ∈ l.
Proof.
  revert seen. induction l as [|op' l IH]; intros seen; simpl; [done|]. case_decide.
  - intros Hin%IH. by right.
  - intros [->|Hin%IH]%elem_of_cons; [by left|by right].
Qed.

(** Whatever retries a log contains, its effect is that of the log with the first copy
    of every request only. *)
Lemma run_firsts `{EqDecision Op} s seen l :
  (∀ op, op ∈ seen → covered s op) → run s l ≡ run s (firsts seen l).
Proof.
  revert s seen. induction l as [|op l IH]; intros s seen Hc; simpl; [done|].
  case_decide as Hin.
  - rewrite covered_noop by auto. by apply IH.
  - simpl. apply IH. intros op' [->|Hop']%elem_of_cons; auto using covered_self, covered_mono.
Qed.
End session.

#[export] Hint Resolve covered_self covered_mono run_covers : go.
