(* ===== verification/KvServer.v ===== *)
(** * The key/value server: [kvraft/server.go] and [kvraft/common.go].

    The server applies what its Raft peer delivers ([mainProcess]), answers [Get] and
    [PutAppend] by waiting for the command it started to be applied, and hands the
    contents of its maps to [TakeSnapshots] in a goroutine of its own.  The handlers are
    modelled up to their wait loop, and the loop by the states of the server it polls.
    The goroutine shares the server's maps: a pending one is [Shared] until the server
    replaces its maps by those of an installed snapshot, and keeps the old ones after. *)

From S2P Require Import Prelude RaftState Session.

(** ** Data *)

Inductive OpType := GetType | PutType | AppendType.

Record Op := MkOp {
  ClientID : Z;        (** [int32] *)
  ProposalID : Z;
  Optype : OpType;
  Key : string;
  Value : string;
}.

#[export] Instance OpType_eq_dec : EqDecision OpType.
Proof. solve_decision. Defined.
#[export] Instance Op_eq_dec : EqDecision Op.
Proof. solve_decision. Defined.

Record PutAppendArgs := MkPAArgs {
  PAKey : string;
  PAValue : string;
  PAOp : string;       (** ["Put"] or ["Append"] *)
  PAClientID : Z;
  PACommSeq : Z;
}.
Record PutAppendReply := MkPAReply { PAWrongLeader : bool; PAErr : string }.
Record GetArgs := MkGetArgs { GetClientID : Z; GetCommSeq : Z; GetKey : string }.
Record GetReply := MkGetReply { GetWrongLeader : bool; GetErr : string; GetValue : string }.

Record KVServer := MkKV {
  kv_me : Z;
  kv_rf : Raft Op;
  maxraftstate : Z;
  kv_rsm : gmap string string;
  curCommitIndex : Z;
  kv_ClientMaxRequestSeq : gmap Z Z;
  resultMap : gmap Z string;
}.

Definition set_rf (rf : Raft Op) (kv : KVServer) : KVServer :=
  MkKV (kv_me kv) rf (maxraftstate kv) (kv_rsm kv) (curCommitIndex kv)
    (kv_ClientMaxRequestSeq kv) (resultMap kv).
Definition set_maps (seqs : gmap Z Z) (rsm : gmap string string) (kv : KVServer) : KVServer :=
  MkKV (kv_me kv) (kv_rf kv) (maxraftstate kv) rsm (curCommitIndex kv) seqs (resultMap kv).
Definition set_curCommitIndex (i : Z) (kv : KVServer) : KVServer :=
  MkKV (kv_me kv) (kv_rf kv) (maxraftstate kv) (kv_rsm kv) i (kv_ClientMaxRequestSeq kv) (resultMap kv).
Definition set_resultMap (m : gmap Z string) (kv : KVServer) : KVServer :=
  MkKV (kv_me kv) (kv_rf kv) (maxraftstate kv) (kv_rsm kv) (curCommitIndex kv)
    (kv_ClientMaxRequestSeq kv) m.

(** [int64(clientID)<<32 + int64(proposalID)] *)
Definition commID (clientID proposalID : Z) : Z :=
  i64 (i64 (Z.shiftl clientID 32) + proposalID).

(** A read of [ClientMaxRequestSeq]: 0 when the client is unknown. *)
Definition maxSeq (m : gmap Z Z) (c : Z) : Z := default 0 (m !! c).

(** ** [mainProcess] *)

(** The [switch] on the type of the command. *)
Definition apply_op (kv : KVServer) (op : Op) : KVServer :=
  let repeated := ProposalID op <=? maxSeq (kv_ClientMaxRequestSeq kv) (ClientID op) in
  let seqs := <[ClientID op := ProposalID op]> (kv_ClientMaxRequestSeq kv) in
  match Optype op with
  | GetType =>
      set_resultMap (<[commID (ClientID op) (ProposalID op) :=
                        default EmptyString (kv_rsm kv !! Key op)]> (resultMap kv)) kv
  | PutType =>
      if repeated then kv else set_maps seqs (<[Key op := Value op]> (kv_rsm kv)) kv
  | AppendType =>
      if repeated then kv else
      set_maps seqs (<[Key op := match kv_rsm kv !! Key op with
                                 | Some v => v +:+ Value op
                                 | None => Value op
                                 end]> (kv_rsm kv)) kv
  end.

Inductive job_maps :=
| Shared
| Own (seqs : gmap Z Z) (rsm : gmap string string).

(** A pending [go kv.rf.TakeSnapshots(maps, index, lock)]. *)
Record snap_job := MkJob { job_index : Z; job_maps_of : job_maps }.

(** A server with its pending snapshot goroutines. *)
Record kvnode := MkKN { kn_kv : KVServer; kn_jobs : list snap_job }.

(** The maps are replaced: pending goroutines keep the old ones. *)
Definition detach (kv : KVServer) (j : snap_job) : snap_job :=
  match job_maps_of j with
  | Shared => MkJob (job_index j) (Own (kv_ClientMaxRequestSeq kv) (kv_rsm kv))
  | Own _ _ => j
  end.

Section server.
(** The number of bytes of an encoded Raft state. *)
Variable raftStateSize : gobbytes Op → Z.

Definition GetRaftStateSize (rf : Raft Op) : Z := raftStateSize (ReadRaftState (persister rf)).

(** One round of the loop; a message without a command is a snapshot, a command that
    is not an [Op] fails the type assertion. *)
Definition mainProcess (nd : kvnode) (msg : ApplyMsg Op) : outcome kvnode :=
  let kv := kn_kv nd in
  if negb (CommandValid msg) then
    Ok (MkKN (set_maps (ClientMaxRequestSeq msg) (Rsm msg) kv) (detach kv <$> kn_jobs nd))
  else
  let commIndex := CommandIndex msg in
  commOp ← must (ApplyCommand msg);
  let kv := apply_op kv commOp in
  let kv := if curCommitIndex kv <? commIndex then set_curCommitIndex commIndex kv else kv in
  let snap := negb (maxraftstate kv =? -1)
              && (maxraftstate kv <? GetRaftStateSize (kv_rf kv) + 2) in
  Ok (MkKN kv (if snap then kn_jobs nd ++ [MkJob (CommandIndex msg) Shared] else kn_jobs nd)).

Fixpoint mainProcess_all (nd : kvnode) (msgs : list (ApplyMsg Op)) : outcome kvnode :=
  match msgs with
  | [] => Ok nd
  | msg :: msgs => nd ← mainProcess nd msg; mainProcess_all nd msgs
  end.

(** The goroutine runs: it encodes what its maps contain then. *)
Definition run_job (kv : KVServer) (j : snap_job) : outcome KVServer :=
  let '(seqs, rsm) := match job_maps_of j with
                      | Shared => (kv_ClientMaxRequestSeq kv, kv_rsm kv)
                      | Own seqs rsm => (seqs, rsm)
                      end in
  rf ← TakeSnapshots (kv_rf kv) seqs rsm (job_index j);
  Ok (set_rf rf kv).

(** [StartKVServer]: the peer is made after [mainProcess] was started, which receives
    what [Make] sends on [applyCh] (the saved snapshot). *)
Definition StartKVServer (nservers me : Z) (ps : Persister Op) (maxraftstate : Z) : outcome kvnode :=
  rf ← Make nservers me ps;
  mainProcess_all (MkKN (MkKV me rf maxraftstate ∅ 0 ∅ ∅) []) (applyCh rf).

End server.

Definition KvKill (kv : KVServer) : KVServer := set_rf (Kill (kv_rf kv)) kv.

(** ** The handlers *)

(** [IsLeader] writes its answer into its first parameter, which is the request; the
    second one, which is sent back, is left alone. *)
Definition IsLeader (kv : KVServer) (reply reply2 : GetReply) : GetReply * GetReply :=
  (MkGetReply (negb (GetLeaderNum (kv_rf kv) =? kv_me kv)) (GetErr reply) (GetValue reply), reply2).

(** [Get] up to its loop: a reply, or the identifier it waits for. *)
Definition Get_begin (kv : KVServer) (args : GetArgs) : outcome (KVServer * (GetReply + Z)) :=
  if negb (GetLeaderNum (kv_rf kv) =? kv_me kv)
  then Ok (kv, inl (MkGetReply true EmptyString EmptyString)) else
  let comm := MkOp (GetClientID args) (GetCommSeq args) GetType (GetKey args) EmptyString in
  '(rf, _) ← Start (kv_rf kv) (Some comm);
  Ok (set_rf rf kv, inr (commID (ClientID comm) (ProposalID comm))).

(** The loop over the server states it polls; [None] while it waits. *)
Fixpoint Get_wait (id : Z) (polls : list KVServer) : option GetReply :=
  match polls with
  | [] => None
  | kv :: polls =>
      if negb (GetLeaderNum (kv_rf kv) =? kv_me kv)
      then Some (MkGetReply true EmptyString EmptyString) else
      match resultMap kv !! id with
      | Some v => Some (MkGetReply false EmptyString v)
      | None => Get_wait id polls
      end
  end.

Definition pa_op (args : PutAppendArgs) : Op :=
  MkOp (PAClientID args) (PACommSeq args)
    (if bool_decide (PAOp args = "Put"%string) then PutType else AppendType)
    (PAKey args) (PAValue args).

(** [PutAppend] before [Start]: registers the client; [false] to answer wrong leader. *)
Definition PutAppend_check (kv : KVServer) (args : PutAppendArgs) : KVServer * bool :=
  let leaderNum := GetLeaderNum (kv_rf kv) in
  let seqs := match kv_ClientMaxRequestSeq kv !! PAClientID args with
              | None => <[PAClientID args := 0]> (kv_ClientMaxRequestSeq kv)
              | Some _ => kv_ClientMaxRequestSeq kv
              end in
  (set_maps seqs (kv_rsm kv) kv, leaderNum =? kv_me kv).

(** [Start]: the index to wait for. *)
Definition PutAppend_start (kv : KVServer) (args : PutAppendArgs) : outcome (KVServer * Z) :=
  '(rf, (index, _, _)) ← Start (kv_rf kv) (Some (pa_op args));
  Ok (set_rf rf kv, index).

Fixpoint PutAppend_wait (index : Z) (polls : list KVServer) : option PutAppendReply :=
  match polls with
  | [] => None
  | kv :: polls =>
      if negb (GetLeaderNum (kv_rf kv) =? kv_me kv) then Some (MkPAReply true EmptyString) else
      if index <=? curCommitIndex kv then Some (MkPAReply false EmptyString)
      else PutAppend_wait index polls
  end.

(** ** The replicated state *)

(** What a snapshot consists of. *)
Record kvstate := MkKS { ks_seqs : gmap Z Z; ks_rsm : gmap string string }.

(** An unknown client and one registered with number 0 are the same. *)
#[export] Instance kvstate_equiv : Equiv kvstate := λ s1 s2,
  (∀ c, maxSeq (ks_seqs s1) c = maxSeq (ks_seqs s2) c) ∧ ks_rsm s1 = ks_rsm s2.

#[export] Instance kvstate_equivalence : Equivalence (≡@{kvstate}).
Proof.
  split.
  - by intros [].
  - intros s1 s2 [Hs Hr]. split; [intros c; by rewrite Hs|done].
  - intros s1 s2 s3 [Hs Hr] [Hs' Hr']. split; [intros c; by rewrite Hs|by rewrite Hr].
Qed.

Definition ks_apply (s : kvstate) (op : Op) : kvstate :=
  let repeated := ProposalID op <=? maxSeq (ks_seqs s) (ClientID op) in
  let seqs := <[ClientID op := ProposalID op]> (ks_seqs s) in
  match Optype op with
  | GetType => s
  | PutType => if repeated then s else MkKS seqs (<[Key op := Value op]> (ks_rsm s))
  | AppendType =>
      if repeated then s else
      MkKS seqs (<[Key op := default EmptyString (ks_rsm s !! Key op) +:+ Value op]> (ks_rsm s))
  end.

Definition ks_covered (s : kvstate) (op : Op) : Prop :=
  Optype op = GetType ∨ ProposalID op ≤ maxSeq (ks_seqs s) (ClientID op).

Lemma maxSeq_insert m c v c' :
  maxSeq (<[c := v]> m) c' = if decide (c = c') then v else maxSeq m c'.
Proof.
  unfold maxSeq. case_decide as Hc; [subst; by rewrite lookup_insert_eq|by rewrite lookup_insert_ne].
Qed.

(** The request numbers after one command. *)
Lemma ks_apply_seq s op c :
  maxSeq (ks_seqs (ks_apply s op)) c =
  if decide (Optype op ≠ GetType ∧ ClientID op = c)
  then Z.max (ProposalID op) (maxSeq (ks_seqs s) c) else maxSeq (ks_seqs s) c.
Proof.
  unfold ks_apply.
  destruct (Optype op) eqn:E; destruct (Z.leb_spec (ProposalID op) (maxSeq (ks_seqs s) (ClientID op)));
    simpl; rewrite ?maxSeq_insert; repeat case_decide; naive_solver lia.
Qed.

#[export] Program Instance kv_session : Session kvstate Op := {
  sess_apply := ks_apply;
  covered := ks_covered;
}.
Next Obligation.
  intros s1 s2 [Hs Hr] op ? <-. unfold ks_apply. rewrite Hs, Hr.
  destruct (Optype op); [done|..]; case_match; try done; split; simpl; try done;
    intros c; rewrite !maxSeq_insert; by case_decide.
Qed.
Next Obligation. intros s1 s2 [Hs Hr] op ? <-. unfold ks_covered. by rewrite Hs. Qed.
Next Obligation.
  intros s op [Hg|Hle]; unfold ks_apply; [by rewrite Hg|].
  apply Z.leb_le in Hle. rewrite Hle. by destruct (Optype op).
Qed.
Next Obligation.
  intros s op. unfold ks_covered. rewrite ks_apply_seq.
  destruct (Optype op); [by left|..]; right; rewrite decide_True by done; lia.
Qed.
Next Obligation.
  intros s op op' [Hg|Hle]; [by left|right]. rewrite ks_apply_seq. case_decide; lia.
Qed.

#[export] Instance ks_apply_proper : Proper ((≡) ==> (=) ==> (≡)) ks_apply :=
  sess_apply_proper (Session := kv_session).
#[export] Instance ks_covered_proper : Proper ((≡) ==> (=) ==> iff) ks_covered :=
  covered_proper (Session := kv_session).

(** The replicated part of a server. *)
Definition state_of (kv : KVServer) : kvstate := MkKS (kv_ClientMaxRequestSeq kv) (kv_rsm kv).

Lemma apply_op_state kv op : state_of (apply_op kv op) = ks_apply (state_of kv) op.
Proof.
  unfold apply_op, ks_apply, state_of. destruct (Optype op); simpl; try done; case_match; try done.
  simpl. by destruct (kv_rsm kv !! Key op).
Qed.

Lemma PutAppend_check_state kv args : state_of (fst (PutAppend_check kv args)) ≡ state_of kv.
Proof.
  unfold PutAppend_check. split; simpl; [|done]. intros c.
  destruct (kv_ClientMaxRequestSeq kv !! PAClientID args) eqn:E; [done|].
  rewrite maxSeq_insert. case_decide as Hc; [|done]. subst. unfold maxSeq. by rewrite E.
Qed.

(** ** Replicas *)
Section replicas.
Variable raftStateSize : gobbytes Op → Z.
(** The committed log: the command with index [i] is entry [i - 1]. *)
Variable L : list Op.

Definition kv_init : kvstate := MkKS ∅ ∅.

(** The state after the commands with index at most [j]. *)
Definition at_index (j : Z) : kvstate := run kv_init (take (Z.to_nat j) L).

(** A snapshot labelled [i] may hold the effect of later commands as well. *)
Definition good_snap (s : kvstate) (i : Z) : Prop :=
  ∃ j, 0 ≤ i ≤ j ∧ j ≤ len L ∧ s ≡ at_index j.

Definition good_bytes (d : gobbytes Op) : Prop :=
  d = [] ∨ ∃ seqs rsm i t, d = [GSeqs seqs; GRsm rsm; GInt i; GInt t] ∧ good_snap (MkKS seqs rsm) i.

(** A server and the index of the last command it was handed. *)
Inductive kv_step : kvnode * Z → kvnode * Z → Prop :=
| kv_command nd idx op nd' :
    zlookup L idx = Some op →
    mainProcess raftStateSize nd (MkApplyMsg true (Some op) (idx + 1) ∅ ∅) = Ok nd' →
    kv_step (nd, idx) (nd', idx + 1)
| kv_install kv jobs idx rf' seqs rsm label t nd' :
    (* the peer installs a snapshot another replica made *)
    idx ≤ label → good_snap (MkKS seqs rsm) label →
    snapshot (persister rf') = [GSeqs seqs; GRsm rsm; GInt label; GInt t] →
    mainProcess raftStateSize (MkKN (set_rf rf' kv) jobs) (MkApplyMsg false None 0 seqs rsm) = Ok nd' →
    kv_step (MkKN kv jobs, idx) (nd', label)
| kv_raft kv jobs idx rf' :
    (* the peer does anything that leaves the saved snapshot alone *)
    snapshot (persister rf') = snapshot (persister (kv_rf kv)) →
    kv_step (MkKN kv jobs, idx) (MkKN (set_rf rf' kv) jobs, idx)
| kv_job kv js1 j js2 idx kv' :
    run_job kv j = Ok kv' →
    kv_step (MkKN kv (js1 ++ j :: js2), idx) (MkKN kv' (js1 ++ js2), idx)
| kv_get kv jobs idx args kv' r :
    Get_begin kv args = Ok (kv', r) → kv_step (MkKN kv jobs, idx) (MkKN kv' jobs, idx)
| kv_check kv jobs idx args kv' b :
    PutAppend_check kv args = (kv', b) → kv_step (MkKN kv jobs, idx) (MkKN kv' jobs, idx)
| kv_start kv jobs idx args kv' i :
    PutAppend_start kv args = Ok (kv', i) → kv_step (MkKN kv jobs, idx) (MkKN kv' jobs, idx)
| kv_restart nd idx n me max nd' :
    StartKVServer raftStateSize n me (persister (kv_rf (kn_kv nd))) max = Ok nd' →
    kv_step (nd, idx) (nd', lastIndexInSnapshot (kv_rf (kn_kv nd'))).

Definition job_ok (idx : Z) (j : snap_job) : Prop :=
  match job_maps_of j with
  | Shared => job_index j ≤ idx
  | Own seqs rsm => ∃ k, job_index j ≤ k ≤ len L ∧ MkKS seqs rsm ≡ at_index k
  end.

(** A stored result is the value of the key at a position of the log that is not
    before the entry of the [Get]. *)
Definition result_ok (id : Z) (v : string) : Prop :=
  ∃ k j op, zlookup L k = Some op ∧ Optype op = GetType ∧
    commID (ClientID op) (ProposalID op) = id ∧ k ≤ j ≤ len L ∧
    v = default EmptyString (ks_rsm (at_index j) !! Key op).

(** What the server holds in memory. *)
Record kv_mem (nd : kvnode) (idx : Z) : Prop := {
  km_idx : 0 ≤ idx;
  km_state : ∃ j, idx ≤ j ≤ len L ∧ state_of (kn_kv nd) ≡ at_index j;
  km_jobs : Forall (job_ok idx) (kn_jobs nd);
  km_results : map_Forall result_ok (resultMap (kn_kv nd));
}.

Record kv_inv (nd : kvnode) (idx : Z) : Prop := {
  ki_mem : kv_mem nd idx;
  ki_cur : curCommitIndex (kn_kv nd) ≤ idx;
  ki_disk : good_bytes (snapshot (persister (kv_rf (kn_kv nd))));
}.

Lemma at_index_snoc j op : zlookup L j = Some op → at_index (j + 1) = ks_apply (at_index j) op.
Proof.
  intros Hj. pose proof (zlookup_Some_lt _ _ _ Hj). unfold at_index.
  replace (Z.to_nat (j + 1)) with (S (Z.to_nat j)) by lia.
  unfold zlookup in Hj. rewrite decide_True in Hj by lia.
  rewrite (take_S_r _ _ op) by done. apply (run_snoc (HS := kv_session)).
Qed.

Lemma at_index_covers k op j :
  zlookup L k = Some op → k < j → ks_covered (at_index j) op.
Proof.
  intros Hk Hj. pose proof (zlookup_Some_lt _ _ _ Hk).
  apply (run_covers (HS := kv_session)), list_elem_of_lookup. exists (Z.to_nat k).
  unfold zlookup in Hk. rewrite decide_True in Hk by lia. rewrite lookup_take_lt; [done|lia].
Qed.

(** Applying command [idx + 1] to a state at position [j >= idx]. *)
Lemma at_index_apply idx j s op :
  zlookup L idx = Some op → idx ≤ j ≤ len L → s ≡ at_index j →
  ∃ j', idx + 1 ≤ j' ≤ len L ∧ ks_apply s op ≡ at_index j'.
Proof.
  intros Hi Hj Hs. pose proof (zlookup_Some_lt _ _ _ Hi).
  destruct (decide (j = idx)) as [->|].
  - exists (idx + 1). split; [lia|]. rewrite (at_index_snoc _ op) by done.
    by rewrite Hs.
  - exists j. split; [lia|]. rewrite Hs.
    apply (covered_noop (Session := kv_session)). apply (at_index_covers idx); [done|lia].
Qed.

Lemma TakeSnapshots_bytes (rf rf' : Raft Op) seqs rsm index :
  TakeSnapshots rf seqs rsm index = Ok rf' →
  snapshot (persister rf') = snapshot (persister rf) ∨
  0 ≤ index - 1 ∧ ∃ t, snapshot (persister rf') = [GSeqs seqs; GRsm rsm; GInt (index - 1); GInt t].
Proof.
  unfold TakeSnapshots. intros H. destruct (Z.ltb_spec (index - 1) 1); simpl in H; [go_inv; by left|].
  case_match; [go_inv; by left|]. apply bind_Ok in H as (e & _ & H). case_match; [|go_inv; by left].
  apply bind_Ok in H as (l & _ & H). go_inv. simpl. right. eauto with lia.
Qed.

Lemma Start_snapshot (rf rf' : Raft Op) c r :
  Start rf c = Ok (rf', r) → snapshot (persister rf') = snapshot (persister rf).
Proof.
  unfold Start. intros H. case_match; [by simplify_eq|]. case_match; [done|].
  apply bind_Ok in H as (m & _ & H). by simplify_eq.
Qed.

Lemma job_ok_mono idx idx' j : idx ≤ idx' → job_ok idx j → job_ok idx' j.
Proof. unfold job_ok. intros. destruct (job_maps_of j); [lia|done]. Qed.

Lemma mem_command nd idx op nd' :
  kv_mem nd idx → zlookup L idx = Some op →
  mainProcess raftStateSize nd (MkApplyMsg true (Some op) (idx + 1) ∅ ∅) = Ok nd' →
  kv_mem nd' (idx + 1).
Proof.
  intros [Hi (j & Hj & Hs) Hjobs Hr] Hop H. unfold mainProcess in H. simpl in H. go_inv.
  set (kv1 := apply_op (kn_kv nd) op).
  assert (Hres : map_Forall result_ok (resultMap kv1)).
  { unfold kv1, apply_op. destruct (Optype op) eqn:E; [|case_match; done..]. simpl.
    apply map_Forall_insert_2; [|done]. exists idx, j, op. split_and!; try done; [lia|lia|].
    destruct Hs as [_ Hs]. simpl in Hs. by rewrite Hs. }
  set (kv2 := if curCommitIndex kv1 <? idx + 1 then _ else kv1).
  assert (state_of kv2 = state_of kv1 ∧ resultMap kv2 = resultMap kv1) as [Es Er]
    by (unfold kv2; by case_match).
  split; cbn [kn_kv kn_jobs]; [lia| | |by rewrite Er].
  - rewrite Es. unfold kv1. rewrite apply_op_state. by apply (at_index_apply idx j).
  - assert (Forall (job_ok (idx + 1)) (kn_jobs nd)).
    { eapply Forall_impl; [apply Hjobs|]. intros. eapply job_ok_mono; [|done]. lia. }
    case_match; [|done]. apply Forall_app_2; [done|]. apply Forall_singleton. unfold job_ok. simpl. lia.
Qed.

Lemma mem_install nd idx seqs rsm label nd' :
  kv_mem nd idx → good_snap (MkKS seqs rsm) label →
  mainProcess raftStateSize nd (MkApplyMsg false None 0 seqs rsm) = Ok nd' → kv_mem nd' label.
Proof.
  intros [Hi (j & Hj & Hs) Hjobs Hr] (k & Hk & Hk' & Hg) H. unfold mainProcess in H. simpl in H. go_inv.
  split; simpl; try done; [lia|exists k; split; [lia|done]|].
  apply Forall_fmap. eapply Forall_impl; [apply Hjobs|]. intros [i [|sq rs]] Hok; simpl in *; [|done].
  unfold job_ok in *. simpl in *. exists j. split; [lia|apply Hs].
Qed.

(** The contents of the snapshot of a goroutine that runs now. *)
Lemma mem_job_contents nd idx j seqs rsm :
  kv_mem nd idx → j ∈ kn_jobs nd →
  match job_maps_of j with
  | Shared => (kv_ClientMaxRequestSeq (kn_kv nd), kv_rsm (kn_kv nd))
  | Own seqs rsm => (seqs, rsm)
  end = (seqs, rsm) →
  0 ≤ job_index j - 1 → good_snap (MkKS seqs rsm) (job_index j - 1).
Proof.
  intros [Hi (k & Hk & Hs) Hjobs Hr] Hj Em Hpos. rewrite Forall_forall in Hjobs.
  specialize (Hjobs j Hj). unfold job_ok in Hjobs. destruct (job_maps_of j) as [|sq rs]; simplify_eq.
  - exists k. split_and!; try lia. apply Hs.
  - destruct Hjobs as (k' & Hk' & Hs'). exists k'. split_and!; try done; lia.
Qed.

Lemma mem_drop_job kv js1 j js2 idx rf' :
  kv_mem (MkKN kv (js1 ++ j :: js2)) idx → kv_mem (MkKN (set_rf rf' kv) (js1 ++ js2)) idx.
Proof.
  intros [Hi Hs Hjobs Hr]. split; simpl in *; try done.
  apply Forall_app in Hjobs as [H1 H2]. apply Forall_cons in H2 as [_ H2]. by apply Forall_app.
Qed.

Lemma mem_same kv kv' jobs idx :
  kv_mem (MkKN kv jobs) idx → state_of kv' ≡ state_of kv → resultMap kv' = resultMap kv →
  kv_mem (MkKN kv' jobs) idx.
Proof.
  intros [Hi (j & Hj & Hs) Hjobs Hr] Es Er. simpl in *.
  split; simpl; rewrite ?Er; try done. exists j. split; [done|]. by rewrite Es.
Qed.

Lemma mem_start kv :
  state_of kv ≡ kv_init → resultMap kv = ∅ → kv_mem (MkKN kv []) 0.
Proof.
  intros Hs Hr. split; simpl; rewrite ?Hr; try done. exists 0. split; [pose proof (len_nonneg L); lia|done].
Qed.

Lemma inv_command nd idx op nd' :
  kv_inv nd idx → zlookup L idx = Some op →
  mainProcess raftStateSize nd (MkApplyMsg true (Some op) (idx + 1) ∅ ∅) = Ok nd' →
  kv_inv nd' (idx + 1).
Proof.
  intros [Hm Hc Hd] Hop H. split; [by eapply mem_command|..]; unfold mainProcess in H; simpl in H; go_inv;
    simpl.
  - case_match; simpl; [lia|]. unfold apply_op in *. repeat case_match; simpl in *; lia.
  - unfold apply_op. by repeat case_match.
Qed.

Lemma inv_install kv jobs idx rf' seqs rsm label t nd' :
  kv_inv (MkKN kv jobs) idx → idx ≤ label → good_snap (MkKS seqs rsm) label →
  snapshot (persister rf') = [GSeqs seqs; GRsm rsm; GInt label; GInt t] →
  mainProcess raftStateSize (MkKN (set_rf rf' kv) jobs) (MkApplyMsg false None 0 seqs rsm) = Ok nd' →
  kv_inv nd' label.
Proof.
  intros [Hm Hc Hd] Hle Hg Hb H.
  split; [eapply mem_install; [|done..]; by eapply (mem_same kv)|..];
    unfold mainProcess in H; simpl in *; go_inv; simpl; [lia|]. right. by eauto 10.
Qed.

Lemma inv_job kv js1 j js2 idx kv' :
  kv_inv (MkKN kv (js1 ++ j :: js2)) idx → run_job kv j = Ok kv' → kv_inv (MkKN kv' (js1 ++ js2)) idx.
Proof.
  intros [Hm Hc Hd] H. simpl in *. unfold run_job in H.
  destruct (match job_maps_of j with Shared => _ | Own _ _ => _ end) as [seqs rsm] eqn:Em.
  apply bind_Ok in H as (rf & Ht & H). go_inv. split; simpl; [by eapply mem_drop_job|done|].
  apply TakeSnapshots_bytes in Ht as [->|(Hpos & t & ->)]; [done|].
  right. exists seqs, rsm, (job_index j - 1), t. split; [done|].
  eapply mem_job_contents; [done| |done|done]. simpl. set_solver.
Qed.

(** Changes of the peer, and of the request numbers of unknown clients. *)
Lemma inv_same kv kv' jobs idx :
  kv_inv (MkKN kv jobs) idx → state_of kv' ≡ state_of kv → curCommitIndex kv' = curCommitIndex kv →
  resultMap kv' = resultMap kv →
  snapshot (persister (kv_rf kv')) = snapshot (persister (kv_rf kv)) →
  kv_inv (MkKN kv' jobs) idx.
Proof.
  intros [Hm Hc Hd] Es Ec Er Eb. split; [by eapply mem_same|..]; simpl in *; by rewrite ?Ec, ?Eb.
Qed.

Lemma inv_restart n m max ps nd :
  good_bytes (snapshot ps) → StartKVServer raftStateSize n m ps max = Ok nd →
  kv_inv nd (lastIndexInSnapshot (kv_rf (kn_kv nd))).
Proof.
  intros Hb H. unfold StartKVServer in H. apply bind_Ok in H as (rf & Hm & H).
  assert (Hinit : kv_mem (MkKN (MkKV m rf max ∅ 0 ∅ ∅) []) 0) by by apply mem_start.
  assert (Hcase : (applyCh rf = [] ∧ lastIndexInSnapshot rf = 0 ∧ snapshot (persister rf) = snapshot ps) ∨
    ∃ seqs rsm i, applyCh rf = [MkApplyMsg false None 0 seqs rsm] ∧ good_snap (MkKS seqs rsm) i ∧
      lastIndexInSnapshot rf = i ∧ snapshot (persister rf) = snapshot ps).
  { unfold Make in Hm. apply bind_Ok in Hm as (rf1 & Hs & Hm). apply bind_Ok in Hm as (rf2 & Hp & Hm).
    apply readPersist_fields in Hp as (Pa & Pl & Pp).
    assert (applyCh rf = applyCh rf1 ∧ lastIndexInSnapshot rf = lastIndexInSnapshot rf1 ∧
      persister rf = persister rf1) as (-> & -> & ->) by (go_inv; case_match; by split_and!).
    unfold readSnapshotPersist, ReadSnapshot in Hs.
    destruct Hb as [Hb|(seqs & rsm & i & t & Hb & Hg)]; rewrite Hb in *; simpl in Hs.
    - left. go_inv. simpl. by rewrite Hb.
    - destruct (i <=? 0); simpl in Hs; go_inv; simpl; [left; by rewrite Hb|right].
      exists seqs, rsm, i. by split_and!. }
  destruct Hcase as [(Ea & El & Es)|(seqs & rsm & i & Ea & Hg & El & Es)];
    rewrite Ea in H; cbn [mainProcess_all] in H.
  - simplify_eq/=. split; simpl; [by rewrite El|by rewrite El|by rewrite Es].
  - apply bind_Ok in H as (nd' & H & ?). simplify_eq/=.
    pose proof (mem_install _ _ _ _ _ _ Hinit Hg H) as Hm'. unfold mainProcess in H. simpl in H.
    simplify_eq/=. split; simpl; [done| |by rewrite Es].
    destruct Hg as (j & Hi & Hj & Hg). lia.
Qed.

Lemma inv_kv_step nd idx nd' idx' :
  kv_step (nd, idx) (nd', idx') → kv_inv nd idx → kv_inv nd' idx'.
Proof.
  intros Hst Hinv. inversion Hst; subst; clear Hst.
  - by eapply inv_command.
  - by eapply inv_install.
  - by eapply inv_same.
  - by eapply inv_job.
  - unfold Get_begin in *. case_match; [by simplify_eq|].
    match goal with H : _ ≫= _ = Ok _ |- _ => apply bind_Ok in H as ([rf' ?] & Hs & H) end.
    simplify_eq. apply Start_snapshot in Hs. by eapply inv_same.
  - match goal with H : PutAppend_check ?kv ?a = _ |- _ =>
      pose proof (PutAppend_check_state kv a) as Hs; rewrite H in Hs; unfold PutAppend_check in H end.
    simplify_eq. by eapply inv_same.
  - unfold PutAppend_start in *.
    match goal with H : _ ≫= _ = Ok _ |- _ => apply bind_Ok in H as ([rf' [[? ?] ?]] & Hs & H) end.
    simplify_eq. apply Start_snapshot in Hs. by eapply inv_same.
  - eapply inv_restart; [|done]. apply Hinv.
Qed.

Lemma inv_reachable c c' :
  rtc kv_step c c' → kv_inv (fst c) (snd c) → kv_inv (fst c') (snd c').
Proof.
  induction 1 as [|[nd idx] [nd' idx'] c Hst _ IH]; [done|]. intros Hinv.
  apply IH. by eapply inv_kv_step.
Qed.

(** The states a server can be in: started on an empty disk, then any steps. *)
Definition kv_reachable (nd : kvnode) (idx : Z) : Prop :=
  ∃ n m max nd0, StartKVServer raftStateSize n m MakePersister max = Ok nd0 ∧
    rtc kv_step (nd0, 0) (nd, idx).

Lemma reachable_kv_inv nd idx : kv_reachable nd idx → kv_inv nd idx.
Proof.
  intros (n & m & max & nd0 & H0 & Hr). apply (inv_reachable _ _ Hr). simpl.
  pose proof (inv_restart n m max MakePersister nd0 ltac:(by left) H0) as Hinv.
  assert (lastIndexInSnapshot (kv_rf (kn_kv nd0)) = 0) as Hz; [|by rewrite Hz in Hinv].
  unfold StartKVServer in H0. apply bind_Ok in H0 as (rf & Hm & H0). vm_compute in Hm.
  simplify_eq/=. by go_inv.
Qed.

(** C13. Replicas agree: two servers that were handed the whole committed log, each
    through its own sequence of restarts, installed snapshots (written by goroutines
    that run late, so that they contain more than their label says) and client calls,
    hold the same map and the same request numbers, namely those the log gives. *)
Theorem kv_replicas_agree nd1 nd2 :
  kv_reachable nd1 (len L) → kv_reachable nd2 (len L) →
  kv_rsm (kn_kv nd1) = kv_rsm (kn_kv nd2) ∧
  (∀ c, maxSeq (kv_ClientMaxRequestSeq (kn_kv nd1)) c =
        maxSeq (kv_ClientMaxRequestSeq (kn_kv nd2)) c) ∧
  state_of (kn_kv nd1) ≡ run kv_init L.
Proof.
  intros H1%reachable_kv_inv H2%reachable_kv_inv.
  assert (Hall : ∀ nd, kv_inv nd (len L) → state_of (kn_kv nd) ≡ run kv_init L).
  { intros nd [[_ (j & Hj & Hs) _ _] _ _]. rewrite Hs. unfold at_index.
    rewrite take_ge; [done|]. unfold len in *. lia. }
  pose proof (Hall _ H1) as E1. pose proof (Hall _ H2) as E2.
  assert (state_of (kn_kv nd1) ≡ state_of (kn_kv nd2)) as [Hq Hr] by (by rewrite E1, E2).
  by split_and!.
Qed.

(** What a [Get] answers is the value its key has at a position of the committed
    log which is not before the logged request itself. *)
Theorem kv_get_sound nd idx id v :
  kv_reachable nd idx → Get_wait id [kn_kv nd] = Some (MkGetReply false EmptyString v) →
  ∃ k j op, zlookup L k = Some op ∧ Optype op = GetType ∧
    commID (ClientID op) (ProposalID op) = id ∧ k ≤ j ≤ len L ∧
    v = default EmptyString (ks_rsm (run kv_init (take (Z.to_nat j) L)) !! Key op).
Proof.
  intros Hr%reachable_kv_inv H. simpl in H. case_match; [by simplify_eq|].
  destruct (resultMap (kn_kv nd) !! id) as [w|] eqn:E; simplify_eq. by apply (km_results _ _ (ki_mem _ _ Hr)).
Qed.

(** An acknowledged [PutAppend] took effect: if the command logged at the index
    the handler waited for is its own, the state of the server that acknowledges is
    the state of the log up to a position that includes it, and covers the request
    (no retry of it will ever change anything). *)
Theorem kv_put_ack nd idx args index :
  kv_reachable nd idx → PutAppend_wait index [kn_kv nd] = Some (MkPAReply false EmptyString) →
  zlookup L (index - 1) = Some (pa_op args) →
  ks_covered (state_of (kn_kv nd)) (pa_op args) ∧
  ∃ j, index ≤ j ≤ len L ∧ state_of (kn_kv nd) ≡ run kv_init (take (Z.to_nat j) L).
Proof.
  intros [[Hi (j & Hj & Hs) _ _] Hc _]%reachable_kv_inv H Hl. simpl in H.
  case_match; [by simplify_eq|]. destruct (Z.leb_spec index (curCommitIndex (kn_kv nd))); [|done].
  split; [|exists j; split; [lia|done]]. rewrite Hs. apply (at_index_covers (index - 1)); [done|lia].
Qed.
End replicas.

(** The messages for a log. *)
Fixpoint log_msgs (i : Z) (l : list Op) : list (ApplyMsg Op) :=
  match l with
  | [] => []
  | op :: l => MkApplyMsg true (Some op) i ∅ ∅ :: log_msgs (i + 1) l
  end.

Lemma kv_all_run size nd i l :
  ∃ nd', mainProcess_all size nd (log_msgs i l) = Ok nd' ∧
    state_of (kn_kv nd') = run (state_of (kn_kv nd)) l.
Proof.
  revert nd i. induction l as [|op l IH]; intros nd i; simpl; [by eauto|].
  match goal with |- context [mainProcess_all size ?n _] => destruct (IH n (i + 1)) as (nd' & E & Hs) end.
  exists nd'. split; [done|]. rewrite Hs. simpl. rewrite <- apply_op_state. by case_match.
Qed.

(** C19. Requests take effect exactly once: whatever retries the log contains, the
    server processes it without panicking and ends in the state of the log that keeps
    only the first copy of every request. *)
Theorem kv_exactly_once size nd i l :
  state_of (kn_kv nd) ≡ kv_init →
  ∃ nd', mainProcess_all size nd (log_msgs i l) = Ok nd' ∧
    state_of (kn_kv nd') ≡ run kv_init (firsts [] l).
Proof.
  intros H0. destruct (kv_all_run size nd i l) as (nd' & E & Hs).
  exists nd'. split; [done|]. rewrite Hs, H0. apply run_firsts. intros op Hop. by apply elem_of_nil in Hop.
Qed.

(** Leadership is tested before [Start] and after it, but not what [Start]
    returned: a server that is not the leader when it calls [Start] and is again when
    it polls acknowledges a write that is in no log. *)
Theorem PutAppend_ack_without_log kv1 kv2 args kv3 index kv4 :
  snd (PutAppend_check kv1 args) = true →
  GetLeaderNum (kv_rf kv2) ≠ me (kv_rf kv2) → PutAppend_start kv2 args = Ok (kv3, index) →
  GetLeaderNum (kv_rf kv4) = kv_me kv4 → 0 ≤ curCommitIndex kv4 →
  PutAppend_wait index [kv4] = Some (MkPAReply false EmptyString) ∧ log (kv_rf kv3) = log (kv_rf kv2).
Proof.
  intros _ Hn Hs Hl Hc. unfold PutAppend_start, Start in Hs. unfold GetLeaderNum in *.
  rewrite (proj2 (Z.eqb_neq _ _) Hn) in Hs. simpl in Hs. go_inv. simplify_eq. split; [|done].
  simpl. unfold GetLeaderNum. rewrite Hl, Z.eqb_refl. simpl.
  destruct (Z.leb_spec (-1) (curCommitIndex kv4)); [done|lia].
Qed.

(** A server whose peer does not lead starts nothing and answers wrong leader, at once and in the
    wait loops; one whose peer leads starts the command of the request. *)
Theorem handlers_need_leader kv gargs pargs id index polls :
  (GetLeaderNum (kv_rf kv) ≠ kv_me kv →
     Get_begin kv gargs = Ok (kv, inl (MkGetReply true EmptyString EmptyString)) ∧
     snd (PutAppend_check kv pargs) = false ∧
     Get_wait id (kv :: polls) = Some (MkGetReply true EmptyString EmptyString) ∧
     PutAppend_wait index (kv :: polls) = Some (MkPAReply true EmptyString)) ∧
  (GetLeaderNum (kv_rf kv) = kv_me kv →
     snd (PutAppend_check kv pargs) = true ∧
     Get_begin kv gargs =
       '(rf, _) ← Start (kv_rf kv) (Some (MkOp (GetClientID gargs) (GetCommSeq gargs) GetType
                                           (GetKey gargs) EmptyString));
       Ok (set_rf rf kv, inr (commID (GetClientID gargs) (GetCommSeq gargs)))).
Proof.
  unfold Get_begin, PutAppend_check. simpl.
  split; intros Hl; destruct (Z.eqb_spec (GetLeaderNum (kv_rf kv)) (kv_me kv)); by split_and!.
Qed.

(** The identifiers under which results of reads are stored are unique for 32-bit
    clients (of either sign) and request numbers below [2^32]. *)
Theorem commID_inj c1 p1 c2 p2 :
  is_i32 c1 → is_i32 c2 → 0 ≤ p1 < 2 ^ 32 → 0 ≤ p2 < 2 ^ 32 →
  commID c1 p1 = commID c2 p2 → c1 = c2 ∧ p1 = p2.
Proof.
  unfold is_i32, commID. intros H1 H2 H3 H4. rewrite !Z.shiftl_mul_pow2 by lia.
  rewrite !(i64_small (_ * _)) by (unfold is_i64; lia).
  rewrite !i64_small by (unfold is_i64; lia). lia.
Qed.

(** ** Witnesses: a log of two writes and a read; one server takes a snapshot late,
    restarts from it and goes on. *)
Definition demo_L : list Op :=
  [MkOp 7 1 PutType "x" "a"; MkOp 7 2 AppendType "x" "b"; MkOp 7 3 GetType "x" ""].
Definition demo_pa : PutAppendArgs := MkPAArgs "x" "b" "Append" 7 2.

(** The server's peer, leading, with the two writes in its log. *)
Definition demo_kv_rf : Raft Op :=
  {| me := 0; peers := 3; persister := MakePersister; leaderNum := 0; currentTerm := 1;
     votedFor := 0; log := [MkCT None 0; MkCT (demo_L !! 0%nat) 1; MkCT (demo_L !! 1%nat) 1];
     commitIndex := 2; lastApplied := 0; nextIndex := [3; 3; 3]; matchIndex := [2; 2; 2];
     exitFlag := false; AENotifyChan := 0; commandToBeExec := 0; applyCh := [];
     lastIndexInSnapshot := 0; lastTermInSnapshot := 0 |}.

(** The states of the two runs, step by step. *)
Definition demo_kv : KVServer := MkKV 0 demo_kv_rf (-1) ∅ 0 ∅ ∅.
Definition force {A} (d : A) (o : outcome A) : A := match o with Ok a => a | _ => d end.
Definition forced : outcome kvnode → kvnode := force (MkKN demo_kv []).
Definition demo_recv (size : Z) (nd : kvnode) (i : Z) : kvnode :=
  forced (mainProcess (λ _, size) nd (MkApplyMsg true (zlookup demo_L i) (i + 1) ∅ ∅)).
Definition demo_with_rf (nd : kvnode) : kvnode := MkKN (set_rf demo_kv_rf (kn_kv nd)) (kn_jobs nd).

Definition demo_p0 : kvnode := forced (StartKVServer (λ _, 100) 3 0 MakePersister (-1)).
Definition demo_p1 : kvnode := demo_recv 100 (demo_with_rf demo_p0) 0.
Definition demo_p2 : kvnode := demo_recv 100 demo_p1 1.
Definition demo_p3 : kvnode := demo_recv 100 demo_p2 2.

Definition demo_s0 : kvnode := forced (StartKVServer (λ _, 100) 3 0 MakePersister 0).
Definition demo_s1 : kvnode := demo_recv 100 (demo_with_rf demo_s0) 0.
Definition demo_s2 : kvnode := demo_recv 100 demo_s1 1.
(** The second goroutine runs after both writes, with label 1. *)
Definition demo_s3 : kvnode :=
  MkKN (force demo_kv (run_job (kn_kv demo_s2) (MkJob 2 Shared))) [MkJob 1 Shared].
Definition demo_s4 : kvnode :=
  forced (StartKVServer (λ _, 100) 3 0 (persister (kv_rf (kn_kv demo_s3))) (-1)).
Definition demo_s5 : kvnode := demo_recv 100 demo_s4 1.
Definition demo_s6 : kvnode := demo_recv 100 demo_s5 2.

Lemma demo_recv_step size nd i op :
  zlookup demo_L i = Some op → kv_step (λ _, size) demo_L (nd, i) (demo_recv size nd i, i + 1).
Proof. intros H. eapply kv_command; [done|]. unfold demo_recv. by rewrite H. Qed.

Lemma demo_kv_plain : kv_reachable (λ _, 100) demo_L demo_p3 3.
Proof.
  exists 3, 0, (-1), demo_p0. split; [reflexivity|].
  eapply rtc_l; [apply (kv_raft _ _ (kn_kv demo_p0) (kn_jobs demo_p0) 0 demo_kv_rf); reflexivity|].
  eapply rtc_l; [by eapply (demo_recv_step 100 _ 0)|].
  eapply rtc_l; [by eapply (demo_recv_step 100 _ 1)|].
  eapply rtc_l; [by eapply (demo_recv_step 100 _ 2)|]. apply rtc_refl.
Qed.

(** The late snapshot is labelled 1 and holds the effect of both writes. *)
Lemma demo_late_snapshot :
  lastIndexInSnapshot (kv_rf (kn_kv demo_s4)) = 1 ∧ kv_rsm (kn_kv demo_s4) !! "x"%string = Some "ab"%string.
Proof. by vm_compute. Qed.

Lemma force_Ok {A} (d : A) o : match o with Ok _ => true | _ => false end = true → o = Ok (force d o).
Proof. by destruct o. Qed.

Lemma demo_job_step size nd j1 j2 i d :
  kn_jobs nd = [j1; j2] → match run_job (kn_kv nd) j2 with Ok _ => true | _ => false end = true →
  kv_step (λ _, size) demo_L (nd, i) (MkKN (force d (run_job (kn_kv nd) j2)) [j1], i).
Proof.
  destruct nd as [kv js]. simpl. intros -> H. apply (kv_job _ _ kv [j1] j2 []). by apply force_Ok.
Qed.

Lemma demo_s4_eq : StartKVServer (λ _, 100) 3 0 (persister (kv_rf (kn_kv demo_s3))) (-1) = Ok demo_s4.
Proof. unfold demo_s4, forced. apply force_Ok. vm_compute. reflexivity. Qed.

Lemma demo_kv_snapshot : kv_reachable (λ _, 100) demo_L demo_s6 3.
Proof.
  exists 3, 0, 0, demo_s0. split; [reflexivity|].
  eapply rtc_l; [apply (kv_raft _ _ (kn_kv demo_s0) (kn_jobs demo_s0) 0 demo_kv_rf); reflexivity|].
  eapply rtc_l; [by eapply (demo_recv_step 100 _ 0)|].
  eapply rtc_l; [by eapply (demo_recv_step 100 _ 1)|].
  eapply rtc_l; [apply (demo_job_step 100 demo_s2 (MkJob 1 Shared) (MkJob 2 Shared) 2 demo_kv);
    vm_compute; reflexivity|].
  eapply rtc_l; [apply (kv_restart _ _ demo_s3 2 3 0 (-1) demo_s4), demo_s4_eq|].
  rewrite (proj1 demo_late_snapshot).
  eapply rtc_l; [by eapply (demo_recv_step 100 demo_s4 1)|].
  eapply rtc_l; [by eapply (demo_recv_step 100 _ 2)|]. apply rtc_refl.
Qed.

Lemma kv_replicas_agree_witness :
  kv_rsm (kn_kv demo_s6) = kv_rsm (kn_kv demo_p3) ∧
  state_of (kn_kv demo_s6) ≡ run kv_init demo_L.
Proof.
  by destruct (kv_replicas_agree (λ _, 100) demo_L demo_s6 demo_p3 demo_kv_snapshot demo_kv_plain)
    as (H1 & _ & H2).
Defined.

Lemma kv_get_sound_witness : ∃ k j op, zlookup demo_L k = Some op ∧ k ≤ j ≤ 3 ∧
  "ab"%string = default EmptyString (ks_rsm (run kv_init (take (Z.to_nat j) demo_L)) !! Key op).
Proof.
  destruct (kv_get_sound _ demo_L demo_p3 3 (commID 7 3) "ab" demo_kv_plain)
    as (k & j & op & Hk & _ & _ & Hj & Hv); [vm_compute; reflexivity|]. by exists k, j, op.
Defined.

Lemma kv_put_ack_witness : ks_covered (state_of (kn_kv demo_p3)) (pa_op demo_pa).
Proof.
  apply (kv_put_ack _ demo_L demo_p3 3 demo_pa 2 demo_kv_plain); vm_compute; reflexivity.
Defined.

(** The append was retried. *)
Lemma kv_exactly_once_witness : ∃ nd',
  mainProcess_all (λ _, 0) (MkKN demo_kv [])
    (log_msgs 1 (demo_L ++ [MkOp 7 2 AppendType "x" "b"])) = Ok nd' ∧
  state_of (kn_kv nd') ≡ run kv_init (firsts [] (demo_L ++ [MkOp 7 2 AppendType "x" "b"])).
Proof. by apply (kv_exactly_once (λ _, 0) (MkKN demo_kv []) 1). Defined.

Lemma PutAppend_ack_without_log_witness : ∃ kv3 index,
  PutAppend_start (set_rf (set_leaderNum 2 demo_kv_rf) demo_kv) demo_pa = Ok (kv3, index) ∧
  PutAppend_wait index [demo_kv] = Some (MkPAReply false "").
Proof.
  eexists _, _. split; [reflexivity|].
  by apply (PutAppend_ack_without_log demo_kv (set_rf (set_leaderNum 2 demo_kv_rf) demo_kv) demo_pa
    (set_rf (set_leaderNum 2 demo_kv_rf) demo_kv) (-1) demo_kv).
Defined.

Lemma commID_inj_witness : commID (-5) 9 = commID (-5) 9 ∧ -5 = -5 ∧ 9 = 9.
Proof. split; [done|]. by apply (commID_inj (-5) 9 (-5) 9). Defined.
