(* ===== verification/KvPool.v ===== *)
(** * A snapshot that is overtaken: [readSnapshotPersist] of [raft/raft.go] gives the lock back
    before it sends the snapshot on [applyCh], and what the key/value server makes of it. *)

From S2P Require Import Prelude RaftState RaftAppend RaftThreads RaftPool Session KvServer.

(** The snapshot of a leader of term 1: five commands, of which the third of client 1 wrote "a". *)
Definition old_snapshot : request (cmd:=Op) :=
  ReqInstall (MkISArgs 1 0 5 1 [GSeqs {[1 := 3]}; GRsm {["x" := "a"]}; GInt 5; GInt 1]).
Definition next_write : Op := MkOp 1 4 PutType "x" "b".

(** [InstallSnapShot] has moved the log to the snapshot and not sent it yet; the write after it is
    stored and committed by two [AppendEntry]s; the snapshot comes last. *)
Definition overtaking : list (move (cmd:=Op)) :=
  [MCall old_snapshot] ++ job 0 6 ++
  [MCall (append_req 5 1 [MkCT (Some next_write) 1] 0)] ++ job 1 22 ++
  [MCall (append_req 6 1 [] 6)] ++ job 2 10 ++ [MReceive] ++ job 0 1.

(** While [InstallSnapShot] waits to hand its snapshot over, [AppendEntry] stores and commits the
    command after the snapshot.  The service is sent the command first and the snapshot second, and a
    server that applies them has lost the write, although the peer's commit index covers it. *)
Theorem committed_write_undone : ∃ (rf : Raft Op) pl nd,
  Make 3 1 MakePersister = Ok rf ∧ rtc (pool_step true) (pool_of rf) pl ∧
  commitIndex (sh_rf (pl_sh pl)) = 6 ∧
  applyCh (sh_rf (pl_sh pl)) =
    [MkApplyMsg true (Some next_write) 6 ∅ ∅; snapshot_msg {[1 := 3]} {["x" := "a"]}] ∧
  mainProcess_all (λ _, 0) (MkKN (MkKV 1 rf (-1) ∅ 0 ∅ ∅) []) (applyCh (sh_rf (pl_sh pl))) = Ok nd ∧
  curCommitIndex (kn_kv nd) = 6 ∧ kv_rsm (kn_kv nd) !! "x" = Some "a".
Proof.
  destruct (demo_run_rtc true overtaking
    (λ pl, (commitIndex (sh_rf (pl_sh pl)), applyCh (sh_rf (pl_sh pl))))
    (6, [MkApplyMsg true (Some next_write) 6 ∅ ∅; snapshot_msg {[1 := 3]} {["x" := "a"]}]))
    as (rf & pl & HM & Hr & [= Hc Ha]).
  { vm_compute. reflexivity. }
  rewrite <- Ha. eexists rf, pl, _. split; [done|]. split; [done|]. split; [done|]. split; [done|].
  rewrite Ha. split; [reflexivity|]. by vm_compute.
Qed.
