(* ===== verification/KvCluster.v ===== *)
(** * The key/value service: servers of [kvraft/server.go] on the cluster of [RaftCluster].

    Every server reads what its peer puts on [applyCh], starts commands on it and hands it
    snapshots; requests of clients reach any server at any time.  The messages a server has not
    received yet stay in the list [applyCh], of which [kp_read] were received.  Nothing is assumed
    of Raft here: what the service promises whatever Raft agrees on is that its contents come
    from requests of clients. *)

From S2P Require Import Prelude RaftState RaftVote RaftAppend RaftLeader RaftRole RaftCluster.
From S2P Require Import Session KvServer.

(** ** The system *)

Record kvpeer := MkKP { kp_node : kvnode; kp_read : nat }.
Record kvsys := MkSys { sy_cl : cluster Op; sy_kv : list kvpeer }.

Section system.
Variable raftStateSize : gobbytes Op → Z.

(** The server's pointer to its peer. *)
Definition kv_at (nd : node Op) (p : kvpeer) : KVServer := set_rf (nd_rf nd) (kn_kv (kp_node p)).

Definition set_peer (i : Z) (p : kvpeer) (kvs : list kvpeer) : list kvpeer := <[Z.to_nat i := p]> kvs.

(** A handler has run on server [i]. *)
Definition set_server (i : Z) (nd : node Op) (p : kvpeer) (kv : KVServer) (s : kvsys) : kvsys :=
  MkSys (add_started (new_entries (nd_rf nd) (kv_rf kv)) (set_node i (with_rf nd (kv_rf kv)) (sy_cl s)))
    (set_peer i (MkKP (MkKN kv (kn_jobs (kp_node p))) (kp_read p)) (sy_kv s)).

(** The maps a snapshot goroutine encodes when it runs. *)
Definition job_contents (kv : KVServer) (j : snap_job) : gmap Z Z * gmap string string :=
  match job_maps_of j with
  | Shared => (kv_ClientMaxRequestSeq kv, kv_rsm kv)
  | Own seqs rsm => (seqs, rsm)
  end.

Inductive kvsys_step (s : kvsys) : kvsys → Prop :=
(* peers and network *)
| kc_net cl' : net_step (sy_cl s) cl' → kvsys_step s (MkSys cl' (sy_kv s))
(* mainProcess receives a message *)
| kc_receive i nd p m kn' :
    zlookup (nodes (sy_cl s)) i = Some nd → zlookup (sy_kv s) i = Some p →
    applyCh (nd_rf nd) !! kp_read p = Some m →
    mainProcess raftStateSize (MkKN (kv_at nd p) (kn_jobs (kp_node p))) m = Ok kn' →
    kvsys_step s (MkSys (sy_cl s) (set_peer i (MkKP kn' (S (kp_read p))) (sy_kv s)))
(* a snapshot goroutine runs *)
| kc_job i nd p js1 j js2 kv' :
    zlookup (nodes (sy_cl s)) i = Some nd → zlookup (sy_kv s) i = Some p →
    kn_jobs (kp_node p) = js1 ++ j :: js2 → run_job (kv_at nd p) j = Ok kv' →
    kvsys_step s (MkSys
      (add_taken (job_index j - 1) (job_contents (kv_at nd p) j).1 (job_contents (kv_at nd p) j).2
         (set_node i (with_rf nd (kv_rf kv')) (sy_cl s)))
      (set_peer i (MkKP (MkKN kv' (js1 ++ js2)) (kp_read p)) (sy_kv s)))
(* handlers *)
| kc_Get i nd p args kv' r :
    zlookup (nodes (sy_cl s)) i = Some nd → zlookup (sy_kv s) i = Some p →
    Get_begin (kv_at nd p) args = Ok (kv', r) →
    kvsys_step s (set_server i nd p kv' s)
| kc_PutAppend_check i nd p args kv' b :
    zlookup (nodes (sy_cl s)) i = Some nd → zlookup (sy_kv s) i = Some p →
    PutAppend_check (kv_at nd p) args = (kv', b) →
    kvsys_step s (set_server i nd p kv' s)
| kc_PutAppend_start i nd p args kv' index :
    zlookup (nodes (sy_cl s)) i = Some nd → zlookup (sy_kv s) i = Some p →
    PutAppend_start (kv_at nd p) args = Ok (kv', index) →
    kvsys_step s (set_server i nd p kv' s)
(* a crash and a restart *)
| kc_restart i nd p max kn' :
    zlookup (nodes (sy_cl s)) i = Some nd → zlookup (sy_kv s) i = Some p →
    StartKVServer raftStateSize (len (nodes (sy_cl s))) i (Copy (persister (nd_rf nd))) max = Ok kn' →
    kvsys_step s (MkSys (set_node i (MkNode (kv_rf (kn_kv kn')) AtTop [] []) (sy_cl s))
      (set_peer i (MkKP kn' (length (applyCh (kv_rf (kn_kv kn'))))) (sy_kv s))).

(** [n] new servers. *)
Fixpoint start_servers (n max : Z) (ids : list Z) : outcome (list kvnode) :=
  match ids with
  | [] => Ok []
  | i :: ids =>
      kn ← StartKVServer raftStateSize n i MakePersister max;
      kns ← start_servers n max ids; Ok (kn :: kns)
  end.

Definition start_sys (n max : Z) : outcome kvsys :=
  kns ← start_servers n max (seqZ 0 n);
  Ok (MkSys (MkCluster ((λ kn, MkNode (kv_rf (kn_kv kn)) AtTop [] []) <$> kns) [] [] [] [] [] [] [] [])
        ((λ kn, MkKP kn (length (applyCh (kv_rf (kn_kv kn))))) <$> kns)).

(** ** The cluster below *)

Lemma set_server_id i nd p kv s :
  zlookup (nodes (sy_cl s)) i = Some nd → kv_rf kv = nd_rf nd →
  sy_cl (set_server i nd p kv s) = sy_cl s.
Proof.
  intros Hi Hk. unfold set_server, new_entries, with_rf. simpl. rewrite Hk, drop_all.
  destruct s as [[] ?], nd. unfold add_started, set_node. simpl in *. f_equal.
  unfold zlookup in Hi. case_decide; [|done]. by apply list_insert_id.
Qed.

Lemma mainProcess_rf nd msg nd' : mainProcess raftStateSize nd msg = Ok nd' →
  kv_rf (kn_kv nd') = kv_rf (kn_kv nd).
Proof.
  unfold mainProcess. intros H. case_match; [by simplify_eq|]. apply bind_Ok in H as (op & _ & H).
  simplify_eq/=. unfold apply_op. by repeat case_match.
Qed.

Lemma mainProcess_all_rf nd msgs nd' : mainProcess_all raftStateSize nd msgs = Ok nd' →
  kv_rf (kn_kv nd') = kv_rf (kn_kv nd).
Proof.
  revert nd. induction msgs as [|m msgs IH]; intros nd H; simpl in H; [by simplify_eq|].
  apply bind_Ok in H as (nd1 & H1 & H). apply IH in H as ->. by eapply mainProcess_rf.
Qed.

(** The service only drives Raft in ways the cluster allows. *)
Lemma kvsys_step_cluster s s' : kvsys_step s s' → rtc cluster_step (sy_cl s) (sy_cl s').
Proof.
  assert (HStart : ∀ i nd p c rf' kv r, zlookup (nodes (sy_cl s)) i = Some nd →
    Start (nd_rf nd) (Some c) = Ok (rf', r) → kv_rf kv = rf' →
    rtc cluster_step (sy_cl s) (sy_cl (set_server i nd p kv s))).
  { intros i nd p c rf' kv [[index t] b] Hi Hs <-. apply rtc_once. unfold set_server. simpl.
    rewrite (Start_entries _ _ _ _ _ _ Hs). by eapply cs_Start. }
  destruct 1.
  - by apply rtc_once, cs_net.
  - done.
  - apply rtc_once. unfold run_job in *.
    change (match job_maps_of j with Shared => _ | Own seqs rsm => (seqs, rsm) end)
      with (job_contents (kv_at nd p) j) in *.
    destruct (job_contents (kv_at nd p) j) as [seqs rsm]. simpl.
    match goal with H : _ ≫= _ = Ok kv' |- _ => apply bind_Ok in H as (rf' & Ht & H) end.
    simplify_eq/=. by eapply cs_TakeSnapshots.
  - unfold Get_begin in *. case_match; [simplify_eq; by rewrite set_server_id|].
    match goal with H : _ ≫= _ = Ok _ |- _ => apply bind_Ok in H as ([rf' r'] & Hs & H) end.
    simplify_eq. by eapply (HStart _ _ p _ _ (set_rf rf' (kv_at nd p))).
  - unfold PutAppend_check in *. simplify_eq. by rewrite set_server_id.
  - unfold PutAppend_start in *.
    match goal with H : _ ≫= _ = Ok _ |- _ => apply bind_Ok in H as ([rf' [[a b] c]] & Hs & H) end.
    simplify_eq. by eapply (HStart _ _ p _ _ (set_rf rf' (kv_at nd p))).
  - apply rtc_once. unfold StartKVServer in *.
    match goal with H : _ ≫= _ = Ok _ |- _ => apply bind_Ok in H as (rf' & Hm & H) end.
    match goal with H : mainProcess_all _ _ _ = Ok _ |- _ => apply mainProcess_all_rf in H as E end.
    simpl in E. simpl. rewrite E. by eapply cs_restart.
Qed.
(** ** Where the contents come from *)

Definition op_started (cl : cluster Op) (op : Op) : Prop := ∃ t, MkCT (Some op) t ∈ started cl.

(** The effect of started commands, each taking effect once ([Session]). *)
Definition legit (cl : cluster Op) (st : kvstate) : Prop :=
  ∃ ops, Forall (op_started cl) ops ∧ st ≡ run kv_init ops.

(** The result stored for a [Get]: the value of its key in such a state. *)
Definition legit_result (cl : cluster Op) (id : Z) (v : string) : Prop :=
  ∃ op ops, op_started cl op ∧ Optype op = GetType ∧ commID (ClientID op) (ProposalID op) = id ∧
    Forall (op_started cl) ops ∧ v = default EmptyString (ks_rsm (run kv_init ops) !! Key op).

Definition legit_job (cl : cluster Op) (j : snap_job) : Prop :=
  match job_maps_of j with Shared => True | Own seqs rsm => legit cl (MkKS seqs rsm) end.

Record legit_node (cl : cluster Op) (kn : kvnode) : Prop := {
  ln_state : legit cl (state_of (kn_kv kn));
  ln_results : map_Forall (legit_result cl) (resultMap (kn_kv kn));
  ln_jobs : Forall (legit_job cl) (kn_jobs kn);
}.

Record legit_sys (s : kvsys) : Prop := {
  ls_taken : ∀ i seqs rsm, (i, seqs, rsm) ∈ taken (sy_cl s) → legit (sy_cl s) (MkKS seqs rsm);
  ls_kv : Forall (λ p, legit_node (sy_cl s) (kp_node p)) (sy_kv s);
}.

Lemma op_started_mono cl cl' op : started cl ⊆ started cl' → op_started cl op → op_started cl' op.
Proof. intros Hs [t Ht]. exists t. by apply Hs. Qed.

Lemma legit_mono cl cl' st : started cl ⊆ started cl' → legit cl st → legit cl' st.
Proof.
  intros Hs (ops & Ho & E). exists ops. split; [|done].
  eapply Forall_impl; [done|]. intros op. by apply op_started_mono.
Qed.

Lemma legit_node_mono cl cl' kn : started cl ⊆ started cl' → legit_node cl kn → legit_node cl' kn.
Proof.
  intros Hs [H1 H2 H3]. split.
  - by eapply legit_mono.
  - intros id v Hv. destruct (H2 id v Hv) as (op & ops & Ho & Ht & Hid & Hops & E).
    exists op, ops. split_and!; try done; [by eapply op_started_mono|].
    eapply Forall_impl; [done|]. intros o. by apply op_started_mono.
  - eapply Forall_impl; [done|]. intros j. unfold legit_job. case_match; [done|by apply legit_mono].
Qed.

Lemma legit_equiv cl st st' : st ≡ st' → legit cl st → legit cl st'.
Proof. intros E (ops & Ho & E'). exists ops. split; [done|]. by rewrite <- E. Qed.

Lemma legit_apply cl st op : op_started cl op → legit cl st → legit cl (ks_apply st op).
Proof.
  intros Ho (ops & Hops & E). exists (ops ++ [op]). split; [apply Forall_app; auto|].
  rewrite run_snoc, <- E. done.
Qed.

Definition legit_msg (cl : cluster Op) (m : ApplyMsg Op) : Prop :=
  (∀ op, CommandValid m = true → ApplyCommand m = Some op → op_started cl op) ∧
  (CommandValid m = false → legit cl (MkKS (ClientMaxRequestSeq m) (Rsm m))).

(** One round of [mainProcess] on a message whose contents have a source. *)
Lemma mainProcess_legit cl kn m kn' :
  legit_node cl kn → legit_msg cl m → mainProcess raftStateSize kn m = Ok kn' → legit_node cl kn'.
Proof.
  intros [H1 H2 H3] [Hcmd Hsnap] H. unfold mainProcess in H. destruct (CommandValid m); simpl in H.
  - apply bind_Ok in H as (op & Hop & H). apply must_Ok in Hop. specialize (Hcmd op eq_refl Hop).
    pose proof (apply_op_state (kn_kv kn) op) as Hst. set (kv := apply_op (kn_kv kn) op) in *.
    assert (map_Forall (legit_result cl) (resultMap kv)) as Hres.
    { unfold kv, apply_op. destruct (Optype op) eqn:Et; simpl; [|by repeat case_match..].
      apply map_Forall_insert_2; [|done]. destruct H1 as (ops & Hops & [_ E]).
      exists op, ops. split_and!; try done. by rewrite <- E. }
    simplify_eq/=. split; simpl.
    + eapply legit_equiv; [|by apply (legit_apply _ _ _ Hcmd H1)]. rewrite <- Hst. by repeat case_match.
    + by repeat case_match.
    + case_match; [|done]. apply Forall_app. split; [done|]. by repeat constructor.
  - simplify_eq/=. split; simpl; [by apply Hsnap|done|].
    apply Forall_fmap. eapply Forall_impl; [done|]. intros j Hj. unfold legit_job, detach in *. simpl.
    destruct (job_maps_of j) eqn:Ej; simpl; [apply H1|by rewrite Ej].
Qed.

Lemma mainProcess_all_legit cl kn msgs kn' :
  legit_node cl kn → Forall (legit_msg cl) msgs → mainProcess_all raftStateSize kn msgs = Ok kn' →
  legit_node cl kn'.
Proof.
  intros Hkn Hm. revert kn Hkn. induction Hm as [|m msgs Hm _ IH]; intros kn Hkn H; simpl in H;
    [by simplify_eq|]. apply bind_Ok in H as (kn1 & H1 & H). eapply IH; [|done].
  by eapply mainProcess_legit.
Qed.

(** What [RaftCluster] knows of a message. *)
Lemma msg_prov_legit s m :
  legit_sys s → msg_prov (accepted (sy_cl s)) (was_taken (sy_cl s)) m → legit_msg (sy_cl s) m.
Proof.
  intros [Ht _] Hm. unfold msg_prov in Hm. split; [intros op Hv Hc|intros Hv]; rewrite Hv in Hm.
  - destruct (Hm op Hc) as [t [?|?]]; [done|by exists t].
  - destruct Hm as [i Hm]. by eapply Ht.
Qed.

Lemma legit_sys_kv s i p :
  legit_sys s → zlookup (sy_kv s) i = Some p → legit_node (sy_cl s) (kp_node p).
Proof. intros [_ Hk] Hi. exact (Forall_zlookup _ _ _ _ Hk Hi). Qed.

(** A step that leaves the snapshots alone and gives one server contents with a source. *)
Lemma legit_sys_set s s' i p' :
  legit_sys s → started (sy_cl s) ⊆ started (sy_cl s') → taken (sy_cl s') = taken (sy_cl s) →
  sy_kv s' = set_peer i p' (sy_kv s) → legit_node (sy_cl s') (kp_node p') → legit_sys s'.
Proof.
  intros [Ht Hk] Hs Et Ek Hp. split.
  - intros i' seqs rsm Hin. rewrite Et in Hin. eapply legit_mono; [done|by eapply Ht].
  - rewrite Ek. unfold set_peer. apply Forall_insert; [|done].
    eapply Forall_impl; [done|]. intros p. by apply legit_node_mono.
Qed.

(** A handler keeps the maps and the results, and what it starts is recorded. *)
Lemma legit_sys_handler s i nd p kv' :
  legit_sys s → zlookup (sy_kv s) i = Some p → state_of kv' ≡ state_of (kv_at nd p) →
  resultMap kv' = resultMap (kn_kv (kp_node p)) → legit_sys (set_server i nd p kv' s).
Proof.
  intros Hs Hp Est Er. pose proof (legit_sys_kv _ _ _ Hs Hp) as Hkn.
  assert (started (sy_cl s) ⊆ started (sy_cl (set_server i nd p kv' s))) as Hsub by (simpl; set_solver).
  eapply legit_sys_set; [done|done|done|done|].
  destruct (legit_node_mono _ _ _ Hsub Hkn) as [H1 H2 H3]. split; simpl; [|by rewrite Er|done].
  eapply legit_equiv; [symmetry; exact Est|done].
Qed.

Lemma legit_step s s' :
  cluster_prov (accepted (sy_cl s)) (was_taken (sy_cl s)) (sy_cl s) → kvsys_step s s' →
  legit_sys s → legit_sys s'.
Proof.
  intros Hcp Hstep Hs. destruct Hstep as [cl' Hn|i nd p m kn' Hn Hp Hm H|i nd p js1 j js2 kv' Hn Hp Hj H
    |i nd p args kv' r Hn Hp H|i nd p args kv' b Hn Hp H|i nd p args kv' index Hn Hp H
    |i nd p max kn' Hn Hp H]; try pose proof (legit_sys_kv _ _ _ Hs Hp) as Hkn.
  - destruct (net_step_records _ _ Hn) as [Es Et]. destruct Hs as [Ht Hk]. split; simpl.
    + intros i' seqs rsm Hin. rewrite Et in Hin. eapply legit_mono; [|by eapply Ht]. by rewrite Es.
    + eapply Forall_impl; [done|]. intros p. apply legit_node_mono. by rewrite Es.
  - eapply legit_sys_set; [done|done|done|done|]. simpl.
    eapply (mainProcess_legit _ (MkKN (kv_at nd p) (kn_jobs (kp_node p)))); [|..|done].
    + destruct Hkn. by split.
    + apply msg_prov_legit; [done|]. destruct (cluster_prov_node _ _ _ _ _ Hcp Hn) as [Hpr _].
      eapply Forall_forall; [apply Hpr|]. by eapply list_elem_of_lookup_2.
  - unfold run_job in H.
    change (match job_maps_of j with Shared => _ | Own seqs rsm => (seqs, rsm) end)
      with (job_contents (kv_at nd p) j) in *.
    destruct (job_contents (kv_at nd p) j) as [seqs rsm] eqn:Ej. simpl.
    apply bind_Ok in H as (rf' & Ht & H). simplify_eq/=. destruct Hs as [Hta Hk], Hkn as [H1 H2 H3].
    rewrite Hj in H3. apply Forall_app in H3 as [H3 H4]. apply Forall_cons in H4 as [Hjj H4].
    assert (legit (sy_cl s) (MkKS seqs rsm)) as Hl.
    { unfold job_contents, legit_job in *. destruct (job_maps_of j); by simplify_eq. }
    split; simpl.
    + intros i' seqs' rsm' [E|Hin]%elem_of_cons; [simplify_eq; by eapply legit_mono|].
      eapply legit_mono; [|by eapply Hta]. done.
    + apply Forall_insert; [eapply Forall_impl; [done|]; intros p'; by apply legit_node_mono|].
      simpl. split; simpl; [done..|]. by apply Forall_app.
  - apply legit_sys_handler; [done|done|..]; unfold Get_begin in H; case_match; simplify_eq; try done;
      by apply bind_Ok in H as ([rf' r'] & _ & H); simplify_eq.
  - pose proof (PutAppend_check_state (kv_at nd p) args) as E. rewrite H in E.
    apply legit_sys_handler; [done..|]. unfold PutAppend_check in H. by simplify_eq.
  - apply legit_sys_handler; [done|done|..]; unfold PutAppend_start in H;
      by apply bind_Ok in H as ([rf' [[a b] c]] & _ & H); simplify_eq.
  - eapply legit_sys_set; [done|done|done|done|]. simpl. unfold StartKVServer in H.
    apply bind_Ok in H as (rf & Hm & H). eapply mainProcess_all_legit; [| |done].
    + split; simpl; [|done|constructor]. exists []. by split.
    + destruct (cluster_prov_node _ _ _ _ _ Hcp Hn) as [Hpr _].
      assert (prov (accepted (sy_cl s)) (was_taken (sy_cl s)) [] rf) as Hrf
        by (eapply prov_Make; [by left|done..]).
      eapply Forall_impl; [apply Hrf|]. intros m. by apply msg_prov_legit.
Qed.

Lemma start_servers_fresh cl n max ids kns :
  start_servers n max ids = Ok kns →
  start_nodes n ids = Ok ((λ kn, MkNode (kv_rf (kn_kv kn)) AtTop [] []) <$> kns) ∧
  Forall (legit_node cl) kns.
Proof.
  revert kns. induction ids as [|i ids IH]; intros kns H; cbn [start_servers] in H; [by simplify_eq|].
  apply bind_Ok in H as (kn & Hkn & H). apply bind_Ok in H as (kns' & Hr & H). simplify_eq.
  destruct (IH _ Hr) as [E Hf]. injection Hkn as <-.
  split; [cbn [start_nodes]; rewrite E; done|]. constructor; [|done].
  split; simpl; [by exists []|done|constructor].
Qed.

Lemma sys_reachable n max s0 s :
  start_sys n max = Ok s0 → rtc kvsys_step s0 s →
  start_cluster n = Ok (sy_cl s0) ∧ rtc cluster_step (sy_cl s0) (sy_cl s) ∧ legit_sys s.
Proof.
  intros H0 Hr. unfold start_sys in H0. apply bind_Ok in H0 as (kns & Hk & H0).
  destruct (start_servers_fresh (sy_cl s0) _ _ _ _ Hk) as [Hc Hf].
  assert (start_cluster n = Ok (sy_cl s0)) as Hcl by (unfold start_cluster; rewrite Hc; by simplify_eq).
  assert (legit_sys s0) as Hs0.
  { simplify_eq. split; [intros i' seqs rsm Hin; by apply not_elem_of_nil in Hin|]. by apply Forall_fmap. }
  split; [done|]. pattern s. eapply rtc_ind_r; [| |exact Hr]; [by split|].
  intros s1 s2 _ Hstep [Hr1 Hs1]. split; [by etrans; [|apply kvsys_step_cluster]|].
  eapply legit_step; [by eapply reachable_prov|done..].
Qed.

(** C8. The whole service, whatever the network loses, delays, repeats or reorders, wherever servers
    crash, and whether or not Raft agrees: it drives the peers only as the cluster allows; the
    contents of every server are the effect of a sequence of commands that were started, each
    taking effect once, from the empty store; and every result kept for a [Get] is the value
    of its key in such a store. *)
Theorem kv_service_integrity n max s0 s i p :
  start_sys n max = Ok s0 → rtc kvsys_step s0 s → zlookup (sy_kv s) i = Some p →
  rtc cluster_step (sy_cl s0) (sy_cl s) ∧
  (∃ ops, Forall (op_started (sy_cl s)) ops ∧
     state_of (kn_kv (kp_node p)) ≡ run kv_init ops ∧ run kv_init ops ≡ run kv_init (firsts [] ops)) ∧
  (∀ id v, resultMap (kn_kv (kp_node p)) !! id = Some v → ∃ op ops,
     op_started (sy_cl s) op ∧ Optype op = GetType ∧ commID (ClientID op) (ProposalID op) = id ∧
     Forall (op_started (sy_cl s)) ops ∧ v = default EmptyString (ks_rsm (run kv_init ops) !! Key op)).
Proof.
  intros H0 Hr Hp. destruct (sys_reachable _ _ _ _ H0 Hr) as (_ & Hcl & Hs).
  destruct (legit_sys_kv _ _ _ Hs Hp) as [(ops & Hops & E) Hres _]. split; [done|]. split; [|done].
  exists ops. split_and!; [done..|]. apply run_firsts. by intros op Hop%not_elem_of_nil.
Qed.
End system.

(** ** Witness: a write that goes through Raft. *)
Local Ltac into_net ::= eapply kc_net.

Definition demo_write : PutAppendArgs := MkPAArgs "x" "a" "Put" 7 1.

Lemma kv_service_integrity_witness : ∃ s0 s p ops,
  start_sys (λ _, 100) 3 (-1) = Ok s0 ∧ rtc (kvsys_step (λ _, 100)) s0 s ∧
  zlookup (sy_kv s) 0 = Some p ∧ kv_rsm (kn_kv (kp_node p)) !! "x"%string = Some "a"%string ∧
  Forall (op_started (sy_cl s)) ops ∧ ks_rsm (run kv_init ops) !! "x"%string = Some "a"%string.
Proof.
  assert (∃ s0 s p, start_sys (λ _, 100) 3 (-1) = Ok s0 ∧ rtc (kvsys_step (λ _, 100)) s0 s ∧
    zlookup (sy_kv s) 0 = Some p ∧ kv_rsm (kn_kv (kp_node p)) !! "x"%string = Some "a"%string)
    as (s0 & s & p & H0 & Hr & Hp & Hx).
  { eexists _, _, _. split; [at_peer|]. split.
    { run_candidate 0. run_timeout 0. run_candidate 0. run_ask 0. run_vote 1. run_elected 0 1.
      run_step ltac:(eapply (kc_PutAppend_start _ _ 0 _ _ demo_write); at_peer).
      run_distribute 0. run_send 0 0%nat. run_append 1. run_done 0 uconstr:([]).
      run_step ltac:(eapply (kc_receive _ _ 0); [at_peer|at_peer|at_peer|at_peer]). apply rtc_refl. }
    split; at_peer. }
  destruct (kv_service_integrity (λ _, 100) 3 (-1) s0 s 0 p H0 Hr Hp) as (_ & (ops & Ho & [_ E] & _) & _).
  exists s0, s, p, ops. split_and!; try done. by rewrite <- E.
Defined.
