(* ===== verification/KvClient.v ===== *)
(** * The key/value client: the [Clerk] of [kvraft/client.go].

    A call loops over servers until one of them answers as the leader.  What the loop
    meets is an argument: for every attempt the number [nrand] gives and the answer,
    [None] when the call fails.  The calls sent are returned as well. *)

From S2P Require Import Prelude RaftState Session KvServer.

Record Clerk := MkClerk {
  ck_servers : Z;            (** [len(ck.servers)] *)
  ck_ID : Z;
  commSeq : Z;
  LeaderIndex : Z;
}.

(** [r] is what [nrand] gives, between 0 and [2^62]. *)
Definition MakeClerk (nservers r : Z) : Clerk := MkClerk nservers (i32 r) 1 (-1).

Definition set_LeaderIndex (i : Z) (ck : Clerk) : Clerk :=
  MkClerk (ck_servers ck) (ck_ID ck) (commSeq ck) i.

Section clerk.
(** The two loops are the same code for two kinds of requests; [wrong], [err] read the
    reply, [zero] is a fresh reply. *)
Context {Args Reply : Type} (wrong : Reply → bool) (err : Reply → string) (zero : Reply).

(** The server to ask; [ck.servers[leaderNum]] and [% len(ck.servers)] can panic. *)
Definition pick (ck : Clerk) (rand : Z) : outcome Z :=
  if LeaderIndex ck =? -1 then
    if ck_servers ck =? 0 then Panic else Ok (Z.rem rand (ck_servers ck))
  else if (0 <=? LeaderIndex ck) && (LeaderIndex ck <? ck_servers ck)
       then Ok (LeaderIndex ck) else Panic.

(** The loop: the clerk, the reply it returns with (if any yet), the calls made. *)
Fixpoint clerk_loop (attempts : list (Z * option Reply)) (ck : Clerk) (args : Args) :
    outcome (Clerk * option Reply * list (Z * Args)) :=
  match attempts with
  | [] => Ok (ck, None, [])
  | (rand, answer) :: attempts =>
      leaderNum ← pick ck rand;
      let ok := match answer with Some _ => true | None => false end in
      let reply := default zero answer in
      if wrong reply || negb ok then
        '(ck, r, calls) ← clerk_loop attempts (set_LeaderIndex (-1) ck) args;
        Ok (ck, r, (leaderNum, args) :: calls)
      else if negb (bool_decide (err reply = EmptyString)) then
        '(ck, r, calls) ← clerk_loop attempts ck args;
        Ok (ck, r, (leaderNum, args) :: calls)
      else Ok (set_LeaderIndex leaderNum ck, Some reply, [(leaderNum, args)])
  end.
End clerk.

Definition next_seq (ck : Clerk) : Clerk :=
  MkClerk (ck_servers ck) (ck_ID ck) (commSeq ck + 1) (LeaderIndex ck).

Definition ClerkGet (ck : Clerk) (key : string) (attempts : list (Z * option GetReply)) :
    outcome (Clerk * option string * list (Z * GetArgs)) :=
  let args := MkGetArgs (ck_ID ck) (commSeq ck) key in
  p ← clerk_loop GetWrongLeader GetErr (MkGetReply false EmptyString EmptyString)
        attempts (next_seq ck) args;
  let '(ck, r, calls) := p in Ok (ck, option_map GetValue r, calls).

Definition ClerkPutAppend (ck : Clerk) (key value op : string)
    (attempts : list (Z * option PutAppendReply)) :
    outcome (Clerk * option PutAppendReply * list (Z * PutAppendArgs)) :=
  let args := MkPAArgs key value op (ck_ID ck) (commSeq ck) in
  clerk_loop PAWrongLeader PAErr (MkPAReply false EmptyString) attempts (next_seq ck) args.

Definition ClerkPut (ck : Clerk) (key value : string) attempts :=
  ClerkPutAppend ck key value "Put" attempts.
Definition ClerkAppend (ck : Clerk) (key value : string) attempts :=
  ClerkPutAppend ck key value "Append" attempts.

(** What decoding a [GetReply] into a variable does: zero fields are not transmitted,
    so they keep the value the variable had. *)
Definition gob_decode_into (old sent : GetReply) : GetReply :=
  MkGetReply (if GetWrongLeader sent then true else GetWrongLeader old)
    (if bool_decide (GetErr sent = EmptyString) then GetErr old else GetErr sent)
    (if bool_decide (GetValue sent = EmptyString) then GetValue old else GetValue sent).

(** [GetLeader] asks the servers in turn; a server that does not answer is [None]. *)
Fixpoint GetLeader_from (i : Z) (servers : list (option KVServer)) : Z :=
  match servers with
  | [] => -1
  | srv :: servers =>
      let reply := MkGetReply true EmptyString EmptyString in
      match srv with
      | None => GetLeader_from (i + 1) servers
      | Some kv =>
          let sent := snd (IsLeader kv reply (MkGetReply false EmptyString EmptyString)) in
          if negb (GetWrongLeader (gob_decode_into reply sent)) then i
          else GetLeader_from (i + 1) servers
      end
  end.
Definition GetLeader (servers : list (option KVServer)) : Z := GetLeader_from 0 servers.

(** ** Properties *)

Definition clerk_wf (ck : Clerk) : Prop :=
  0 < ck_servers ck ∧ -1 ≤ LeaderIndex ck < ck_servers ck.

Lemma pick_Ok ck rand :
  clerk_wf ck → 0 ≤ rand → ∃ i, pick ck rand = Ok i ∧ 0 ≤ i < ck_servers ck.
Proof.
  intros [Hn Hl] Hr. unfold pick. destruct (Z.eqb_spec (LeaderIndex ck) (-1)).
  - destruct (Z.eqb_spec (ck_servers ck) 0); [lia|]. eexists; split; [done|].
    by apply Z.rem_bound_pos.
  - destruct (Z.leb_spec 0 (LeaderIndex ck)); [|lia].
    destruct (Z.ltb_spec (LeaderIndex ck) (ck_servers ck)); [|lia]. simpl. eexists; split; [done|lia].
Qed.

Lemma clerk_loop_spec {Args Reply} wrong err (zero : Reply) attempts ck (args : Args) :
  clerk_wf ck → Forall (λ a, 0 ≤ fst a) attempts →
  ∃ ck' r calls, clerk_loop wrong err zero attempts ck args = Ok (ck', r, calls) ∧
    clerk_wf ck' ∧ ck_ID ck' = ck_ID ck ∧ commSeq ck' = commSeq ck ∧
    Forall (λ c, snd c = args ∧ 0 ≤ fst c < ck_servers ck) calls ∧
    match r with
    | Some reply => wrong reply = false ∧ err reply = EmptyString ∧ Some reply ∈ attempts.*2
    | None => length calls = length attempts
    end.
Proof.
  intros Hwf Ha. revert ck Hwf. induction Ha as [|[rand answer] attempts Hr _ IH]; intros ck Hwf; simpl.
  { by exists ck, None, []. }
  destruct (pick_Ok ck rand Hwf Hr) as (i & -> & Hi). simpl.
  assert (Hrec : ∀ ck1, clerk_wf ck1 → ck_ID ck1 = ck_ID ck → commSeq ck1 = commSeq ck →
    ck_servers ck1 = ck_servers ck →
    ∃ ck' r calls, ('(ck, r, calls) ← clerk_loop wrong err zero attempts ck1 args;
        Ok (ck, r, (i, args) :: calls)) = Ok (ck', r, calls) ∧
      clerk_wf ck' ∧ ck_ID ck' = ck_ID ck ∧ commSeq ck' = commSeq ck ∧
      Forall (λ c, snd c = args ∧ 0 ≤ fst c < ck_servers ck) calls ∧
      match r with
      | Some reply => wrong reply = false ∧ err reply = EmptyString ∧
                      Some reply ∈ answer :: attempts.*2
      | None => length calls = S (length attempts)
      end).
  { intros ck1 H1 Eid Eseq En. destruct (IH ck1 H1) as (ck' & r & calls & -> & Hw & Hid & Hseq & Hc & Hm).
    simpl. exists ck', r, ((i, args) :: calls). split_and!; try done; [congruence..| |].
    - constructor; [done|]. by rewrite En in Hc.
    - destruct r; [|simpl; by f_equal]. destruct Hm as (? & ? & ?). split_and!; try done. by right. }
  destruct (wrong (default zero answer)) eqn:Hwr; simpl.
  { apply Hrec; try done. destruct Hwf. split; simpl; lia. }
  destruct answer as [reply|]; simpl; [|by apply Hrec; try done; destruct Hwf; split; simpl; lia].
  case_bool_decide as He; simpl; [|by apply Hrec].
  do 3 eexists; split; [done|]. destruct Hwf. split_and!; try done; simpl; try lia.
  - split; simpl; lia.
  - by apply Forall_singleton.
  - by left.
Qed.

(** A write through a [Clerk] is one request however often it is sent: the clerk
    never asks a server it does not have, every call it makes carries the same client,
    number, key and value, it only returns with the answer of a server that did not
    refuse, and the next request gets the next number. *)
Theorem ClerkPutAppend_one_request ck key value op attempts :
  clerk_wf ck → Forall (λ a, 0 ≤ fst a) attempts →
  ∃ ck' r calls, ClerkPutAppend ck key value op attempts = Ok (ck', r, calls) ∧
    clerk_wf ck' ∧ ck_ID ck' = ck_ID ck ∧ commSeq ck' = commSeq ck + 1 ∧
    Forall (λ c, pa_op (snd c) = pa_op (MkPAArgs key value op (ck_ID ck) (commSeq ck))) calls ∧
    match r with
    | Some reply => PAWrongLeader reply = false ∧ Some reply ∈ attempts.*2
    | None => length calls = length attempts
    end.
Proof.
  intros Hwf Ha. unfold ClerkPutAppend.
  edestruct (clerk_loop_spec PAWrongLeader PAErr (MkPAReply false EmptyString) attempts (next_seq ck)
    (MkPAArgs key value op (ck_ID ck) (commSeq ck))) as (ck' & r & calls & E & Hw & Hid & Hs & Hc & Hr);
    [done|done|].
  exists ck', r, calls. split_and!; try done.
  - eapply Forall_impl; [apply Hc|]. by intros [i a] [-> _].
  - destruct r; [naive_solver|done].
Qed.

(** One [Clerk] must not have two requests under way: the numbers are handed out
    under a lock, but if the log orders the second request before the first, the first
    is dropped by every server although it is acknowledged. *)
Theorem clerk_concurrent_write_lost s ck k1 v1 k2 v2 op1 op2 :
  let first := pa_op (MkPAArgs k1 v1 op1 (ck_ID ck) (commSeq ck)) in
  let second := pa_op (MkPAArgs k2 v2 op2 (ck_ID ck) (commSeq (next_seq ck))) in
  run s [second; first] ≡ run s [second].
Proof.
  intros first second. simpl. apply (covered_noop (Session := kv_session)). right.
  rewrite ks_apply_seq, decide_True; simpl; [lia|].
  split; [|done]. by case_bool_decide.
Qed.

(** [GetLeader] never finds a leader: the answer of [IsLeader] is written into the
    request, and the reply's [false] is not transmitted. *)
Theorem GetLeader_always_fails servers : GetLeader servers = -1.
Proof.
  unfold GetLeader. generalize 0. induction servers as [|[kv|] servers IH]; intros i; simpl; auto.
Qed.

(** Witness: two servers refuse or fail, the third answers. *)
Lemma ClerkPutAppend_one_request_witness : ∃ ck' calls,
  ClerkPutAppend (MakeClerk 3 77) "x" "a" "Put"
    [(5, Some (MkPAReply true "")); (0, None); (4, Some (MkPAReply false ""))] =
  Ok (ck', Some (MkPAReply false ""), calls) ∧ commSeq ck' = 2.
Proof.
  destruct (ClerkPutAppend_one_request (MakeClerk 3 77) "x" "a" "Put"
    [(5, Some (MkPAReply true "")); (0, None); (4, Some (MkPAReply false ""))])
    as (ck' & r & calls & E & _ & _ & Hs & _); [done|by repeat constructor|].
  exists ck', calls. split; [|done]. rewrite E. vm_compute in E. by simplify_eq.
Defined.
