(* ===== verification/KvService.v ===== *)
(** * Clients of the key/value service: clerks of [kvraft/client.go] that call the servers of
    [KvCluster], the history of their calls, and what is known of the servers while Raft keeps
    its promise.

    A clerk is idle or in one call.  From the start of the call its request is on the network: any
    server may handle it, at any time and as often as it likes.  The call returns when the loop of
    the clerk, run on answers given to that request, returns.  [sv_log] is the log that Raft has
    agreed on so far; nothing in the system reads it. *)

From S2P Require Import Prelude RaftState RaftVote RaftAppend RaftLeader RaftRole RaftCluster.
From S2P Require Import Session KvServer KvCluster KvClient.

(** ** Calls *)

Abbreviation request := (GetArgs + PutAppendArgs)%type.

(** The command a handler starts for a request. *)
Definition req_op (q : request) : Op :=
  match q with
  | inl args => MkOp (GetClientID args) (GetCommSeq args) GetType (GetKey args) EmptyString
  | inr args => pa_op args
  end.

(** A call, with the time it was made at and the length of the agreed log then; once it has
    returned, the time, the value it gave (empty for a write) and the length of the log. *)
Record call := MkCall {
  c_req : request;
  c_time : Z;
  c_born : Z;
  c_ret : option (Z * string * Z);
}.

Definition c_op (c : call) : Op := req_op (c_req c).

(** A clerk as it was before its call, and the number of the call it is in. *)
Record client := MkClient { cl_ck : Clerk; cl_busy : option nat }.

Record service := MkSvc {
  sv_sys : kvsys;
  sv_log : list Op;
  sv_now : Z;
  sv_clients : list client;
  sv_calls : list call;
  sv_gets : list (GetArgs * GetReply);                  (** answers of [Get] *)
  sv_waits : list (Z * PutAppendArgs * Z);              (** [PutAppend]s in their loop *)
  sv_puts : list (PutAppendArgs * Z * PutAppendReply);  (** answers, with the index waited for *)
}.

Definition set_sys (sys : kvsys) (l : list Op) (s : service) : service :=
  MkSvc sys l (sv_now s) (sv_clients s) (sv_calls s) (sv_gets s) (sv_waits s) (sv_puts s).
Definition add_wait (w : Z * PutAppendArgs * Z) (s : service) : service :=
  MkSvc (sv_sys s) (sv_log s) (sv_now s) (sv_clients s) (sv_calls s) (sv_gets s) (w :: sv_waits s) (sv_puts s).
Definition add_get (a : GetArgs * GetReply) (s : service) : service :=
  MkSvc (sv_sys s) (sv_log s) (sv_now s) (sv_clients s) (sv_calls s) (a :: sv_gets s) (sv_waits s) (sv_puts s).
Definition add_put (a : PutAppendArgs * Z * PutAppendReply) (s : service) : service :=
  MkSvc (sv_sys s) (sv_log s) (sv_now s) (sv_clients s) (sv_calls s) (sv_gets s) (sv_waits s) (a :: sv_puts s).

(** Client [k] makes a call, and its call [n] returns. *)
Definition begin_call (k : nat) (ck : Clerk) (q : request) (s : service) : service :=
  MkSvc (sv_sys s) (sv_log s) (sv_now s + 1)
    (<[k := MkClient ck (Some (length (sv_calls s)))]> (sv_clients s))
    (sv_calls s ++ [MkCall q (sv_now s) (len (sv_log s)) None])
    (sv_gets s) (sv_waits s) (sv_puts s).
Definition end_call (k : nat) (ck : Clerk) (n : nat) (c : call) (v : string) (s : service) : service :=
  MkSvc (sv_sys s) (sv_log s) (sv_now s + 1)
    (<[k := MkClient ck None]> (sv_clients s))
    (<[n := MkCall (c_req c) (c_time c) (c_born c) (Some (sv_now s, v, len (sv_log s)))]> (sv_calls s))
    (sv_gets s) (sv_waits s) (sv_puts s).

Definition requested (s : service) (op : Op) : Prop := op ∈ c_op <$> sv_calls s.

Section service.
Variable raftStateSize : gobbytes Op → Z.

Inductive svc_step (s : service) : service → Prop :=
(* peers, network and servers; the agreed log may grow.  Handlers run for requests of clients. *)
| ss_sys sys' more :
    kvsys_step raftStateSize (sv_sys s) sys' →
    (∀ op, op_started (sy_cl sys') op → requested s op) →
    svc_step s (set_sys sys' (sv_log s ++ more) s)
(* a PutAppend enters its loop *)
| ss_put_start i nd p args kv' index :
    zlookup (nodes (sy_cl (sv_sys s))) i = Some nd → zlookup (sy_kv (sv_sys s)) i = Some p →
    requested s (pa_op args) → PutAppend_start (kv_at nd p) args = Ok (kv', index) →
    svc_step s (add_wait (i, args, index) (set_sys (set_server i nd p kv' (sv_sys s)) (sv_log s) s))
(* the loops of the handlers answer; a wait survives a crash of its server, which only adds runs *)
| ss_put_answer i nd p args index reply :
    zlookup (nodes (sy_cl (sv_sys s))) i = Some nd → zlookup (sy_kv (sv_sys s)) i = Some p →
    (i, args, index) ∈ sv_waits s → PutAppend_wait index [kv_at nd p] = Some reply →
    svc_step s (add_put (args, index, reply) s)
| ss_get_answer i nd p args reply :
    zlookup (nodes (sy_cl (sv_sys s))) i = Some nd → zlookup (sy_kv (sv_sys s)) i = Some p →
    Get_wait (commID (GetClientID args) (GetCommSeq args)) [kv_at nd p] = Some reply →
    svc_step s (add_get (args, reply) s)
(* clients *)
| ss_get k ck key :
    sv_clients s !! k = Some (MkClient ck None) →
    svc_step s (begin_call k ck (inl (MkGetArgs (ck_ID ck) (commSeq ck) key)) s)
| ss_put k ck key value op :
    sv_clients s !! k = Some (MkClient ck None) →
    svc_step s (begin_call k ck (inr (MkPAArgs key value op (ck_ID ck) (commSeq ck))) s)
| ss_get_return k ck n c args attempts ck' v sent :
    sv_clients s !! k = Some (MkClient ck (Some n)) → sv_calls s !! n = Some c → c_req c = inl args →
    (∀ r, Some r ∈ attempts.*2 → (args, r) ∈ sv_gets s) →
    ClerkGet ck (GetKey args) attempts = Ok (ck', Some v, sent) →
    svc_step s (end_call k ck' n c v s)
| ss_put_return k ck n c args attempts ck' r sent :
    sv_clients s !! k = Some (MkClient ck (Some n)) → sv_calls s !! n = Some c → c_req c = inr args →
    (∀ r, Some r ∈ attempts.*2 → ∃ index, (args, index, r) ∈ sv_puts s) →
    ClerkPutAppend ck (PAKey args) (PAValue args) (PAOp args) attempts = Ok (ck', Some r, sent) →
    svc_step s (end_call k ck' n c EmptyString s).

(** The servers and the clerks [MakeClerk] makes with the numbers [rs]. *)
Definition start_service (n max : Z) (rs : list Z) : outcome service :=
  sys ← start_sys raftStateSize n max;
  Ok (MkSvc sys [] 0 ((λ r, MkClient (MakeClerk n r) None) <$> rs) [] [] [] []).

(** ** What Raft promises *)

(** [follows l T a ms b]: after command [a], the messages [ms] are the commands of the log [l] in
    order, and snapshots that say where the commands go on, up to command [b]. *)
Inductive follows (l : list Op) (T : Z → gmap Z Z → gmap string string → Prop) :
    Z → list (ApplyMsg Op) → Z → Prop :=
| fo_nil a : follows l T a [] a
| fo_command a op ms b :
    zlookup l a = Some op → follows l T (a + 1) ms b →
    follows l T a (MkApplyMsg true (Some op) (a + 1) ∅ ∅ :: ms) b
| fo_snapshot a c seqs rsm ms b :
    0 < c → T c seqs rsm → follows l T c ms b →
    follows l T a (MkApplyMsg false None 0 seqs rsm :: ms) b.

(** The agreed log consists of commands that were started, and every peer hands its server that
    log. *)
Record raft_promise (s : service) : Prop := {
  rp_log : ∀ op, op ∈ sv_log s → op_started (sy_cl (sv_sys s)) op;
  rp_stream : ∀ i nd, zlookup (nodes (sy_cl (sv_sys s))) i = Some nd →
    ∃ b, follows (sv_log s) (was_taken (sy_cl (sv_sys s))) 0 (applyCh (nd_rf nd)) b;
}.

(** What the handlers rely on without checking it: a [PutAppend] that is acknowledged had an index
    of the log to wait for ([PutAppend] ignores whether [Start] accepted its command), and a command
    that is agreed on at that index is its own (no other leader's has taken its place). *)
Definition acks_own (s : service) : Prop :=
  ∀ args index reply, (args, index, reply) ∈ sv_puts s → PAWrongLeader reply = false →
    0 < index ∧ ∀ op, zlookup (sv_log s) (index - 1) = Some op → op = pa_op args.

(** The numbers of the requests fit the identifiers of [commID]. *)
Definition numbers_fit (s : service) : Prop := ∀ c, c ∈ sv_calls s → ProposalID (c_op c) < 2 ^ 32.

(** A step of the service after which all three hold. *)
Record promised_step (s s' : service) : Prop := {
  ps_step : svc_step s s';
  ps_raft : raft_promise s';
  ps_own : acks_own s';
  ps_fit : numbers_fit s';
}.
End service.

(** ** The agreed log grows *)

Section grow.
Context (l more : list Op).

Lemma at_index_app j : j ≤ len l → at_index (l ++ more) j = at_index l j.
Proof. intros Hj. unfold at_index. rewrite take_app_le; [done|]. unfold len in Hj. lia. Qed.

Lemma len_grow : len l ≤ len (l ++ more).
Proof. rewrite len_app. pose proof (len_nonneg more). lia. Qed.

Lemma zlookup_grow {A} (l1 l2 : list A) i x : zlookup l1 i = Some x → zlookup (l1 ++ l2) i = Some x.
Proof. intros H. pose proof (zlookup_Some_lt _ _ _ H). rewrite zlookup_app_l; [done|lia]. Qed.

Lemma good_snap_grow st i : good_snap l st i → good_snap (l ++ more) st i.
Proof.
  intros (j & Hj & Hj' & E). exists j. rewrite at_index_app by done. pose proof len_grow.
  split; [done|]. split; [lia|done].
Qed.

Lemma result_ok_grow id v : result_ok l id v → result_ok (l ++ more) id v.
Proof.
  intros (k & j & op & Hk & Ho & Hid & Hj & Hv). exists k, j, op. rewrite at_index_app by lia.
  pose proof len_grow. split_and!; try done; [by apply zlookup_grow|lia..].
Qed.

Lemma job_ok_grow idx j : job_ok l idx j → job_ok (l ++ more) idx j.
Proof.
  unfold job_ok. destruct (job_maps_of j); [done|]. intros (k & Hk & E). exists k.
  rewrite at_index_app by lia. pose proof len_grow. split; [lia|done].
Qed.

Lemma kv_mem_grow kn idx : kv_mem l kn idx → kv_mem (l ++ more) kn idx.
Proof.
  intros [Hi (j & Hj & E) Hjobs Hr]. split; [done|..].
  - exists j. rewrite at_index_app by lia. pose proof len_grow. split; [lia|done].
  - eapply Forall_impl; [done|]. intros. by apply job_ok_grow.
  - intros id v Hv. by apply result_ok_grow, Hr.
Qed.
End grow.

(** ** Servers that are handed the agreed log *)

Lemma follows_app l T a ms1 ms2 b :
  follows l T a (ms1 ++ ms2) b ↔ ∃ c, follows l T a ms1 c ∧ follows l T c ms2 b.
Proof.
  split.
  - revert a. induction ms1 as [|m ms1 IH]; intros a H; simpl in H; [exists a; split; [constructor|done]|].
    inversion H; subst;
      match goal with H : follows _ _ _ (ms1 ++ ms2) _ |- _ => apply IH in H as (c' & ? & ?) end;
      exists c'; split; try done; by econstructor.
  - intros (c & H1 & H2). induction H1; simpl; [done|constructor; auto|econstructor; eauto].
Qed.

(** Where the messages [pre] end. *)
Definition ends_at (T : Z → gmap Z Z → gmap string string → Prop) (pre : list (ApplyMsg Op)) (a : Z) : Prop :=
  match last pre with
  | None => a = 0
  | Some m => if CommandValid m then a = CommandIndex m
              else 0 < a ∧ T a (ClientMaxRequestSeq m) (Rsm m)
  end.

Lemma follows_ends l T pre a : follows l T 0 pre a → ends_at T pre a.
Proof.
  unfold ends_at. destruct pre as [|m pre _] using rev_ind; intros H; [by inversion H|].
  apply follows_app in H as (c & _ & H). rewrite last_snoc.
  inversion H as [|? op ? ? Hop Hr|? c' ? ? ? ? Hc HT Hr]; subst; simpl; inversion Hr; by subst.
Qed.

Section servers.
Variable raftStateSize : gobbytes Op → Z.
Variable l : list Op.

(** A goroutine whose maps are its own. *)
Definition own_ok (j : snap_job) : Prop :=
  ∃ seqs rsm k, job_maps_of j = Own seqs rsm ∧ job_index j ≤ k ≤ len l ∧ MkKS seqs rsm ≡ at_index l k.

(** The server holds exactly a snapshot. *)
Record kv_snap (kn : kvnode) (seqs : gmap Z Z) (rsm : gmap string string) : Prop := {
  ks_state : state_of (kn_kv kn) ≡ MkKS seqs rsm;
  ks_jobs : Forall own_ok (kn_jobs kn);
  ks_results : map_Forall (result_ok l) (resultMap (kn_kv kn));
}.

(** The server, after the messages [pre]. *)
Definition server_ok (kn : kvnode) (pre : list (ApplyMsg Op)) : Prop :=
  curCommitIndex (kn_kv kn) ≤ len l ∧
  match last pre with
  | None => kv_mem l kn 0
  | Some m => if CommandValid m then kv_mem l kn (CommandIndex m)
              else kv_snap kn (ClientMaxRequestSeq m) (Rsm m)
  end.

Lemma own_job_ok idx j : own_ok j → job_ok l idx j.
Proof. intros (sq & rs & k & E & Hk & Hs). unfold job_ok. rewrite E. by exists k. Qed.

Lemma kv_snap_mem kn seqs rsm c :
  kv_snap kn seqs rsm → good_snap l (MkKS seqs rsm) c → kv_mem l kn c.
Proof.
  intros [Hs Hj Hr] (k & Hk & Hk' & E). split; [lia| | |done].
  - exists k. split; [lia|]. by rewrite Hs.
  - eapply Forall_impl; [done|]. intros. by apply own_job_ok.
Qed.

Definition taken_ok (cl : cluster Op) : Prop :=
  ∀ c seqs rsm, (c, seqs, rsm) ∈ taken cl → 0 ≤ c → good_snap l (MkKS seqs rsm) c.

Lemma server_mem cl kn pre a :
  taken_ok cl → server_ok kn pre → follows l (was_taken cl) 0 pre a → kv_mem l kn a.
Proof.
  intros Ht [_ Hk] Hf%follows_ends. unfold ends_at in Hf. destruct (last pre) as [m|]; [|by subst].
  destruct (CommandValid m); [by subst|]. destruct Hf as [Hpos HT].
  eapply kv_snap_mem; [done|]. apply Ht; [done|lia].
Qed.

Lemma server_results kn pre : server_ok kn pre → map_Forall (result_ok l) (resultMap (kn_kv kn)).
Proof.
  intros [_ Hk]. destruct (last pre) as [m|]; [destruct (CommandValid m)|]; by destruct Hk.
Qed.

(** The server receives the next message. *)
Lemma server_receive cl kn pre m ms b kn' :
  taken_ok cl → server_ok kn pre → follows l (was_taken cl) 0 (pre ++ m :: ms) b →
  mainProcess raftStateSize kn m = Ok kn' → server_ok kn' (pre ++ [m]).
Proof.
  intros Ht Hk (a & Ha & Hm)%follows_app H. pose proof (server_mem _ _ _ _ Ht Hk Ha) as Hmem.
  destruct Hk as [Hcur _]. unfold server_ok. rewrite last_snoc.
  inversion Hm as [|? op ? ? Hop Hr|? c seqs rsm ? ? Hc HT Hr]; subst; simpl.
  - split; [|by eapply mem_command]. apply zlookup_Some_lt in Hop. unfold mainProcess in H. simpl in H.
    simplify_eq/=. unfold apply_op. repeat case_match; simpl in *; lia.
  - unfold mainProcess in H. simpl in H. simplify_eq/=. split; [done|].
    destruct Hmem as [Hi (j & Hj & E) Hjobs Hres]. split; simpl; [done| |done].
    apply Forall_fmap. eapply Forall_impl; [done|]. intros [i [|sq rs]] Hok; unfold own_ok; simpl in *.
    + unfold job_ok in Hok. simpl in Hok. eexists _, _, j. split; [done|]. split; [lia|apply E].
    + destruct Hok as (k & Hk & Es). by exists sq, rs, k.
Qed.

(** A handler has run, or the peer has changed. *)
Lemma server_same kv kv' jobs pre :
  server_ok (MkKN kv jobs) pre → state_of kv' ≡ state_of kv → resultMap kv' = resultMap kv →
  curCommitIndex kv' = curCommitIndex kv → server_ok (MkKN kv' jobs) pre.
Proof.
  intros [Hc Hk] Es Er Ec. split; [simpl in *; by rewrite Ec|].
  assert (∀ idx, kv_mem l (MkKN kv jobs) idx → kv_mem l (MkKN kv' jobs) idx) by (intros; by eapply mem_same).
  destruct (last pre) as [m|]; [|by auto]. destruct (CommandValid m); [by auto|].
  destruct Hk as [Hs Hj Hr]. split; simpl in *; [by rewrite Es|done|by rewrite Er].
Qed.

(** A snapshot goroutine runs: what it writes, and the server without it. *)
Lemma server_job kv js1 j js2 pre rf' :
  server_ok (MkKN kv (js1 ++ j :: js2)) pre →
  (0 ≤ job_index j - 1 →
   good_snap l (MkKS (job_contents kv j).1 (job_contents kv j).2) (job_index j - 1)) ∧
  server_ok (MkKN (set_rf rf' kv) (js1 ++ js2)) pre.
Proof.
  intros [Hc Hk].
  assert (Hmem : ∀ idx, kv_mem l (MkKN kv (js1 ++ j :: js2)) idx → 0 ≤ job_index j - 1 →
    good_snap l (MkKS (job_contents kv j).1 (job_contents kv j).2) (job_index j - 1)).
  { intros idx Hm Hpos. eapply (mem_job_contents _ _ idx j); [exact Hm|simpl; set_solver| |done].
    simpl. unfold job_contents. by destruct (job_maps_of j). }
  unfold server_ok. simpl.
  destruct (last pre) as [m|]; [destruct (CommandValid m)|];
    try (split; [by eapply Hmem|split; [done|by eapply mem_drop_job]]).
  destruct Hk as [Hs Hj Hr]. simpl in *. apply Forall_app in Hj as [H1 H2].
  apply Forall_cons in H2 as [(sq & rs & k & Ej & Hk & E) H2]. split.
  - intros Hpos. unfold job_contents. rewrite Ej. simpl. exists k. split; [lia|]. split; [lia|done].
  - split; [done|]. split; simpl; [done|by apply Forall_app|done].
Qed.

(** A server that starts on a disk. *)
Lemma server_start n i ps max kn :
  StartKVServer raftStateSize n i ps max = Ok kn → server_ok kn (applyCh (kv_rf (kn_kv kn))).
Proof.
  intros H. unfold StartKVServer in H. apply bind_Ok in H as (rf & Hm & H).
  assert (Hinit : kv_mem l (MkKN (MkKV i rf max ∅ 0 ∅ ∅) []) 0) by by apply mem_start.
  pose proof (len_nonneg l).
  destruct (Make_messages _ _ _ _ Hm) as [Ea|(seqs & rsm & Ea)]; rewrite Ea in H; simpl in H; simplify_eq/=;
    rewrite Ea; [by split|]. split; [done|]. by split; simpl.
Qed.
End servers.

(** ** The servers of a system *)

Section system.
Variable raftStateSize : gobbytes Op → Z.

Definition peer_ok (l : list Op) (nd : node Op) (p : kvpeer) : Prop :=
  (kp_read p ≤ length (applyCh (nd_rf nd)))%nat ∧
  server_ok l (kp_node p) (take (kp_read p) (applyCh (nd_rf nd))).

Record servers_ok (l : list Op) (sys : kvsys) : Prop := {
  so_peers : ∀ i nd p, zlookup (nodes (sy_cl sys)) i = Some nd → zlookup (sy_kv sys) i = Some p →
    peer_ok l nd p;
  so_taken : taken_ok l (sy_cl sys);
}.

Lemma server_ok_grow l more kn pre : server_ok l kn pre → server_ok (l ++ more) kn pre.
Proof.
  intros [Hc Hk]. pose proof (len_grow l more). split; [lia|].
  destruct (last pre) as [m|]; [destruct (CommandValid m)|]; try by apply kv_mem_grow.
  destruct Hk as [Hs Hj Hr]. split; [done|..].
  - eapply Forall_impl; [done|]. intros j (sq & rs & k & Ej & Hk & E). exists sq, rs, k.
    rewrite at_index_app by lia. split; [done|]. split; [lia|done].
  - intros id v Hv. by apply result_ok_grow, Hr.
Qed.

Lemma servers_ok_grow l more sys : servers_ok l sys → servers_ok (l ++ more) sys.
Proof.
  intros [Hp Ht]. split.
  - intros i nd p Hn Hi. destruct (Hp i nd p Hn Hi) as [Hl Hk]. split; [done|]. by apply server_ok_grow.
  - intros c seqs rsm Hin Hc. by apply good_snap_grow, Ht.
Qed.

(** A step of server [i] and its peer. *)
Lemma servers_ok_set l sys sys' i nd p nd' p' :
  servers_ok l sys → zlookup (nodes (sy_cl sys)) i = Some nd → zlookup (sy_kv sys) i = Some p →
  nodes (sy_cl sys') = <[Z.to_nat i := nd']> (nodes (sy_cl sys)) →
  sy_kv sys' = set_peer i p' (sy_kv sys) →
  taken_ok l (sy_cl sys') → peer_ok l nd' p' → servers_ok l sys'.
Proof.
  intros [Hall Ht] Hn Hp En Ek Ht' Hok. split; [|done]. intros j ndj pj. rewrite En, Ek. unfold set_peer.
  rewrite (zlookup_set _ _ _ _ _ Hn), (zlookup_set _ _ _ _ _ Hp). case_decide; [|by apply Hall].
  intros ??. by simplify_eq.
Qed.

(** A handler: the peer may have started a command. *)
Lemma servers_ok_handler l sys i nd p kv' :
  servers_ok l sys → zlookup (nodes (sy_cl sys)) i = Some nd → zlookup (sy_kv sys) i = Some p →
  applyCh (kv_rf kv') = applyCh (nd_rf nd) → state_of kv' ≡ state_of (kv_at nd p) →
  resultMap kv' = resultMap (kv_at nd p) → curCommitIndex kv' = curCommitIndex (kv_at nd p) →
  servers_ok l (set_server i nd p kv' sys).
Proof.
  intros Hs Hn Hp Ea Es Er Ec. destruct (so_peers _ _ Hs _ _ _ Hn Hp) as [Hl Hk].
  eapply servers_ok_set; [done..|apply Hs|]. split; simpl; rewrite Ea; [done|].
  destruct (kp_node p) as [kv jobs] eqn:Ekn. unfold kv_at in *. rewrite Ekn in *.
  by eapply server_same.
Qed.

Lemma TakeSnapshots_applyCh (rf rf' : Raft Op) seqs rsm index :
  TakeSnapshots rf seqs rsm index = Ok rf' → applyCh rf' = applyCh rf.
Proof.
  unfold TakeSnapshots. intros H. case_match; [by simplify_eq|]. apply bind_Ok in H as (e & _ & H).
  case_match; [|by simplify_eq]. apply bind_Ok in H as (lg & _ & H). by simplify_eq.
Qed.

Lemma PutAppend_start_ok l sys i nd p args kv' index :
  servers_ok l sys → zlookup (nodes (sy_cl sys)) i = Some nd → zlookup (sy_kv sys) i = Some p →
  PutAppend_start (kv_at nd p) args = Ok (kv', index) → servers_ok l (set_server i nd p kv' sys).
Proof.
  intros Hs Hn Hp H. unfold PutAppend_start in H. apply bind_Ok in H as ([rf' [[a b] c]] & Ha & H).
  apply Start_applyCh in Ha. simplify_eq. by apply servers_ok_handler.
Qed.

Lemma servers_ok_step l sys sys' :
  servers_ok l sys → kvsys_step raftStateSize sys sys' →
  (∀ i nd, zlookup (nodes (sy_cl sys')) i = Some nd →
     ∃ b, follows l (was_taken (sy_cl sys')) 0 (applyCh (nd_rf nd)) b) →
  servers_ok l sys'.
Proof.
  intros Hs Hstep Hraft. destruct Hstep as [cl' Hn|i nd p m kn' Hn Hp Hm H|i nd p js1 j js2 kv' Hn Hp Hj H
    |i nd p args kv' r Hn Hp H|i nd p args kv' b Hn Hp H|i nd p args kv' index Hn Hp H
    |i nd p max kn' Hn Hp H];
    try (destruct (so_peers _ _ Hs _ _ _ Hn Hp) as [Hl Hk]; destruct (kp_node p) as [kv jobs] eqn:Ekn;
         unfold kv_at in *; rewrite Ekn in *; simpl in * ).
  - destruct (net_step_records _ _ Hn) as [_ Et]. split; simpl; [|unfold taken_ok; rewrite Et; apply Hs].
    intros i nd' p Hi Hp. destruct (net_step_peer _ _ _ _ Hn Hi) as (nd & Hnd & [more Ea]).
    destruct (so_peers _ _ Hs _ _ _ Hnd Hp) as [Hl Hk]. unfold peer_ok. rewrite Ea.
    rewrite length_app, take_app_le by lia. split; [lia|done].
  - apply (servers_ok_set l sys _ i nd p nd (MkKP kn' (S (kp_read p)))); try done; [|apply Hs|].
    { simpl. unfold zlookup in Hn. case_decide; [|done]. by rewrite list_insert_id. }
    assert (kp_read p < length (applyCh (nd_rf nd)))%nat by by eapply lookup_lt_Some.
    split; simpl; [lia|]. rewrite (take_S_r _ _ _ Hm). destruct (Hraft _ _ Hn) as [b Hb].
    rewrite <- (take_drop_middle _ _ _ Hm) in Hb.
    eapply server_receive; [apply Hs| |exact Hb|exact H]. by eapply server_same.
  - unfold run_job in H. change (match job_maps_of j with Shared => _ | Own seqs rsm => (seqs, rsm) end)
      with (job_contents (set_rf (nd_rf nd) kv) j) in H.
    destruct (job_contents (set_rf (nd_rf nd) kv) j) as [seqs rsm] eqn:Ej.
    apply bind_Ok in H as (rf' & Ht & H). apply TakeSnapshots_applyCh in Ht. simplify_eq/=.
    destruct (server_job l (set_rf (nd_rf nd) kv) js1 j js2 (take (kp_read p) (applyCh (nd_rf nd))) rf')
      as [Hg Hk']; [by eapply server_same|]. rewrite Ej in Hg.
    eapply servers_ok_set; [exact Hs|done..| |].
    + intros c s r [E|Hin]%elem_of_cons Hc; [|by eapply Hs]. simplify_eq. by apply Hg.
    + split; simpl; by rewrite Ht.
  - eapply servers_ok_handler; [done..| | | |]; unfold Get_begin, kv_at in *; rewrite ?Ekn; simpl in *;
      case_match; simplify_eq; try done;
      apply bind_Ok in H as ([rf' r'] & Ha & H); apply Start_applyCh in Ha; by simplify_eq.
  - pose proof (PutAppend_check_state (set_rf (nd_rf nd) kv) args) as E. rewrite H in E.
    unfold PutAppend_check in H. eapply servers_ok_handler; [done..| | | |]; unfold kv_at; rewrite ?Ekn;
      [|done|..]; by simplify_eq.
  - eapply PutAppend_start_ok; [done..|]. unfold kv_at. by rewrite Ekn.
  - eapply servers_ok_set; [done|done|done|done|done|apply Hs|]. split; simpl; [lia|].
    rewrite firstn_all. by eapply server_start.
Qed.
End system.
