(* ===== verification/ShardMaster.v ===== *)
(** * The shard master: [shardmaster/server.go] and [shardmaster/common.go].

    Go iterates over a map in an order the runtime picks; the definitions that iterate
    take that order as a parameter, [range], a function from a map to the list of its
    entries in some order. *)

From S2P Require Import Prelude RaftState Session.

(** ** Data *)

Definition NShards : Z := 10.

Record Config := MkConfig {
  Num : Z;
  Shards : list Z;                     (** [[NShards]int] *)
  Groups : gmap Z (list string);
}.

(** The zero [Config] ([Groups] is [nil], which reads as the empty map). *)
Definition zeroConfig : Config := MkConfig 0 (replicate 10 0) ∅.

Inductive OpType := JoinType | LeaveType | MoveType | QueryType.

Record Op := MkOp {
  ClientID : Z;
  ProposalID : Z;
  Optype : OpType;
  Servers : gmap Z (list string);
  GIDs : list Z;
  Shard : Z;
  GID : Z;
  OpNum : Z;
}.

#[export] Instance OpType_eq_dec : EqDecision OpType.
Proof. solve_decision. Defined.
#[export] Instance Op_eq_dec : EqDecision Op.
Proof. solve_decision. Defined.

Record ShardMaster := MkSM {
  sm_me : Z;
  sm_rf : Raft Op;
  sm_curCommitIndex : Z;
  configs : list Config;
  sm_ClientMaxRequestSeq : gmap Z Z;
  sm_resultMap : gmap Z Config;
}.

(** [int64(clientID)<<32 + int64(proposalID)] *)
Definition commID (clientID proposalID : Z) : Z :=
  i64 (i64 (Z.shiftl clientID 32) + proposalID).

(** ** [rebalance] *)

(** [for j := 0; j < shardPerGroup; j++ { Shards[shardInd] = gid; shardInd++ }] *)
Fixpoint rebalance_group (n : nat) (gid shardInd : Z) (shards : list Z) : outcome (Z * list Z) :=
  match n with
  | O => Ok (shardInd, shards)
  | S n =>
      shards ← must (zinsert shards shardInd gid);
      rebalance_group n gid (shardInd + 1) shards
  end.

(** The loop over the sorted groups; [shardInd] is not advanced for a remaining shard. *)
Fixpoint rebalance_loop (gids : list Z) (shardPerGroup : Z) (remainShards shardInd : Z)
    (shards : list Z) : outcome (list Z) :=
  match gids with
  | [] => Ok shards
  | gid :: gids =>
      '(shardInd, shards) ← rebalance_group (Z.to_nat shardPerGroup) gid shardInd shards;
      if 0 <? remainShards then
        shards ← must (zinsert shards shardInd gid);
        rebalance_loop gids shardPerGroup (remainShards - 1) shardInd shards
      else rebalance_loop gids shardPerGroup remainShards shardInd shards
  end.

Section range.
Variable range : gmap Z (list string) → list (Z * list string).

Definition rebalance (c : Config) : outcome Config :=
  let groupCount := Z.of_nat (size (Groups c)) in
  if groupCount <=? 0 then Ok c else
  let GroupsIDs := sort_ints (fst <$> range (Groups c)) in
  let shardPerGroup := NShards / groupCount in
  let remainShards := NShards - shardPerGroup * groupCount in
  shards ← rebalance_loop GroupsIDs shardPerGroup remainShards 0 (Shards c);
  Ok (MkConfig (Num c) shards (Groups c)).

(** ** [mainProcess] *)

(** [newConfig]: the number of the next configuration with a copy of the last one. *)
Definition copy_config (last : Config) : Config :=
  MkConfig (Num last + 1) (Shards last) (foldl (λ m kv, <[kv.1 := kv.2]> m) ∅ (range (Groups last))).

Definition join_groups (servers groups : gmap Z (list string)) : gmap Z (list string) :=
  foldl (λ m kv, <[kv.1 := match m !! kv.1 with
                           | None => kv.2
                           | Some l => l ++ kv.2
                           end]> m) groups (range servers).

Definition leave_one (c : Config) (gid : Z) : Config :=
  MkConfig (Num c) ((λ s, if gid =? s then -1 else s) <$> Shards c) (delete gid (Groups c)).

(** The [switch]. *)
Definition change_config (op : Op) (c : Config) : outcome Config :=
  match Optype op with
  | JoinType => Ok (MkConfig (Num c) (Shards c) (join_groups (Servers op) (Groups c)))
  | LeaveType => Ok (foldl leave_one c (GIDs op))
  | MoveType =>
      shards ← must (zinsert (Shards c) (Shard op) (GID op));
      Ok (MkConfig (Num c) shards (Groups c))
  | QueryType => Ok c
  end.

(** The configuration an operation makes of the last one. *)
Definition next_config (op : Op) (last : Config) : outcome Config :=
  c ← change_config op (copy_config last);
  rebalance c.

Definition last_config (cs : list Config) : outcome Config := must (zlookup cs (len cs - 1)).

(** The replicated state. *)
Record smstate := MkSS { ss_configs : list Config; ss_seqs : gmap Z Z }.

(** [mainProcess] after the query case: duplicates are skipped. *)
Definition sm_update (s : smstate) (op : Op) : outcome smstate :=
  let dup := match ss_seqs s !! ClientID op with
             | Some n => ProposalID op <=? n
             | None => false
             end in
  if dup then Ok s else
  last ← last_config (ss_configs s);
  c ← next_config op last;
  Ok (MkSS (ss_configs s ++ [c]) (<[ClientID op := ProposalID op]> (ss_seqs s))).

(** The index is noted before the lock is taken. *)
Definition main_note (sm : ShardMaster) (commitIndex : Z) : ShardMaster :=
  if sm_curCommitIndex sm <? commitIndex
  then MkSM (sm_me sm) (sm_rf sm) commitIndex (configs sm) (sm_ClientMaxRequestSeq sm) (sm_resultMap sm)
  else sm.

Definition query_config (cs : list Config) (num : Z) : outcome Config :=
  if (0 <=? num) && (num <? len cs) then must (zlookup cs num) else last_config cs.

Definition main_locked (sm : ShardMaster) (op : Op) : outcome ShardMaster :=
  match Optype op with
  | QueryType =>
      c ← query_config (configs sm) (OpNum op);
      Ok (MkSM (sm_me sm) (sm_rf sm) (sm_curCommitIndex sm) (configs sm) (sm_ClientMaxRequestSeq sm)
            (<[commID (ClientID op) (ProposalID op) := c]> (sm_resultMap sm)))
  | _ =>
      s ← sm_update (MkSS (configs sm) (sm_ClientMaxRequestSeq sm)) op;
      Ok (MkSM (sm_me sm) (sm_rf sm) (sm_curCommitIndex sm) (ss_configs s) (ss_seqs s)
            (sm_resultMap sm))
  end.

Definition mainProcess (sm : ShardMaster) (msg : ApplyMsg Op) : outcome ShardMaster :=
  op ← must (ApplyCommand msg);
  main_locked (main_note sm (CommandIndex msg)) op.
End range.

(** ** The handlers

    [Join], [Leave], [Move] and [Query] are the same up to the command they start and
    what [Query] does when its command was applied. *)
Definition with_rf (sm : ShardMaster) (rf : Raft Op) : ShardMaster :=
  MkSM (sm_me sm) rf (sm_curCommitIndex sm) (configs sm) (sm_ClientMaxRequestSeq sm) (sm_resultMap sm).

Record JoinArgs := MkJoinArgs { JoinClientID : Z; JoinCommSeq : Z; JoinServers : gmap Z (list string) }.
Record LeaveArgs := MkLeaveArgs { LeaveClientID : Z; LeaveCommSeq : Z; LeaveGIDs : list Z }.
Record MoveArgs := MkMoveArgs { MoveClientID : Z; MoveCommSeq : Z; MoveShard : Z; MoveGID : Z }.
Record QueryArgs := MkQueryArgs { QueryClientID : Z; QueryCommSeq : Z; QueryNum : Z }.

Definition JoinOp (client seq : Z) (servers : gmap Z (list string)) : Op :=
  MkOp client seq JoinType servers [] 0 0 0.
Definition LeaveOp (client seq : Z) (gids : list Z) : Op := MkOp client seq LeaveType ∅ gids 0 0 0.
Definition MoveOp (client seq shard gid : Z) : Op := MkOp client seq MoveType ∅ [] shard gid 0.
Definition QueryOp (client seq num : Z) : Op := MkOp client seq QueryType ∅ [] 0 0 num.

(** [None] for [WrongLeader], else the index to wait for. *)
Definition handler_begin (sm : ShardMaster) (comm : Op) : outcome (ShardMaster * option Z) :=
  if negb (sm_me sm =? GetLeaderNum (sm_rf sm)) then Ok (sm, None) else
  '(rf, (index, _, _)) ← Start (sm_rf sm) (Some comm);
  Ok (with_rf sm rf, Some index).

(** The loop over the states it polls: [Some true] is [WrongLeader]. *)
Fixpoint handler_wait (index : Z) (polls : list ShardMaster) : option bool :=
  match polls with
  | [] => None
  | sm :: polls =>
      if negb (GetLeaderNum (sm_rf sm) =? sm_me sm) then Some true else
      if index <=? sm_curCommitIndex sm then Some false else handler_wait index polls
  end.

(** The end of [Query]: the stored result is taken out. *)
Definition Query_finish (sm : ShardMaster) (client seq : Z) : ShardMaster * Config :=
  (MkSM (sm_me sm) (sm_rf sm) (sm_curCommitIndex sm) (configs sm) (sm_ClientMaxRequestSeq sm)
     (delete (commID client seq) (sm_resultMap sm)),
   default zeroConfig (sm_resultMap sm !! commID client seq)).

(** The handlers: what they do until their loop, and what they answer after it:
    [WrongLeader] and, for [Query], the configuration. *)
Definition Join (sm : ShardMaster) (args : JoinArgs) : outcome (ShardMaster * option Z) :=
  handler_begin sm (JoinOp (JoinClientID args) (JoinCommSeq args) (JoinServers args)).
Definition Leave (sm : ShardMaster) (args : LeaveArgs) : outcome (ShardMaster * option Z) :=
  handler_begin sm (LeaveOp (LeaveClientID args) (LeaveCommSeq args) (LeaveGIDs args)).
Definition Move (sm : ShardMaster) (args : MoveArgs) : outcome (ShardMaster * option Z) :=
  handler_begin sm (MoveOp (MoveClientID args) (MoveCommSeq args) (MoveShard args) (MoveGID args)).
Definition Query (sm : ShardMaster) (args : QueryArgs) : outcome (ShardMaster * option Z) :=
  handler_begin sm (QueryOp (QueryClientID args) (QueryCommSeq args) (QueryNum args)).

(** [sm] is the state at the poll that ends the loop. *)
Definition Query_end (sm : ShardMaster) (args : QueryArgs) (wrongLeader : bool) :
    ShardMaster * (bool * Config) :=
  if wrongLeader then (sm, (true, zeroConfig)) else
  let '(sm, c) := Query_finish sm (QueryClientID args) (QueryCommSeq args) in (sm, (false, c)).

Definition SmKill (sm : ShardMaster) : ShardMaster := with_rf sm (Kill (sm_rf sm)).

(** [mainProcess] is started after [Make] returned: a peer that has a snapshot to send
    would wait for ever. *)
Definition StartServer (nservers me : Z) (ps : Persister Op) : outcome ShardMaster :=
  rf ← Make nservers me ps;
  match applyCh rf with
  | [] => Ok (MkSM me rf 0 [zeroConfig] ∅ ∅)
  | _ :: _ => Block
  end.

(** ** [rebalance] computed *)

Lemma zinsert_lookup {A} (l : list A) i x j :
  0 ≤ i < len l → zlookup (<[Z.to_nat i := x]> l) j = if decide (j = i) then Some x else zlookup l j.
Proof.
  intros Hi. case_decide as Hj.
  - subst. rewrite <- (Z2Nat.id i) at 2 by lia. apply zlookup_insert_eq. unfold len in Hi. lia.
  - apply zlookup_insert_ne. lia.
Qed.

Lemma rebalance_group_spec n gid i shards :
  0 ≤ i → i + Z.of_nat n ≤ len shards →
  ∃ shards', rebalance_group n gid i shards = Ok (i + Z.of_nat n, shards') ∧ len shards' = len shards ∧
    ∀ s, zlookup shards' s = if decide (i ≤ s < i + Z.of_nat n) then Some gid else zlookup shards s.
Proof.
  revert i shards. induction n as [|n IH]; intros i shards Hi Hn; cbn [rebalance_group].
  { exists shards. rewrite Z.add_0_r. split_and!; try done. intros s. by rewrite decide_False by lia. }
  unfold zinsert. rewrite decide_True by lia. cbn.
  destruct (IH (i + 1) (<[Z.to_nat i := gid]> shards)) as (sh & E & Hl & Hs); [lia|rewrite len_insert; lia|].
  exists sh. rewrite E. rewrite len_insert in Hl. split_and!; [do 2 f_equal; lia|done|].
  intros s. rewrite Hs, zinsert_lookup by lia. repeat case_decide; try done; lia.
Qed.

(** At least one shard per group: blocks of [p] shards, in the order of the groups; the
    shards after the blocks keep their owner. *)
Lemma rebalance_loop_blocks gids p r i shards :
  1 ≤ p → 0 ≤ i → i + p * len gids ≤ len shards → (r ≤ 0 ∨ r < len gids) →
  ∃ shards', rebalance_loop gids p r i shards = Ok shards' ∧ len shards' = len shards ∧
    ∀ s, zlookup shards' s =
      if decide (i ≤ s < i + p * len gids) then zlookup gids ((s - i) / p) else zlookup shards s.
Proof.
  intros Hp. revert r i shards. induction gids as [|g gids IH]; intros r i shards Hi Hlen Hr; simpl.
  { exists shards. split_and!; try done. intros s. rewrite len_nil, Z.mul_0_r. by rewrite decide_False by lia. }
  rewrite len_cons in *. pose proof (len_nonneg gids).
  destruct (rebalance_group_spec (Z.to_nat p) g i shards) as (s1 & -> & Hl1 & Hs1); [done|nia|]. simpl.
  rewrite Z2Nat.id in * by lia.
  assert (Hend : ∀ s2 r', len s2 = len shards →
    (∀ s, s < i + p → zlookup s2 s = zlookup s1 s) →
    (∀ s, i + p + p * len gids ≤ s → zlookup s2 s = zlookup s1 s) → (r' ≤ 0 ∨ r' < len gids) →
    ∃ shards', rebalance_loop gids p r' (i + p) s2 = Ok shards' ∧ len shards' = len shards ∧
      ∀ s, zlookup shards' s = if decide (i ≤ s < i + p * (len gids + 1))
        then zlookup (g :: gids) ((s - i) / p) else zlookup shards s).
  { intros s2 r' Hl2 Hb Ha Hr'. destruct (IH r' (i + p) s2) as (sh & -> & Hl & Hs); [lia|nia|done|].
    exists sh. split_and!; [done|lia|]. intros s. rewrite Hs. clear Hs IH.
    case_decide as Hd1; [rewrite decide_True by nia|].
    - assert (Hq : (s - i) / p = (s - (i + p)) / p + 1).
      { replace (s - i) with (s - (i + p) + 1 * p) by lia. by rewrite Z.div_add by lia. }
      assert (0 ≤ (s - (i + p)) / p) by (apply Z.div_pos; lia).
      rewrite Hq. unfold zlookup. rewrite !decide_True by lia.
      by replace (Z.to_nat ((s - (i + p)) / p + 1)) with (S (Z.to_nat ((s - (i + p)) / p))) by lia.
    - case_decide as Hd2.
      + rewrite Hb, Hs1, decide_True by nia. rewrite Z.div_small by nia. done.
      + destruct (decide (s < i)); [rewrite Hb, Hs1, decide_False by lia; done|].
        rewrite Ha, Hs1, decide_False by nia. done. }
  destruct (Z.ltb_spec 0 r).
  - unfold zinsert. rewrite decide_True by nia. simpl. apply Hend; try lia; [by rewrite len_insert|..];
      intros s Hs; rewrite zinsert_lookup by nia; rewrite decide_False; [done| |done|]; nia.
  - apply Hend; try done; lia.
Qed.

(** More groups than shards: only one position is written, again and again. *)
Lemma rebalance_loop_zero gids r i shards :
  0 ≤ r ≤ len gids → 0 ≤ i < len shards →
  ∃ shards', rebalance_loop gids 0 r i shards = Ok shards' ∧ len shards' = len shards ∧
    ∀ s, zlookup shards' s =
      if decide (s = i ∧ 0 < r) then zlookup gids (r - 1) else zlookup shards s.
Proof.
  revert r shards. induction gids as [|g gids IH]; intros r shards Hr Hi; simpl.
  { exists shards. unfold len in Hr. simpl in Hr. split_and!; try done. intros s.
    by rewrite decide_False by lia. }
  rewrite len_cons in Hr. destruct (Z.ltb_spec 0 r).
  - unfold zinsert. rewrite decide_True by lia. simpl.
    destruct (IH (r - 1) (<[Z.to_nat i := g]> shards)) as (sh & -> & Hl & Hs); [lia|by rewrite len_insert|].
    rewrite len_insert in Hl. exists sh. split_and!; try done. intros s. rewrite Hs, zinsert_lookup by done.
    destruct (decide (s = i)) as [->|].
    + rewrite (decide_True (P := i = i ∧ 0 < r)) by done. destruct (decide (0 < r - 1)).
      * rewrite (decide_True (P := i = i ∧ 0 < r - 1)) by done. unfold zlookup.
        rewrite !decide_True by lia.
        by replace (Z.to_nat (r - 1)) with (S (Z.to_nat (r - 1 - 1))) by lia.
      * rewrite decide_False by lia. replace (r - 1) with 0 by lia. done.
    + by rewrite !decide_False by naive_solver.
  - destruct (IH r shards) as (sh & -> & Hl & Hs); [pose proof (len_nonneg gids); lia|done|].
    exists sh. split_and!; try done. intros s. rewrite Hs. by rewrite !decide_False by lia.
Qed.

(** ** Independence of the iteration order *)

(** What Go promises of [range] over a map: every entry, once, in some order. *)
Definition range_ok (range : gmap Z (list string) → list (Z * list string)) : Prop :=
  ∀ m, range m ≡ₚ map_to_list m.

(** The identifiers of the groups in increasing order. *)
Definition gids_of (m : gmap Z (list string)) : list Z := sort_ints (map_to_list m).*1.

Section order.
Context (range : gmap Z (list string) → list (Z * list string)) (Hrange : range_ok range).

Lemma range_nodup m : NoDup (range m).*1.
Proof. rewrite (Hrange m : range m ≡ₚ _). apply NoDup_fst_map_to_list. Qed.

Lemma range_to_map m : list_to_map (range m) = m.
Proof.
  rewrite (list_to_map_proper (M := gmap Z) (range m) (map_to_list m)); [|apply range_nodup|apply Hrange].
  apply list_to_map_to_list.
Qed.

Lemma range_gids m : sort_ints (fst <$> range m) = gids_of m.
Proof. apply sort_ints_perm_eq. by rewrite (Hrange m : range m ≡ₚ _). Qed.

(** A loop that updates the entry of every key it meets. *)
Lemma foldl_update (f : option (list string) → list string → list string)
    (l : list (Z * list string)) (m : gmap Z (list string)) k :
  NoDup l.*1 →
  foldl (λ m kv, <[kv.1 := f (m !! kv.1) kv.2]> m) m l !! k =
  match (list_to_map l : gmap Z (list string)) !! k with Some v => Some (f (m !! k) v) | None => m !! k end.
Proof.
  revert m. induction l as [|[k' v'] l IH]; intros m Hnd; simpl in *.
  { by rewrite lookup_empty. }
  apply NoDup_cons in Hnd as [Hk Hnd]. rewrite IH by done.
  destruct (decide (k = k')) as [->|Hne].
  - rewrite !lookup_insert_eq. by rewrite not_elem_of_list_to_map_1.
  - by rewrite !lookup_insert_ne.
Qed.

Lemma copy_config_eq last : copy_config range last = MkConfig (Num last + 1) (Shards last) (Groups last).
Proof.
  unfold copy_config. f_equal. apply map_eq. intros k.
  rewrite (foldl_update (λ _ v, v)) by apply range_nodup. rewrite range_to_map.
  by destruct (Groups last !! k).
Qed.

Lemma join_groups_lookup servers groups k :
  join_groups range servers groups !! k =
  match servers !! k with
  | Some v => Some (match groups !! k with Some l => l ++ v | None => v end)
  | None => groups !! k
  end.
Proof.
  unfold join_groups.
  rewrite (foldl_update (λ o v, match o with None => v | Some l => l ++ v end)) by apply range_nodup.
  rewrite range_to_map. by destruct (servers !! k), (groups !! k).
Qed.
End order.

(** C36. Replicas cannot diverge through the order in which Go iterates over maps: the
    effect of a message on the shard master is the same for every order. *)
Theorem mainProcess_order_independent range1 range2 sm msg :
  range_ok range1 → range_ok range2 → mainProcess range1 sm msg = mainProcess range2 sm msg.
Proof.
  intros H1 H2.
  assert (Hr : ∀ c, rebalance range1 c = rebalance range2 c)
    by (intros c; unfold rebalance; by rewrite (range_gids range1 H1), (range_gids range2 H2)).
  assert (Hc : ∀ op last, next_config range1 op last = next_config range2 op last).
  { intros op last. unfold next_config.
    rewrite (copy_config_eq range1 H1), (copy_config_eq range2 H2).
    unfold change_config. destruct (Optype op); simpl; rewrite ?Hr; try done.
    - replace (join_groups range1 (Servers op) (Groups last))
        with (join_groups range2 (Servers op) (Groups last)); [done|].
      apply map_eq. intros k. by rewrite !join_groups_lookup.
    - destruct (must _); simpl; by rewrite ?Hr. }
  unfold mainProcess. destruct (must (ApplyCommand msg)) as [op| |]; simpl; try done.
  unfold main_locked, sm_update. destruct (Optype op); try done; simpl; case_match; try done;
    destruct (last_config _); simpl; by rewrite ?Hc.
Qed.

(** ** What [rebalance] does *)

Lemma gids_len m : len (gids_of m) = Z.of_nat (size m).
Proof.
  unfold gids_of, len. rewrite sort_ints_length, length_fmap, length_map_to_list. done.
Qed.

Lemma gids_nodup m : NoDup (gids_of m).
Proof. unfold gids_of. rewrite sort_ints_Permutation. apply NoDup_fst_map_to_list. Qed.

Lemma gids_elem m g : g ∈ gids_of m ↔ is_Some (m !! g).
Proof.
  unfold gids_of. rewrite sort_ints_Permutation, list_elem_of_fmap. split.
  - intros ([k v] & -> & Hin%elem_of_map_to_list). simpl. by eexists.
  - intros [v Hv]. exists (g, v). split; [done|]. by apply elem_of_map_to_list.
Qed.

(** The owner of shard [s] after a rebalance. *)
Definition rebalance_owner (c : Config) (s : Z) : option Z :=
  let g := Z.of_nat (size (Groups c)) in
  let p := NShards / g in
  if decide (g = 0) then zlookup (Shards c) s
  else if decide (g ≤ NShards)
       then if decide (0 ≤ s < p * g) then zlookup (gids_of (Groups c)) (s / p)
            else zlookup (Shards c) s
       else if decide (s = 0) then zlookup (gids_of (Groups c)) (NShards - 1)
            else zlookup (Shards c) s.

Lemma rebalance_Ok range c :
  range_ok range → len (Shards c) = NShards →
  ∃ c', rebalance range c = Ok c' ∧ Num c' = Num c ∧ Groups c' = Groups c ∧
    len (Shards c') = NShards ∧ ∀ s, zlookup (Shards c') s = rebalance_owner c s.
Proof.
  intros Hr Hl. unfold rebalance, rebalance_owner. pose proof (gids_len (Groups c)) as Hg.
  rewrite (range_gids range Hr). set (g := Z.of_nat (size (Groups c))) in *.
  assert (0 ≤ g) by lia. clearbody g.
  destruct (Z.leb_spec g 0); [exists c; split_and!; try done; intros s; by rewrite decide_True by lia|].
  unfold NShards in *.
  pose proof (Z.div_mod 10 g) as Hdm. pose proof (Z.mod_pos_bound 10 g) as Hmod.
  destruct (decide (g ≤ 10)) as [Hle|Hgt].
  - assert (1 ≤ 10 / g) by (apply Z.div_le_lower_bound; lia).
    destruct (rebalance_loop_blocks (gids_of (Groups c)) (10 / g) (10 - 10 / g * g) 0 (Shards c))
      as (sh & -> & Hlen & Hs); [done|done|rewrite Hg; nia|right; rewrite Hg; nia|].
    simpl. eexists; split; [done|]. simpl. split_and!; try done; [congruence|].
    intros s. rewrite Hs, Hg, Z.sub_0_r, Z.add_0_l. by rewrite (decide_False (P := g = 0)) by lia.
  - rewrite Z.div_small by lia. rewrite Z.mul_0_l.
    destruct (rebalance_loop_zero (gids_of (Groups c)) (10 - 0) 0 (Shards c))
      as (sh & -> & Hlen & Hs); [rewrite Hg; lia|lia|].
    simpl. eexists; split; [done|]. simpl. split_and!; try done; [congruence|].
    intros s. rewrite Hs, (decide_False (P := g = 0)) by lia.
    repeat case_decide; try done; naive_solver lia.
Qed.

(** C12. [rebalance] never panics and gives shard [s] to the group [rebalance_owner]
    names: for [g <= 10] groups, blocks of [10/g] shards in the order of the group
    identifiers, the shards after the last block keeping the owner they had; for more
    groups than shards, only shard 0 is assigned. *)
Theorem rebalance_spec range c :
  range_ok range → len (Shards c) = NShards →
  ∃ c', rebalance range c = Ok c' ∧ Num c' = Num c ∧ Groups c' = Groups c ∧
    len (Shards c') = NShards ∧ ∀ s, zlookup (Shards c') s = rebalance_owner c s.
Proof. apply rebalance_Ok. Qed.

(** Blocks of [p] copies. *)
Definition blocks (p : nat) (l : list Z) : list Z := l ≫= replicate p.

Lemma len_blocks p l : len (blocks p l) = Z.of_nat p * len l.
Proof.
  induction l as [|x l IH]; [unfold blocks; simpl; rewrite !len_nil; lia|].
  change (blocks p (x :: l)) with (replicate p x ++ blocks p l). rewrite len_app, IH, len_cons. unfold len at 1. rewrite length_replicate. lia.
Qed.

Lemma zlookup_blocks p l s : (0 < p)%nat → 0 ≤ s → zlookup (blocks p l) s = zlookup l (s / Z.of_nat p).
Proof.
  intros Hp. revert s. induction l as [|x l IH]; intros s Hs.
  { unfold blocks. simpl. unfold zlookup. by repeat case_decide. }
  change (blocks p (x :: l)) with (replicate p x ++ blocks p l).
  assert (Hr : len (replicate p x) = Z.of_nat p) by (unfold len; by rewrite length_replicate).
  destruct (decide (s < Z.of_nat p)).
  - rewrite zlookup_app_l by lia. rewrite Z.div_small by lia. unfold zlookup.
    rewrite decide_True by lia. rewrite lookup_replicate_2; [done|lia].
  - rewrite zlookup_app_r by lia. rewrite IH, Hr by lia.
    replace (s / Z.of_nat p) with ((s - Z.of_nat p) / Z.of_nat p + 1).
    + assert (0 ≤ (s - Z.of_nat p) / Z.of_nat p) by (apply Z.div_pos; lia).
      unfold zlookup. rewrite !decide_True by lia.
      by replace (Z.to_nat ((s - Z.of_nat p) / Z.of_nat p + 1))
        with (S (Z.to_nat ((s - Z.of_nat p) / Z.of_nat p))) by lia.
    + rewrite <- Z.div_add by lia. f_equal. lia.
Qed.

Lemma rebalance_divides range c c' :
  range_ok range → len (Shards c) = NShards → 0 < Z.of_nat (size (Groups c)) →
  (Z.of_nat (size (Groups c)) | NShards) → rebalance range c = Ok c' →
  Groups c' = Groups c ∧
  Shards c' = blocks (Z.to_nat (NShards / Z.of_nat (size (Groups c)))) (gids_of (Groups c)).
Proof.
  intros Hr Hl Hg [p Hp] H. destruct (rebalance_Ok range c Hr Hl) as (c1 & E & _ & EG & Hl' & Hs).
  rewrite H in E. injection E as <-. split; [done|]. pose proof (gids_len (Groups c)) as Hgl.
  unfold rebalance_owner in Hs. set (g := Z.of_nat (size (Groups c))) in *. clearbody g.
  unfold NShards in *. assert (Hq : 10 / g = p) by (rewrite Hp; apply Z.div_mul; lia). rewrite Hq in *.
  assert (0 < p) by nia. apply list_eq_zlookup. intros s Hs0.
  rewrite Hs, zlookup_blocks by lia. rewrite Z2Nat.id by lia.
  rewrite decide_False, decide_True by nia. destruct (decide (0 ≤ s < p * g)); [done|].
  trans (@None Z); [apply zlookup_None; lia|symmetry; apply zlookup_None].
  right. rewrite Hgl. apply Z.div_le_lower_bound; lia.
Qed.

(** How many shards a group owns. *)
Definition owned (c : Config) (gid : Z) : Z := len (filter (λ s, s = gid) (Shards c)).

Lemma blocks_count p l gid :
  NoDup l → len (filter (λ s, s = gid) (blocks p l)) = if decide (gid ∈ l) then Z.of_nat p else 0.
Proof.
  induction 1 as [|x l Hx _ IH].
  { destruct (decide (gid ∈ @nil Z)) as [Hn|]; [by inversion Hn|done]. }
  change (blocks p (x :: l)) with (replicate p x ++ blocks p l).
  rewrite filter_app, len_app, IH.
  assert (Hrep : len (filter (λ s, s = gid) (replicate p x)) = if decide (x = gid) then Z.of_nat p else 0).
  { clear. induction p as [|p IH]; [by case_decide|]. cbn [replicate]. rewrite filter_cons.
    case_decide; rewrite ?len_cons, IH; lia. }
  rewrite Hrep. destruct (decide (x = gid)) as [->|].
  - rewrite decide_False by done. rewrite decide_True by (by left). lia.
  - destruct (decide (gid ∈ l)).
    + rewrite decide_True by (by right). lia.
    + rewrite decide_False by (by intros [->|?]%elem_of_cons). lia.
Qed.

(** When the number of groups divides the number of shards (1, 2, 5 or 10 groups),
    the rebalanced configuration is balanced: every group owns exactly [10/g] shards and
    every shard is owned by an existing group. *)
Theorem rebalance_balanced range c c' :
  range_ok range → len (Shards c) = NShards → 0 < Z.of_nat (size (Groups c)) →
  (Z.of_nat (size (Groups c)) | NShards) → rebalance range c = Ok c' →
  (∀ gid, is_Some (Groups c' !! gid) → owned c' gid = NShards / Z.of_nat (size (Groups c'))) ∧
  (∀ s gid, zlookup (Shards c') s = Some gid → is_Some (Groups c' !! gid)).
Proof.
  intros Hr Hl Hg Hd H. destruct (rebalance_divides range c c' Hr Hl Hg Hd H) as [EG Es].
  rewrite EG. split.
  - intros gid Hgid%gids_elem. unfold owned. rewrite Es, blocks_count by apply gids_nodup.
    rewrite decide_True by done. apply Z2Nat.id. apply Z.div_pos; [done|lia].
  - intros s gid Hs. apply gids_elem. rewrite Es in Hs.
    unfold zlookup in Hs. case_decide; [|done]. apply list_elem_of_lookup_2 in Hs.
    unfold blocks in Hs. apply list_elem_of_bind in Hs as (x & Hx & Hin).
    by apply elem_of_replicate in Hx as [-> _].
Qed.

(** When the number of groups does not divide 10, the last shards are never
    assigned: joining [n] groups to the initial configuration leaves shard 9 with group
    0, the invalid one. *)
Theorem join_leaves_unassigned range op c :
  range_ok range → Optype op = JoinType → 0 < Z.of_nat (size (Servers op)) →
  ¬ (Z.of_nat (size (Servers op)) | NShards) → Servers op !! 0 = None →
  next_config range op zeroConfig = Ok c →
  zlookup (Shards c) 9 = Some 0 ∧ Groups c !! 0 = None.
Proof.
  intros Hr Hop Hpos Hnd H0 H. unfold next_config in H. rewrite copy_config_eq in H by done.
  unfold change_config in H. rewrite Hop in H. simpl in H.
  assert (Hj : join_groups range (Servers op) ∅ = Servers op).
  { apply map_eq. intros k. rewrite join_groups_lookup by done. rewrite lookup_empty.
    by destruct (Servers op !! k). }
  rewrite Hj in H.
  match type of H with rebalance _ ?c0 = _ =>
    destruct (rebalance_Ok range c0 Hr) as (c1 & E & _ & EG & _ & Hs); [done|] end.
  rewrite H in E. injection E as <-. rewrite EG. split; [|done]. rewrite Hs. unfold rebalance_owner. simpl.
  set (g := Z.of_nat (size (Servers op))) in *. clearbody g. unfold NShards in *.
  rewrite decide_False by lia. destruct (decide (g ≤ 10)); [|done].
  rewrite decide_False; [done|]. pose proof (Z.div_mod 10 g). pose proof (Z.mod_pos_bound 10 g).
  assert (10 mod g ≠ 0) by (intros ?; apply Hnd, Z.mod_divide; lia). nia.
Qed.

(** A [Move] is undone at once: the configuration it makes is rebalanced, so with 1,
    2, 5 or 10 groups the shards end up exactly where they were. *)
Theorem move_undone range c0 last client seq shard gid c' :
  range_ok range → len (Shards c0) = NShards → 0 < Z.of_nat (size (Groups c0)) →
  (Z.of_nat (size (Groups c0)) | NShards) → rebalance range c0 = Ok last →
  0 ≤ shard < NShards →
  next_config range (MoveOp client seq shard gid) last = Ok c' → Shards c' = Shards last.
Proof.
  intros Hr Hl Hg Hd Hlast Hsh H. destruct (rebalance_Ok range c0 Hr Hl) as (c1 & E & _ & _ & Hl1 & _).
  rewrite Hlast in E. injection E as <-.
  destruct (rebalance_divides range c0 last Hr Hl Hg Hd Hlast) as [EG Es].
  unfold next_config in H. rewrite copy_config_eq in H by done. unfold change_config in H. simpl in H.
  unfold zinsert in H. rewrite decide_True in H by lia. simpl in H.
  apply rebalance_divides in H as [_ ->]; simpl; rewrite ?EG; [done|done|by rewrite len_insert|done|done].
Qed.

(** ** The history of configurations *)

(** Configuration [i] has number [i]; the first one is the initial one. *)
Record hist (cs : list Config) : Prop := {
  h_first : zlookup cs 0 = Some zeroConfig;
  h_num : ∀ i c, zlookup cs i = Some c → Num c = i ∧ len (Shards c) = NShards;
}.

(** The index into the array of shards is in range. *)
Definition op_ok (op : Op) : Prop := Optype op = MoveType → 0 ≤ Shard op < NShards.

Lemma leave_fold gids c :
  Num (foldl leave_one c gids) = Num c ∧ len (Shards (foldl leave_one c gids)) = len (Shards c).
Proof.
  revert c. induction gids as [|g gids IH]; intros c; simpl; [done|].
  destruct (IH (leave_one c g)) as [-> ->]. split; [done|]. unfold leave_one, len. simpl.
  by rewrite length_fmap.
Qed.

Lemma next_config_Ok range op last :
  range_ok range → op_ok op → len (Shards last) = NShards →
  ∃ c, next_config range op last = Ok c ∧ Num c = Num last + 1 ∧ len (Shards c) = NShards.
Proof.
  intros Hr Hop Hl. unfold next_config. rewrite copy_config_eq by done.
  assert (Hc : ∃ c, change_config range op (MkConfig (Num last + 1) (Shards last) (Groups last)) = Ok c ∧
    Num c = Num last + 1 ∧ len (Shards c) = NShards).
  { unfold change_config. destruct (Optype op) eqn:E; simpl; eauto.
    - eexists; split; [done|]. destruct (leave_fold (GIDs op)
        (MkConfig (Num last + 1) (Shards last) (Groups last))) as [-> ->]. done.
    - unfold zinsert. rewrite decide_True by (rewrite Hl; by apply Hop). simpl. eexists; split; [done|].
      simpl. by rewrite len_insert. }
  destruct Hc as (c & -> & Hn & Hlen). simpl.
  destruct (rebalance_Ok range c Hr Hlen) as (c' & E & Hn' & _ & Hl' & _).
  exists c'. split_and!; try done. congruence.
Qed.

Lemma hist_last cs : hist cs → ∃ c, last_config cs = Ok c ∧ Num c = len cs - 1 ∧ len (Shards c) = NShards.
Proof.
  intros [H0 Hn]. apply zlookup_Some_lt in H0. unfold last_config.
  destruct (zlookup_lt_Some cs (len cs - 1)) as [c Hc]; [lia|]. rewrite Hc. simpl.
  exists c. split; [done|]. by apply Hn.
Qed.

Lemma hist_snoc cs c :
  hist cs → Num c = len cs → len (Shards c) = NShards → hist (cs ++ [c]).
Proof.
  intros [H0 Hn] Hc Hl. pose proof (zlookup_Some_lt _ _ _ H0). split.
  - by rewrite zlookup_app_l by lia.
  - intros i c' Hi. destruct (decide (i < len cs)).
    + rewrite zlookup_app_l in Hi by done. by apply Hn.
    + rewrite zlookup_app_r in Hi by lia. pose proof (zlookup_Some_lt _ _ _ Hi) as Hlt.
      assert (i = len cs) as -> by (unfold len in *; simpl in *; lia).
      rewrite Z.sub_diag in Hi. injection Hi as <-. done.
Qed.

Lemma sm_update_Ok range s op :
  range_ok range → op_ok op → hist (ss_configs s) →
  ∃ s', sm_update range s op = Ok s' ∧ hist (ss_configs s') ∧ ss_configs s `prefix_of` ss_configs s'.
Proof.
  intros Hr Hop Hh. unfold sm_update. case_match; [by exists s|].
  destruct (hist_last _ Hh) as (last & -> & Hn & Hl). simpl.
  destruct (next_config_Ok range op last Hr Hop Hl) as (c & -> & Hc & Hcl). simpl.
  eexists; split; [done|]. simpl. split; [apply hist_snoc; try done; lia|by apply prefix_app_r].
Qed.

Fixpoint mainProcess_all range (sm : ShardMaster) (i : Z) (l : list Op) : outcome ShardMaster :=
  match l with
  | [] => Ok sm
  | op :: l => sm ← mainProcess range sm (MkApplyMsg true (Some op) i ∅ ∅);
               mainProcess_all range sm (i + 1) l
  end.

Lemma mainProcess_Ok range sm i op :
  range_ok range → op_ok op → hist (configs sm) →
  ∃ sm', mainProcess range sm (MkApplyMsg true (Some op) i ∅ ∅) = Ok sm' ∧
    hist (configs sm') ∧ configs sm `prefix_of` configs sm'.
Proof.
  intros Hr Hop Hh. unfold mainProcess. simpl.
  assert (configs (main_note sm i) = configs sm) as Ec by (unfold main_note; by case_match).
  unfold main_locked. destruct (Optype op) eqn:E.
  4: { unfold query_config. rewrite Ec. destruct (Z.leb_spec 0 (OpNum op)); simpl;
         [destruct (Z.ltb_spec (OpNum op) (len (configs sm))); simpl|].
       - destruct (zlookup_lt_Some (configs sm) (OpNum op)) as [c ->]; [lia|]. simpl.
         by eexists; split; [done|].
       - destruct (hist_last _ Hh) as (c & -> & _). simpl. by eexists; split; [done|].
       - destruct (hist_last _ Hh) as (c & -> & _). simpl. by eexists; split; [done|]. }
  all: destruct (sm_update_Ok range
      (MkSS (configs (main_note sm i)) (sm_ClientMaxRequestSeq (main_note sm i))) op Hr Hop)
      as (s' & -> & Hh' & Hp); [by rewrite Ec|]; simpl in *; rewrite Ec in Hp; by eauto.
Qed.

Lemma start_hist n me sm0 : StartServer n me MakePersister = Ok sm0 → hist (configs sm0).
Proof.
  intros H0. vm_compute in H0. injection H0 as <-. split; [done|]. intros j c Hj. simpl in Hj.
  pose proof (zlookup_Some_lt _ _ _ Hj) as Hlt. unfold len in Hlt. simpl in Hlt.
  assert (j = 0) as -> by lia. injection Hj as <-. done.
Qed.

Lemma history_from range sm0 i l :
  range_ok range → Forall op_ok l → hist (configs sm0) →
  ∃ sm, mainProcess_all range sm0 i l = Ok sm ∧ hist (configs sm) ∧
    ∀ l1 l2, l = l1 ++ l2 → ∃ sm1, mainProcess_all range sm0 i l1 = Ok sm1 ∧
      configs sm1 `prefix_of` configs sm.
Proof.
  intros Hr Hops. revert sm0 i. induction Hops as [|op l Hop _ IH]; intros sm0 i Hh; simpl.
  { exists sm0. split_and!; try done. intros l1 l2 E. symmetry in E. apply app_eq_nil in E as [-> _].
    by exists sm0. }
  destruct (mainProcess_Ok range sm0 i op Hr Hop Hh) as (sm1 & E1 & Hh1 & Hp1). rewrite E1. simpl.
  destruct (IH sm1 (i + 1) Hh1) as (sm & E & Hhist & Hall). exists sm. split_and!; try done.
  intros [|op' l1] l2 El.
  - exists sm0. split; [done|]. destruct (Hall [] l eq_refl) as (sm' & [= <-] & Hp). by trans (configs sm1).
  - simpl in El. injection El as <- El. simpl. rewrite E1. simpl. by apply (Hall l1 l2).
Qed.

(** C37. From the start, whatever is logged (with shard numbers in range), the shard
    master never panics, configuration [i] always has number [i] and ten shards, and a
    configuration once made is never changed. *)
Theorem sm_history range n me sm0 i l :
  range_ok range → Forall op_ok l → StartServer n me MakePersister = Ok sm0 →
  ∃ sm, mainProcess_all range sm0 i l = Ok sm ∧ hist (configs sm) ∧
    ∀ l1 l2, l = l1 ++ l2 → ∃ sm1, mainProcess_all range sm0 i l1 = Ok sm1 ∧
      configs sm1 `prefix_of` configs sm.
Proof. intros Hr Hops H0%start_hist. by apply history_from. Qed.

(** ** Sessions *)

#[export] Instance sm_equiv : Equiv (outcome smstate) := (=).
#[export] Instance sm_equivalence : Equivalence (≡@{outcome smstate}).
Proof. unfold equiv, sm_equiv. apply _. Qed.

Definition ss_apply range (o : outcome smstate) (op : Op) : outcome smstate :=
  s ← o; match Optype op with QueryType => Ok s | _ => sm_update range s op end.

(** Queries change nothing; an update is covered by a request number at least as large
    (a panic covers everything: nothing is applied after it). *)
Definition ss_covered (o : outcome smstate) (op : Op) : Prop :=
  match o with
  | Ok s => Optype op = QueryType ∨ ∃ n, ss_seqs s !! ClientID op = Some n ∧ ProposalID op ≤ n
  | _ => True
  end.

Lemma sm_update_seqs range s op s' :
  sm_update range s op = Ok s' →
  (s' = s ∧ ∃ n, ss_seqs s !! ClientID op = Some n ∧ ProposalID op ≤ n) ∨
  (ss_seqs s' = <[ClientID op := ProposalID op]> (ss_seqs s) ∧
   ∀ n, ss_seqs s !! ClientID op = Some n → n < ProposalID op).
Proof.
  unfold sm_update. intros H. destruct (ss_seqs s !! ClientID op) as [n|].
  - destruct (Z.leb_spec (ProposalID op) n); [go_inv; left; naive_solver|].
    apply bind_Ok in H as (last & _ & H). apply bind_Ok in H as (c & _ & H). go_inv.
    right. split; [done|]. by intros ? [= <-].
  - apply bind_Ok in H as (last & _ & H). apply bind_Ok in H as (c & _ & H). go_inv. by right.
Qed.

#[export] Program Instance sm_session range : Session (outcome smstate) Op := {
  sess_apply := ss_apply range;
  covered := ss_covered;
}.
Next Obligation.
  intros range [s| |] op; simpl; try done. unfold ss_apply. simpl. intros [->|(n & Hn & Hle)]; [done|].
  apply Z.leb_le in Hle. unfold sm_update. rewrite Hn, Hle. by destruct (Optype op).
Qed.
Next Obligation.
  intros range [s| |] op; simpl; try done. unfold ss_apply. simpl.
  destruct (Optype op) eqn:E; [..|by left].
  all: destruct (sm_update range s op) as [s'| |] eqn:Eu; try done; right;
    apply sm_update_seqs in Eu as [[-> Hn]|[Es _]]; [done|];
    exists (ProposalID op); by rewrite Es, lookup_insert_eq.
Qed.
Next Obligation.
  intros range [s| |] op op'; simpl; try done. intros [Hq|(n & Hn & Hle)].
  { unfold ss_apply. simpl. destruct (Optype op'); try destruct (sm_update range s op'); by try left. }
  unfold ss_apply. simpl. destruct (Optype op') eqn:E; [..|right; by eauto].
  all: destruct (sm_update range s op') as [s'| |] eqn:Eu; try done; right;
    apply sm_update_seqs in Eu as [[-> _]|[Es Hlt]]; [by eauto|]; rewrite Es;
    destruct (decide (ClientID op' = ClientID op)) as [Ec|];
    [rewrite Ec, lookup_insert_eq; rewrite Ec in Hlt; specialize (Hlt n Hn); eauto with lia
    |rewrite lookup_insert_ne by done; eauto].
Qed.

Definition state_of (sm : ShardMaster) : smstate := MkSS (configs sm) (sm_ClientMaxRequestSeq sm).

Lemma mainProcess_state range sm i op sm' :
  mainProcess range sm (MkApplyMsg true (Some op) i ∅ ∅) = Ok sm' →
  ss_apply range (Ok (state_of sm)) op = Ok (state_of sm').
Proof.
  unfold mainProcess, ss_apply. simpl. intros H.
  assert (state_of (main_note sm i) = state_of sm) as Es by (unfold main_note; by case_match).
  rewrite <- Es. unfold main_locked in H.
  destruct (Optype op); [..|apply bind_Ok in H as (c & _ & H); by go_inv].
  all: apply bind_Ok in H as ([cs seqs] & Hu & H); go_inv; exact Hu.
Qed.

Lemma sm_all_run range sm i l sm' :
  mainProcess_all range sm i l = Ok sm' →
  run (HS := sm_session range) (Ok (state_of sm)) l = Ok (state_of sm').
Proof.
  revert sm i. induction l as [|op l IH]; intros sm i H; simpl in H; [by go_inv|].
  apply bind_Ok in H as (sm1 & H1 & H). apply mainProcess_state in H1.
  change (run (HS := sm_session range) (ss_apply range (Ok (state_of sm)) op) l = Ok (state_of sm')).
  rewrite H1. by eapply IH.
Qed.

(** C38. Administrative requests take effect exactly once: a log with retries leads to
    the configurations of the log that keeps only the first copy of every request. *)
Theorem sm_exactly_once range n me sm0 i l :
  range_ok range → Forall op_ok l → StartServer n me MakePersister = Ok sm0 →
  ∃ sm sm', mainProcess_all range sm0 i l = Ok sm ∧
    mainProcess_all range sm0 i (firsts [] l) = Ok sm' ∧ configs sm = configs sm'.
Proof.
  intros Hr Hops H0%start_hist.
  destruct (history_from range sm0 i l Hr Hops H0) as (sm & E & _).
  assert (Forall op_ok (firsts [] l)) as Hops'.
  { rewrite Forall_forall in *. intros op Hin%firsts_sub. by apply Hops. }
  destruct (history_from range sm0 i (firsts [] l) Hr Hops' H0) as (sm' & E' & _).
  exists sm, sm'. split_and!; try done. apply sm_all_run in E, E'.
  pose proof (run_firsts (HS := sm_session range) (Ok (state_of sm0)) [] l) as Hf.
  rewrite E, E' in Hf. assert (Ok (state_of sm) = Ok (state_of sm')) as [=]; [|done].
  apply Hf. intros op Hin. by apply elem_of_nil in Hin.
Qed.

(** What [Query] returns once its command was applied: the configuration with the
    number asked for if there is one, the latest one otherwise; the answer is taken out
    of the table. *)
Theorem Query_answers range sm i client seq num sm' :
  hist (configs sm) → mainProcess range sm (MkApplyMsg true (Some (QueryOp client seq num)) i ∅ ∅) = Ok sm' →
  ∃ c, Query_finish sm' client seq =
      (MkSM (sm_me sm') (sm_rf sm') (sm_curCommitIndex sm') (configs sm')
         (sm_ClientMaxRequestSeq sm') (delete (commID client seq) (sm_resultMap sm')), c) ∧
    zlookup (configs sm) (Num c) = Some c ∧
    Num c = if decide (0 ≤ num < len (configs sm)) then num else len (configs sm) - 1.
Proof.
  intros Hh H. unfold mainProcess, main_locked in H. simpl in H.
  assert (configs (main_note sm i) = configs sm) as Ec by (unfold main_note; by case_match).
  apply bind_Ok in H as (c & Hc & H). go_inv. rewrite Ec in Hc.
  assert (zlookup (configs sm) (if decide (0 ≤ num < len (configs sm)) then num else len (configs sm) - 1) = Some c) as Hz.
  { unfold query_config, last_config in Hc. destruct (decide (0 ≤ num < len (configs sm))) as [Hd|Hd].
    - rewrite (proj2 (Z.leb_le 0 num)), (proj2 (Z.ltb_lt num _)) in Hc by lia. simpl in Hc. by go_inv.
    - destruct (_ && _) eqn:Eb; [go_bools; lia|]. by go_inv. }
  exists c. unfold Query_finish. simpl. rewrite lookup_insert_eq. split; [done|].
  destruct (h_num _ Hh _ _ Hz) as [Hn _]. rewrite Hn. done.
Qed.

(** The index is published before the answer is stored: a [Query] that polls in
    between returns the zero configuration. *)
Theorem Query_race sm op i :
  GetLeaderNum (sm_rf sm) = sm_me sm → sm_curCommitIndex sm < i →
  sm_resultMap sm !! commID (ClientID op) (ProposalID op) = None →
  let mid := main_note sm i in
  handler_wait i [mid] = Some false ∧
  snd (Query_finish mid (ClientID op) (ProposalID op)) = zeroConfig.
Proof.
  intros Hl Hi Hn mid. unfold mid, main_note. rewrite (proj2 (Z.ltb_lt _ _) Hi). simpl.
  rewrite Hl, Z.eqb_refl, Z.leb_refl. unfold Query_finish. simpl. by rewrite Hn.
Qed.

(** ** Witnesses: three groups, two groups, and a few requests. *)
Definition demo_two : gmap Z (list string) := {[ 4 := ["a"; "b"]; 7 := ["c"] ]}%string.
Definition demo_three : gmap Z (list string) := {[ 4 := ["a"]; 7 := ["b"]; 9 := ["c"] ]}%string.
Definition demo_config : Config := MkConfig 1 (replicate 10 0) demo_two.
Definition demo_balanced : Config := MkConfig 1 [4; 4; 4; 4; 4; 7; 7; 7; 7; 7] demo_two.
Definition demo_ops : list Op :=
  [JoinOp 1 0 demo_two; MoveOp 1 1 3 7; JoinOp 1 0 demo_two; LeaveOp 1 2 [4]].
Definition demo_sm : ShardMaster :=
  MkSM 0 {| me := 0; peers := 3; persister := MakePersister; leaderNum := 0; currentTerm := 1;
            votedFor := 0; log := [MkCT None 0]; commitIndex := 0; lastApplied := 0;
            nextIndex := []; matchIndex := []; exitFlag := false; AENotifyChan := 0;
            commandToBeExec := 0; applyCh := []; lastIndexInSnapshot := 0; lastTermInSnapshot := 0 |}
    0 [zeroConfig] ∅ ∅.

Lemma map_to_list_ok : range_ok map_to_list.
Proof. by intros m. Qed.

(** An order Go may choose as well. *)
Lemma reverse_ok : range_ok (λ m, reverse (map_to_list m)).
Proof. intros m. apply reverse_Permutation. Qed.

Lemma demo_ops_ok : Forall op_ok demo_ops.
Proof. repeat (constructor; [by intros ?|]). constructor. Qed.

Lemma rebalance_spec_witness : ∃ c', rebalance map_to_list demo_config = Ok c' ∧
  zlookup (Shards c') 9 = Some 7.
Proof.
  destruct (rebalance_spec map_to_list demo_config map_to_list_ok) as (c' & E & _ & _ & _ & Hs); [done|].
  exists c'. split; [done|]. rewrite Hs. vm_compute. reflexivity.
Defined.

Lemma demo_rebalanced : rebalance map_to_list demo_config = Ok demo_balanced.
Proof. vm_compute. reflexivity. Qed.

Lemma demo_divides : (Z.of_nat (size demo_two) | NShards).
Proof. exists 5. vm_compute. reflexivity. Qed.

Lemma rebalance_balanced_witness : owned demo_balanced 4 = 5.
Proof.
  destruct (rebalance_balanced map_to_list demo_config demo_balanced map_to_list_ok) as [Ho _];
    [done|vm_compute; reflexivity|apply demo_divides|apply demo_rebalanced|].
  rewrite Ho; [vm_compute; reflexivity|vm_compute; eauto].
Defined.

Lemma demo_join_three : ∃ c, next_config map_to_list (JoinOp 1 0 demo_three) zeroConfig = Ok c ∧
  Groups c !! 0 = None.
Proof. vm_compute. eauto. Qed.

Lemma join_leaves_unassigned_witness : ∃ c,
  next_config map_to_list (JoinOp 1 0 demo_three) zeroConfig = Ok c ∧ zlookup (Shards c) 9 = Some 0.
Proof.
  destruct demo_join_three as (c & E & _). exists c. split; [done|].
  apply (join_leaves_unassigned map_to_list (JoinOp 1 0 demo_three) c map_to_list_ok);
    [done|vm_compute; reflexivity| |vm_compute; reflexivity|done].
  intros Hd%Z.mod_divide; [vm_compute in Hd; done|vm_compute; done].
Defined.

Lemma demo_move : ∃ c', next_config map_to_list (MoveOp 1 1 3 7) demo_balanced = Ok c' ∧
  Num c' = 2.
Proof. vm_compute. eauto. Qed.

Lemma move_undone_witness : ∃ c', next_config map_to_list (MoveOp 1 1 3 7) demo_balanced = Ok c' ∧
  Shards c' = Shards demo_balanced.
Proof.
  destruct demo_move as (c' & E & _). exists c'. split; [done|].
  apply (move_undone map_to_list demo_config demo_balanced 1 1 3 7 c' map_to_list_ok);
    [done|vm_compute; reflexivity|apply demo_divides|apply demo_rebalanced|done|done].
Defined.

Lemma mainProcess_order_witness :
  mainProcess map_to_list demo_sm (MkApplyMsg true (Some (JoinOp 1 0 demo_two)) 1 ∅ ∅) =
  mainProcess (λ m, reverse (map_to_list m)) demo_sm (MkApplyMsg true (Some (JoinOp 1 0 demo_two)) 1 ∅ ∅).
Proof. apply (mainProcess_order_independent _ _ _ _ map_to_list_ok reverse_ok). Defined.

Lemma demo_sm_start : ∃ sm0, StartServer 3 0 MakePersister = Ok sm0 ∧ configs sm0 = [zeroConfig].
Proof. vm_compute. eauto. Qed.

Lemma sm_history_witness : ∃ sm0 sm,
  mainProcess_all map_to_list sm0 1 demo_ops = Ok sm ∧ hist (configs sm).
Proof.
  destruct demo_sm_start as (sm0 & E0 & _).
  destruct (sm_history map_to_list 3 0 sm0 1 demo_ops map_to_list_ok demo_ops_ok E0) as (sm & E & Hh & _).
  by exists sm0, sm.
Defined.

Lemma sm_exactly_once_witness : ∃ sm0 sm sm',
  mainProcess_all map_to_list sm0 1 demo_ops = Ok sm ∧
  mainProcess_all map_to_list sm0 1 (firsts [] demo_ops) = Ok sm' ∧ configs sm = configs sm'.
Proof.
  destruct demo_sm_start as (sm0 & E0 & _). exists sm0.
  apply (sm_exactly_once map_to_list 3 0 sm0 1 demo_ops map_to_list_ok demo_ops_ok E0).
Defined.

Lemma demo_query : ∃ sm', mainProcess map_to_list demo_sm
  (MkApplyMsg true (Some (QueryOp 1 5 (-1))) 1 ∅ ∅) = Ok sm' ∧ configs sm' = [zeroConfig].
Proof. vm_compute. eauto. Qed.

Lemma Query_answers_witness : ∃ sm' c, snd (Query_finish sm' 1 5) = c ∧ Num c = 0.
Proof.
  destruct demo_query as (sm' & E & _).
  destruct (Query_answers map_to_list demo_sm 1 1 5 (-1) sm') as (c & Hf & _ & Hn);
    [destruct demo_sm_start as (sm0 & E0 & Ec); apply start_hist in E0; by rewrite Ec in E0|done|].
  exists sm', c. by rewrite Hf.
Defined.

Lemma Query_race_witness : handler_wait 1 [main_note demo_sm 1] = Some false ∧
  snd (Query_finish (main_note demo_sm 1) 1 5) = zeroConfig.
Proof. by apply (Query_race demo_sm (QueryOp 1 5 (-1)) 1). Defined.
