(* ===== verification/SmCluster.v ===== *)
(** * The shard master service: servers of [shardmaster/server.go] on the cluster of [RaftCluster].

    As in [KvCluster]: every server reads what its peer puts on [applyCh] and starts commands on it;
    requests of clients reach any server at any time; [sp_read] messages of [applyCh] were
    received.  Shard masters take no snapshots, so a server that restarts reads its log again
    from the beginning.  Nothing is assumed of Raft. *)

From S2P Require Import Prelude RaftState RaftVote RaftAppend RaftLeader RaftRole RaftCluster.
From S2P Require Import Session ShardMaster.

(** ** The system *)

Record smpeer := MkSP { sp_sm : ShardMaster; sp_read : nat }.
Record smsys := MkSmSys { sm_cl : cluster Op; sm_peers : list smpeer }.

(** A request of a client. *)
Inductive sm_request :=
| RJoin (args : JoinArgs)
| RLeave (args : LeaveArgs)
| RMove (args : MoveArgs)
| RQuery (args : QueryArgs).

Definition sm_handle (sm : ShardMaster) (q : sm_request) : outcome (ShardMaster * option Z) :=
  match q with
  | RJoin args => Join sm args
  | RLeave args => Leave sm args
  | RMove args => Move sm args
  | RQuery args => Query sm args
  end.

(** The command its handler starts. *)
Definition sm_op (q : sm_request) : Op :=
  match q with
  | RJoin args => JoinOp (JoinClientID args) (JoinCommSeq args) (JoinServers args)
  | RLeave args => LeaveOp (LeaveClientID args) (LeaveCommSeq args) (LeaveGIDs args)
  | RMove args => MoveOp (MoveClientID args) (MoveCommSeq args) (MoveShard args) (MoveGID args)
  | RQuery args => QueryOp (QueryClientID args) (QueryCommSeq args) (QueryNum args)
  end.

(** The server's pointer to its peer. *)
Definition sm_at (nd : node Op) (p : smpeer) : ShardMaster := ShardMaster.with_rf (sp_sm p) (nd_rf nd).

Definition set_sm (i : Z) (p : smpeer) (ps : list smpeer) : list smpeer := <[Z.to_nat i := p]> ps.

(** A handler has run on server [i]. *)
Definition set_server (i : Z) (nd : node Op) (p : smpeer) (sm : ShardMaster) (s : smsys) : smsys :=
  MkSmSys (add_started (new_entries (nd_rf nd) (sm_rf sm)) (set_node i (RaftCluster.with_rf nd (sm_rf sm)) (sm_cl s)))
    (set_sm i (MkSP sm (sp_read p)) (sm_peers s)).

Section system.
Variable range : gmap Z (list string) → list (Z * list string).

Inductive smsys_step (s : smsys) : smsys → Prop :=
(* peers and network *)
| sc_net cl' : net_step (sm_cl s) cl' → smsys_step s (MkSmSys cl' (sm_peers s))
(* mainProcess receives a message *)
| sc_receive i nd p m sm' :
    zlookup (nodes (sm_cl s)) i = Some nd → zlookup (sm_peers s) i = Some p →
    applyCh (nd_rf nd) !! sp_read p = Some m → mainProcess range (sm_at nd p) m = Ok sm' →
    smsys_step s (MkSmSys (sm_cl s) (set_sm i (MkSP sm' (S (sp_read p))) (sm_peers s)))
(* handlers *)
| sc_handle i nd p q sm' r :
    zlookup (nodes (sm_cl s)) i = Some nd → zlookup (sm_peers s) i = Some p →
    sm_handle (sm_at nd p) q = Ok (sm', r) →
    smsys_step s (set_server i nd p sm' s)
| sc_Query_end i nd p args sm' wrongLeader c :
    zlookup (nodes (sm_cl s)) i = Some nd → zlookup (sm_peers s) i = Some p →
    Query_end (sm_at nd p) args wrongLeader = (sm', (wrongLeader, c)) →
    smsys_step s (set_server i nd p sm' s)
(* a crash and a restart *)
| sc_restart i nd p sm' :
    zlookup (nodes (sm_cl s)) i = Some nd → zlookup (sm_peers s) i = Some p →
    StartServer (len (nodes (sm_cl s))) i (Copy (persister (nd_rf nd))) = Ok sm' →
    smsys_step s (MkSmSys (set_node i (MkNode (sm_rf sm') AtTop [] []) (sm_cl s))
      (set_sm i (MkSP sm' 0) (sm_peers s))).

(** [n] new servers. *)
Fixpoint start_servers (n : Z) (ids : list Z) : outcome (list ShardMaster) :=
  match ids with
  | [] => Ok []
  | i :: ids => sm ← StartServer n i MakePersister; sms ← start_servers n ids; Ok (sm :: sms)
  end.

Definition start_sm (n : Z) : outcome smsys :=
  sms ← start_servers n (seqZ 0 n);
  Ok (MkSmSys (MkCluster ((λ sm, MkNode (sm_rf sm) AtTop [] []) <$> sms) [] [] [] [] [] [] [] [])
        ((λ sm, MkSP sm 0) <$> sms)).

(** ** The cluster below *)

(** What a handler does to its server: it may start its command. *)
Lemma sm_handle_cases sm q sm' r :
  sm_handle sm q = Ok (sm', r) →
  (sm' = sm ∨ ∃ rf' z, Start (sm_rf sm) (Some (sm_op q)) = Ok (rf', z) ∧ sm' = ShardMaster.with_rf sm rf').
Proof.
  intros H. assert (handler_begin sm (sm_op q) = Ok (sm', r)) as Hb by by destruct q.
  unfold handler_begin in Hb. case_match; [simplify_eq; by left|].
  apply bind_Ok in Hb as ([rf' [[a b] c]] & Hs & Hb). simplify_eq. right. by eexists _, _.
Qed.

Lemma sm_set_server_id i nd p sm s :
  zlookup (nodes (sm_cl s)) i = Some nd → sm_rf sm = nd_rf nd → sm_cl (set_server i nd p sm s) = sm_cl s.
Proof.
  intros Hi Hk. unfold set_server, new_entries, RaftCluster.with_rf. simpl. rewrite Hk, drop_all.
  destruct s as [[] ?], nd. unfold add_started, set_node. simpl in *. f_equal.
  unfold zlookup in Hi. case_decide; [|done]. by apply list_insert_id.
Qed.

Lemma Query_end_rf sm args b sm' r : Query_end sm args b = (sm', r) → sm_rf sm' = sm_rf sm ∧ configs sm' = configs sm ∧
  sm_ClientMaxRequestSeq sm' = sm_ClientMaxRequestSeq sm ∧ sm_resultMap sm' ⊆ sm_resultMap sm.
Proof.
  unfold Query_end. intros H. destruct b; simplify_eq/=; [done|]. split_and!; try done. apply delete_subseteq.
Qed.

(** The service only drives Raft in ways the cluster allows. *)
Lemma smsys_step_cluster s s' : smsys_step s s' → rtc cluster_step (sm_cl s) (sm_cl s').
Proof.
  destruct 1 as [cl' Hn|i nd p m sm' Hn Hp Hm H|i nd p q sm' r Hn Hp H|i nd p args sm' b c Hn Hp H|i nd p sm' Hn Hp H].
  - by apply rtc_once, cs_net.
  - done.
  - apply sm_handle_cases in H as [->|(rf' & [[index t] b] & Hs & ->)]; [by rewrite sm_set_server_id|].
    change (sm_rf (sm_at nd p)) with (nd_rf nd) in Hs.
    apply rtc_once. unfold set_server. simpl. rewrite (Start_entries _ _ _ _ _ _ Hs). by eapply cs_Start.
  - apply Query_end_rf in H as (E & _). by rewrite sm_set_server_id.
  - apply rtc_once. unfold StartServer in H. apply bind_Ok in H as (rf & Hm & H).
    destruct (applyCh rf); simplify_eq/=. by eapply cs_restart.
Qed.

(** Nobody takes snapshots. *)
Lemma smsys_step_taken s s' : smsys_step s s' → taken (sm_cl s') = taken (sm_cl s).
Proof. destruct 1; try done. by destruct (net_step_records _ _ H) as [_ ?]. Qed.

(** ** Histories *)

Definition fresh : outcome smstate := Ok (MkSS [zeroConfig] ∅).

(** The commands that server [p] has received from its peer. *)
Definition delivered (nd : node Op) (p : smpeer) : list Op :=
  omap ApplyCommand (take (sp_read p) (applyCh (nd_rf nd))).

Abbreviation sm_run := (run (HS := sm_session range)).

Hypothesis Hrange : range_ok range.

(** A step that is made has a shard number in range. *)
Lemma sm_update_hist s op s' :
  sm_update range s op = Ok s' → hist (ss_configs s) →
  hist (ss_configs s') ∧ ss_configs s `prefix_of` ss_configs s'.
Proof.
  intros H Hh. assert (s' = s ∨ op_ok op) as [->|Hop]; [|done|].
  - unfold sm_update in H. case_match; [left; by simplify_eq|right]. intros Hm.
    destruct (hist_last _ Hh) as (last & El & _ & Hl). rewrite El in H. simpl in H.
    apply bind_Ok in H as (c & Hc & _). unfold next_config in Hc. rewrite copy_config_eq in Hc by done.
    apply bind_Ok in Hc as (c1 & Hc & _). unfold change_config in Hc. rewrite Hm in Hc. simpl in Hc.
    apply bind_Ok in Hc as (shards & Hz%must_Ok & _). unfold zinsert in Hz. case_decide; [|done]. by rewrite <- Hl.
  - destruct (sm_update_Ok range s op Hrange Hop Hh) as (s1 & E & ? & ?). rewrite H in E. by simplify_eq.
Qed.

Lemma apply_hist s op s' :
  ss_apply range (Ok s) op = Ok s' → hist (ss_configs s) →
  hist (ss_configs s') ∧ ss_configs s `prefix_of` ss_configs s'.
Proof.
  unfold ss_apply. simpl. destruct (Optype op); [by apply sm_update_hist..|]. intros [= <-] Hh. by split.
Qed.

Lemma run_Ok o l s' : sm_run o l = Ok s' → ∃ s, o = Ok s.
Proof.
  revert o. induction l as [|op l IH]; intros o H; [by exists s'|].
  apply (IH (ss_apply range o op)) in H as [s1 H]. destruct o; [by eexists|done..].
Qed.

Lemma run_hist s l s' :
  sm_run (Ok s) l = Ok s' → hist (ss_configs s) → hist (ss_configs s') ∧ ss_configs s `prefix_of` ss_configs s'.
Proof.
  revert s. induction l as [|op l IH]; intros s H Hh; [cbn in H; by simplify_eq|].
  change (sm_run (ss_apply range (Ok s) op) l = Ok s') in H.
  destruct (run_Ok _ _ _ H) as [s1 E]. rewrite E in H. apply apply_hist in E as [Hh1 Hp]; [|done]. destruct (IH s1 H Hh1) as [? ?]. split; [done|]. by etrans.
Qed.

(** What a server keeps, after the commands it has received. *)
Record sm_ok (nd : node Op) (p : smpeer) : Prop := {
  so_read : (sp_read p ≤ length (applyCh (nd_rf nd)))%nat;
  so_state : sm_run fresh (delivered nd p) = Ok (state_of (sp_sm p));
  so_results : map_Forall (λ _ c, c ∈ configs (sp_sm p)) (sm_resultMap (sp_sm p));
}.

Lemma fresh_hist : hist [zeroConfig].
Proof.
  split; [done|]. intros i c Hi. pose proof (zlookup_Some_lt _ _ _ Hi) as Hlt. unfold len in Hlt. simpl in Hlt.
  assert (i = 0) as -> by lia. by injection Hi as <-.
Qed.

Lemma sm_ok_hist nd p : sm_ok nd p → hist (configs (sp_sm p)).
Proof. intros [_ Hs _]. by destruct (run_hist _ _ _ Hs fresh_hist) as [? _]. Qed.

(** A result is a configuration of the server. *)
Lemma mainProcess_results sm i op sm' :
  mainProcess range sm (MkApplyMsg true (Some op) i ∅ ∅) = Ok sm' → hist (configs sm) →
  map_Forall (λ _ c, c ∈ configs sm) (sm_resultMap sm) → map_Forall (λ _ c, c ∈ configs sm') (sm_resultMap sm').
Proof.
  intros H Hh Hr. pose proof H as Hst. apply mainProcess_state, apply_hist in Hst as [_ Hp]; [|done]. simpl in Hp.
  assert (Hr' : map_Forall (λ _ c, c ∈ configs sm') (sm_resultMap sm)).
  { intros id c Hc. destruct Hp as [k ->]. apply elem_of_app. left. by eapply Hr. }
  assert (sm_resultMap (main_note sm i) = sm_resultMap sm ∧ configs (main_note sm i) = configs sm) as [Em Ec]
    by (unfold main_note; by destruct (_ <? _)).
  unfold mainProcess in H. simpl in H. unfold main_locked in H.
  destruct (Optype op); apply bind_Ok in H as (x & Hx & H); simplify_eq/=; rewrite Em; try done.
  apply map_Forall_insert_2; [|done]. rewrite Ec in *. unfold query_config, last_config in Hx.
  assert (∀ k, zlookup (configs sm) k = Some x → x ∈ configs sm) as Hin.
  { intros k Hk. unfold zlookup in Hk. case_decide; [|done]. by eapply list_elem_of_lookup_2. }
  case_match; apply must_Ok in Hx; by eapply Hin.
Qed.

Lemma sm_ok_receive nd p m sm' :
  sm_ok nd p → applyCh (nd_rf nd) !! sp_read p = Some m → mainProcess range (sm_at nd p) m = Ok sm' →
  sm_ok nd (MkSP sm' (S (sp_read p))).
Proof.
  intros Hok Hm H. pose proof (sm_ok_hist _ _ Hok) as Hh. destruct Hok as [Hl Hs Hr].
  destruct (ApplyCommand m) as [op|] eqn:Eop; [|unfold mainProcess in H; by rewrite Eop in H].
  assert (mainProcess range (sm_at nd p) (MkApplyMsg true (Some op) (CommandIndex m) ∅ ∅) = Ok sm') as H'
    by (unfold mainProcess in *; by rewrite Eop in H).
  split; simpl.
  - by eapply lookup_lt_Some.
  - unfold delivered. simpl. rewrite (take_S_r _ _ _ Hm), omap_app. simpl. rewrite Eop. simpl.
    rewrite (run_snoc (HS := sm_session range)). unfold delivered in Hs. rewrite Hs.
    exact (mainProcess_state _ _ _ _ _ H').
  - by eapply mainProcess_results.
Qed.

Definition sys_ok (s : smsys) : Prop :=
  ∀ i nd p, zlookup (nodes (sm_cl s)) i = Some nd → zlookup (sm_peers s) i = Some p → sm_ok nd p.

(** A server and its peer change; the messages may get more. *)
Lemma sm_ok_more nd nd' p : sm_ok nd p → applyCh (nd_rf nd) `prefix_of` applyCh (nd_rf nd') → sm_ok nd' p.
Proof.
  intros [Hl Hs Hr] [more E]. split; [rewrite E, length_app; lia| |done].
  unfold delivered. by rewrite E, take_app_le.
Qed.

Lemma sm_ok_handler nd nd' p sm' :
  sm_ok nd p → applyCh (nd_rf nd') = applyCh (nd_rf nd) → state_of sm' = state_of (sp_sm p) →
  sm_resultMap sm' ⊆ sm_resultMap (sp_sm p) → sm_ok nd' (MkSP sm' (sp_read p)).
Proof.
  intros [Hl Hs Hr] Ea Es Er. split; [by simpl; rewrite Ea|unfold delivered; simpl; by rewrite Ea, Es|].
  simpl. injection Es as -> _. intros id c Hc. eapply Hr. by eapply lookup_weaken.
Qed.

Lemma sys_ok_set s s' i nd p nd' p' :
  sys_ok s → zlookup (nodes (sm_cl s)) i = Some nd → zlookup (sm_peers s) i = Some p →
  nodes (sm_cl s') = <[Z.to_nat i := nd']> (nodes (sm_cl s)) → sm_peers s' = set_sm i p' (sm_peers s) →
  sm_ok nd' p' → sys_ok s'.
Proof.
  intros Hs Hn Hp En Ep Hok j ndj pj. rewrite En, Ep. unfold set_sm.
  rewrite (zlookup_set _ _ _ _ _ Hn), (zlookup_set _ _ _ _ _ Hp). case_decide; [|by apply Hs].
  intros ??. by simplify_eq.
Qed.

Lemma sys_ok_step s s' : sys_ok s → smsys_step s s' → sys_ok s'.
Proof.
  intros Hs. destruct 1 as [cl' Hn|i nd p m sm' Hn Hp Hm H|i nd p q sm' r Hn Hp H|i nd p args sm' b c Hn Hp H|i nd p sm' Hn Hp H].
  - intros i nd' p Hi Hp. destruct (net_step_peer _ _ _ _ Hn Hi) as (nd & Hnd & Ea).
    eapply sm_ok_more; [by eapply Hs|done].
  - apply (sys_ok_set s _ i nd p nd (MkSP sm' (S (sp_read p)))); try done.
    + simpl. unfold zlookup in Hn. case_decide; [|done]. by rewrite list_insert_id.
    + eapply sm_ok_receive; [by eapply Hs|done..].
  - eapply sys_ok_set; [done|exact Hn|exact Hp|done|done|].
    apply sm_handle_cases in H as [->|(rf' & z & Hst & ->)];
      (eapply sm_ok_handler; [by eapply Hs| |reflexivity..]; simpl); [done|by eapply Start_applyCh].
  - apply Query_end_rf in H as (Er & Ec & Eq & Em).
    eapply sys_ok_set; [done|exact Hn|exact Hp|done|done|]. eapply sm_ok_handler; [by eapply Hs|..]; simpl; [by rewrite Er| |done].
    unfold state_of. by rewrite Ec, Eq.
  - eapply sys_ok_set; [done|exact Hn|exact Hp|done|done|]. unfold StartServer in H.
    apply bind_Ok in H as (rf & _ & H). destruct (applyCh rf) eqn:Ea; simplify_eq/=.
    split; simpl; [lia|done|done].
Qed.

Lemma sm_start_servers_fresh n ids sms :
  start_servers n ids = Ok sms →
  start_nodes n ids = Ok ((λ sm, MkNode (sm_rf sm) AtTop [] []) <$> sms) ∧
  Forall (λ sm, sm_ok (MkNode (sm_rf sm) AtTop [] []) (MkSP sm 0)) sms.
Proof.
  revert sms. induction ids as [|i ids IH]; intros sms H; cbn [start_servers] in H; [by simplify_eq|].
  apply bind_Ok in H as (sm & Hsm & H). apply bind_Ok in H as (sms' & Hr & H). simplify_eq.
  destruct (IH _ Hr) as [E Hf]. injection Hsm as <-.
  split; [cbn [start_nodes]; rewrite E; done|]. constructor; [|done]. split; simpl; [lia|done|done].
Qed.

Lemma sm_sys_reachable n s0 s :
  start_sm n = Ok s0 → rtc smsys_step s0 s →
  start_cluster n = Ok (sm_cl s0) ∧ rtc cluster_step (sm_cl s0) (sm_cl s) ∧ taken (sm_cl s) = [] ∧ sys_ok s.
Proof.
  intros H0 Hr. unfold start_sm in H0. apply bind_Ok in H0 as (sms & Hs & H0). simplify_eq.
  destruct (sm_start_servers_fresh _ _ _ Hs) as [E Hf]. unfold start_cluster. rewrite E. split; [done|].
  pattern s. eapply rtc_ind_r; [| |exact Hr]; clear s Hr.
  - split_and!; [done|done|]. intros i nd p Hn Hp. simpl in *. rewrite Forall_lookup in Hf.
    unfold zlookup in Hn, Hp. repeat (case_decide; [|done]). rewrite list_lookup_fmap in Hn. rewrite list_lookup_fmap in Hp.
    destruct (sms !! Z.to_nat i) as [sm|] eqn:Ei; simplify_eq/=. by eapply Hf.
  - intros s1 s2 _ Hstep (Hc & Ht & Hok). split_and!; [by etrans; [|eapply smsys_step_cluster]| |by eapply sys_ok_step].
    by rewrite (smsys_step_taken _ _ Hstep).
Qed.

(** C9. The shard master service, whatever the network does, wherever servers crash, and whether or not
    Raft agrees.  Every command a server has received is one that was started; its configurations
    are those that these commands make, each request taking effect once, from the first
    configuration; configuration [i] has number [i] and ten shards; what is kept for a [Query] is one
    of them; and a server that has received what another one has, and more, has its configurations
    and goes on from them. *)
Theorem sm_service_history n s0 s i nd p :
  start_sm n = Ok s0 → rtc smsys_step s0 s →
  zlookup (nodes (sm_cl s)) i = Some nd → zlookup (sm_peers s) i = Some p →
  (∀ op, op ∈ delivered nd p → ∃ t, MkCT (Some op) t ∈ started (sm_cl s)) ∧
  sm_run fresh (firsts [] (delivered nd p)) = Ok (state_of (sp_sm p)) ∧
  hist (configs (sp_sm p)) ∧ map_Forall (λ _ c, c ∈ configs (sp_sm p)) (sm_resultMap (sp_sm p)) ∧
  ∀ j nd' p', zlookup (nodes (sm_cl s)) j = Some nd' → zlookup (sm_peers s) j = Some p' →
    delivered nd p `prefix_of` delivered nd' p' → configs (sp_sm p) `prefix_of` configs (sp_sm p').
Proof.
  intros H0 Hr Hn Hp. destruct (sm_sys_reachable _ _ _ H0 Hr) as (Hc0 & Hcl & Ht & Hok).
  pose proof (Hok _ _ _ Hn Hp) as Hsm. split_and!.
  - intros op (m & Hm & Eop)%list_elem_of_omap. apply elem_of_take in Hm as (k & Hm & _).
    apply list_elem_of_lookup_2 in Hm. destruct (cluster_prov_node _ _ _ _ _ (reachable_prov _ _ _ Hc0 Hcl) Hn) as [[_ _ _ Hch _] _].
    rewrite Forall_forall in Hch. specialize (Hch m Hm). unfold msg_prov in Hch. case_match.
    + destruct (Hch op Eop) as [t [?|?]]; [done|by exists t].
    + destruct Hch as [k' Hin]. unfold was_taken in Hin. rewrite Ht in Hin. by apply elem_of_nil in Hin.
  - destruct Hsm as [_ Hs _]. rewrite <- Hs. symmetry.
    apply (run_firsts (HS := sm_session range)). by intros op Hop%not_elem_of_nil.
  - by eapply sm_ok_hist.
  - by destruct Hsm.
  - intros j nd' p' Hn' Hp' [more E]. pose proof (Hok _ _ _ Hn' Hp') as [_ Hs' _].
    destruct Hsm as [_ Hs _]. rewrite E, (run_app (HS := sm_session range)), Hs in Hs'.
    apply run_hist in Hs' as [_ ?]; [done|]. by destruct (run_hist _ _ _ Hs fresh_hist) as [? _].
Qed.
End system.

(** ** Witness: two groups join, through Raft. *)
Local Ltac into_net ::= eapply sc_net.

Definition demo_join : JoinArgs := MkJoinArgs 7 1 demo_two.

Lemma sm_service_history_witness : ∃ s0 s nd p,
  start_sm 3 = Ok s0 ∧ rtc (smsys_step map_to_list) s0 s ∧
  zlookup (nodes (sm_cl s)) 0 = Some nd ∧ zlookup (sm_peers s) 0 = Some p ∧
  Shards <$> configs (sp_sm p) = [replicate 10 0; [4; 4; 4; 4; 4; 7; 7; 7; 7; 7]] ∧ hist (configs (sp_sm p)) ∧
  ∀ op, op ∈ delivered nd p → ∃ t, MkCT (Some op) t ∈ started (sm_cl s).
Proof.
  assert (∃ s0 s nd p, start_sm 3 = Ok s0 ∧ rtc (smsys_step map_to_list) s0 s ∧
    zlookup (nodes (sm_cl s)) 0 = Some nd ∧ zlookup (sm_peers s) 0 = Some p ∧
    Shards <$> configs (sp_sm p) = [replicate 10 0; [4; 4; 4; 4; 4; 7; 7; 7; 7; 7]])
    as (s0 & s & nd & p & H0 & Hr & Hn & Hp & Hx).
  { eexists _, _, _, _. split; [at_peer|]. split.
    { run_candidate 0. run_timeout 0. run_candidate 0. run_ask 0. run_vote 1. run_elected 0 1.
      run_step ltac:(eapply (sc_handle _ _ 0 _ _ (RJoin demo_join)); at_peer).
      run_distribute 0. run_send 0 0%nat. run_append 1. run_done 0 uconstr:([]).
      run_step ltac:(eapply (sc_receive _ _ 0); [at_peer|at_peer|at_peer|at_peer]). apply rtc_refl. }
    split_and!; at_peer. }
  destruct (sm_service_history map_to_list map_to_list_ok 3 s0 s 0 nd p H0 Hr Hn Hp) as (Ho & _ & Hh & _).
  exists s0, s, nd, p. by split_and!.
Defined.
