(* ===== verification/ShardClient.v ===== *)
(** * The shard master's client: the [Clerk] of [shardmaster/client.go].

    The four requests are the same loop: ask every server in turn, round after round,
    until one answers as the leader.  What the servers answer is an argument: one list
    per round, with [None] for a call that fails and [Some (WrongLeader, result)]
    otherwise. *)

From S2P Require Import Prelude RaftState Session ShardMaster.

Record SmClerk := MkSmClerk {
  smc_servers : Z;        (** [len(ck.servers)] *)
  smc_ID : Z;
  requestSeq : Z;
}.

(** [r] is what [nrand] gives. *)
Definition MakeSmClerk (nservers r : Z) : SmClerk := MkSmClerk nservers (i32 r) 0.

Section loop.
Context {Args Reply : Type}.

(** [for _, srv := range ck.servers]: the servers asked, and the result if one accepts. *)
Fixpoint ask_round (args : Args) (i : Z) (answers : list (option (bool * Reply))) :
    list (Z * Args) * option Reply :=
  match answers with
  | [] => ([], None)
  | Some (false, r) :: _ => ([(i, args)], Some r)
  | _ :: answers =>
      let '(calls, r) := ask_round args (i + 1) answers in ((i, args) :: calls, r)
  end.

Fixpoint ask_loop (args : Args) (rounds : list (list (option (bool * Reply)))) :
    list (Z * Args) * option Reply :=
  match rounds with
  | [] => ([], None)
  | round :: rounds =>
      match ask_round args 0 round with
      | (calls, Some r) => (calls, Some r)
      | (calls, None) => let '(calls', r) := ask_loop args rounds in (calls ++ calls', r)
      end
  end.
End loop.

Definition next_request (ck : SmClerk) : SmClerk :=
  MkSmClerk (smc_servers ck) (smc_ID ck) (requestSeq ck + 1).

Definition ClerkQuery (ck : SmClerk) (num : Z) (rounds : list (list (option (bool * Config)))) :
    SmClerk * (list (Z * QueryArgs) * option Config) :=
  (next_request ck, ask_loop (MkQueryArgs (smc_ID ck) (requestSeq ck) num) rounds).
Definition ClerkJoin (ck : SmClerk) servers (rounds : list (list (option (bool * unit)))) :
    SmClerk * (list (Z * JoinArgs) * option unit) :=
  (next_request ck, ask_loop (MkJoinArgs (smc_ID ck) (requestSeq ck) servers) rounds).
Definition ClerkLeave (ck : SmClerk) gids (rounds : list (list (option (bool * unit)))) :
    SmClerk * (list (Z * LeaveArgs) * option unit) :=
  (next_request ck, ask_loop (MkLeaveArgs (smc_ID ck) (requestSeq ck) gids) rounds).
Definition ClerkMove (ck : SmClerk) shard gid (rounds : list (list (option (bool * unit)))) :
    SmClerk * (list (Z * MoveArgs) * option unit) :=
  (next_request ck, ask_loop (MkMoveArgs (smc_ID ck) (requestSeq ck) shard gid) rounds).

(** ** Properties *)

Lemma ask_round_spec {Args Reply} (args : Args) i (answers : list (option (bool * Reply))) :
  let '(calls, r) := ask_round args i answers in
  Forall (λ c, snd c = args ∧ i ≤ fst c < i + len answers) calls ∧
  match r with
  | Some v => Some (false, v) ∈ answers
  | None => length calls = length answers ∧ ∀ v, Some (false, v) ∉ answers
  end.
Proof.
  revert i. induction answers as [|a answers IH]; intros i; simpl.
  { split; [done|]. split; [done|]. intros v. apply not_elem_of_nil. }
  specialize (IH (i + 1)). rewrite len_cons. pose proof (len_nonneg answers).
  assert (Hgo : ∀ a', (∀ v, a' ≠ Some (false, v)) →
    let '(calls, r) := let '(calls, r) := ask_round args (i + 1) answers in ((i, args) :: calls, r) in
    Forall (λ c, snd c = args ∧ i ≤ fst c < i + (len answers + 1)) calls ∧
    match r with
    | Some v => Some (false, v) ∈ a' :: answers
    | None => length calls = S (length answers) ∧ ∀ v, Some (false, v) ∉ a' :: answers
    end).
  { intros a' Ha'. destruct (ask_round args (i + 1) answers) as [calls r]. destruct IH as [Hc Hr]. split.
    - constructor; [split; [done|simpl; lia]|]. eapply Forall_impl; [apply Hc|]. simpl. intros c [? ?]. split; [done|lia].
    - destruct r as [v|]; [by right|]. destruct Hr as [Hl Hn]. split; [simpl; by f_equal|].
      intros v [E|Hin]%elem_of_cons; [by eapply Ha'|by eapply Hn]. }
  destruct a as [[[] v]|]; [by apply Hgo| |by apply Hgo].
  split; [apply Forall_singleton; split; [done|simpl; lia]|by left].
Qed.

Lemma ask_loop_spec {Args Reply} (args : Args) (rounds : list (list (option (bool * Reply)))) :
  let '(calls, r) := ask_loop args rounds in
  Forall (λ c, snd c = args) calls ∧
  match r with
  | Some v => ∃ round, round ∈ rounds ∧ Some (false, v) ∈ round
  | None => ∀ round v, round ∈ rounds → Some (false, v) ∉ round
  end.
Proof.
  induction rounds as [|round rounds IH]; simpl.
  { split; [done|]. intros round v Hin. by apply elem_of_nil in Hin. }
  pose proof (ask_round_spec args 0 round) as Hr. destruct (ask_round args 0 round) as [calls [v|]].
  - destruct Hr as [Hc Hv]. split; [eapply Forall_impl; [apply Hc|]; by intros ? []|].
    exists round. split; [by left|done].
  - destruct Hr as (Hc & _ & Hn). destruct (ask_loop args rounds) as [calls' r]. destruct IH as [Hc' Hr'].
    split; [apply Forall_app; split; [eapply Forall_impl; [apply Hc|]; by intros ? []|done]|].
    destruct r as [v|].
    + destruct Hr' as (rd & Hin & Hv). exists rd. split; [by right|done].
    + intros rd v [->|Hin]%elem_of_cons; [apply Hn|by apply Hr'].
Qed.

(** A [Query] of the clerk is one request however often it is sent, returns a
    configuration a server gave as leader, and goes on exactly as long as no server
    accepted. *)
Theorem ClerkQuery_one_request ck num rounds ck' calls r :
  ClerkQuery ck num rounds = (ck', (calls, r)) →
  requestSeq ck' = requestSeq ck + 1 ∧ smc_ID ck' = smc_ID ck ∧
  Forall (λ c, snd c = MkQueryArgs (smc_ID ck) (requestSeq ck) num) calls ∧
  match r with
  | Some c => ∃ round, round ∈ rounds ∧ Some (false, c) ∈ round
  | None => ∀ round c, round ∈ rounds → Some (false, c) ∉ round
  end.
Proof.
  unfold ClerkQuery. intros [= <- H].
  pose proof (ask_loop_spec (MkQueryArgs (smc_ID ck) (requestSeq ck) num) rounds) as Hs.
  rewrite H in Hs. by destruct Hs.
Qed.

Lemma ClerkQuery_one_request_witness : ∃ ck' calls,
  ClerkQuery (MakeSmClerk 2 5) 3 [[None; Some (true, zeroConfig)]; [Some (false, zeroConfig)]] =
    (ck', (calls, Some zeroConfig)) ∧ requestSeq ck' = 1.
Proof.
  eexists _, _. split; [reflexivity|].
  by destruct (ClerkQuery_one_request (MakeSmClerk 2 5) 3
    [[None; Some (true, zeroConfig)]; [Some (false, zeroConfig)]] _ _ _ eq_refl).
Defined.
