(* ===== verification/Bitset.v ===== *)
(** * Bit sets: [linearizability/bitset.go].

    A set is a slice of 64-bit words; bit [p] is bit [p mod 64] of word [p / 64]. *)

From S2P Require Import Prelude.

Definition bitset := list Z.

Definition newBitset (bits : Z) : bitset :=
  let extra := if bits mod 64 =? 0 then 0 else 1 in
  replicate (Z.to_nat (bits / 64 + extra)) 0.

Definition clone (b : bitset) : bitset := b.

Definition bitsetIndex (pos : Z) : Z * Z := (pos / 64, pos mod 64).

Definition set (b : bitset) (pos : Z) : outcome bitset :=
  let '(major, minor) := bitsetIndex pos in
  v ← must (zlookup b major);
  must (zinsert b major (Z.lor v (Z.shiftl 1 minor))).

Definition clear (b : bitset) (pos : Z) : outcome bitset :=
  let '(major, minor) := bitsetIndex pos in
  v ← must (zlookup b major);
  must (zinsert b major (Z.ldiff v (Z.shiftl 1 minor))).

Definition get (b : bitset) (pos : Z) : outcome bool :=
  let '(major, minor) := bitsetIndex pos in
  v ← must (zlookup b major);
  Ok (negb (Z.land v (Z.shiftl 1 minor) =? 0)).

(** The additions inside a word in parallel, then their sum in the top byte. *)
Definition popcnt_word (v : Z) : Z :=
  let v := u64 (Z.land v 0x5555555555555555 + Z.shiftr (Z.land v 0xAAAAAAAAAAAAAAAA) 1) in
  let v := u64 (Z.land v 0x3333333333333333 + Z.shiftr (Z.land v 0xCCCCCCCCCCCCCCCC) 2) in
  let v := u64 (Z.land v 0x0F0F0F0F0F0F0F0F + Z.shiftr (Z.land v 0xF0F0F0F0F0F0F0F0) 4) in
  let v := u64 (v * 0x0101010101010101) in
  Z.land (Z.shiftr v 56) 0xFF.

Definition popcnt (b : bitset) : Z := foldl (λ total v, u64 (total + popcnt_word v)) 0 b.

Definition hash (b : bitset) : Z := foldl Z.lxor (popcnt b) b.

Definition equals (b b2 : bitset) : bool :=
  if negb (len b =? len b2) then false
  else forallb (λ p, p.1 =? p.2) (zip b b2).

(** ** The bits *)

(** Words are 64-bit. *)
Definition words (b : bitset) : Prop := Forall is_u64 b.

(** Bit [p] of the set. *)
Definition bit (b : bitset) (p : Z) : bool :=
  match zlookup b (p / 64) with Some v => Z.testbit v (p mod 64) | None => false end.

Lemma land_pow2 v n : 0 ≤ n → negb (Z.land v (Z.shiftl 1 n) =? 0) = Z.testbit v n.
Proof.
  intros Hn. rewrite Z.shiftl_1_l.
  assert (Hbit : ∀ i, Z.testbit (Z.land v (2 ^ n)) i = (Z.testbit v i && (n =? i))%bool).
  { intros i. rewrite Z.land_spec. destruct (Z.ltb_spec i 0).
    - rewrite !Z.testbit_neg_r by done. done.
    - by rewrite Z.pow2_bits_eqb. }
  destruct (Z.eqb_spec (Z.land v (2 ^ n)) 0) as [E|E]; simpl.
  - specialize (Hbit n). rewrite E, Z.testbit_0_l, Z.eqb_refl, andb_true_r in Hbit. done.
  - destruct (Z.testbit v n) eqn:Hv; [done|]. exfalso. apply E. apply Z.bits_inj'. intros i Hi.
    rewrite Hbit, Z.testbit_0_l. destruct (Z.eqb_spec n i) as [<-|]; [by rewrite Hv|by rewrite andb_false_r].
Qed.

Lemma word_range (b : bitset) p : 0 ≤ p < 64 * len b → 0 ≤ p / 64 < len b.
Proof. intros. split; [apply Z.div_pos; lia|apply Z.div_lt_upper_bound; lia]. Qed.

Lemma get_bit b p : 0 ≤ p < 64 * len b → get b p = Ok (bit b p).
Proof.
  intros Hp. unfold get, bit, bitsetIndex.
  destruct (zlookup_lt_Some b (p / 64) (word_range b p Hp)) as [v ->]. simpl.
  rewrite land_pow2; [done|]. by apply Z.mod_pos_bound.
Qed.

Lemma same_bit p q : 0 ≤ p → 0 ≤ q → p / 64 = q / 64 → p mod 64 = q mod 64 → p = q.
Proof. intros. rewrite (Z.div_mod p 64), (Z.div_mod q 64) by lia. congruence. Qed.

(** Both updates change one bit. *)
Lemma update_bit b p (f : Z → Z) c :
  0 ≤ p < 64 * len b →
  (∀ v i, 0 ≤ i → Z.testbit (f v) i = if decide (i = p mod 64) then c else Z.testbit v i) →
  (∀ v, is_u64 v → is_u64 (f v)) →
  ∃ b', (v ← must (zlookup b (p / 64)); must (zinsert b (p / 64) (f v))) = Ok b' ∧
    len b' = len b ∧ (words b → words b') ∧
    ∀ q, 0 ≤ q → bit b' q = if decide (q = p) then c else bit b q.
Proof.
  intros Hp Hf Hw. pose proof (word_range b p Hp) as Hr.
  destruct (zlookup_lt_Some b (p / 64) Hr) as [v Hv]. rewrite Hv. simpl.
  unfold zinsert. rewrite decide_True by done. simpl. eexists; split; [done|].
  split_and!; [by rewrite len_insert| |].
  { intros Hb. apply Forall_insert; [done|]. apply Hw. eapply Forall_lookup_1; [apply Hb|].
    unfold zlookup in Hv. by rewrite decide_True in Hv by lia. }
  intros q Hq. unfold bit. destruct (decide (q / 64 = p / 64)) as [E|E].
  - rewrite E. rewrite <- (Z2Nat.id (p / 64)) at 2 by lia.
    rewrite zlookup_insert_eq by (unfold len in Hr; lia). rewrite Hv, Hf by (by apply Z.mod_pos_bound).
    destruct (decide (q = p)) as [->|Hne]; [by rewrite decide_True|].
    rewrite decide_False; [done|]. intros Hm. apply Hne. apply same_bit; try done; lia.
  - rewrite zlookup_insert_ne by lia. rewrite decide_False; [done|]. by intros ->.
Qed.

Lemma set_bit b p :
  0 ≤ p < 64 * len b → ∃ b', set b p = Ok b' ∧ len b' = len b ∧ (words b → words b') ∧
    ∀ q, 0 ≤ q → bit b' q = if decide (q = p) then true else bit b q.
Proof.
  intros Hp. pose proof (Z.mod_pos_bound p 64 ltac:(lia)).
  apply (update_bit b p (λ v, Z.lor v (Z.shiftl 1 (p mod 64)))); [done|..].
  - intros v i Hi. rewrite Z.lor_spec, Z.shiftl_1_l, Z.pow2_bits_eqb by lia.
    case_decide; [subst; by rewrite Z.eqb_refl, orb_true_r|].
    rewrite (proj2 (Z.eqb_neq _ _)) by lia. by rewrite orb_false_r.
  - unfold is_u64. intros v Hv. apply testbit_bound; [done|]. intros i Hi.
    rewrite Z.lor_spec, (testbit_high v 64), Z.shiftl_1_l, Z.pow2_bits_eqb by lia.
    rewrite (proj2 (Z.eqb_neq _ _)); [done|lia].
Qed.

Lemma clear_bit b p :
  0 ≤ p < 64 * len b → ∃ b', clear b p = Ok b' ∧ len b' = len b ∧ (words b → words b') ∧
    ∀ q, 0 ≤ q → bit b' q = if decide (q = p) then false else bit b q.
Proof.
  intros Hp. pose proof (Z.mod_pos_bound p 64 ltac:(lia)).
  apply (update_bit b p (λ v, Z.ldiff v (Z.shiftl 1 (p mod 64)))); [done|..].
  - intros v i Hi. rewrite Z.ldiff_spec, Z.shiftl_1_l, Z.pow2_bits_eqb by lia.
    case_decide; [subst; by rewrite Z.eqb_refl, andb_false_r|].
    rewrite (proj2 (Z.eqb_neq _ _)) by lia. by rewrite andb_true_r.
  - unfold is_u64. intros v Hv. apply testbit_bound; [done|]. intros i Hi.
    by rewrite Z.ldiff_spec, (testbit_high v 64) by lia.
Qed.

Lemma newBitset_len bits : 0 ≤ bits → bits ≤ 64 * len (newBitset bits).
Proof.
  intros Hb. unfold newBitset, len. rewrite length_replicate.
  pose proof (Z.div_mod bits 64). pose proof (Z.mod_pos_bound bits 64).
  pose proof (Z.div_pos bits 64). destruct (Z.eqb_spec (bits mod 64) 0); lia.
Qed.

Lemma newBitset_bit bits p : 0 ≤ p → bit (newBitset bits) p = false.
Proof.
  intros Hp. unfold bit, newBitset, zlookup. rewrite decide_True by (apply Z.div_pos; lia).
  destruct (_ !! _) as [v|] eqn:E; [|done]. apply lookup_replicate in E as [-> _]. apply Z.testbit_0_l.
Qed.

Lemma newBitset_words bits : words (newBitset bits).
Proof. unfold words, newBitset. by apply Forall_replicate. Qed.

(** Sets of the same length with the same bits are equal. *)
Lemma bit_ext b1 b2 :
  words b1 → words b2 → len b1 = len b2 → (∀ q, 0 ≤ q → bit b1 q = bit b2 q) → b1 = b2.
Proof.
  intros W1 W2 Hl Hb. apply list_eq_zlookup. intros k Hk.
  destruct (decide (k < len b1)) as [Hlt|];
    [|by rewrite !(proj2 (zlookup_None _ _)) by lia].
  destruct (zlookup_lt_Some b1 k) as [v1 E1]; [lia|]. destruct (zlookup_lt_Some b2 k) as [v2 E2]; [lia|].
  rewrite E1, E2. f_equal.
  assert (Hw : ∀ b v, words b → zlookup b k = Some v → is_u64 v).
  { intros b v Hw E. unfold words in Hw. eapply Forall_lookup_1; [apply Hw|].
    unfold zlookup in E. by rewrite decide_True in E by lia. }
  pose proof (Hw _ _ W1 E1) as [A1 B1]. pose proof (Hw _ _ W2 E2) as [A2 B2].
  apply Z.bits_inj'. intros i Hi. destruct (decide (i < 64)).
  - specialize (Hb (k * 64 + i) ltac:(lia)). unfold bit in Hb.
    rewrite Z.div_add_l, (Z.div_small i 64), Z.add_0_r in Hb by lia.
    rewrite Z.add_comm, Z.mod_add, Z.mod_small, E1, E2 in Hb by lia. done.
  - by rewrite !(testbit_high _ 64) by lia.
Qed.

Lemma equals_spec b b2 : equals b b2 = true ↔ b = b2.
Proof.
  unfold equals. destruct (Z.eqb_spec (len b) (len b2)) as [E|E]; simpl; [|naive_solver].
  unfold len in E. apply Nat2Z.inj in E. revert b2 E.
  induction b as [|v b IH]; intros [|v2 b2] E; simpl in *; try done.
  rewrite andb_true_iff, Z.eqb_eq, IH by lia. naive_solver.
Qed.

(** ** The population count *)

(** The number of bits of [v] below [n]. *)
Fixpoint bits_below (n : nat) (v : Z) : Z :=
  match n with
  | O => 0
  | S n => (if Z.testbit v (Z.of_nat n) then 1 else 0) + bits_below n v
  end.

(** [n] copies of the byte [m]. *)
Fixpoint rep (n : nat) (m : Z) : Z := match n with O => 0 | S n => m + 256 * rep n m end.

(** [h] applied to each of the low [n] bytes of [v]. *)
Fixpoint bytewise (n : nat) (h : Z → Z) (v : Z) : Z :=
  match n with O => 0 | S n => h (v mod 256) + 256 * bytewise n h (v / 256) end.

(** One step of the parallel addition. *)
Definition swar (m1 m2 s v : Z) : Z := Z.land v m1 + Z.shiftr (Z.land v m2) s.

Lemma land_byte x y a b :
  0 ≤ x < 256 → 0 ≤ a < 256 → Z.land (x + 256 * y) (a + 256 * b) = Z.land x a + 256 * Z.land y b.
Proof.
  intros Hx Ha. change 256 with (2 ^ 8) in *.
  assert (Hbit : ∀ u v i, 0 ≤ u < 2 ^ 8 → 0 ≤ i →
    Z.testbit (u + 2 ^ 8 * v) i = if decide (i < 8) then Z.testbit u i else Z.testbit v (i - 8)).
  { intros u v i Hu Hi. rewrite Z.mul_comm. case_decide.
    - rewrite <- (Z.mod_pow2_bits_low (u + v * 2 ^ 8) 8) by done. by rewrite Z.mod_add, Z.mod_small.
    - replace i with (i - 8 + 8) at 1 by lia. rewrite <- Z.div_pow2_bits by lia.
      by rewrite Z.div_add, Z.div_small by lia. }
  assert (0 ≤ Z.land x a < 2 ^ 8).
  { apply testbit_bound; [done|]. intros i Hi. by rewrite Z.land_spec, (testbit_high x 8) by lia. }
  apply Z.bits_inj'. intros i Hi. rewrite Z.land_spec, !Hbit by done.
  case_decide; by rewrite Z.land_spec.
Qed.

(** A word of bytes. *)
Lemma swar_byte m1 m2 s x y n :
  0 ≤ m1 < 256 → 0 ≤ m2 < 256 → 0 ≤ s → m2 mod 2 ^ s = 0 → s ≤ 8 → 0 ≤ x < 256 → 0 ≤ y →
  swar (m1 + 256 * rep n m1) (m2 + 256 * rep n m2) s (x + 256 * y) =
  swar m1 m2 s x + 256 * swar (rep n m1) (rep n m2) s y.
Proof.
  intros H1 H2 Hs Hm Hs8 Hx Hy. unfold swar. rewrite !land_byte by done.
  assert (Hdiv : ∀ k, rep k m2 mod 2 ^ s = 0).
  { induction k as [|k IH]; simpl; [by apply Z.mod_0_l; lia|].
    rewrite Z.add_mod, Z.mul_mod, IH, Hm, Z.mul_0_r by lia. by rewrite !Z.mod_0_l by lia. }
  assert (Hland : Z.land y (rep n m2) mod 2 ^ s = 0).
  { rewrite <- Z.land_ones, <- Z.land_assoc, Z.land_ones, Hdiv by done. apply Z.land_0_r. }
  rewrite !Z.shiftr_div_pow2 by done.
  assert (0 < 2 ^ s) by (by apply Z.pow_pos_nonneg).
  rewrite (Z.div_mod (Z.land y (rep n m2)) (2 ^ s)) at 1 by lia. rewrite Hland, Z.add_0_r.
  replace (Z.land x m2 + 256 * (2 ^ s * (Z.land y (rep n m2) / 2 ^ s)))
    with (Z.land x m2 + 256 * (Z.land y (rep n m2) / 2 ^ s) * 2 ^ s) by lia.
  rewrite Z.div_add by lia. lia.
Qed.

Lemma swar_bytewise n m1 m2 s v :
  0 ≤ m1 < 256 → 0 ≤ m2 < 256 → 0 ≤ s → m2 mod 2 ^ s = 0 → s ≤ 8 → 0 ≤ v < 256 ^ Z.of_nat n →
  swar (rep n m1) (rep n m2) s v = bytewise n (swar m1 m2 s) v.
Proof.
  intros H1 H2 Hs Hm Hs8. revert v. induction n as [|n IH]; intros v Hv.
  { assert (v = 0) as -> by (simpl in Hv; lia). unfold swar. simpl. by rewrite Z.shiftr_0_l. }
  rewrite Nat2Z.inj_succ, Z.pow_succ_r in Hv by lia. cbn [rep bytewise].
  assert (0 ≤ v / 256 < 256 ^ Z.of_nat n) by (split; [apply Z.div_pos; lia|apply Z.div_lt_upper_bound; lia]).
  rewrite <- IH by done. pose proof (Z.mod_pos_bound v 256).
  rewrite <- swar_byte by (try done; lia). f_equal. rewrite Z.add_comm. apply Z.div_mod. lia.
Qed.

Lemma bytewise_range n h v :
  (∀ x, 0 ≤ x < 256 → 0 ≤ h x < 256) → 0 ≤ bytewise n h v < 256 ^ Z.of_nat n.
Proof.
  intros Hh. revert v. induction n as [|n IH]; intros v; [done|].
  rewrite Nat2Z.inj_succ, Z.pow_succ_r by lia. cbn [bytewise].
  specialize (IH (v / 256)). specialize (Hh (v mod 256) ltac:(by apply Z.mod_pos_bound)). lia.
Qed.

Lemma bytewise_bytewise n g h v :
  (∀ x, 0 ≤ x < 256 → 0 ≤ h x < 256) →
  bytewise n g (bytewise n h v) = bytewise n (λ x, g (h x)) v.
Proof.
  intros Hh. revert v. induction n as [|n IH]; intros v; [done|]. cbn [bytewise].
  specialize (Hh (v mod 256) ltac:(by apply Z.mod_pos_bound)).
  rewrite (Z.mul_comm 256 (bytewise n h (v / 256))).
  rewrite Z.mod_add, Z.mod_small, Z.div_add, Z.div_small by lia. by rewrite Z.add_0_l, IH.
Qed.

Lemma bytewise_ext n g h v :
  (∀ x, 0 ≤ x < 256 → g x = h x) → bytewise n g v = bytewise n h v.
Proof.
  intros Hh. revert v. induction n as [|n IH]; intros v; [done|]. cbn [bytewise].
  by rewrite IH, Hh by (by apply Z.mod_pos_bound).
Qed.

(** The three steps on one byte, checked on all of them. *)
Definition byte_ok (x : Z) : bool :=
  let a := swar 0x55 0xAA 1 x in
  let b := swar 0x33 0xCC 2 a in
  let c := swar 0x0F 0xF0 4 b in
  (0 <=? a) && (a <? 256) && (0 <=? b) && (b <? 256) && (c =? bits_below 8 x).

Lemma all_bytes_ok x : 0 ≤ x < 256 → byte_ok x = true.
Proof.
  intros Hx. assert (forallb byte_ok (seqZ 0 256) = true) as H by (vm_compute; reflexivity).
  rewrite forallb_forall in H. apply H. apply list_elem_of_In, elem_of_seqZ. lia.
Qed.

Lemma bits_below_range n v : 0 ≤ bits_below n v ≤ Z.of_nat n.
Proof. induction n as [|n IH]; cbn [bits_below]; [done|]. case_match; lia. Qed.

Lemma bits_below_split n k v :
  bits_below (n + k) v = bits_below n v + bits_below k (v / 2 ^ Z.of_nat n).
Proof.
  induction k as [|k IH]; [rewrite Nat.add_0_r; simpl; lia|].
  replace (n + S k)%nat with (S (n + k)) by lia. cbn [bits_below]. rewrite IH.
  rewrite Z.div_pow2_bits by lia. replace (Z.of_nat k + Z.of_nat n) with (Z.of_nat (n + k)) by lia. lia.
Qed.

Lemma bits_below_mod n v : bits_below n (v mod 2 ^ Z.of_nat n) = bits_below n v.
Proof.
  assert (∀ k, (k ≤ n)%nat → bits_below k (v mod 2 ^ Z.of_nat n) = bits_below k v) as H; [|by apply H].
  intros k Hk. induction k as [|k IH]; [done|]. cbn [bits_below].
  rewrite Z.mod_pow2_bits_low by lia. rewrite IH by lia. done.
Qed.

(** The sum of [h] over the low [n] bytes. *)
Fixpoint bytesum (n : nat) (h : Z → Z) (v : Z) : Z :=
  match n with O => 0 | S n => h (v mod 256) + bytesum n h (v / 256) end.

Lemma bytesum_bits n v : bytesum n (bits_below 8) v = bits_below (8 * n) v.
Proof.
  revert v. induction n as [|n IH]; intros v; [done|]. cbn [bytesum].
  replace (8 * S n)%nat with (8 + 8 * n)%nat by lia. rewrite bits_below_split, IH.
  f_equal. apply (bits_below_mod 8).
Qed.

(** The multiplication adds the bytes up in the top byte: no smaller byte overflows. *)
Lemma mul_bytes y0 y1 y2 y3 y4 y5 y6 y7 :
  0 ≤ y0 ≤ 8 → 0 ≤ y1 ≤ 8 → 0 ≤ y2 ≤ 8 → 0 ≤ y3 ≤ 8 →
  0 ≤ y4 ≤ 8 → 0 ≤ y5 ≤ 8 → 0 ≤ y6 ≤ 8 → 0 ≤ y7 ≤ 8 →
  Z.land (Z.shiftr (u64 ((y0 + 256 * (y1 + 256 * (y2 + 256 * (y3 + 256 * (y4 + 256 * (y5 +
    256 * (y6 + 256 * (y7 + 256 * 0)))))))) * 0x0101010101010101)) 56) 0xFF =
  y0 + (y1 + (y2 + (y3 + (y4 + (y5 + (y6 + (y7 + 0))))))).
Proof.
  intros. change 0xFF with (Z.ones 8). rewrite Z.land_ones, Z.shiftr_div_pow2 by done. unfold u64.
  set (t := y0 + (y1 + (y2 + (y3 + (y4 + (y5 + (y6 + (y7 + 0)))))))).
  set (low := y0 + 256 * (y0 + y1) + 256 ^ 2 * (y0 + y1 + y2) + 256 ^ 3 * (y0 + y1 + y2 + y3) +
    256 ^ 4 * (y0 + y1 + y2 + y3 + y4) + 256 ^ 5 * (y0 + y1 + y2 + y3 + y4 + y5) +
    256 ^ 6 * (y0 + y1 + y2 + y3 + y4 + y5 + y6)).
  set (q := (y1 + y2 + y3 + y4 + y5 + y6 + y7) + 256 * (y2 + y3 + y4 + y5 + y6 + y7) +
    256 ^ 2 * (y3 + y4 + y5 + y6 + y7) + 256 ^ 3 * (y4 + y5 + y6 + y7) +
    256 ^ 4 * (y5 + y6 + y7) + 256 ^ 5 * (y6 + y7) + 256 ^ 6 * y7).
  match goal with |- context [?w mod 2 ^ 64] => replace w with (t * 2 ^ 56 + low + q * 2 ^ 64)
    by (subst t low q; lia) end.
  assert (0 ≤ low < 2 ^ 56) by (subst low; lia). assert (0 ≤ t ≤ 64) by (subst t; lia).
  rewrite Z.mod_add by done. rewrite (Z.mod_small _ (2 ^ 64)) by lia.
  rewrite Z.div_add_l, (Z.div_small low) by lia. rewrite Z.add_0_r. apply Z.mod_small. lia.
Qed.

(** The routine counts bits. *)
Lemma popcnt_word_bits v : is_u64 v → popcnt_word v = bits_below 64 v.
Proof.
  intros Hv. unfold is_u64 in Hv. pose proof all_bytes_ok as Hok.
  set (a := swar 0x55 0xAA 1). set (b := swar 0x33 0xCC 2). set (c := swar 0x0F 0xF0 4).
  assert (Hbytes : ∀ x, 0 ≤ x < 256 → 0 ≤ a x < 256 ∧ 0 ≤ b (a x) < 256 ∧ c (b (a x)) = bits_below 8 x).
  { intros x Hx. specialize (Hok x Hx). unfold byte_ok in Hok. fold a b c in Hok. go_bools. lia. }
  assert (H1 : Z.land v 0x5555555555555555 + Z.shiftr (Z.land v 0xAAAAAAAAAAAAAAAA) 1 = bytewise 8 a v).
  { change 0x5555555555555555 with (rep 8 0x55). change 0xAAAAAAAAAAAAAAAA with (rep 8 0xAA).
    by apply swar_bytewise. }
  assert (Hstep : ∀ (g h : Z → Z) m1 m2 s, (∀ x, 0 ≤ x < 256 → 0 ≤ h x < 256) → g = swar m1 m2 s →
    0 ≤ m1 < 256 → 0 ≤ m2 < 256 → 0 ≤ s → m2 mod 2 ^ s = 0 → s ≤ 8 →
    Z.land (u64 (bytewise 8 h v)) (rep 8 m1) + Z.shiftr (Z.land (u64 (bytewise 8 h v)) (rep 8 m2)) s =
    bytewise 8 (λ x, g (h x)) v).
  { intros g h m1 m2 s Hh -> Hm1 Hm2 Hs Hm Hs8. pose proof (bytewise_range 8 h v Hh) as Hr.
    rewrite u64_small by done. rewrite <- (bytewise_bytewise 8 (swar m1 m2 s) h) by done.
    by apply (swar_bytewise 8). }
  unfold popcnt_word. rewrite H1.
  change 0x3333333333333333 with (rep 8 0x33). change 0xCCCCCCCCCCCCCCCC with (rep 8 0xCC).
  change 0x0F0F0F0F0F0F0F0F with (rep 8 0x0F). change 0xF0F0F0F0F0F0F0F0 with (rep 8 0xF0).
  rewrite (Hstep b a 0x33 0xCC 2) by (try done; intros; by apply Hbytes).
  rewrite (Hstep c (λ x, b (a x)) 0x0F 0xF0 4) by (try done; intros; by apply Hbytes).
  rewrite (bytewise_ext 8 _ (bits_below 8)) by (intros; by apply Hbytes).
  rewrite (u64_small (bytewise _ _ _)).
  - rewrite <- (bytesum_bits 8). cbn [bytewise bytesum]. apply mul_bytes; apply bits_below_range.
  - apply (bytewise_range 8). intros x _. pose proof (bits_below_range 8 x). lia.
Qed.

(** The members, in increasing order. *)
Definition members (b : bitset) : list Z :=
  filter (λ p, bit b p = true) (seqZ 0 (64 * len b)).

Lemma seqZ_snoc m n : seqZ m (Z.of_nat (S n)) = seqZ m (Z.of_nat n) ++ [m + Z.of_nat n].
Proof. rewrite Nat2Z.inj_succ, <- Z.add_1_r, seqZ_app by lia. done. Qed.

Lemma filter_bits_below (P : Z → bool) v o n :
  (∀ i, 0 ≤ i < Z.of_nat n → P (o + i) = Z.testbit v i) →
  len (filter (λ p, P p = true) (seqZ o (Z.of_nat n))) = bits_below n v.
Proof.
  induction n as [|n IH]; intros HP; [done|].
  rewrite seqZ_snoc, filter_app, len_app, IH by (intros; apply HP; lia). cbn [bits_below].
  rewrite <- HP by lia. rewrite filter_cons, filter_nil.
  destruct (P (o + Z.of_nat n)); simpl; unfold len; simpl; lia.
Qed.

Lemma bit_snoc_old b v p : 0 ≤ p < 64 * len b → bit (b ++ [v]) p = bit b p.
Proof. intros Hp. unfold bit. rewrite zlookup_app_l; [done|]. apply word_range. done. Qed.

Lemma bit_snoc_new b v i : 0 ≤ i < 64 → bit (b ++ [v]) (64 * len b + i) = Z.testbit v i.
Proof.
  intros Hi. unfold bit. rewrite (Z.mul_comm 64), Z.div_add_l, (Z.div_small i), Z.add_0_r by lia.
  rewrite zlookup_app_r, Z.sub_diag by lia. simpl.
  by rewrite Z.add_comm, Z.mod_add, Z.mod_small by lia.
Qed.

Lemma members_snoc b v : len (members (b ++ [v])) = len (members b) + bits_below 64 v.
Proof.
  unfold members. rewrite len_app. change (len [v]) with 1. pose proof (len_nonneg b).
  replace (64 * (len b + 1)) with (64 * len b + 64) by lia.
  rewrite seqZ_app, filter_app, len_app by lia. f_equal.
  - f_equal. apply filter_ext_in. intros p Hp. apply elem_of_seqZ in Hp. by rewrite bit_snoc_old by lia.
  - apply (filter_bits_below (bit (b ++ [v])) v (0 + 64 * len b) 64). intros i Hi. by apply bit_snoc_new.
Qed.

(** [popcnt] counts the members of the set, for every set whose size fits a
    machine word. *)
Theorem popcnt_counts b : words b → 64 * len b < 2 ^ 64 → popcnt b = len (members b).
Proof.
  unfold popcnt, words. intros Hw. induction b as [|v b IH] using rev_ind; [done|].
  apply Forall_app in Hw as [Hb Hv]. rewrite Forall_singleton in Hv.
  rewrite len_app. change (len [v]) with 1. intros Hlen.
  rewrite foldl_app. simpl. rewrite IH, popcnt_word_bits, members_snoc by (done || lia).
  pose proof (bits_below_range 64 v). pose proof (len_nonneg (members b)).
  assert (len (members b) ≤ 64 * len b).
  { unfold members. pose proof (len_nonneg b). unfold len at 1.
    etrans; [apply inj_le, length_filter|]. rewrite length_seqZ. lia. }
  apply u64_small. unfold is_u64. lia.
Qed.

(** The operations are those of sets: within the size of the set [set] and [clear]
    change membership of their argument only, [get] reads it, a new set is empty, and
    two sets of the same size are [equals] when they have the same members. *)
Theorem bitset_spec b b2 p :
  words b → words b2 → len b = len b2 → 0 ≤ p < 64 * len b →
  (∃ bs, set b p = Ok bs ∧ words bs ∧ len bs = len b ∧
     ∀ q, 0 ≤ q < 64 * len b → get bs q = Ok (if decide (q = p) then true else bit b q)) ∧
  (∃ bc, clear b p = Ok bc ∧ words bc ∧ len bc = len b ∧
     ∀ q, 0 ≤ q < 64 * len b → get bc q = Ok (if decide (q = p) then false else bit b q)) ∧
  get (newBitset (64 * len b)) p = Ok false ∧
  (equals b b2 = true ↔ ∀ q, 0 ≤ q → bit b q = bit b2 q).
Proof.
  intros W W2 Hl Hp. split_and!.
  - destruct (set_bit b p Hp) as (bs & E & El & Ew & Eb). exists bs. split_and!; auto.
    intros q Hq. rewrite get_bit by (rewrite El; done). f_equal. apply Eb. lia.
  - destruct (clear_bit b p Hp) as (bs & E & El & Ew & Eb). exists bs. split_and!; auto.
    intros q Hq. rewrite get_bit by (rewrite El; done). f_equal. apply Eb. lia.
  - rewrite get_bit; [by rewrite newBitset_bit by lia|].
    pose proof (newBitset_len (64 * len b)). lia.
  - rewrite equals_spec. split; [by intros ->|]. by apply bit_ext.
Qed.

(** ** Witnesses *)
Definition demo_bits : bitset := [5; 2 ^ 63].

Lemma demo_bits_words : words demo_bits.
Proof. by repeat (constructor; [done|]). Qed.

Lemma popcnt_counts_witness : popcnt demo_bits = len (members demo_bits) ∧ popcnt demo_bits = 3.
Proof. split; [by apply (popcnt_counts demo_bits demo_bits_words)|vm_compute; reflexivity]. Defined.

Lemma bitset_spec_witness : ∃ bs, set demo_bits 70 = Ok bs ∧ get bs 70 = Ok true.
Proof.
  destruct (bitset_spec demo_bits demo_bits 70 demo_bits_words demo_bits_words)
    as [(bs & E & _ & _ & Hg) _]; [done|done|].
  exists bs. split; [done|]. by rewrite Hg.
Defined.
