(* ===== verification/LinHeap.v ===== *)
(** * The linked list of a history: [node], [insertBefore], [length], [makeLinkedEntries],
    [lift] and [unlift] of [linearizability/linearizability.go].

    The nodes live in a heap of addresses, since the checker takes nodes out of the list
    and puts them back through pointers kept inside the removed nodes.  A nil
    dereference panics. *)

From S2P Require Import Prelude.

Section heap.
Context {In Out : Type}.

(** [interface{}] holds the input of a call or the output of a return. *)
Record node := MkNode {
  nvalue : option (In + Out);
  nmatch : option nat;         (** call if match is nil, says the code: the return of a call *)
  nid : Z;
  nnext : option nat;
  nprev : option nat;
}.

Abbreviation heap := (gmap nat node).
Implicit Types h : heap.

Definition get_next h (a : nat) : outcome (option nat) := nd ← must (h !! a); Ok (nnext nd).
Definition get_prev h (a : nat) : outcome (option nat) := nd ← must (h !! a); Ok (nprev nd).
Definition get_match h (a : nat) : outcome (option nat) := nd ← must (h !! a); Ok (nmatch nd).

Definition with_next (v : option nat) (nd : node) : node :=
  MkNode (nvalue nd) (nmatch nd) (nid nd) v (nprev nd).
Definition with_prev (v : option nat) (nd : node) : node :=
  MkNode (nvalue nd) (nmatch nd) (nid nd) (nnext nd) v.

(** [p.next = v] and [p.prev = v]. *)
Definition set_next h (p v : option nat) : outcome heap :=
  a ← must p; nd ← must (h !! a); Ok (<[a := with_next v nd]> h).
Definition set_prev h (p v : option nat) : outcome heap :=
  a ← must p; nd ← must (h !! a); Ok (<[a := with_prev v nd]> h).

Definition insertBefore h (n : nat) (mark : option nat) : outcome heap :=
  match mark with
  | None => Ok h
  | Some m =>
      beforeMark ← get_prev h m;
      h ← set_prev h mark (Some n);
      h ← set_next h (Some n) mark;
      match beforeMark with
      | None => Ok h
      | Some _ =>
          h ← set_prev h (Some n) beforeMark;
          set_next h beforeMark (Some n)
      end
  end.

(** [length], walking at most [fuel] nodes. *)
Fixpoint length (fuel : nat) h (n : option nat) : outcome (option Z) :=
  match n with
  | None => Ok (Some 0)
  | Some a =>
      match fuel with
      | O => Ok None
      | S fuel =>
          nx ← get_next h a;
          l ← length fuel h nx;
          Ok (match l with Some l => Some (l + 1) | None => None end)
      end
  end.

(** [entry]: a call with its input or a return with its output. *)
Record entry := MkEntry {
  evalue : In + Out;
  eid : Z;
  etime : Z;
}.
Definition is_return (e : entry) : bool := match evalue e with inr _ => true | inl _ => false end.

(** The loop from the last entry to the first; entry [i] gets address [i]. *)
Fixpoint link_from (i : nat) (entries : list entry) : outcome (heap * option nat * gmap Z nat) :=
  match entries with
  | [] => Ok (∅, None, ∅)
  | elem :: entries =>
      '(h, root, matches) ← link_from (S i) entries;
      let '(m, matches) := if is_return elem then (None, <[eid elem := i]> matches)
                           else (matches !! eid elem, matches) in
      let h := <[i := MkNode (Some (evalue elem)) m (eid elem) None None]> h in
      h ← insertBefore h i root;
      Ok (h, Some i, matches)
  end.

Definition makeLinkedEntries (entries : list entry) : outcome (heap * option nat) :=
  '(h, root, _) ← link_from 0 entries; Ok (h, root).

Definition lift h (entry : nat) : outcome heap :=
  p ← get_prev h entry; nx ← get_next h entry;
  h ← set_next h p nx;
  nx ← get_next h entry; p ← get_prev h entry;
  h ← set_prev h nx p;
  om ← get_match h entry; m ← must om;
  mp ← get_prev h m; mn ← get_next h m;
  h ← set_next h mp mn;
  mn ← get_next h m;
  match mn with
  | None => Ok h
  | Some _ => mp ← get_prev h m; set_prev h mn mp
  end.

Definition unlift h (entry : nat) : outcome heap :=
  om ← get_match h entry; m ← must om;
  mp ← get_prev h m;
  h ← set_next h mp (Some m);
  mn ← get_next h m;
  h ← (match mn with None => Ok h | Some _ => set_prev h mn (Some m) end);
  p ← get_prev h entry;
  h ← set_next h p (Some entry);
  nx ← get_next h entry;
  set_prev h nx (Some entry).

(** ** Doubly linked lists *)

(** The nodes of [l] are linked in this order; [p] is before the first one. *)
Fixpoint seg h (p : option nat) (l : list nat) : Prop :=
  match l with
  | [] => True
  | a :: l => ∃ nd, h !! a = Some nd ∧ nprev nd = p ∧ nnext nd = head l ∧ seg h (Some a) l
  end.

(** What the links do not change. *)
Definition data h (a : nat) : option (option (In + Out) * option nat * Z) :=
  (λ nd, (nvalue nd, nmatch nd, nid nd)) <$> h !! a.
Definition same_data h h' : Prop := ∀ a, data h' a = data h a.

#[export] Instance same_data_refl : Reflexive same_data.
Proof. by intros h a. Qed.
#[export] Instance same_data_trans : Transitive same_data.
Proof. intros h1 h2 h3 H1 H2 a. by rewrite H2, H1. Qed.

Lemma same_data_insert h a nd nd' :
  h !! a = Some nd → (nvalue nd', nmatch nd', nid nd') = (nvalue nd, nmatch nd, nid nd) →
  same_data h (<[a := nd']> h).
Proof.
  intros Ha E b. unfold data. destruct (decide (b = a)) as [->|].
  - rewrite lookup_insert_eq, Ha. simpl. by rewrite E.
  - by rewrite lookup_insert_ne.
Qed.

Lemma seg_frame h h' p l : (∀ a, a ∈ l → h' !! a = h !! a) → seg h p l → seg h' p l.
Proof.
  revert p. induction l as [|a l IH]; intros p Hf Hs; [done|]. destruct Hs as (nd & Ha & Hp & Hn & Hs).
  exists nd. split_and!; try done; [rewrite Hf; [done|by left]|].
  apply IH; [|done]. intros b Hb. apply Hf. by right.
Qed.

Lemma seg_app h p l1 l2 :
  seg h p (l1 ++ l2) → seg h (match last l1 with Some a => Some a | None => p end) l2.
Proof.
  revert p. induction l1 as [|a l1 IH]; intros p Hs; [done|]. destruct Hs as (nd & Ha & _ & _ & Hs).
  apply IH in Hs. destruct l1 as [|b l1]; [done|]. rewrite last_cons_cons.
  destruct (last (b :: l1)) eqn:E; [done|]. by apply last_None in E.
Qed.

(** [a] with its neighbours [p] and [nx]. *)
Record linked h (p a : nat) (nx : option nat) : Prop := {
  lk_a : ∃ nd, h !! a = Some nd ∧ nprev nd = Some p ∧ nnext nd = nx;
  lk_p : ∃ nd, h !! p = Some nd ∧ nnext nd = Some a;
  lk_n : ∀ x, nx = Some x → ∃ nd, h !! x = Some nd ∧ nprev nd = Some a;
  lk_pa : p ≠ a;
  lk_xa : nx ≠ Some a;
  lk_xp : nx ≠ Some p;
}.

Lemma seg_linked h o l1 p a l2 :
  seg h o (l1 ++ p :: a :: l2) → NoDup (l1 ++ p :: a :: l2) → linked h p a (head l2).
Proof.
  intros Hs%seg_app Hnd. apply NoDup_app in Hnd as (_ & _ & Hnd).
  apply NoDup_cons in Hnd as [Hp Hnd]. apply NoDup_cons in Hnd as [Ha _].
  destruct Hs as (np & Ep & _ & En & Hs). destruct Hs as (na & Ea & Epa & Ena & Hs). simpl in En.
  split; [by eauto|by eauto| | | |].
  - intros x Hx. destruct l2 as [|y l2]; [done|]. injection Hx as ->.
    destruct Hs as (nx & Ex & Epx & _ & _). eauto.
  - intros ->. apply Hp. by left.
  - destruct l2 as [|y l2]; [done|]. intros [= ->]. apply Ha. by left.
  - destruct l2 as [|y l2]; [done|]. intros [= ->]. apply Hp. right. by left.
Qed.

(** [p.next = a.next], and [a.next.prev = a.prev] if there is a next node. *)
Definition unlinked h (p : nat) (nx : option nat) : heap :=
  let h := match h !! p with Some nd => <[p := with_next nx nd]> h | None => h end in
  match nx with
  | Some x => match h !! x with Some nd => <[x := with_prev (Some p) nd]> h | None => h end
  | None => h
  end.

#[local] Arguments unlinked : simpl never.

Lemma unlinked_lookup h p a nx b :
  linked h p a nx → b ≠ p → nx ≠ Some b → unlinked h p nx !! b = h !! b.
Proof.
  intros [_ (np & Ep & _) Hn _ _ Hxp] Hb Hx. unfold unlinked. rewrite Ep.
  destruct nx as [x|]; [|by rewrite lookup_insert_ne].
  destruct (Hn x eq_refl) as (nxd & Ex & _). rewrite lookup_insert_ne by congruence. rewrite Ex.
  by rewrite !lookup_insert_ne by congruence.
Qed.

Lemma unlinked_p h p a nx :
  linked h p a nx → unlinked h p nx !! p = with_next nx <$> h !! p.
Proof.
  intros [_ (np & Ep & _) Hn _ _ Hxp]. unfold unlinked. rewrite Ep.
  destruct nx as [x|]; [|by rewrite lookup_insert_eq].
  destruct (Hn x eq_refl) as (nxd & Ex & _). rewrite lookup_insert_ne by congruence. rewrite Ex.
  rewrite lookup_insert_ne by congruence. by rewrite lookup_insert_eq.
Qed.

Lemma unlinked_x h p a x :
  linked h p a (Some x) → unlinked h p (Some x) !! x = with_prev (Some p) <$> h !! x.
Proof.
  intros [_ (np & Ep & _) Hn _ _ Hxp]. unfold unlinked. rewrite Ep.
  destruct (Hn x eq_refl) as (nxd & Ex & _). rewrite lookup_insert_ne by congruence. rewrite Ex.
  by rewrite lookup_insert_eq.
Qed.

Lemma unlinked_data h p a nx : linked h p a nx → same_data h (unlinked h p nx).
Proof.
  intros Hl b. unfold data. destruct (decide (b = p)) as [->|].
  { rewrite (unlinked_p h p a nx Hl). destruct (h !! p); done. }
  destruct (decide (nx = Some b)) as [->|]; [|by rewrite (unlinked_lookup h p a nx)].
  rewrite (unlinked_x h p a b Hl). destruct (h !! b); done.
Qed.

Lemma linked_a h p a nx :
  linked h p a nx → get_prev h a = Ok (Some p) ∧ get_next h a = Ok nx.
Proof. intros [(nd & Ea & Ep & En) _ _ _ _ _]. unfold get_prev, get_next. rewrite Ea. simpl. by rewrite Ep, En. Qed.

Lemma get_same_at h h' a :
  h' !! a = h !! a → get_prev h' a = get_prev h a ∧ get_next h' a = get_next h a.
Proof. intros E. unfold get_prev, get_next. by rewrite E. Qed.

Lemma get_match_data h h' a : same_data h h' → get_match h' a = get_match h a.
Proof.
  intros Hd. specialize (Hd a). unfold data, get_match in *.
  destruct (h !! a), (h' !! a); simpl in *; congruence.
Qed.

(** Taking [a] out, in the order of the assignments of [lift]. *)
Definition unlink h (a : nat) : outcome heap :=
  p ← get_prev h a; nx ← get_next h a;
  h ← set_next h p nx;
  nx ← get_next h a;
  match nx with
  | None => Ok h
  | Some _ => p ← get_prev h a; set_prev h nx p
  end.

(** Putting it back, as [unlift] does. *)
Definition relink h (a : nat) : outcome heap :=
  p ← get_prev h a;
  h ← set_next h p (Some a);
  nx ← get_next h a;
  match nx with None => Ok h | Some _ => set_prev h nx (Some a) end.

Lemma unlink_Ok h p a nx : linked h p a nx → unlink h a = Ok (unlinked h p nx).
Proof.
  intros Hl. destruct (linked_a _ _ _ _ Hl) as [Gp Gn]. unfold unlink. rewrite Gp, Gn. simpl.
  destruct Hl as [Ha (np & Ep & Enp) Hn Hpa Hxa Hxp]. unfold set_next. simpl. rewrite Ep. simpl.
  destruct (get_same_at h (<[p:=with_next nx np]> h) a) as [-> ->]; [by rewrite lookup_insert_ne|].
  rewrite Gn, Gp. simpl. unfold unlinked. rewrite Ep. destruct nx as [x|]; [|done].
  destruct (Hn x eq_refl) as (nxd & Ex & _). unfold set_prev. simpl.
  rewrite lookup_insert_ne by congruence. rewrite Ex. done.
Qed.

Lemma relink_Ok h p a nx : linked h p a nx → relink (unlinked h p nx) a = Ok h.
Proof.
  intros Hl. pose proof (unlinked_lookup h p a nx a Hl) as Ha.
  pose proof (unlinked_p h p a nx Hl) as Hup.
  destruct (linked_a _ _ _ _ Hl) as [Gp Gn].
  pose proof Hl as [_ (np & Ep & Enp) Hn Hpa Hxa Hxp].
  unfold relink. destruct (get_same_at h (unlinked h p nx) a) as [-> G2]; [by apply Ha|].
  rewrite Gp. simpl. unfold set_next. simpl. rewrite Hup, Ep. simpl.
  destruct (get_same_at (unlinked h p nx) (<[p:=with_next (Some a) (with_next nx np)]> (unlinked h p nx)) a)
    as [_ ->]; [by rewrite lookup_insert_ne|]. rewrite G2, Gn. simpl.
  assert (Enp' : with_next (Some a) (with_next nx np) = np) by (destruct np; unfold with_next; simpl in *; by subst).
  rewrite Enp'. destruct nx as [x|].
  - pose proof (unlinked_x h p a x Hl) as Hux. destruct (Hn x eq_refl) as (nxd & Ex & Epx).
    unfold set_prev. simpl. rewrite lookup_insert_ne by congruence. rewrite Hux, Ex. simpl. f_equal.
    assert (with_prev (Some a) (with_prev (Some p) nxd) = nxd) as -> by (destruct nxd; unfold with_prev; simpl in *; by subst).
    apply map_eq. intros b. destruct (decide (b = x)) as [->|]; [by rewrite lookup_insert_eq|].
    rewrite lookup_insert_ne by done. destruct (decide (b = p)) as [->|]; [by rewrite lookup_insert_eq|].
    rewrite lookup_insert_ne by done. apply (unlinked_lookup h p a (Some x)); [done|done|by intros [= ->]].
  - f_equal. apply map_eq. intros b. destruct (decide (b = p)) as [->|]; [by rewrite lookup_insert_eq|].
    rewrite lookup_insert_ne by done. by apply (unlinked_lookup h p a None).
Qed.

Lemma last_snoc_app {A} (l : list A) x y : last (l ++ [x]) = Some y → y = x.
Proof. rewrite last_snoc. congruence. Qed.

(** The list without [a]. *)
Lemma seg_unlinked h o l1 p a l2 :
  seg h o (l1 ++ p :: a :: l2) → NoDup (l1 ++ p :: a :: l2) →
  seg (unlinked h p (head l2)) o (l1 ++ p :: l2).
Proof.
  intros Hs Hnd. pose proof (seg_linked _ _ _ _ _ _ Hs Hnd) as Hl.
  assert (Hfr : ∀ b, b ≠ p → head l2 ≠ Some b → unlinked h p (head l2) !! b = h !! b)
    by (intros; by apply (unlinked_lookup h p a)).
  pose proof (unlinked_p _ _ _ _ Hl) as Hup. revert o Hs.
  induction l1 as [|b l1 IH]; intros o Hs; simpl in *.
  - destruct Hs as (np & Ep & Epp & _ & (na & Ea & _ & Ena & Hs)).
    apply NoDup_cons in Hnd as [Hp Hnd]. apply NoDup_cons in Hnd as [Ha Hnd].
    exists (with_next (head l2) np). rewrite Hup, Ep. split_and!; try done.
    destruct l2 as [|x l2]; [done|]. simpl in *. destruct Hs as (nx & Ex & Epx & Enx & Hs).
    exists (with_prev (Some p) nx). rewrite (unlinked_x h p a x Hl), Ex. split_and!; try done.
    apply NoDup_cons in Hnd as [Hx Hnd]. eapply seg_frame; [|apply Hs]. intros c Hc. apply Hfr.
    + intros ->. apply Hp. right. by right.
    + intros [= ->]. done.
  - destruct Hs as (nb & Eb & Epb & Enb & Hs). apply NoDup_cons in Hnd as [Hb Hnd].
    exists nb. rewrite Hfr; [|intros ->; apply Hb; apply elem_of_app; right; by left|].
    + split_and!; try done; [|by apply IH]. rewrite Enb. by destruct l1.
    + intros Hx. apply Hb. apply elem_of_app. right. right. right.
      destruct l2 as [|x l2]; [done|]. injection Hx as ->. by left.
Qed.

(** [e] is a call whose return [m] comes later in the list. *)
Lemma lift_spec h o l1 p e l2 m l3 :
  seg h o (l1 ++ p :: e :: l2 ++ m :: l3) → NoDup (l1 ++ p :: e :: l2 ++ m :: l3) →
  get_match h e = Ok (Some m) →
  ∃ h', lift h e = Ok h' ∧ seg h' o (l1 ++ p :: l2 ++ l3) ∧ same_data h h' ∧
    unlift h' e = Ok h.
Proof.
  intros Hs Hnd Hm. pose proof (seg_linked _ _ _ _ _ _ Hs Hnd) as Hle.
  pose proof (seg_unlinked _ _ _ _ _ _ Hs Hnd) as Hs1.
  assert (∃ x, head (l2 ++ m :: l3) = Some x) as [x Hx] by (destruct l2; simpl; eauto).
  rewrite Hx in *. set (h1 := unlinked h p (Some x)) in *.
  pose proof (unlinked_data _ _ _ _ Hle) as Hd1. fold h1 in Hd1.
  assert (Hnd1 : NoDup (l1 ++ p :: l2 ++ m :: l3)).
  { apply (sublist_NoDup _ (l1 ++ p :: e :: l2 ++ m :: l3)); [done|].
    apply sublist_app; [done|]. by apply sublist_skip, sublist_cons. }
  destruct (exists_last (l := p :: l2)) as (l2' & q & Eq); [done|].
  assert (Elist : ∀ r, l1 ++ p :: l2 ++ r = (l1 ++ l2') ++ q :: r).
  { intros r. change (p :: l2 ++ r) with ((p :: l2) ++ r). rewrite Eq. by rewrite <- !app_assoc. }
  rewrite Elist in Hs1, Hnd1. pose proof (seg_linked _ _ _ _ _ _ Hs1 Hnd1) as Hlm.
  pose proof (seg_unlinked _ _ _ _ _ _ Hs1 Hnd1) as Hs2.
  pose proof (unlinked_data _ _ _ _ Hlm) as Hd2. set (h2 := unlinked h1 q (head l3)) in *.
  exists h2. destruct (linked_a _ _ _ _ Hle) as [Gpe Gne].
  pose proof (unlink_Ok _ _ _ _ Hle) as Hu1. pose proof (unlink_Ok _ _ _ _ Hlm) as Hu2.
  pose proof (relink_Ok _ _ _ _ Hle) as Hr1. pose proof (relink_Ok _ _ _ _ Hlm) as Hr2.
  fold h1 in Hu1, Hr1. fold h2 in Hu2, Hr2.
  assert (Hme1 : get_match h1 e = Ok (Some m)) by (rewrite (get_match_data _ _ _ Hd1); done).
  assert (Hme2 : get_match h2 e = Ok (Some m)) by (rewrite (get_match_data _ _ _ Hd2); done).
  assert (He1 : h1 !! e = h !! e).
  { destruct Hle. apply (unlinked_lookup h p e); [by split|congruence|congruence]. }
  split_and!.
  - unfold lift. unfold unlink in Hu1, Hu2. rewrite Gpe, Gne in *. simpl in Hu1. simpl.
    destruct (set_next h (Some p) (Some x)) as [g| |] eqn:Eg; simpl in *; [|done..].
    assert (g !! e = h !! e) as Ege.
    { unfold set_next in Eg. simpl in Eg. apply bind_Ok in Eg as (nd & _ & Eg). injection Eg as <-.
      destruct Hle. by rewrite lookup_insert_ne. }
    destruct (get_same_at h g e Ege) as [Gp' Gn']. rewrite Gn', Gp', Gne, Gpe in *. simpl in *.
    rewrite Hu1. simpl. rewrite Hme1. simpl. exact Hu2.
  - by rewrite Elist.
  - by trans h1.
  - unfold unlift. rewrite Hme2. simpl. unfold relink in Hr2.
    destruct (get_prev h2 m) as [mp| |]; simpl in *; [|done..].
    destruct (set_next h2 mp (Some m)) as [g| |]; simpl in *; [|done..].
    destruct (get_next g m) as [mn| |]; simpl in *; [|done..]. rewrite Hr2. simpl.
    unfold relink in Hr1. destruct (get_same_at h h1 e He1) as [G1 G2]. rewrite G1, Gpe in *. simpl in *.
    destruct (set_next h1 (Some p) (Some e)) as [g'| |] eqn:Eg; simpl in *; [|done..].
    assert (g' !! e = h1 !! e) as Ege.
    { unfold set_next in Eg. simpl in Eg. apply bind_Ok in Eg as (nd & _ & Eg). injection Eg as <-.
      destruct Hle. by rewrite lookup_insert_ne. }
    destruct (get_same_at h1 g' e Ege) as [_ Gn']. rewrite Gn', G2, Gne in *. simpl in *. exact Hr1.
Qed.

(** ** Building the list *)

(** A new node in front of the list. *)
Lemma insertBefore_front h n nd l :
  seg h None l → NoDup l → n ∉ l → h !! n = Some nd → nprev nd = None → nnext nd = None →
  ∃ h', insertBefore h n (head l) = Ok h' ∧ seg h' None (n :: l) ∧ same_data h h' ∧
    ∀ b, b ≠ n → head l ≠ Some b → h' !! b = h !! b.
Proof.
  intros Hs Hnd Hn En Ep Enx. destruct l as [|a l]; simpl.
  { exists h. split_and!; try done. exists nd. by rewrite En. }
  destruct Hs as (na & Ea & Epa & Ena & Hs). apply not_elem_of_cons in Hn as [Hna Hnl].
  apply NoDup_cons in Hnd as [Hal Hnd].
  unfold get_prev. rewrite Ea. simpl. rewrite Epa. unfold set_prev, set_next. simpl. rewrite Ea. simpl.
  rewrite lookup_insert_ne by done. rewrite En. simpl.
  eexists; split; [done|]. split_and!.
  - exists (with_next (Some a) nd). rewrite lookup_insert_eq. split_and!; try done.
    exists (with_prev (Some n) na). rewrite lookup_insert_ne, lookup_insert_eq by done.
    split_and!; try done. eapply seg_frame; [|apply Hs]. intros b Hb.
    rewrite !lookup_insert_ne; [done|by intros ->|by intros ->].
  - trans (<[a:=with_prev (Some n) na]> h).
    + by eapply same_data_insert.
    + eapply (same_data_insert _ n nd); [by rewrite lookup_insert_ne|done].
  - intros b Hbn Hba. rewrite !lookup_insert_ne; [done|congruence|done].
Qed.

(** The first return of operation [id]. *)
Fixpoint find_return (id : Z) (E : list entry) : option nat :=
  match E with
  | [] => None
  | e :: E => if is_return e && (eid e =? id) then Some 0%nat else S <$> find_return id E
  end.

(** The node of entry [j] of [E], when the entries are stored from address [i] on. *)
Definition node_data (i : nat) (E : list entry) (j : nat) :
    option (option (In + Out) * option nat * Z) :=
  e ← E !! j;
  Some (Some (evalue e),
        if is_return e then None
        else (λ k, (i + j + 1 + k)%nat) <$> find_return (eid e) (drop (S j) E),
        eid e).

Lemma link_from_spec i E :
  ∃ h ms, link_from i E = Ok (h, head (seq i (base.length E)), ms) ∧
    seg h None (seq i (base.length E)) ∧
    (∀ j, data h (i + j) = node_data i E j) ∧ (∀ a, (a < i)%nat → h !! a = None) ∧
    ∀ id, ms !! id = (λ k, (i + k)%nat) <$> find_return id E.
Proof.
  revert i. induction E as [|e E IH]; intros i; simpl.
  { exists ∅, ∅. split_and!; try done; intros; unfold data, node_data; by rewrite lookup_empty. }
  destruct (IH (S i)) as (h & ms & -> & Hs & Hd & Hlow & Hms). clear IH. simpl.
  set (m := if is_return e then None else ms !! eid e).
  set (ms' := if is_return e then <[eid e := i]> ms else ms).
  assert (E1 : (if is_return e then (None, <[eid e := i]> ms) else (ms !! eid e, ms)) = (m, ms'))
    by (unfold m, ms'; by destruct (is_return e)).
  rewrite E1. set (nd := MkNode (Some (evalue e)) m (eid e) None None).
  destruct (insertBefore_front (<[i := nd]> h) i nd (seq (S i) (base.length E)))
    as (h' & Ei & Hs' & Hd' & Hfr).
  - eapply seg_frame; [|apply Hs]. intros a Ha. apply elem_of_seq in Ha. rewrite lookup_insert_ne by lia. done.
  - apply NoDup_seq.
  - intros Hin%elem_of_seq. lia.
  - by rewrite lookup_insert_eq.
  - done.
  - done.
  - rewrite Ei. simpl. exists h', ms'. split_and!; try done.
    + intros j. rewrite Hd'. unfold data, node_data. destruct j as [|j].
      * rewrite Nat.add_0_r, lookup_insert_eq. simpl. unfold m. rewrite Hms. simpl.
        rewrite drop_0. destruct (is_return e); [done|].
        destruct (find_return (eid e) E); simpl; [|done].
        repeat f_equal. lia.
      * rewrite lookup_insert_ne by lia. replace (i + S j)%nat with (S i + j)%nat by lia.
        specialize (Hd j). unfold data, node_data in Hd. rewrite Hd. simpl.
        destruct (E !! j) as [ej|]; simpl; [|done]. destruct (is_return ej); [done|].
        destruct (find_return _ _); simpl; [|done]. repeat f_equal; lia.
    + intros a Ha. rewrite Hfr; [|lia|].
      * rewrite lookup_insert_ne by lia. apply Hlow. lia.
      * destruct E as [|e' E]; simpl; [done|]. intros [= ?]. lia.
    + intros id. unfold ms'. destruct (is_return e); simpl.
      * destruct (Z.eqb_spec (eid e) id) as [->|Hne].
        { rewrite lookup_insert_eq. simpl. f_equal. lia. }
        rewrite lookup_insert_ne by done. rewrite Hms. destruct (find_return id E); simpl; [|done].
        f_equal. lia.
      * rewrite Hms. destruct (find_return id E); simpl; [|done]. f_equal. lia.
Qed.

Lemma length_spec h p l fuel :
  seg h p l → (base.length l ≤ fuel)%nat → length fuel h (head l) = Ok (Some (len l)).
Proof.
  revert p fuel. induction l as [|a l IH]; intros p fuel Hs Hf; [by destruct fuel|].
  destruct Hs as (nd & Ea & _ & En & Hs). destruct fuel as [|fuel]; [simpl in Hf; lia|].
  cbn [length head]. unfold get_next. rewrite Ea. simpl. rewrite En. simpl in Hf.
  rewrite (IH (Some a)) by (done || lia). simpl. by rewrite len_cons.
Qed.
End heap.
