(* ===== verification/LinCheck.v ===== *)
(** * The search for a linearization: [cacheContains] and [checkSingle] of
    [linearizability/linearizability.go].

    [checkSingle] is a depth-first search that lifts a call and its return out of the
    list, and puts them back when it runs into a return that it cannot pass.  The loop
    body is [check_step]; [checkSingle] terminates within [check_fuel] iterations, and
    answers [true] exactly when the operations can be put in a legal order that respects
    the order of the entries. *)

From S2P Require Import Prelude Bitset LinHeap.

Section check.
Context {St In Out : Type}.

Abbreviation node := (@node In Out).
Abbreviation heap := (gmap nat node).
Abbreviation entry := (@entry In Out).

(** The functions of a [Model] that the search uses. *)
Variable Init : St.
Variable Step : St → In → Out → bool * St.
Variable Equal : St → St → bool.

Record cacheEntry := MkCacheEntry { ce_linearized : bitset; ce_state : St }.
Record callsEntry := MkCallsEntry { ca_entry : nat; ca_state : St }.

Definition cacheContains (cache : gmap Z (list cacheEntry)) (entry : cacheEntry) : bool :=
  existsb (λ elem, equals (ce_linearized entry) (ce_linearized elem) &&
                   Equal (ce_state entry) (ce_state elem))
    (default [] (cache !! hash (ce_linearized entry))).

(** The variables of the loop of [checkSingle]; the last call is the head of [s_calls]. *)
Record search := MkSearch {
  s_heap : heap;
  s_cache : gmap Z (list cacheEntry);
  s_calls : list callsEntry;
  s_state : St;
  s_linearized : bitset;
  s_entry : option nat;
}.

(** [model.Step] on the values of two nodes, with the type assertions on them. *)
Definition step_values (s : St) (v w : option (In + Out)) : outcome (bool * St) :=
  match v, w with
  | Some (inl i), Some (inr o) => Ok (Step s i o)
  | _, _ => Panic
  end.

(** [entry = entry.next] *)
Definition advance (s : search) (e : nat) : outcome (search + bool) :=
  nx ← get_next (s_heap s) e;
  Ok (inl (MkSearch (s_heap s) (s_cache s) (s_calls s) (s_state s) (s_linearized s) nx)).

(** The branch that linearizes the call at [e]. *)
Definition push (headEntry : nat) (s : search) (e : nat) (newEntry : cacheEntry) (id : Z) :
    outcome (search + bool) :=
  let hsh := hash (ce_linearized newEntry) in
  let cache := <[hsh := default [] (s_cache s !! hsh) ++ [newEntry]]> (s_cache s) in
  let calls := MkCallsEntry e (s_state s) :: s_calls s in
  linearized ← set (s_linearized s) id;
  h ← lift (s_heap s) e;
  nx ← get_next h headEntry;
  Ok (inl (MkSearch h cache calls (ce_state newEntry) linearized nx)).

(** The branch that undoes the last call, or gives up. *)
Definition backtrack (s : search) : outcome (search + bool) :=
  match s_calls s with
  | [] => Ok (inr false)
  | callsTop :: calls =>
      let e := ca_entry callsTop in
      nd ← must (s_heap s !! e);
      linearized ← clear (s_linearized s) (nid nd);
      h ← unlift (s_heap s) e;
      nx ← get_next h e;
      Ok (inl (MkSearch h (s_cache s) calls (ca_state callsTop) linearized nx))
  end.

(** One iteration; [kill] is what it reads from the variable of that name. *)
Definition check_step (headEntry : nat) (kill : bool) (s : search) : outcome (search + bool) :=
  hn ← get_next (s_heap s) headEntry;
  match hn with
  | None => Ok (inr true)
  | Some _ =>
      if kill then Ok (inr false) else
      e ← must (s_entry s);
      nd ← must (s_heap s !! e);
      match nmatch nd with
      | Some matching =>
          mnd ← must (s_heap s !! matching);
          '(ok, newState) ← step_values (s_state s) (nvalue nd) (nvalue mnd);
          if ok : bool then
            newLinearized ← set (clone (s_linearized s)) (nid nd);
            let newEntry := MkCacheEntry newLinearized newState in
            if negb (cacheContains (s_cache s) newEntry) then push headEntry s e newEntry (nid nd)
            else advance s e
          else advance s e
      | None => backtrack s
      end
  end.

(** At most [fuel] iterations, numbered from [i]; [None] if the loop goes on after them. *)
Fixpoint check_loop (headEntry : nat) (kills : nat → bool) (i fuel : nat) (s : search) :
    outcome (option bool) :=
  match fuel with
  | O => Ok None
  | S fuel =>
      r ← check_step headEntry (kills i) s;
      match r with
      | inl s => check_loop headEntry kills (S i) fuel s
      | inr b => Ok (Some b)
      end
  end.

(** The addresses of [h] are [0 .. size h - 1], so [size h] is the next free one. *)
Definition checkSingle (fuel : nat) (kills : nat → bool) (h : heap) (subhistory : option nat) :
    outcome (option bool) :=
  n ← length fuel h subhistory;
  match n with
  | None => Ok None
  | Some n =>
      let linearized := newBitset (n / 2) in
      let headEntry := size h in
      let h := <[headEntry := MkNode None None (u64 (Z.lnot 0)) None None]> h in
      h ← insertBefore h headEntry subhistory;
      check_loop headEntry kills 0 fuel (MkSearch h ∅ [] Init linearized subhistory)
  end.

(** ** Linearizations of a list of entries *)
Section history.
Variable E : list entry.

Definition eid_at (j : nat) : Z := match E !! j with Some e => eid e | None => 0 end.
Definition call_at (j : nat) : Prop := ∃ e, E !! j = Some e ∧ is_return e = false.
Definition match_at (j : nat) : option nat :=
  match E !! j with
  | Some e => if is_return e then None
              else (λ k, (j + 1 + k)%nat) <$> find_return (eid e) (drop (S j) E)
  | None => None
  end.

(** Every call is followed by its return; every return has its call. *)
Record complete (ids : Z) : Prop := {
  cp_match : ∀ c, call_at c → ∃ r, match_at c = Some r;
  cp_same : ∀ c r j, match_at c = Some r → (j < base.length E)%nat → eid_at j = eid_at c →
              j = c ∨ j = r;
  cp_call : ∀ r, (r < base.length E)%nat → ¬ call_at r → ∃ c, match_at c = Some r;
  cp_ids : ∀ j, (j < base.length E)%nat → 0 ≤ eid_at j < ids;
}.

(** The operation with its call at [c] and its return at [r], in state [s]. *)
Definition op_step (c r : nat) (s : St) : option St :=
  match E !! c, E !! r with
  | Some (MkEntry (inl i) _ _), Some (MkEntry (inr o) _ _) =>
      let '(ok, s') := Step s i o in if ok then Some s' else None
  | _, _ => None
  end.

(** From state [s] the operations of the entries [R] can take place. *)
Inductive completes : list nat → St → Prop :=
| completes_nil s : completes [] s
| completes_op pre c mid r post s s' :
    Forall call_at pre → match_at c = Some r → op_step c r s = Some s' →
    completes (pre ++ mid ++ post) s' → completes (pre ++ c :: mid ++ r :: post) s.

Lemma match_at_spec c r :
  match_at c = Some r → call_at c ∧ (c < r < base.length E)%nat ∧ ¬ call_at r ∧ eid_at r = eid_at c.
Proof.
  unfold match_at, call_at, eid_at. destruct (E !! c) as [e|] eqn:Ec; [|done].
  destruct (is_return e) eqn:Er; [done|]. intros (k & Hk & ->)%fmap_Some.
  assert (∀ (F : list entry) k, find_return (eid e) F = Some k →
            ∃ f : entry, F !! k = Some f ∧ is_return f = true ∧ eid f = eid e) as HF.
  { clear. induction F as [|f F IH]; intros k; simpl; [done|].
    destruct (is_return f && (eid f =? eid e)) eqn:Ef.
    - intros [= <-]. go_bools. by exists f.
    - intros (k' & (g & Hg & ?)%IH & ->)%fmap_Some. by exists g. }
  apply HF in Hk as (f & Hf & Hrf & Hid). rewrite lookup_drop in Hf.
  assert (E !! (c + 1 + k)%nat = Some f) as Hf' by (rewrite <- Hf; f_equal; lia).
  split_and!; [by eauto|lia|by eapply lookup_lt_Some| |by rewrite Hf'].
  intros (g & Hg & Hrg). congruence.
Qed.

(** ** The search *)

(** The list without the operations of the set [lin]. *)
Definition remaining (lin : bitset) : list nat :=
  filter (λ j, bit lin (eid_at j) = false) (seq 0 (base.length E)).

Variables (h0 : heap) (headEntry : nat) (ids : Z).
Hypothesis Hcp : complete ids.
Hypothesis Hh0 : ∀ j, (j < base.length E)%nat → data h0 j = node_data 0 E j.
Hypothesis Hhead : (base.length E ≤ headEntry)%nat.
Hypothesis Equal_eq : ∀ s1 s2, Equal s1 s2 = true → s1 = s2.

Definition dead (lin : bitset) (s : St) : Prop := ¬ completes (remaining lin) s.

(** The call at [c] leads nowhere from [lin] and [s]. *)
Definition hopeless (lin : bitset) (s : St) (c : nat) : Prop :=
  ∀ r s' lin', match_at c = Some r → op_step c r s = Some s' →
    set lin (eid_at c) = Ok lin' → dead lin' s'.

Definition cached (cache : gmap Z (list cacheEntry)) (ce : cacheEntry) : Prop :=
  ∃ k l, cache !! k = Some l ∧ ce ∈ l.

(** Everything in the cache beyond the current set is dead. *)
Definition cache_ok (cache : gmap Z (list cacheEntry)) (n : nat) : Prop :=
  ∀ ce, cached cache ce → (base.length (remaining (ce_linearized ce)) < n)%nat →
    dead (ce_linearized ce) (ce_state ce).

Lemma in_remaining lin j :
  j ∈ remaining lin ↔ (j < base.length E)%nat ∧ bit lin (eid_at j) = false.
Proof. unfold remaining. rewrite list_elem_of_filter, elem_of_seq. naive_solver lia. Qed.

Lemma remaining_NoDup lin : NoDup (remaining lin).
Proof. apply NoDup_filter, NoDup_seq. Qed.

Lemma node_at h j :
  same_data h0 h → (j < base.length E)%nat →
  ∃ nd e, E !! j = Some e ∧ h !! j = Some nd ∧ nvalue nd = Some (evalue e) ∧
    nmatch nd = match_at j ∧ nid nd = eid_at j.
Proof.
  intros Hd Hj. specialize (Hd j). rewrite Hh0 in Hd by done. unfold data, node_data in Hd.
  unfold match_at, eid_at. destruct (E !! j) as [e|] eqn:Ej; [|apply lookup_ge_None in Ej; lia].
  simpl in Hd. destruct (h !! j) as [nd|] eqn:En; [|done]. simpl in Hd. injection Hd as Hv Hm Hi.
  by exists nd, e.
Qed.

(** Without the operation whose call is [c], the list loses two entries. *)
Lemma remaining_set lin lin' pre c mid r post :
  remaining lin = pre ++ c :: mid ++ r :: post → match_at c = Some r →
  (∀ q, 0 ≤ q → bit lin' q = if decide (q = eid_at c) then true else bit lin q) →
  remaining lin' = pre ++ mid ++ post.
Proof.
  intros HR Hm Hbit. pose proof (match_at_spec _ _ Hm) as (Hc & Hr & _ & Hid).
  assert (remaining lin' = filter (λ j, eid_at j ≠ eid_at c) (remaining lin)) as ->.
  { unfold remaining. rewrite list_filter_filter. apply filter_ext_in. intros j Hj%elem_of_seq.
    pose proof (cp_ids _ Hcp j ltac:(lia)). rewrite Hbit by lia. case_decide; naive_solver. }
  pose proof (remaining_NoDup lin) as Hnd. rewrite HR in *.
  assert (Hk : ∀ j, j ∈ pre ++ c :: mid ++ r :: post → j ≠ c → j ≠ r → eid_at j ≠ eid_at c).
  { intros j Hj Hjc Hjr Hje. rewrite <- HR in Hj. apply in_remaining in Hj as [Hj _].
    destruct (cp_same _ Hcp c r j); done. }
  apply NoDup_app in Hnd as (Hn1 & Hx & Hnd). apply NoDup_cons in Hnd as [Hcn Hnd].
  apply NoDup_app in Hnd as (Hn2 & Hx2 & Hnd). apply NoDup_cons in Hnd as [Hrn Hn3].
  assert (Hf : ∀ l : list nat, (∀ j : nat, j ∈ l → j ∈ pre ++ c :: mid ++ r :: post ∧ j ≠ c ∧ j ≠ r) →
            filter (λ j, eid_at j ≠ eid_at c) l = l).
  { intros l Hl. apply filter_all. intros j Hj. destruct (Hl j Hj) as (? & ? & ?). by apply Hk. }
  rewrite !filter_app, !filter_cons_False, filter_app, filter_cons_False by naive_solver.
  rewrite !Hf; [done|..]; set_solver.
Qed.

(** The list in the heap is that of [lin], behind [headEntry]. *)
Definition view (h : heap) (lin : bitset) : Prop :=
  seg h None (headEntry :: remaining lin) ∧ same_data h0 h.

(** A set with room for all operations. *)
Definition fits (lin : bitset) : Prop := words lin ∧ ids ≤ 64 * len lin.

Lemma head_NoDup lin : NoDup (headEntry :: remaining lin).
Proof.
  apply NoDup_cons. split; [|apply remaining_NoDup]. intros [Hh _]%in_remaining. lia.
Qed.

Lemma view_next h lin pre j post :
  view h lin → remaining lin = pre ++ j :: post → get_next h j = Ok (head post).
Proof.
  intros [Hs _] HR. rewrite HR in Hs. apply (seg_app h None (headEntry :: pre)) in Hs.
  destruct Hs as (nd & Ej & _ & En & _). unfold get_next. rewrite Ej. simpl. by rewrite En.
Qed.

Lemma view_head h lin : view h lin → get_next h headEntry = Ok (head (remaining lin)).
Proof. intros [(nd & Eh & _ & En & _) _]. unfold get_next. rewrite Eh. simpl. by rewrite En. Qed.

Lemma step_call h cache cs st lin pre c mid r post :
  view h lin → remaining lin = pre ++ c :: mid ++ r :: post → match_at c = Some r →
  check_step headEntry false (MkSearch h cache cs st lin (Some c)) =
  let s := MkSearch h cache cs st lin (Some c) in
  let adv := Ok (inl (MkSearch h cache cs st lin (head (mid ++ r :: post)))) in
  match op_step c r st with
  | None => adv
  | Some st' =>
      newLin ← set lin (eid_at c);
      if cacheContains cache (MkCacheEntry newLin st') then adv
      else push headEntry s c (MkCacheEntry newLin st') (eid_at c)
  end.
Proof.
  intros Hv HR Hm. unfold check_step. simpl. rewrite (view_head _ _ Hv).
  assert (Hadv : advance (MkSearch h cache cs st lin (Some c)) c =
            Ok (inl (MkSearch h cache cs st lin (head (mid ++ r :: post))))).
  { unfold advance. simpl. by rewrite (view_next _ _ _ _ _ Hv HR). }
  destruct (head (remaining lin)) eqn:Eh; [|rewrite HR in Eh; by destruct pre]. simpl.
  pose proof (match_at_spec _ _ Hm) as ((ec & Hc & Hic) & Hr & Hnr & _).
  destruct Hv as [_ Hd]. assert (c < base.length E)%nat as Hcl by lia.
  destruct (node_at h c Hd Hcl) as (nc & ec' & Hc' & Enc & Hvc & Hmc & Hidc).
  destruct (node_at h r Hd ltac:(lia)) as (nr & er & Hre & Enr & Hvr & _ & _).
  rewrite Enc. simpl. rewrite Hmc, Hm. simpl. rewrite Enr. simpl. rewrite Hvc, Hvr, Hidc.
  rewrite Hc in Hc'. injection Hc' as <-. unfold op_step. rewrite Hc, Hre.
  destruct ec as [[i|] ? ?]; [|done].
  destruct er as [[|o] idr tr]; [exfalso; apply Hnr; eexists; split; [apply Hre|done]|].
  simpl. destruct (Step st i o) as [[] st']; simpl; [|done]. unfold clone.
  destruct (set lin (eid_at c)) as [newLin| |]; simpl; [|done..].
  by destruct (cacheContains _ _).
Qed.

Lemma step_push h cache cs st lin lin' st' pre c mid r post :
  view h lin → remaining lin = pre ++ c :: mid ++ r :: post → match_at c = Some r →
  set lin (eid_at c) = Ok lin' → remaining lin' = pre ++ mid ++ post →
  ∃ h', push headEntry (MkSearch h cache cs st lin (Some c)) c (MkCacheEntry lin' st') (eid_at c) =
      Ok (inl (MkSearch h' (<[hash lin' := default [] (cache !! hash lin') ++ [MkCacheEntry lin' st']]> cache)
                 (MkCallsEntry c st :: cs) st' lin' (head (remaining lin')))) ∧
    view h' lin' ∧ unlift h' c = Ok h.
Proof.
  intros Hv HR Hm Hset HR'. pose proof Hv as [Hs Hd]. pose proof (head_NoDup lin) as Hnd.
  rewrite HR in Hs, Hnd. destruct (exists_last (l := headEntry :: pre)) as (l1 & q & Eq); [done|].
  assert (Hl : ∀ l, headEntry :: pre ++ l = l1 ++ q :: l).
  { intros l. change (headEntry :: pre ++ l) with ((headEntry :: pre) ++ l). by rewrite Eq, <- app_assoc. }
  rewrite Hl in Hs, Hnd. pose proof (match_at_spec _ _ Hm) as (_ & Hr & _).
  assert (c < base.length E)%nat as Hcl by lia.
  destruct (node_at h c Hd Hcl) as (nc & ec & _ & Enc & _ & Hmc & _).
  destruct (lift_spec h None l1 q c mid r post) as (h' & El & Hs' & Hd' & Hu); [done|done| |].
  { unfold get_match. rewrite Enc. simpl. by rewrite Hmc, Hm. }
  rewrite <- Hl, <- HR' in Hs'. assert (view h' lin') as Hv' by (split; [done|by trans h]).
  exists h'. split; [|done]. unfold push. simpl. rewrite Hset. simpl. rewrite El. simpl.
  by rewrite (view_head _ _ Hv').
Qed.

Lemma step_back h h' cache c cs st st' lin lin' pre r post pre' j post' :
  view h' lin' → remaining lin' = pre' ++ j :: post' → ¬ call_at j →
  view h lin → remaining lin = pre ++ c :: post → call_at c → match_at c = Some r →
  unlift h' c = Ok h → clear lin' (eid_at c) = Ok lin →
  check_step headEntry false (MkSearch h' cache (MkCallsEntry c st :: cs) st' lin' (Some j)) =
    Ok (inl (MkSearch h cache cs st lin (head post))).
Proof.
  intros Hv' HR' Hj Hv HR Hc Hm Hu Hcl. unfold check_step. simpl. rewrite (view_head _ _ Hv').
  destruct (head (remaining lin')) eqn:Eh; [|rewrite HR' in Eh; by destruct pre']. simpl.
  assert (Hjl : j ∈ remaining lin') by (rewrite HR'; set_solver). apply in_remaining in Hjl as [Hjl _].
  pose proof (match_at_spec _ _ Hm) as (_ & Hr & _). assert (c < base.length E)%nat as Hcn by lia.
  destruct Hv' as [_ Hd']. destruct (node_at h' j Hd' Hjl) as (nj & ej & Hej & Enj & _ & Hmj & _).
  destruct (node_at h' c Hd' Hcn) as (nc & ec & Hec & Enc & _ & _ & Hidc).
  rewrite Enj. simpl. rewrite Hmj.
  assert (match_at j = None) as ->.
  { unfold match_at. rewrite Hej. destruct (is_return ej) eqn:Er; [done|]. destruct Hj. by exists ej. }
  unfold backtrack. simpl. rewrite Enc. simpl. rewrite Hidc, Hcl. simpl. rewrite Hu. simpl.
  by rewrite (view_next _ _ _ _ _ Hv HR).
Qed.

(** The bitset with one more operation, and without it again. *)
Lemma set_clear lin c :
  fits lin → c ∈ remaining lin →
  ∃ lin', set lin (eid_at c) = Ok lin' ∧ fits lin' ∧ clear lin' (eid_at c) = Ok lin ∧
    ∀ q, 0 ≤ q → bit lin' q = if decide (q = eid_at c) then true else bit lin q.
Proof.
  intros [Hw Hl] [Hc Hb]%in_remaining. pose proof (cp_ids _ Hcp c Hc) as Hid.
  destruct (set_bit lin (eid_at c)) as (lin' & Hs & Hl' & Hw' & Hb'); [lia|].
  destruct (clear_bit lin' (eid_at c)) as (lin'' & Hcl & Hl'' & Hw'' & Hb''); [lia|].
  exists lin'. split_and!; [done|split; [by apply Hw'|lia]| |done].
  assert (lin'' = lin) as <-; [|done]. apply bit_ext; [by auto|done|congruence|].
  intros q Hq. rewrite Hb'', Hb' by done. destruct (decide (q = eid_at c)) as [->|]; [by rewrite Hb|done].
Qed.

(** ** Exploring *)

Fixpoint nsteps (n : nat) (s s' : search) : Prop :=
  match n with
  | O => s = s'
  | S n => ∃ t, check_step headEntry false s = Ok (inl t) ∧ nsteps n t s'
  end.

Lemma nsteps_app a b s t u : nsteps a s t → nsteps b t u → nsteps (a + b) s u.
Proof. revert s. induction a as [|a IH]; intros s; simpl; [by intros ->|naive_solver]. Qed.

Lemma nsteps_1 s t : check_step headEntry false s = Ok (inl t) → nsteps 1 s t.
Proof. simpl. eauto. Qed.

Lemma call_at_dec j : call_at j ∨ ¬ call_at j.
Proof.
  unfold call_at. destruct (E !! j) as [e|]; [|by right; intros (? & ? & _)].
  destruct (is_return e) eqn:?; [right; intros (? & [= ->] & ?); congruence|left; eauto].
Qed.

(** The return of a call of the list comes later in the list. *)
Lemma return_in_list lin pre c post :
  remaining lin = pre ++ c :: post → Forall call_at pre → call_at c →
  ∃ mid r post', match_at c = Some r ∧ post = mid ++ r :: post'.
Proof.
  intros HR Hpre Hc. destruct (cp_match _ Hcp c Hc) as [r Hm].
  pose proof (match_at_spec _ _ Hm) as (_ & Hr & Hnr & Hid).
  assert (c ∈ remaining lin) as [_ Hb]%in_remaining by (rewrite HR; set_solver).
  assert (r ∈ remaining lin) as Hin by (apply in_remaining; split; [lia|congruence]).
  rewrite HR in Hin. apply elem_of_app in Hin as [Hin|Hin].
  { rewrite Forall_forall in Hpre. by apply Hpre in Hin. }
  apply elem_of_cons in Hin as [->|Hin]; [done|].
  apply list_elem_of_split in Hin as (mid & post' & ->). eauto.
Qed.

Lemma before_first (P : nat → Prop) pre0 c l pre j post :
  pre0 ++ c :: l = pre ++ j :: post → Forall P (pre0 ++ [c]) → ¬ P j → c ∈ pre.
Proof.
  intros HR Hall Hj. revert pre HR. induction pre0 as [|x pre0 IH]; intros [|y pre] HR; simpl in *;
    injection HR as -> HR; try (by apply Forall_inv in Hall); [by left|].
  right. apply IH; [|done]. by apply Forall_inv_tail in Hall.
Qed.

(** When every call before the first return is hopeless, nothing is left to try. *)
Lemma dead_intro lin s pre j post :
  fits lin → remaining lin = pre ++ j :: post → ¬ call_at j → Forall (hopeless lin s) pre →
  dead lin s.
Proof.
  intros Hf HR Hj Hh Hcm. remember (remaining lin) as R eqn:ER.
  destruct Hcm as [|pre0 c mid r post0 s s' Hpre Hm Hop Hcm]; [by destruct pre|].
  pose proof (match_at_spec _ _ Hm) as (Hc & _).
  assert (Hcp' : c ∈ pre).
  { assert (Forall call_at (pre0 ++ [c])) as Hall by (apply Forall_app; by split; [|constructor]).
    by apply (before_first call_at pre0 c (mid ++ r :: post0) pre j post). }
  destruct (set_clear lin c) as (lin' & Hset & Hf' & _ & Hb); [done|rewrite <- ER; set_solver|].
  rewrite Forall_forall in Hh. apply (Hh c Hcp' r s' lin'); [done..|].
  unfold dead. by rewrite (remaining_set lin lin' pre0 c mid r post0).
Qed.

(** Iterations to explore a list of [m] operations. *)
Fixpoint work (m : nat) : nat :=
  match m with O => 0 | S m => 2 * S m * (work m + 2) end.

Lemma work_bound k n m : (k ≤ n * (work (m - 1) + 2))%nat → (n ≤ 2 * m)%nat → (k ≤ work m)%nat.
Proof.
  intros Hk Hn. etrans; [exact Hk|]. destruct m as [|m]; [replace n with 0%nat by lia; done|].
  replace (S m - 1)%nat with m by lia. cbn [work]. by apply Nat.mul_le_mono_r.
Qed.

(** From the call or return at the head of [rest], the search ends with a linearization,
    or comes to the first return with everything before it found hopeless. *)
Definition explored (lin : bitset) (h : heap) (st : St) (cache : gmap Z (list cacheEntry))
    (cs : list callsEntry) (s : search) : Prop :=
  (check_step headEntry false s = Ok (inr true) ∧ completes (remaining lin) st) ∨
  ∃ cache' pre j post,
    s = MkSearch h cache' cs st lin (Some j) ∧ remaining lin = pre ++ j :: post ∧
    ¬ call_at j ∧ Forall (hopeless lin st) pre ∧
    ∀ ce, cached cache' ce → cached cache ce ∨ dead (ce_linearized ce) (ce_state ce).

Lemma cacheContains_cached cache lin s :
  cacheContains cache (MkCacheEntry lin s) = true → cached cache (MkCacheEntry lin s).
Proof.
  unfold cacheContains. intros ([lin' s'] & Hin & Heq)%existsb_exists. simpl in *.
  apply andb_prop in Heq as [Hl%equals_spec Hs%Equal_eq]. subst.
  destruct (cache !! hash lin') as [l|] eqn:El; [|done].
  exists (hash lin'), l. split; [done|]. by apply list_elem_of_In.
Qed.

Lemma cached_insert cache k ce ce' :
  cached (<[k := default [] (cache !! k) ++ [ce]]> cache) ce' → cached cache ce' ∨ ce' = ce.
Proof.
  intros (k' & l & Hl & Hin). destruct (decide (k' = k)) as [->|].
  - rewrite lookup_insert_eq in Hl. injection Hl as <-.
    apply elem_of_app in Hin as [Hin| ->%list_elem_of_singleton]; [|by right].
    left. destruct (cache !! k) as [l'|] eqn:El; [|by apply elem_of_nil in Hin]. by exists k, l'.
  - rewrite lookup_insert_ne in Hl by done. left. by exists k', l.
Qed.

Definition explores (m : nat) : Prop := ∀ lin h st cache cs rest pre,
  (base.length (remaining lin) ≤ 2 * m)%nat → fits lin → view h lin →
  remaining lin = pre ++ rest → rest ≠ [] → Forall call_at pre → Forall (hopeless lin st) pre →
  cache_ok cache (base.length (remaining lin)) →
  ∃ k s', (k ≤ base.length rest * (work (m - 1) + 2))%nat ∧
    nsteps k (MkSearch h cache cs st lin (head rest)) s' ∧ explored lin h st cache cs s'.

(** Trying the call at [c]: the search ends, or goes on to the next entry with [c] hopeless. *)
Lemma explore_call m lin h st cache cs pre c mid r post :
  explores m →
  (base.length (remaining lin) ≤ 2 * S m)%nat → fits lin → view h lin →
  remaining lin = pre ++ c :: mid ++ r :: post → Forall call_at pre → match_at c = Some r →
  cache_ok cache (base.length (remaining lin)) →
  ∃ k s', (k ≤ work m + 2)%nat ∧ nsteps k (MkSearch h cache cs st lin (Some c)) s' ∧
    ((check_step headEntry false s' = Ok (inr true) ∧ completes (remaining lin) st) ∨
     ∃ cache', s' = MkSearch h cache' cs st lin (head (mid ++ r :: post)) ∧ hopeless lin st c ∧
       ∀ ce, cached cache' ce → cached cache ce ∨ dead (ce_linearized ce) (ce_state ce)).
Proof.
  intros IH Hlen Hf Hv HR Hpre Hm Hok. pose proof (match_at_spec _ _ Hm) as (Hc & _).
  pose proof (step_call h cache cs st lin pre c mid r post Hv HR Hm) as Hstep. simpl in Hstep.
  destruct (op_step c r st) as [st'|] eqn:Eop.
  2: { exists 1%nat. eexists. split; [lia|]. split; [by apply nsteps_1|]. right.
       exists cache. split; [done|]. split; [|by left]. intros r' s' lin' Hm' Hop. congruence. }
  destruct (set_clear lin c) as (lin' & Hset & Hf' & Hcl & Hb); [done|rewrite HR; set_solver|].
  pose proof (remaining_set lin lin' pre c mid r post HR Hm Hb) as HR'.
  assert (Hlt : base.length (remaining lin) = S (S (base.length (remaining lin')))).
  { rewrite HR, HR'. repeat (rewrite length_app || simpl). lia. }
  assert (Hhope : dead lin' st' → hopeless lin st c).
  { intros Hd r' s' lin2 Hm' Hop Hset'. congruence. }
  rewrite Hset in Hstep. simpl in Hstep. destruct (cacheContains _ _) eqn:Ecc.
  { exists 1%nat. eexists. split; [lia|]. split; [by apply nsteps_1|]. right. exists cache.
    split; [done|]. split; [|by left]. apply Hhope. apply cacheContains_cached in Ecc.
    apply (Hok _ Ecc). simpl. lia. }
  destruct (step_push h cache cs st lin lin' st' pre c mid r post) as (h' & Hp & Hv' & Hu); [done..|].
  rewrite Hp in Hstep. set (cache1 := <[_ := _]> cache) in *.
  destruct (remaining lin') as [|j R'] eqn:ER'.
  { exists 1%nat. eexists. split; [lia|]. split; [by apply nsteps_1|]. left. split.
    - unfold check_step. simpl. by rewrite (view_head _ _ Hv'), ER'.
    - rewrite HR. apply (completes_op pre c mid r post st st'); [done..|]. rewrite <- HR'. constructor. }
  simpl in Hlt. destruct (IH lin' h' st' cache1 (MkCallsEntry c st :: cs) (remaining lin') [])
    as (k & s' & Hk & Hst & Hex); try done; try (by rewrite ?ER'); try (rewrite ER'; simpl; lia).
  { intros ce Hce Hl. apply cached_insert in Hce as [Hce| ->]; [|simpl in Hl; lia].
    apply (Hok _ Hce). rewrite Hlt. simpl in *. rewrite ER' in Hl. simpl in Hl. lia. }
  assert (Hk' : (k ≤ work m)%nat) by (apply (work_bound _ _ _ Hk); rewrite ER'; simpl; lia).
  rewrite ER' in Hst. destruct Hex as [[Hdone Hcm]|(cache' & pre' & j' & post' & -> & HRj & Hj & Hh & Hca)].
  - exists (1 + k)%nat, s'. split; [lia|]. split; [eapply nsteps_app; [by apply nsteps_1|done]|].
    left. split; [done|]. rewrite HR. apply (completes_op pre c mid r post st st'); [done..|].
    by rewrite <- HR', <- ER'.
  - assert (Hd : dead lin' st') by (by eapply dead_intro).
    exists (1 + k + 1)%nat. eexists. split; [lia|]. split.
    + eapply nsteps_app; [eapply nsteps_app; [by apply nsteps_1|exact Hst]|]. apply nsteps_1.
      by apply (step_back h h' cache' c cs st st' lin lin' pre r (mid ++ r :: post) pre' j' post').
    + right. exists cache'. split; [done|]. split; [by apply Hhope|]. intros ce Hce.
      destruct (Hca ce Hce) as [Hce'|]; [|by right].
      apply cached_insert in Hce' as [?| ->]; [by left|by right].
Qed.

Lemma explore m : explores m.
Proof.
  induction m as [|m IHm]; intros lin h st cache cs rest.
  { intros pre Hlen _ _ HR Hne. rewrite HR, length_app in Hlen. destruct rest; simpl in Hlen; [done|lia]. }
  replace (S m - 1)%nat with m by lia. revert cache.
  induction rest as [|c rest IH]; intros cache pre Hlen Hf Hv HR Hne Hpre Hh Hok; [done|].
  destruct (call_at_dec c) as [Hc|Hc].
  2: { exists 0%nat. eexists. split; [lia|]. split; [done|]. right.
       exists cache, pre, c, rest. split_and!; try done. by left. }
  destruct (return_in_list lin pre c rest HR Hpre Hc) as (mid & r & post & Hm & ->).
  destruct (explore_call m lin h st cache cs pre c mid r post) as (k & s' & Hk & Hst & Hres); [done..|].
  destruct Hres as [Hdone|(cache' & -> & Hhc & Hca)].
  { exists k, s'. split; [simpl; lia|]. split; [done|]. by left. }
  destruct (IH cache' (pre ++ [c])) as (k2 & s2 & Hk2 & Hst2 & Hex); try done.
  - by rewrite <- app_assoc.
  - by destruct mid.
  - apply Forall_app. by split; [|constructor].
  - apply Forall_app. by split; [|constructor].
  - intros ce Hce Hl. destruct (Hca ce Hce) as [Hce'|]; [by apply Hok|done].
  - exists (k + k2)%nat, s2. split; [cbn [base.length]; lia|]. split; [by eapply nsteps_app|].
    destruct Hex as [Hdone|(cache2 & pre2 & j & post2 & -> & HR2 & Hj & Hh2 & Hca2)]; [by left|].
    right. exists cache2, pre2, j, post2. split_and!; try done. intros ce Hce.
    destruct (Hca2 ce Hce) as [Hce'|]; [by apply Hca|by right].
Qed.

(** The whole loop. *)
Lemma check_loop_explore m lin h cache fuel i :
  (base.length (remaining lin) ≤ 2 * m)%nat → fits lin → view h lin → cache_ok cache (base.length (remaining lin)) →
  (work m + 2 ≤ fuel)%nat →
  ∃ b, check_loop headEntry (λ _, false) i fuel
         (MkSearch h cache [] Init lin (head (remaining lin))) = Ok (Some b) ∧
    (b = true ↔ completes (remaining lin) Init).
Proof.
  intros Hlen Hf Hv Hok Hfuel.
  assert (Hsteps : ∀ k s s' i f, nsteps k s s' →
    check_loop headEntry (λ _, false) i (k + f) s = check_loop headEntry (λ _, false) (k + i) f s').
  { induction k as [|k IH]; intros s s' i' f; [by intros <-|]. intros (t & Ht & Hn). simpl.
    rewrite Ht. simpl. rewrite (IH _ _ _ _ Hn). f_equal. lia. }
  destruct (remaining lin) as [|j R] eqn:ER.
  { destruct fuel as [|fuel]; [lia|]. exists true. simpl. unfold check_step. simpl.
    rewrite (view_head _ _ Hv), ER. simpl. split; [done|]. split; [constructor|done]. }
  destruct (explore m lin h Init cache [] (remaining lin) []) as (k & s' & Hk & Hst & Hex);
    rewrite ?ER in *; try done.
  assert (Hk' : (k ≤ work m)%nat) by (by apply (work_bound _ _ _ Hk)).
  replace fuel with (k + S (fuel - k - 1))%nat by lia. rewrite (Hsteps _ _ _ _ _ Hst).
  destruct Hex as [[Hdone Hcm]|(cache' & pre' & j' & post' & -> & HRj & Hj & Hh & Hca)].
  - exists true. simpl. rewrite Hdone. simpl. by rewrite ER in Hcm.
  - exists false. split; [|split; [done|]].
    + simpl. unfold check_step. simpl. rewrite (view_head _ _ Hv), ER. simpl.
      assert (j' ∈ remaining lin) as [Hjl _]%in_remaining by (rewrite HRj; set_solver).
      destruct Hv as [_ Hd]. destruct (node_at h j' Hd Hjl) as (nj & ej & Hej & Enj & _ & Hmj & _).
      rewrite Enj. simpl. rewrite Hmj. unfold match_at. rewrite Hej.
      destruct (is_return ej) eqn:Er; [done|]. destruct Hj. by exists ej.
    + intros Hcm. exfalso. eapply dead_intro; [done..|]. by rewrite ER.
Qed.
End history.

(** ** The whole call *)

(** Enough iterations for [n] operations. *)
Definition check_fuel (n : nat) : nat := (2 * n + work n + 2)%nat.

Lemma work_mono m n : (m ≤ n)%nat → (work m ≤ work n)%nat.
Proof. induction 1 as [|n Hn IH]; [done|]. cbn [work]. nia. Qed.

Lemma check_fuel_mono m n : (m ≤ n)%nat → (check_fuel m ≤ check_fuel n)%nat.
Proof. unfold check_fuel. intros H. pose proof (work_mono m n H). lia. Qed.

Lemma makeLinkedEntries_Ok (E : list entry) :
  ∃ h, makeLinkedEntries E = Ok (h, head (seq 0 (base.length E))) ∧
    seg h None (seq 0 (base.length E)) ∧ (∀ j, data h j = node_data 0 E j) ∧ size h = base.length E.
Proof.
  destruct (link_from_spec 0 E) as (h & ms & Eq & Hs & Hd & _ & _). exists h.
  unfold makeLinkedEntries. rewrite Eq. simpl. split_and!; [done..|].
  assert (dom h = set_seq 0 (base.length E)) as Hdom.
  { apply set_eq. intros j. rewrite elem_of_dom, elem_of_set_seq. specialize (Hd j). simpl in Hd.
    unfold data, node_data in Hd. destruct (E !! j) eqn:Ej; simpl in Hd.
    - apply fmap_Some in Hd as (nd & -> & _). apply lookup_lt_Some in Ej. split; [lia|eauto].
    - apply fmap_None in Hd as ->. apply lookup_ge_None in Ej. split; [by intros [? ?]|lia]. }
  rewrite <- size_dom, Hdom, size_set_seq. done.
Qed.

Lemma checkSingle_ok (E : list entry) n h root fuel :
  complete E (Z.of_nat n) → base.length E = (2 * n)%nat →
  (∀ s1 s2, Equal s1 s2 = true → s1 = s2) →
  makeLinkedEntries E = Ok (h, root) → (check_fuel n ≤ fuel)%nat →
  ∃ b, checkSingle fuel (λ _, false) h root = Ok (Some b) ∧
    (b = true ↔ completes E (seq 0 (base.length E)) Init).
Proof.
  intros Hcp HN Heq Hmk Hfuel. unfold check_fuel in Hfuel.
  destruct (makeLinkedEntries_Ok E) as (h1 & Hmk1 & Hs & Hd & Hsz). rewrite Hmk1 in Hmk.
  injection Hmk as <- <-. unfold checkSingle.
  rewrite (length_spec h1 None (seq 0 (base.length E)) fuel Hs) by (rewrite length_seq; lia).
  cbn [mbind outcome_bind]. unfold len. rewrite length_seq.
  replace (Z.of_nat (base.length E) / 2) with (Z.of_nat n) by (rewrite HN, Nat2Z.inj_mul, Z.mul_comm, Z.div_mul; lia).
  rewrite Hsz. set (hd := MkNode None None (u64 (Z.lnot 0)) None None). set (N := base.length E) in *.
  destruct (insertBefore_front (<[N := hd]> h1) N hd (seq 0 N)) as (h' & Ei & Hs' & Hd' & _).
  { eapply seg_frame; [|apply Hs]. intros a Ha%elem_of_seq. rewrite lookup_insert_ne; [done|lia]. }
  { apply NoDup_seq. } { rewrite elem_of_seq. lia. } { apply lookup_insert_eq. }
  { reflexivity. } { reflexivity. }
  rewrite Ei. cbn [mbind outcome_bind].
  set (lin := newBitset (Z.of_nat n)).
  assert (HR : remaining E lin = seq 0 N).
  { unfold remaining. apply filter_all. intros j Hj%elem_of_seq. apply newBitset_bit.
    apply (cp_ids _ _ Hcp). unfold N in Hj. lia. }
  assert (Hh0 : ∀ j, (j < base.length E)%nat → data (<[N:=hd]> h1) j = node_data 0 E j).
  { intros j Hj. rewrite <- Hd. unfold data. rewrite lookup_insert_ne; [done|unfold N; lia]. }
  destruct (check_loop_explore E (<[N:=hd]> h1) N (Z.of_nat n) Hcp Hh0 (le_n _) Heq n lin h' ∅ fuel 0%nat)
    as (b & Hb & Hiff).
  - rewrite HR, length_seq. unfold N. lia.
  - split; [apply newBitset_words|]. apply newBitset_len. lia.
  - split; [by rewrite HR|done].
  - intros ce (k & l & Hl & _). by rewrite lookup_empty in Hl.
  - lia.
  - rewrite HR in *. exists b. by split.
Qed.

(** A search that is told to stop answers [false], or what it would have answered. *)
Lemma check_loop_kill headEntry kills i fuel s b :
  check_loop headEntry (λ _, false) i fuel s = Ok (Some b) →
  ∃ b', check_loop headEntry kills i fuel s = Ok (Some b') ∧ (b' = true → b = true).
Proof.
  revert i s. induction fuel as [|fuel IH]; intros i s; [done|]. simpl.
  destruct (kills i) eqn:Ek.
  - unfold check_step. destruct (get_next _ _) as [[hn|]| |]; simpl; [|by eauto|done..].
    intros _. by exists false.
  - destruct (check_step headEntry false s) as [[s'|b1]| |]; simpl; [by apply IH|by eauto|done..].
Qed.
End check.
