(* ===== verification/LinModel.v ===== *)
(** * Histories and models: [linearizability/model.go] and the entry points of
    [linearizability/linearizability.go].

    A history is a list of operations with their call and return times, or a list of
    call and return events.  [CheckOperations] searches every partition of the history;
    its answer is [true] exactly when every partition is linearizable. *)

From S2P Require Import Prelude LinHeap LinCheck.

Section model.
Context {St In Out : Type}.

Record Operation := MkOperation {
  Input : In;
  Call : Z;
  Output : Out;
  Return : Z;
}.

(** The kind of an event is the side of its value. *)
Record Event := MkEvent {
  EvValue : In + Out;
  EvId : Z;
}.

(** The functions that may be left out are [None]. *)
Record Model := MkModel {
  Partition : option (list Operation → list (list Operation));
  PartitionEvent : option (list Event → list (list Event));
  Init : St;
  Step : St → In → Out → bool * St;
  Equal : option (St → St → bool);
}.

Definition NoPartition (history : list Operation) : list (list Operation) := [history].
Definition NoPartitionEvent (history : list Event) : list (list Event) := [history].
Definition ShallowEqual `{EqDecision St} (state1 state2 : St) : bool := bool_decide (state1 = state2).

Definition fillDefault `{EqDecision St} (model : Model) : Model :=
  MkModel (match Partition model with None => Some NoPartition | p => p end)
    (match PartitionEvent model with None => Some NoPartitionEvent | p => p end)
    (Init model) (Step model)
    (match Equal model with None => Some ShallowEqual | e => e end).

Abbreviation entry := (@entry In Out).

(** ** Entries *)

Definition byTime_Less (a b : entry) : bool := etime a <? etime b.

(** [sort.Sort(byTime(entries))], which is not stable. *)
Variable sort : list entry → list entry.

Fixpoint operation_entries (id : Z) (history : list Operation) : list entry :=
  match history with
  | [] => []
  | elem :: history =>
      MkEntry (inl (Input elem)) id (Call elem) :: MkEntry (inr (Output elem)) id (Return elem)
        :: operation_entries (id + 1) history
  end.

Definition makeEntries (history : list Operation) : list entry :=
  sort (operation_entries 0 history).

(** [m] maps the identifiers seen so far to the new ones, [id] is the next new one. *)
Fixpoint renumber_from (m : gmap Z Z) (id : Z) (events : list Event) : list Event :=
  match events with
  | [] => []
  | v :: events =>
      match m !! EvId v with
      | Some r => MkEvent (EvValue v) r :: renumber_from m id events
      | None => MkEvent (EvValue v) id :: renumber_from (<[EvId v := id]> m) (id + 1) events
      end
  end.
Definition renumber (events : list Event) : list Event := renumber_from ∅ 0 events.

Definition convertEntries (events : list Event) : list entry :=
  (λ elem, MkEntry (EvValue elem) (EvId elem) (-1)) <$> events.

(** ** The entry points *)

(** What the loop of [CheckOperationsTimeout] receives: the result of the search of a
    partition, or the end of the time. *)
Inductive arrival := Result (partition : nat) | TimeUp.
#[export] Instance arrival_eq_dec : EqDecision arrival.
Proof. solve_decision. Defined.

(** Without anything left to arrive, the loop waits for ever. *)
Fixpoint collect (results : list bool) (ok : bool) (count : Z) (arrivals : list arrival) :
    outcome bool :=
  match arrivals with
  | [] => Block
  | Result i :: arrivals =>
      result ← must (results !! i);
      let ok := ok && result in
      if negb ok then Ok false
      else
        let count := count + 1 in
        if len results <=? count then Ok ok else collect results ok count arrivals
  | TimeUp :: _ => Ok ok
  end.

(** One goroutine.  The loop sets [kill] only when it has received its last result, so the
    searches whose results it receives were not told to stop. *)
Definition search_entries (fuel : nat) (model : Model) (entries : list entry) :
    outcome (option bool) :=
  equal ← must (Equal model);
  '(h, l) ← makeLinkedEntries entries;
  checkSingle (Init model) (Step model) equal fuel (λ _, false) h l.

(** The results of all goroutines, and the loop; [None] if [fuel] iterations are not enough
    for one of the searches.  A timer is set only for a positive [timeout]. *)
Definition gather (timeout : Z) (results : outcome (list (option bool))) (arrivals : list arrival) :
    outcome (option bool) :=
  results ← results;
  match mapM (λ r, r) results with
  | None => Ok None
  | Some results =>
      let arrivals := if 0 <? timeout then arrivals
                      else filter (.≠ TimeUp) arrivals in
      b ← collect results true 0 arrivals; Ok (Some b)
  end.

Definition CheckOperationsTimeout `{EqDecision St} (fuel : nat) (model : Model)
    (history : list Operation) (timeout : Z) (arrivals : list arrival) : outcome (option bool) :=
  let model := fillDefault model in
  partition ← must (Partition model);
  gather timeout
    (mapM (λ subhistory, search_entries fuel model (makeEntries subhistory)) (partition history))
    arrivals.

Definition CheckOperations `{EqDecision St} (fuel : nat) (model : Model)
    (history : list Operation) (arrivals : list arrival) : outcome (option bool) :=
  CheckOperationsTimeout fuel model history 0 arrivals.

Definition CheckEventsTimeout `{EqDecision St} (fuel : nat) (model : Model)
    (history : list Event) (timeout : Z) (arrivals : list arrival) : outcome (option bool) :=
  let model := fillDefault model in
  partition ← must (PartitionEvent model);
  gather timeout
    (mapM (λ subhistory, search_entries fuel model (convertEntries (renumber subhistory)))
       (partition history))
    arrivals.

Definition CheckEvents `{EqDecision St} (fuel : nat) (model : Model)
    (history : list Event) (arrivals : list arrival) : outcome (option bool) :=
  CheckEventsTimeout fuel model history 0 arrivals.

(** ** Linearizability *)

(** A run of the model that accepts the operations in this order. *)
Fixpoint legal (step : St → In → Out → bool * St) (s : St) (l : list Operation) : Prop :=
  match l with
  | [] => True
  | o :: l => let '(ok, s') := step s (Input o) (Output o) in ok = true ∧ legal step s' l
  end.

(** No operation comes after one that was called after its return. *)
Definition real_time (l : list Operation) : Prop := StronglySorted (λ a b, ¬ Return b < Call a) l.

Definition linearizable (step : St → In → Out → bool * St) (s : St) (history : list Operation) : Prop :=
  ∃ l, l ≡ₚ history ∧ real_time l ∧ legal step s l.

(** The same, when an operation that returns at the very time of a call counts as before it. *)
Definition tight (l : list Operation) : Prop := StronglySorted (λ a b, ¬ Return b ≤ Call a) l.

Definition linearizable_tight (step : St → In → Out → bool * St) (s : St) (history : list Operation) : Prop :=
  ∃ l, l ≡ₚ history ∧ tight l ∧ legal step s l.

(** Calls before returns. *)
Definition calls_first (history : list Operation) : Prop := ∀ o, o ∈ history → Call o < Return o.

(** And no call at the time of a return. *)
Definition timed (history : list Operation) : Prop :=
  calls_first history ∧ (∀ a b, a ∈ history → b ∈ history → Return a ≠ Call b).

Lemma tight_linearizable step s history :
  linearizable_tight step s history → linearizable step s history.
Proof.
  intros (l & Hp & Hs & Hl). exists l. split; [done|]. split; [|done].
  clear Hl Hp. induction Hs as [|a l _ IH Ha]; constructor; [done|].
  eapply Forall_impl; [exact Ha|]. simpl. lia.
Qed.

(** Without a call at the time of a return there is no difference. *)
Lemma timed_tight step s history :
  timed history → linearizable step s history → linearizable_tight step s history.
Proof.
  intros [_ Hne] (l & Hp & Hs & Hl). exists l. split; [done|]. split; [|done]. clear Hl.
  assert (Hin : ∀ o, o ∈ l → o ∈ history) by (intros o; by rewrite Hp). clear Hp.
  induction Hs as [|a l Hs IH Ha]; constructor; [by apply IH; intros; apply Hin; right|].
  rewrite Forall_forall in Ha |- *. intros b Hb Hle. specialize (Ha b Hb).
  specialize (Hne b a (Hin b ltac:(by right)) (Hin a ltac:(by left))). lia.
Qed.

(** ** The entries of a history *)

Definition ekey (e : entry) : bool * Z := (is_return e, eid e).

Lemma operation_entries_length id l : base.length (operation_entries id l) = (2 * base.length l)%nat.
Proof. revert id. induction l as [|o l IH]; intros id; simpl; [done|]. rewrite IH. lia. Qed.

Lemma operation_entries_elem id l e :
  e ∈ operation_entries id l ↔
  ∃ k o, l !! k = Some o ∧
    (e = MkEntry (inl (Input o)) (id + Z.of_nat k) (Call o) ∨
     e = MkEntry (inr (Output o)) (id + Z.of_nat k) (Return o)).
Proof.
  revert id. induction l as [|o l IH]; intros id; simpl.
  { split; [by intros ?%elem_of_nil|]. intros (k & o & Hk & _). by rewrite lookup_nil in Hk. }
  rewrite !elem_of_cons, IH. split.
  - intros [->|[->|(k & o' & Hk & He)]]; [exists 0%nat, o; rewrite Z.add_0_r; auto..|].
    exists (S k), o'. replace (id + Z.of_nat (S k)) with (id + 1 + Z.of_nat k) by lia. auto.
  - intros ([|k] & o' & Hk & He); simpl in Hk.
    + injection Hk as ->. rewrite Z.add_0_r in He. naive_solver.
    + right. right. exists k, o'. replace (id + 1 + Z.of_nat k) with (id + Z.of_nat (S k)) by lia. auto.
Qed.

Lemma operation_entries_NoDup id l : NoDup (ekey <$> operation_entries id l).
Proof.
  revert id. induction l as [|o l IH]; intros id; simpl; [constructor|].
  assert (Hlow : ∀ b, (b, id) ∉ ekey <$> operation_entries (id + 1) l).
  { intros b (e & He & Hin)%list_elem_of_fmap.
    apply operation_entries_elem in Hin as (k & o' & _ & [-> | ->]); unfold ekey in He; simpl in He;
      injection He as _ He; lia. }
  apply NoDup_cons. split; [|apply NoDup_cons; split; [apply Hlow|apply IH]].
  rewrite elem_of_cons. intros [?|Hin]; [done|]. by apply Hlow in Hin.
Qed.

Section sorted.
Variables (history : list Operation) (E : list entry).
Hypothesis HE : E ≡ₚ operation_entries 0 history.
Hypothesis Hsort : StronglySorted (λ a b, byTime_Less b a = false) E.
Hypothesis Hfirst : calls_first history.

Lemma entry_unique i j e f :
  E !! i = Some e → E !! j = Some f → ekey e = ekey f → i = j.
Proof.
  intros Hi Hj Hk. assert (NoDup (ekey <$> E)) as Hnd by (rewrite HE; apply operation_entries_NoDup).
  apply (proj1 (NoDup_alt _) Hnd i j (ekey e)); rewrite list_lookup_fmap; [by rewrite Hi|].
  by rewrite Hj, Hk.
Qed.

Lemma entry_time i j e f : E !! i = Some e → E !! j = Some f → (i < j)%nat → etime e ≤ etime f.
Proof.
  intros Hi Hj Hlt. rewrite <- (take_drop_middle E i e Hi) in Hsort.
  assert (f ∈ drop (S i) E) as Hin.
  { apply list_elem_of_lookup. exists (j - S i)%nat. rewrite lookup_drop. rewrite <- Hj. f_equal. lia. }
  apply StronglySorted_app_1_r in Hsort as Hs. apply StronglySorted_inv in Hs as [_ Hall].
  rewrite Forall_forall in Hall. specialize (Hall f Hin). unfold byTime_Less in Hall. go_bools. lia.
Qed.

(** The operation of an entry, and its two positions. *)
Lemma entry_op j e :
  E !! j = Some e →
  ∃ k o c r, history !! k = Some o ∧ eid e = Z.of_nat k ∧ (c < r)%nat ∧
    E !! c = Some (MkEntry (inl (Input o)) (eid e) (Call o)) ∧
    E !! r = Some (MkEntry (inr (Output o)) (eid e) (Return o)) ∧
    j = (if is_return e then r else c).
Proof.
  intros Hj. assert (e ∈ E) as Hin by (by eapply list_elem_of_lookup_2).
  rewrite HE in Hin. apply operation_entries_elem in Hin as (k & o & Hk & He).
  assert (Hid : eid e = Z.of_nat k) by (by destruct He as [-> | ->]).
  assert (Hel : ∀ e', (e' = MkEntry (inl (Input o)) (eid e) (Call o) ∨
                       e' = MkEntry (inr (Output o)) (eid e) (Return o)) → ∃ i, E !! i = Some e').
  { intros e' He'. apply list_elem_of_lookup. rewrite HE. apply operation_entries_elem.
    exists k, o. split; [done|]. by rewrite Z.add_0_l, <- Hid. }
  destruct (Hel _ (or_introl eq_refl)) as [c Hc]. destruct (Hel _ (or_intror eq_refl)) as [r Hr].
  exists k, o, c, r. split_and!; try done.
  - assert (Call o < Return o) by (apply Hfirst; by eapply list_elem_of_lookup_2).
    destruct (decide (r < c)%nat) as [Hrc|Hnrc].
    + pose proof (entry_time r c _ _ Hr Hc Hrc) as Ht. simpl in Ht. lia.
    + destruct (decide (c = r)) as [->|]; [congruence|lia].
  - destruct (is_return e) eqn:Er.
    + apply (entry_unique _ _ _ _ Hj Hr). unfold ekey. simpl. by rewrite Er.
    + apply (entry_unique _ _ _ _ Hj Hc). unfold ekey. simpl. by rewrite Er.
Qed.

Lemma find_return_is_Some id (F : list entry) k f :
  F !! k = Some f → is_return f = true → eid f = id → is_Some (find_return id F).
Proof.
  intros Hk Hr Hid. revert k Hk. induction F as [|g F IH]; intros [|k] Hk; simpl in *; try done.
  - injection Hk as ->. by rewrite Hr, Hid, Z.eqb_refl.
  - case_match; [done|]. destruct (IH k Hk) as [x ->]. simpl. eauto.
Qed.

(** The operation called at [c]. *)
Definition op_at (c : nat) : option Operation :=
  e ← E !! c; if is_return e then None else history !! Z.to_nat (eid e).

Lemma match_at_return c r e f :
  E !! c = Some e → is_return e = false → E !! r = Some f → is_return f = true →
  eid f = eid e → (c < r)%nat → match_at E c = Some r.
Proof.
  intros Hc He Hr Hf Hid Hlt. destruct (match_at E c) as [r'|] eqn:Em.
  - pose proof (match_at_spec _ _ _ Em) as (_ & Hlt' & Hnc & Hid'). f_equal.
    destruct (lookup_lt_is_Some_2 E r') as [g Hg]; [lia|]. apply (entry_unique _ _ g f Hg Hr).
    unfold eid_at in Hid'. rewrite Hg, Hc in Hid'. unfold ekey. rewrite Hf, Hid, <- Hid'.
    destruct (is_return g) eqn:Eg; [done|]. destruct Hnc. by exists g.
  - unfold match_at in Em. rewrite Hc, He in Em. apply fmap_None in Em.
    destruct (find_return_is_Some (eid e) (drop (S c) E) (r - S c) f) as [x Hx]; [|done..|congruence].
    rewrite lookup_drop. rewrite <- Hr. f_equal. lia.
Qed.

Lemma op_at_spec c o :
  op_at c = Some o → ∃ r id, match_at E c = Some r ∧
    E !! c = Some (MkEntry (inl (Input o)) id (Call o)) ∧
    E !! r = Some (MkEntry (inr (Output o)) id (Return o)).
Proof.
  unfold op_at. intros (e & He & Ho)%bind_Some. destruct (is_return e) eqn:Er; [done|].
  destruct (entry_op c e He) as (k & o' & c' & r & Hk & Hid & Hlt & Hc & Hr & Hj). rewrite Er in Hj. subst c'.
  rewrite Hid, Nat2Z.id, Hk in Ho. injection Ho as ->. exists r, (eid e). split_and!; try done.
  by apply (match_at_return c r _ _ Hc eq_refl Hr).
Qed.

Lemma op_at_call c : call_at E c → is_Some (op_at c).
Proof.
  intros (e & He & Hr). destruct (entry_op c e He) as (k & o & _ & _ & Hk & Hid & _).
  unfold op_at. rewrite He. simpl. rewrite Hr, Hid, Nat2Z.id, Hk. eauto.
Qed.

Lemma op_at_return r : ¬ call_at E r → op_at r = None.
Proof.
  intros Hr. unfold op_at. destruct (E !! r) as [e|] eqn:Ee; [|done]. simpl.
  destruct (is_return e) eqn:Er; [done|]. destruct Hr. by exists e.
Qed.

Lemma entries_complete : complete E (len history).
Proof.
  split.
  - intros c (o & Ho)%op_at_call. apply op_at_spec in Ho as (r & _ & Hm & _). eauto.
  - intros c r j Hm Hj Hid. pose proof (match_at_spec _ _ _ Hm) as ((ec & Hc & Hec) & Hr & Hnr & Hid').
    destruct (lookup_lt_is_Some_2 E j) as [e He]; [done|].
    destruct (lookup_lt_is_Some_2 E r) as [er Her]; [lia|].
    unfold eid_at in *. rewrite He, Hc in *. rewrite Her in Hid'. destruct (is_return e) eqn:Ee.
    + right. apply (entry_unique _ _ _ _ He Her). unfold ekey. rewrite Ee, Hid, Hid'.
      destruct (is_return er) eqn:Er; [done|]. destruct Hnr. by exists er.
    + left. apply (entry_unique _ _ _ _ He Hc). unfold ekey. by rewrite Ee, Hec, Hid.
  - intros r Hr Hnc. destruct (lookup_lt_is_Some_2 E r) as [e He]; [done|].
    destruct (entry_op r e He) as (k & o & c & r' & Hk & Hid & Hlt & Hc & Hr' & Hj).
    destruct (is_return e) eqn:Er; [|destruct Hnc; by exists e]. subst r'.
    exists c. by apply (match_at_return c r _ _ Hc eq_refl Hr').
  - intros j Hj. destruct (lookup_lt_is_Some_2 E j) as [e He]; [done|].
    destruct (entry_op j e He) as (k & o & _ & _ & Hk & Hid & _). unfold eid_at. rewrite He, Hid.
    apply lookup_lt_Some in Hk. unfold len. lia.
Qed.

Lemma op_step_iff (step : St → In → Out → bool * St) c r o s s' :
  op_at c = Some o → match_at E c = Some r →
  op_step step E c r s = Some s' ↔ step s (Input o) (Output o) = (true, s').
Proof.
  intros (r' & id & Hm & Hc & Hr)%op_at_spec Hm'. assert (r' = r) as -> by congruence.
  unfold op_step. rewrite Hc, Hr. destruct (step _ _ _) as [[] s'']; naive_solver.
Qed.

(** Entries that are left over when some operations are taken out. *)
Record rest_ok (R : list nat) : Prop := {
  ro_sorted : StronglySorted lt R;
  ro_in : ∀ j, j ∈ R → (j < base.length E)%nat;
  ro_both : ∀ c r, match_at E c = Some r → c ∈ R ↔ r ∈ R;
}.

Lemma lt_before (l1 : list nat) x l2 y : StronglySorted lt (l1 ++ x :: l2) → y ∈ l1 → (y < x)%nat.
Proof. intros Hs Hy. apply (StronglySorted_app_1_elem_of lt l1 (x :: l2)); [done|done|by left]. Qed.

Lemma lt_after (l1 : list nat) x l2 y : StronglySorted lt (l1 ++ x :: l2) → y ∈ l2 → (x < y)%nat.
Proof.
  intros Hs%StronglySorted_app_1_r Hy. apply StronglySorted_inv in Hs as [_ Hs].
  rewrite Forall_forall in Hs. by apply Hs.
Qed.

Lemma match_at_inj c c' r : match_at E c = Some r → match_at E c' = Some r → c = c'.
Proof.
  intros Hm Hm'. pose proof (match_at_spec _ _ _ Hm) as (Hc & Hr & _ & Hid).
  pose proof (match_at_spec _ _ _ Hm') as (_ & Hr' & _ & Hid').
  destruct (cp_same _ _ entries_complete c' r c) as [|]; [done|lia|congruence|done|lia].
Qed.

Lemma rest_remove pre c mid r post :
  rest_ok (pre ++ c :: mid ++ r :: post) → match_at E c = Some r → rest_ok (pre ++ mid ++ post).
Proof.
  intros [Hs Hin Hb] Hm. pose proof (match_at_spec _ _ _ Hm) as (Hc & Hr & Hnr & _).
  assert (Hk : ∀ j, j ∈ pre ++ mid ++ post ↔ j ∈ pre ++ c :: mid ++ r :: post ∧ j ≠ c ∧ j ≠ r).
  { intros j. split.
    - intros Hj. split; [set_solver|].
      assert (StronglySorted lt ((pre ++ c :: mid) ++ r :: post)) as Hs2 by (by rewrite <- app_assoc).
      apply elem_of_app in Hj as [Hj|[Hj|Hj]%elem_of_app].
      + pose proof (lt_before _ _ _ _ Hs Hj). lia.
      + pose proof (lt_after _ _ _ j Hs ltac:(set_solver)).
        pose proof (lt_before _ _ _ j Hs2 ltac:(set_solver)). lia.
      + pose proof (lt_after _ _ _ j Hs ltac:(set_solver)).
        pose proof (lt_after _ _ _ j Hs2 ltac:(set_solver)). lia.
    - set_solver. }
  split.
  - apply StronglySorted_app in Hs as (Hx & Hs1 & Hs2). apply StronglySorted_inv in Hs2 as [Hs2 _].
    apply StronglySorted_app in Hs2 as (Hx2 & Hs2 & Hs3). apply StronglySorted_inv in Hs3 as [Hs3 _].
    apply StronglySorted_app. split_and!; [|done|apply StronglySorted_app; split_and!; try done].
    + intros a b Ha Hb'. apply Hx; [done|]. set_solver.
    + intros a b Ha Hb'. apply Hx2; [done|]. set_solver.
  - intros j [Hj _]%Hk. by apply Hin.
  - intros c' r' Hm'. rewrite !Hk, (Hb c' r' Hm'). pose proof (match_at_spec _ _ _ Hm') as (Hc' & Hr' & Hnr' & _).
    split; intros (? & H1 & H2); split_and!; try done; intros ->; try done.
    + by apply H1, (match_at_inj c' c r).
    + congruence.
Qed.

Definition ops (R : list nat) : list Operation := omap op_at R.

Lemma ops_remove pre c mid r post o :
  op_at c = Some o → match_at E c = Some r →
  ops (pre ++ c :: mid ++ r :: post) = ops pre ++ o :: ops mid ++ ops post.
Proof.
  intros Ho Hm. pose proof (match_at_spec _ _ _ Hm) as (_ & _ & Hnr & _). unfold ops.
  rewrite omap_app. simpl. rewrite Ho, omap_app. simpl. by rewrite (op_at_return r Hnr).
Qed.

Lemma completes_linearizable (step : St → In → Out → bool * St) R s :
  rest_ok R → completes step E R s → linearizable step s (ops R).
Proof.
  intros HR Hcm. induction Hcm as [s|pre c mid r post s s' Hpre Hm Hop Hcm IH].
  { exists []. split; [done|]. split; [constructor|done]. }
  destruct (IH (rest_remove _ _ _ _ _ HR Hm)) as (l & Hp & Hrt & Hl). clear IH.
  pose proof (match_at_spec _ _ _ Hm) as (Hc & _). destruct (op_at_call c Hc) as [o Ho].
  exists (o :: l). split_and!.
  - rewrite Hp, (ops_remove pre c mid r post o Ho Hm). unfold ops. rewrite !omap_app.
    by rewrite <- Permutation_middle.
  - constructor; [done|]. apply Forall_forall. intros b Hb. rewrite Hp in Hb.
    apply list_elem_of_omap in Hb as (c' & Hc' & Hob).
    destruct (op_at_spec c' b Hob) as (r' & id' & Hm' & _ & Her).
    destruct (op_at_spec c o Ho) as (_ & id & _ & Hec & _).
    pose proof (match_at_spec _ _ _ Hm') as (_ & _ & Hnr' & _).
    assert (r' ∈ pre ++ c :: mid ++ r :: post) as Hin.
    { apply (ro_both _ HR c' r' Hm'). set_solver. }
    assert (c < r')%nat as Hlt.
    { apply elem_of_app in Hin as [Hin|[->|Hin]%elem_of_cons]; [|done|].
      - rewrite Forall_forall in Hpre. by apply Hpre in Hin.
      - by apply (lt_after pre c (mid ++ r :: post)); [apply HR|]. }
    pose proof (entry_time c r' _ _ Hec Her Hlt) as Ht. simpl in Ht. lia.
  - apply (op_step_iff step c r o) in Hop; [|done|done]. simpl. by rewrite Hop.
Qed.

Lemma linearizable_completes (step : St → In → Out → bool * St) l R s :
  rest_ok R → l ≡ₚ ops R → tight l → legal step s l → completes step E R s.
Proof.
  revert R s. induction l as [|o l IH]; intros R s HR Hp Hrt Hl.
  { destruct R as [|j R]; [constructor|exfalso]. apply Permutation_nil_l in Hp.
    assert (∃ c, c ∈ j :: R ∧ call_at E c) as (c & Hc & Hca).
    { destruct (call_at_dec E j) as [Hj|Hj]; [exists j; split; [by left|done]|].
      destruct (cp_call _ _ entries_complete j) as [c Hm]; [apply HR; by left|done|].
      exists c. split; [apply (ro_both _ HR c j Hm); by left|by apply (match_at_spec _ _ _ Hm)]. }
    destruct (op_at_call c Hca) as [o Ho].
    assert (o ∈ ops (j :: R)) as Hin by (apply list_elem_of_omap; eauto). rewrite <- Hp in Hin.
    by apply elem_of_nil in Hin. }
  assert (o ∈ ops R) as (c & Hc & Ho)%list_elem_of_omap by (rewrite <- Hp; by left).
  destruct (op_at_spec c o Ho) as (r & id & Hm & Hec & _).
  pose proof (match_at_spec _ _ _ Hm) as (Hca & Hr & Hnr & _).
  assert (r ∈ R) as Hrin by (by apply (ro_both _ HR c r Hm)).
  apply list_elem_of_split in Hc as (pre & post0 & ->).
  assert (r ∈ post0) as (mid & post & ->)%list_elem_of_split.
  { apply elem_of_app in Hrin as [Hin|[->|Hin]%elem_of_cons]; [|lia|done].
    pose proof (lt_before _ _ _ _ (ro_sorted _ HR) Hin). lia. }
  apply StronglySorted_inv in Hrt as [Hrt Hall]. rewrite Forall_forall in Hall.
  simpl in Hl. destruct (step s (Input o) (Output o)) as [ok s'] eqn:Es. destruct Hl as [-> Hl].
  assert (Hp' : l ≡ₚ ops (pre ++ mid ++ post)).
  { rewrite (ops_remove pre c mid r post o Ho Hm), <- Permutation_middle in Hp.
    apply Permutation.Permutation_cons_inv in Hp. unfold ops. by rewrite !omap_app. }
  apply (completes_op step E pre c mid r post s s'); [|done|by apply (op_step_iff step c r o)|].
  2: { by apply IH; [by eapply rest_remove|..]. }
  apply Forall_forall. intros j Hj. destruct (call_at_dec E j) as [|Hnj]; [done|exfalso].
  pose proof (lt_before _ _ _ _ (ro_sorted _ HR) Hj) as Hjc.
  destruct (cp_call _ _ entries_complete j) as [c' Hm']; [lia|done|].
  pose proof (match_at_spec _ _ _ Hm') as (Hca' & Hlt & _). destruct (op_at_call c' Hca') as [b Hb].
  destruct (op_at_spec c' b Hb) as (j' & id' & Hm'' & Hec' & Hej). assert (j' = j) as -> by congruence.
  assert (c' ≠ c) by (intros ->; assert (r = j) by congruence; lia).
  assert (c' ∈ pre ++ mid ++ post) as Hin.
  { assert (c' ∈ pre ++ c :: mid ++ r :: post) by (apply (ro_both _ HR c' j Hm'); set_solver).
    assert (c' ≠ r) by (by intros ->). set_solver. }
  assert (b ∈ l) as Hbl by (rewrite Hp'; apply list_elem_of_omap; eauto).
  pose proof (entry_time j c _ _ Hej Hec Hjc) as Ht. simpl in Ht.
  apply (Hall b Hbl). lia.
Qed.

Lemma rest_all : rest_ok (seq 0 (base.length E)).
Proof.
  split.
  - generalize 0%nat, (base.length E). intros a n. revert a. induction n as [|n IH]; intros a; simpl; [constructor|].
    constructor; [apply IH|]. apply Forall_forall. intros j Hj%elem_of_seq. lia.
  - intros j Hj%elem_of_seq. lia.
  - intros c r Hm. pose proof (match_at_spec _ _ _ Hm) as (_ & Hr & _). rewrite !elem_of_seq. lia.
Qed.

Lemma omap_seq_lookup {A B} (g : A → option B) (pre l : list A) :
  omap (λ c, (pre ++ l) !! c ≫= g) (seq (base.length pre) (base.length l)) = omap g l.
Proof.
  revert pre. induction l as [|x l IH]; intros pre; simpl; [done|].
  rewrite list_lookup_middle by done. simpl.
  specialize (IH (pre ++ [x])). rewrite length_app, Nat.add_1_r in IH. rewrite <- app_assoc in IH.
  simpl in IH. destruct (g x); [f_equal|]; exact IH.
Qed.

Lemma ops_all : ops (seq 0 (base.length E)) ≡ₚ history.
Proof.
  set (g := λ e : entry, if is_return e then None else history !! Z.to_nat (eid e)).
  change (omap (λ c, ([] ++ E) !! c ≫= g) (seq (base.length (@nil entry)) (base.length E)) ≡ₚ history).
  rewrite omap_seq_lookup, HE.
  assert (∀ k l, drop k history = l → omap g (operation_entries (Z.of_nat k) l) = l) as H;
    [|by rewrite (H 0%nat history eq_refl : omap g (operation_entries 0 history) = history)].
  intros k l. revert k. induction l as [|o l IH]; intros k Hk; [done|]. simpl. unfold g at 1. simpl.
  rewrite Nat2Z.id. assert (history !! k = Some o) as ->.
  { rewrite <- (Nat.add_0_r k), <- lookup_drop, Hk. done. }
  f_equal. replace (Z.of_nat k + 1) with (Z.of_nat (S k)) by lia. apply IH.
  replace (S k) with (k + 1)%nat by lia. by rewrite <- drop_drop, Hk.
Qed.
End sorted.

(** ** Correctness *)

(** What the code relies on of [sort.Sort]. *)
Definition sorts : Prop := ∀ l, sort l ≡ₚ l ∧ StronglySorted (λ a b, byTime_Less b a = false) (sort l).

(** What a search answers: [true] only if there is a linearization, and [true] if there is one that
    respects the ties as well. *)
Definition answers_lin (step : St → In → Out → bool * St) init history (b : bool) : Prop :=
  (b = true → linearizable step init history) ∧ (linearizable_tight step init history → b = true).

Lemma answers_timed step init history b :
  timed history → answers_lin step init history b → (b = true ↔ linearizable step init history).
Proof. intros Ht [H1 H2]. split; [done|]. intros H. by apply H2, timed_tight. Qed.

Lemma search_ok init step (equal : St → St → bool) history fuel :
  sorts → (∀ s1 s2, equal s1 s2 = true → s1 = s2) → calls_first history →
  (check_fuel (base.length history) ≤ fuel)%nat →
  ∃ h root b, makeLinkedEntries (makeEntries history) = Ok (h, root) ∧
    checkSingle init step equal fuel (λ _, false) h root = Ok (Some b) ∧
    answers_lin step init history b.
Proof.
  intros Hsorts Heq Hfirst Hfuel. destruct (Hsorts (operation_entries 0 history)) as [HE Hs].
  fold (makeEntries history) in HE, Hs.
  assert (HN : base.length (makeEntries history) = (2 * base.length history)%nat)
    by (by rewrite HE, operation_entries_length).
  destruct (makeLinkedEntries_Ok (makeEntries history)) as (h & Hmk & _).
  destruct (checkSingle_ok init step equal (makeEntries history) (base.length history) h
    (head (seq 0 (base.length (makeEntries history)))) fuel) as (b & Hb & Hiff); [|done..|].
  { by apply (entries_complete history). }
  exists h, (head (seq 0 (base.length (makeEntries history)))), b. split_and!; [done..|].
  unfold answers_lin. rewrite Hiff. pose proof (rest_all (makeEntries history)) as Hall.
  pose proof (ops_all history (makeEntries history) HE) as Hops. split.
  - intros Hc. destruct (completes_linearizable history (makeEntries history) HE Hs Hfirst step _ _ Hall Hc)
      as (l & Hp & Hl). exists l. split; [by rewrite Hp, Hops|done].
  - intros (l & Hp & Hrt & Hl).
    apply (linearizable_completes history (makeEntries history) HE Hs Hfirst step l); try done.
    by rewrite Hp, Hops.
Qed.

(** C11. [checkSingle] on the entries of any history whose calls come before their returns, with
    a model whose [Equal] holds of equal states only.  It terminates.  If it answers [true], the
    operations can be put in an order that the model accepts and in which no operation comes
    before one that had returned when it was called; if there is such an order that also puts an
    operation that returns at the very time of a call before the called one, it answers [true].
    So it decides linearizability when no operation returns at the time of a call; at a tie
    [sort.Sort] decides which comes first.  Told to stop while it searches, it never answers
    [true] wrongly. *)
Theorem checkSingle_correct init step (equal : St → St → bool) history fuel :
  sorts → (∀ s1 s2, equal s1 s2 = true → s1 = s2) → calls_first history →
  (check_fuel (base.length history) ≤ fuel)%nat →
  ∃ h root b, makeLinkedEntries (makeEntries history) = Ok (h, root) ∧
    checkSingle init step equal fuel (λ _, false) h root = Ok (Some b) ∧
    (b = true → linearizable step init history) ∧
    (linearizable_tight step init history → b = true) ∧
    (timed history → (b = true ↔ linearizable step init history)) ∧
    ∀ kills, ∃ b', checkSingle init step equal fuel kills h root = Ok (Some b') ∧
      (b' = true → linearizable step init history).
Proof.
  intros Hs He Ht Hf. destruct (search_ok init step equal history fuel) as (h & root & b & Hmk & Hc & Hb);
    [done..|]. exists h, root, b. split_and!; [done|done|apply Hb..| |].
  { intros. by apply answers_timed. }
  intros kills. unfold checkSingle in *.
  destruct (length fuel h root) as [[n|]| |]; simpl in *; [|done..].
  destruct (insertBefore _ _ _) as [h'| |]; simpl in *; [|done..].
  apply (check_loop_kill _ _ _ kills) in Hc as (b' & Hb' & Himp). exists b'. split; [done|].
  intros H. by apply Hb, Himp.
Qed.

(** The answers of the partitions, one by one. *)
Lemma collect_all results k arrivals :
  arrivals ≡ₚ Result <$> k → (∀ i, i ∈ k → (i < base.length results)%nat) → k ≠ [] →
  ∀ count, 0 ≤ count → count + len k = len results →
  ∃ b, collect results true count arrivals = Ok b ∧
    (b = true ↔ ∀ i, i ∈ k → results !! i = Some true).
Proof.
  intros Hp. revert k Hp. induction arrivals as [|a arrivals IH]; intros k Hp Hk Hne count Hc Hlen.
  { symmetry in Hp. apply Permutation_nil_r, fmap_nil_inv in Hp. done. }
  assert (a ∈ Result <$> k) as (i & -> & Hi)%list_elem_of_fmap by (rewrite <- Hp; by left).
  apply list_elem_of_split in Hi as (k1 & k2 & ->).
  rewrite fmap_app in Hp. simpl in Hp. rewrite <- Permutation_middle in Hp.
  apply Permutation.Permutation_cons_inv in Hp. rewrite <- fmap_app in Hp.
  destruct (lookup_lt_is_Some_2 results i) as [r Hr]; [apply Hk; set_solver|]. simpl. rewrite Hr. simpl.
  destruct r; simpl.
  2: { exists false. split; [done|]. split; [done|]. intros Hall.
       specialize (Hall i ltac:(set_solver)). congruence. }
  rewrite len_app, len_cons in Hlen. destruct (Z.leb_spec (len results) (count + 1)).
  - exists true. split; [done|]. split; [|done]. intros _ j Hj.
    assert (len k1 = 0 ∧ len k2 = 0) as [E1 E2] by (pose proof (len_nonneg k1); pose proof (len_nonneg k2); lia).
    destruct k1, k2; rewrite ?len_cons in *; try (pose proof (len_nonneg k1)); try (pose proof (len_nonneg k2)); try lia.
    by apply list_elem_of_singleton in Hj as ->.
  - destruct (IH (k1 ++ k2) Hp) with (count := count + 1) as (b & Hb & Hiff).
    + intros j Hj. apply Hk. set_solver.
    + intros [-> ->]%app_nil. rewrite len_nil in *. lia.
    + lia.
    + rewrite len_app. lia.
    + exists b. split; [done|]. rewrite Hiff. split; intros Hall j Hj; [|apply Hall; set_solver].
      destruct (decide (j = i)) as [->|]; [done|]. apply Hall. set_solver.
Qed.

Lemma collect_false results arrivals count :
  collect results true count arrivals = Ok false → ∃ i, results !! i = Some false.
Proof.
  revert count. induction arrivals as [|[i|] arrivals IH]; intros count; simpl; [done| |done].
  destruct (results !! i) as [[]|] eqn:Er; simpl; [|by eauto|done]. case_match; [done|]. apply IH.
Qed.

(** What can arrive at a loop over [n] searches: the results of all of them, in some order, or of some
    of them before the time is up. *)
Definition can_arrive (n : nat) (timeout : Z) (arrivals : list arrival) : Prop :=
  ∃ k, (∀ i, i ∈ k → (i < n)%nat) ∧
    (arrivals = Result <$> k ∧ k ≡ₚ seq 0 n ∨ 0 < timeout ∧ arrivals = (Result <$> k) ++ [TimeUp]).

(** The loop does not answer [false] unless a result is. *)
Lemma collect_true (results : list bool) k tl count :
  Forall (.= true) results → (∀ i, i ∈ k → (i < base.length results)%nat) →
  tl = [TimeUp] ∨ (count + len k = len results ∧ k ≠ []) →
  collect results true count ((Result <$> k) ++ tl) = Ok true.
Proof.
  intros Hall. revert count. induction k as [|i k IH]; intros count Hk Htl; simpl.
  { destruct Htl as [->|[_ ?]]; done. }
  destruct (lookup_lt_is_Some_2 results i) as [r Hr]; [apply Hk; by left|]. rewrite Hr. simpl.
  assert (r = true) as -> by exact (Forall_lookup_1 _ _ _ _ Hall Hr). simpl.
  destruct (Z.leb_spec (len results) (count + 1)); [done|].
  apply IH; [intros; apply Hk; by right|]. destruct Htl as [?|[E _]]; [by left|right].
  rewrite len_cons in E. split; [lia|]. intros ->. rewrite len_nil in E. lia.
Qed.

Lemma gather_true (bs : list bool) timeout arrivals :
  Forall (.= true) bs → bs ≠ [] → can_arrive (base.length bs) timeout arrivals →
  gather timeout (Ok (Some <$> bs)) arrivals = Ok (Some true).
Proof.
  intros Hall Hne (k & Hk & Hin). unfold gather. cbn [mbind outcome_bind].
  assert (mapM (λ r : option bool, r) (Some <$> bs) = Some bs) as ->
    by by apply mapM_Some_2, Forall2_fmap_l, Forall_Forall2_diag, Forall_true.
  assert ((if 0 <? timeout then arrivals else filter (.≠ TimeUp) arrivals) = arrivals) as ->.
  { destruct (Z.ltb_spec 0 timeout); [done|]. apply filter_all.
    destruct Hin as [[-> _]|[? _]]; [|lia]. by intros a (i & -> & _)%list_elem_of_fmap. }
  destruct Hin as [[-> Hp]|[_ ->]]; [rewrite <- (app_nil_r (Result <$> k))|];
    rewrite collect_true; try done; [|by left]. right.
  assert (len k = len bs) as -> by (unfold len; by rewrite Hp, length_seq). split; [lia|].
  intros ->. symmetry in Hp. apply Permutation_nil_r in Hp. by destruct bs.
Qed.

(** Searches that all come to an end. *)
Lemma searches_ok {A} (f : A → outcome (option bool)) (P : A → Prop) (l : list A) :
  (∀ x, x ∈ l → ∃ b, f x = Ok (Some b) ∧ (b = true ↔ P x)) →
  ∃ bs, mapM f l = Ok (Some <$> bs) ∧ Forall2 (λ x b, b = true ↔ P x) l bs.
Proof.
  induction l as [|x l IH]; intros H; [by exists []|].
  destruct (H x) as (b & Hb & Hiff); [by left|]. destruct IH as (bs & Hbs & Hf); [intros; apply H; by right|].
  exists (b :: bs). simpl. rewrite Hb. simpl. rewrite Hbs. simpl. split; [done|by constructor].
Qed.

Lemma mapM_some {A} (l : list A) : mapM (λ r : option A, r) (Some <$> l) = Some l.
Proof. by apply mapM_Some_2, Forall2_fmap_l, Forall_Forall2_diag, Forall_true. Qed.

(** The loop, once the searches have their results [bs]. *)
Lemma gather_ok {A} (P : A → Prop) (ps : list A) (bs : list bool) timeout arrivals :
  Forall2 (λ x b, b = true ↔ P x) ps bs →
  (gather timeout (Ok (Some <$> bs)) arrivals = Ok (Some false) → ¬ Forall P ps) ∧
  (arrivals ≡ₚ Result <$> seq 0 (base.length ps) → ps ≠ [] →
   ∃ b, gather timeout (Ok (Some <$> bs)) arrivals = Ok (Some b) ∧ (b = true ↔ Forall P ps)).
Proof.
  intros Hf. unfold gather. cbn [mbind outcome_bind]. rewrite mapM_some.
  pose proof (Forall2_length _ _ _ Hf) as Hl. split.
  - intros Hg Hall. apply bind_Ok in Hg as (b & Hg & Eb). injection Eb as ->.
    apply collect_false in Hg as (i & Hi).
    destruct (Forall2_lookup_r _ _ _ _ _ Hf Hi) as (x & Hx & Hiff). rewrite Forall_lookup in Hall.
    naive_solver.
  - intros Hp Hne.
    assert ((if 0 <? timeout then arrivals else filter (.≠ TimeUp) arrivals) = arrivals) as ->.
    { destruct (0 <? timeout); [done|]. apply filter_all. intros a Ha. rewrite Hp in Ha.
      by apply list_elem_of_fmap in Ha as (i & -> & _). }
    destruct (collect_all bs (seq 0 (base.length ps)) arrivals Hp) with (count := 0) as (b & Hb & Hiff).
    + intros i Hi%elem_of_seq. lia.
    + by destruct ps.
    + lia.
    + unfold len. rewrite length_seq. lia.
    + rewrite Hb. exists b. split; [done|]. rewrite Hiff, Forall_lookup. split.
      * intros Hall i x Hx. destruct (Forall2_lookup_l _ _ _ _ _ Hf Hx) as (b' & Hb' & Hiff').
        apply Hiff'. assert (bs !! i = Some true) by (apply Hall, elem_of_seq; apply lookup_lt_Some in Hx; lia).
        congruence.
      * intros Hall i Hi%elem_of_seq. destruct (lookup_lt_is_Some_2 bs i) as [b' Hb']; [lia|].
        destruct (Forall2_lookup_r _ _ _ _ _ Hf Hb') as (x & Hx & Hiff'). rewrite Hb'. f_equal.
        by apply Hiff', (Hall i).
Qed.

Definition partitions (model : Model) (history : list Operation) : list (list Operation) :=
  match Partition model with Some f => f history | None => NoPartition history end.

Lemma check_searches `{EqDecision St} (model : Model) history fuel :
  sorts → (∀ equal, Equal model = Some equal → ∀ s1 s2, equal s1 s2 = true → s1 = s2) →
  (∀ p, p ∈ partitions model history → timed p ∧ (check_fuel (base.length p) ≤ fuel)%nat) →
  ∃ bs, (∀ timeout arrivals, CheckOperationsTimeout fuel model history timeout arrivals =
           gather timeout (Ok (Some <$> bs)) arrivals) ∧
    Forall2 (λ p b, b = true ↔ linearizable (Step model) (Init model) p) (partitions model history) bs.
Proof.
  intros Hs Heq Hps.
  destruct (searches_ok
    (λ subhistory, search_entries fuel (fillDefault model) (makeEntries subhistory))
    (linearizable (Step model) (Init model)) (partitions model history)) as (bs & Hbs & Hf).
  - intros p Hp. destruct (Hps p Hp) as [Ht Hfu].
    assert (∃ equal, Equal (fillDefault model) = Some equal ∧ ∀ s1 s2, equal s1 s2 = true → s1 = s2)
      as (equal & He & Hse).
    { simpl. destruct (Equal model) as [equal|] eqn:Ee; [exists equal; split; [done|by apply Heq]|].
      exists ShallowEqual. split; [done|]. intros s1 s2 H. by apply bool_decide_eq_true_1 in H. }
    destruct (search_ok (Init model) (Step model) equal p fuel) as (h & root & b & Hmk & Hc & Hiff);
      [done..|apply Ht|done|].
    exists b. split; [|by apply answers_timed]. unfold search_entries. rewrite He. cbn [must mbind outcome_bind].
    rewrite Hmk. cbn [mbind outcome_bind]. exact Hc.
  - exists bs. split; [|done]. intros timeout arrivals. unfold CheckOperationsTimeout, partitions in *.
    simpl in Hbs |- *. destruct (Partition model); simpl in *; by rewrite Hbs.
Qed.

(** [CheckOperations] answers [true] exactly when every partition of the history is
    linearizable, in whatever order the results arrive; with a timer it may answer [true]
    too early, but never [false] wrongly; a history without partitions makes it wait for
    ever. *)
Theorem CheckOperations_correct `{EqDecision St} (model : Model) history fuel :
  sorts → (∀ equal, Equal model = Some equal → ∀ s1 s2, equal s1 s2 = true → s1 = s2) →
  (∀ p, p ∈ partitions model history → timed p ∧ (check_fuel (base.length p) ≤ fuel)%nat) →
  let lin := Forall (linearizable (Step model) (Init model)) (partitions model history) in
  (∀ arrivals, arrivals ≡ₚ Result <$> seq 0 (base.length (partitions model history)) →
     partitions model history ≠ [] →
     ∃ b, CheckOperations fuel model history arrivals = Ok (Some b) ∧ (b = true ↔ lin)) ∧
  (∀ timeout arrivals, CheckOperationsTimeout fuel model history timeout arrivals = Ok (Some false) → ¬ lin) ∧
  (partitions model history = [] → CheckOperations fuel model history [] = Block).
Proof.
  intros Hs Heq Hps lin. destruct (check_searches model history fuel Hs Heq Hps) as (bs & Hgather & Hf).
  split_and!.
  - intros arrivals Hp Hne. unfold CheckOperations. rewrite Hgather. by apply (gather_ok _ _ _ _ _ Hf).
  - intros timeout arrivals. rewrite Hgather. by apply (gather_ok _ _ _ _ _ Hf).
  - intros He. unfold CheckOperations. rewrite Hgather. rewrite He in Hf. apply Forall2_nil_inv_l in Hf as ->.
    done.
Qed.
End model.

(** ** Concrete histories *)

Definition time_le {In Out} (a b : @entry In Out) : Prop := etime a ≤ etime b.
#[export] Instance time_le_dec {In Out} : RelDecision (@time_le In Out).
Proof. intros a b. unfold time_le. apply _. Defined.

Definition sort_time {In Out} (l : list (@entry In Out)) : list entry := merge_sort time_le l.

Lemma sort_time_sorts {In Out} : sorts (@sort_time In Out).
Proof.
  intros l. split; [apply merge_sort_Permutation|].
  assert (StronglySorted time_le (sort_time l)) as Hs.
  { apply StronglySorted_merge_sort; unfold time_le; [intros a b c; lia|intros a b; lia]. }
  induction Hs as [|a l' Hs IH Hall]; constructor; [done|]. eapply Forall_impl; [exact Hall|].
  intros b. unfold byTime_Less. by rewrite Z.ltb_ge.
Qed.

Definition timedb {In Out} (history : list (@Operation In Out)) : bool :=
  forallb (λ o, Call o <? Return o) history &&
  forallb (λ a, forallb (λ b, negb (Return a =? Call b)) history) history.

Lemma timedb_timed {In Out} (history : list (@Operation In Out)) : timedb history = true → timed history.
Proof.
  unfold timedb. intros [H1 H2]%andb_prop. rewrite forallb_forall in H1, H2. split.
  - intros o Ho. apply Z.ltb_lt, H1, list_elem_of_In, Ho.
  - intros a b Ha Hb. specialize (H2 a (proj1 (list_elem_of_In _ _) Ha)). rewrite forallb_forall in H2.
    specialize (H2 b (proj1 (list_elem_of_In _ _) Hb)). by go_bools.
Qed.

(** A counter: the output of an operation is the value before it. *)
Definition count_step (s : Z) (i o : Z) : bool * Z := (o =? s, s + i).
Definition count_model : @Model Z Z Z := MkModel None None 0 count_step None.

(** Two concurrent operations, and one that follows both. *)
Definition count_good : list (@Operation Z Z) :=
  [MkOperation 1 10 5 40; MkOperation 5 20 0 30; MkOperation 7 50 6 60].
(** The second operation misses the first one, which had returned. *)
Definition count_bad : list (@Operation Z Z) := [MkOperation 1 10 0 20; MkOperation 1 30 0 40].

Lemma checkSingle_correct_witness :
  linearizable count_step 0 count_good ∧ ¬ linearizable count_step 0 count_bad.
Proof.
  split.
  - destruct (checkSingle_correct sort_time 0 count_step Z.eqb count_good (check_fuel 3) sort_time_sorts)
      as (h & root & b & Hmk & Hc & _ & _ & Hb & _); [apply Z.eqb_eq|apply timedb_timed; reflexivity|simpl; lia|].
    specialize (Hb ltac:(apply timedb_timed; reflexivity)).
    apply Hb. vm_compute in Hmk. injection Hmk as <- <-. vm_compute in Hc. congruence.
  - destruct (checkSingle_correct sort_time 0 count_step Z.eqb count_bad (check_fuel 2) sort_time_sorts)
      as (h & root & b & Hmk & Hc & _ & _ & Hb & _); [apply Z.eqb_eq|apply timedb_timed; reflexivity|simpl; lia|].
    specialize (Hb ltac:(apply timedb_timed; reflexivity)).
    intros Hl%Hb. vm_compute in Hmk. injection Hmk as <- <-. vm_compute in Hc. congruence.
Defined.

Lemma CheckOperations_correct_witness :
  ∃ b, CheckOperations sort_time (check_fuel 3) count_model count_good [Result 0] = Ok (Some b) ∧
    b = true.
Proof.
  exists true. split; [|done].
  destruct (CheckOperations_correct sort_time count_model count_good (check_fuel 3) sort_time_sorts)
    as (H & _ & _).
  - done.
  - intros p ->%list_elem_of_singleton. split; [apply timedb_timed; reflexivity|done].
  - destruct (H [Result 0]) as (b & Hb & _); [done|done|]. rewrite Hb. vm_compute in Hb. congruence.
Defined.
