(* ===== verification/LinKv.v ===== *)
(** * The key/value model of [linearizability/models.go].

    [KvModel] describes a single register and splits a history by keys; the theorem of this
    file is that checking the keys one by one decides whether the history of the whole store
    is linearizable. *)

From S2P Require Import Prelude LinHeap LinCheck LinModel.

Record KvInput := MkKvInput {
  KvOp : Z;      (** 0 => get, 1 => put, 2 => append *)
  KvKey : string;
  KvValue : string;
}.
Record KvOutput := MkKvOutput { KvOutValue : string }.

Abbreviation kv_op := (@Operation KvInput KvOutput).

Definition key (v : kv_op) : string := KvKey (Input v).

(** The map from keys to operations. *)
Definition kv_groups (history : list kv_op) : gmap string (list kv_op) :=
  foldl (λ m v, <[key v := default [] (m !! key v) ++ [v]]> m) ∅ history.

Definition kv_step (st : string) (inp : KvInput) (out : KvOutput) : bool * string :=
  if KvOp inp =? 0 then (bool_decide (KvOutValue out = st), st)
  else if KvOp inp =? 1 then (true, KvValue inp)
  else (true, st +:+ KvValue inp).

(** [map_order m] is the order in which the loop over the map meets its values. *)
Definition KvModel (map_order : gmap string (list kv_op) → list (list kv_op)) :
    @Model string KvInput KvOutput :=
  MkModel (Some (λ history, map_order (kv_groups history))) None "" kv_step (Some ShallowEqual).

(** ** The whole store *)

Definition store_step (m : gmap string string) (inp : KvInput) (out : KvOutput) :
    bool * gmap string string :=
  let '(ok, st) := kv_step (default "" (m !! KvKey inp)) inp out in
  (ok, <[KvKey inp := st]> m).

Definition of_key (k : string) (history : list kv_op) : list kv_op :=
  filter (λ v, key v = k) history.

Lemma kv_groups_lookup history k :
  kv_groups history !! k = if decide (of_key k history = []) then None else Some (of_key k history).
Proof.
  unfold kv_groups, of_key. induction history as [|v history IH] using rev_ind; [done|].
  rewrite foldl_app, filter_app. simpl. rewrite filter_cons, filter_nil.
  destruct (decide (key v = k)) as [->|Hne].
  - rewrite lookup_insert_eq, IH. case_decide as He.
    + rewrite He. done.
    + rewrite decide_False; [done|]. by intros [? ?]%app_nil.
  - rewrite lookup_insert_ne by done. by rewrite app_nil_r.
Qed.

(** A run of the store is a run of every register. *)
Lemma legal_key k l m :
  legal store_step m l → legal kv_step (default "" (m !! k)) (of_key k l).
Proof.
  unfold of_key. revert m. induction l as [|o l IH]; intros m; [done|]. simpl. unfold store_step at 1.
  destruct (kv_step _ _ _) as [ok st] eqn:Es. intros [-> Hl]. specialize (IH _ Hl).
  rewrite filter_cons. case_decide as Hk; simpl.
  - unfold key in Hk. rewrite Hk, lookup_insert_eq in *. by rewrite Es.
  - by rewrite lookup_insert_ne in IH by done.
Qed.

Lemma real_time_filter (P : kv_op → Prop) `{∀ x, Decision (P x)} l :
  real_time l → real_time (filter P l).
Proof.
  unfold real_time. induction l as [|o l IH]; intros Hs; [constructor|].
  apply StronglySorted_inv in Hs as [Hs Hall]. rewrite filter_cons. case_decide; [|by apply IH].
  constructor; [by apply IH|]. apply Forall_forall. rewrite Forall_forall in Hall.
  intros x [_ Hx]%list_elem_of_filter. by apply Hall.
Qed.

(** The queue whose first operation was called first. *)
Lemma first_called (f : string → list kv_op) (ks : list string) :
  (∀ k, k ∈ ks → f k = []) ∨
  ∃ k o t, k ∈ ks ∧ f k = o :: t ∧ ∀ k' o' t', k' ∈ ks → f k' = o' :: t' → Call o ≤ Call o'.
Proof.
  induction ks as [|k ks IH]; [left; by intros ? ?%elem_of_nil|].
  destruct (f k) as [|o t] eqn:Ef, IH as [Hnil|(k1 & o1 & t1 & Hk1 & Hf1 & Hmin)].
  - left. intros k' [->|Hk']%elem_of_cons; [done|by apply Hnil].
  - right. exists k1, o1, t1. split; [by right|]. split; [done|].
    intros k' o' t' [->|Hk']%elem_of_cons Hf'; [congruence|by eapply Hmin].
  - right. exists k, o, t. split; [by left|]. split; [done|].
    intros k' o' t' [->|Hk']%elem_of_cons Hf'; [|by rewrite (Hnil k' Hk') in Hf'].
    assert (o' = o) as -> by congruence. lia.
  - right. destruct (Z.leb_spec (Call o) (Call o1)).
    + exists k, o, t. split; [by left|]. split; [done|].
      intros k' o' t' [->|Hk']%elem_of_cons Hf'; [assert (o' = o) as -> by congruence; lia|].
      pose proof (Hmin k' o' t' Hk' Hf'). lia.
    + exists k1, o1, t1. split; [by right|]. split; [done|].
      intros k' o' t' [->|Hk']%elem_of_cons Hf'; [assert (o' = o) as -> by congruence; lia|].
      by apply (Hmin k' o' t').
Qed.

(** [f] with the first operation of [k] taken away. *)
Definition pop_key (f : string → list kv_op) (k : string) : string → list kv_op :=
  λ k', if decide (k' = k) then tail (f k) else f k'.

Lemma pop_key_concat f k (ks : list string) o t :
  NoDup ks → k ∈ ks → f k = o :: t → concat (f <$> ks) ≡ₚ o :: concat (pop_key f k <$> ks).
Proof.
  intros Hnd Hk Hf. apply list_elem_of_split in Hk as (k1 & k2 & ->).
  apply NoDup_app in Hnd as (_ & Hx & Hnd). apply NoDup_cons in Hnd as [Hk2 _].
  assert (Hsame : ∀ ks : list string, k ∉ ks → pop_key f k <$> ks = f <$> ks).
  { intros ks Hks. apply list_fmap_ext. intros i x Hi. unfold pop_key. rewrite decide_False; [done|].
    intros ->. apply Hks. by eapply list_elem_of_lookup_2. }
  rewrite !fmap_app, !fmap_cons, !Hsame; [|done|intros Hin; apply (Hx k Hin); by left].
  unfold pop_key. rewrite decide_True, Hf by done. rewrite !concat_app. simpl.
  by rewrite <- Permutation_middle.
Qed.

(** Runs of the registers merge into a run of the store. *)
Lemma merge_keys n (f : string → list kv_op) (ks : list string) m :
  base.length (concat (f <$> ks)) = n → NoDup ks →
  (∀ k o, k ∈ ks → o ∈ f k → key o = k ∧ Call o < Return o) →
  (∀ k, k ∈ ks → real_time (f k) ∧ legal kv_step (default "" (m !! k)) (f k)) →
  ∃ l, l ≡ₚ concat (f <$> ks) ∧ real_time l ∧ legal store_step m l.
Proof.
  revert f m. induction n as [|n IH]; intros f m Hn Hnd Hkey Hrun.
  { exists []. apply nil_length_inv in Hn as ->. split; [done|]. split; [constructor|done]. }
  destruct (first_called f ks) as [Hnil|(k & o & t & Hk & Hf & Hmin)].
  { exfalso. assert (concat (f <$> ks) = []) as E; [|by rewrite E in Hn].
    clear -Hnil. induction ks as [|k ks IH]; [done|]. simpl. rewrite (Hnil k) by (by left).
    apply IH. intros k' Hk'. apply Hnil. by right. }
  pose proof (pop_key_concat f k ks o t Hnd Hk Hf) as Hp.
  destruct (Hkey k o Hk) as [Hko Hcr]; [rewrite Hf; by left|].
  assert (Hsub : ∀ k' o', o' ∈ pop_key f k k' → o' ∈ f k').
  { intros k' o'. unfold pop_key. case_decide as E; [subst; rewrite Hf; by right|done]. }
  destruct (Hrun k Hk) as [_ Hl]. rewrite Hf in Hl. simpl in Hl.
  destruct (kv_step (default "" (m !! k)) (Input o) (Output o)) as [ok st] eqn:Es. destruct Hl as [-> Hl].
  destruct (IH (pop_key f k) (<[k := st]> m)) as (l & Hpl & Hrt & Hll).
  - rewrite Hp in Hn. simpl in Hn. lia.
  - done.
  - intros k' o' Hk' Ho'. apply Hkey; [done|by apply Hsub].
  - intros k' Hk'. unfold pop_key. case_decide as E.
    + subst k'. destruct (Hrun k Hk) as [Hr _]. rewrite Hf in *. apply StronglySorted_inv in Hr as [Hr _].
      by rewrite lookup_insert_eq.
    + rewrite lookup_insert_ne by done. by apply Hrun.
  - exists (o :: l). split; [by rewrite Hp, Hpl|]. split.
    + constructor; [done|]. apply Forall_forall. intros b Hb. rewrite Hpl in Hb.
      apply list_elem_of_In, in_concat in Hb as (g & Hg & Hb).
      apply list_elem_of_In, list_elem_of_fmap in Hg as (k' & -> & Hk').
      apply list_elem_of_In, Hsub in Hb. destruct (Hkey k' b Hk' Hb) as [_ Hcb].
      destruct (Hrun k' Hk') as [Hr _]. destruct (f k') as [|o' t'] eqn:Ef'; [by apply elem_of_nil in Hb|].
      pose proof (Hmin k' o' t' Hk' Ef') as Hle. apply elem_of_cons in Hb as [->|Hb]; [lia|].
      apply StronglySorted_inv in Hr as [_ Hall]. rewrite Forall_forall in Hall.
      pose proof (Hall b Hb). lia.
    + simpl. unfold store_step. unfold key in Hko. by rewrite Hko, Es.
Qed.

Lemma concat_of_key (ks : list string) history :
  NoDup ks → (∀ v, v ∈ history → key v ∈ ks) →
  concat ((λ k, of_key k history) <$> ks) ≡ₚ history.
Proof.
  intros Hnd. induction history as [|v history IH]; intros Hks.
  { clear. induction ks as [|k ks IH]; [done|]. simpl. exact IH. }
  specialize (Hks v ltac:(by left)) as Hv.
  rewrite (pop_key_concat (λ k, of_key k (v :: history)) (key v) ks v (of_key (key v) history) Hnd Hv).
  - constructor. rewrite <- IH by (intros; apply Hks; by right).
    assert (pop_key (λ k, of_key k (v :: history)) (key v) <$> ks = (λ k, of_key k history) <$> ks) as ->; [|done].
    apply list_fmap_ext. intros i k Hk. unfold pop_key, of_key. rewrite !filter_cons.
    destruct (decide (k = key v)) as [->|]; [by rewrite decide_True|by rewrite decide_False].
  - unfold of_key. by rewrite filter_cons_True.
Qed.

(** A choice for every key of a list. *)
Lemma choose_keys (P : string → list kv_op → Prop) (ks : list string) :
  NoDup ks → (∀ k, k ∈ ks → ∃ l, P k l) → ∃ f : string → list kv_op, ∀ k, k ∈ ks → P k (f k).
Proof.
  induction ks as [|k ks IH]; intros Hnd H; [by exists (λ _, []); intros k ?%elem_of_nil|].
  apply NoDup_cons in Hnd as [Hk Hnd]. destruct IH as [f Hf]; [done|intros; apply H; by right|].
  destruct (H k ltac:(by left)) as [l Hl]. exists (λ k', if decide (k' = k) then l else f k').
  intros k' [->|Hk']%elem_of_cons; [by rewrite decide_True|]. rewrite decide_False; [by apply Hf|].
  by intros ->.
Qed.

(** The store is linearizable when every register is. *)
Lemma store_by_keys history :
  (∀ o, o ∈ history → Call o < Return o) →
  linearizable store_step ∅ history ↔ ∀ k, linearizable kv_step "" (of_key k history).
Proof.
  intros Hcr. split.
  - intros (l & Hp & Hrt & Hl) k. exists (of_key k l). split_and!.
    + unfold of_key. by rewrite Hp.
    + by apply real_time_filter.
    + apply (legal_key k) in Hl. by rewrite lookup_empty in Hl.
  - intros H. set (ks := remove_dups (key <$> history)).
    assert (Hnd : NoDup ks) by apply NoDup_remove_dups.
    destruct (choose_keys (λ k l, l ≡ₚ of_key k history ∧ real_time l ∧ legal kv_step "" l) ks) as [f Hf];
      [done|intros k _; apply H|].
    assert (Hc : concat (f <$> ks) ≡ₚ history).
    { trans (concat ((λ k, of_key k history) <$> ks)); [|apply concat_of_key; [done|]].
      - clearbody ks. clear Hnd. induction ks as [|k ks IH]; [done|]. simpl.
        apply Permutation_app; [apply Hf; by left|]. apply IH. intros k' Hk'. apply Hf. by right.
      - intros v Hv. apply elem_of_remove_dups, list_elem_of_fmap. eauto. }
    destruct (merge_keys (base.length (concat (f <$> ks))) f ks ∅) as (l & Hp & Hrt & Hl); [done|done| | |].
    + intros k o Hk Ho. destruct (Hf k Hk) as [Hp _]. rewrite Hp in Ho.
      apply list_elem_of_filter in Ho as [Hko Ho]. by split; [|apply Hcr].
    + intros k Hk. destruct (Hf k Hk) as (_ & Hr & Hl). rewrite lookup_empty. by split.
    + exists l. split; [by rewrite Hp|done].
Qed.

(** What the loop over the map relies on: it meets every value once. *)
Definition map_orders (map_order : gmap string (list kv_op) → list (list kv_op)) : Prop :=
  ∀ m, map_order m ≡ₚ (map_to_list m).*2.

Lemma kv_partitions map_order history p :
  map_orders map_order →
  p ∈ partitions (KvModel map_order) history ↔ ∃ k, p = of_key k history ∧ p ≠ [].
Proof.
  intros Ho. unfold partitions. simpl. rewrite (Ho _), list_elem_of_fmap. split.
  - intros ([k l] & -> & Hin%elem_of_map_to_list). rewrite kv_groups_lookup in Hin. simpl.
    case_decide; [done|]. injection Hin as <-. eauto.
  - intros (k & -> & Hne). exists (k, of_key k history). split; [done|].
    apply elem_of_map_to_list. rewrite kv_groups_lookup. by rewrite decide_False.
Qed.

Lemma timed_sub (l history : list kv_op) : l ⊆ history → timed history → timed l.
Proof. intros Hsub [H1 H2]. split; [intros o Ho; by apply H1, Hsub|intros; by apply H2; apply Hsub]. Qed.

(** The searches, one per key. *)
Lemma kv_searches sort map_order history fuel :
  sorts sort → map_orders map_order → timed history → history ≠ [] →
  (check_fuel (base.length history) ≤ fuel)%nat →
  ∃ bs, (∀ timeout arrivals, CheckOperationsTimeout sort fuel (KvModel map_order) history timeout arrivals =
           gather timeout (Ok (Some <$> bs)) arrivals) ∧
    Forall2 (λ p b, b = true ↔ linearizable kv_step "" p) (partitions (KvModel map_order) history) bs ∧
    partitions (KvModel map_order) history ≠ [].
Proof.
  intros Hs Ho Ht Hne Hfuel.
  destruct (check_searches sort (KvModel map_order) history fuel Hs) as (bs & Hg & Hf).
  - intros equal [= <-] s1 s2 H. by apply bool_decide_eq_true_1 in H.
  - intros p (k & -> & _)%kv_partitions; [|done]. split.
    + apply (timed_sub _ history); [|done]. intros o [_ Hin]%list_elem_of_filter. done.
    + etrans; [|exact Hfuel]. apply check_fuel_mono, length_filter.
  - exists bs. split; [done|]. split; [exact Hf|]. destruct history as [|v history]; [done|]. intros E.
    assert (of_key (key v) (v :: history) ∈ partitions (KvModel map_order) (v :: history)) as Hin.
    { apply kv_partitions; [done|]. eexists. split; [done|]. unfold of_key. by rewrite filter_cons_True. }
    rewrite E in Hin. by apply elem_of_nil in Hin.
Qed.

(** The store is linearizable when every key is. *)
Lemma kv_partitions_lin map_order history :
  map_orders map_order → timed history →
  linearizable store_step ∅ history ↔
    Forall (linearizable kv_step "") (partitions (KvModel map_order) history).
Proof.
  intros Ho Ht. rewrite store_by_keys by apply Ht. rewrite Forall_forall. split.
  - intros H p (k & -> & _)%kv_partitions; [|done]. apply H.
  - intros H k. destruct (decide (of_key k history = [])) as [->|Hk].
    + exists []. split; [done|]. split; [constructor|done].
    + apply H, kv_partitions; [done|]. eauto.
Qed.

(** The answer of the search over all keys. *)
Lemma store_check sort map_order history fuel arrivals :
  sorts sort → map_orders map_order → timed history → history ≠ [] →
  (check_fuel (base.length history) ≤ fuel)%nat →
  arrivals ≡ₚ Result <$> seq 0 (base.length (partitions (KvModel map_order) history)) →
  ∃ b, CheckOperations sort fuel (KvModel map_order) history arrivals = Ok (Some b) ∧
    (b = true ↔ linearizable store_step ∅ history).
Proof.
  intros Hs Ho Ht Hne Hfuel Harr.
  destruct (kv_searches sort map_order history fuel Hs Ho Ht Hne Hfuel) as (bs & Hg & Hf & Hpne).
  unfold CheckOperations. rewrite Hg.
  destruct (proj2 (gather_ok _ _ _ 0 arrivals Hf) Harr Hpne) as (b & Hb & Hiff).
  exists b. split; [done|]. by rewrite Hiff, kv_partitions_lin.
Qed.

(** A history that is linearizable passes, whatever the time allowed. *)
Lemma store_check_timeout sort map_order history fuel timeout arrivals :
  sorts sort → map_orders map_order → timed history → history ≠ [] →
  (check_fuel (base.length history) ≤ fuel)%nat →
  linearizable store_step ∅ history →
  can_arrive (base.length (partitions (KvModel map_order) history)) timeout arrivals →
  CheckOperationsTimeout sort fuel (KvModel map_order) history timeout arrivals = Ok (Some true).
Proof.
  intros Hs Ho Ht Hne Hfuel Hlin Harr.
  destruct (kv_searches sort map_order history fuel Hs Ho Ht Hne Hfuel) as (bs & Hg & Hf & Hpne).
  rewrite Hg. pose proof (Forall2_length _ _ _ Hf) as Hl. apply gather_true.
  - apply Forall_lookup. intros i b Hb. destruct (Forall2_lookup_r _ _ _ _ _ Hf Hb) as (p & Hp & Hiff).
    apply Hiff. apply (kv_partitions_lin map_order) in Hlin; [|done..]. rewrite Forall_lookup in Hlin. by eapply Hlin.
  - intros ->. by destruct (partitions _ _).
  - by rewrite <- Hl.
Qed.

(** C10. Run with the key/value model on a history in which every operation is called before it
    returns and none returns at the very time of a call, [CheckOperations] decides whether the
    history of the whole store is linearizable: its answer, which it always gives when there is an
    operation at all, is [true] exactly when there is a legal order of all operations on
    all keys in which no operation comes before one that had returned when it was called. *)
Theorem CheckOperations_kv sort map_order history fuel arrivals :
  sorts sort → map_orders map_order → timed history → history ≠ [] →
  (check_fuel (base.length history) ≤ fuel)%nat →
  arrivals ≡ₚ Result <$> seq 0 (base.length (partitions (KvModel map_order) history)) →
  ∃ b, CheckOperations sort fuel (KvModel map_order) history arrivals = Ok (Some b) ∧
    (b = true ↔ linearizable store_step ∅ history).
Proof. apply store_check. Qed.

(** ** Concrete histories *)

Definition kv_order (m : gmap string (list kv_op)) : list (list kv_op) := (map_to_list m).*2.

Definition kv_demo : list kv_op :=
  [MkOperation (MkKvInput 1 "x" "a") 10 (MkKvOutput "") 40;
   MkOperation (MkKvInput 0 "x" "") 20 (MkKvOutput "a") 30;
   MkOperation (MkKvInput 2 "y" "b") 50 (MkKvOutput "") 60].

Lemma CheckOperations_kv_witness : linearizable store_step ∅ kv_demo.
Proof.
  destruct (CheckOperations_kv sort_time kv_order kv_demo (check_fuel 3) [Result 1; Result 0])
    as (b & Hb & Hiff).
  - apply sort_time_sorts.
  - by intros m.
  - apply timedb_timed. reflexivity.
  - done.
  - done.
  - vm_compute. apply perm_swap.
  - apply Hiff. vm_compute in Hb. congruence.
Defined.

(** A put on one key and then a get of another one, as operations and as events. *)
Definition mixed_ops : list kv_op :=
  [MkOperation (MkKvInput 1 "x" "a") 10 (MkKvOutput "") 20;
   MkOperation (MkKvInput 0 "y" "") 30 (MkKvOutput "") 40].
Definition mixed_events : list (@Event KvInput KvOutput) :=
  [MkEvent (inl (MkKvInput 1 "x" "a")) 0; MkEvent (inr (MkKvOutput "")) 0;
   MkEvent (inl (MkKvInput 0 "y" "")) 1; MkEvent (inr (MkKvOutput "")) 1].

(** The key/value model does not say how to partition events: [CheckEvents] takes all keys
    for one register, and rejects a history that [CheckOperations] accepts. *)
Theorem CheckEvents_mixes_keys :
  CheckOperations sort_time (check_fuel 2) (KvModel kv_order) mixed_ops [Result 0; Result 1] = Ok (Some true) ∧
  CheckEvents (check_fuel 2) (KvModel kv_order) mixed_events [Result 0] = Ok (Some false).
Proof. split; vm_compute; reflexivity. Qed.
