(* ===== verification/KvLin.v ===== *)
(** * The key/value service is linearizable as long as Raft keeps its promise.

    The calls of clerks on the system of [KvService], taken as a history of [LinModel], can be put
    in an order that the store accepts and that respects real time: writes at the place of their
    first copy in the agreed log, reads at the place whose state they return.  [KvLin] has the
    invariant of the calls, the order, and the theorem; the test [GenericTestLinearizability]
    checks the same history with [CheckOperations]. *)

From S2P Require Import Prelude RaftState RaftVote RaftAppend RaftLeader RaftRole RaftCluster.
From S2P Require Import Session KvServer KvCluster KvClient KvService.
From S2P Require Import LinHeap LinCheck LinModel LinKv.

(** ** Histories *)

Definition input_of (q : request) : KvInput :=
  match q with
  | inl args => MkKvInput 0 (GetKey args) EmptyString
  | inr args =>
      MkKvInput (if bool_decide (PAOp args = "Put"%string) then 1 else 2) (PAKey args) (PAValue args)
  end.

(** A call as an operation; one that has not returned is given the time [now]. *)
Definition to_op (now : Z) (c : call) : kv_op :=
  match c_ret c with
  | Some (t, v, _) => MkOperation (input_of (c_req c)) (c_time c) (MkKvOutput v) t
  | None => MkOperation (input_of (c_req c)) (c_time c) (MkKvOutput EmptyString) now
  end.

Definition is_write (c : call) : Prop := Optype (c_op c) ≠ GetType.

Definition history (s : service) : list kv_op :=
  to_op (sv_now s) <$> filter (λ c, is_Some (c_ret c)) (sv_calls s).

(** The writes that have not returned but are in the agreed log. *)
Definition under_way (s : service) : list kv_op :=
  to_op (sv_now s) <$>
    filter (λ c, c_ret c = None ∧ is_write c ∧ c_op c ∈ sv_log s) (sv_calls s).

(** ** The effect of the first copies *)

Section log.
Context (l : list Op).

(** Position [q] holds the first copy of a write. *)
Definition first_write (q : Z) (op : Op) : Prop :=
  zlookup l q = Some op ∧ (op ∉ take (Z.to_nat q) l) ∧ Optype op ≠ GetType.

Lemma elem_of_take_zlookup (q : Z) (op : Op) :
  op ∈ take (Z.to_nat q) l ↔ ∃ r, 0 ≤ r < q ∧ zlookup l r = Some op.
Proof.
  rewrite list_elem_of_lookup. split.
  - intros (i & Hi). pose proof (lookup_lt_Some _ _ _ Hi) as Hlt. rewrite length_take in Hlt.
    rewrite lookup_take_lt in Hi by lia. exists (Z.of_nat i). rewrite zlookup_nat. split; [lia|done].
  - intros (r & Hr & Hz). exists (Z.to_nat r). rewrite lookup_take_lt by lia.
    rewrite <- zlookup_nat, Z2Nat.id by lia. done.
Qed.

(** An entry that is in the log has a first copy. *)
Lemma first_copy op k : zlookup l k = Some op → ∃ q, 0 ≤ q ≤ k ∧ zlookup l q = Some op ∧ (op ∉ take (Z.to_nat q) l).
Proof.
  intros Hk. pose proof (zlookup_Some_lt _ _ _ Hk). remember (Z.to_nat k) as n eqn:En.
  revert k Hk En H. induction (lt_wf n) as [n _ IH]. intros k Hk -> Hlt.
  destruct (decide (op ∈ take (Z.to_nat k) l)) as [(r & Hr & Hz)%elem_of_take_zlookup|Hn].
  - destruct (IH (Z.to_nat r) ltac:(lia) r Hz eq_refl ltac:(lia)) as (q & Hq & ?). exists q. split; [lia|done].
  - exists k. split; [lia|done].
Qed.

Lemma first_write_unique q q' op : first_write q op → first_write q' op → q = q'.
Proof.
  intros (Hz & Hf & _) (Hz' & Hf' & _). apply zlookup_Some_lt in Hz as ?. apply zlookup_Some_lt in Hz' as ?.
  destruct (Z.lt_trichotomy q q') as [Hlt|[?|Hlt]]; [|done|]; exfalso.
  - apply Hf', elem_of_take_zlookup. exists q. split; [lia|done].
  - apply Hf, elem_of_take_zlookup. exists q'. split; [lia|done].
Qed.

(** Only first copies of writes change the store. *)
Lemma at_index_skip p q : 0 ≤ p ≤ q → q ≤ len l → (∀ r op, p ≤ r < q → ¬ first_write r op) →
  ks_rsm (at_index l q) = ks_rsm (at_index l p).
Proof.
  intros [Hp Hpq]. replace q with (p + Z.of_nat (Z.to_nat (q - p))) by lia.
  generalize (Z.to_nat (q - p)). clear q Hpq. intros n. induction n as [|n IH]; intros Hq Hno;
    [by rewrite Z.add_0_r|].
  rewrite <- IH by (try lia; intros r op Hr; apply Hno; lia). clear IH.
  destruct (zlookup_lt_Some l (p + Z.of_nat n)) as [op Hop]; [lia|].
  replace (p + Z.of_nat (S n)) with (p + Z.of_nat n + 1) by lia. rewrite (at_index_snoc l _ op) by done.
  destruct (decide (Optype op = GetType)) as [Eg|Hw]; [unfold ks_apply; by rewrite Eg|].
  destruct (decide (op ∈ take (Z.to_nat (p + Z.of_nat n)) l)) as [(r & Hr & Hz)%elem_of_take_zlookup|Hn].
  - apply (covered_noop (Session := kv_session)). by eapply at_index_covers; [|apply Hr].
  - exfalso. apply (Hno (p + Z.of_nat n) op); [lia|]. by split.
Qed.

(** The numbers of a client, up to a position. *)
Lemma maxSeq_bound c n q : 0 ≤ q ≤ len l → 1 ≤ n →
  (∀ r op, r < q → zlookup l r = Some op → Optype op ≠ GetType → ClientID op = c → ProposalID op < n) →
  maxSeq (ks_seqs (at_index l q)) c < n.
Proof.
  intros Hq Hn. replace q with (Z.of_nat (Z.to_nat q)) in * by lia. revert Hq.
  generalize (Z.to_nat q). clear q. intros k. induction k as [|k IH]; intros Hq Hall.
  { unfold at_index, maxSeq. simpl. rewrite lookup_empty. simpl. lia. }
  destruct (zlookup_lt_Some l (Z.of_nat k)) as [op Hop]; [lia|].
  replace (Z.of_nat (S k)) with (Z.of_nat k + 1) by lia. rewrite (at_index_snoc l _ op) by done.
  rewrite ks_apply_seq. assert (maxSeq (ks_seqs (at_index l (Z.of_nat k))) c < n).
  { apply IH; [lia|]. intros r op' Hr. apply Hall. lia. }
  case_decide as Hd; [|done]. destruct Hd as [Hw Hc]. pose proof (Hall (Z.of_nat k) op ltac:(lia) Hop Hw Hc). lia.
Qed.

(** The numbers of a client's writes grow along the log. *)
Definition in_order : Prop := ∀ q op r op',
  first_write q op → r < q → zlookup l r = Some op' → Optype op' ≠ GetType →
  ClientID op' = ClientID op → ProposalID op' < ProposalID op.

Lemma first_write_applies q op : in_order → 1 ≤ ProposalID op → first_write q op →
  ks_rsm (at_index l (q + 1)) = <[Key op := match Optype op with
    | PutType => Value op
    | _ => default EmptyString (ks_rsm (at_index l q) !! Key op) +:+ Value op
    end]> (ks_rsm (at_index l q)).
Proof.
  intros Ho Hpos Hf. pose proof Hf as (Hz & _ & Hw). pose proof (zlookup_Some_lt _ _ _ Hz).
  rewrite (at_index_snoc l _ op) by done. unfold ks_apply.
  assert (maxSeq (ks_seqs (at_index l q)) (ClientID op) < ProposalID op) as Hlt.
  { apply maxSeq_bound; [lia|done|]. intros r op' Hr Hz' Hw' Hc. by apply (Ho q op r op'). }
  destruct (Z.leb_spec (ProposalID op) (maxSeq (ks_seqs (at_index l q)) (ClientID op))); [lia|].
  by destruct (Optype op).
Qed.
End log.

(** ** The order *)

Section order.
Context (l : list Op) (now : Z).

(** The point of a call: a write is at [2 q] when [q] is the position of its first copy, a read of
    the state after [j] commands at [2 j - 1]. *)
Definition point_ok (x : call * Z) : Prop :=
  let '(c, k) := x in
  c_time c < now ∧ 0 ≤ c_born c ∧ 2 * c_born c - 1 ≤ k ∧ 1 ≤ ProposalID (c_op c) ∧
  (∀ t v d, c_ret c = Some (t, v, d) → c_time c < t ∧ k < 2 * d) ∧
  ((∃ q, k = 2 * q ∧ first_write l q (c_op c)) ∨
   (∃ j args t v d, k = 2 * j - 1 ∧ 0 ≤ j ≤ len l ∧ c_req c = inl args ∧ c_ret c = Some (t, v, d) ∧
      v = default EmptyString (ks_rsm (at_index l j) !! GetKey args))).

Definition point_le (x y : call * Z) : Prop :=
  x.2 < y.2 ∨ (x.2 = y.2 ∧ c_time x.1 ≤ c_time y.1).

#[global] Instance point_le_dec : RelDecision point_le.
Proof. intros x y. unfold point_le. apply _. Defined.
#[global] Instance point_le_trans : Transitive point_le.
Proof. intros x y z. unfold point_le. lia. Qed.
#[global] Instance point_le_total : Total point_le.
Proof. intros x y. unfold point_le. lia. Qed.

Definition point_op (x : call * Z) : kv_op := to_op now x.1.

(** Where a call has returned before another one is made, its point comes first. *)
Definition spaced (xs : list (call * Z)) : Prop := ∀ x y t v d,
  x ∈ xs → y ∈ xs → c_ret x.1 = Some (t, v, d) → t < c_time y.1 → d ≤ c_born y.1.

Lemma points_real_time xs :
  StronglySorted point_le xs → Forall point_ok xs → spaced xs → real_time (point_op <$> xs).
Proof.
  intros Hs Hok Hsp. unfold real_time. induction Hs as [|x xs Hs IH Hle]; simpl; [constructor|].
  apply Forall_cons in Hok as [Hx Hok]. constructor.
  - apply IH; [done|]. intros y z t v d Hy Hz. by apply Hsp; right.
  - apply Forall_fmap, Forall_forall. intros y Hy Hlt. simpl in Hlt.
    rewrite Forall_forall in Hle, Hok. specialize (Hle y Hy). specialize (Hok y Hy).
    destruct x as [cx kx], y as [cy ky]. destruct Hx as (Htx & _ & Hbx & _), Hok as (Hty & _ & _ & _ & Hry & _).
    unfold point_op, to_op in Hlt. unfold point_le in Hle. simpl in *.
    assert (Call (to_op now cx) = c_time cx) as E by (unfold to_op; by repeat case_match).
    unfold to_op in E. destruct (c_ret cy) as [[[t v] d]|] eqn:Er; simpl in Hlt; rewrite E in Hlt; [|lia].
    destruct (Hry _ _ _ eq_refl) as [Htt Hk].
    pose proof (Hsp (cy, ky) (cx, kx) t v d ltac:(by right) ltac:(by left) Er Hlt). simpl in *. lia.
Qed.

(** The value of a key, an absent one being empty. *)
Definition value_of (m : gmap string string) (k : string) : string := default EmptyString (m !! k).

Definition same_store (m m' : gmap string string) : Prop := ∀ k, value_of m k = value_of m' k.

Lemma same_store_insert m m' k v : same_store m m' → same_store (<[k := v]> m) (<[k := v]> m').
Proof.
  intros Hs k'. unfold value_of. destruct (decide (k = k')) as [->|Hne].
  - by rewrite !lookup_insert_eq.
  - rewrite !lookup_insert_ne by done. apply Hs.
Qed.

Lemma same_store_read m m' k : same_store m m' → same_store (<[k := value_of m k]> m) m'.
Proof.
  intros Hs k'. rewrite <- Hs. unfold value_of. destruct (decide (k = k')) as [->|Hne].
  - by rewrite lookup_insert_eq.
  - by rewrite lookup_insert_ne.
Qed.

(** The store accepts a write, and a read of what it holds. *)
Lemma store_write m c q :
  in_order l → 1 ≤ ProposalID (c_op c) → first_write l q (c_op c) → same_store m (ks_rsm (at_index l q)) →
  ∃ m', store_step m (Input (to_op now c)) (Output (to_op now c)) = (true, m') ∧
    same_store m' (ks_rsm (at_index l (q + 1))).
Proof.
  intros Ho Hpos Hf Hs. pose proof Hf as (_ & _ & Hw).
  rewrite (first_write_applies l q (c_op c)) by done.
  assert (Input (to_op now c) = input_of (c_req c)) as -> by (unfold to_op; by repeat case_match).
  unfold c_op in *. destruct (c_req c) as [args|args]; [by destruct Hw|]. simpl in *. unfold store_step, pa_op in *.
  simpl in *. unfold LinKv.kv_step. simpl. case_bool_decide; simpl; eexists.
  - split; [done|]. by apply same_store_insert.
  - split; [done|]. pose proof (Hs (PAKey args)) as E. unfold value_of in E. rewrite E.
    by apply same_store_insert.
Qed.

Lemma store_read m m' c args t v d :
  c_req c = inl args → c_ret c = Some (t, v, d) → v = value_of m' (GetKey args) → same_store m m' →
  ∃ m2, store_step m (Input (to_op now c)) (Output (to_op now c)) = (true, m2) ∧ same_store m2 m'.
Proof.
  intros Eq Er -> Hs. unfold to_op. rewrite Eq, Er. unfold store_step, LinKv.kv_step. simpl.
  exists (<[GetKey args := value_of m (GetKey args)]> m). split; [|by apply same_store_read].
  f_equal. apply bool_decide_eq_true_2. symmetry. apply Hs.
Qed.

(** The calls in the order of their points, from the state after [p] commands on. *)
Lemma points_legal xs m p :
  in_order l → 0 ≤ p ≤ len l → same_store m (ks_rsm (at_index l p)) →
  StronglySorted point_le xs → Forall point_ok xs →
  (∀ x y, x ∈ xs → y ∈ xs → c_op x.1 = c_op y.1 → x.1 = y.1) → NoDup xs.*1 →
  Forall (λ x, 2 * p - 1 ≤ x.2) xs →
  (∀ q op, p ≤ q → first_write l q op → ∃ x, x ∈ xs ∧ x.2 = 2 * q) →
  legal store_step m (point_op <$> xs).
Proof.
  intros Ho Hp Hm Hs. revert m p Hp Hm.
  induction Hs as [|[c k] xs Hs IH Hle]; intros m p Hp Hm Hok Hinj Hnd Hlow Hall; [done|].
  rewrite fmap_cons. cbn [legal]. change (point_op (c, k)) with (to_op now c).
  apply Forall_cons in Hok as [Hx Hok], Hlow as [Hkp Hlow]. apply NoDup_cons in Hnd as [Hnx Hnd].
  rewrite Forall_forall in Hle. simpl in Hkp.
  assert (Hskip : ∀ q, p ≤ q ≤ len l → 2 * q ≤ k + 1 → same_store m (ks_rsm (at_index l q))).
  { intros q Hq Hqk. rewrite (at_index_skip l p q) ; [done|lia..|]. intros r op Hr Hf.
    destruct (Hall r op ltac:(lia) Hf) as (y & [->|Hy]%elem_of_cons & Ek); [simpl in Ek; lia|].
    pose proof (Hle y Hy) as Hl. unfold point_le in Hl. simpl in Hl. lia. }
  (* the rest, from the state after [p'] commands on *)
  assert (Hrest : ∀ m' p', 0 ≤ p' ≤ len l → p ≤ p' → same_store m' (ks_rsm (at_index l p')) →
    Forall (λ x, 2 * p' - 1 ≤ x.2) xs → k < 2 * p' → legal store_step m' (point_op <$> xs)).
  { intros m' p' Hp' Hpp Hm' Hlow' Hk. apply (IH m' p'); try done.
    - intros x y Hx' Hy'. apply Hinj; by right.
    - intros q op Hq Hf. destruct (Hall q op ltac:(lia) Hf) as (y & [->|Hy]%elem_of_cons & Ek);
        [simpl in Ek; lia|by exists y]. }
  destruct Hx as (Ht & Hb & Hbk & Hpos & Hret & [(q & -> & Hf)|(j & args & t & v & d & -> & Hj & Eq & Er & Ev)]).
  - pose proof (zlookup_Some_lt _ _ _ (proj1 Hf)).
    destruct (store_write m c q Ho Hpos Hf) as (m' & E & Hm'); [apply Hskip; lia|].
    rewrite E. split; [done|]. apply (Hrest m' (q + 1)); try done; try lia.
    apply Forall_forall. intros [cy ky] Hy. pose proof (Hle _ Hy) as Hl. unfold point_le in Hl. simpl in *.
    destruct (decide (ky = 2 * q)) as [->|]; [|lia]. exfalso. apply Hnx.
    rewrite Forall_forall in Hok. destruct (Hok _ Hy) as (_ & _ & _ & _ & _ & [(q' & Ek & Hf')|(j & ? & ? & ? & ? & Ek & _)]);
      [|lia]. assert (q' = q) as -> by lia. destruct Hf as [Hz _], Hf' as [Hz' _].
    apply list_elem_of_fmap. exists (cy, 2 * q). split; [|done]. simpl.
    apply (Hinj (c, 2 * q) (cy, 2 * q)); [by left|by right|]. simpl. congruence.
  - destruct (store_read m (ks_rsm (at_index l j)) c args t v d Eq Er Ev) as (m' & E & Hm'); [apply Hskip; lia|].
    rewrite E. split; [done|]. apply (Hrest m' j); try done; try lia.
    apply Forall_forall. intros y Hy. pose proof (Hle _ Hy) as Hl. unfold point_le in Hl. simpl in Hl. lia.
Qed.
End order.

(** ** The calls of clerks *)

Definition c_client (c : call) : Z := ClientID (c_op c).
Definition c_seq (c : call) : Z := ProposalID (c_op c).

Record clerks_ok (s : service) : Prop := {
  co_ids : ∀ k k' cl cl', sv_clients s !! k = Some cl → sv_clients s !! k' = Some cl' →
    ck_ID (cl_ck cl) = ck_ID (cl_ck cl') → k = k';
  co_client : ∀ k cl, sv_clients s !! k = Some cl →
    is_i32 (ck_ID (cl_ck cl)) ∧ 1 ≤ commSeq (cl_ck cl);
  (* a clerk's calls have the numbers below [commSeq], and have returned but for the one it is in *)
  co_state : ∀ k cl n c, sv_clients s !! k = Some cl → sv_calls s !! n = Some c →
    c_client c = ck_ID (cl_ck cl) →
    (cl_busy cl = Some n ∧ c_seq c = commSeq (cl_ck cl) ∧ c_ret c = None) ∨
    (cl_busy cl ≠ Some n ∧ c_seq c < commSeq (cl_ck cl) ∧ c_ret c ≠ None);
  co_busy : ∀ k cl n, sv_clients s !! k = Some cl → cl_busy cl = Some n →
    ∃ c, sv_calls s !! n = Some c ∧ c_client c = ck_ID (cl_ck cl);
  co_owner : ∀ n c, sv_calls s !! n = Some c → 1 ≤ c_seq c ∧
    ∃ k cl, sv_clients s !! k = Some cl ∧ c_client c = ck_ID (cl_ck cl);
}.

Record times_ok (s : service) : Prop := {
  co_times : ∀ n c, sv_calls s !! n = Some c →
    c_time c < sv_now s ∧ 0 ≤ c_born c ≤ len (sv_log s) ∧
    ∀ t v d, c_ret c = Some (t, v, d) → c_time c < t < sv_now s ∧ d ≤ len (sv_log s);
  (* a clerk makes one call after the other *)
  co_order : ∀ n n' c c', sv_calls s !! n = Some c → sv_calls s !! n' = Some c' →
    c_client c = c_client c' → c_seq c ≤ c_seq c' →
    n = n' ∨ c_seq c < c_seq c' ∧ ∃ t v d, c_ret c = Some (t, v, d) ∧ d ≤ c_born c';
  (* calls after returns *)
  co_real : ∀ n n' c c' t v d, sv_calls s !! n = Some c → sv_calls s !! n' = Some c' →
    c_ret c = Some (t, v, d) → t ≠ c_time c' ∧ (t < c_time c' → d ≤ c_born c');
}.

Record calls_ok (s : service) : Prop := {
  co_clerks :> clerks_ok s;
  co_when :> times_ok s;
}.

(** The agreed log may grow. *)
Lemma calls_ok_grow s s' :
  sv_clients s' = sv_clients s → sv_calls s' = sv_calls s → sv_now s' = sv_now s →
  len (sv_log s) ≤ len (sv_log s') → calls_ok s → calls_ok s'.
Proof.
  intros Ec Ea En Hl [[H1 H2 H3 H4 H5] [H6 H7 H8]]. split; split; rewrite ?Ec, ?Ea, ?En; try done.
  intros n c Hc. destruct (H6 n c Hc) as (? & ? & Hr). split; [done|]. split; [lia|].
  intros t v d E. destruct (Hr t v d E). split; [done|lia].
Qed.

(** Requests determine calls. *)
Lemma calls_unique s n n' c c' : calls_ok s →
  sv_calls s !! n = Some c → sv_calls s !! n' = Some c' →
  c_client c = c_client c' → c_seq c = c_seq c' → n = n'.
Proof.
  intros Hs Hc Hc' E1 E2. destruct (co_order s Hs n n' c c' Hc Hc' E1 ltac:(lia)) as [|[? _]]; [done|lia].
Qed.

(** The request of a new call. *)
Definition new_request (ck : Clerk) (q : request) : Prop :=
  ClientID (req_op q) = ck_ID ck ∧ ProposalID (req_op q) = commSeq ck.

Lemma lookup_snoc_cases {A} (l : list A) (x y : A) (n : nat) :
  (l ++ [x]) !! n = Some y → l !! n = Some y ∨ n = base.length l ∧ y = x.
Proof.
  intros [H|[Hn H]]%lookup_app_Some; [by left|right]. apply list_lookup_singleton_Some in H as [? ->].
  split; [lia|done].
Qed.

(** The calls of an idle clerk. *)
Lemma idle_calls s k ck n c : clerks_ok s → sv_clients s !! k = Some (MkClient ck None) →
  sv_calls s !! n = Some c → c_client c = ck_ID ck → c_seq c < commSeq ck ∧ c_ret c ≠ None.
Proof. intros Hs Hk Hc E. destruct (co_state s Hs k _ n c Hk Hc E) as [[? _]|(_ & ? & ?)]; done. Qed.

(** Clerk [k] is in another state. *)
Lemma set_client_cases (cls : list client) k cl1 cl' k' cl :
  cls !! k = Some cl1 → <[k := cl']> cls !! k' = Some cl → ck_ID (cl_ck cl') = ck_ID (cl_ck cl1) →
  ∃ cl0, cls !! k' = Some cl0 ∧ ck_ID (cl_ck cl0) = ck_ID (cl_ck cl) ∧
    (k' = k ∧ cl0 = cl1 ∧ cl = cl' ∨ k' ≠ k ∧ cl0 = cl).
Proof.
  intros Hk [(-> & <- & _)|[Hne H]]%list_lookup_insert_Some E.
  - exists cl1. split; [done|]. split; [done|by left].
  - exists cl. split; [done|]. split; [done|by right].
Qed.

Lemma set_client_owner (cls : list client) k cl1 cl' k0 cl0 :
  cls !! k = Some cl1 → ck_ID (cl_ck cl') = ck_ID (cl_ck cl1) → cls !! k0 = Some cl0 →
  ∃ k' cl, <[k := cl']> cls !! k' = Some cl ∧ ck_ID (cl_ck cl0) = ck_ID (cl_ck cl).
Proof.
  intros Hk E H0. exists k0. destruct (decide (k0 = k)) as [->|Hne].
  - rewrite list_lookup_insert_eq by (by eapply lookup_lt_Some). simplify_eq. by exists cl'.
  - rewrite list_lookup_insert_ne by done. by exists cl0.
Qed.

Lemma clerks_ok_begin s k ck q : clerks_ok s →
  sv_clients s !! k = Some (MkClient ck None) → new_request ck q → clerks_ok (begin_call k ck q s).
Proof.
  intros Hs Hk [Eid Eseq]. pose proof (λ n c, idle_calls s k ck n c Hs Hk) as Hold.
  pose proof (λ k' cl H, set_client_cases (sv_clients s) k _ (MkClient ck (Some (base.length (sv_calls s)))) k' cl Hk H eq_refl) as Hcl.
  assert (Hlt : ∀ n c, sv_calls s !! n = Some c → n ≠ base.length (sv_calls s))
    by (intros n c ?%lookup_lt_Some; lia). split.
  - intros k1 k2 cl1 cl2 (c1 & H1 & E1 & _)%Hcl (c2 & H2 & E2 & _)%Hcl E. rewrite <- E1, <- E2 in E.
    by eapply (co_ids s Hs).
  - intros k' cl (c0 & H0 & _ & [(-> & -> & ->)|[_ ->]])%Hcl; [exact (co_client s Hs _ _ Hk)|by eapply (co_client s Hs)].
  - intros k' cl n c (c0 & H0 & E0 & Hcase)%Hcl [Hc|[-> ->]]%lookup_snoc_cases E.
    + destruct Hcase as [(-> & -> & ->)|[Hne ->]]; [|by eapply (co_state s Hs)].
      right. split; [intros [= <-]; by eapply Hlt|by eapply Hold].
    + destruct Hcase as [(-> & -> & ->)|[Hne ->]]; [left; by split_and!|]. exfalso. apply Hne.
      eapply (co_ids s Hs); [done..|]. rewrite <- E. unfold c_client, c_op. simpl. by rewrite Eid.
  - intros k' cl n (c0 & H0 & E0 & [(-> & -> & ->)|[Hne ->]])%Hcl Hb; simpl in *.
    + simplify_eq. eexists. split; [by rewrite lookup_app_r, Nat.sub_diag by lia|]. done.
    + destruct (co_busy s Hs _ _ _ H0 Hb) as (c & Hc & E). exists c. split; [|done]. by apply lookup_app_l_Some.
  - intros n c [Hc|[-> ->]]%lookup_snoc_cases.
    + destruct (co_owner s Hs n c Hc) as (Hsq & k0 & cl0 & H0 & E). split; [done|]. rewrite E.
      by eapply set_client_owner.
    + unfold c_seq, c_client, c_op. simpl. rewrite Eid, Eseq. destruct (co_client s Hs _ _ Hk) as [_ Hpos].
      split; [done|]. exact (set_client_owner _ k _ (MkClient ck (Some (base.length (sv_calls s)))) k _ Hk eq_refl Hk).
Qed.

Lemma calls_ok_begin s k ck q : calls_ok s →
  sv_clients s !! k = Some (MkClient ck None) → new_request ck q → calls_ok (begin_call k ck q s).
Proof.
  intros Hs Hk Hq. split; [by apply clerks_ok_begin; [apply Hs|..]|]. destruct Hq as [Eid Eseq].
  pose proof (λ n c, idle_calls s k ck n c (co_clerks s Hs) Hk) as Hold. pose proof (len_nonneg (sv_log s)). split.
  - intros n c [Hc|[-> ->]]%lookup_snoc_cases; simpl; [|split; [lia|]; split; [lia|done]].
    destruct (co_times s Hs n c Hc) as (? & ? & Hr). split; [lia|]. split; [done|].
    intros t v d E. destruct (Hr t v d E). split; [lia|done].
  - intros n n' c c' [Hc|[-> ->]]%lookup_snoc_cases [Hc'|[-> ->]]%lookup_snoc_cases E Hle;
      [by eapply (co_order s Hs)| | |by left];
      unfold c_client, c_seq, c_op in E, Hle; simpl in E, Hle; rewrite Eid in E; rewrite Eseq in Hle.
    + right. destruct (Hold n c Hc E) as [Hsq Hr]. unfold c_seq, c_op in *. simpl. rewrite Eseq. split; [done|].
      destruct (c_ret c) as [[[t v] d]|] eqn:Er; [|done]. exists t, v, d. split; [done|].
      destruct (co_times s Hs n c Hc) as (_ & _ & Hr'). by destruct (Hr' t v d Er).
    + exfalso. destruct (Hold n' c' Hc') as [Hsq _]; [done|]. unfold c_seq, c_op in Hsq. lia.
  - intros n n' c c' t v d [Hc|[-> ->]]%lookup_snoc_cases [Hc'|[-> ->]]%lookup_snoc_cases Er;
      [exact (co_real s Hs n n' c c' t v d Hc Hc' Er)| |done..].
    simpl. destruct (co_times s Hs n c Hc) as (_ & _ & Hr'). destruct (Hr' t v d Er). split; [lia|]. done.
Qed.

(** A call after call [n] has returned [v]. *)
Lemma end_call_cases s k ck n c v m c' : sv_calls s !! n = Some c →
  sv_calls (end_call k ck n c v s) !! m = Some c' →
  ∃ c0, sv_calls s !! m = Some c0 ∧ c_time c0 = c_time c' ∧ c_born c0 = c_born c' ∧
    c_client c0 = c_client c' ∧ c_seq c0 = c_seq c' ∧
    (m = n ∧ c0 = c ∧ c_ret c' = Some (sv_now s, v, len (sv_log s)) ∨ m ≠ n ∧ c0 = c').
Proof.
  intros Hn [(-> & <- & _)|[Hne H]]%list_lookup_insert_Some; [by exists c; split_and!; [..|left]|].
  exists c'. split_and!; try done. by right.
Qed.

Lemma clerks_ok_end s k ck n c v ck' : clerks_ok s →
  sv_clients s !! k = Some (MkClient ck (Some n)) → sv_calls s !! n = Some c →
  ck_ID ck' = ck_ID ck → commSeq ck' = commSeq ck + 1 → clerks_ok (end_call k ck' n c v s).
Proof.
  intros Hs Hk Hn Eid Eseq.
  destruct (co_busy s Hs k _ n Hk eq_refl) as (c0 & Hc0 & Ecl). simplify_eq. simpl in Ecl.
  pose proof (λ k' cl H, set_client_cases (sv_clients s) k _ (MkClient ck' None) k' cl Hk H Eid) as Hcl.
  pose proof (λ m c', end_call_cases s k ck' n c v m c' Hn) as Hco. split.
  - intros k1 k2 cl1 cl2 (c1 & H1 & E1 & _)%Hcl (c2 & H2 & E2 & _)%Hcl E.
    eapply (co_ids s Hs); [done..|]. congruence.
  - intros k' cl (c0 & H0 & E0 & [(-> & -> & ->)|[_ ->]])%Hcl; [|by eapply (co_client s Hs)].
    destruct (co_client s Hs _ _ Hk). simpl in *. rewrite Eid, Eseq. split; [done|lia].
  - intros k' cl m c' (cl0 & H0 & E0 & Hcase)%Hcl (c0 & Hc0 & _ & _ & E1 & E2 & Hm)%Hco E.
    rewrite <- E1, <- E0 in E. pose proof (co_state s Hs k' cl0 m c0 H0 Hc0 E) as Hst. rewrite <- E2.
    destruct Hcase as [(-> & -> & ->)|[Hne ->]]; simpl in *.
    + right. split; [done|]. rewrite Eseq.
      destruct Hst as [(Eb & -> & _)|(Hb & Hlt & Hret)]; [|destruct Hm as [(-> & -> & ->)|[_ ->]]; [done|split; [lia|done]]].
      destruct Hm as [(_ & _ & ->)|[Hne _]]; [split; [lia|done]|]. congruence.
    + destruct Hm as [(-> & -> & _)|[Hnm ->]]; [|done]. exfalso. apply Hne. eapply (co_ids s Hs); [done..|].
      simpl. congruence.
  - intros k' cl m (cl0 & H0 & E0 & [(-> & -> & ->)|[Hne ->]])%Hcl Hb; [done|].
    destruct (co_busy s Hs _ _ _ H0 Hb) as (c0 & Hc0 & E). destruct (decide (m = n)) as [->|Hmn].
    + simpl. rewrite list_lookup_insert_eq by (by eapply lookup_lt_Some). eexists. split; [done|].
      simplify_eq. by rewrite <- E.
    + exists c0. split; [|done]. simpl. by rewrite list_lookup_insert_ne.
  - intros m c' (c0 & Hc0 & _ & _ & E1 & E2 & _)%Hco. rewrite <- E1, <- E2.
    destruct (co_owner s Hs m c0 Hc0) as (Hsq & k0 & cl0 & H0 & ->). split; [done|].
    exact (set_client_owner _ k _ (MkClient ck' None) k0 cl0 Hk Eid H0).
Qed.

(** A call returns: nothing changes but its result and the state of its clerk. *)
Lemma calls_ok_end s k ck n c v ck' : calls_ok s →
  sv_clients s !! k = Some (MkClient ck (Some n)) → sv_calls s !! n = Some c →
  ck_ID ck' = ck_ID ck → commSeq ck' = commSeq ck + 1 → calls_ok (end_call k ck' n c v s).
Proof.
  intros Hs Hk Hn Eid Eseq. split; [by eapply clerks_ok_end; [apply Hs|..]|].
  destruct (co_busy s Hs k _ n Hk eq_refl) as (c0 & Hc0 & Ecl). simplify_eq.
  destruct (co_state s Hs k _ n c Hk Hn Ecl) as [(_ & _ & Er0)|[[] _]]; [|done].
  pose proof (λ m c', end_call_cases s k ck' n c v m c' Hn) as Hco. split.
  - intros m c' (c0 & Hc0 & <- & <- & _ & _ & Hm)%Hco. simpl.
    destruct (co_times s Hs m c0 Hc0) as (H1 & H2 & H3). split; [lia|]. split; [done|].
    intros t v' d E. destruct Hm as [(_ & _ & Er)|[_ ->]]; [rewrite Er in E; simplify_eq; lia|].
    destruct (H3 t v' d E). lia.
  - intros m m' c1 c2 (d1 & Hd1 & _ & _ & <- & <- & Hm1)%Hco (d2 & Hd2 & _ & <- & <- & <- & _)%Hco E Hle.
    destruct (co_order s Hs m m' d1 d2 Hd1 Hd2 E Hle) as [|(Hlt & t & v' & d & Er & Hd)]; [by left|right].
    split; [done|]. exists t, v', d. split; [|done]. destruct Hm1 as [(_ & -> & _)|[_ ->]]; [congruence|done].
  - intros m m' c1 c2 t v' d (d1 & Hd1 & _ & _ & _ & _ & Hm1)%Hco (d2 & Hd2 & <- & <- & _)%Hco Er.
    destruct Hm1 as [(_ & _ & Er1)|[_ ->]]; [|exact (co_real s Hs _ _ _ _ _ _ _ Hd1 Hd2 Er)].
    rewrite Er1 in Er. simplify_eq. destruct (co_times s Hs m' d2 Hd2) as (Hlt & _). split; [lia|]. lia.
Qed.

Lemma requested_call s op : requested s op → ∃ n c, sv_calls s !! n = Some c ∧ c_op c = op.
Proof. intros (c & -> & (n & Hn)%list_elem_of_lookup)%list_elem_of_fmap. by exists n, c. Qed.

Lemma call_requested s n c : sv_calls s !! n = Some c → requested s (c_op c).
Proof. intros Hn. apply list_elem_of_fmap. exists c. split; [done|]. by eapply list_elem_of_lookup_2. Qed.

Lemma new_request_fresh s k ck q : calls_ok s →
  sv_clients s !! k = Some (MkClient ck None) → new_request ck q → ¬ requested s (req_op q).
Proof.
  intros Hs Hk [Eid Eseq] (n & c & Hc & E)%requested_call.
  destruct (co_state s Hs k _ n c Hk Hc) as [[? _]|(_ & Hlt & _)]; simpl in *; [|done|];
    unfold c_client, c_seq in *; rewrite E in *; [done|lia].
Qed.

(** ** The invariant *)

(** A call that returned [v] when the log had [d] entries: its request was in the log, and what a
    read returned was the value after some command from its request on. *)
Definition effect (l : list Op) (c : call) (v : string) (d : Z) : Prop :=
  ∃ k, k < d ∧ zlookup l k = Some (c_op c) ∧
    ∀ args, c_req c = inl args → ∃ j, k ≤ j ≤ d ∧ v = value_of (ks_rsm (at_index l j)) (GetKey args).

Record svc_ok (s : service) : Prop := {
  sk_calls : calls_ok s;
  sk_servers : servers_ok (sv_log s) (sv_sys s);
  sk_started : ∀ op, op_started (sy_cl (sv_sys s)) op → requested s op;
  sk_born : ∀ p n c, zlookup (sv_log s) p = Some (c_op c) → sv_calls s !! n = Some c → c_born c ≤ p;
  sk_gets : ∀ args r, (args, r) ∈ sv_gets s → GetWrongLeader r = false →
    result_ok (sv_log s) (commID (GetClientID args) (GetCommSeq args)) (GetValue r);
  sk_puts : ∀ args index r, (args, index, r) ∈ sv_puts s → PAWrongLeader r = false →
    index ≤ len (sv_log s);
  sk_done : ∀ n c t v d, sv_calls s !! n = Some c → c_ret c = Some (t, v, d) → effect (sv_log s) c v d;
}.

Lemma effect_grow l more c v d : d ≤ len l → effect l c v d → effect (l ++ more) c v d.
Proof.
  intros Hd (k & Hk & Hz & Hr). exists k. split; [done|]. split; [by apply zlookup_grow|].
  intros args E. destruct (Hr args E) as (j & Hj & Ev). exists j. split; [done|].
  by rewrite at_index_app by lia.
Qed.

Section steps.
Context (raftStateSize : gobbytes Op → Z).

(** The system moves, and the agreed log may grow. *)
Lemma svc_ok_sys s sys' more : svc_ok s →
  servers_ok (sv_log s ++ more) sys' →
  (∀ op, op_started (sy_cl sys') op → requested s op) → svc_ok (set_sys sys' (sv_log s ++ more) s).
Proof.
  intros [Hc Hs Hst Hb Hg Hp Hd] Hs' Hst'. pose proof (len_grow (sv_log s) more). split; simpl; try done.
  - by apply (calls_ok_grow s).
  - intros p n c Hz Hn. destruct (decide (p < len (sv_log s))) as [Hlt|].
    + rewrite zlookup_app_l in Hz by done. by eapply Hb.
    + destruct (co_times s Hc n c Hn) as (_ & ? & _). lia.
  - intros args r Hin Hw. by apply result_ok_grow, Hg.
  - intros args index r Hin Hw. pose proof (Hp _ _ _ Hin Hw). lia.
  - intros n c t v d Hn Er. apply effect_grow; [|by eapply Hd].
    destruct (co_times s Hc n c Hn) as (_ & _ & Ht). by destruct (Ht t v d Er).
Qed.

Lemma svc_ok_begin s k ck q : svc_ok s → raft_promise s →
  sv_clients s !! k = Some (MkClient ck None) → new_request ck q → svc_ok (begin_call k ck q s).
Proof.
  intros [Hc Hs Hst Hb Hg Hp Hd] Hraft Hk Hq. split; simpl; try done.
  - by apply calls_ok_begin.
  - intros op Hop%Hst. unfold requested in *. simpl. rewrite fmap_app. set_solver.
  - intros p n c Hz [Hn|[-> ->]]%lookup_snoc_cases; [by eapply Hb|]. exfalso.
    eapply new_request_fresh; [done..|]. apply Hst, (rp_log s Hraft). unfold zlookup in Hz.
    case_decide; [|done]. by eapply list_elem_of_lookup_2.
  - intros n c t v d [Hn|[-> ->]]%lookup_snoc_cases Er; [by eapply Hd|done].
Qed.

Lemma svc_ok_end s k ck n c v ck' : svc_ok s →
  sv_clients s !! k = Some (MkClient ck (Some n)) → sv_calls s !! n = Some c →
  ck_ID ck' = ck_ID ck → commSeq ck' = commSeq ck + 1 → effect (sv_log s) c v (len (sv_log s)) →
  svc_ok (end_call k ck' n c v s).
Proof.
  intros [Hc Hs Hst Hb Hg Hp Hd] Hk Hn E1 E2 Heff. split; simpl; try done.
  - by eapply calls_ok_end.
  - intros op Hop%Hst. unfold requested in *. simpl. rewrite list_fmap_insert.
    rewrite list_insert_id; [done|]. by rewrite list_lookup_fmap, Hn.
  - intros p m c' Hz [(-> & <- & _)|[_ Hm]]%list_lookup_insert_Some; [exact (Hb p _ c Hz Hn)|by eapply Hb].
  - intros m c' t v' d [(-> & <- & _)|[_ Hm]]%list_lookup_insert_Some Er; [|by eapply Hd].
    simpl in Er. by simplify_eq.
Qed.

(** What the loop of a clerk returns is one of the answers. *)
Lemma clerk_loop_answer {Args Reply} wrong err (zero : Reply) attempts ck (args : Args) ck' r sent :
  clerk_loop wrong err zero attempts ck args = Ok (ck', Some r, sent) →
  wrong r = false ∧ Some r ∈ attempts.*2 ∧ ck_ID ck' = ck_ID ck ∧ commSeq ck' = commSeq ck.
Proof.
  revert ck ck' sent. induction attempts as [|[rand answer] attempts IH]; intros ck ck' sent H; simpl in H; [done|].
  apply bind_Ok in H as (i & _ & H). case_match eqn:Ew.
  { apply bind_Ok in H as ([[ck1 r1] calls] & Hr & H). simplify_eq. apply IH in Hr as (? & ? & ? & ?).
    split_and!; try done. by right. }
  case_match.
  { apply bind_Ok in H as ([[ck1 r1] calls] & Hr & H). simplify_eq. apply IH in Hr as (? & ? & ? & ?).
    split_and!; try done. by right. }
  destruct answer as [reply|]; [|by rewrite orb_true_r in Ew]. simplify_eq. simpl in Ew.
  rewrite orb_false_r in Ew. split_and!; try done. by left.
Qed.

(** The three conditions of a run. *)
Record as_promised (s : service) : Prop := {
  ap_raft : raft_promise s;
  ap_own : acks_own s;
  ap_small : numbers_fit s;
}.

(** A read returns: the answer is that of the state after some command from its own on. *)
Lemma get_effect s k ck n c args attempts ck' v sent : svc_ok s → as_promised s →
  sv_clients s !! k = Some (MkClient ck (Some n)) → sv_calls s !! n = Some c → c_req c = inl args →
  (∀ r, Some r ∈ attempts.*2 → (args, r) ∈ sv_gets s) →
  ClerkGet ck (GetKey args) attempts = Ok (ck', Some v, sent) →
  ck_ID ck' = ck_ID ck ∧ commSeq ck' = commSeq ck + 1 ∧ effect (sv_log s) c v (len (sv_log s)).
Proof.
  intros Hs Hap Hk Hn Eq Hall H. unfold ClerkGet in H. apply bind_Ok in H as ([[ck1 r] calls] & Hl & H).
  destruct r as [r|]; simplify_eq/=. apply clerk_loop_answer in Hl as (Hw & Hr & E1 & E2).
  split; [done|]. split; [done|].
  destruct (sk_gets s Hs _ _ (Hall r Hr) Hw) as (p & j & op & Hz & Hg & Hid & Hj & Ev).
  assert (Hreq : requested s op).
  { apply (sk_started s Hs), (rp_log s (ap_raft s Hap)). unfold zlookup in Hz.
    case_decide; [|done]. by eapply list_elem_of_lookup_2. }
  apply requested_call in Hreq as (n' & c' & Hn' & <-). pose proof (sk_calls s Hs) as Hc.
  assert (Hrange : ∀ m d, sv_calls s !! m = Some d → is_i32 (c_client d) ∧ 0 ≤ c_seq d < 2 ^ 32).
  { intros m d Hm. destruct (co_owner s Hc m d Hm) as (Hsq & k0 & cl & Hcl & ->).
    destruct (co_client s Hc k0 cl Hcl) as [Hi _]. split; [done|]. split; [lia|].
    apply (ap_small s Hap). by eapply list_elem_of_lookup_2. }
  assert (c_client c = GetClientID args ∧ c_seq c = GetCommSeq args) as [Ecl Esq]
    by (unfold c_client, c_seq, c_op; by rewrite Eq).
  rewrite <- Ecl, <- Esq in Hid. destruct (Hrange n' c' Hn'), (Hrange n c Hn).
  apply commID_inj in Hid as [A B]; [|done..].
  assert (n' = n) as -> by by eapply calls_unique. simplify_eq.
  exists p. split; [apply zlookup_Some_lt in Hz; lia|]. split; [done|]. intros args' E. simplify_eq.
  exists j. split; [done|]. rewrite Ev. unfold c_op. by rewrite E.
Qed.
(** A write returns: its command is in the log. *)
Lemma put_effect s k ck n c args attempts ck' r sent : svc_ok s → as_promised s →
  sv_clients s !! k = Some (MkClient ck (Some n)) → sv_calls s !! n = Some c → c_req c = inr args →
  (∀ r, Some r ∈ attempts.*2 → ∃ index, (args, index, r) ∈ sv_puts s) →
  ClerkPutAppend ck (PAKey args) (PAValue args) (PAOp args) attempts = Ok (ck', Some r, sent) →
  ck_ID ck' = ck_ID ck ∧ commSeq ck' = commSeq ck + 1 ∧ effect (sv_log s) c EmptyString (len (sv_log s)).
Proof.
  intros Hs Hap Hk Hn Eq Hall H. apply clerk_loop_answer in H as (Hw & Hr & E1 & E2).
  split; [done|]. split; [done|]. destruct (Hall r Hr) as (index & Hin).
  destruct (ap_own s Hap _ _ _ Hin Hw) as [Hpos Hown]. pose proof (sk_puts s Hs _ _ _ Hin Hw).
  destruct (zlookup_lt_Some (sv_log s) (index - 1)) as [op Hop]; [lia|].
  rewrite (Hown op Hop) in Hop. exists (index - 1). split; [lia|]. unfold c_op. by rewrite Eq.
Qed.

Lemma svc_ok_step s s' :
  svc_step raftStateSize s s' → as_promised s → as_promised s' → svc_ok s → svc_ok s'.
Proof.
  intros Hstep Hap Hap' Hs. pose proof Hs as [Hc Hsv Hst Hb Hg Hp Hd].
  destruct Hstep as [sys' more Hsys Hreq|i nd p args kv' index Hi Hkv Hreq H|i nd p args index reply Hi Hkv Hin H
    |i nd p args reply Hi Hkv H|k ck key Hk|k ck key value op Hk|k ck n c args attempts ck' v sent Hk Hn Eq Hall H
    |k ck n c args attempts ck' r sent Hk Hn Eq Hall H].
  - apply svc_ok_sys; [done| |done]. eapply servers_ok_step; [by apply servers_ok_grow|done|].
    apply (rp_stream _ (ap_raft _ Hap')).
  - assert (Hs' : svc_ok (set_sys (set_server i nd p kv' (sv_sys s)) (sv_log s ++ []) s)).
    { apply svc_ok_sys; [done|rewrite app_nil_r; by eapply PutAppend_start_ok|].
      intros op [t Hop]. simpl in Hop. apply elem_of_app in Hop as [Hop|Hop]; [|apply Hst; by exists t].
      unfold PutAppend_start in H. apply bind_Ok in H as ([rf' [[a b] c]] & Ha & H). simplify_eq/=.
      rewrite (Start_entries _ _ _ _ _ _ Ha) in Hop. destruct c; [|by apply elem_of_nil in Hop].
      apply list_elem_of_singleton in Hop. by simplify_eq. }
    rewrite app_nil_r in Hs'. destruct Hs'. split; try done. eapply (calls_ok_grow (set_sys _ (sv_log s) s)); [..|done]; simpl; done || lia.
  - split; try done; [by apply (calls_ok_grow s)|]. intros a ix r [E|?]%elem_of_cons Hw; [|by eapply Hp]. simplify_eq.
    destruct (so_peers _ _ Hsv _ _ _ Hi Hkv) as [_ [Hcur _]]. simpl in H.
    case_match; [by simplify_eq|]. unfold kv_at in *. simpl in *. case_match eqn:El; [|done]. simpl. go_bools. lia.
  - split; try done; [by apply (calls_ok_grow s)|]. intros a r [E|?]%elem_of_cons Hw; [|by eapply Hg]. simplify_eq.
    destruct (so_peers _ _ Hsv _ _ _ Hi Hkv) as [_ Hk]. apply server_results in Hk. simpl in H.
    case_match; [by simplify_eq|]. simpl in H.
    destruct (resultMap (kn_kv (kp_node p)) !! _) as [w|] eqn:E; simplify_eq. by apply Hk.
  - by apply svc_ok_begin; [done|apply Hap|..].
  - by apply svc_ok_begin; [done|apply Hap|..].
  - destruct (get_effect s k ck n c args attempts ck' v sent) as (E1 & E2 & He); [done..|]. by eapply svc_ok_end.
  - destruct (put_effect s k ck n c args attempts ck' r sent) as (E1 & E2 & He); [done..|]. by eapply svc_ok_end.
Qed.
End steps.

(** ** From the invariant to the order *)

Section linearize.
Context (s : service) (Hs : svc_ok s) (Hap : as_promised s).

Lemma log_call p op : zlookup (sv_log s) p = Some op →
  ∃ n c, sv_calls s !! n = Some c ∧ c_op c = op ∧ c_born c ≤ p.
Proof.
  intros Hz. assert (requested s op) as (n & c & Hn & <-)%requested_call.
  { apply (sk_started s Hs), (rp_log s (ap_raft s Hap)). unfold zlookup in Hz.
    case_decide; [|done]. by eapply list_elem_of_lookup_2. }
  exists n, c. split_and!; try done. by eapply (sk_born s Hs).
Qed.

Lemma log_in_order : in_order (sv_log s).
Proof.
  intros q op r op' (Hz & Hf & Hw) Hr Hz' Hw' Ecl.
  destruct (log_call q op Hz) as (n & c & Hn & <- & _). destruct (log_call r op' Hz') as (n' & c' & Hn' & <- & Hb).
  destruct (decide (c_seq c ≤ c_seq c')) as [Hle|]; [|unfold c_seq in *; lia]. exfalso. apply Hf.
  apply elem_of_take_zlookup. pose proof (zlookup_Some_lt _ _ _ Hz').
  destruct (co_order s (sk_calls s Hs) n n' c c' Hn Hn') as [->|(_ & t & v & d & Er & Hd)]; [done|done| |].
  - simplify_eq. exists r. split; [lia|done].
  - destruct (sk_done s Hs n c t v d Hn Er) as (k & Hk & Hkz & _). exists k.
    apply zlookup_Some_lt in Hkz as ?. split; [lia|done].
Qed.

(** The calls that have taken effect. *)
Definition effective (c : call) : Prop :=
  is_Some (c_ret c) ∨ (c_ret c = None ∧ is_write c ∧ c_op c ∈ sv_log s).

Lemma call_point n c : sv_calls s !! n = Some c → effective c → ∃ k, point_ok (sv_log s) (sv_now s) (c, k).
Proof.
  intros Hn He. destruct (co_times s (sk_calls s Hs) n c Hn) as (Ht & Hb & Hret).
  destruct (co_owner s (sk_calls s Hs) n c Hn) as (Hsq & _).
  assert (∃ k, zlookup (sv_log s) k = Some (c_op c) ∧ ∀ t v d, c_ret c = Some (t, v, d) → k < d) as (k & Hk & Hkd).
  { destruct He as [[[[t v] d] Er]|(Er & _ & Hin)].
    - destruct (sk_done s Hs n c t v d Hn Er) as (k & ? & ? & _). exists k. split; [done|]. intros. by simplify_eq.
    - apply list_elem_of_lookup in Hin as (i & Hi). exists (Z.of_nat i). rewrite zlookup_nat.
      split; [done|]. intros t v d E. congruence. }
  destruct (c_req c) as [args|args] eqn:Eq.
  - destruct He as [[[[t v] d] Er]|(_ & Hw & _)]; [|by destruct Hw; unfold c_op; rewrite Eq].
    destruct (sk_done s Hs n c t v d Hn Er) as (k' & Hk' & Hz & Hr). destruct (Hr args Eq) as (j & Hj & Ev).
    pose proof (sk_born s Hs k' n c Hz Hn). destruct (Hret t v d Er). apply zlookup_Some_lt in Hz as ?.
    exists (2 * j - 1). split; [done|]. split; [lia|]. split; [lia|]. split; [done|]. split.
    + intros t' v' d' E. rewrite Er in E. simplify_eq. lia.
    + right. exists j, args, t, v, d. split_and!; try done; lia.
  - destruct (first_copy (sv_log s) _ _ Hk) as (q & Hq & Hz & Hf).
    pose proof (sk_born s Hs q n c Hz Hn). exists (2 * q). split; [done|]. split; [lia|]. split; [lia|]. split; [done|].
    split; [|left; exists q; split; [done|]; split; [done|]; split; [done|]; unfold c_op; rewrite Eq; simpl; by case_bool_decide].
    intros t v d Er. pose proof (Hkd _ _ _ Er). destruct (Hret _ _ _ Er). lia.
Qed.

Lemma choose_points cs : (∀ c, c ∈ cs → ∃ k, point_ok (sv_log s) (sv_now s) (c, k)) →
  ∃ xs, xs.*1 = cs ∧ Forall (point_ok (sv_log s) (sv_now s)) xs.
Proof.
  induction cs as [|c cs IH]; intros H; [by exists []|].
  destruct IH as (xs & E & Hx); [intros; apply H; by right|]. destruct (H c ltac:(by left)) as (k & Hk).
  exists ((c, k) :: xs). split; [by rewrite fmap_cons, E|by constructor].
Qed.

Lemma filter_disjoint {A} (P Q : A → Prop) `{∀ x, Decision (P x), ∀ x, Decision (Q x)} (l : list A) :
  (∀ x, P x → Q x → False) → filter (λ x, P x ∨ Q x) l ≡ₚ filter P l ++ filter Q l.
Proof.
  intros Hd. induction l as [|x l IH]; [done|]. rewrite !filter_cons.
  destruct (decide (P x)), (decide (Q x)); repeat case_decide; try naive_solver; simpl; rewrite IH; try done.
  by rewrite Permutation_middle.
Qed.

Lemma effective_history :
  to_op (sv_now s) <$> filter effective (sv_calls s) ≡ₚ history s ++ under_way s.
Proof.
  unfold history, under_way. rewrite <- fmap_app. apply fmap_Permutation. unfold effective.
  apply filter_disjoint. intros c [? E] [E' _]. congruence.
Qed.

Lemma calls_NoDup : NoDup (sv_calls s).
Proof.
  apply NoDup_alt. intros n n' c Hn Hn'. by eapply (calls_unique s n n' c c (sk_calls s Hs)).
Qed.

Lemma service_linearizable : linearizable store_step ∅ (history s ++ under_way s).
Proof.
  destruct (choose_points (filter effective (sv_calls s))) as (xs & Exs & Hx).
  { intros c [He (n & Hn)%list_elem_of_lookup]%list_elem_of_filter. by eapply call_point. }
  assert (Hin : ∀ x, x ∈ xs → ∃ n, sv_calls s !! n = Some x.1).
  { intros x Hx'. apply list_elem_of_lookup. assert (x.1 ∈ xs.*1) as Hf by (by apply list_elem_of_fmap_2).
    rewrite Exs in Hf. by apply list_elem_of_filter in Hf as [_ ?]. }
  set (ys := merge_sort point_le xs).
  assert (Hp : ys ≡ₚ xs) by apply merge_sort_Permutation.
  exists (point_op (sv_now s) <$> ys). split_and!.
  - unfold point_op. rewrite Hp, <- effective_history, <- Exs, <- list_fmap_compose. done.
  - apply (points_real_time (sv_log s)); [by apply StronglySorted_merge_sort; apply _|by rewrite Hp|].
    intros x y t v d Hx1 Hy1 Er Hlt. rewrite Hp in Hx1, Hy1. destruct (Hin x Hx1) as (n & Hn), (Hin y Hy1) as (n' & Hn').
    by apply (co_real s (sk_calls s Hs) n n' x.1 y.1 t v d Hn Hn' Er).
  - apply (points_legal (sv_log s) (sv_now s) ys ∅ 0); try done.
    + apply log_in_order.
    + pose proof (len_nonneg (sv_log s)). lia.
    + by apply StronglySorted_merge_sort; apply _.
    + by rewrite Hp.
    + intros x y Hx1 Hy1 E. rewrite Hp in Hx1, Hy1. destruct (Hin x Hx1) as (n & Hn), (Hin y Hy1) as (n' & Hn').
      assert (n = n') as ->; [|by simplify_eq].
      eapply (calls_unique s); [apply Hs|exact Hn|exact Hn'|..]; unfold c_client, c_seq; by rewrite E.
    + rewrite Hp, Exs. apply NoDup_filter, calls_NoDup.
    + rewrite Hp. eapply Forall_impl; [done|]. intros [c k]. simpl. lia.
    + intros q op _ Hf. pose proof Hf as (Hz & Hfirst & Hw). destruct (log_call q op Hz) as (n & c & Hn & <- & _).
      assert (c ∈ xs.*1) as ([c' k] & -> & Hck)%list_elem_of_fmap.
      { rewrite Exs. apply list_elem_of_filter. split; [|by eapply list_elem_of_lookup_2].
        destruct (c_ret c) eqn:Er; [left; by rewrite Er|right]. split_and!; try done.
        unfold zlookup in Hz. case_decide; [|done]. by eapply list_elem_of_lookup_2. }
      simpl in *. exists (c', k). rewrite Hp. split; [done|]. simpl. rewrite Forall_forall in Hx.
      destruct (Hx _ Hck) as (_ & _ & _ & _ & _ & [(q' & -> & Hf')|(j & args & t & v & d & _ & _ & Eq & _)]).
      * assert (q' = q); [|lia]. eapply first_write_unique; done.
      * destruct Hw. unfold c_op. by rewrite Eq.
Qed.
End linearize.

(** ** Executions *)

Section executions.
Variable raftStateSize : gobbytes Op → Z.

Lemma start_servers_new n max ids kns :
  start_servers raftStateSize n max ids = Ok kns →
  Forall (λ kn, server_ok [] kn [] ∧ applyCh (kv_rf (kn_kv kn)) = []) kns.
Proof.
  revert kns. induction ids as [|i ids IH]; intros kns H; cbn [start_servers] in H; [by simplify_eq|].
  apply bind_Ok in H as (kn & Hkn & H). apply bind_Ok in H as (kns' & Hr & H). simplify_eq.
  constructor; [|by apply IH]. pose proof (server_start raftStateSize [] _ _ _ _ _ Hkn) as Hok.
  assert (applyCh (kv_rf (kn_kv kn)) = []) as E by (vm_compute in Hkn; by simplify_eq).
  by rewrite E in Hok.
Qed.

Lemma start_service_ok n max rs s0 :
  start_service raftStateSize n max rs = Ok s0 → NoDup (i32 <$> rs) → svc_ok s0 ∧ as_promised s0.
Proof.
  intros H Hnd. unfold start_service, start_sys in H. apply bind_Ok in H as (sys & H & H0).
  apply bind_Ok in H as (kns & Hk & H). apply start_servers_new in Hk. simplify_eq.
  rewrite Forall_forall in Hk.
  assert (Hnode : ∀ i nd, zlookup ((λ kn, RaftRole.MkNode (kv_rf (kn_kv kn)) AtTop [] []) <$> kns) i = Some nd →
    ∃ kn, zlookup kns i = Some kn ∧ kn ∈ kns ∧ nd = RaftRole.MkNode (kv_rf (kn_kv kn)) AtTop [] []).
  { intros i nd. unfold zlookup. case_decide; [|done]. rewrite list_lookup_fmap.
    intros (kn & Hi & ->)%fmap_Some. exists kn. split_and!; try done. by eapply list_elem_of_lookup_2. }
  split; [split; simpl; try done|split; simpl; try done].
  - assert (Hcl : ∀ k cl, ((λ r, MkClient (MakeClerk n r) None) <$> rs) !! k = Some cl →
      ∃ r, rs !! k = Some r ∧ cl = MkClient (MakeClerk n r) None).
    { intros k cl. rewrite list_lookup_fmap. by intros (r & Hr & ->)%fmap_Some; exists r. }
    split; split; simpl; try done.
    + intros k k' cl cl' (r & Hr & ->)%Hcl (r' & Hr' & ->)%Hcl E. simpl in E.
      eapply (NoDup_lookup (i32 <$> rs)); [done|by rewrite list_lookup_fmap, Hr|].
      by rewrite list_lookup_fmap, Hr', E.
    + intros k cl (r & _ & ->)%Hcl. split; [apply i32_range|done].
    + by intros k cl m (r & _ & ->)%Hcl.
  - split; [|by intros c seqs rsm Hin%elem_of_nil]. simpl. intros i nd p (kn & Hi & Hin & ->)%Hnode Hp.
    unfold zlookup in *. case_decide; [|done]. rewrite list_lookup_fmap, Hi in Hp. simplify_eq/=.
    destruct (Hk kn Hin) as [Hok E]. unfold peer_ok. simpl. by rewrite E.
  - by intros op [t Hop%elem_of_nil].
  - by intros args r Hin%elem_of_nil.
  - by intros args index r Hin%elem_of_nil.
  - split; simpl; [by intros op Hop%elem_of_nil|]. intros i nd (kn & _ & Hin & ->)%Hnode. simpl.
    destruct (Hk kn Hin) as [_ ->]. eexists. constructor.
  - by intros args index r Hin%elem_of_nil.
  - by intros c Hin%elem_of_nil.
Qed.

Lemma service_reachable n max rs s0 s :
  start_service raftStateSize n max rs = Ok s0 → NoDup (i32 <$> rs) →
  rtc (promised_step raftStateSize) s0 s → svc_ok s ∧ as_promised s.
Proof.
  intros H0 Hnd Hr. destruct (start_service_ok _ _ _ _ H0 Hnd) as [Hs Hap].
  clear H0. induction Hr as [|s1 s2 s3 [Hstep ???] _ IH]; [done|].
  assert (as_promised s2) by done. apply IH; [|done].
  by eapply svc_ok_step.
Qed.

Lemma history_timed s : svc_ok s → timed (history s).
Proof.
  intros Hs. assert (Hin : ∀ o, o ∈ history s → ∃ n c t v d, sv_calls s !! n = Some c ∧
    c_ret c = Some (t, v, d) ∧ Call o = c_time c ∧ Return o = t).
  { intros o (c & -> & [[[[t v] d] Er] (n & Hn)%list_elem_of_lookup]%list_elem_of_filter)%list_elem_of_fmap.
    exists n, c, t, v, d. unfold to_op. by rewrite Er. }
  split.
  - intros o (n & c & t & v & d & Hn & Er & -> & ->)%Hin.
    destruct (co_times s (sk_calls s Hs) n c Hn) as (_ & _ & Hr). destruct (Hr t v d Er). lia.
  - intros a b (n & c & t & v & d & Hn & Er & _ & ->)%Hin (n' & c' & ? & ? & ? & Hn' & _ & -> & _)%Hin.
    exact (proj1 (co_real s (sk_calls s Hs) n n' c c' t v d Hn Hn' Er)).
Qed.

(** C1. The key/value service is linearizable if three things hold in every state of the run, which
    the code does not ensure by itself.  [raft_promise]: there is one log of started commands that
    every peer hands its server, in order, snapshots standing for a part of it.  [acks_own]: a
    [PutAppend] that was acknowledged had a positive index from [Start], which the handler does not
    check, and if a command is agreed on at that index it is its own.  [numbers_fit]: request
    numbers are below 2^32.  Besides, the clerks have different identifiers.  Then, whatever the
    network loses, delays, repeats or reorders, wherever servers crash, whenever snapshots are taken
    and installed, and however often clerks repeat their requests: all calls that have returned,
    together with the writes under way that the log already has, can be put in an order that the
    store accepts and in which no call comes before one that had returned when it was made. *)
Theorem kv_linearizable n max rs s0 s :
  start_service raftStateSize n max rs = Ok s0 → NoDup (i32 <$> rs) →
  rtc (promised_step raftStateSize) s0 s →
  linearizable store_step ∅ (history s ++ under_way s) ∧ timed (history s).
Proof.
  intros H0 Hnd Hr. destruct (service_reachable _ _ _ _ _ H0 Hnd Hr) as [Hs Hap].
  split; [by apply service_linearizable|by apply history_timed].
Qed.

(** C3. So the check at the end of [GenericTestLinearizability] passes on such a run: under the same
    three conditions ([raft_promise], [acks_own], [numbers_fit], in every state) and with clerks of
    different identifiers, once all calls have returned, [CheckOperationsTimeout] with the key/value
    model answers [true] on their history, whatever time it is given, whether all searches report or
    the time is up before, and in whatever order they report. *)
Theorem service_passes_check n max rs s0 s sort map_order fuel timeout arrivals :
  start_service raftStateSize n max rs = Ok s0 → NoDup (i32 <$> rs) →
  rtc (promised_step raftStateSize) s0 s →
  Forall (λ c, is_Some (c_ret c)) (sv_calls s) → sv_calls s ≠ [] →
  sorts sort → map_orders map_order → (check_fuel (base.length (history s)) ≤ fuel)%nat →
  can_arrive (base.length (partitions (KvModel map_order) (history s))) timeout arrivals →
  CheckOperationsTimeout sort fuel (KvModel map_order) (history s) timeout arrivals = Ok (Some true).
Proof.
  intros H0 Hnd Hr Hret Hne Hsort Horder Hfuel Harr.
  destruct (service_reachable _ _ _ _ _ H0 Hnd Hr) as [Hs Hap].
  assert (under_way s = []) as Hu.
  { unfold under_way. destruct (filter _ (sv_calls s)) as [|c cs] eqn:E; [done|].
    assert (c ∈ c :: cs) as Hc by by left. rewrite <- E in Hc. apply list_elem_of_filter in Hc as [[Er _] Hc].
    rewrite Forall_forall in Hret. destruct (Hret c Hc). congruence. }
  pose proof (service_linearizable s Hs Hap) as Hlin. rewrite Hu, app_nil_r in Hlin.
  apply store_check_timeout; try done; [by apply history_timed|].
  unfold history. rewrite filter_all by by rewrite <- Forall_forall. by destruct (sv_calls s).
Qed.
End executions.

(** ** Witness: a write and a read, with the promise checked in every state of the run *)

Fixpoint followsb (l : list Op) (a : Z) (ms : list (ApplyMsg Op)) : bool :=
  match ms with
  | [] => true
  | m :: ms =>
      CommandValid m && bool_decide (zlookup l a = ApplyCommand m ∧ is_Some (ApplyCommand m)) &&
      (CommandIndex m =? a + 1) && bool_decide (ClientMaxRequestSeq m = ∅ ∧ Rsm m = ∅) &&
      followsb l (a + 1) ms
  end.

Lemma followsb_sound l T a ms : followsb l a ms = true → ∃ b, follows l T a ms b.
Proof.
  revert a. induction ms as [|[v c i sq rs] ms IH]; intros a H; [eexists; constructor|]. simpl in H.
  apply andb_true_iff in H as [H Hms]. repeat apply andb_true_iff in H as [H ?]. destruct (IH _ Hms) as (b & Hb).
  go_bools. repeat match goal with H : bool_decide _ = true |- _ => apply bool_decide_eq_true in H end.
  destruct H2 as [E [op Hop]], H0 as [E1 E2]. subst. exists b. rewrite Hop. by apply fo_command.
Qed.

Definition startedb (cl : cluster Op) (op : Op) : bool :=
  existsb (λ e, bool_decide (Command e = Some op)) (started cl).

Definition promiseb (s : service) : bool :=
  forallb (startedb (sy_cl (sv_sys s))) (sv_log s) &&
  forallb (λ nd, followsb (sv_log s) 0 (applyCh (nd_rf nd))) (nodes (sy_cl (sv_sys s))) &&
  forallb (λ '(args, index, reply), PAWrongLeader reply ||
    (0 <? index) && bool_decide (zlookup (sv_log s) (index - 1) = Some (pa_op args))) (sv_puts s) &&
  forallb (λ c, ProposalID (c_op c) <? 2 ^ 32) (sv_calls s).

Lemma promiseb_sound s : promiseb s = true → as_promised s.
Proof.
  unfold promiseb. intros H. repeat apply andb_true_iff in H as [H ?]. rewrite !forallb_forall in *.
  setoid_rewrite <- list_elem_of_In in H. repeat match goal with H : ∀ x, In x _ → _ |- _ => setoid_rewrite <- list_elem_of_In in H end.
  split; [split|..].
  - intros op Hop. specialize (H op Hop). unfold startedb in H. apply existsb_exists in H as (e & He & E).
    apply bool_decide_eq_true in E. apply list_elem_of_In in He. destruct e as [o t]. simpl in E. subst. by exists t.
  - intros i nd Hi. eapply followsb_sound, H2. unfold zlookup in Hi. case_decide; [|done]. by eapply list_elem_of_lookup_2.
  - intros args index reply Hin Hw. specialize (H1 _ Hin). simpl in H1. rewrite Hw in H1. simpl in H1.
    apply andb_true_iff in H1 as [Hpos E]. apply bool_decide_eq_true in E. go_bools. split; [done|]. intros op Hop. congruence.
  - intros c Hc. specialize (H0 c Hc). by apply Z.ltb_lt.
Qed.

Definition requestedb (s : service) (sys : kvsys) : bool :=
  forallb (λ e, match Command e with
                | Some op => bool_decide (op ∈ c_op <$> sv_calls s)
                | None => true
                end) (started (sy_cl sys)).

Lemma requestedb_sound s sys op : requestedb s sys = true → op_started (sy_cl sys) op → requested s op.
Proof.
  unfold requestedb. intros H [t Hop]. rewrite forallb_forall in H.
  specialize (H (MkCT (Some op) t) (proj1 (list_elem_of_In _ _) Hop)). simpl in H. by apply bool_decide_eq_true in H.
Qed.

Section checked.
Context (size : gobbytes Op → Z).

Lemma checked_step s s' : svc_step size s s' → promiseb s' = true → promised_step size s s'.
Proof. intros Hs [? ? ?]%promiseb_sound. by split. Qed.

Lemma checked_sys s sys' more :
  kvsys_step size (sv_sys s) sys' → requestedb s sys' = true →
  promiseb (set_sys sys' (sv_log s ++ more) s) = true →
  promised_step size s (set_sys sys' (sv_log s ++ more) s).
Proof.
  intros Hs Hr Hp. apply checked_step; [|done]. constructor; [done|]. intros op. by apply requestedb_sound.
Qed.
End checked.

(** One step of the system, with what it adds to the agreed log; one step of a handler or a clerk. *)
Local Ltac into_net ::= eapply kc_net.
Local Ltac sys_step more tac :=
  eapply rtc_l; [eapply (checked_sys _ _ _ more); [solve [tac]|at_peer|at_peer]|vm_compute].
Local Ltac run_step tac ::= sys_step (@nil Op) tac.
Local Ltac svc tac := eapply rtc_l; [eapply checked_step; [solve [tac]|at_peer]|vm_compute].

Local Ltac run_commit op fs :=
  sys_step [op] ltac:(eapply kc_net; eapply (cs_local _ 0);
    [at_peer|eapply (st_flight_done _ _ _ _ fs _ _ _ (Some (_, []))); [answered|at_peer..]]).
Local Ltac run_receive := run_step ltac:(eapply (kc_receive _ _ 0); [at_peer|at_peer|at_peer|at_peer]).
Local Ltac clerk_answered :=
  intros r Hr; apply list_elem_of_singleton in Hr; injection Hr as ->;
  first [apply list_elem_of_here|eexists; apply list_elem_of_here].

Definition lin_put : Op := MkOp 77 1 PutType "x" "a".
Definition lin_get : Op := MkOp 5 1 GetType "x" "".

Definition lin_history : list kv_op :=
  [MkOperation (MkKvInput 1 "x" "a") 0 (MkKvOutput "") 1;
   MkOperation (MkKvInput 0 "x" "") 2 (MkKvOutput "a") 3].

(** Clerk 77 writes ["x"], then clerk 5 reads it. *)
Lemma lin_run : ∃ s0 s, start_service (λ _, 100) 3 (-1) [77; 5] = Ok s0 ∧
  rtc (promised_step (λ _, 100)) s0 s ∧ history s = lin_history ∧
  sv_calls s ≠ [] ∧ Forall (λ c, is_Some (c_ret c)) (sv_calls s).
Proof.
  eexists _, _. split; [at_peer|]. split.
  { run_candidate 0. run_timeout 0. run_candidate 0. run_ask 0. run_vote 1. run_elected 0 1.
    svc ltac:(eapply (ss_put _ _ 0 _ "x" "a" "Put"); at_peer).
    svc ltac:(eapply (ss_put_start _ _ 0 _ _ (MkPAArgs "x" "a" "Put" 77 1)); [at_peer|at_peer|by apply list_elem_of_here|at_peer]).
    run_distribute 0. run_send 0 0%nat. run_append 1. run_commit lin_put uconstr:([]). run_receive.
    svc ltac:(eapply (ss_put_answer _ _ 0); [at_peer|at_peer|by apply list_elem_of_here|at_peer]).
    svc ltac:(eapply (ss_put_return _ _ 0 _ 0 _ _ [(0, Some (MkPAReply false ""))]); [at_peer..|clerk_answered|at_peer]).
    svc ltac:(eapply (ss_get _ _ 1 _ "x"); at_peer).
    run_step ltac:(eapply (kc_Get _ _ 0 _ _ (MkGetArgs 5 1 "x")); at_peer).
    run_distribute 0. run_send 0 1%nat. run_append 1. run_commit lin_get uconstr:([_]). run_receive.
    svc ltac:(eapply (ss_get_answer _ _ 0 _ _ (MkGetArgs 5 1 "x")); at_peer).
    svc ltac:(eapply (ss_get_return _ _ 1 _ 1 _ _ [(0, Some (MkGetReply false "" "a"))]); [at_peer..|clerk_answered|at_peer]).
    apply rtc_refl. }
  split; [at_peer|]. split; [done|]. by repeat constructor.
Qed.

Lemma clerks_differ : NoDup (i32 <$> [77; 5]).
Proof. by repeat constructor; set_solver. Qed.

Lemma kv_linearizable_witness : ∃ s, history s = lin_history ∧
  linearizable store_step ∅ (history s ++ under_way s).
Proof.
  destruct lin_run as (s0 & s & H0 & Hr & Hh & _). exists s. split; [done|].
  exact (proj1 (kv_linearizable (λ _, 100) 3 (-1) [77; 5] s0 s H0 clerks_differ Hr)).
Defined.

(** The search has a minute. *)
Lemma service_passes_check_witness :
  CheckOperationsTimeout sort_time (check_fuel 2) (KvModel kv_order) lin_history 60 [Result 0] = Ok (Some true).
Proof.
  destruct lin_run as (s0 & s & H0 & Hr & Hh & Hne & Hret). rewrite <- Hh.
  apply (service_passes_check (λ _, 100) 3 (-1) [77; 5] s0 s); try done.
  - apply clerks_differ.
  - apply sort_time_sorts.
  - by intros m.
  - by rewrite Hh.
  - rewrite Hh. exists [0%nat]. split; [|left; split; [done|vm_compute; done]].
    intros i ->%list_elem_of_singleton. vm_compute. lia.
Defined.
