(* ===== verification/GoLib.v ===== *)
(** * What the MapReduce code uses of Go's standard library: [sort.Strings], [strconv.Itoa]
    and [strconv.Atoi], UTF-8 as [unicode/utf8] decodes it, [strings.FieldsFunc], the
    32-bit FNV-1a hash, and the strings that [encoding/json] can carry. *)

From stdpp Require Import pretty.
From S2P Require Import Prelude.

(** ** Sorting strings *)

Definition sort_strings (l : list string) : list string := merge_sort String.le l.

Lemma sort_strings_Permutation l : sort_strings l ≡ₚ l.
Proof. apply merge_sort_Permutation. Qed.

Lemma sort_strings_perm_eq l1 l2 : l1 ≡ₚ l2 → sort_strings l1 = sort_strings l2.
Proof.
  intros H. apply (StronglySorted_unique String.le); [apply StronglySorted_merge_sort; apply _..|].
  by rewrite !sort_strings_Permutation.
Qed.

(** ** Numbers *)

Definition Itoa (n : Z) : string := pretty n.

Definition byte (a : Ascii.ascii) : Z := Z.of_N (Ascii.N_of_ascii a).
Definition is_digit (a : Ascii.ascii) : bool := (48 <=? byte a) && (byte a <=? 57).

Definition digits_value (l : list Ascii.ascii) : option Z :=
  if forallb is_digit l && negb (bool_decide (l = []))
  then Some (foldl (λ n a, 10 * n + (byte a - 48)) 0 l) else None.

(** An optional sign and digits, within 64 bits. *)
Definition Atoi (s : string) : option Z :=
  n ← (match String.list_ascii_of_string s with
       | a :: l => if byte a =? 45 then Z.opp <$> digits_value l
                   else if byte a =? 43 then digits_value l else digits_value (a :: l)
       | [] => None
       end);
  if (- 2 ^ 63 <=? n) && (n <? 2 ^ 63) then Some n else None.

(** ** UTF-8 *)

Definition RuneError : Z := 0xFFFD.

Definition within (lo hi : Z) (a : Ascii.ascii) : bool := (lo <=? byte a) && (byte a <=? hi).
Definition low6 (a : Ascii.ascii) : Z := Z.land (byte a) 0x3F.

(** [utf8.DecodeRune]: the rune and its width; a wrong byte is a [RuneError] of width 1. *)
Definition DecodeRune (l : list Ascii.ascii) : Z * nat :=
  match l with
  | [] => (RuneError, 0%nat)
  | a :: l =>
      if within 0x00 0x7F a then (byte a, 1%nat)
      else if within 0xC2 0xDF a then
        match l with
        | b :: _ => if within 0x80 0xBF b
                    then (Z.lor (Z.shiftl (Z.land (byte a) 0x1F) 6) (low6 b), 2%nat)
                    else (RuneError, 1%nat)
        | _ => (RuneError, 1%nat)
        end
      else if within 0xE0 0xEF a then
        let lo := if byte a =? 0xE0 then 0xA0 else 0x80 in
        let hi := if byte a =? 0xED then 0x9F else 0xBF in
        match l with
        | b :: c :: _ => if within lo hi b && within 0x80 0xBF c
                         then (Z.lor (Z.shiftl (Z.land (byte a) 0x0F) 12)
                                 (Z.lor (Z.shiftl (low6 b) 6) (low6 c)), 3%nat)
                         else (RuneError, 1%nat)
        | _ => (RuneError, 1%nat)
        end
      else if within 0xF0 0xF4 a then
        let lo := if byte a =? 0xF0 then 0x90 else 0x80 in
        let hi := if byte a =? 0xF4 then 0x8F else 0xBF in
        match l with
        | b :: c :: d :: _ =>
            if within lo hi b && within 0x80 0xBF c && within 0x80 0xBF d
            then (Z.lor (Z.shiftl (Z.land (byte a) 0x07) 18)
                    (Z.lor (Z.shiftl (low6 b) 12) (Z.lor (Z.shiftl (low6 c) 6) (low6 d))), 4%nat)
            else (RuneError, 1%nat)
        | _ => (RuneError, 1%nat)
        end
      else (RuneError, 1%nat)
  end.

(** The bytes of U+FFFD. *)
Definition error_bytes : list Ascii.ascii :=
  [Ascii.ascii_of_N 0xEF; Ascii.ascii_of_N 0xBF; Ascii.ascii_of_N 0xBD].

(** What is left of a string that goes through JSON: wrong bytes are replaced. *)
Fixpoint valid_bytes (fuel : nat) (l : list Ascii.ascii) : list Ascii.ascii :=
  match fuel, l with
  | S fuel, _ :: _ =>
      let '(r, w) := DecodeRune l in
      (if (r =? RuneError) && bool_decide (w = 1%nat) then error_bytes else take w l)
        ++ valid_bytes fuel (drop w l)
  | _, _ => []
  end.
Definition ToValid (s : string) : string :=
  let l := String.list_ascii_of_string s in
  String.string_of_list_ascii (valid_bytes (length l) l).

(** ** [strings.FieldsFunc] *)

(** [cur] is the field being read. *)
Fixpoint fields (f : Z → bool) (fuel : nat) (l cur : list Ascii.ascii) : list (list Ascii.ascii) :=
  let close := if bool_decide (cur = []) then [] else [cur] in
  match fuel, l with
  | S fuel, _ :: _ =>
      let '(r, w) := DecodeRune l in
      if f r then close ++ fields f fuel (drop w l) []
      else fields f fuel (drop w l) (cur ++ take w l)
  | _, _ => close
  end.
Definition FieldsFunc (s : string) (f : Z → bool) : list string :=
  let l := String.list_ascii_of_string s in
  String.string_of_list_ascii <$> fields f (length l) l [].

(** ** FNV-1a *)

Definition fnv32a (s : string) : Z :=
  foldl (λ h a, (Z.lxor h (byte a) * 16777619) mod 2 ^ 32) 2166136261 (String.list_ascii_of_string s).

(** ** Numbers in names *)

Fixpoint no_char (c : Ascii.ascii) (s : string) : Prop :=
  match s with EmptyString => True | String a s => a ≠ c ∧ no_char c s end.

(** A separator that does not occur before it is found. *)
Lemma split_at_char c s1 s2 t1 t2 :
  no_char c s1 → no_char c t1 →
  s1 +:+ String c s2 = t1 +:+ String c t2 → s1 = t1 ∧ s2 = t2.
Proof.
  revert t1. induction s1 as [|a s1 IH]; intros [|b t1]; simpl; intros H1 H2 E.
  - unfold String.app in E. simpl in E. injection E as ->. done.
  - unfold String.app in E. simpl in E. injection E as -> _. by destruct H2.
  - unfold String.app in E. simpl in E. injection E as -> _. by destruct H1.
  - destruct H1 as [_ H1], H2 as [_ H2]. injection E as -> E. destruct (IH t1 H1 H2 E) as [-> ->]. done.
Qed.

Lemma pretty_N_go_no_char c x s :
  is_digit c = false → no_char c s → no_char c (pretty_N_go x s).
Proof.
  intros Hc. revert s. induction (N.lt_wf_0 x) as [x _ IH]; intros s Hs.
  assert (x = 0 ∨ 0 < x)%N as [->|Hx] by lia; [by rewrite pretty_N_go_0|].
  rewrite pretty_N_go_step by done. apply IH; [by apply N.div_lt|]. split; [|done].
  intros <-. revert Hc. unfold pretty_N_char. by repeat case_match.
Qed.

Lemma Itoa_no_char c n : 0 ≤ n → is_digit c = false → no_char c (Itoa n).
Proof.
  intros Hn Hc. unfold Itoa, pretty, pretty_Z. destruct n as [|p|p]; [|by apply pretty_N_go_no_char|lia].
  split; [|done]. by intros <-.
Qed.

Lemma Itoa_inj m n : Itoa m = Itoa n → m = n.
Proof. apply pretty_Z_inj. Qed.

(** ** Valid strings *)

(** A sequence of well-formed runes. *)
Inductive utf8 : list Ascii.ascii → Prop :=
| utf8_nil : utf8 []
| utf8_rune seg l r :
    (r ≠ RuneError ∨ length seg ≠ 1%nat) → seg ≠ [] →
    (∀ rest, DecodeRune (seg ++ rest) = (r, length seg)) → utf8 l → utf8 (seg ++ l).

Definition ValidString (s : string) : Prop := utf8 (String.list_ascii_of_string s).

Lemma DecodeRune_stable l r w :
  DecodeRune l = (r, w) → l ≠ [] → (r ≠ RuneError ∨ w ≠ 1%nat) →
  length (take w l) = w ∧ take w l ≠ [] ∧ ∀ rest, DecodeRune (take w l ++ rest) = (r, w).
Proof.
  intros E Hl Hr. destruct l as [|a l]; [done|]. unfold DecodeRune in E.
  destruct (within 0x00 0x7F a) eqn:E1.
  { injection E as <- <-. split_and!; [done|done|]. intros rest. simpl. by rewrite E1. }
  destruct (within 0xC2 0xDF a) eqn:E2.
  { destruct l as [|b l]; [injection E as <- <-; naive_solver|].
    destruct (within 0x80 0xBF b) eqn:Eb; [|injection E as <- <-; naive_solver].
    injection E as <- <-. split_and!; [done|done|]. intros rest. simpl. by rewrite E1, E2, Eb. }
  destruct (within 0xE0 0xEF a) eqn:E3.
  { destruct l as [|b [|c l]]; [injection E as <- <-; naive_solver..|].
    destruct (within _ _ b && within _ _ c) eqn:Eb; [|injection E as <- <-; naive_solver].
    injection E as <- <-. split_and!; [done|done|]. intros rest. simpl. by rewrite E1, E2, E3, Eb. }
  destruct (within 0xF0 0xF4 a) eqn:E4; [|injection E as <- <-; naive_solver].
  destruct l as [|b [|c [|d l]]]; [injection E as <- <-; naive_solver..|].
  destruct (within _ _ b && within _ _ c && within _ _ d) eqn:Eb; [|injection E as <- <-; naive_solver].
  injection E as <- <-. split_and!; [done|done|]. intros rest. simpl. by rewrite E1, E2, E3, E4, Eb.
Qed.

Lemma utf8_app l1 l2 : utf8 l1 → utf8 l2 → utf8 (l1 ++ l2).
Proof.
  intros H1 H2. induction H1 as [|seg l r Hr Hs Hd Hl IH]; [done|].
  rewrite <- app_assoc. by apply (utf8_rune seg _ r).
Qed.

Lemma valid_bytes_utf8 l fuel : utf8 l → (length l ≤ fuel)%nat → valid_bytes fuel l = l.
Proof.
  intros H. revert fuel. induction H as [|seg l r Hr Hs Hd Hl IH]; intros fuel Hf; [by destruct fuel|].
  destruct seg as [|a seg]; [done|]. rewrite length_app in Hf. destruct fuel as [|fuel]; [simpl in Hf; lia|].
  cbn [valid_bytes]. change ((a :: seg) ++ l) with (a :: (seg ++ l)) at 1.
  cbv iota beta. rewrite Hd. rewrite take_app_length, drop_app_length.
  rewrite (IH fuel) by (simpl in Hf; lia).
  destruct ((r =? RuneError) && bool_decide (length (a :: seg) = 1%nat)) eqn:E; [|done].
  apply andb_true_iff in E as [E1%Z.eqb_eq E2%bool_decide_eq_true_1]. naive_solver.
Qed.

Lemma ToValid_valid s : ValidString s → ToValid s = s.
Proof.
  intros H. unfold ToValid. rewrite valid_bytes_utf8 by done. apply String.string_of_list_ascii_of_string.
Qed.

Lemma list_ascii_app s t :
  String.list_ascii_of_string (s +:+ t) = String.list_ascii_of_string s ++ String.list_ascii_of_string t.
Proof. induction s as [|a s IH]; [done|]. unfold String.app in *. simpl. by rewrite IH. Qed.

Lemma ValidString_app s t : ValidString s → ValidString t → ValidString (s +:+ t).
Proof. unfold ValidString. rewrite list_ascii_app. apply utf8_app. Qed.

Lemma ascii_valid s :
  (∀ a, a ∈ String.list_ascii_of_string s → byte a < 0x80) → ValidString s.
Proof.
  unfold ValidString. induction (String.list_ascii_of_string s) as [|a l IH]; intros H; [constructor|].
  apply (utf8_rune [a] l (byte a)); [|done| |apply IH; intros; apply H; by right].
  - left. unfold RuneError. specialize (H a ltac:(by left)). lia.
  - intros rest. simpl. specialize (H a ltac:(by left)). unfold within.
    rewrite (proj2 (Z.leb_le 0 (byte a))) by (unfold byte; lia).
    by rewrite (proj2 (Z.leb_le (byte a) 0x7F)) by lia.
Qed.

Lemma Itoa_valid n : 0 ≤ n → ValidString (Itoa n).
Proof.
  intros Hn. apply ascii_valid. intros a Ha. destruct (is_digit a) eqn:Ed.
  { unfold is_digit in Ed. go_bools. lia. }
  pose proof (Itoa_no_char a n Hn Ed) as Hno. exfalso. revert Ha Hno. generalize (Itoa n).
  induction s as [|b s IH]; simpl; [by intros ?%elem_of_nil|].
  intros [->|Ha]%elem_of_cons [Hb Hs]; [done|by apply IH].
Qed.

(** The fields are valid when no wrong byte belongs to a field. *)
Lemma fields_valid f fuel l cur :
  f RuneError = true → utf8 cur → Forall utf8 (fields f fuel l cur).
Proof.
  intros Hf. revert l cur. induction fuel as [|fuel IH]; intros l cur Hc.
  { simpl. case_bool_decide; by repeat constructor. }
  destruct l as [|a l]; cbn [fields]; [case_bool_decide; by repeat constructor|].
  destruct (DecodeRune (a :: l)) as [r w] eqn:E. destruct (f r) eqn:Er.
  - apply Forall_app. split; [case_bool_decide; by repeat constructor|]. apply IH. constructor.
  - apply IH. apply utf8_app; [done|].
    destruct (DecodeRune_stable (a :: l) r w E) as (H1 & H2 & H3); [done|left; congruence|].
    rewrite <- (app_nil_r (take w (a :: l))). apply (utf8_rune _ [] r); [left; congruence|done| |constructor].
    intros rest. by rewrite H1.
Qed.

Lemma FieldsFunc_valid s f w : f RuneError = true → w ∈ FieldsFunc s f → ValidString w.
Proof.
  intros Hf (l & -> & Hl)%list_elem_of_fmap. unfold ValidString. rewrite String.list_ascii_of_string_of_list_ascii.
  pose proof (fields_valid f (length (String.list_ascii_of_string s)) (String.list_ascii_of_string s) []
    Hf utf8_nil) as H. rewrite Forall_forall in H. by apply H.
Qed.
