(* ===== verification/MrTask.v ===== *)
(** * Map and reduce tasks: [mapreduce/common.go], [common_map.go], [common_reduce.go].

    A file is the list of what has been written to it: plain text, the JSON array of
    key/value pairs that a map task writes, the JSON objects that a reduce task writes.
    Opening, reading and writing by a handle are by the name of the file. *)

From Stdlib Require Import Ascii.
From S2P Require Import Prelude GoLib.

Record KeyValue := MkKV { Key : string; Value : string }.
#[export] Instance KeyValue_eq_dec : EqDecision KeyValue.
Proof. solve_decision. Defined.

Definition reduceName (jobName : string) (mapTask reduceTask : Z) : string :=
  "mrtmp." +:+ jobName +:+ "-" +:+ Itoa mapTask +:+ "-" +:+ Itoa reduceTask.

Definition mergeName (jobName : string) (reduceTask : Z) : string :=
  "mrtmp." +:+ jobName +:+ "-res-" +:+ Itoa reduceTask.

Definition ihash (s : string) : Z := Z.land (fnv32a s) 0x7fffffff.

(** ** Files *)

Inductive chunk :=
| Text (s : string)
| JArr (l : list KeyValue)
| JObj (kv : KeyValue).
#[export] Instance chunk_eq_dec : EqDecision chunk.
Proof. solve_decision. Defined.

Abbreviation file := (list chunk).
Abbreviation fs := (gmap string (list chunk)).

(** [os.OpenFile] with [O_APPEND|O_CREATE], and a write to the open file. *)
Definition open_append (f : fs) (name : string) : fs := <[name := default [] (f !! name)]> f.
Definition write (f : fs) (name : string) (c : chunk) : fs :=
  <[name := default [] (f !! name) ++ [c]]> f.

(** A pair as JSON gives it back. *)
Definition valid_kv (kv : KeyValue) : KeyValue := MkKV (ToValid (Key kv)) (ToValid (Value kv)).

(** [json.Unmarshal] into a slice of pairs, whose error is ignored: the file must hold one
    JSON value. *)
Definition Unmarshal (content : file) : list KeyValue :=
  match content with [JArr l] => l | _ => [] end.

(** ** [doMap] *)
Section doMap.
(** The bytes of a file with its JSON chunks. *)
Variable render : file → string.
Variable mapF : string → string → list KeyValue.

Fixpoint doMap_open (f : fs) (jobName : string) (mapTask : Z) (rs : list Z) : fs :=
  match rs with
  | [] => f
  | i :: rs => doMap_open (open_append f (reduceName jobName mapTask i)) jobName mapTask rs
  end.

Fixpoint doMap_split (kvList : list (list KeyValue)) (nReduce : Z) (kvs : list KeyValue) :
    outcome (list (list KeyValue)) :=
  match kvs with
  | [] => Ok kvList
  | val :: kvs =>
      guard_go (negb (nReduce =? 0));;
      let fileind := Z.rem (ihash (Key val)) nReduce in
      l ← must (zlookup kvList fileind);
      kvList ← must (zinsert kvList fileind (l ++ [val]));
      doMap_split kvList nReduce kvs
  end.

Fixpoint doMap_write (f : fs) (jobName : string) (mapTask : Z) (ind : Z)
    (kvList : list (list KeyValue)) : fs :=
  match kvList with
  | [] => f
  | val :: kvList =>
      doMap_write (write f (reduceName jobName mapTask ind) (JArr (valid_kv <$> val)))
        jobName mapTask (ind + 1) kvList
  end.

(** An input file that cannot be read is reported, and the task returns. *)
Definition doMap (f : fs) (jobName : string) (mapTask : Z) (inFile : string) (nReduce : Z) :
    outcome fs :=
  match f !! inFile with
  | None => Ok f
  | Some content =>
      let keyValueRet := mapF inFile (render content) in
      guard_go (0 <=? nReduce);;
      let f := doMap_open f jobName mapTask (seqZ 0 nReduce) in
      kvList ← doMap_split (replicate (Z.to_nat nReduce) []) nReduce keyValueRet;
      Ok (doMap_write f jobName mapTask 0 kvList)
  end.
End doMap.

(** ** [doReduce] *)
Section doReduce.
Variable reduceF : string → list string → outcome string.

Definition add_kv (st : list string * gmap string (list string)) (kv : KeyValue) :
    list string * gmap string (list string) :=
  let '(keys, allKeyValue) := st in
  match allKeyValue !! Key kv with
  | None => (keys ++ [Key kv], <[Key kv := [Value kv]]> allKeyValue)
  | Some l => (keys, <[Key kv := l ++ [Value kv]]> allKeyValue)
  end.

Fixpoint doReduce_read (f : fs) (jobName : string) (reduceTask : Z) (maps : list Z)
    (st : list string * gmap string (list string)) :
    outcome (list string * gmap string (list string)) :=
  match maps with
  | [] => Ok st
  | nmap :: maps =>
      content ← must (f !! reduceName jobName nmap reduceTask);
      doReduce_read f jobName reduceTask maps (foldl add_kv st (Unmarshal content))
  end.

Fixpoint doReduce_write (f : fs) (outFile : string) (allKeyValue : gmap string (list string))
    (keys : list string) : outcome fs :=
  match keys with
  | [] => Ok f
  | val :: keys =>
      v ← reduceF val (default [] (allKeyValue !! val));
      doReduce_write (write f outFile (JObj (valid_kv (MkKV val v)))) outFile allKeyValue keys
  end.

Definition doReduce (f : fs) (jobName : string) (reduceTask : Z) (outFile : string) (nMap : Z) :
    outcome fs :=
  '(keys, allKeyValue) ← doReduce_read f jobName reduceTask (seqZ 0 nMap) ([], ∅);
  let keys := sort_strings keys in
  doReduce_write (open_append f outFile) outFile allKeyValue keys.
End doReduce.

(** ** Names *)

Lemma reduceName_inj job m r m' r' :
  0 ≤ m → 0 ≤ m' → reduceName job m r = reduceName job m' r' → m = m' ∧ r = r'.
Proof.
  unfold reduceName. intros Hm Hm' E. do 3 apply (inj (String.app _)) in E.
  destruct (split_at_char "-"%char (Itoa m) (Itoa r) (Itoa m') (Itoa r')) as [E1 E2];
    [by apply Itoa_no_char..|exact E|]. split; by apply Itoa_inj.
Qed.

Lemma reduceName_inj_r job m r r' : reduceName job m r = reduceName job m r' → r = r'.
Proof. unfold reduceName. intros E. do 5 apply (inj (String.app _)) in E. by apply Itoa_inj. Qed.

Lemma mergeName_inj job r r' : mergeName job r = mergeName job r' → r = r'.
Proof. unfold mergeName. intros E. do 3 apply (inj (String.app _)) in E. by apply Itoa_inj. Qed.

Lemma reduceName_mergeName job m r i : 0 ≤ m → reduceName job m r ≠ mergeName job i.
Proof.
  unfold reduceName, mergeName. intros Hm E. do 2 apply (inj (String.app _)) in E.
  change ("-res-" +:+ Itoa i) with ("-" +:+ ("res" +:+ String "-" (Itoa i))) in E.
  apply (inj (String.app _)) in E.
  destruct (split_at_char "-"%char (Itoa m) (Itoa r) "res" (Itoa i)) as [E1 _];
    [by apply Itoa_no_char|by split_and!|exact E|].
  pose proof (Itoa_no_char "r"%char m Hm eq_refl) as Hr. rewrite E1 in Hr. by destruct Hr.
Qed.

Lemma app_longer (s t : string) : s ≠ s +:+ t ∨ t = "".
Proof.
  induction s as [|a s IH].
  - destruct t; [by right|by left].
  - destruct IH as [IH|]; [|by right]. left. intros E. apply IH. unfold String.app in *. simpl in E.
    by injection E.
Qed.

Lemma final_ne job t : t ≠ "" → "mrtmp." +:+ job ≠ "mrtmp." +:+ job +:+ t.
Proof. intros Ht E. apply (inj (String.app _)) in E. by destruct (app_longer job t). Qed.

(** ** What a map task leaves *)

(** The pairs of reduce task [r]. *)
Definition bucket (n r : Z) (kvs : list KeyValue) : list KeyValue :=
  filter (λ kv, Z.rem (ihash (Key kv)) n = r) kvs.

Lemma ihash_nonneg s : 0 ≤ ihash s.
Proof. unfold ihash. apply Z.land_nonneg. right. lia. Qed.

Lemma doMap_open_lookup f job m rs x :
  doMap_open f job m rs !! x =
    if decide (x ∈ reduceName job m <$> rs) then Some (default [] (f !! x)) else f !! x.
Proof.
  revert f. induction rs as [|i rs IH]; intros f; cbn [doMap_open].
  { rewrite decide_False; [done|]. by intros ?%elem_of_nil. }
  rewrite IH. unfold open_append. rewrite fmap_cons. set (y := reduceName job m i).
  destruct (decide (x = y)) as [->|Hne].
  - rewrite lookup_insert_eq. rewrite (decide_True (P := y ∈ y :: _)) by (by left). by case_decide.
  - rewrite lookup_insert_ne by done. repeat case_decide; set_solver.
Qed.

Lemma doMap_split_spec n kvs kvList :
  0 < n → len kvList = n →
  ∃ kvList', doMap_split kvList n kvs = Ok kvList' ∧ len kvList' = n ∧
    ∀ r, zlookup kvList' r = (λ l, l ++ bucket n r kvs) <$> zlookup kvList r.
Proof.
  intros Hn. revert kvList. induction kvs as [|kv kvs IH]; intros kvList Hl; cbn [doMap_split].
  { exists kvList. split_and!; try done. intros r. destruct (zlookup kvList r); simpl; [|done].
    by rewrite app_nil_r. }
  rewrite (proj2 (Z.eqb_neq n 0)) by lia. cbn [negb guard_go mbind outcome_bind].
  set (i := Z.rem (ihash (Key kv)) n).
  assert (0 ≤ i < len kvList) as Hi by (rewrite Hl; apply Z.rem_bound_pos; [apply ihash_nonneg|done]).
  destruct (zlookup_lt_Some kvList i Hi) as [l Hli]. rewrite Hli. cbn [must mbind outcome_bind].
  unfold zinsert. rewrite decide_True by done. cbn [must mbind outcome_bind].
  destruct (IH (<[Z.to_nat i := l ++ [kv]]> kvList)) as (kvList' & E & Hl' & Hlook); [by rewrite len_insert|].
  exists kvList'. split_and!; [done..|]. intros r. rewrite Hlook. unfold bucket at 2. rewrite filter_cons.
  fold i. destruct (decide (i = r)) as [<-|Hne].
  - assert (zlookup (<[Z.to_nat i := l ++ [kv]]> kvList) i = Some (l ++ [kv])) as ->.
    { rewrite <- (Z2Nat.id i) at 2 by lia. apply zlookup_insert_eq. unfold len in Hi. lia. }
    rewrite Hli. simpl. by rewrite <- app_assoc.
  - by rewrite zlookup_insert_ne by lia.
Qed.

Lemma doMap_write_spec f job m ind kvList :
  (∀ r l, zlookup kvList r = Some l →
     doMap_write f job m ind kvList !! reduceName job m (ind + r) =
       Some (default [] (f !! reduceName job m (ind + r)) ++ [JArr (valid_kv <$> l)])) ∧
  (∀ x, (∀ r, 0 ≤ r < len kvList → x ≠ reduceName job m (ind + r)) →
     doMap_write f job m ind kvList !! x = f !! x).
Proof.
  revert f ind. induction kvList as [|l0 kvList IH]; intros f ind; cbn [doMap_write].
  { split; [|done]. intros r l Hr. apply zlookup_Some_lt in Hr. unfold len in Hr. simpl in Hr. lia. }
  set (f' := write f _ _). destruct (IH f' (ind + 1)) as [IH1 IH2]. split.
  - intros r l Hr. destruct (decide (r = 0)) as [->|Hr0].
    + injection Hr as <-. rewrite Z.add_0_r. rewrite IH2.
      * unfold f', write. by rewrite lookup_insert_eq.
      * intros r' Hr' E%reduceName_inj_r. lia.
    + assert (0 ≤ r - 1) by (apply zlookup_Some_lt in Hr; lia).
      replace (ind + r) with (ind + 1 + (r - 1)) by lia. rewrite (IH1 (r - 1) l).
      * unfold f', write. rewrite lookup_insert_ne; [done|]. intros E%reduceName_inj_r. lia.
      * unfold zlookup in *. rewrite decide_True by lia. rewrite decide_True in Hr by lia.
        replace (Z.to_nat r) with (S (Z.to_nat (r - 1))) in Hr by lia. done.
  - intros x Hx. rewrite IH2.
    + unfold f', write. rewrite lookup_insert_ne; [done|]. intros E. apply (Hx 0); [|by rewrite Z.add_0_r].
      rewrite len_cons. pose proof (len_nonneg kvList). lia.
    + intros r Hr. replace (ind + 1 + r) with (ind + (r + 1)) by lia. apply Hx. rewrite len_cons. lia.
Qed.

(** The bucket of every reduce task is appended to its intermediate file. *)
Lemma doMap_ok render mapF f job m inFile content n :
  f !! inFile = Some content → 0 < n →
  ∃ f', doMap render mapF f job m inFile n = Ok f' ∧
    (∀ r, 0 ≤ r < n → f' !! reduceName job m r =
       Some (default [] (f !! reduceName job m r)
               ++ [JArr (valid_kv <$> bucket n r (mapF inFile (render content)))])) ∧
    (∀ x, (∀ r, 0 ≤ r < n → x ≠ reduceName job m r) → f' !! x = f !! x).
Proof.
  intros Hin Hn. unfold doMap. rewrite Hin. rewrite (proj2 (Z.leb_le 0 n)) by lia.
  cbn [guard_go mbind outcome_bind].
  destruct (doMap_split_spec n (mapF inFile (render content)) (replicate (Z.to_nat n) []))
    as (kvList & -> & Hl & Hlook); [done|unfold len; rewrite length_replicate; lia|].
  cbn [mbind outcome_bind]. eexists. split; [done|].
  destruct (doMap_write_spec (doMap_open f job m (seqZ 0 n)) job m 0 kvList) as [H1 H2]. split.
  - intros r Hr. rewrite <- (Z.add_0_l r) at 1.
    assert (zlookup kvList r = Some (bucket n r (mapF inFile (render content)))) as Hkr.
    { rewrite Hlook. unfold zlookup. rewrite decide_True by lia.
      rewrite lookup_replicate_2 by lia. done. }
    rewrite (H1 r _ Hkr). rewrite Z.add_0_l, doMap_open_lookup, decide_True; [done|].
    apply list_elem_of_fmap. exists r. split; [done|]. apply elem_of_seqZ. lia.
  - intros x Hx. rewrite H2 by (intros r Hr; rewrite Z.add_0_l; apply Hx; lia).
    rewrite doMap_open_lookup, decide_False; [done|].
    intros (r & -> & Hr%elem_of_seqZ)%list_elem_of_fmap. by apply (Hx r); [lia|].
Qed.

(** ** What a reduce task computes *)

(** The values of a key, in order. *)
Definition values (k : string) (kvs : list KeyValue) : list string :=
  Value <$> filter (λ kv, Key kv = k) kvs.

Lemma values_app k l1 l2 : values k (l1 ++ l2) = values k l1 ++ values k l2.
Proof. unfold values. by rewrite filter_app, fmap_app. Qed.

Lemma values_nil k kvs : values k kvs = [] ↔ k ∉ Key <$> kvs.
Proof.
  unfold values. induction kvs as [|kv kvs IH]; [split; [by intros _ ?%elem_of_nil|done]|].
  rewrite filter_cons, fmap_cons, not_elem_of_cons. case_decide; [naive_solver|].
  rewrite IH. naive_solver.
Qed.

Lemma add_kvs_spec kvs :
  ∃ keys all, foldl add_kv ([], ∅) kvs = (keys, all) ∧ NoDup keys ∧
    (∀ k, k ∈ keys ↔ k ∈ Key <$> kvs) ∧
    ∀ k, all !! k = if decide (values k kvs = []) then None else Some (values k kvs).
Proof.
  induction kvs as [|kv kvs IH] using rev_ind.
  { exists [], ∅. split_and!; [done|constructor|done|done]. }
  destruct IH as (keys & all & E & Hnd & Hk & Hv). rewrite foldl_app, E. cbn [foldl add_kv].
  assert (Hlast : ∀ k, values k [kv] = if decide (Key kv = k) then [Value kv] else []).
  { intros k. unfold values. rewrite filter_cons. by case_decide. }
  pose proof (Hv (Key kv)) as Hkv. destruct (decide (values (Key kv) kvs = [])) as [Hn|Hn]; rewrite Hkv.
  - eexists _, _. split; [done|]. pose proof (proj1 (values_nil _ _) Hn) as Hnk. rewrite <- Hk in Hnk.
    split_and!.
    + apply NoDup_app. split_and!; [done| |apply NoDup_singleton].
      intros k Hin ->%list_elem_of_singleton. done.
    + intros k. rewrite fmap_app, !elem_of_app, Hk. done.
    + intros k. rewrite values_app, Hlast. destruct (decide (Key kv = k)) as [<-|].
      * by rewrite lookup_insert_eq, Hn.
      * rewrite lookup_insert_ne by done. by rewrite app_nil_r.
  - eexists _, _. split; [done|]. split_and!; [done| |].
    + intros k. rewrite fmap_app, elem_of_app, Hk. split; [by left|].
      intros [|Hin]; [done|]. apply list_elem_of_singleton in Hin as ->.
      destruct (decide (Key kv ∈ Key <$> kvs)); [done|]. by destruct Hn; apply values_nil.
    + intros k. rewrite values_app, Hlast. destruct (decide (Key kv = k)) as [<-|].
      * rewrite lookup_insert_eq. rewrite decide_False; [done|]. by intros [? ?]%app_nil.
      * rewrite lookup_insert_ne by done. by rewrite app_nil_r.
Qed.

Lemma doReduce_read_ok f job r maps (g : Z → list KeyValue) st :
  (∀ m, m ∈ maps → f !! reduceName job m r = Some [JArr (g m)]) →
  doReduce_read f job r maps st = Ok (foldl add_kv st (concat (g <$> maps))).
Proof.
  revert st. induction maps as [|m maps IH]; intros st Hm; [done|]. cbn [doReduce_read].
  rewrite (Hm m) by (by left). cbn [must mbind outcome_bind Unmarshal]. rewrite IH.
  - rewrite fmap_cons. simpl. by rewrite foldl_app.
  - intros m' Hm'. apply Hm. by right.
Qed.

Lemma doReduce_write_ok reduceF f out all keys (v : string → string) :
  (∀ k, k ∈ keys → reduceF k (default [] (all !! k)) = Ok (v k)) → is_Some (f !! out) →
  ∃ f', doReduce_write reduceF f out all keys = Ok f' ∧
    f' !! out = Some (default [] (f !! out) ++ ((λ k, JObj (valid_kv (MkKV k (v k)))) <$> keys)) ∧
    ∀ x, x ≠ out → f' !! x = f !! x.
Proof.
  revert f. induction keys as [|k keys IH]; intros f Hv [c Hc]; cbn [doReduce_write].
  { exists f. rewrite Hc. simpl. by rewrite app_nil_r. }
  rewrite (Hv k) by (by left). cbn [mbind outcome_bind].
  destruct (IH (write f out (JObj (valid_kv (MkKV k (v k)))))) as (f' & -> & Ho & Hx).
  - intros k' Hk'. apply Hv. by right.
  - unfold write. rewrite lookup_insert_eq. eauto.
  - exists f'. split; [done|]. unfold write in *. rewrite lookup_insert_eq in Ho. split.
    + rewrite Ho. simpl. by rewrite <- app_assoc.
    + intros x Hne. by rewrite Hx, lookup_insert_ne.
Qed.

(** The keys, each once, in order. *)
Definition sorted_keys (kvs : list KeyValue) : list string :=
  sort_strings (remove_dups (Key <$> kvs)).

Lemma elem_of_sorted_keys k kvs : k ∈ sorted_keys kvs ↔ k ∈ Key <$> kvs.
Proof. unfold sorted_keys. by rewrite sort_strings_Permutation, elem_of_remove_dups. Qed.

Lemma sorted_keys_eq keys kvs :
  NoDup keys → (∀ k, k ∈ keys ↔ k ∈ Key <$> kvs) → sort_strings keys = sorted_keys kvs.
Proof.
  intros Hnd Hk. apply sort_strings_perm_eq, NoDup_Permutation; [done|apply NoDup_remove_dups|].
  intros k. by rewrite Hk, elem_of_remove_dups.
Qed.

(** The output file of a reduce task: one object per key, in the order of the keys. *)
Lemma doReduce_ok reduceF f job r out n (g : Z → list KeyValue) (v : string → string) :
  let kvs := concat (g <$> seqZ 0 n) in
  (∀ m, 0 ≤ m < n → f !! reduceName job m r = Some [JArr (g m)]) →
  (∀ k, k ∈ Key <$> kvs → reduceF k (values k kvs) = Ok (v k)) →
  ∃ f', doReduce reduceF f job r out n = Ok f' ∧
    f' !! out = Some (default [] (f !! out) ++ ((λ k, JObj (valid_kv (MkKV k (v k)))) <$> sorted_keys kvs)) ∧
    ∀ x, x ≠ out → f' !! x = f !! x.
Proof.
  intros kvs Hm Hv. unfold doReduce.
  rewrite (doReduce_read_ok f job r _ g) by (intros m Hin%elem_of_seqZ; apply Hm; lia).
  fold kvs. destruct (add_kvs_spec kvs) as (keys & all & -> & Hnd & Hk & Hall).
  cbn [mbind outcome_bind]. rewrite (sorted_keys_eq keys kvs Hnd Hk).
  destruct (doReduce_write_ok reduceF (open_append f out) out all (sorted_keys kvs) v) as (f' & Hf' & Ho & Hx).
  - intros k Hin%elem_of_sorted_keys. rewrite Hall.
    rewrite decide_False; [by apply Hv|]. by intros ?%values_nil.
  - unfold open_append. rewrite lookup_insert_eq. eauto.
  - exists f'. split; [done|]. unfold open_append in *. rewrite lookup_insert_eq in Ho. split; [done|].
    intros x Hne. by rewrite Hx, lookup_insert_ne.
Qed.

(** ** Running a map task again *)

(** The intermediate files are opened for appending: once a map task has run twice, as
    happens when it is given to a second worker, reading its file yields nothing. *)
Theorem doMap_twice_loses render mapF f job m inFile content n :
  f !! inFile = Some content → 0 < n → (∀ r, f !! reduceName job m r = None) →
  (∀ r, inFile ≠ reduceName job m r) →
  ∃ f1 f2, doMap render mapF f job m inFile n = Ok f1 ∧ doMap render mapF f1 job m inFile n = Ok f2 ∧
    ∀ r, 0 ≤ r < n →
      Unmarshal (default [] (f1 !! reduceName job m r)) =
        valid_kv <$> bucket n r (mapF inFile (render content)) ∧
      Unmarshal (default [] (f2 !! reduceName job m r)) = [].
Proof.
  intros Hin Hn Hnone Hne.
  destruct (doMap_ok render mapF f job m inFile content n Hin Hn) as (f1 & H1 & Hr1 & Hx1).
  assert (f1 !! inFile = Some content) as Hin1 by (by rewrite Hx1).
  destruct (doMap_ok render mapF f1 job m inFile content n Hin1 Hn) as (f2 & H2 & Hr2 & _).
  exists f1, f2. split_and!; [done|done|]. intros r Hr. rewrite Hr2, Hr1, Hnone by done. done.
Qed.

(** ** A small job *)

Definition demo_render (c : file) : string := match c with [Text s] => s | _ => "" end.
Definition demo_files : fs := {["a.txt" := [Text "to be or not"]; "b.txt" := [Text "to do"]]}.

(** One pair per file. *)
Definition demo_map (filename contents : string) : list KeyValue := [MkKV "k" filename].

Lemma demo_no_task r : demo_files !! reduceName "wcseq" 0 r = None.
Proof. unfold demo_files. rewrite !lookup_insert_ne; try done; intros E; discriminate E. Qed.

(** What a reduce task reads after one and after two runs of the map task. *)
Definition read_twice (runs : outcome (fs * fs)) (r : Z) : option (list KeyValue * list KeyValue) :=
  match runs with
  | Ok (f1, f2) => Some (Unmarshal (default [] (f1 !! reduceName "wcseq" 0 r)),
                         Unmarshal (default [] (f2 !! reduceName "wcseq" 0 r)))
  | _ => None
  end.

Lemma doMap_twice_loses_witness :
  read_twice (f1 ← doMap demo_render demo_map demo_files "wcseq" 0 "a.txt" 3;
              f2 ← doMap demo_render demo_map f1 "wcseq" 0 "a.txt" 3; Ok (f1, f2)) 1 =
    Some ([MkKV "k" "a.txt"], []).
Proof.
  destruct (doMap_twice_loses demo_render demo_map demo_files "wcseq" 0 "a.txt" [Text "to be or not"] 3)
    as (f1 & f2 & H1 & H2 & Hr); [reflexivity|lia|apply demo_no_task|intros r E; discriminate E|].
  rewrite H1. cbn [mbind outcome_bind]. rewrite H2. cbn [mbind outcome_bind read_twice].
  destruct (Hr 1) as [-> ->]; [lia|]. vm_compute. reflexivity.
Defined.
