(* ===== verification/MrMaster.v ===== *)
(** * The master of MapReduce: [merge], [CleanupFiles] ([mapreduce/master_splitmerge.go]) and
    the sequential job ([Sequential] and [run] of [mapreduce/master.go]). *)

From S2P Require Import Prelude GoLib MrTask.

(** ** [merge] *)

(** The loop of the decoder, up to its first error. *)
Fixpoint merge_decode (kvs : gmap string string) (content : file) : gmap string string :=
  match content with
  | JObj kv :: content => merge_decode (<[Key kv := Value kv]> kvs) content
  | _ => kvs
  end.

(** [log.Fatal] ends the program, as a panic does. *)
Fixpoint merge_read (f : fs) (jobName : string) (rs : list Z) (kvs : gmap string string) :
    outcome (gmap string string) :=
  match rs with
  | [] => Ok kvs
  | i :: rs =>
      content ← must (f !! mergeName jobName i);
      merge_read f jobName rs (merge_decode kvs content)
  end.

Definition merge_line (kvs : gmap string string) (k : string) : string :=
  k +:+ ": " +:+ default "" (kvs !! k) +:+ String (Ascii.ascii_of_nat 10) "".

(** The keys are sorted, so the order in which the loop over the map meets them is lost. *)
Definition merge (f : fs) (jobName : string) (nReduce : Z) : outcome fs :=
  kvs ← merge_read f jobName (seqZ 0 nReduce) ∅;
  let keys := sort_strings (map_to_list kvs).*1 in
  Ok (<["mrtmp." +:+ jobName := (λ k, Text (merge_line kvs k)) <$> keys]> f).

(** ** [CleanupFiles] *)

Definition removeFile (f : fs) (n : string) : outcome fs :=
  must (f !! n);; Ok (delete n f).

Fixpoint removeFiles (f : fs) (names : list string) : outcome fs :=
  match names with
  | [] => Ok f
  | n :: names => f ← removeFile f n; removeFiles f names
  end.

Definition CleanupFiles (f : fs) (jobName : string) (nFiles nReduce : Z) : outcome fs :=
  removeFiles f
    ((i ← seqZ 0 nFiles; (λ j, reduceName jobName i j) <$> seqZ 0 nReduce) ++
     ((λ i, mergeName jobName i) <$> seqZ 0 nReduce) ++ ["mrtmp." +:+ jobName]).

(** ** [Sequential] *)
Section sequential.
Variable render : file → string.
Variable mapF : string → string → list KeyValue.
Variable reduceF : string → list string → outcome string.

Fixpoint run_maps (f : fs) (jobName : string) (nReduce : Z) (i : Z) (files : list string) : outcome fs :=
  match files with
  | [] => Ok f
  | file :: files =>
      f ← doMap render mapF f jobName i file nReduce;
      run_maps f jobName nReduce (i + 1) files
  end.

Fixpoint run_reduces (f : fs) (jobName : string) (nMap : Z) (rs : list Z) : outcome fs :=
  match rs with
  | [] => Ok f
  | i :: rs =>
      f ← doReduce reduceF f jobName i (mergeName jobName i) nMap;
      run_reduces f jobName nMap rs
  end.

(** The phases of [run], up to its message on [doneChannel]: the files, and [mr.stats]. *)
Definition Sequential (f : fs) (jobName : string) (files : list string) (nreduce : Z) :
    outcome (fs * list Z) :=
  f ← run_maps f jobName nreduce 0 files;
  f ← run_reduces f jobName (len files) (seqZ 0 nreduce);
  let stats := [len files + nreduce] in
  f ← merge f jobName nreduce;
  Ok (f, stats).
End sequential.

(** ** Buckets *)

Lemma bucket_concat {A} n r (g : A → list KeyValue) (l : list A) :
  concat ((λ x, bucket n r (g x)) <$> l) = bucket n r (concat (g <$> l)).
Proof.
  unfold bucket. induction l as [|x l IH]; [done|]. rewrite !fmap_cons. simpl.
  by rewrite filter_app, IH.
Qed.

Lemma elem_of_bucket_key n r k kvs :
  k ∈ Key <$> bucket n r kvs ↔ k ∈ Key <$> kvs ∧ Z.rem (ihash k) n = r.
Proof.
  unfold bucket. rewrite !list_elem_of_fmap. split.
  - intros (kv & -> & [Hr Hin]%list_elem_of_filter). eauto.
  - intros [(kv & -> & Hin) Hr]. exists kv. split; [done|]. by apply list_elem_of_filter.
Qed.

Lemma values_bucket n r k kvs : Z.rem (ihash k) n = r → values k (bucket n r kvs) = values k kvs.
Proof.
  intros Hr. unfold values, bucket. f_equal. rewrite list_filter_filter. apply filter_ext_in.
  intros kv _. split; [by intros [? _]|]. by intros <-.
Qed.

Lemma fmap_id_in {A} (f : A → A) (l : list A) : (∀ x, x ∈ l → f x = x) → f <$> l = l.
Proof.
  intros Hf. rewrite <- (list_fmap_id l) at 2. apply list_fmap_ext. intros i x Hx.
  apply Hf. by eapply list_elem_of_lookup_2.
Qed.

Lemma merge_decode_ok kvs (v : string → string) keys k :
  merge_decode kvs ((λ k, JObj (MkKV k (v k))) <$> keys) !! k =
    if decide (k ∈ keys) then Some (v k) else kvs !! k.
Proof.
  revert kvs. induction keys as [|k0 keys IH]; intros kvs; cbn [merge_decode fmap list_fmap].
  { rewrite decide_False; [done|]. by intros ?%elem_of_nil. }
  rewrite IH. simpl. destruct (decide (k = k0)) as [->|].
  - rewrite lookup_insert_eq, (decide_True (P := k0 ∈ k0 :: keys)) by (by left). by case_decide.
  - rewrite lookup_insert_ne by done. repeat case_decide; set_solver.
Qed.

Lemma merge_read_ok job f rs kvs (v : string → string) (keys : Z → list string) :
  (∀ r, r ∈ rs → f !! mergeName job r = Some ((λ k, JObj (MkKV k (v k))) <$> keys r)) →
  ∃ kvs', merge_read f job rs kvs = Ok kvs' ∧
    (∀ k, (∃ r, r ∈ rs ∧ k ∈ keys r) → kvs' !! k = Some (v k)) ∧
    (∀ k, (∀ r, r ∈ rs → k ∉ keys r) → kvs' !! k = kvs !! k).
Proof.
  revert kvs. induction rs as [|r rs IH]; intros kvs Hrs; cbn [merge_read].
  { exists kvs. split_and!; [done| |done]. by intros k (r & ?%elem_of_nil & _). }
  rewrite (Hrs r) by (by left). cbn [must mbind outcome_bind].
  destruct (IH (merge_decode kvs ((λ k, JObj (MkKV k (v k))) <$> keys r))) as (kvs' & -> & Hin & Hout);
    [intros r' Hr'; apply Hrs; by right|].
  exists kvs'. split_and!; [done| |].
  - intros k (r' & [->|Hr']%elem_of_cons & Hk); [|by apply Hin; eauto].
    destruct (decide (Exists (λ r', k ∈ keys r') rs)) as [(r' & ? & ?)%Exists_exists|Hne];
      [by apply Hin; eauto|]. rewrite Hout.
    + by rewrite merge_decode_ok, decide_True.
    + intros r' Hr' Hk'. apply Hne, Exists_exists. eauto.
  - intros k Hk. rewrite Hout, merge_decode_ok, decide_False; [done|apply Hk; by left|].
    intros r' Hr'. apply Hk. by right.
Qed.

(** ** The phases of a sequential job *)
Section job.
Variable render : file → string.
Variable mapF : string → string → list KeyValue.
Variable reduceF : string → list string → outcome string.
Variables (f0 : fs) (job : string) (n : Z).
Hypothesis Hn : 0 < n.

(** What the map function makes of an input file. *)
Definition map_out (file : string) : list KeyValue := mapF file (render (default [] (f0 !! file))).

Lemma run_maps_ok f i files :
  0 ≤ i →
  (∀ file, file ∈ files → is_Some (f0 !! file) ∧ f !! file = f0 !! file ∧
     ∀ m r, 0 ≤ m → file ≠ reduceName job m r) →
  (∀ m r, i ≤ m → f !! reduceName job m r = None) →
  ∃ f', run_maps render mapF f job n i files = Ok f' ∧
    (∀ j file, zlookup files j = Some file → ∀ r, 0 ≤ r < n →
       f' !! reduceName job (i + j) r = Some [JArr (valid_kv <$> bucket n r (map_out file))]) ∧
    (∀ x, (∀ m r, i ≤ m < i + len files → 0 ≤ r < n → x ≠ reduceName job m r) → f' !! x = f !! x).
Proof.
  revert f i. induction files as [|file files IH]; intros f i Hi Hin Hnone; cbn [run_maps].
  { exists f. split_and!; [done| |done]. intros j file Hj. apply zlookup_Some_lt in Hj.
    unfold len in Hj. simpl in Hj. lia. }
  destruct (Hin file) as ([c Hc] & Hcf & Hne); [by left|].
  destruct (doMap_ok render mapF f job i file c n) as (f1 & -> & Hr1 & Hx1); [congruence|done|].
  cbn [mbind outcome_bind].
  destruct (IH f1 (i + 1)) as (f' & -> & Hr & Hx).
  - lia.
  - intros file' Hin'. destruct (Hin file') as (Hs & Hcf' & Hne'); [by right|]. split_and!; [done| |done].
    rewrite Hx1; [done|]. intros r _. by apply Hne'.
  - intros m r Hm. rewrite Hx1; [apply Hnone; lia|]. intros r' _ E%reduceName_inj; lia.
  - exists f'. split; [done|]. split.
    + intros j file' Hj r Hrr. destruct (decide (j = 0)) as [->|Hj0].
      * injection Hj as <-. rewrite Z.add_0_r. rewrite Hx.
        -- rewrite Hr1, Hnone by (done || lia). unfold map_out. by rewrite Hc.
        -- intros m r' Hm _ E%reduceName_inj; lia.
      * assert (0 ≤ j - 1) by (apply zlookup_Some_lt in Hj; lia).
        replace (i + j) with (i + 1 + (j - 1)) by lia. apply Hr; [|done].
        unfold zlookup in *. rewrite decide_True by lia. rewrite decide_True in Hj by lia.
        by replace (Z.to_nat j) with (S (Z.to_nat (j - 1))) in Hj by lia.
    + intros x Hne'. pose proof (len_nonneg files). rewrite Hx, Hx1; [done| |].
      * intros r Hrr. apply Hne'; [|done]. rewrite len_cons. lia.
      * intros m r Hm Hrr. apply Hne'; [|done]. rewrite len_cons. lia.
Qed.

Lemma run_reduces_ok f nMap rs (g : Z → Z → list KeyValue) (v : string → string) :
  NoDup rs →
  (∀ r, r ∈ rs → f !! mergeName job r = None ∧
     (∀ m, 0 ≤ m < nMap → f !! reduceName job m r = Some [JArr (g r m)]) ∧
     ∀ k, k ∈ Key <$> concat (g r <$> seqZ 0 nMap) →
       reduceF k (values k (concat (g r <$> seqZ 0 nMap))) = Ok (v k)) →
  ∃ f', run_reduces reduceF f job nMap rs = Ok f' ∧
    (∀ r, r ∈ rs → f' !! mergeName job r =
       Some ((λ k, JObj (valid_kv (MkKV k (v k)))) <$> sorted_keys (concat (g r <$> seqZ 0 nMap)))) ∧
    (∀ x, (∀ r, r ∈ rs → x ≠ mergeName job r) → f' !! x = f !! x).
Proof.
  revert f. induction rs as [|r rs IH]; intros f Hnd Hrs; cbn [run_reduces].
  { exists f. split_and!; [done| |done]. by intros r ?%elem_of_nil. }
  apply NoDup_cons in Hnd as [Hr Hnd]. destruct (Hrs r) as (Hm & Hg & Hv); [by left|].
  destruct (doReduce_ok reduceF f job r (mergeName job r) nMap (g r) v Hg Hv) as (f1 & -> & Ho1 & Hx1).
  cbn [mbind outcome_bind]. rewrite Hm in Ho1. simpl in Ho1.
  destruct (IH f1) as (f' & -> & Ho & Hx); [done| |].
  - intros r' Hr'. destruct (Hrs r') as (Hm' & Hg' & Hv'); [by right|]. split_and!; [| |done].
    + rewrite Hx1; [done|]. intros ->%mergeName_inj. done.
    + intros m Hmm. rewrite Hx1; [by apply Hg'|]. apply reduceName_mergeName. lia.
  - exists f'. split; [done|]. split.
    + intros r' [->|Hr']%elem_of_cons; [|by apply Ho]. rewrite Hx; [done|].
      intros r' Hr' ->%mergeName_inj. done.
    + intros x Hne. rewrite Hx, Hx1; [done|apply Hne; by left|]. intros r' Hr'. apply Hne. by right.
Qed.
End job.

(** ** The whole job *)

(** No file has a name that the job uses. *)
Definition fresh_names (f : fs) (job : string) : Prop :=
  (∀ m r, 0 ≤ m → f !! reduceName job m r = None) ∧ ∀ r, f !! mergeName job r = None.

(** All pairs that the map function makes, in the order of the files. *)
Definition all_pairs render mapF (f : fs) (files : list string) : list KeyValue :=
  concat (map_out render mapF f <$> files).

Definition result_line (v : string → string) (k : string) : chunk :=
  Text (k +:+ ": " +:+ v k +:+ String (Ascii.ascii_of_nat 10) "").

(** The state of the files after the job. *)
Record job_files (f0 f' : fs) (job : string) (nFiles n : Z) (result : file) : Prop := {
  jf_reduce : ∀ m r, 0 ≤ m < nFiles → 0 ≤ r < n → is_Some (f' !! reduceName job m r);
  jf_merge : ∀ r, 0 ≤ r < n → is_Some (f' !! mergeName job r);
  jf_final : f' !! ("mrtmp." +:+ job) = Some result;
  jf_rest : ∀ x, (∀ m r, 0 ≤ m < nFiles → 0 ≤ r < n → x ≠ reduceName job m r) →
              (∀ r, 0 ≤ r < n → x ≠ mergeName job r) → x ≠ "mrtmp." +:+ job → f' !! x = f0 !! x;
}.

(** The names of the intermediate files are not the name of the result. *)
Lemma reduceName_final job m r : reduceName job m r ≠ "mrtmp." +:+ job.
Proof. intros E. symmetry in E. revert E. by apply final_ne. Qed.
Lemma mergeName_final job r : mergeName job r ≠ "mrtmp." +:+ job.
Proof. intros E. symmetry in E. revert E. by apply final_ne. Qed.

(** The pairs of the [m]-th map task, and those it leaves for the [r]-th reduce task. *)
Definition pairs_of render mapF (f0 : fs) (files : list string) (m : Z) : list KeyValue :=
  default [] (map_out render mapF f0 <$> zlookup files m).
Definition task_pairs render mapF f0 files (n r m : Z) : list KeyValue :=
  valid_kv <$> bucket n r (pairs_of render mapF f0 files m).

Lemma pairs_of_concat render mapF f0 files :
  concat (pairs_of render mapF f0 files <$> seqZ 0 (len files)) = all_pairs render mapF f0 files.
Proof.
  unfold all_pairs. f_equal. apply list_eq. intros i. rewrite !list_lookup_fmap.
  destruct (files !! i) as [file|] eqn:Ei; simpl.
  - pose proof (lookup_lt_Some _ _ _ Ei). rewrite (lookup_seqZ_lt 0 (len files) i) by (unfold len; lia).
    simpl. unfold pairs_of. by rewrite Z.add_0_l, zlookup_nat, Ei.
  - apply lookup_ge_None in Ei. rewrite (lookup_seqZ_ge 0 (len files) i) by (unfold len; lia). done.
Qed.

Lemma task_pairs_concat render mapF f0 files n r :
  (∀ kv, kv ∈ all_pairs render mapF f0 files → valid_kv kv = kv) →
  concat (task_pairs render mapF f0 files n r <$> seqZ 0 (len files)) =
    bucket n r (all_pairs render mapF f0 files).
Proof.
  intros Hval. rewrite <- pairs_of_concat, <- bucket_concat. f_equal. apply list_fmap_ext. intros i m Hm.
  unfold task_pairs. apply fmap_id_in. intros kv [_ Hkv]%list_elem_of_filter. apply Hval.
  rewrite <- pairs_of_concat. apply list_elem_of_In, in_concat.
  exists (pairs_of render mapF f0 files m). split; apply list_elem_of_In; [|done].
  apply list_elem_of_fmap. exists m. split; [done|]. by eapply list_elem_of_lookup_2.
Qed.

(** The lines of the result, when the merged map holds [v] of every key. *)
Lemma merge_lines_ok (kvs : gmap string string) all (v : string → string) :
  (∀ k, kvs !! k = if decide (k ∈ Key <$> all) then Some (v k) else None) →
  (λ k, Text (merge_line kvs k)) <$> sort_strings (map_to_list kvs).*1 = result_line v <$> sorted_keys all.
Proof.
  intros Hkvs.
  assert (Hkeys : sort_strings (map_to_list kvs).*1 = sorted_keys all).
  { apply sorted_keys_eq; [apply NoDup_fst_map_to_list|]. intros k.
    rewrite list_elem_of_fmap. split.
    - intros ([k' s] & -> & Hks%elem_of_map_to_list). simpl. rewrite Hkvs in Hks. by case_decide.
    - intros Hk. exists (k, v k). split; [done|]. apply elem_of_map_to_list. by rewrite Hkvs, decide_True. }
  rewrite Hkeys. apply list_fmap_ext. intros i k Hk. apply list_elem_of_lookup_2, elem_of_sorted_keys in Hk.
  unfold merge_line, result_line. by rewrite Hkvs, decide_True.
Qed.

Section whole.
Context (render : file → string) (mapF : string → string → list KeyValue).
Context (reduceF : string → list string → outcome string) (f0 : fs) (job : string) (files : list string).
Context (n : Z) (v : string → string).
Abbreviation all := (all_pairs render mapF f0 files).
Hypothesis Hn : 0 < n.
Hypothesis Hfresh : fresh_names f0 job.
Hypothesis Hin : ∀ file, file ∈ files → is_Some (f0 !! file).
Hypothesis Hval : ∀ kv, kv ∈ all → valid_kv kv = kv.
Hypothesis Hred : ∀ k, k ∈ Key <$> all → reduceF k (values k all) = Ok (v k) ∧ ToValid (v k) = v k.

(** After the map phase: a file per map task and reduce task. *)
Lemma map_phase :
  ∃ f1, run_maps render mapF f0 job n 0 files = Ok f1 ∧
    (∀ m r, 0 ≤ m < len files → 0 ≤ r < n →
       f1 !! reduceName job m r = Some [JArr (task_pairs render mapF f0 files n r m)]) ∧
    (∀ x, (∀ m r, 0 ≤ m < len files → 0 ≤ r < n → x ≠ reduceName job m r) → f1 !! x = f0 !! x).
Proof.
  destruct Hfresh as [Hf1 Hf2].
  destruct (run_maps_ok render mapF f0 job n Hn f0 0 files) as (f1 & Hrun & Hr1 & Hx1);
    [lia| |by intros; apply Hf1|].
  { intros file Hfile. split_and!; [by apply Hin|done|]. intros m r Hm ->.
    destruct (Hin _ Hfile) as [c Hc]. by rewrite Hf1 in Hc. }
  exists f1. split_and!; [done| |exact Hx1]. intros m r Hm Hr.
  destruct (zlookup_lt_Some files m Hm) as [file Hfile].
  specialize (Hr1 m file Hfile r Hr). rewrite Z.add_0_l in Hr1. rewrite Hr1.
  unfold task_pairs, pairs_of. by rewrite Hfile.
Qed.

(** After the reduce phase: a file per reduce task, with the results of its keys. *)
Lemma reduce_phase f1 :
  (∀ m r, 0 ≤ m < len files → 0 ≤ r < n →
     f1 !! reduceName job m r = Some [JArr (task_pairs render mapF f0 files n r m)]) →
  (∀ r, f1 !! mergeName job r = None) →
  ∃ f2, run_reduces reduceF f1 job (len files) (seqZ 0 n) = Ok f2 ∧
    (∀ r, 0 ≤ r < n → f2 !! mergeName job r =
       Some ((λ k, JObj (MkKV k (v k))) <$> sorted_keys (bucket n r all))) ∧
    (∀ x, (∀ r, 0 ≤ r < n → x ≠ mergeName job r) → f2 !! x = f1 !! x).
Proof.
  intros Hmaps Hnone.
  destruct (run_reduces_ok reduceF job f1 (len files) (seqZ 0 n) (task_pairs render mapF f0 files n) v)
    as (f2 & Hrun & Hr2 & Hx2); [apply NoDup_seqZ| |].
  { intros r Hr%elem_of_seqZ. rewrite task_pairs_concat by exact Hval. split_and!; [done| |].
    - intros m Hm. apply Hmaps; lia.
    - intros k [Hk Hkr]%elem_of_bucket_key. rewrite values_bucket by done. by apply Hred. }
  exists f2. split_and!; [done| |].
  - intros r Hr. rewrite Hr2 by (apply elem_of_seqZ; lia). rewrite task_pairs_concat by exact Hval.
    f_equal. apply list_fmap_ext. intros i k Hk.
    apply list_elem_of_lookup_2, elem_of_sorted_keys, elem_of_bucket_key in Hk as [Hk _].
    destruct (Hred k Hk) as [_ Hvk]. f_equal. unfold valid_kv. simpl. rewrite Hvk. f_equal.
    apply list_elem_of_fmap in Hk as (kv & -> & Hkv). exact (f_equal Key (Hval kv Hkv)).
  - intros x Hx. apply Hx2. intros r Hr%elem_of_seqZ. apply Hx. lia.
Qed.

(** Merging what the reduce phase leaves. *)
Lemma merge_phase f2 :
  (∀ r, 0 ≤ r < n → f2 !! mergeName job r =
     Some ((λ k, JObj (MkKV k (v k))) <$> sorted_keys (bucket n r all))) →
  merge f2 job n = Ok (<["mrtmp." +:+ job := result_line v <$> sorted_keys all]> f2).
Proof.
  intros Hr2. unfold merge.
  destruct (merge_read_ok job f2 (seqZ 0 n) ∅ v (λ r, sorted_keys (bucket n r all))) as (kvs & -> & Hk1 & Hk2).
  { intros r Hr%elem_of_seqZ. apply Hr2. lia. }
  cbn [mbind outcome_bind]. rewrite (merge_lines_ok kvs all v); [done|]. intros k. case_decide as Hk.
  - apply Hk1. exists (Z.rem (ihash k) n). pose proof (Z.rem_bound_pos (ihash k) n (ihash_nonneg k) Hn).
    split; [apply elem_of_seqZ; lia|]. apply elem_of_sorted_keys, elem_of_bucket_key. done.
  - rewrite Hk2; [done|]. intros r _ Hin'%elem_of_sorted_keys%elem_of_bucket_key. by destruct Hin'.
Qed.

Lemma Sequential_files :
  ∃ f', Sequential render mapF reduceF f0 job files n = Ok (f', [len files + n]) ∧
    job_files f0 f' job (len files) n (result_line v <$> sorted_keys all).
Proof.
  unfold Sequential. destruct map_phase as (f1 & -> & Hr1 & Hx1). cbn [mbind outcome_bind].
  destruct (reduce_phase f1 Hr1) as (f2 & -> & Hr2 & Hx2).
  { intros r. rewrite Hx1; [apply Hfresh|]. intros m r' Hm _ E. symmetry in E. revert E.
    apply reduceName_mergeName. lia. }
  cbn [mbind outcome_bind]. rewrite (merge_phase f2 Hr2). eexists. split; [done|]. split.
  - intros m r Hm Hr. rewrite lookup_insert_ne by (intros E; symmetry in E; by apply reduceName_final in E).
    rewrite Hx2; [|intros r' _; apply reduceName_mergeName; lia]. rewrite Hr1 by done. eauto.
  - intros r Hr. rewrite lookup_insert_ne by (intros E; symmetry in E; by apply mergeName_final in E).
    rewrite Hr2 by done. eauto.
  - by rewrite lookup_insert_eq.
  - intros x Hx Hx' Hxf. rewrite lookup_insert_ne by done. rewrite Hx2, Hx1; [done|exact Hx|exact Hx'].
Qed.
End whole.

(** C21. A sequential MapReduce job computes what MapReduce promises, when its input files exist,
    there is a reduce task, no intermediate file of a job of that name is left over (the tasks
    append to their files), the pairs are valid UTF-8, which JSON keeps, and the reduce function
    returns such values: for every key that the map function emits on some input file, the final
    file has one line, the lines are in the order of the keys, and the line of a key holds what
    the reduce function makes of all values emitted for that key, taken in the order of the
    files; no other file than those named by the job is touched. *)
Theorem Sequential_correct render mapF reduceF f0 job files n (v : string → string) :
  let all := all_pairs render mapF f0 files in
  0 < n → fresh_names f0 job → (∀ file, file ∈ files → is_Some (f0 !! file)) →
  (∀ kv, kv ∈ all → valid_kv kv = kv) →
  (∀ k, k ∈ Key <$> all → reduceF k (values k all) = Ok (v k) ∧ ToValid (v k) = v k) →
  ∃ f', Sequential render mapF reduceF f0 job files n = Ok (f', [len files + n]) ∧
    f' !! ("mrtmp." +:+ job) = Some (result_line v <$> sorted_keys all) ∧
    ∀ x, (∀ m r, x ≠ reduceName job m r) → (∀ r, x ≠ mergeName job r) → x ≠ "mrtmp." +:+ job →
      f' !! x = f0 !! x.
Proof.
  intros all Hn Hf Hin Hval Hred.
  destruct (Sequential_files render mapF reduceF f0 job files n v Hn Hf Hin Hval Hred) as (f' & Hs & Hj).
  exists f'. split_and!; [done|apply Hj|]. intros x H1 H2 H3. apply (jf_rest _ _ _ _ _ _ Hj); auto.
Qed.

Lemma removeFiles_ok f names :
  NoDup names → (∀ x, x ∈ names → is_Some (f !! x)) →
  ∃ f', removeFiles f names = Ok f' ∧
    ∀ x, f' !! x = if decide (x ∈ names) then None else f !! x.
Proof.
  revert f. induction names as [|y names IH]; intros f Hnd Hin; cbn [removeFiles].
  { exists f. split; [done|]. intros x. rewrite decide_False; [done|]. by intros ?%elem_of_nil. }
  apply NoDup_cons in Hnd as [Hy Hnd]. destruct (Hin y) as [c Hc]; [by left|].
  unfold removeFile. rewrite Hc. cbn [must mbind outcome_bind].
  destruct (IH (delete y f) Hnd) as (f' & Hf' & Hl).
  { intros x Hx. rewrite lookup_delete_ne by (by intros ->). apply Hin. by right. }
  exists f'. split; [done|]. intros x. rewrite Hl. destruct (decide (x = y)) as [->|].
  - rewrite lookup_delete_eq, (decide_True (P := y ∈ y :: names)) by (by left). by case_decide.
  - rewrite lookup_delete_ne by done. repeat case_decide; set_solver.
Qed.

(** The names that [CleanupFiles] removes. *)
Definition cleanup_names (job : string) (nMap n : Z) : list string :=
  (i ← seqZ 0 nMap; (λ j, reduceName job i j) <$> seqZ 0 n) ++
  ((λ i, mergeName job i) <$> seqZ 0 n) ++ ["mrtmp." +:+ job].

Lemma elem_of_cleanup_names job nMap n x :
  x ∈ cleanup_names job nMap n ↔
  (∃ m r, x = reduceName job m r ∧ 0 ≤ m < nMap ∧ 0 ≤ r < n) ∨
  (∃ r, x = mergeName job r ∧ 0 ≤ r < n) ∨ x = "mrtmp." +:+ job.
Proof.
  unfold cleanup_names. rewrite !elem_of_app, list_elem_of_singleton, list_elem_of_bind, list_elem_of_fmap.
  f_equiv; [|f_equiv].
  - split.
    + intros (m & (r & -> & Hr%elem_of_seqZ)%list_elem_of_fmap & Hm%elem_of_seqZ).
      exists m, r. split_and!; [done|lia..].
    + intros (m & r & -> & Hm & Hr). exists m. split; [|apply elem_of_seqZ; lia].
      apply list_elem_of_fmap. exists r. split; [done|]. apply elem_of_seqZ. lia.
  - split; intros (r & -> & Hr); exists r; (split; [done|]); [apply elem_of_seqZ in Hr|apply elem_of_seqZ]; lia.
Qed.

Lemma NoDup_cleanup_names job nMap n : NoDup (cleanup_names job nMap n).
Proof.
  apply NoDup_app. split_and!; [| |apply NoDup_app; split_and!].
  - apply NoDup_bind.
    + intros i j x Hi Hj' (r & -> & _)%list_elem_of_fmap (r' & E & _)%list_elem_of_fmap.
      apply elem_of_seqZ in Hi, Hj'. by destruct (reduceName_inj job i r j r') as [-> _]; [lia..| |].
    + intros i _. apply NoDup_fmap_2; [|apply NoDup_seqZ]. intros r r'. apply reduceName_inj_r.
    + apply NoDup_seqZ.
  - intros x (i & (j & -> & _)%list_elem_of_fmap & Hi%elem_of_seqZ)%list_elem_of_bind.
    rewrite elem_of_app. intros [(r & E & _)%list_elem_of_fmap|E%list_elem_of_singleton].
    + revert E. apply reduceName_mergeName. lia.
    + by apply reduceName_final in E.
  - apply NoDup_fmap_2; [|apply NoDup_seqZ]. intros r r'. apply mergeName_inj.
  - intros x (r & -> & _)%list_elem_of_fmap E%list_elem_of_singleton. by apply mergeName_final in E.
  - apply NoDup_singleton.
Qed.

(** After the job, [CleanupFiles] finds every file it wants to remove, and leaves the
    files as they were before the job. *)
Theorem Sequential_cleanup render mapF reduceF f0 job files n (v : string → string) :
  let all := all_pairs render mapF f0 files in
  0 < n → fresh_names f0 job → (∀ file, file ∈ files → is_Some (f0 !! file)) →
  f0 !! ("mrtmp." +:+ job) = None →
  (∀ kv, kv ∈ all → valid_kv kv = kv) →
  (∀ k, k ∈ Key <$> all → reduceF k (values k all) = Ok (v k) ∧ ToValid (v k) = v k) →
  ∃ f', Sequential render mapF reduceF f0 job files n = Ok (f', [len files + n]) ∧
    CleanupFiles f' job (len files) n = Ok f0.
Proof.
  intros all Hn Hf Hin Hfin Hval Hred.
  destruct (Sequential_files render mapF reduceF f0 job files n v Hn Hf Hin Hval Hred) as (f' & Hs & Hj).
  exists f'. split; [done|]. unfold CleanupFiles. fold (cleanup_names job (len files) n).
  destruct (removeFiles_ok f' (cleanup_names job (len files) n)) as (f'' & -> & Hl).
  - apply NoDup_cleanup_names.
  - intros x [(m & r & -> & Hm & Hr)|[(r & -> & Hr)| ->]]%elem_of_cleanup_names.
    + by apply (jf_reduce _ _ _ _ _ _ Hj).
    + by apply (jf_merge _ _ _ _ _ _ Hj).
    + rewrite (jf_final _ _ _ _ _ _ Hj). eauto.
  - f_equal. apply map_eq. intros x. rewrite Hl. destruct Hf as [Hf1 Hf2]. case_decide as Hx.
    + symmetry. apply elem_of_cleanup_names in Hx as [(m & r & -> & Hm & _)|[(r & -> & _)| ->]];
        [apply Hf1; lia|apply Hf2|done].
    + rewrite elem_of_cleanup_names in Hx. apply (jf_rest _ _ _ _ _ _ Hj); intros; [| |]; naive_solver.
Qed.

(** ** A small job *)

Lemma demo_fresh : fresh_names demo_files "wcseq".
Proof.
  split; intros; unfold demo_files; rewrite !lookup_insert_ne; try done; intros E; discriminate E.
Qed.

Lemma demo_exist file : file ∈ ["a.txt"; "b.txt"] → is_Some (demo_files !! file) ∧ ValidString file.
Proof.
  intros [->|[->|?%elem_of_nil]%elem_of_cons]%elem_of_cons; [| |done];
    (split; [eexists; reflexivity|]); apply ascii_valid; simpl; intros a Ha;
    repeat (apply elem_of_cons in Ha as [->|Ha]; [vm_compute; reflexivity|]); by apply elem_of_nil in Ha.
Qed.

Definition final_of (r : outcome (fs * list Z)) (job : string) : option file :=
  match r with Ok (f, _) => f !! ("mrtmp." +:+ job) | _ => None end.

(** The number of values. *)
Definition demo_reduce (key : string) (values : list string) : outcome string := Ok (Itoa (len values)).

Lemma demo_pairs :
  all_pairs demo_render demo_map demo_files ["a.txt"; "b.txt"] = [MkKV "k" "a.txt"; MkKV "k" "b.txt"].
Proof. reflexivity. Qed.

Lemma demo_pairs_ok :
  (∀ kv, kv ∈ all_pairs demo_render demo_map demo_files ["a.txt"; "b.txt"] → valid_kv kv = kv) ∧
  (∀ k, k ∈ Key <$> all_pairs demo_render demo_map demo_files ["a.txt"; "b.txt"] →
     demo_reduce k (values k (all_pairs demo_render demo_map demo_files ["a.txt"; "b.txt"])) = Ok "2" ∧
     ToValid "2" = "2").
Proof.
  rewrite demo_pairs. split.
  - intros kv [->|[->|?%elem_of_nil]%elem_of_cons]%elem_of_cons; [reflexivity..|done].
  - intros k [->|[->|?%elem_of_nil]%elem_of_cons]%elem_of_cons; [split; reflexivity..|done].
Qed.

Lemma Sequential_correct_witness :
  final_of (Sequential demo_render demo_map demo_reduce demo_files "wcseq" ["a.txt"; "b.txt"] 3) "wcseq" =
    Some [result_line (λ _, "2") "k"].
Proof.
  destruct (Sequential_correct demo_render demo_map demo_reduce demo_files "wcseq" ["a.txt"; "b.txt"] 3
    (λ _, "2")) as (f' & Hs & Hf & _);
    [lia|apply demo_fresh|intros; by apply demo_exist|apply demo_pairs_ok|apply demo_pairs_ok|].
  rewrite Hs. unfold final_of. rewrite Hf. vm_compute. reflexivity.
Defined.

Lemma Sequential_cleanup_witness :
  ('(f, _) ← Sequential demo_render demo_map demo_reduce demo_files "wcseq" ["a.txt"; "b.txt"] 3;
   CleanupFiles f "wcseq" 2 3) = Ok demo_files.
Proof.
  destruct (Sequential_cleanup demo_render demo_map demo_reduce demo_files "wcseq" ["a.txt"; "b.txt"] 3
    (λ _, "2")) as (f' & -> & Hf);
    [lia|apply demo_fresh|intros; by apply demo_exist|reflexivity|apply demo_pairs_ok|apply demo_pairs_ok|].
  exact Hf.
Defined.
