(* ===== verification/MrApps.v ===== *)
(** * The applications: word count ([main/wc.go], module [wc]) and inverted index
    ([main/ii.go], module [ii]).

    [IsLetter] is the table of [unicode.IsLetter]; that U+FFFD, which stands for wrong
    bytes, is not a letter is a hypothesis of the theorems. *)

From S2P Require Import Prelude GoLib MrTask MrMaster.

(** [strings.FieldsFunc] with the function that both applications give it. *)
Definition words_of (IsLetter : Z → bool) (contents : string) : list string :=
  FieldsFunc contents (λ r, negb (IsLetter r)).

Lemma words_valid IsLetter contents w :
  IsLetter RuneError = false → w ∈ words_of IsLetter contents → ValidString w.
Proof. intros HL. apply FieldsFunc_valid. by rewrite HL. Qed.

Module wc.

Definition mapF (IsLetter : Z → bool) (filename contents : string) : list KeyValue :=
  (λ one, MkKV one "1") <$> words_of IsLetter contents.

Fixpoint reduce_sum (wc : Z) (values : list string) : outcome Z :=
  match values with
  | [] => Ok wc
  | val :: values => num ← must (Atoi val); reduce_sum (i64 (wc + num)) values
  end.

Definition reduceF (key : string) (values : list string) : outcome string :=
  wc ← reduce_sum 0 values; Ok (Itoa wc).

(** How many times a word occurs. *)
Definition count (w : string) (words : list string) : Z := len (filter (λ x, x = w) words).

Lemma reduce_sum_ones n wc :
  0 ≤ wc → wc + Z.of_nat n < 2 ^ 63 → reduce_sum wc (replicate n "1") = Ok (wc + Z.of_nat n).
Proof.
  revert wc. induction n as [|n IH]; intros wc H1 H2; [simpl; by rewrite Z.add_0_r|].
  cbn [replicate reduce_sum]. change (Atoi "1") with (Some 1). cbn [must mbind outcome_bind].
  rewrite i64_small by (unfold is_i64; lia). rewrite IH by lia. f_equal. lia.
Qed.

Lemma values_words w (words : list string) :
  values w ((λ one, MkKV one "1") <$> words) = replicate (length (filter (λ x, x = w) words)) "1".
Proof.
  unfold values. induction words as [|x words IH]; [done|]. rewrite fmap_cons, !filter_cons. cbn [Key].
  case_decide; rewrite ?fmap_cons, IH; done.
Qed.

Lemma keys_words (words : list string) : Key <$> ((λ one, MkKV one "1") <$> words) = words.
Proof. induction words as [|x words IH]; [done|]. rewrite !fmap_cons. by rewrite IH. Qed.

Lemma concat_words {A} (g : A → list string) (l : list A) :
  concat ((λ x, (λ one, MkKV one "1") <$> g x) <$> l) = (λ one, MkKV one "1") <$> concat (g <$> l).
Proof. induction l as [|x l IH]; [done|]. rewrite !fmap_cons. simpl. by rewrite IH, fmap_app. Qed.

(** What the map and reduce functions make of the input files. *)
Lemma wc_pairs render IsLetter (f0 : fs) files :
  let words := concat ((λ file, words_of IsLetter (render (default [] (f0 !! file)))) <$> files) in
  IsLetter RuneError = false → len words < 2 ^ 63 →
  let all := all_pairs render (mapF IsLetter) f0 files in
  Key <$> all = words ∧ (∀ kv, kv ∈ all → valid_kv kv = kv) ∧
  (∀ w, w ∈ Key <$> all → reduceF w (values w all) = Ok (Itoa (count w words)) ∧
     ToValid (Itoa (count w words)) = Itoa (count w words)).
Proof.
  intros words HL Hlen all. assert (Hall : all = (λ one, MkKV one "1") <$> words).
  { unfold all, all_pairs, words. by rewrite <- concat_words. }
  rewrite Hall, keys_words. split_and!; [done| |].
  - intros kv (w & -> & Hw)%list_elem_of_fmap.
    unfold words in Hw. apply list_elem_of_In, in_concat in Hw as (l & Hl & Hw).
    apply list_elem_of_In, list_elem_of_fmap in Hl as (file & -> & _). apply list_elem_of_In in Hw.
    unfold valid_kv. simpl. by rewrite (ToValid_valid w) by (by eapply words_valid).
  - intros w _. rewrite values_words. unfold reduceF. unfold count, len.
    assert (Hc : (length (filter (λ x, x = w) words) ≤ length words)%nat) by apply length_filter.
    unfold len in Hlen. rewrite reduce_sum_ones by lia. split; [done|]. apply ToValid_valid, Itoa_valid. lia.
Qed.

End wc.

Module ii.

Definition mapF (IsLetter : Z → bool) (document value : string) : list KeyValue :=
  (λ one, MkKV one document) <$> words_of IsLetter value.

(** The documents, each where it comes first; [seen] is [documentNameMap]. *)
Fixpoint dedup (seen : gset string) (keys values : list string) : list string :=
  match values with
  | [] => keys
  | val :: values =>
      if decide (val ∈ seen) then dedup seen keys values
      else dedup ({[val]} ∪ seen) (keys ++ [val]) values
  end.

Definition list_docs (keys : list string) : Z * string :=
  foldl (λ st val, (st.1 + 1, st.2 +:+ val +:+ ",")) (0, "") keys.

Definition reduceF (key : string) (values : list string) : outcome string :=
  let keys := sort_strings (dedup ∅ [] values) in
  let '(sum, retStr) := list_docs keys in
  let l := String.list_ascii_of_string retStr in
  r ← must (slice_to l (len l - 1));
  Ok (Itoa sum +:+ " " +:+ String.string_of_list_ascii r).

Lemma dedup_spec seen keys values :
  NoDup keys → (∀ x, x ∈ keys ↔ x ∈ seen) →
  NoDup (dedup seen keys values) ∧
  ∀ x, x ∈ dedup seen keys values ↔ x ∈ keys ∨ x ∈ values.
Proof.
  revert seen keys. induction values as [|v values IH]; intros seen keys Hnd Hk; cbn [dedup].
  { split; [done|]. intros x. rewrite elem_of_nil. tauto. }
  case_decide as Hv.
  - destruct (IH seen keys Hnd Hk) as [H1 H2]. split; [done|]. intros x. rewrite H2, elem_of_cons.
    rewrite <- Hk in Hv. naive_solver.
  - destruct (IH ({[v]} ∪ seen) (keys ++ [v])) as [H1 H2].
    + apply NoDup_app. split_and!; [done| |apply NoDup_singleton].
      intros x Hx ->%list_elem_of_singleton. by apply Hv, Hk.
    + intros x. rewrite elem_of_app, list_elem_of_singleton, elem_of_union, elem_of_singleton, Hk. tauto.
    + split; [done|]. intros x. rewrite H2, elem_of_app, list_elem_of_singleton, elem_of_cons. tauto.
Qed.

Lemma list_docs_spec keys sum s :
  foldl (λ st val, (st.1 + 1, st.2 +:+ val +:+ ",")) (sum, s) keys =
    (sum + len keys, s +:+ foldr (λ k r, k +:+ "," +:+ r) "" keys).
Proof.
  assert (Hassoc : ∀ a b c : string, (a +:+ b) +:+ c = a +:+ b +:+ c).
  { intros a b c. induction a as [|x a IH]; [done|]. unfold String.app in *. simpl. by rewrite IH. }
  assert (Hnil : ∀ a : string, a +:+ "" = a).
  { intros a. induction a as [|x a IH]; [done|]. unfold String.app in *. simpl. by rewrite IH. }
  revert sum s. induction keys as [|k keys IH]; intros sum s; cbn [foldl foldr].
  - by rewrite len_nil, Z.add_0_r, Hnil.
  - rewrite IH, len_cons. cbn [fst snd]. f_equal; [lia|]. by rewrite !Hassoc.
Qed.

(** The names with a comma between two of them. *)
Fixpoint join (keys : list string) : string :=
  match keys with
  | [] => ""
  | [k] => k
  | k :: keys => k +:+ "," +:+ join keys
  end.

Lemma join_comma keys :
  keys ≠ [] → foldr (λ k r, k +:+ "," +:+ r) "" keys = join keys +:+ ",".
Proof.
  assert (Hassoc : ∀ a b c : string, (a +:+ b) +:+ c = a +:+ b +:+ c).
  { intros a b c. induction a as [|x a IH]; [done|]. unfold String.app in *. simpl. by rewrite IH. }
  induction keys as [|k [|k' keys] IH]; intros Hne; [done|done|].
  change (k +:+ "," +:+ foldr (λ k r, k +:+ "," +:+ r) "" (k' :: keys) = (k +:+ "," +:+ join (k' :: keys)) +:+ ",").
  rewrite IH by done. by rewrite !Hassoc.
Qed.

Lemma reduceF_ok k values :
  values ≠ [] →
  let ds := sort_strings (remove_dups values) in
  reduceF k values = Ok (Itoa (len ds) +:+ " " +:+ join ds).
Proof.
  intros Hne ds. unfold reduceF.
  destruct (dedup_spec ∅ [] values) as [Hnd Hin]; [constructor|set_solver|].
  assert (sort_strings (dedup ∅ [] values) = ds) as ->.
  { apply sort_strings_perm_eq, NoDup_Permutation; [done|apply NoDup_remove_dups|].
    intros x. rewrite Hin, elem_of_remove_dups, elem_of_nil. tauto. }
  assert (Hds : ds ≠ []).
  { intros E. destruct values as [|v values]; [done|]. assert (v ∈ ds) as H.
    { unfold ds. rewrite sort_strings_Permutation, elem_of_remove_dups. by left. }
    rewrite E in H. by apply elem_of_nil in H. }
  unfold list_docs. rewrite list_docs_spec, join_comma by done. cbv iota beta.
  rewrite Z.add_0_l. change ("" +:+ ?s) with s. rewrite list_ascii_app.
  set (l := String.list_ascii_of_string (join ds)).
  assert (Hs : slice_to (l ++ String.list_ascii_of_string ",")
            (len (l ++ String.list_ascii_of_string ",") - 1) = Some l).
  { unfold slice_to. rewrite len_app. change (len (String.list_ascii_of_string ",")) with 1.
    pose proof (len_nonneg l). rewrite decide_True by lia. f_equal.
    replace (Z.to_nat (len l + 1 - 1)) with (length l) by (unfold len; lia). apply take_app_length. }
  rewrite Hs. simpl. unfold l. by rewrite String.string_of_list_ascii_of_string.
Qed.

Lemma join_valid keys : (∀ k, k ∈ keys → ValidString k) → ValidString (join keys).
Proof.
  induction keys as [|k [|k' keys] IH]; intros H; [constructor|apply H; by left|].
  apply ValidString_app; [apply H; by left|]. apply ValidString_app.
  - apply ascii_valid. by intros a ->%list_elem_of_singleton.
  - apply IH. intros x Hx. apply H. by right.
Qed.

Section index.
Variable render : file → string.
Variable IsLetter : Z → bool.
Variable f0 : fs.

Definition words_in (file : string) : list string :=
  words_of IsLetter (render (default [] (f0 !! file))).

(** The files in which a word occurs, in order, each once. *)
Definition docs (files : list string) (w : string) : list string :=
  sort_strings (remove_dups (filter (λ file, w ∈ words_in file) files)).

Lemma index_keys files :
  Key <$> all_pairs render (mapF IsLetter) f0 files = concat (words_in <$> files).
Proof.
  unfold all_pairs. induction files as [|file files IH]; [done|].
  rewrite !fmap_cons. simpl. rewrite fmap_app, IH. f_equal.
  unfold map_out, mapF. fold (words_in file). rewrite <- list_fmap_compose. apply list_fmap_id.
Qed.

Lemma index_values files w x :
  x ∈ values w (all_pairs render (mapF IsLetter) f0 files) ↔ x ∈ files ∧ w ∈ words_in x.
Proof.
  unfold values. rewrite list_elem_of_fmap. split.
  - intros (kv & -> & [<- Hkv]%list_elem_of_filter).
    apply list_elem_of_In, in_concat in Hkv as (l & Hl & Hkv).
    apply list_elem_of_In, list_elem_of_fmap in Hl as (file & -> & Hfile).
    by apply list_elem_of_In, list_elem_of_fmap in Hkv as (w' & -> & Hw').
  - intros [Hx Hw]. exists (MkKV w x). split; [done|]. apply list_elem_of_filter. split; [done|].
    apply list_elem_of_In, in_concat. exists (mapF IsLetter x (render (default [] (f0 !! x)))).
    split; apply list_elem_of_In, list_elem_of_fmap; eauto.
Qed.

Lemma index_docs files w :
  sort_strings (remove_dups (values w (all_pairs render (mapF IsLetter) f0 files))) = docs files w.
Proof.
  apply sort_strings_perm_eq, NoDup_Permutation; [apply NoDup_remove_dups..|].
  intros x. rewrite !elem_of_remove_dups, index_values, list_elem_of_filter. tauto.
Qed.

(** What the map and reduce functions make of the input files. *)
Lemma ii_pairs files :
  (∀ file, file ∈ files → ValidString file) → IsLetter RuneError = false →
  let all := all_pairs render (mapF IsLetter) f0 files in
  let line w := Itoa (len (docs files w)) +:+ " " +:+ join (docs files w) in
  (∀ kv, kv ∈ all → valid_kv kv = kv) ∧
  (∀ w, w ∈ Key <$> all → reduceF w (values w all) = Ok (line w) ∧ ToValid (line w) = line w).
Proof.
  intros Hin HL all line. split.
  - intros kv Hkv. apply list_elem_of_In, in_concat in Hkv as (l & Hl & Hkv).
    apply list_elem_of_In, list_elem_of_fmap in Hl as (file & -> & Hfile).
    apply list_elem_of_In, list_elem_of_fmap in Hkv as (w & -> & Hw).
    unfold valid_kv. simpl. rewrite (ToValid_valid w) by (by eapply words_valid).
    by rewrite (ToValid_valid file) by (by apply Hin).
  - intros w Hw. unfold all, line in *. rewrite reduceF_ok; [|by intros ?%values_nil]. rewrite index_docs. split; [done|].
    apply ToValid_valid, ValidString_app; [apply Itoa_valid, len_nonneg|].
    apply ValidString_app; [apply ascii_valid; by intros a ->%list_elem_of_singleton|].
    apply join_valid. intros x Hx. unfold docs in Hx.
    rewrite sort_strings_Permutation, elem_of_remove_dups, list_elem_of_filter in Hx. destruct Hx as [_ Hx]. by apply Hin.
Qed.
End index.

End ii.

(** ** A small job *)

Definition demo_letter (r : Z) : bool := (97 <=? r) && (r <=? 122).
