(* ===== verification/MrWorker.v ===== *)
(** * The worker and the master's registrations: [mapreduce/worker.go], [common_rpc.go] and the
    RPC methods of [master.go].

    A worker runs one [DoTask] at a time; a second one that starts meanwhile ends the
    program.  The steps of [DoTask] between which other handlers may run are separate
    operations. *)

From S2P Require Import Prelude GoLib MrTask.

Inductive jobPhase := mapPhase | reducePhase.
#[export] Instance jobPhase_eq_dec : EqDecision jobPhase.
Proof. solve_decision. Defined.

Record DoTaskArgs := MkDoTaskArgs {
  JobName : string;
  File : string;
  Phase : jobPhase;
  TaskNumber : Z;
  NumOtherPhase : Z;
}.

Record Parallelism := MkParallelism { par_now : Z; par_max : Z }.

Record Worker := MkWorker {
  wk_name : string;
  nRPC : Z;        (** quit after this many RPCs *)
  nTasks : Z;
  concurrent : Z;
}.

Section worker.
Variable render : file → string.
Variable Map : string → string → list KeyValue.
Variable Reduce : string → list string → outcome string.

(** The first critical section; [log.Fatal] ends the program. *)
Definition DoTask_enter (wk : Worker) : outcome Worker :=
  let wk := MkWorker (wk_name wk) (nRPC wk) (nTasks wk + 1) (concurrent wk + 1) in
  if 1 <? concurrent wk then Panic else Ok wk.

(** The shared count of parallel tasks, and whether the task pauses for a second. *)
Definition DoTask_parallel (p : option Parallelism) : option Parallelism * bool :=
  match p with
  | None => (None, false)
  | Some p =>
      let now := i32 (par_now p + 1) in
      let max := if par_max p <? now then now else par_max p in
      (Some (MkParallelism now max), max <? 2)
  end.

Definition DoTask_run (f : fs) (arg : DoTaskArgs) : outcome fs :=
  match Phase arg with
  | mapPhase => doMap render Map f (JobName arg) (TaskNumber arg) (File arg) (NumOtherPhase arg)
  | reducePhase =>
      doReduce Reduce f (JobName arg) (TaskNumber arg) (mergeName (JobName arg) (TaskNumber arg))
        (NumOtherPhase arg)
  end.

Definition DoTask_leave (wk : Worker) : Worker :=
  MkWorker (wk_name wk) (nRPC wk) (nTasks wk) (concurrent wk - 1).

Definition DoTask_unparallel (p : option Parallelism) : option Parallelism :=
  match p with
  | None => None
  | Some p => Some (MkParallelism (i32 (par_now p - 1)) (par_max p))
  end.

(** The whole handler, when nothing else runs meanwhile. *)
Definition DoTask (wk : Worker) (p : option Parallelism) (f : fs) (arg : DoTaskArgs) :
    outcome (Worker * option Parallelism * fs) :=
  wk ← DoTask_enter wk;
  let '(p, _) := DoTask_parallel p in
  f ← DoTask_run f arg;
  Ok (DoTask_leave wk, DoTask_unparallel p, f).

(** [Shutdown]: the worker and the reply. *)
Definition Worker_Shutdown (wk : Worker) : Worker * Z :=
  (MkWorker (wk_name wk) 1 (nTasks wk) (concurrent wk), nTasks wk).

(** One round of the accept loop of [RunWorker]; [None] when the loop ends.  [conn] is
    whether [Accept] returned a connection. *)
Definition RunWorker_round (wk : Worker) (conn : bool) : option Worker :=
  if nRPC wk =? 0 then None
  else if conn then Some (MkWorker (wk_name wk) (nRPC wk - 1) (nTasks wk) (concurrent wk))
  else None.
End worker.

(** ** The master *)

Record Master := MkMaster { workers : list string; stats : list Z }.

Definition Register (mr : Master) (worker : string) : Master :=
  MkMaster (workers mr ++ [worker]) (stats mr).

(** One round of [forwardRegistrations]: the worker that is sent on the channel, if there is
    one the channel has not had; otherwise the goroutine waits for [Register]. *)
Definition forward_round (mr : Master) (i : Z) : Z * option string :=
  match zlookup (workers mr) i with
  | Some w => (i + 1, Some w)
  | None => (i, None)
  end.

(** [replies] are the answers to the [Shutdown] calls, [None] for a failed call. *)
Fixpoint killWorkers (ws : list string) (replies : list (option Z)) (ntasks : list Z) : list Z :=
  match ws, replies with
  | _ :: ws, Some n :: replies => killWorkers ws replies (ntasks ++ [n])
  | _ :: ws, None :: replies => killWorkers ws replies ntasks
  | _ :: ws, [] => killWorkers ws [] ntasks
  | [], _ => ntasks
  end.

(** ** The life of a worker *)

(** What happens at a worker, with the tasks that are running. *)
Inductive wevent := Enter | Leave | Shut | Conn.

Definition wstep (wk : Worker) (e : wevent) : outcome Worker :=
  match e with
  | Enter => DoTask_enter wk
  | Leave => Ok (DoTask_leave wk)
  | Shut => Ok (fst (Worker_Shutdown wk))
  | Conn => must (RunWorker_round wk true)
  end.

Fixpoint wrun (wk : Worker) (es : list wevent) : outcome Worker :=
  match es with [] => Ok wk | e :: es => wk ← wstep wk e; wrun wk es end.

#[export] Instance wevent_eq_dec : EqDecision wevent.
Proof. solve_decision. Defined.

Definition count_of (e : wevent) (es : list wevent) : Z := len (filter (λ x, x = e) es).

Lemma count_of_nil e : count_of e [] = 0.
Proof. done. Qed.

Lemma count_of_cons e x es : count_of e (x :: es) = (if decide (x = e) then 1 else 0) + count_of e es.
Proof. unfold count_of. rewrite filter_cons. case_decide; [rewrite len_cons|]; lia. Qed.

(** The tasks that are entered and not left never number more than one. *)
Definition nested (es : list wevent) : Prop :=
  ∀ k, count_of Enter (take k es) - count_of Leave (take k es) ≤ 1.

Lemma wrun_counts wk es wk' :
  wrun wk es = Ok wk' →
  nTasks wk' = nTasks wk + count_of Enter es ∧
  concurrent wk' = concurrent wk + count_of Enter es - count_of Leave es.
Proof.
  revert wk. induction es as [|e es IH]; intros wk; cbn [wrun].
  { intros [= <-]. rewrite !count_of_nil. lia. }
  intros (wk1 & H1 & H2)%bind_Ok. apply IH in H2 as [-> ->]. rewrite !count_of_cons.
  destruct e; repeat case_decide; try done; simpl in *.
  - unfold DoTask_enter in H1. simpl in H1. destruct (1 <? _); [done|]. injection H1 as <-. simpl. lia.
  - injection H1 as <-. simpl. lia.
  - injection H1 as <-. simpl. lia.
  - apply must_Ok in H1. unfold RunWorker_round in H1. destruct (nRPC wk =? 0); [done|].
    injection H1 as <-. simpl. lia.
Qed.

Definition enters_ok (c : Z) (es : list wevent) : Prop :=
  ∀ k, es !! k = Some Enter → c + count_of Enter (take (S k) es) - count_of Leave (take (S k) es) ≤ 1.

Definition delta (e : wevent) : Z := match e with Enter => 1 | Leave => -1 | _ => 0 end.

Lemma count_delta e es :
  count_of Enter (e :: es) - count_of Leave (e :: es) = delta e + count_of Enter es - count_of Leave es.
Proof. rewrite !count_of_cons. destruct e; repeat case_decide; try done; simpl; lia. Qed.

Lemma enters_ok_cons c e es :
  enters_ok c (e :: es) ↔ (e = Enter → c ≤ 0) ∧ enters_ok (c + delta e) es.
Proof.
  unfold enters_ok. split.
  - intros H. split.
    + intros ->. specialize (H 0%nat eq_refl). cbn [take] in H. rewrite take_0 in H. pose proof (count_delta Enter []) as E.
      rewrite !count_of_nil in E. cbn [delta] in E. lia.
    + intros k Hk. specialize (H (S k) Hk). cbn [take] in *. pose proof (count_delta e (e :: take k es)).
      pose proof (count_delta e (take (S k) es)) as E. cbn [take] in E. lia.
  - intros [H0 H] [|k] Hk.
    + injection Hk as ->. specialize (H0 eq_refl). cbn [take]. rewrite take_0. pose proof (count_delta Enter []) as E.
      rewrite !count_of_nil in E. cbn [delta] in E. lia.
    + specialize (H k Hk). pose proof (count_delta e (take (S k) es)). cbn [take] in *. lia.
Qed.

Lemma wrun_ok_iff wk es :
  Conn ∉ es → (∃ wk', wrun wk es = Ok wk') ↔ enters_ok (concurrent wk) es.
Proof.
  revert wk. induction es as [|e es IH]; intros wk Hc; cbn [wrun].
  { split; [|by eauto]. intros _ k Hk. by rewrite lookup_nil in Hk. }
  apply not_elem_of_cons in Hc as [Hce Hc]. rewrite enters_ok_cons.
  destruct e; [|rewrite (IH (DoTask_leave wk)) by done|rewrite (IH (fst (Worker_Shutdown wk))) by done|done];
    simpl; unfold Z.sub; [|rewrite ?Z.add_0_r; naive_solver..].
  unfold DoTask_enter. simpl. destruct (Z.ltb_spec 1 (concurrent wk + 1)).
  - split; [by intros [? ?]|]. intros [H0 _]. specialize (H0 eq_refl). lia.
  - set (wk1 := MkWorker _ _ _ _). simpl. rewrite (IH wk1) by done. simpl. split; [|by intros [_ ?]].
    intros He. split; [lia|done].
Qed.

(** One more event than [k]. *)
Lemma count_take_S e es k x :
  es !! k = Some x →
  count_of e (take (S k) es) = count_of e (take k es) + (if decide (x = e) then 1 else 0).
Proof.
  intros Hx. rewrite (take_S_r es k x Hx). unfold count_of.
  rewrite filter_app, len_app, filter_cons, filter_nil. case_decide; rewrite ?len_cons, ?len_nil; lia.
Qed.

Lemma nested_enters es : nested es ↔ enters_ok 0 es.
Proof.
  split.
  - intros H k _. specialize (H (S k)). lia.
  - intros H k. induction k as [|k IH]; [rewrite take_0, !count_of_nil; lia|].
    destruct (es !! k) as [e|] eqn:Ek.
    + destruct (decide (e = Enter)) as [->|Hne]; [specialize (H k Ek); lia|].
      rewrite !(count_take_S _ _ _ _ Ek), (decide_False (P := e = Enter)) by done. case_decide; lia.
    + apply lookup_ge_None in Ek. rewrite !take_ge in * by lia. done.
Qed.

(** A worker ends the program exactly when a task is given to it while another one is
    running; otherwise it counts every task it was given, which is what [Shutdown] reports. *)
Theorem worker_one_task wk es :
  concurrent wk = 0 → Conn ∉ es →
  ((∃ wk', wrun wk es = Ok wk') ↔ nested es) ∧
  (∀ wk', wrun wk es = Ok wk' →
     snd (Worker_Shutdown wk') = nTasks wk + count_of Enter es ∧
     concurrent wk' = count_of Enter es - count_of Leave es).
Proof.
  intros Hc Hes. split; [by rewrite wrun_ok_iff, nested_enters, Hc|].
  intros wk' Hr. apply wrun_counts in Hr as [H1 H2]. simpl. lia.
Qed.

Lemma worker_one_task_witness :
  ∃ wk', wrun (MkWorker "w" 10 0 0) [Enter; Leave; Enter; Leave; Shut] = Ok wk' ∧ nTasks wk' = 2.
Proof.
  destruct (worker_one_task (MkWorker "w" 10 0 0) [Enter; Leave; Enter; Leave; Shut]) as [[_ H] H2];
    [done|by apply (bool_decide_unpack _)|].
  assert (nested [Enter; Leave; Enter; Leave; Shut]) as Hn
    by (intros [|[|[|[|[|[|k]]]]]]; vm_compute; discriminate).
  destruct (H Hn) as [wk' Hr].
  exists wk'. split; [done|]. by destruct (H2 wk' Hr) as [? _].
Defined.

(** ** The count of parallel tasks *)

(** Tasks of several workers that share one [Parallelism]: one begins ([true]) or ends. *)
Fixpoint par_run (p : option Parallelism) (es : list bool) : option Parallelism :=
  match es with
  | [] => p
  | true :: es => par_run (fst (DoTask_parallel p)) es
  | false :: es => par_run (DoTask_unparallel p) es
  end.

Definition running (es : list bool) : Z := foldr (λ (b : bool) n, (if b then 1 else -1) + n) 0 es.

Lemma running_cons b es : running (b :: es) = (if b then 1 else -1) + running es.
Proof. done. Qed.

Lemma running_app es1 es2 : running (es1 ++ es2) = running es1 + running es2.
Proof.
  induction es1 as [|b es1 IH]; [done|]. rewrite <- app_comm_cons, !running_cons, IH. lia.
Qed.

Lemma running_bound es : Z.abs (running es) ≤ len es.
Proof.
  induction es as [|b es IH]; [done|]. rewrite running_cons, len_cons. destruct b; lia.
Qed.

Lemma par_run_app p es1 es2 : par_run p (es1 ++ es2) = par_run (par_run p es1) es2.
Proof. revert p. induction es1 as [|[] es1 IH]; intros p; simpl; [done|apply IH|apply IH]. Qed.

(** [now] is the number of tasks that run, and [max] the largest number that ever ran together:
    that is what decides whether a task pauses so that others can run beside it. *)
Theorem parallelism_counts es :
  len es < 2 ^ 31 →
  ∃ now max, par_run (Some (MkParallelism 0 0)) es = Some (MkParallelism now max) ∧
    now = running es ∧ (∀ k, running (take k es) ≤ max) ∧ ∃ k, running (take k es) = max.
Proof.
  induction es as [|b es IH] using rev_ind; intros Hlen.
  { exists 0, 0. split_and!; [done|done|intros k; by rewrite take_nil|by exists 0%nat]. }
  rewrite len_app, len_cons, len_nil in Hlen.
  destruct IH as (now & max & E & -> & Hle & k & Hk); [lia|]. pose proof (running_bound es).
  rewrite par_run_app, E, running_app.
  assert (Htake : ∀ j, running (take j (es ++ [b])) ≤ Z.max max (running es + (if b then 1 else -1))).
  { intros j. destruct (decide (j ≤ length es)%nat).
    - rewrite take_app_le by done. specialize (Hle j). lia.
    - rewrite take_ge by (rewrite length_app; simpl; lia). rewrite running_app. simpl. lia. }
  assert (Hold : running (take (Nat.min k (length es)) (es ++ [b])) = max).
  { rewrite take_app_le by lia. destruct (decide (k ≤ length es)%nat); [by rewrite Nat.min_l by lia|].
    rewrite Nat.min_r, take_ge by lia. by rewrite take_ge in Hk by lia. }
  assert (Hcur : running es ≤ max) by (specialize (Hle (length es)); by rewrite take_ge in Hle by lia).
  destruct b; simpl; rewrite i32_small by (unfold is_i32; lia).
  - do 2 eexists. split; [done|]. split; [lia|]. destruct (Z.ltb_spec max (running es + 1)).
    + split; [intros j; specialize (Htake j); simpl in Htake; lia|]. exists (S (length es)).
      rewrite take_ge by (rewrite length_app; simpl; lia). rewrite running_app. simpl. lia.
    + split; [intros j; specialize (Htake j); simpl in Htake; lia|]. by eexists.
  - do 2 eexists. split; [done|]. split; [lia|].
    split; [intros j; specialize (Htake j); simpl in Htake; lia|]. by eexists.
Qed.

(** The accept loop takes as many connections as [nRPC] says. *)
Lemma RunWorker_limit wk n :
  0 ≤ nRPC wk → Z.of_nat n ≤ nRPC wk →
  wrun wk (replicate n Conn) = Ok (MkWorker (wk_name wk) (nRPC wk - Z.of_nat n) (nTasks wk) (concurrent wk)).
Proof.
  revert wk. induction n as [|n IH]; intros wk H0 Hn; cbn [replicate wrun wstep].
  { rewrite Z.sub_0_r. by destruct wk. }
  unfold RunWorker_round. rewrite (proj2 (Z.eqb_neq (nRPC wk) 0)) by lia. cbn [must mbind outcome_bind].
  rewrite IH by (simpl; lia). simpl. do 2 f_equal. lia.
Qed.

(** ** The registrations that [schedule] is told *)

(** [Register] calls and rounds of [forwardRegistrations] in any order. *)
Inductive mevent := Reg (w : string) | Fwd.

Definition mstep (st : Master * Z * list string) (e : mevent) : Master * Z * list string :=
  let '(mr, i, sent) := st in
  match e with
  | Reg w => (Register mr w, i, sent)
  | Fwd => let '(i, w) := forward_round mr i in (mr, i, sent ++ option_list w)
  end.

(** The workers that have been sent are the first ones registered, in order and once each. *)
Lemma forward_prefix es mr i sent :
  0 ≤ i ≤ len (workers mr) → sent = take (Z.to_nat i) (workers mr) →
  let '(mr', i', sent') := foldl mstep (mr, i, sent) es in
  0 ≤ i' ≤ len (workers mr') ∧ sent' = take (Z.to_nat i') (workers mr').
Proof.
  revert mr i sent. induction es as [|e es IH]; intros mr i sent Hi Hs; [done|]. cbn [foldl].
  destruct e as [w|]; cbn [mstep].
  - apply IH; unfold Register; cbn [workers].
    + rewrite (len_app (workers mr) [w]). change (len [w]) with 1. lia.
    + rewrite Hs, take_app_le; [done|]. unfold len in Hi. lia.
  - unfold forward_round. destruct (zlookup (workers mr) i) as [w|] eqn:Ew; apply IH; simpl.
    + apply zlookup_Some_lt in Ew. lia.
    + replace (Z.to_nat (i + 1)) with (S (Z.to_nat i)) by lia.
      rewrite (take_S_r _ _ w); [by rewrite Hs|]. unfold zlookup in Ew. by rewrite decide_True in Ew by lia.
    + done.
    + by rewrite app_nil_r.
Qed.
