(* ===== verification/MrRpc.v ===== *)
(** * The RPC servers of MapReduce: [call] of [mapreduce/common_rpc.go], the master's server of
    [master_rpc.go] and [RunWorker] of [worker.go].

    Sockets are names; a listener that is open lets callers connect, and keeps them until its
    accept loop takes them, one by one.  Everything that happens in between (other calls, other
    servers, the bodies of [DoTask]) is a sequence of events. *)

From S2P Require Import Prelude GoLib MrTask MrWorker.

Inductive rpc_request :=
| MasterRegister (worker : string)
| MasterShutdown
| WorkerDoTask (arg : DoTaskArgs)
| WorkerShutdown.

(** How far a call is: in the queue of the listener, never taken from it, accepted, in the body of
    [DoTask], or back with what [call] returns and the reply. *)
Inductive call_state :=
| Waiting
| Refused
| Served
| Running
| Returned (ok : bool) (Ntasks : Z).
#[export] Instance call_state_eq_dec : EqDecision call_state.
Proof. solve_decision. Defined.

Record rpc_call := MkRpc {
  rc_server : option nat;  (** none: [rpc.Dial] found no listener *)
  rc_request : rpc_request;
  rc_state : call_state;
}.

(** What [call] returns, if it has. *)
Definition call_result (c : rpc_call) : option bool :=
  match rc_state c with
  | Refused => Some false
  | Returned ok _ => Some ok
  | _ => None
  end.

(** The object that a server gives to [rpcs.Register]; [shutdown]: the channel is closed. *)
Inductive object := MasterObj (mr : Master) (shutdown : bool) | WorkerObj (wk : Worker).

(** A worker waits for its registration before it accepts. *)
Inductive loop_state := Registering (call : nat) | Accepting | Ended.

Record server := MkServer {
  address : string;
  obj : object;
  l_open : bool;
  loop : loop_state;
}.

Record world := MkWorld {
  sockets : gmap string nat;
  servers : list server;
  calls : list rpc_call;
  files : fs;
  parallelism : option Parallelism;
}.

Definition set_calls (cs : list rpc_call) (w : world) : world :=
  MkWorld (sockets w) (servers w) cs (files w) (parallelism w).
Definition set_server (k : nat) (sv : server) (w : world) : world :=
  MkWorld (sockets w) (<[k := sv]> (servers w)) (calls w) (files w) (parallelism w).
Definition set_loop (l : loop_state) (sv : server) : server :=
  MkServer (address sv) (obj sv) (l_open sv) l.
Definition set_obj (o : object) (sv : server) : server :=
  MkServer (address sv) o (l_open sv) (loop sv).
Definition set_state (id : nat) (c : rpc_call) (s : call_state) (w : world) : world :=
  set_calls (<[id := MkRpc (rc_server c) (rc_request c) s]> (calls w)) w.

Lemma set_calls_id w : set_calls (calls w) w = w.
Proof. by destruct w. Qed.

(** [os.Remove] and [net.Listen], which takes the next number; an error is fatal. *)
Definition listen (ok : bool) (sv : server) (w : world) : outcome world :=
  let socks := delete (address sv) (sockets w) in
  guard_go ok;;
  Ok (MkWorld (<[address sv := length (servers w)]> socks) (servers w ++ [sv]) (calls w) (files w)
        (parallelism w)).

Definition newMaster (master : string) : server :=
  MkServer master (MasterObj (MkMaster [] []) false) true Accepting.

Definition startRPCServer (ok : bool) (master : string) (w : world) : outcome world :=
  listen ok (newMaster master) w.

(** [call], up to the answer. *)
Definition call_begin (srv : string) (q : rpc_request) (w : world) : world :=
  set_calls (calls w ++ [match sockets w !! srv with
                         | None => MkRpc None q Refused
                         | Some k => MkRpc (Some k) q Waiting
                         end]) w.

(** Calls that wait at listener [k] fail when it is closed; the socket is removed. *)
Definition refuse (k : nat) (c : rpc_call) : rpc_call :=
  if decide (rc_server c = Some k ∧ rc_state c = Waiting) then MkRpc (rc_server c) (rc_request c) Refused
  else c.
Definition close (k : nat) (sv : server) (w : world) : world :=
  if l_open sv then
    MkWorld (delete (address sv) (sockets w))
      (<[k := MkServer (address sv) (obj sv) false (loop sv)]> (servers w))
      (refuse k <$> calls w) (files w) (parallelism w)
  else set_server k sv w.

(** The first caller in the queue. *)
Definition queue (k : nat) (w : world) : option nat :=
  fst <$> list_find (λ c, rc_server c = Some k ∧ rc_state c = Waiting) (calls w).

Definition accept (id : nat) (w : world) : world :=
  match calls w !! id with Some c => set_state id c Served w | None => w end.

(** One round of an accept loop; [Block]: [Accept] waits. *)
Definition accept_round (k : nat) (w : world) : outcome world :=
  sv ← must (servers w !! k);
  match loop sv with
  | Accepting =>
      match obj sv with
      | MasterObj mr shutdown =>
          if shutdown then Ok (set_server k (set_loop Ended sv) w)
          else match queue k w with
               | Some id => Ok (accept id w)
               | None => if l_open sv then Block else Ok (set_server k (set_loop Ended sv) w)
               end
      | WorkerObj wk =>
          match queue k w with
          | None => if (nRPC wk =? 0) || negb (l_open sv) then Ok (close k (set_loop Ended sv) w)
                    else Block
          | Some id =>
              match RunWorker_round wk true with
              | Some wk => Ok (set_server k (set_obj (WorkerObj wk) sv) (accept id w))
              | None => Ok (close k (set_loop Ended sv) w)
              end
          end
      end
  | _ => Block
  end.

(** [RunWorker] up to its call of [Master.Register], and after that call. *)
Definition RunWorker_begin (ok : bool) (MasterAddress me : string) (nRPC : Z) (w : world) : outcome world :=
  w ← listen ok (MkServer me (WorkerObj (MkWorker me nRPC 0 0)) true (Registering (length (calls w)))) w;
  Ok (call_begin MasterAddress (MasterRegister me) w).

Definition RunWorker_registered (k : nat) (w : world) : outcome world :=
  sv ← must (servers w !! k);
  match loop sv with
  | Registering id =>
      c ← must (calls w !! id);
      match call_result c with
      | Some _ => Ok (set_server k (set_loop Accepting sv) w)
      | None => Block
      end
  | _ => Block
  end.

(** The goroutine of a connection calls the handler; [DoTask] only begins.  A second [Shutdown] of
    a master closes a closed channel. *)
Definition serve (id : nat) (w : world) : outcome world :=
  c ← must (calls w !! id);
  match rc_server c, rc_state c with
  | Some k, Served =>
      sv ← must (servers w !! k);
      match obj sv, rc_request c with
      | MasterObj mr shutdown, MasterRegister x =>
          Ok (set_state id c (Returned true 0) (set_server k (set_obj (MasterObj (Register mr x) shutdown) sv) w))
      | MasterObj mr shutdown, MasterShutdown =>
          guard_go (negb shutdown);;
          Ok (set_state id c (Returned true 0) (close k (set_obj (MasterObj mr true) sv) w))
      | WorkerObj wk, WorkerDoTask arg =>
          wk ← DoTask_enter wk;
          let w := set_state id c Running (set_server k (set_obj (WorkerObj wk) sv) w) in
          Ok (MkWorld (sockets w) (servers w) (calls w) (files w) (fst (DoTask_parallel (parallelism w))))
      | WorkerObj wk, WorkerShutdown =>
          let '(wk, Ntasks) := Worker_Shutdown wk in
          Ok (set_state id c (Returned true Ntasks) (set_server k (set_obj (WorkerObj wk) sv) w))
      | _, _ => Ok (set_state id c (Returned false 0) w)
      end
  | _, _ => Block
  end.

Section world.
Variable render : file → string.
Variable Map : string → string → list KeyValue.
Variable Reduce : string → list string → outcome string.

(** The rest of [DoTask]. *)
Definition DoTask_finish (id : nat) (w : world) : outcome world :=
  c ← must (calls w !! id);
  match rc_server c, rc_request c, rc_state c with
  | Some k, WorkerDoTask arg, Running =>
      sv ← must (servers w !! k);
      match obj sv with
      | WorkerObj wk =>
          f ← DoTask_run render Map Reduce (files w) arg;
          let w := set_state id c (Returned true 0) (set_server k (set_obj (WorkerObj (DoTask_leave wk)) sv) w) in
          Ok (MkWorld (sockets w) (servers w) (calls w) f (DoTask_unparallel (parallelism w)))
      | _ => Block
      end
  | _, _, _ => Block
  end.

(** The program of a worker ends after [RunWorker] returns, and its calls with it. *)
Definition break (k : nat) (c : rpc_call) : rpc_call :=
  if decide (rc_server c = Some k ∧ (rc_state c = Served ∨ rc_state c = Running))
  then MkRpc (rc_server c) (rc_request c) (Returned false 0) else c.
Definition exit (k : nat) (w : world) : outcome world :=
  sv ← must (servers w !! k);
  match obj sv, loop sv with
  | WorkerObj _, Ended => Ok (set_calls (break k <$> calls w) w)
  | _, _ => Block
  end.

(** Who calls: workers, [schedule], [killWorkers], [stopRPCServer]. *)
Inductive event :=
| EvRunWorker (MasterAddress me : string) (nRPC : Z)
| EvRegistered (k : nat)
| EvDoTask (worker : string) (arg : DoTaskArgs)
| EvKill (worker : string)
| EvStop (master : string)
| EvAccept (k : nat)
| EvServe (id : nat)
| EvFinish (id : nat)
| EvExit (k : nat).

Definition step (w : world) (e : event) : outcome world :=
  match e with
  | EvRunWorker m me n => RunWorker_begin true m me n w
  | EvRegistered k => RunWorker_registered k w
  | EvDoTask x arg => Ok (call_begin x (WorkerDoTask arg) w)
  | EvKill x => Ok (call_begin x WorkerShutdown w)
  | EvStop m => Ok (call_begin m MasterShutdown w)
  | EvAccept k => accept_round k w
  | EvServe id => serve id w
  | EvFinish id => DoTask_finish id w
  | EvExit k => exit k w
  end.

Fixpoint run_events (w : world) (es : list event) : outcome world :=
  match es with [] => Ok w | e :: es => w ← step w e; run_events w es end.
End world.

(** A master alone, on files [f]. *)
Definition start_world (master : string) (f : fs) (p : option Parallelism) : outcome world :=
  startRPCServer true master (MkWorld ∅ [] [] f p).

(** ** What stays true *)

Lemma omap_insert {A B} (f : A → option B) (l : list A) i x y :
  l !! i = Some x → f x = None → omap f (<[i := y]> l) ≡ₚ option_list (f y) ++ omap f l.
Proof.
  intros Hx Hn. rewrite <- (take_drop_middle l i x Hx) at 2. rewrite insert_take_drop by (by eapply lookup_lt_Some).
  rewrite !omap_app. simpl. rewrite Hn. destruct (f y); simpl; [|done]. by rewrite <- Permutation_middle.
Qed.

Lemma omap_same {A B} (f : A → option B) (l l' : list A) :
  Forall2 (λ x y, f x = f y) l l' → omap f l' = omap f l.
Proof. induction 1 as [|x y l l' E _ IH]; [done|]. csimpl. by rewrite <- E, IH. Qed.

(** The name that a call has registered at server [k]. *)
Definition registered (k : nat) (c : rpc_call) : option string :=
  match rc_request c, rc_state c with
  | MasterRegister x, Returned true _ => if decide (rc_server c = Some k) then Some x else None
  | _, _ => None
  end.

Definition is_worker (sv : server) : Prop := match obj sv with WorkerObj _ => True | _ => False end.

Record world_ok (w : world) : Prop := {
  (** the workers of a master are those whose registration succeeded, once each *)
  wo_register : ∀ k sv mr sd, servers w !! k = Some sv → obj sv = MasterObj mr sd →
    workers mr ≡ₚ omap (registered k) (calls w);
  (** they were listening when they called *)
  wo_names : ∀ id c x, calls w !! id = Some c → rc_request c = MasterRegister x →
    ∃ k sv, servers w !! k = Some sv ∧ address sv = x ∧ is_worker sv;
  (** a worker listens until its loop ends, a master until it is shut down *)
  wo_worker : ∀ k sv, servers w !! k = Some sv → is_worker sv → loop sv ≠ Ended → l_open sv = true;
  wo_master : ∀ k sv mr, servers w !! k = Some sv → obj sv = MasterObj mr true → l_open sv = false;
  (** nobody is left in the queue of a closed listener, and no closed listener can be reached *)
  wo_waiting : ∀ id c, calls w !! id = Some c → rc_state c = Waiting →
    ∃ k sv, rc_server c = Some k ∧ servers w !! k = Some sv ∧ l_open sv = true;
  wo_sockets : ∀ a k, sockets w !! a = Some k →
    ∃ sv, servers w !! k = Some sv ∧ address sv = a ∧ l_open sv = true;
}.

Lemma start_world_ok m f p w : start_world m f p = Ok w → world_ok w.
Proof.
  unfold start_world, startRPCServer, listen. simpl. rewrite delete_empty. intros [= <-].
  assert (Hone : ∀ k sv, [newMaster m] !! k = Some sv → k = 0%nat ∧ sv = newMaster m).
  { intros [|k] sv Hk; simpl in Hk; [by simplify_eq|done]. }
  split; simpl.
  - intros k sv mr sd [-> ->]%Hone E. by simplify_eq/=.
  - intros id c x Hc. by rewrite lookup_nil in Hc.
  - intros k sv [-> ->]%Hone. done.
  - intros k sv mr [-> ->]%Hone E. by simplify_eq/=.
  - intros id c Hc. by rewrite lookup_nil in Hc.
  - intros a k [[<- <-]|[_ ?]]%lookup_insert_Some; [|done]. by eexists.
Qed.

(** Calls go on, and none has registered. *)
Definition call_moves (c c' : rpc_call) : Prop :=
  rc_server c' = rc_server c ∧ rc_request c' = rc_request c ∧
  (rc_state c' = Waiting → rc_state c = Waiting) ∧ ∀ k, registered k c = registered k c'.

#[export] Instance call_moves_preorder : PreOrder call_moves.
Proof.
  split; [done|]. intros c1 c2 c3 (? & ? & ? & E1) (? & ? & ? & E2).
  split_and!; [congruence..|auto|]. intros k. by rewrite E1.
Qed.

Lemma call_moves_set cs id c s :
  cs !! id = Some c → call_moves c (MkRpc (rc_server c) (rc_request c) s) →
  Forall2 call_moves cs (<[id := MkRpc (rc_server c) (rc_request c) s]> cs).
Proof.
  intros Hc Hm. rewrite <- (list_insert_id cs id c Hc) at 1. by apply Forall2_insert.
Qed.

(** A server keeps its kind, and its registrations. *)
Definition obj_keeps (o o' : object) : Prop :=
  match o, o' with
  | MasterObj mr _, MasterObj mr' _ => mr = mr'
  | WorkerObj _, WorkerObj _ => True
  | _, _ => False
  end.

(** Server [k] changes, sockets may go away and calls go on. *)
Lemma ok_update w k sv sv' socks cs f p :
  world_ok w → servers w !! k = Some sv →
  address sv' = address sv → obj_keeps (obj sv) (obj sv') →
  (is_worker sv' → loop sv' ≠ Ended → loop sv ≠ Ended ∧ l_open sv' = l_open sv) →
  (∀ mr, obj sv' = MasterObj mr true → l_open sv' = false) →
  Forall2 call_moves (calls w) cs → socks ⊆ sockets w →
  (l_open sv' = l_open sv ∨
   (∀ c, c ∈ cs → rc_server c = Some k → rc_state c ≠ Waiting) ∧ ∀ a, socks !! a ≠ Some k) →
  world_ok (MkWorld socks (<[k := sv']> (servers w)) cs f p).
Proof.
  intros [H1 H2 H3 H4 H5 H6] Hk Ea Eo Hl Hm Hcs Hs Hopen.
  assert (Hnew : ∀ j svj, <[k := sv']> (servers w) !! j = Some svj →
    servers w !! j = Some svj ∨ j = k ∧ svj = sv').
  { intros j svj [(<- & <- & _)|[_ Hj]]%list_lookup_insert_Some; auto. }
  assert (Hold : ∀ j svj, servers w !! j = Some svj →
    ∃ sv1, <[k := sv']> (servers w) !! j = Some sv1 ∧ address sv1 = address svj ∧
      (is_worker svj → is_worker sv1) ∧ (j ≠ k ∨ l_open sv' = l_open sv → l_open sv1 = l_open svj)).
  { intros j svj Hj. destruct (decide (j = k)) as [->|Hne]; [|exists svj; by rewrite list_lookup_insert_ne].
    rewrite list_lookup_insert_eq by (by eapply lookup_lt_Some). exists sv'. simplify_eq.
    split_and!; try done; [|naive_solver]. unfold is_worker, obj_keeps in *. by repeat case_match. }
  split; simpl.
  - intros j svj mr sd Hj Ho. rewrite (omap_same _ (calls w)) by (eapply Forall2_impl; [exact Hcs|]; intros ?? Hc; apply Hc).
    destruct (Hnew _ _ Hj) as [Hj'|[-> ->]]; [by eapply H1|]. rewrite Ho in Eo.
    destruct (obj sv) eqn:E; [|done]. simpl in Eo. subst. by eapply H1.
  - intros id c' x Hc' Eq. destruct (Forall2_lookup_r _ _ _ _ _ Hcs Hc') as (c & Hc & _ & Er & _).
    destruct (H2 id c x Hc) as (j & svj & Hj & <- & Hw); [by rewrite <- Er|].
    destruct (Hold _ _ Hj) as (sv1 & ? & ? & ? & ?). exists j, sv1. auto.
  - intros j svj Hj Hw Hne. destruct (Hnew _ _ Hj) as [Hj'|[-> ->]]; [by eapply H3|].
    destruct (Hl Hw Hne) as [? ->]. eapply H3; [done| |done]. unfold is_worker, obj_keeps in *. by repeat case_match.
  - intros j svj mr Hj Ho. destruct (Hnew _ _ Hj) as [Hj'|[-> ->]]; [by eapply H4|by eapply Hm].
  - intros id c' Hc' Es. destruct (Forall2_lookup_r _ _ _ _ _ Hcs Hc') as (c & Hc & Ev & _ & Ew & _).
    destruct (H5 id c Hc (Ew Es)) as (j & svj & Ej & Hj & Ho). rewrite Ev.
    destruct (Hold _ _ Hj) as (sv1 & Hj1 & _ & _ & E). exists j, sv1. split_and!; [done..|]. rewrite E; [done|].
    destruct Hopen as [?|[Hno _]]; [by right|]. left. intros ->.
    apply (Hno c'); [by eapply list_elem_of_lookup_2|by rewrite Ev|done].
  - intros a j Hj. destruct (H6 a j) as (svj & Hj' & <- & Ho); [by eapply lookup_weaken|].
    destruct (Hold _ _ Hj') as (sv1 & ? & ? & _ & E). exists sv1. split_and!; [done..|]. rewrite E; [done|].
    destruct Hopen as [?|[_ Hno]]; [by right|]. left. intros ->. by eapply Hno.
Qed.

(** Only calls go on. *)
Lemma ok_calls w cs : world_ok w → Forall2 call_moves (calls w) cs → world_ok (set_calls cs w).
Proof.
  intros [H1 H2 H3 H4 H5 H6] Hm. split; simpl; try done.
  - intros k sv mr sd Hk Ho. rewrite (omap_same _ (calls w)); [by eapply H1|].
    eapply Forall2_impl; [exact Hm|]. intros c c' Hc. apply Hc.
  - intros id c' x Hc' Eq. destruct (Forall2_lookup_r _ _ _ _ _ Hm Hc') as (c & Hc & _ & Er & _).
    apply (H2 id c); [done|]. by rewrite <- Er.
  - intros id c' Hc' Es. destruct (Forall2_lookup_r _ _ _ _ _ Hm Hc') as (c & Hc & Ev & _ & Ew & _).
    rewrite Ev. apply (H5 id); auto.
Qed.

Lemma call_moves_fmap (g : rpc_call → rpc_call) cs : (∀ c, call_moves c (g c)) → Forall2 call_moves cs (g <$> cs).
Proof. intros Hg. apply Forall2_fmap_r, Forall_Forall2_diag, Forall_forall. intros c _. apply Hg. Qed.

(** A call that has not been answered is not answered with true. *)
Lemma move_state c s :
  s ≠ Waiting → (∀ ok n, rc_state c ≠ Returned ok n) →
  (∀ n, s = Returned true n → ∀ x, rc_request c ≠ MasterRegister x) →
  call_moves c (MkRpc (rc_server c) (rc_request c) s).
Proof.
  intros Hs Hc Hr. split_and!; try done. intros k. unfold registered. simpl.
  destruct (rc_request c) eqn:Eq; try done. destruct (rc_state c) as [| | | |ok n] eqn:E; try by destruct (Hc ok n).
  all: destruct s as [| | | |[] n]; try done; by destruct (Hr n eq_refl worker).
Qed.

Lemma refuse_moves k cs : Forall2 call_moves cs (refuse k <$> cs).
Proof.
  apply call_moves_fmap. intros c. unfold refuse. case_decide as Hd; [|done]. destruct Hd as [_ E].
  apply move_state; [done|by rewrite E|done].
Qed.

Lemma break_moves k cs : Forall2 call_moves cs (break k <$> cs).
Proof.
  apply call_moves_fmap. intros c. unfold break. case_decide as Hd; [|done].
  destruct Hd as [_ [E|E]]; apply move_state; rewrite ?E; done.
Qed.

(** A listener is closed, when its server ends or has been shut down. *)
Lemma ok_close w k sv sv' cs :
  world_ok w → servers w !! k = Some sv → address sv' = address sv → l_open sv' = l_open sv →
  obj_keeps (obj sv) (obj sv') → (is_worker sv' → loop sv' = Ended) →
  Forall2 call_moves (calls (close k sv' w)) cs → world_ok (set_calls cs (close k sv' w)).
Proof.
  intros Hok Hk Ea El Eo Hw Hcs. unfold close in *. destruct (l_open sv') eqn:Eo'; simpl in *;
    apply (ok_update w k sv); simpl; try done.
  - intros Hw' Hne. by destruct Hne; apply Hw.
  - etrans; [apply refuse_moves|exact Hcs].
  - apply delete_subseteq.
  - right. split.
    + intros c' Hc' Ek Ews. apply list_elem_of_lookup in Hc' as [i Hi].
      destruct (Forall2_lookup_r _ _ _ _ _ Hcs Hi) as (c & Hc & Ev & _ & Ew & _).
      apply list_lookup_fmap_Some in Hc as (c0 & -> & Hc0). specialize (Ew Ews). rewrite Ek in Ev. unfold refuse in *.
      case_decide as Hd; [done|]. by apply Hd.
    + intros a [Hne Ha]%lookup_delete_Some. destruct (wo_sockets _ Hok a k Ha) as (sv0 & Hk0 & <- & _).
      by simplify_eq.
  - intros Hw' Hne. by destruct Hne; apply Hw.
  - left. congruence.
Qed.

Lemma ok_begin w srv q :
  world_ok w → (∀ x, q = MasterRegister x → ∃ k sv, servers w !! k = Some sv ∧ address sv = x ∧ is_worker sv) →
  world_ok (call_begin srv q w).
Proof.
  intros [H1 H2 H3 H4 H5 H6] Hq. unfold call_begin. set (c := match sockets w !! srv with None => _ | _ => _ end).
  assert (Hnew : ∀ id c', (calls w ++ [c]) !! id = Some c' → calls w !! id = Some c' ∨ c' = c).
  { intros id c' [Hc|[_ Hc]]%lookup_app_Some; [by left|]. apply list_lookup_singleton_Some in Hc as [_ <-]. by right. }
  assert (rc_request c = q) as Er by (unfold c; by destruct (sockets w !! srv)).
  split; simpl; try done.
  - intros k sv mr sd Hk Ho. rewrite omap_app, (H1 k sv mr sd Hk Ho). simpl.
    assert (registered k c = None) as -> by (unfold c, registered; by repeat case_match; simplify_eq/=).
    by rewrite app_nil_r.
  - intros id c' x [Hc| ->]%Hnew Eq; [by eapply H2|]. apply Hq. by rewrite <- Er.
  - intros id c' [Hc| ->]%Hnew Es; [by eapply H5|]. unfold c in *. destruct (sockets w !! srv) as [k|] eqn:E; [|done].
    destruct (H6 _ _ E) as (sv & Hk & _ & Ho). by exists k, sv.
Qed.

Lemma ok_listen w w' sv :
  world_ok w → listen true sv w = Ok w' → is_worker sv → l_open sv = true →
  world_ok w' ∧ servers w' !! length (servers w) = Some sv.
Proof.
  intros [H1 H2 H3 H4 H5 H6] Hl Hw Ho. unfold listen in Hl. simpl in Hl. injection Hl as <-.
  assert (Hold : ∀ k svk, servers w !! k = Some svk → (servers w ++ [sv]) !! k = Some svk)
    by (intros; by apply lookup_app_l_Some).
  assert (Hnew : ∀ k svk, (servers w ++ [sv]) !! k = Some svk → servers w !! k = Some svk ∨ svk = sv).
  { intros k svk [Hk|[_ Hk]]%lookup_app_Some; [by left|]. apply list_lookup_singleton_Some in Hk as [_ <-]. by right. }
  assert (∀ mr sd, obj sv ≠ MasterObj mr sd) as Hno by (intros mr sd E; unfold is_worker in Hw; by rewrite E in Hw).
  assert (Hlast : (servers w ++ [sv]) !! length (servers w) = Some sv) by by rewrite lookup_app_r, Nat.sub_diag.
  split; [|done]. split; simpl.
  - intros k svk mr sd [Hk| ->]%Hnew E; [by eapply H1|by apply Hno in E].
  - intros id c x Hc Eq. destruct (H2 id c x Hc Eq) as (k & svk & Hk & ?). exists k, svk. auto.
  - intros k svk [Hk| ->]%Hnew Hwk Hne; [by eapply H3|done].
  - intros k svk mr [Hk| ->]%Hnew E; [by eapply H4|by apply Hno in E].
  - intros id c Hc Es. destruct (H5 id c Hc Es) as (k & svk & ? & ? & ?). exists k, svk. auto.
  - intros a k [[<- <-]|[_ [_ Ha]%lookup_delete_Some]]%lookup_insert_Some.
    + by exists sv.
    + destruct (H6 a k Ha) as (svk & Hk & ?). exists svk. auto.
Qed.

(** The master takes a registration. *)
Lemma ok_register w k sv mr sd id c x :
  world_ok w → servers w !! k = Some sv → obj sv = MasterObj mr sd →
  calls w !! id = Some c → rc_server c = Some k → rc_state c = Served → rc_request c = MasterRegister x →
  world_ok (set_state id c (Returned true 0) (set_server k (set_obj (MasterObj (Register mr x) sd) sv) w)).
Proof.
  intros [H1 H2 H3 H4 H5 H6] Hk Ho Hc Ek Es Eq.
  assert (Hnew : ∀ j svj, <[k := set_obj (MasterObj (Register mr x) sd) sv]> (servers w) !! j = Some svj →
    j ≠ k ∧ servers w !! j = Some svj ∨ j = k ∧ svj = set_obj (MasterObj (Register mr x) sd) sv).
  { intros j svj [(<- & <- & _)|[? Hj]]%list_lookup_insert_Some; auto. }
  assert (Hold : ∀ j svj, servers w !! j = Some svj →
    ∃ sv1, <[k := set_obj (MasterObj (Register mr x) sd) sv]> (servers w) !! j = Some sv1 ∧
      address sv1 = address svj ∧ l_open sv1 = l_open svj ∧ (is_worker svj → is_worker sv1)).
  { intros j svj Hj. destruct (decide (j = k)) as [->|Hne]; [|exists svj; by rewrite list_lookup_insert_ne].
    rewrite list_lookup_insert_eq by (by eapply lookup_lt_Some). simplify_eq. eexists. split; [done|].
    unfold is_worker. by rewrite Ho. }
  assert (Hcs : ∀ i c', <[id := MkRpc (rc_server c) (rc_request c) (Returned true 0)]> (calls w) !! i = Some c' →
    ∃ c0, calls w !! i = Some c0 ∧ rc_request c' = rc_request c0 ∧ (rc_state c' = Waiting → c' = c0)).
  { intros i c' [(<- & <- & _)|[_ Hi]]%list_lookup_insert_Some; [by exists c|by exists c']. }
  split; simpl.
  - intros j svj mr' sd' Hj Eo. rewrite (omap_insert _ _ _ c) by (done || unfold registered; by rewrite Eq, Es).
    unfold registered at 1. simpl. rewrite Eq, Ek. destruct (Hnew _ _ Hj) as [[Hne Hj']|[-> ->]].
    + rewrite decide_False by congruence. by eapply H1.
    + rewrite decide_True by done. simpl in Eo. simplify_eq. simpl.
      rewrite (H1 _ _ _ _ Hk Ho). by rewrite <- Permutation_cons_append.
  - intros i c' x' Hi Eq'. destruct (Hcs _ _ Hi) as (c0 & Hc0 & E & _). rewrite E in Eq'.
    destruct (H2 i c0 x' Hc0 Eq') as (j & svj & Hj & <- & Hw). destruct (Hold _ _ Hj) as (sv1 & ? & ? & _ & ?).
    exists j, sv1. auto.
  - intros j svj Hj Hw. destruct (Hnew _ _ Hj) as [[_ Hj']|[-> ->]]; [by apply (H3 j)|done].
  - intros j svj mr' Hj Eo. destruct (Hnew _ _ Hj) as [[_ Hj']|[-> ->]]; [by eapply H4|].
    simpl in Eo. simplify_eq. by apply (H4 k sv mr).
  - intros i c' Hi Ew. destruct (Hcs _ _ Hi) as (c0 & Hc0 & _ & E). specialize (E Ew) as ->.
    destruct (H5 i c0 Hc0 Ew) as (j & svj & ? & Hj & ?). destruct (Hold _ _ Hj) as (sv1 & ? & _ & El & _).
    exists j, sv1. by rewrite El.
  - intros a j Ha. destruct (H6 a j Ha) as (svj & Hj & <- & ?). destruct (Hold _ _ Hj) as (sv1 & ? & ? & El & _).
    exists sv1. by rewrite El.
Qed.

(** ** Every step keeps it *)

Lemma queue_Some k w id : queue k w = Some id →
  ∃ c, calls w !! id = Some c ∧ rc_server c = Some k ∧ rc_state c = Waiting.
Proof.
  unfold queue. intros ([i c] & E & ->)%fmap_Some. apply list_find_Some in E as (Hi & [? ?] & _). by exists c.
Qed.

(** A worker serves a call. *)
Lemma ok_worker w k sv wk wk' id c s f p :
  world_ok w → servers w !! k = Some sv → obj sv = WorkerObj wk → calls w !! id = Some c →
  call_moves c (MkRpc (rc_server c) (rc_request c) s) →
  world_ok (MkWorld (sockets w) (<[k := set_obj (WorkerObj wk') sv]> (servers w))
    (<[id := MkRpc (rc_server c) (rc_request c) s]> (calls w)) f p).
Proof.
  intros Hok Hk Ho Hc Hm. apply (ok_update w k sv); simpl; try done; try by rewrite ?Ho.
  - by apply call_moves_set.
  - by left.
Qed.

Lemma ok_loop w k sv l :
  world_ok w → servers w !! k = Some sv → (l ≠ Ended → loop sv ≠ Ended) →
  world_ok (set_server k (set_loop l sv) w).
Proof.
  intros Hok Hk Hl. apply (ok_update w k sv); simpl; try done.
  - by destruct (obj sv).
  - auto.
  - intros mr. by apply (wo_master w Hok k).
  - by left.
Qed.

Lemma ok_accept w k id : world_ok w → queue k w = Some id → world_ok (accept id w).
Proof.
  intros Hok (c & Hc & _ & Es)%queue_Some. unfold accept. rewrite Hc. apply ok_calls; [done|].
  apply call_moves_set; [done|]. apply move_state; [done|by rewrite Es|done].
Qed.

Lemma ok_accept_round k w w' : world_ok w → accept_round k w = Ok w' → world_ok w'.
Proof.
  intros Hok H. unfold accept_round in H. apply bind_Ok in H as (sv & Hk%must_Ok & H).
  destruct (loop sv) eqn:El; try done. destruct (obj sv) as [mr [|]|wk] eqn:Eo.
  - simplify_eq. by eapply ok_loop.
  - destruct (queue k w) as [id|] eqn:Eq; [simplify_eq; by eapply ok_accept|].
    destruct (l_open sv); [done|]. simplify_eq. by eapply ok_loop.
  - assert (Hclose : world_ok (set_calls (calls (close k (set_loop Ended sv) w)) (close k (set_loop Ended sv) w)))
      by (apply (ok_close w k sv); simpl; rewrite ?Eo; done).
    rewrite set_calls_id in Hclose.
    destruct (queue k w) as [id|] eqn:Eq.
    + destruct (RunWorker_round wk true) as [wk'|]; simplify_eq; [|done].
      apply queue_Some in Eq as (c & Hc & _ & Es). unfold accept. rewrite Hc.
      unfold set_server, set_state, set_calls. simpl. eapply ok_worker; [done..|].
      apply move_state; [done|by rewrite Es|done].
    + destruct (_ || _); by simplify_eq.
Qed.

Lemma ok_serve id w w' : world_ok w → serve id w = Ok w' → world_ok w'.
Proof.
  intros Hok H. unfold serve in H. apply bind_Ok in H as (c & Hc%must_Ok & H).
  destruct (rc_server c) as [k|] eqn:Ek; [|done]. destruct (rc_state c) eqn:Es; try done.
  apply bind_Ok in H as (sv & Hk%must_Ok & H).
  assert (Hmove : ∀ s, s ≠ Waiting → (∀ n, s = Returned true n → ∀ x, rc_request c ≠ MasterRegister x) →
    call_moves c (MkRpc (rc_server c) (rc_request c) s)) by (intros; apply move_state; by rewrite ?Es).
  assert (Hfalse : world_ok (set_state id c (Returned false 0) w))
    by (apply ok_calls, call_moves_set, Hmove; done).
  destruct (obj sv) as [mr sd|wk] eqn:Eo; destruct (rc_request c) as [x| |arg|] eqn:Eq; try by simplify_eq.
  - simplify_eq. by eapply ok_register.
  - destruct sd; [done|]. simpl in H. simplify_eq. rewrite <- Eq in Hmove.
    apply (ok_close w k sv); simpl; rewrite ?Eo; try done. apply call_moves_set; [|apply Hmove; by rewrite ?Eq].
    unfold close. simpl. destruct (l_open sv); simpl; [|done]. rewrite list_lookup_fmap, Hc. simpl. unfold refuse.
    rewrite decide_False; [done|]. rewrite Es. by intros [_ ?].
  - rewrite <- Eq in Hmove. apply bind_Ok in H as (wk' & _ & H). simplify_eq.
    refine (ok_worker w k sv wk _ id c _ _ _ Hok Hk Eo Hc _). apply Hmove; by rewrite ?Eq.
  - rewrite <- Eq in Hmove. simpl in H. simplify_eq.
    refine (ok_worker w k sv wk _ id c _ _ _ Hok Hk Eo Hc _). apply Hmove; by rewrite ?Eq.
Qed.

Section world_steps.
Variable render : file → string.
Variable Map : string → string → list KeyValue.
Variable Reduce : string → list string → outcome string.

Lemma ok_finish id w w' : world_ok w → DoTask_finish render Map Reduce id w = Ok w' → world_ok w'.
Proof.
  intros Hok H. unfold DoTask_finish in H. apply bind_Ok in H as (c & Hc%must_Ok & H).
  destruct (rc_server c) as [k|] eqn:Ek; [|done]. case_match eqn:Eq; try done. case_match eqn:Es; try done.
  apply bind_Ok in H as (sv & Hk%must_Ok & H). destruct (obj sv) as [|wk] eqn:Eo; [done|].
  apply bind_Ok in H as (f & _ & H). simplify_eq.
  refine (ok_worker w k sv wk _ id c _ _ _ Hok Hk Eo Hc _). apply move_state; rewrite ?Es, ?Eq; done.
Qed.

Lemma ok_step w e w' : world_ok w → step render Map Reduce w e = Ok w' → world_ok w'.
Proof.
  intros Hok H. destruct e as [m me n|k|x arg|x|m|k|id|id|k]; simpl in H.
  - unfold RunWorker_begin in H. apply bind_Ok in H as (w1 & Hl & H). simplify_eq.
    destruct (ok_listen _ _ _ Hok Hl) as [Hok1 Hk]; [done..|]. apply ok_begin; [done|].
    intros x [= <-]. by eexists _, _.
  - unfold RunWorker_registered in H. apply bind_Ok in H as (sv & Hk%must_Ok & H).
    destruct (loop sv) eqn:El; try done. apply bind_Ok in H as (c & _ & H). destruct (call_result c); [|done].
    simplify_eq. apply ok_loop; [done..|]. intros _. by rewrite El.
  - simplify_eq. by apply ok_begin.
  - simplify_eq. by apply ok_begin.
  - simplify_eq. by apply ok_begin.
  - by eapply ok_accept_round.
  - by eapply ok_serve.
  - by eapply ok_finish.
  - unfold exit in H. apply bind_Ok in H as (sv & _ & H). repeat case_match; simplify_eq.
    apply ok_calls; [done|apply break_moves].
Qed.

Lemma ok_run w es w' : world_ok w → run_events render Map Reduce w es = Ok w' → world_ok w'.
Proof.
  revert w. induction es as [|e es IH]; intros w Hok H; simpl in H; [by simplify_eq|].
  apply bind_Ok in H as (w1 & Hs & H). by eapply IH; [eapply ok_step|].
Qed.
End world_steps.

(** ** How many connections a worker takes *)

(** A call that has been taken from the queue of listener [k]. *)
Definition taken_by (k : nat) (c : rpc_call) : bool :=
  bool_decide (rc_server c = Some k) &&
  match rc_state c with Waiting | Refused => false | _ => true end.
Definition accepted (k : nat) (w : world) : Z := len (filter (λ c, taken_by k c = true) (calls w)).

Lemma filter_same {A B} (g : A → bool) (h : B → bool) (l : list A) (l' : list B) :
  Forall2 (λ x y, g x = h y) l l' → len (filter (λ x, g x = true) l) = len (filter (λ y, h y = true) l').
Proof.
  induction 1 as [|x y l l' E _ IH]; [done|]. rewrite !filter_cons, E. destruct (h y); rewrite ?decide_True, ?decide_False by done;
    rewrite ?len_cons; lia.
Qed.

Lemma filter_insert (g : rpc_call → bool) l i x y :
  l !! i = Some x → g x = false →
  len (filter (λ x, g x = true) (<[i := y]> l)) = len (filter (λ x, g x = true) l) + (if g y then 1 else 0).
Proof.
  intros Hx Hn. rewrite <- (take_drop_middle l i x Hx) at 2. rewrite insert_take_drop by (by eapply lookup_lt_Some).
  rewrite !filter_app, !filter_cons, Hn. destruct (g y); rewrite ?decide_True, ?decide_False by done;
    rewrite !len_app, ?len_cons; lia.
Qed.

(** The worker at [k], that takes [n] calls. *)
Definition worker_at (k : nat) (n : Z) (w : world) : Prop :=
  ∃ sv wk, servers w !! k = Some sv ∧ obj sv = WorkerObj wk ∧
    nRPC wk + accepted k w = n ∧ 0 ≤ nRPC wk ∧ (loop sv = Ended → nRPC wk = 0).

Definition call_keeps (k : nat) (c c' : rpc_call) : Prop :=
  taken_by k c' = taken_by k c.

(** Server [j] and some calls change, but nothing is taken from queue [k]. *)
Lemma worker_at_keeps k n w j sv sv' socks cs f p :
  worker_at k n w → servers w !! j = Some sv →
  (j = k → ∀ wk, obj sv = WorkerObj wk → ∃ wk', obj sv' = WorkerObj wk' ∧ nRPC wk' = nRPC wk) →
  (loop sv' = Ended → j ≠ k ∨ loop sv = Ended ∨ ∀ wk, obj sv = WorkerObj wk → nRPC wk = 0) →
  Forall2 (call_keeps k) (calls w) cs →
  worker_at k n (MkWorld socks (<[j := sv']> (servers w)) cs f p).
Proof.
  intros (svk & wk & Hk & Ho & Hn & H0 & He) Hj Hw Hl Hcs. unfold worker_at. simpl.
  assert (accepted k (MkWorld socks (<[j := sv']> (servers w)) cs f p) = accepted k w) as ->.
  { unfold accepted. simpl. symmetry. apply filter_same. eapply Forall2_impl; [exact Hcs|]. intros c c' E. by rewrite E. }
  destruct (decide (j = k)) as [->|Hne]; [|exists svk, wk; by rewrite list_lookup_insert_ne].
  rewrite list_lookup_insert_eq by (by eapply lookup_lt_Some). simplify_eq.
  destruct (Hw eq_refl wk Ho) as (wk' & Ho' & E). exists sv', wk'. rewrite E. split_and!; try done.
  intros Hend. destruct (Hl Hend) as [?|[?|Hz]]; [done|by apply He|by apply Hz].
Qed.

#[export] Instance call_keeps_preorder k : PreOrder (call_keeps k).
Proof. split; [done|]. unfold call_keeps. intros c1 c2 c3 ? ?. congruence. Qed.

Lemma call_keeps_fmap k (g : rpc_call → rpc_call) cs :
  (∀ c, call_keeps k c (g c)) → Forall2 (call_keeps k) cs (g <$> cs).
Proof. intros Hg. apply Forall2_fmap_r, Forall_Forall2_diag, Forall_forall. intros c _. apply Hg. Qed.

Lemma refuse_keeps k j cs : Forall2 (call_keeps k) cs (refuse j <$> cs).
Proof.
  apply call_keeps_fmap. intros c. unfold call_keeps, refuse, taken_by. case_decide as Hd; [|done].
  destruct Hd as [_ E]. simpl. by rewrite E.
Qed.

Lemma break_keeps k j cs : Forall2 (call_keeps k) cs (break j <$> cs).
Proof.
  apply call_keeps_fmap. intros c. unfold call_keeps, break, taken_by. case_decide as Hd; [|done].
  destruct Hd as [_ [E|E]]; simpl; by rewrite E.
Qed.

Lemma close_keeps k j sv w : Forall2 (call_keeps k) (calls w) (calls (close j sv w)).
Proof.
  unfold close. destruct (l_open sv); simpl; [apply refuse_keeps|]. apply Forall_Forall2_diag, Forall_forall. by intros ? _.
Qed.

Lemma set_keeps k cs id c s :
  cs !! id = Some c → (rc_server c = Some k → rc_state c ≠ Waiting ∧ rc_state c ≠ Refused ∧ s ≠ Waiting ∧ s ≠ Refused) →
  Forall2 (call_keeps k) cs (<[id := MkRpc (rc_server c) (rc_request c) s]> cs).
Proof.
  intros Hc Hs. rewrite <- (list_insert_id cs id c Hc) at 1. apply Forall2_insert.
  { apply Forall_Forall2_diag, Forall_forall. by intros ? _. }
  unfold call_keeps, taken_by. simpl. case_bool_decide as E; [|done]. simpl.
  destruct (Hs E) as (? & ? & ? & ?). by repeat case_match.
Qed.

Lemma worker_at_calls k n w cs :
  worker_at k n w → Forall2 (call_keeps k) (calls w) cs → worker_at k n (set_calls cs w).
Proof.
  intros Ha Hcs. pose proof Ha as (sv & wk & Hk & Ho & _).
  unfold set_calls. rewrite <- (list_insert_id (servers w) k sv Hk).
  eapply worker_at_keeps; [done..|naive_solver| |done]. auto.
Qed.

Lemma worker_at_close k n w j sv sv' cs :
  worker_at k n w → servers w !! j = Some sv →
  (j = k → ∀ wk, obj sv = WorkerObj wk → ∃ wk', obj sv' = WorkerObj wk' ∧ nRPC wk' = nRPC wk) →
  (loop sv' = Ended → j ≠ k ∨ loop sv = Ended ∨ ∀ wk, obj sv = WorkerObj wk → nRPC wk = 0) →
  Forall2 (call_keeps k) (calls w) cs →
  worker_at k n (set_calls cs (close j sv' w)).
Proof.
  intros Ha Hj Hw Hl Hcs. unfold close. case_match; unfold set_calls; simpl; by eapply worker_at_keeps.
Qed.

Lemma worker_at_begin k n w srv q : worker_at k n w → worker_at k n (call_begin srv q w).
Proof.
  intros (sv & wk & Hk & Ho & Hn & Hr). unfold call_begin. set (c := match sockets w !! srv with None => _ | _ => _ end).
  assert (taken_by k c = false) as Ht.
  { unfold c, taken_by. destruct (sockets w !! srv); simpl; [|done]. by rewrite andb_false_r. }
  exists sv, wk. split_and!; try done; try apply Hr. rewrite <- Hn. f_equal. unfold accepted, set_calls. simpl.
  rewrite filter_app, filter_cons, Ht, decide_False by done. by rewrite app_nil_r.
Qed.

(** A round of the worker's own loop that takes a call. *)
Lemma worker_at_take k n w sv wk wk' id :
  worker_at k n w → servers w !! k = Some sv → obj sv = WorkerObj wk → loop sv = Accepting →
  queue k w = Some id → RunWorker_round wk true = Some wk' →
  worker_at k n (set_server k (set_obj (WorkerObj wk') sv) (accept id w)).
Proof.
  intros (svk & wk0 & Hk & Ho & Hn & H0 & He) Hk' Ho' Hl (c & Hc & Ek & Es)%queue_Some Hr. simplify_eq.
  rewrite Ho in Ho'. simplify_eq. unfold RunWorker_round in Hr. destruct (Z.eqb_spec (nRPC wk) 0); [done|]. simplify_eq.
  unfold accept. rewrite Hc. eexists _, _. simpl. rewrite list_lookup_insert_eq by (by eapply lookup_lt_Some).
  split; [done|]. split; [done|]. simpl. split; [|split; [lia|by rewrite Hl]]. unfold accepted. simpl.
  assert (taken_by k c = false) as Ht by (unfold taken_by; by rewrite Es, andb_false_r).
  rewrite (filter_insert _ _ _ _ _ Hc Ht).
  assert (taken_by k (MkRpc (rc_server c) (rc_request c) Served) = true) as ->
    by (unfold taken_by; simpl; by rewrite Ek, bool_decide_eq_true_2).
  unfold accepted. lia.
Qed.

Lemma worker_at_accept k n w w' j :
  world_ok w → worker_at k n w → accept_round j w = Ok w' → worker_at k n w'.
Proof.
  intros Hok Ha H. unfold accept_round in H. apply bind_Ok in H as (sv & Hj%must_Ok & H).
  destruct (loop sv) eqn:El; try done.
  assert (Hend : (∀ wk, obj sv = WorkerObj wk → j ≠ k ∨ nRPC wk = 0) → worker_at k n (set_server j (set_loop Ended sv) w) ∧
    worker_at k n (close j (set_loop Ended sv) w)).
  { intros Hz. assert (loop (set_loop Ended sv) = Ended → j ≠ k ∨ loop sv = Ended ∨ ∀ wk, obj sv = WorkerObj wk → nRPC wk = 0)
      by (intros _; destruct (decide (j = k)); [right; right; naive_solver|by left]).
    split; [|rewrite <- (set_calls_id (close _ _ _)); eapply worker_at_close; [done..|naive_solver|done|]].
    - eapply worker_at_keeps; [done..|naive_solver|done|]. apply Forall_Forall2_diag, Forall_forall. by intros ? _.
    - apply close_keeps. }
  destruct (obj sv) as [mr sd|wk] eqn:Eo.
  - destruct sd; [simplify_eq; by apply Hend|]. destruct (queue j w) as [id|] eqn:Eq.
    + simplify_eq. apply queue_Some in Eq as (c & Hc & Ek & _). unfold accept. rewrite Hc.
      apply worker_at_calls; [done|]. apply set_keeps; [done|]. intros Ek'. destruct Ha as (svk & wk & Hk & Ho & _).
      simplify_eq. congruence.
    + destruct (l_open sv); [done|]. simplify_eq. by apply Hend.
  - destruct (queue j w) as [id|] eqn:Eq.
    + destruct (RunWorker_round wk true) as [wk'|] eqn:Er; simplify_eq.
      * destruct (decide (j = k)) as [->|Hne]; [by eapply worker_at_take|].
        apply queue_Some in Eq as (c & Hc & Ek & _). unfold accept. rewrite Hc.
        unfold set_server, set_state, set_calls. simpl. eapply worker_at_keeps; [done|done|done|by left|].
        apply set_keeps; [done|]. intros. by simplify_eq.
      * apply Hend. intros wk0 [= <-]. right. unfold RunWorker_round in Er. by destruct (Z.eqb_spec (nRPC wk) 0).
    + destruct (Z.eqb_spec (nRPC wk) 0); simpl in H; [simplify_eq; apply Hend; naive_solver|].
      assert (l_open sv = true) as E by (apply (wo_worker w Hok j); [done|unfold is_worker; by rewrite Eo|by rewrite El]).
      by rewrite E in H.
Qed.

(** Nobody shuts down the worker. *)
Definition kept_alive (k : nat) (w : world) : Prop :=
  Forall (λ c, rc_server c = Some k → rc_request c ≠ WorkerShutdown) (calls w).

Lemma worker_at_serve k n w w' id :
  worker_at k n w → kept_alive k w → serve id w = Ok w' → worker_at k n w'.
Proof.
  intros Ha Hal H. unfold serve in H. apply bind_Ok in H as (c & Hc%must_Ok & H).
  destruct (rc_server c) as [j|] eqn:Ek; [|done]. destruct (rc_state c) eqn:Es; try done.
  apply bind_Ok in H as (sv & Hj%must_Ok & H).
  assert (Hset : ∀ cs s, cs !! id = Some c → s ≠ Waiting → s ≠ Refused →
    Forall2 (call_keeps k) cs (<[id := MkRpc (rc_server c) (rc_request c) s]> cs))
    by (intros; by apply set_keeps; rewrite ?Es).
  assert (Hfalse : worker_at k n (set_state id c (Returned false 0) w)) by by apply worker_at_calls, Hset.
  destruct (obj sv) as [mr sd|wk] eqn:Eo; destruct (rc_request c) as [x| |arg|] eqn:Eq; try (by simplify_eq);
    rewrite <- Eq in Hset.
  - simplify_eq. refine (worker_at_keeps k n w j sv _ _ _ _ _ Ha Hj _ _ _); [intros _ wk; congruence|simpl; auto|by apply Hset].
  - destruct sd; [done|]. simpl in H. simplify_eq. unfold set_state. eapply worker_at_close; [done|done| |simpl; auto|].
    + intros _ wk E. by rewrite Eo in E.
    + etrans; [apply close_keeps|]. apply Hset; [|done|done]. unfold close. simpl. destruct (l_open sv); simpl; [|done].
      rewrite list_lookup_fmap, Hc. simpl. unfold refuse. rewrite decide_False; [done|]. rewrite Es. by intros [_ ?].
  - apply bind_Ok in H as (wk' & He & H). simplify_eq.
    refine (worker_at_keeps k n w j sv _ _ _ _ _ Ha Hj _ _ _); [|simpl; auto|by apply Hset].
    intros _ wk0 E. rewrite Eo in E. simplify_eq. exists wk'. split; [done|].
    unfold DoTask_enter in He. simpl in He. case_match; [done|]. by simplify_eq.
  - assert (j ≠ k) by (intros ->; by apply (Forall_lookup_1 _ _ _ _ Hal Hc)).
    simpl in H. simplify_eq. refine (worker_at_keeps k n w j sv _ _ _ _ _ Ha Hj _ _ _); [done|simpl; auto|by apply Hset].
Qed.

Section quota.
Variable render : file → string.
Variable Map : string → string → list KeyValue.
Variable Reduce : string → list string → outcome string.

Lemma worker_at_finish k n w w' id :
  worker_at k n w → DoTask_finish render Map Reduce id w = Ok w' → worker_at k n w'.
Proof.
  intros Ha H. unfold DoTask_finish in H. apply bind_Ok in H as (c & Hc%must_Ok & H).
  destruct (rc_server c) as [j|] eqn:Ek; [|done]. case_match eqn:Eq; try done. case_match eqn:Es; try done.
  apply bind_Ok in H as (sv & Hj%must_Ok & H). destruct (obj sv) as [|wk] eqn:Eo; [done|].
  apply bind_Ok in H as (f & _ & H). simplify_eq.
  refine (worker_at_keeps k n w j sv _ _ _ _ _ Ha Hj _ _ _); [|simpl; auto|by apply set_keeps; rewrite ?Es].
  intros _ wk0 E. rewrite Eo in E. simplify_eq. by eexists.
Qed.

Lemma worker_at_listen k n w w' sv : worker_at k n w → listen true sv w = Ok w' → worker_at k n w'.
Proof.
  intros (svk & wk & Hk & Hr) H. unfold listen in H. simpl in H. simplify_eq.
  exists svk, wk. split; [by apply lookup_app_l_Some|done].
Qed.

Lemma worker_at_step k n w e w' :
  world_ok w → worker_at k n w → kept_alive k w → step render Map Reduce w e = Ok w' → worker_at k n w'.
Proof.
  intros Hok Ha Hal H. destruct e as [m me r|j|x arg|x|m|j|id|id|j]; simpl in H; try (simplify_eq; by apply worker_at_begin).
  - unfold RunWorker_begin in H. apply bind_Ok in H as (w1 & Hl & H). simplify_eq.
    apply worker_at_begin. by eapply worker_at_listen.
  - unfold RunWorker_registered in H. apply bind_Ok in H as (sv & Hj%must_Ok & H).
    destruct (loop sv) eqn:El; try done. apply bind_Ok in H as (c & _ & H). destruct (call_result c); [|done].
    simplify_eq. eapply worker_at_keeps; [done..|naive_solver|done|]. apply Forall_Forall2_diag, Forall_forall. by intros ? _.
  - by eapply worker_at_accept.
  - by eapply worker_at_serve.
  - by eapply worker_at_finish.
  - unfold exit in H. apply bind_Ok in H as (sv & _ & H). repeat case_match; simplify_eq.
    apply worker_at_calls; [done|apply break_keeps].
Qed.
End quota.

(** ** Calls keep their server and their request *)

Definition target (c : rpc_call) : option nat * rpc_request := (rc_server c, rc_request c).

(** New calls go to servers that exist. *)
Definition calls_grow (w w' : world) : Prop :=
  (length (servers w) ≤ length (servers w'))%nat ∧
  ∃ more, target <$> calls w' = (target <$> calls w) ++ more ∧
    Forall (λ t, ∀ k, t.1 = Some k → (k < length (servers w'))%nat) more.

Lemma calls_grow_same w w' :
  length (servers w') = length (servers w) → target <$> calls w' = target <$> calls w → calls_grow w w'.
Proof. intros El Et. split; [lia|]. exists []. rewrite app_nil_r. by split. Qed.

#[export] Instance calls_grow_preorder : PreOrder calls_grow.
Proof.
  split; [intros w; by apply calls_grow_same|].
  intros w1 w2 w3 (L1 & m1 & E1 & F1) (L2 & m2 & E2 & F2). split; [lia|]. exists (m1 ++ m2).
  rewrite E2, E1, app_assoc. split; [done|]. apply Forall_app_2; [|done]. eapply Forall_impl; [exact F1|].
  intros t Ht k Hk. specialize (Ht k Hk). lia.
Qed.

Lemma target_set (cs : list rpc_call) id c s : cs !! id = Some c → target <$> <[id := MkRpc (rc_server c) (rc_request c) s]> cs = target <$> cs.
Proof.
  intros Hc. rewrite list_fmap_insert. apply list_insert_id. by rewrite list_lookup_fmap, Hc.
Qed.

Lemma target_fmap (g : rpc_call → rpc_call) (cs : list rpc_call) : (∀ c, target (g c) = target c) → target <$> (g <$> cs) = target <$> cs.
Proof. intros Hg. rewrite <- list_fmap_compose. apply list_fmap_ext. intros i x _. apply Hg. Qed.

Lemma close_grow k sv w : calls_grow w (close k sv w).
Proof.
  unfold close. destruct (l_open sv); apply calls_grow_same; simpl; rewrite ?length_insert; try done.
  apply target_fmap. intros c. unfold refuse. by case_decide.
Qed.

Lemma set_server_grow k sv w : calls_grow w (set_server k sv w).
Proof. apply calls_grow_same; [apply length_insert|done]. Qed.

Lemma set_state_grow w0 id c s w :
  calls w0 !! id = Some c → calls_grow w0 w → (∃ c', calls w !! id = Some c' ∧ target c' = target c) →
  calls_grow w0 (set_state id c s w).
Proof.
  intros Hc Hg (c' & Hc' & Et). etrans; [exact Hg|]. apply calls_grow_same; [done|]. simpl.
  injection Et as Ev Eq. rewrite <- Ev, <- Eq. by apply target_set.
Qed.

Lemma begin_grow w srv q : world_ok w → calls_grow w (call_begin srv q w).
Proof.
  intros Hok. split; [done|]. eexists. unfold call_begin. simpl. rewrite fmap_app. split; [done|].
  apply Forall_singleton. intros k. destruct (sockets w !! srv) as [j|] eqn:E; simpl; [|done]. intros [= <-].
  destruct (wo_sockets w Hok _ _ E) as (sv & Hj & _). by eapply lookup_lt_Some.
Qed.

Lemma accept_grow w k id : queue k w = Some id → calls_grow w (accept id w).
Proof.
  intros (c & Hc & _)%queue_Some. unfold accept. rewrite Hc.
  apply set_state_grow; [done|done|]. by exists c.
Qed.

Lemma accept_round_grow k w w' : accept_round k w = Ok w' → calls_grow w w'.
Proof.
  unfold accept_round. intros (sv & _ & H)%bind_Ok.
  repeat (case_match; try done); simplify_eq; try apply close_grow; try apply set_server_grow;
    try (etrans; [|apply set_server_grow]); by eapply accept_grow.
Qed.

Lemma serve_grow id w w' : serve id w = Ok w' → calls_grow w w'.
Proof.
  unfold serve. intros (c & Hc%must_Ok & H)%bind_Ok. destruct (rc_server c) as [k|]; [|done].
  destruct (rc_state c); try done. apply bind_Ok in H as (sv & _ & H).
  assert (Hset : ∀ s o, calls_grow w (set_state id c s (set_server k o w))).
  { intros s o. apply set_state_grow; [done|apply set_server_grow|]. by exists c. }
  assert (Hown : ∀ s, calls_grow w (set_state id c s w)) by (intros s; apply set_state_grow; [done|done|by exists c]).
  destruct (obj sv) as [mr sd|wk]; destruct (rc_request c) as [x| |arg|]; simpl in H; simplify_eq; try done.
  - destruct sd; [done|]. simpl in H. simplify_eq. apply set_state_grow; [done|apply close_grow|].
    unfold close. simpl. destruct (l_open sv); simpl; [|by exists c]. exists (refuse k c).
    rewrite list_lookup_fmap, Hc. split; [done|]. unfold refuse. by case_decide.
  - apply bind_Ok in H as (wk' & _ & H). simplify_eq. apply Hset.
Qed.

(** ** Runs *)

Section runs.
Variable render : file → string.
Variable Map : string → string → list KeyValue.
Variable Reduce : string → list string → outcome string.
Abbreviation steps := (run_events render Map Reduce).

Lemma listen_grow w w' sv : listen true sv w = Ok w' → calls_grow w w'.
Proof.
  unfold listen. simpl. intros [= <-]. split; simpl; [rewrite length_app; lia|]. exists []. by rewrite app_nil_r.
Qed.

Lemma step_grow w e w' : world_ok w → step render Map Reduce w e = Ok w' → calls_grow w w'.
Proof.
  intros Hok H. destruct e as [m me n|k|x arg|x|m|k|id|id|k]; simpl in H; try (simplify_eq; by apply begin_grow).
  - unfold RunWorker_begin in H. apply bind_Ok in H as (w1 & Hl & H). simplify_eq.
    etrans; [by eapply listen_grow|]. apply begin_grow. by eapply ok_listen.
  - unfold RunWorker_registered in H. apply bind_Ok in H as (sv & _ & H). destruct (loop sv); try done.
    apply bind_Ok in H as (c & _ & H). case_match; simplify_eq. apply set_server_grow.
  - by eapply accept_round_grow.
  - by eapply serve_grow.
  - unfold DoTask_finish in H. apply bind_Ok in H as (c & Hc%must_Ok & H). repeat (case_match; try done).
    apply bind_Ok in H as (sv & _ & H). case_match; [done|]. apply bind_Ok in H as (f & _ & H). simplify_eq.
    apply calls_grow_same; simpl; [apply length_insert|by apply target_set].
  - unfold exit in H. apply bind_Ok in H as (sv & _ & H). repeat case_match; simplify_eq.
    apply calls_grow_same; [done|]. simpl. apply target_fmap. intros c. unfold break. by case_decide.
Qed.

Lemma run_grow w es w' : world_ok w → steps w es = Ok w' → calls_grow w w'.
Proof.
  revert w. induction es as [|e es IH]; intros w Hok H; simpl in H; [by simplify_eq|].
  apply bind_Ok in H as (w1 & Hs & H). etrans; [by eapply step_grow|]. apply IH; [by eapply ok_step|done].
Qed.

Lemma kept_alive_back k w w' : calls_grow w w' → kept_alive k w' → kept_alive k w.
Proof.
  intros (_ & more & E & _) Hal. unfold kept_alive in *.
  assert (Forall (λ t : option nat * rpc_request, t.1 = Some k → t.2 ≠ WorkerShutdown) (target <$> calls w')) as H
    by by apply Forall_fmap.
  rewrite E in H. apply Forall_app in H as [H _]. by apply Forall_fmap in H.
Qed.

Lemma worker_at_run k n w es w' :
  world_ok w → worker_at k n w → steps w es = Ok w' → kept_alive k w' → worker_at k n w'.
Proof.
  revert w. induction es as [|e es IH]; intros w Hok Ha H Hal; simpl in H; [by simplify_eq|].
  apply bind_Ok in H as (w1 & Hs & H). eapply IH; [by eapply ok_step| |exact H|exact Hal].
  eapply worker_at_step; [done..| |done]. eapply kept_alive_back; [|exact Hal].
  etrans; [by eapply step_grow|]. eapply run_grow; [by eapply ok_step|done].
Qed.

Lemma accepted_none k w : Forall (λ c, rc_server c ≠ Some k) (calls w) → accepted k w = 0.
Proof.
  unfold accepted. induction 1 as [|c cs Hc _ IH]; [done|]. rewrite filter_cons.
  assert (taken_by k c = false) as -> by (unfold taken_by; by rewrite bool_decide_eq_false_2).
  by rewrite decide_False.
Qed.

(** Nobody has called a server that does not exist yet. *)
Lemma no_early_calls m f p w0 es w :
  start_world m f p = Ok w0 → steps w0 es = Ok w → accepted (length (servers w)) w = 0.
Proof.
  intros H0 Hes. pose proof (run_grow _ _ _ (start_world_ok _ _ _ _ H0) Hes) as (_ & more & E & Hm).
  unfold start_world, startRPCServer, listen in H0. simpl in H0. injection H0 as <-. simpl in E.
  apply accepted_none.
  assert (Forall (λ t : option nat * rpc_request, t.1 ≠ Some (length (servers w))) (target <$> calls w)) as HF.
  { rewrite E. eapply Forall_impl; [exact Hm|]. intros t Ht Et. specialize (Ht _ Et). lia. }
  exact (proj1 (Forall_fmap target _ (calls w)) HF).
Qed.
End runs.

(** ** What the servers promise *)

(** C30. Registration is exact.  In every run of a master and its workers, with any calls, accepts and
    handlers in any order: the master's list has a worker once for each [Register] call that
    returned true and for no other; each of them was listening on its name before it called, and
    is still listening unless its loop has ended; and a master that has been shut down takes no
    call any more. *)
Theorem registration_exact render Map Reduce m f p w0 es w k sv mr sd :
  start_world m f p = Ok w0 → run_events render Map Reduce w0 es = Ok w →
  servers w !! k = Some sv → obj sv = MasterObj mr sd →
  workers mr ≡ₚ omap (registered k) (calls w) ∧
  (∀ x, x ∈ workers mr → ∃ j svj, servers w !! j = Some svj ∧ address svj = x ∧ is_worker svj ∧
     (loop svj ≠ Ended → l_open svj = true)) ∧
  (sd = true → queue k w = None ∧ ∀ srv q, ∃ c, calls (call_begin srv q w) = calls w ++ [c] ∧ rc_server c ≠ Some k).
Proof.
  intros H0 Hes Hk Ho. pose proof (ok_run _ _ _ _ _ _ (start_world_ok _ _ _ _ H0) Hes) as Hok.
  pose proof (wo_register w Hok _ _ _ _ Hk Ho) as Hreg. split; [done|]. split.
  - intros x. rewrite Hreg, list_elem_of_omap. intros (c & [i Hc]%list_elem_of_lookup & Hr).
    unfold registered in Hr. destruct (rc_request c) as [y| | |] eqn:Eq; try done. repeat case_match; simplify_eq.
    destruct (wo_names w Hok _ _ _ Hc Eq) as (j & svj & Hj & <- & Hw). exists j, svj. split_and!; try done.
    intros Hne. by apply (wo_worker w Hok j).
  - intros ->. pose proof (wo_master w Hok _ _ _ Hk Ho) as Hcl. split.
    + destruct (queue k w) as [id|] eqn:Eq; [|done]. apply queue_Some in Eq as (c & Hc & Ek & Es).
      destruct (wo_waiting w Hok _ _ Hc Es) as (j & svj & Ej & Hj & Hop). congruence.
    + intros srv q. eexists. split; [done|]. destruct (sockets w !! srv) as [j|] eqn:E; simpl; [|done].
      intros [= ->]. destruct (wo_sockets w Hok _ _ E) as (svj & Hj & _ & Hop). congruence.
Qed.

(** A worker whose [RunWorker] allows [n] connections takes at most [n] calls, and its loop ends
    only when it has taken exactly [n], as long as nobody calls its [Shutdown]. *)
Theorem worker_quota render Map Reduce m f p es1 es2 w0 w1 w2 w MasterAddress me n :
  let k := length (servers w1) in
  0 ≤ n → start_world m f p = Ok w0 → run_events render Map Reduce w0 es1 = Ok w1 →
  step render Map Reduce w1 (EvRunWorker MasterAddress me n) = Ok w2 →
  run_events render Map Reduce w2 es2 = Ok w → kept_alive k w →
  ∃ sv, servers w !! k = Some sv ∧ is_worker sv ∧ accepted k w ≤ n ∧ (loop sv = Ended → accepted k w = n).
Proof.
  intros k Hn H0 H1 H2 H3 Hal. pose proof (no_early_calls _ _ _ _ _ _ _ _ _ H0 H1) as Ha.
  assert (Hok1 : world_ok w1) by by eapply ok_run; [eapply start_world_ok|].
  assert (worker_at k n w2) as Hw.
  { unfold step, RunWorker_begin in H2. apply bind_Ok in H2 as (w1' & Hl & H2). simplify_eq. apply worker_at_begin.
    destruct (ok_listen _ _ _ Hok1 Hl) as [_ Hk]; [done..|]. eexists _, _. split; [exact Hk|]. split; [done|]. simpl.
    unfold listen in Hl. simpl in Hl. simplify_eq. split; [|done]. unfold accepted in *. simpl. subst k. lia. }
  eapply worker_at_run in Hw; [|by eapply ok_step|done|done].
  destruct Hw as (sv & wk & Hk & Ho & Hq & Hpos & He). exists sv. unfold is_worker. rewrite Ho.
  split_and!; [done|done|lia|]. intros Hend. specialize (He Hend). lia.
Qed.

(** ** A master and a worker *)

Definition demo_task : DoTaskArgs := MkDoTaskArgs "job" "a.txt" mapPhase 0 1.
Definition demo_events : list event :=
  [EvRunWorker "m" "w" 10; EvAccept 0; EvServe 0; EvRegistered 1;
   EvDoTask "w" demo_task; EvAccept 1; EvServe 1; EvFinish 1;
   EvKill "w"; EvAccept 1; EvServe 2; EvStop "m"; EvAccept 0; EvServe 3; EvAccept 0].
Definition demo_steps (es : list event) : outcome world :=
  w ← start_world "m" demo_files None; run_events demo_render demo_map (λ _ _, Ok "") w es.

Definition demo_world : world :=
  match demo_steps demo_events with Ok w => w | _ => MkWorld ∅ [] [] ∅ None end.

(** The job ends: the worker is registered, its task is done, both [Shutdown] calls are answered, the
    loop of the master is over. *)
Lemma registration_exact_witness :
  demo_steps demo_events = Ok demo_world ∧
  servers demo_world !! 0%nat = Some (MkServer "m" (MasterObj (MkMaster ["w"] []) true) false Ended) ∧
  omap (registered 0) (calls demo_world) = ["w"] ∧ queue 0 demo_world = None.
Proof.
  assert (Hes : demo_steps demo_events = Ok demo_world).
  { assert (match demo_steps demo_events with Ok _ => true | _ => false end = true) as E by (vm_compute; reflexivity).
    unfold demo_world. by destruct (demo_steps demo_events). }
  assert (Hk : servers demo_world !! 0%nat = Some (MkServer "m" (MasterObj (MkMaster ["w"] []) true) false Ended))
    by (vm_compute; reflexivity).
  pose proof Hes as Hrun. unfold demo_steps in Hrun. apply bind_Ok in Hrun as (w0 & H0 & Hrun).
  destruct (registration_exact demo_render demo_map (λ _ _, Ok "") "m" demo_files None w0 demo_events demo_world 0 _ _ true
    H0 Hrun Hk eq_refl) as (Hreg & _ & Hq).
  split_and!; [exact Hes|exact Hk|by apply Permutation_singleton_l|by apply Hq].
Defined.

(** ** What modelling showed *)

(** [Shutdown] sets [nRPC] to 1 after the loop has gone back to [Accept]: the worker that was shut
    down waits for one more connection and only then ends. *)
Lemma worker_waits_after_shutdown id k c w w' :
  calls w !! id = Some c → rc_server c = Some k → rc_request c = WorkerShutdown → rc_state c = Served →
  (∃ sv, servers w !! k = Some sv ∧ is_worker sv ∧ l_open sv = true) →
  serve id w = Ok w' → queue k w' = None → accept_round k w' = Block.
Proof.
  intros Hc Ek Eq Es (sv & Hk & Hw & Hop) H Hq. unfold serve in H. rewrite Hc in H. simpl in H.
  rewrite Ek, Es, Hk in H. simpl in H. unfold is_worker in Hw. destruct (obj sv) as [|wk] eqn:Eo; [done|].
  rewrite Eq in H. simpl in H. simplify_eq. unfold accept_round. rewrite Hq. simpl.
  rewrite list_lookup_insert_eq by (by eapply lookup_lt_Some). simpl. rewrite Hop. by destruct (loop sv).
Qed.

(** After the whole job the worker is still there. *)
Lemma worker_outlives_job :
  (w ← demo_steps demo_events; accept_round 1 w) = Block.
Proof. vm_compute. reflexivity. Qed.

(** Two [Shutdown] calls that the master accepts before it serves one end the program. *)
Lemma second_shutdown_panics :
  demo_steps [EvStop "m"; EvStop "m"; EvAccept 0; EvAccept 0; EvServe 0; EvServe 1] = Panic.
Proof. vm_compute. reflexivity. Qed.
