(* ===== verification/MrSchedule.v ===== *)
(** * [schedule] of [mapreduce/schedule.go].

    The loop gives tasks to idle workers until every worker has one, then waits for the
    batch.  A goroutine that makes a call reads [i] and [workerAddr] at once, before the loop
    goes on (which waits 20 ms for registrations first).  The input of a round is whether its
    call will succeed and which workers register at its end; calls end when they are waited
    for. *)

From S2P Require Import Prelude GoLib MrTask MrWorker.

(** A call to [Worker.DoTask] that has been made. *)
Record task_call := MkCall { call_args : DoTaskArgs; call_worker : string; call_ok : bool }.

Record round_input := MkRound { in_ok : bool; in_joins : list string }.

Record sched := MkSched {
  taskList : list Z;
  workerState : gmap string bool;  (** true: is working *)
  workerAddr : string;
  runningTask : Z;
  wg : Z;                          (** the counter of the wait group *)
  running : list task_call;        (** calls that have not been waited for *)
  finished : list task_call;       (** calls that were waited for and succeeded *)
}.

Definition task_of (c : task_call) : Z := TaskNumber (call_args c).

Section schedule.
(** The order in which a loop over the map of workers meets them, and the order in which
    failures arrive on [failedChan]. *)
Variable range : gmap string bool → list (string * bool).
Variable arrive : list task_call → list task_call.

Variables (jobName : string) (mapFiles : list string) (nReduce : Z) (phase : jobPhase).

Definition ntasks : Z := match phase with mapPhase => len mapFiles | reducePhase => nReduce end.
Definition n_other : Z := match phase with mapPhase => nReduce | reducePhase => len mapFiles end.

(** The last idle worker that the loop meets; the old [workerAddr] if there is none. *)
Definition pick_worker (l : list (string * bool)) (workerAddr : string) : string :=
  foldl (λ addr (kv : string * bool), if kv.2 then addr else kv.1) workerAddr l.

(** [wg.Wait()] and the loop over [failedChan]: the counter goes down with every call that
    ends, below zero it panics, above zero the wait never ends. *)
Definition batch_end (st : sched) : outcome sched :=
  let wg := wg st - len (running st) in
  if wg <? 0 then Panic else if 0 <? wg then Block else
  let failures := arrive (filter (λ c, call_ok c = false) (running st)) in
  let ws := foldl (λ m c, delete (call_worker c) m) (workerState st) failures in
  Ok (MkSched (taskList st ++ (task_of <$> failures)) ((λ _, false) <$> ws) (workerAddr st) 0
        (wg + Z.of_nat (size ws)) []
        (finished st ++ filter (λ c, call_ok c = true) (running st))).

(** A registration. *)
Definition join (st : sched) (w : string) : sched :=
  MkSched (taskList st) (<[w := false]> (workerState st)) w (runningTask st) (wg st + 1)
    (running st) (finished st).

Definition schedule_round (st : sched) (i : Z) (inp : round_input) : outcome sched :=
  taskNum ← must (zlookup (taskList st) i);
  let addr := pick_worker (range (workerState st)) (workerAddr st) in
  file ← must (zlookup mapFiles taskNum);
  let c := MkCall (MkDoTaskArgs jobName file phase taskNum n_other) addr (in_ok inp) in
  let st := MkSched (taskList st) (<[addr := true]> (workerState st)) addr (runningTask st + 1)
              (wg st) (running st ++ [c]) (finished st) in
  st ← (if runningTask st =? Z.of_nat (size (workerState st)) then batch_end st else Ok st);
  Ok (foldl join st (in_joins inp)).

(** [for i := 0; i < len(taskList); i++]; [None] when the inputs are used up before. *)
Fixpoint schedule_loop (i : Z) (inputs : list round_input) (st : sched) : outcome (option sched) :=
  if len (taskList st) <=? i then Ok (Some st) else
  match inputs with
  | [] => Ok None
  | inp :: inputs => st ← schedule_round st i inp; schedule_loop (i + 1) inputs st
  end.

(** [ws] are the workers that register in the first second. *)
Definition schedule (ws : list string) (inputs : list round_input) : outcome (option sched) :=
  guard_go (0 <=? ntasks);;
  schedule_loop 0 inputs
    (MkSched (seqZ 0 ntasks) (foldl (λ m w, <[w := false]> m) ∅ ws) (default "" (last ws)) 0
       (len ws) [] []).

(** ** No task is forgotten *)

Hypothesis Harrive : ∀ l, arrive l ≡ₚ l.

(** Every task is finished, running, or still to be given out. *)
Definition kept (st : sched) (i : Z) : Prop :=
  ∀ t, 0 ≤ t < ntasks →
    t ∈ task_of <$> finished st ∨ t ∈ task_of <$> running st ∨
    ∃ j, i ≤ j ∧ zlookup (taskList st) j = Some t.

Definition finished_ok (st : sched) : Prop := Forall (λ c, call_ok c = true) (finished st).

Lemma join_fields ws st :
  taskList (foldl join st ws) = taskList st ∧ running (foldl join st ws) = running st ∧
  finished (foldl join st ws) = finished st.
Proof. revert st. induction ws as [|w ws IH]; intros st; [done|]. simpl. by destruct (IH (join st w)) as (-> & -> & ->). Qed.

Lemma batch_end_kept st st' i :
  batch_end st = Ok st' → 0 ≤ i ≤ len (taskList st) → kept st i → finished_ok st →
  kept st' i ∧ finished_ok st' ∧ i ≤ len (taskList st').
Proof.
  unfold batch_end. destruct (_ <? 0); [done|]. destruct (0 <? _); [done|]. intros [= <-] Hi Hk Hf.
  split_and!.
  - intros t Ht. simpl. destruct (Hk t Ht) as [Hfin|[Hrun|(j & Hj & Htj)]].
    + left. rewrite fmap_app, elem_of_app. by left.
    + apply list_elem_of_fmap in Hrun as (c & -> & Hc). destruct (call_ok c) eqn:Ec.
      * left. rewrite fmap_app, elem_of_app. right. apply list_elem_of_fmap. exists c. split; [done|].
        by apply list_elem_of_filter.
      * right. right. set (fs := arrive _).
        assert (c ∈ fs) as Hin by (unfold fs; rewrite Harrive; by apply list_elem_of_filter).
        apply list_elem_of_lookup in Hin as [p Hp]. exists (len (taskList st) + Z.of_nat p). split; [lia|].
        rewrite zlookup_app_r by lia. rewrite Z.add_simpl_l, zlookup_nat, list_lookup_fmap. by rewrite Hp.
    + right. right. exists j. split; [done|]. rewrite zlookup_app_l; [done|].
      apply zlookup_Some_lt in Htj. lia.
  - unfold finished_ok. simpl. apply Forall_app. split; [done|]. apply Forall_forall.
    by intros c [? _]%list_elem_of_filter.
  - simpl. rewrite len_app. pose proof (len_nonneg (task_of <$> arrive (filter (λ c, call_ok c = false) (running st)))). lia.
Qed.

Lemma round_kept st st' i inp :
  schedule_round st i inp = Ok st' → 0 ≤ i → kept st i → finished_ok st →
  kept st' (i + 1) ∧ finished_ok st' ∧ i + 1 ≤ len (taskList st').
Proof.
  unfold schedule_round. intros (t & Ht%must_Ok & Hr)%bind_Ok Hi Hk Hf.
  apply bind_Ok in Hr as (file & _ & Hr). apply bind_Ok in Hr as (st2 & Hr & E). injection E as <-.
  pose proof (zlookup_Some_lt _ _ _ Ht) as Hlt.
  set (st1 := MkSched _ _ _ _ _ _ _) in Hr.
  assert (Hk1 : kept st1 (i + 1)).
  { intros t' Ht'. simpl. destruct (Hk t' Ht') as [?|[?|(j & Hj & Htj)]]; [by left| |].
    - right. left. rewrite fmap_app, elem_of_app. by left.
    - destruct (decide (j = i)) as [->|].
      + right. left. rewrite fmap_app, elem_of_app. right. assert (t' = t) as -> by congruence. by left.
      + right. right. exists j. split; [lia|done]. }
  destruct (join_fields (in_joins inp) st2) as (E1 & E2 & E3). unfold kept, finished_ok. rewrite E1, E2, E3.
  destruct (runningTask st1 =? _).
  - by apply (batch_end_kept st1 st2 (i + 1) Hr); [simpl; lia|..].
  - injection Hr as <-. split_and!; [done|done|simpl; lia].
Qed.

Lemma loop_kept inputs st st' i :
  schedule_loop i inputs st = Ok (Some st') → 0 ≤ i → kept st i → finished_ok st →
  finished_ok st' ∧ ∃ i', len (taskList st') ≤ i' ∧ kept st' i'.
Proof.
  revert st i. induction inputs as [|inp inputs IH]; intros st i; cbn [schedule_loop];
    destruct (Z.leb_spec (len (taskList st)) i); try done.
  - intros [= <-] _ Hk Hf. eauto.
  - intros [= <-] _ Hk Hf. eauto.
  - intros (st1 & Hr & Hl)%bind_Ok Hi Hk Hf. destruct (round_kept _ _ _ _ Hr Hi Hk Hf) as (Hk1 & Hf1 & _).
    apply (IH st1 (i + 1) Hl); [lia|done|done].
Qed.

(** When [schedule] returns, every task of the phase has been carried out by a worker
    that said so, or has been given out in the last batch, which is not waited for; this
    whatever workers register and fail, and in whatever order. *)
Theorem schedule_keeps_tasks ws inputs st :
  schedule ws inputs = Ok (Some st) →
  ∀ t, 0 ≤ t < ntasks →
    (∃ c, c ∈ finished st ∧ task_of c = t ∧ call_ok c = true) ∨
    (∃ c, c ∈ running st ∧ task_of c = t).
Proof.
  unfold schedule. intros (u & _ & Hs)%bind_Ok t Ht.
  destruct (loop_kept _ _ _ _ Hs) as (Hf & i' & Hi' & Hk).
  - lia.
  - intros t' Ht'. right. right. exists t'. split; [lia|]. simpl. unfold zlookup.
    rewrite decide_True by lia. rewrite lookup_seqZ_lt by lia. f_equal. lia.
  - constructor.
  - unfold finished_ok in Hf. rewrite Forall_forall in Hf.
    destruct (Hk t Ht) as [(c & -> & Hc)%list_elem_of_fmap|[(c & -> & Hc)%list_elem_of_fmap|(j & Hj & Htj)]].
    + left. exists c. split_and!; [done|done|by apply Hf].
    + right. by exists c.
    + apply zlookup_Some_lt in Htj. lia.
Qed.

(** ** The calls name the tasks of the phase *)

Definition made (c : task_call) : Prop :=
  ∃ file, zlookup mapFiles (task_of c) = Some file ∧
    call_args c = MkDoTaskArgs jobName file phase (task_of c) n_other.

Lemma batch_end_made st st' :
  batch_end st = Ok st' → Forall made (finished st ++ running st) → Forall made (finished st' ++ running st').
Proof.
  unfold batch_end. destruct (_ <? 0); [done|]. destruct (0 <? _); [done|]. intros [= <-]. simpl.
  rewrite app_nil_r, !Forall_app. intros [Hf Hr]. split; [done|].
  rewrite Forall_forall in Hr |- *. intros c [_ Hc]%list_elem_of_filter. by apply Hr.
Qed.

Lemma round_made st st' i inp :
  schedule_round st i inp = Ok st' → Forall made (finished st ++ running st) →
  Forall made (finished st' ++ running st').
Proof.
  unfold schedule_round. intros (t & _ & Hr)%bind_Ok Hm.
  apply bind_Ok in Hr as (file & Hfile%must_Ok & Hr). apply bind_Ok in Hr as (st2 & Hr & E). injection E as <-.
  set (st1 := MkSched _ _ _ _ _ _ _) in Hr. destruct (join_fields (in_joins inp) st2) as (_ & -> & ->).
  assert (Hm1 : Forall made (finished st1 ++ running st1)).
  { simpl. rewrite app_assoc. apply Forall_app. split; [done|]. constructor; [|constructor]. by exists file. }
  destruct (runningTask st1 =? _); [by eapply batch_end_made|]. by injection Hr as <-.
Qed.

Lemma schedule_made ws inputs st :
  schedule ws inputs = Ok (Some st) → Forall made (finished st ++ running st).
Proof.
  unfold schedule. intros (u & _ & Hs)%bind_Ok. revert Hs.
  set (st0 := MkSched _ _ _ _ _ _ _). assert (H0 : Forall made (finished st0 ++ running st0)) by constructor.
  revert H0. generalize st0. generalize 0. clear st0.
  induction inputs as [|inp inputs IH]; intros i st0 H0; cbn [schedule_loop]; destruct (_ <=? i); try done.
  - by intros [= <-].
  - by intros [= <-].
  - intros (st1 & Hr & Hl)%bind_Ok. eapply IH; [|exact Hl]. by eapply round_made.
Qed.

(** ** When every call succeeds *)

Hypothesis Hrange : ∀ m, range m ≡ₚ map_to_list m.

Lemma pick_worker_idle l a :
  (∃ kv, kv ∈ l ∧ kv.2 = false) → (pick_worker l a, false) ∈ l.
Proof.
  unfold pick_worker.
  assert (H : ∀ a, (foldl (λ addr (kv : string * bool), if kv.2 then addr else kv.1) a l, false) ∈ l ∨
    (Forall (λ kv, kv.2 = true) l ∧ foldl (λ addr (kv : string * bool), if kv.2 then addr else kv.1) a l = a)).
  { induction l as [|[w b] l IH]; intros a'; simpl; [by right|].
    destruct b; simpl.
    - destruct (IH a') as [?|[? ?]]; [left; by right|right; by split; [constructor|]].
    - destruct (IH w) as [?|[? ->]]; left; [by right|by left]. }
  intros ([w b] & Hin & Hb). simpl in Hb. subst b. destruct (H a) as [|[Hall _]]; [done|].
  rewrite Forall_forall in Hall. by specialize (Hall _ Hin).
Qed.

(** The state after [i] rounds: the workers that run a task are those that are marked. *)
Record in_batch (W : gset string) (i : Z) (st : sched) : Prop := {
  ib_list : taskList st = seqZ 0 ntasks;
  ib_tasks : task_of <$> (finished st ++ running st) = seqZ 0 i;
  ib_nodup : NoDup (call_worker <$> running st);
  ib_marked : ∀ w, workerState st !! w = Some true ↔ w ∈ call_worker <$> running st;
  ib_dom : dom (workerState st) = W;
  ib_count : runningTask st = len (running st);
  ib_wg : wg st = Z.of_nat (size W);
  ib_ok : Forall (λ c, call_ok c = true) (running st);
}.

(** There is an idle worker, and [pick_worker] finds one. *)
Lemma in_batch_pick W i st :
  len (running st) < Z.of_nat (size W) → in_batch W i st →
  workerState st !! pick_worker (range (workerState st)) (workerAddr st) = Some false.
Proof.
  intros Hlt Hb.
  assert (¬ W ⊆ list_to_set (call_worker <$> running st)) as Hne.
  { intros Hsub. apply subseteq_size in Hsub. rewrite size_list_to_set in Hsub by apply Hb.
    rewrite length_fmap in Hsub. unfold len in Hlt. lia. }
  assert (∃ w, workerState st !! w = Some false) as [w Hw].
  { set (L := list_to_set (call_worker <$> running st) : gset string) in *.
    destruct (set_choose_or_empty (W ∖ L)) as [[w Hw]|He].
    2: { exfalso. apply Hne. intros w Hw. destruct (decide (w ∈ L)) as [|Hn]; [done|]. exfalso.
         apply (not_elem_of_empty (C := gset string) w). rewrite <- He. by apply elem_of_difference. }
    apply elem_of_difference in Hw as [Hw Hnr]. rewrite <- (ib_dom _ _ _ Hb) in Hw.
    apply elem_of_dom in Hw as [[] Hw]; [|by exists w]. apply (ib_marked _ _ _ Hb) in Hw.
    destruct Hnr. by apply elem_of_list_to_set. }
  apply elem_of_map_to_list. rewrite <- (Hrange _). apply pick_worker_idle.
  exists (w, false). split; [|done]. rewrite (Hrange _). by apply elem_of_map_to_list.
Qed.

(** Giving out a task. *)
Definition dispatch (st : sched) (c : task_call) : sched :=
  MkSched (taskList st) (<[call_worker c := true]> (workerState st)) (call_worker c) (runningTask st + 1)
    (wg st) (running st ++ [c]) (finished st).

Lemma dispatch_in_batch W i st c :
  0 ≤ i → in_batch W i st → workerState st !! call_worker c = Some false → call_ok c = true →
  task_of c = i → in_batch W (i + 1) (dispatch st c).
Proof.
  intros Hi Hb Hw Hc Ht. pose proof Hb as [Hl Hts Hnd Hm Hd Hn Hg Hok].
  assert (Haddr : call_worker c ∉ call_worker <$> running st) by (intros ?%Hm; congruence).
  split; unfold dispatch; cbn [taskList workerState runningTask wg running finished]; try done.
  - rewrite app_assoc, fmap_app, Hts, seqZ_app by lia. by rewrite <- Ht.
  - rewrite fmap_app. apply NoDup_app. split_and!; [done| |apply NoDup_singleton].
    intros x Hx ->%list_elem_of_singleton. done.
  - intros w. rewrite fmap_app, elem_of_app, <- Hm.
    change (call_worker <$> [c]) with [call_worker c]. rewrite list_elem_of_singleton.
    destruct (decide (w = call_worker c)) as [->|];
      [rewrite lookup_insert_eq|rewrite lookup_insert_ne by done]; naive_solver.
  - apply elem_of_dom_2 in Hw. rewrite dom_insert_L, Hd in *. set_solver.
  - rewrite len_app, Hn. done.
  - apply Forall_app. split; [done|by repeat constructor].
Qed.

Lemma batch_end_success W i st :
  in_batch W i st → len (running st) = Z.of_nat (size W) →
  ∃ st', batch_end st = Ok st' ∧ in_batch W i st' ∧ running st' = [].
Proof.
  intros [Hl Hts Hnd Hm Hd Hn Hg Hok] Hfull. unfold batch_end.
  rewrite Hg, Hfull, Z.sub_diag. cbn [Z.ltb Z.compare].
  rewrite (filter_all (λ c, call_ok c = true)) by (by apply Forall_forall).
  assert (filter (λ c, call_ok c = false) (running st) = []) as ->.
  { clear -Hok. induction Hok as [|x l Hx Hok IH]; [done|].
    rewrite filter_cons, decide_False; [done|]. congruence. }
  assert (arrive [] = []) as -> by (apply Permutation_nil_r; symmetry; by rewrite Harrive).
  cbn [foldl]. eexists. split; [done|]. split; [|done].
  split; cbn [taskList workerState runningTask wg running finished]; try done.
  - rewrite Hl. apply app_nil_r.
  - by rewrite app_nil_r.
  - constructor.
  - intros w. rewrite lookup_fmap. split; [|by intros ?%elem_of_nil].
    destruct (workerState st !! w); simpl; congruence.
  - by rewrite dom_fmap_L.
  - by rewrite <- Hd, size_dom.
Qed.

Lemma round_success W i st :
  0 < Z.of_nat (size W) → in_batch W i st → len (running st) = i mod Z.of_nat (size W) →
  0 ≤ i < ntasks → ntasks ≤ len mapFiles →
  ∃ st', schedule_round st i (MkRound true []) = Ok st' ∧ in_batch W (i + 1) st' ∧
    len (running st') = (i + 1) mod Z.of_nat (size W).
Proof.
  intros HW Hb Hpart Hi Hfiles. pose proof (Z.mod_pos_bound i _ HW) as Hmod. rewrite <- Hpart in Hmod.
  pose proof (in_batch_pick W i st ltac:(lia) Hb) as Hpick.
  unfold schedule_round. set (addr := pick_worker _ _) in *. rewrite (ib_list _ _ _ Hb).
  assert (zlookup (seqZ 0 ntasks) i = Some i) as ->.
  { unfold zlookup. rewrite decide_True by lia. rewrite lookup_seqZ_lt by lia. f_equal. lia. }
  destruct (zlookup_lt_Some mapFiles i) as [file Hfile]; [lia|]. cbn [must mbind outcome_bind].
  rewrite Hfile. cbn [must mbind outcome_bind in_ok in_joins foldl]. set (c := MkCall _ _ _).
  rewrite <- (ib_list _ _ _ Hb).
  pose proof (dispatch_in_batch W i st c ltac:(lia) Hb Hpick eq_refl eq_refl) as Hb1.
  change (MkSched _ _ _ _ _ _ _) with (dispatch st c).
  assert (Hlen : len (running (dispatch st c)) = len (running st) + 1) by (simpl; by rewrite len_app).
  assert (Hsz : size (workerState (dispatch st c)) = size W) by (by rewrite <- (ib_dom _ _ _ Hb1), size_dom).
  rewrite Hsz, (ib_count _ _ _ Hb1), Hlen.
  destruct (Z.eqb_spec (len (running st) + 1) (Z.of_nat (size W))) as [Hfull|Hnot].
  - destruct (batch_end_success W (i + 1) (dispatch st c) Hb1) as (st' & -> & Hb' & Hnil); [congruence|].
    cbn [mbind outcome_bind]. exists st'. split_and!; [done|done|]. rewrite Hnil, len_nil.
    rewrite <- Zplus_mod_idemp_l, <- Hpart, Hfull. symmetry. apply Z.mod_same. lia.
  - exists (dispatch st c). split_and!; [done|done|]. rewrite Hlen, <- Zplus_mod_idemp_l, <- Hpart.
    symmetry. apply Z.mod_small. lia.
Qed.

Lemma loop_success W n i st :
  0 < Z.of_nat (size W) → in_batch W i st → len (running st) = i mod Z.of_nat (size W) →
  0 ≤ i → i + Z.of_nat n = ntasks → ntasks ≤ len mapFiles →
  ∃ st', schedule_loop i (replicate n (MkRound true [])) st = Ok (Some st') ∧ in_batch W ntasks st' ∧
    len (running st') = ntasks mod Z.of_nat (size W).
Proof.
  intros HW. revert i st. induction n as [|n IH]; intros i st Hb Hpart Hi Hn Hfiles; cbn [replicate schedule_loop];
    rewrite (ib_list _ _ _ Hb); unfold len at 1; rewrite length_seqZ.
  - destruct (Z.leb_spec (Z.of_nat (Z.to_nat ntasks)) i); [|lia]. replace ntasks with i by lia. eauto.
  - destruct (Z.leb_spec (Z.of_nat (Z.to_nat ntasks)) i); [lia|].
    destruct (round_success W i st) as (st' & -> & Hb' & Hpart'); [done..|lia|done|].
    cbn [mbind outcome_bind]. apply IH; [done|done|lia..].
Qed.

Lemma schedule_runs ws :
  NoDup ws → ws ≠ [] → 0 ≤ ntasks ≤ len mapFiles →
  ∃ st, schedule ws (replicate (Z.to_nat ntasks) (MkRound true [])) = Ok (Some st) ∧
    task_of <$> (finished st ++ running st) = seqZ 0 ntasks ∧
    NoDup (call_worker <$> running st) ∧
    len (running st) = ntasks mod len ws.
Proof.
  intros Hnd Hne Hn. unfold schedule. rewrite (proj2 (Z.leb_le 0 ntasks)) by lia.
  cbn [guard_go mbind outcome_bind]. set (m := foldl _ _ _).
  assert (Hm : ∀ w, m !! w = if decide (w ∈ ws) then Some false else None).
  { unfold m. clear -Hnd. intros w. assert (∀ m0, foldl (λ m w, <[w := false]> m) m0 ws !! w =
      if decide (w ∈ ws) then Some false else (m0 : gmap string bool) !! w) as H; [|by rewrite H, lookup_empty].
    clear Hnd. induction ws as [|x l IH]; intros m0; cbn [foldl].
    { rewrite decide_False; [done|]. by intros ?%elem_of_nil. }
    rewrite IH. destruct (decide (w = x)) as [->|].
    - rewrite lookup_insert_eq, (decide_True (P := x ∈ x :: l)) by (by left). by case_decide.
    - rewrite lookup_insert_ne by done. repeat case_decide; set_solver. }
  assert (Hdom : dom m = list_to_set ws).
  { apply set_eq. intros w. rewrite elem_of_dom, elem_of_list_to_set, Hm. case_decide; [naive_solver|].
    split; [by intros [? ?]|done]. }
  assert (Hsz : size (dom m) = length ws) by (by rewrite Hdom, size_list_to_set).
  destruct (loop_success (dom m) (Z.to_nat ntasks) 0
    (MkSched (seqZ 0 ntasks) m (default "" (last ws)) 0 (len ws) [] [])) as (st & Hs & Hb & Hpart).
  - rewrite Hsz. destruct ws; [done|simpl; lia].
  - split; cbn [taskList workerState runningTask wg running finished app]; try done.
    + constructor.
    + intros w. rewrite Hm. split; [by case_decide|by intros ?%elem_of_nil].
    + by rewrite Hsz.
  - cbn [running]. rewrite len_nil. symmetry. by apply Zmod_0_l.
  - done.
  - lia.
  - lia.
  - exists st. split_and!; [exact Hs|apply Hb|apply Hb|]. rewrite Hpart, Hsz. done.
Qed.

(** With [k] workers of which none fails and none is added, [schedule] gives out the
    tasks once each and in order, never two at a time to the same worker, and returns; the
    last [ntasks mod k] tasks are then still running: [schedule] does not wait for a batch
    that is not full. *)
Theorem schedule_success ws :
  NoDup ws → ws ≠ [] → 0 ≤ ntasks ≤ len mapFiles →
  ∃ st, schedule ws (replicate (Z.to_nat ntasks) (MkRound true [])) = Ok (Some st) ∧
    task_of <$> (finished st ++ running st) = seqZ 0 ntasks ∧
    NoDup (call_worker <$> running st) ∧
    len (running st) = ntasks mod len ws.
Proof. exact (schedule_runs ws). Qed.
End schedule.

(** ** Small jobs *)

Definition demo_schedule (mapFiles : list string) (nReduce : Z) (phase : jobPhase) :=
  schedule map_to_list (λ l, l) "wcseq" mapFiles nReduce phase.

(** What a run leaves: the tasks that are done, and those that are still running. *)
Definition outcome_of (r : outcome (option sched)) : option (list Z * list Z) :=
  match r with
  | Ok (Some st) => Some (task_of <$> finished st, task_of <$> running st)
  | _ => None
  end.

(** The worker of the first task fails; the task is given out again at the end. *)
Definition demo_inputs : list round_input :=
  [MkRound false []; MkRound true ["c"]; MkRound true []; MkRound true []].

Lemma schedule_keeps_tasks_witness :
  ∃ st, demo_schedule ["f0"; "f1"; "f2"] 2 mapPhase ["a"; "b"] demo_inputs = Ok (Some st) ∧
    ((∃ c, c ∈ finished st ∧ task_of c = 0 ∧ call_ok c = true) ∨ ∃ c, c ∈ running st ∧ task_of c = 0).
Proof.
  destruct (demo_schedule ["f0"; "f1"; "f2"] 2 mapPhase ["a"; "b"] demo_inputs) as [[st|]| |] eqn:E;
    [|vm_compute in E; discriminate E..].
  exists st. split; [done|].
  apply (schedule_keeps_tasks map_to_list (λ l, l) "wcseq" ["f0"; "f1"; "f2"] 2 mapPhase (λ _, reflexivity _)
    ["a"; "b"] demo_inputs st E 0). vm_compute. split; [discriminate|reflexivity].
Defined.

Lemma schedule_success_witness :
  ∃ st, demo_schedule ["f0"; "f1"; "f2"] 2 mapPhase ["a"; "b"] (replicate 3 (MkRound true [])) = Ok (Some st) ∧
    len (running st) = 1.
Proof.
  destruct (schedule_success map_to_list (λ l, l) "wcseq" ["f0"; "f1"; "f2"] 2 mapPhase (λ _, reflexivity _)
    (λ _, reflexivity _) ["a"; "b"]) as (st & Hs & _ & _ & Hr).
  - apply (bool_decide_unpack _). reflexivity.
  - done.
  - vm_compute. split; discriminate.
  - exists st. split; [exact Hs|exact Hr].
Defined.

(** The last task of three fails on two workers: [schedule] returns all the same. *)
Lemma schedule_forgets_failure :
  outcome_of (demo_schedule ["f0"; "f1"; "f2"] 2 mapPhase ["a"; "b"]
    [MkRound true []; MkRound true []; MkRound false []]) = Some ([0; 1], [2]).
Proof. reflexivity. Qed.

(** The reduce phase takes a file name for every task from the input files: with more reduce
    tasks than input files it panics. *)
Lemma schedule_reduce_panics :
  demo_schedule ["f0"] 2 reducePhase ["a"] (replicate 2 (MkRound true [])) = Panic.
Proof. reflexivity. Qed.

(** Without workers in the first second, the wait group goes below zero. *)
Lemma schedule_no_worker_panics :
  demo_schedule ["f0"] 2 mapPhase [] [MkRound true []] = Panic.
Proof. reflexivity. Qed.
