(* ===== verification/MrDistributed.v ===== *)
(** * Distributed jobs: [run] and [Distributed] of [mapreduce/master.go], with [schedule]
    (file MrSchedule), the workers' [DoTask] (file MrWorker) and [merge] (file MrMaster).

    The bodies of the calls run on the workers at the same time.  Two tasks of a phase never
    touch the same output file, so a body is one step here; in which order they run is a
    parameter, and so is which of the calls that [schedule] does not wait for have run when it
    returns. *)

From S2P Require Import Prelude GoLib MrTask MrMaster MrWorker MrSchedule.

(** ** [run] *)

(** Up to the message on [doneChannel]; [schedule] and [finish] are its arguments in the code
    too.  The result is the files and [mr.stats]. *)
Definition run (f : fs) (jobName : string) (nreduce : Z) (schedule : jobPhase → fs → outcome fs)
    (finish : list Z) : outcome (fs * list Z) :=
  f ← schedule mapPhase f;
  f ← schedule reducePhase f;
  let stats := finish in
  f ← merge f jobName nreduce;
  Ok (f, stats).

Section distributed.
Variable render : file → string.
Variable mapF : string → string → list KeyValue.
Variable reduceF : string → list string → outcome string.

(** The bodies of calls, one after another. *)
Fixpoint run_calls (f : fs) (calls : list task_call) : outcome fs :=
  match calls with
  | [] => Ok f
  | c :: calls => f ← DoTask_run render mapF reduceF f (call_args c); run_calls f calls
  end.

(** What happens to a phase: the workers that the channel gives in the first second, the
    inputs of the rounds, and the calls whose bodies have run when [schedule] returns, in
    their order. *)
Record phase_run := MkPhaseRun {
  ph_workers : list string;
  ph_inputs : list round_input;
  ph_order : sched → list task_call;
}.

Variable range : gmap string bool → list (string * bool).
Variable arrive : list task_call → list task_call.

(** [schedule] never returns when the inputs end before. *)
Definition dist_schedule (jobName : string) (files : list string) (nreduce : Z)
    (runs : jobPhase → phase_run) (phase : jobPhase) (f : fs) : outcome fs :=
  st ← schedule range arrive jobName files nreduce phase (ph_workers (runs phase)) (ph_inputs (runs phase));
  match st with
  | None => Block
  | Some st => run_calls f (ph_order (runs phase) st)
  end.

(** [workers] are those that have registered in the end, [replies] their answers to
    [Shutdown]. *)
Definition Distributed (f : fs) (jobName : string) (files : list string) (nreduce : Z)
    (runs : jobPhase → phase_run) (workers : list string) (replies : list (option Z)) :
    outcome (fs * list Z) :=
  run f jobName nreduce (dist_schedule jobName files nreduce runs) (killWorkers workers replies []).

(** A sequential job is [run] too. *)
Lemma Sequential_run f job files n :
  Sequential render mapF reduceF f job files n =
    run f job n (λ phase f, match phase with
                            | mapPhase => run_maps render mapF f job n 0 files
                            | reducePhase => run_reduces reduceF f job (len files) (seqZ 0 n)
                            end) [len files + n].
Proof. reflexivity. Qed.

(** ** The bodies of a phase, in any order *)
Section job.
Variables (f0 : fs) (job : string) (files : list string) (n : Z).
Hypothesis Hn : 0 < n.

(** Calls that are made for the tasks of a phase. *)
Definition calls_of (phase : jobPhase) (calls : list task_call) : Prop :=
  Forall (made job files n phase) calls ∧ NoDup (task_of <$> calls).

Lemma calls_of_cons phase c calls :
  calls_of phase (c :: calls) →
  made job files n phase c ∧ (task_of c ∉ task_of <$> calls) ∧ calls_of phase calls.
Proof.
  unfold calls_of. rewrite Forall_cons, fmap_cons, NoDup_cons. tauto.
Qed.

Lemma made_range phase c : made job files n phase c → 0 ≤ task_of c < len files.
Proof. intros (file & Hfile & _). by eapply zlookup_Some_lt. Qed.

Lemma calls_range phase calls c : calls_of phase calls → c ∈ calls → 0 ≤ task_of c < len files.
Proof. intros [Hm _] Hc. rewrite Forall_forall in Hm. by eapply made_range, Hm. Qed.

(** A task that is not among those of the calls has other output files. *)
Lemma other_output phase calls t c r r' :
  calls_of phase calls → t ∉ task_of <$> calls → 0 ≤ t → c ∈ calls →
  reduceName job (task_of c) r ≠ reduceName job t r'.
Proof.
  intros Hc Hnew Ht Hin E. pose proof (calls_range _ _ _ Hc Hin).
  apply reduceName_inj in E as [<- _]; [|lia|done]. destruct Hnew. by apply list_elem_of_fmap_2.
Qed.

(** The output files of the map tasks of [calls]. *)
Definition map_outputs (calls : list task_call) (x : string) : Prop :=
  ∃ c r, c ∈ calls ∧ 0 ≤ r < n ∧ x = reduceName job (task_of c) r.

Lemma run_calls_maps f calls :
  calls_of mapPhase calls →
  (∀ file, file ∈ files → is_Some (f0 !! file) ∧ f !! file = f0 !! file ∧
     ∀ m r, 0 ≤ m → file ≠ reduceName job m r) →
  (∀ c r, c ∈ calls → f !! reduceName job (task_of c) r = None) →
  ∃ f', run_calls f calls = Ok f' ∧
    (∀ c r, c ∈ calls → 0 ≤ r < n →
       f' !! reduceName job (task_of c) r = Some [JArr (task_pairs render mapF f0 files n r (task_of c))]) ∧
    (∀ x, ¬ map_outputs calls x → f' !! x = f !! x).
Proof.
  revert f. induction calls as [|c calls IH]; intros f Hc Hin Hnone; cbn [run_calls].
  { exists f. split_and!; [done|by intros c r ?%elem_of_nil|done]. }
  apply calls_of_cons in Hc as (Hmade & Hnew & Hc). pose proof (made_range _ _ Hmade) as Hr0.
  destruct Hmade as (file & Hfile & ->). unfold DoTask_run. cbn [Phase JobName TaskNumber File NumOtherPhase n_other].
  destruct (Hin file) as ([content Hcont] & Hcf & Hne);
    [unfold zlookup in Hfile; case_decide; [|done]; by eapply list_elem_of_lookup_2|].
  destruct (doMap_ok render mapF f job (task_of c) file content n) as (f1 & -> & Hr1 & Hx1); [congruence|done|].
  cbn [mbind outcome_bind]. destruct (IH f1) as (f' & -> & Hr & Hx); [done| | |].
  - intros file' Hin'. destruct (Hin file') as (Hs & Hcf' & Hne'); [done|]. split_and!; [done| |done].
    rewrite Hx1; [done|]. intros r _. apply Hne'. lia.
  - intros c' r Hc'. rewrite Hx1; [apply Hnone; by right|]. intros r' _.
    apply (other_output _ _ _ _ _ _ Hc Hnew); [lia|done].
  - exists f'. split_and!; [done| |].
    + intros c' r [->|Hc']%elem_of_cons Hrr; [|by apply Hr]. rewrite Hx.
      * rewrite Hr1, Hnone by (done || by left). unfold task_pairs, pairs_of, map_out.
        rewrite Hfile. simpl. by rewrite Hcont.
      * intros (c' & r' & Hc' & _ & E). symmetry in E. revert E.
        apply (other_output _ _ _ _ _ _ Hc Hnew); [lia|done].
    + intros x Hx'. rewrite Hx, Hx1; [done| |].
      * intros r Hrr ->. apply Hx'. exists c, r. split_and!; [by left|lia..|done].
      * intros (c' & r & Hc' & Hrr & ->). apply Hx'. exists c', r. split_and!; [by right|lia..|done].
Qed.

Lemma run_calls_reduces f calls :
  calls_of reducePhase calls →
  run_calls f calls = run_reduces reduceF f job (len files) (task_of <$> calls).
Proof.
  revert f. induction calls as [|c calls IH]; intros f Hc; [done|]. rewrite fmap_cons. cbn [run_calls run_reduces].
  apply calls_of_cons in Hc as ((file & _ & ->) & _ & Hc). unfold DoTask_run.
  cbn [Phase JobName TaskNumber File NumOtherPhase n_other].
  destruct (doReduce _ _ _ _ _ _) as [f1| |]; cbn [mbind outcome_bind]; [by apply IH|done..].
Qed.
End job.

(** ** A whole job *)
Section whole.
Context (f0 : fs) (job : string) (files : list string) (n : Z) (v : string → string).
Abbreviation all := (all_pairs render mapF f0 files).
Hypothesis Hn : 0 < n.
Hypothesis Hfresh : fresh_names f0 job.
Hypothesis Hin : ∀ file, file ∈ files → is_Some (f0 !! file).
Hypothesis Hval : ∀ kv, kv ∈ all → valid_kv kv = kv.
Hypothesis Hred : ∀ k, k ∈ Key <$> all → reduceF k (values k all) = Ok (v k) ∧ ToValid (v k) = v k.

(** The map tasks leave the same files in every order. *)
Lemma maps_any_order calls :
  calls_of job files n mapPhase calls → task_of <$> calls ≡ₚ seqZ 0 (len files) →
  run_calls f0 calls = run_maps render mapF f0 job n 0 files.
Proof.
  intros Hc Hperm. destruct (map_phase render mapF f0 job files n Hn Hfresh Hin) as (f1 & -> & Hr & Hx).
  destruct (run_calls_maps f0 job files n Hn f0 calls Hc) as (f1' & -> & Hr' & Hx').
  - intros file Hfile. split_and!; [by apply Hin|done|]. intros m r Hm ->.
    destruct (Hin _ Hfile) as [c E]. by rewrite (proj1 Hfresh) in E.
  - intros c r Hin'. apply (proj1 Hfresh). pose proof (calls_range _ _ _ _ _ _ Hc Hin'). lia.
  - f_equal. apply map_eq. intros x.
    assert (Htask : ∀ m, 0 ≤ m < len files → ∃ c, c ∈ calls ∧ task_of c = m).
    { intros m Hm. assert (m ∈ task_of <$> calls) as (c & -> & ?)%list_elem_of_fmap; [|by exists c].
      rewrite Hperm. apply elem_of_seqZ. lia. }
    destruct (decide (Exists (λ c, Exists (λ r, x = reduceName job (task_of c) r) (seqZ 0 n)) calls)) as [He|Hne].
    + apply Exists_exists in He as (c & Hin' & (r & Hrr%elem_of_seqZ & ->)%Exists_exists).
      rewrite Hr', Hr; [done|by eapply calls_range|lia|done|lia].
    + rewrite Hx', Hx; [done| |].
      * intros m r Hm Hrr ->. destruct (Htask m Hm) as (c & Hin' & <-). apply Hne, Exists_exists.
        exists c. split; [done|]. apply Exists_exists. exists r. split; [apply elem_of_seqZ; lia|done].
      * intros (c & r & Hin' & Hrr & ->). apply Hne, Exists_exists.
        exists c. split; [done|]. apply Exists_exists. exists r. split; [apply elem_of_seqZ; lia|done].
Qed.

(** So do the reduce tasks, on the files of the map phase. *)
Lemma reduces_any_order f1 rs :
  run_maps render mapF f0 job n 0 files = Ok f1 → rs ≡ₚ seqZ 0 n →
  run_reduces reduceF f1 job (len files) rs = run_reduces reduceF f1 job (len files) (seqZ 0 n).
Proof.
  intros Hf1 Hperm. destruct (map_phase render mapF f0 job files n Hn Hfresh Hin) as (f1' & E & Hr & Hx).
  rewrite Hf1 in E. injection E as <-.
  assert (Hany : ∀ rs, rs ≡ₚ seqZ 0 n → ∃ f', run_reduces reduceF f1 job (len files) rs = Ok f' ∧
    (∀ r, r ∈ rs → f' !! mergeName job r = Some ((λ k, JObj (valid_kv (MkKV k (v k)))) <$>
       sorted_keys (concat (task_pairs render mapF f0 files n r <$> seqZ 0 (len files))))) ∧
    (∀ x, (∀ r, r ∈ rs → x ≠ mergeName job r) → f' !! x = f1 !! x)).
  { intros rs' Hrs. apply run_reduces_ok; [rewrite Hrs; apply NoDup_seqZ|].
    intros r Hin'. rewrite Hrs in Hin'. apply elem_of_seqZ in Hin'. split_and!.
    - rewrite Hx; [apply Hfresh|]. intros m r' Hm _ E. symmetry in E. revert E. apply reduceName_mergeName. lia.
    - intros m Hm. apply Hr; lia.
    - rewrite task_pairs_concat by exact Hval. intros k [Hk Hkr]%elem_of_bucket_key.
      rewrite values_bucket by done. by apply Hred. }
  destruct (Hany rs Hperm) as (f2 & -> & H2 & X2). destruct (Hany (seqZ 0 n)) as (f3 & -> & H3 & X3); [done|].
  f_equal. apply map_eq. intros x.
  destruct (decide (Exists (λ r, x = mergeName job r) rs)) as [(r & Hin' & ->)%Exists_exists|Hne].
  - rewrite H2, H3; [done|by rewrite <- Hperm|done].
  - rewrite X2, X3; [done| |]; intros r Hin' ->; apply Hne, Exists_exists; exists r; (split; [|done]);
      [by rewrite Hperm|done].
Qed.

(** A phase in which no call fails, no worker joins late, and the last batch is full.  Which
    bodies have run when [schedule] returns: those it has waited for, in any order, and some
    of the others. *)
Record undisturbed (phase : jobPhase) (r : phase_run) : Prop := {
  un_nodup : NoDup (ph_workers r);
  un_some : ph_workers r ≠ [];
  un_full : ntasks files n phase mod len (ph_workers r) = 0;
  un_inputs : ph_inputs r = replicate (Z.to_nat (ntasks files n phase)) (MkRound true []);
  un_order : ∀ st, ∃ early late, early ++ late ≡ₚ running st ∧ ph_order r st ≡ₚ finished st ++ early;
}.

Hypothesis Hrange : ∀ m, range m ≡ₚ map_to_list m.
Hypothesis Harrive : ∀ l, arrive l ≡ₚ l.

(** [schedule] returns with every call of the phase done, once. *)
Lemma schedule_done phase r :
  undisturbed phase r → 0 ≤ ntasks files n phase ≤ len files →
  ∃ st, schedule range arrive job files n phase (ph_workers r) (ph_inputs r) = Ok (Some st) ∧
    calls_of job files n phase (ph_order r st) ∧
    task_of <$> ph_order r st ≡ₚ seqZ 0 (ntasks files n phase).
Proof.
  intros [Hnd Hne Hfull -> Hord] Hnt.
  destruct (schedule_runs range arrive job files n phase Harrive Hrange (ph_workers r) Hnd Hne Hnt)
    as (st & Hs & Htasks & _ & Hlen). exists st.
  assert (Hrun : running st = []).
  { rewrite Hfull in Hlen. destruct (running st); [done|]. rewrite len_cons in Hlen.
    pose proof (len_nonneg l). lia. }
  destruct (Hord st) as (early & late & Hel & Ho). rewrite Hrun in Hel.
  apply Permutation_nil_r, app_eq_nil in Hel as [-> _]. rewrite app_nil_r in Ho.
  rewrite Hrun, app_nil_r in Htasks. split_and!; [exact Hs| |by rewrite Ho, Htasks].
  apply schedule_made in Hs. rewrite Hrun, app_nil_r in Hs. split; [by rewrite Ho|].
  rewrite Ho, Htasks. apply NoDup_seqZ.
Qed.

Lemma Distributed_runs runs workers replies :
  n ≤ len files → (∀ phase, undisturbed phase (runs phase)) →
  ∃ f', Distributed f0 job files n runs workers replies = Ok (f', killWorkers workers replies []) ∧
    Sequential render mapF reduceF f0 job files n = Ok (f', [len files + n]).
Proof.
  intros Hnf Hun.
  destruct (Sequential_files render mapF reduceF f0 job files n v Hn Hfresh Hin Hval Hred) as (f' & Hseq & _).
  exists f'. split; [|exact Hseq]. rewrite Sequential_run in Hseq. unfold Distributed, run, dist_schedule in *.
  destruct (schedule_done mapPhase (runs mapPhase)) as (st1 & -> & Hc1 & Hp1); [apply Hun|simpl; split; [apply len_nonneg|done]|].
  cbn [mbind outcome_bind] in *. rewrite (maps_any_order _ Hc1 Hp1).
  apply bind_Ok in Hseq as (f1 & Hf1 & Hseq). rewrite Hf1. cbn [mbind outcome_bind] in *.
  destruct (schedule_done reducePhase (runs reducePhase)) as (st2 & -> & Hc2 & Hp2); [apply Hun|simpl; lia|].
  cbn [mbind outcome_bind]. rewrite (run_calls_reduces job files n f1 _ Hc2).
  rewrite (reduces_any_order f1 _ Hf1 Hp2).
  apply bind_Ok in Hseq as (f2 & -> & Hseq). cbn [mbind outcome_bind] in *.
  apply bind_Ok in Hseq as (f3 & -> & Hseq). cbn [mbind outcome_bind]. by injection Hseq as ->.
Qed.
End whole.
End distributed.

(** C23. A distributed job leaves exactly the files of the sequential one: when no worker fails and
    in both phases the number of workers divides the number of tasks, [Distributed] ends,
    whatever the order in which maps are iterated, workers are picked and the tasks of a phase
    run; there must be at least as many input files as reduce tasks. *)
Theorem Distributed_correct render mapF reduceF range arrive f0 job files n (v : string → string)
    runs workers replies :
  let all := all_pairs render mapF f0 files in
  (∀ m, range m ≡ₚ map_to_list m) → (∀ l, arrive l ≡ₚ l) →
  0 < n ≤ len files → fresh_names f0 job → (∀ file, file ∈ files → is_Some (f0 !! file)) →
  (∀ kv, kv ∈ all → valid_kv kv = kv) →
  (∀ k, k ∈ Key <$> all → reduceF k (values k all) = Ok (v k) ∧ ToValid (v k) = v k) →
  (∀ phase, undisturbed files n phase (runs phase)) →
  ∃ f', Distributed render mapF reduceF range arrive f0 job files n runs workers replies =
      Ok (f', killWorkers workers replies []) ∧
    Sequential render mapF reduceF f0 job files n = Ok (f', [len files + n]).
Proof.
  intros all Hrange Harrive [Hn Hnf] Hf Hin Hval Hred Hun.
  by apply (Distributed_runs render mapF reduceF range arrive f0 job files n v).
Qed.

(** ** A job with two workers *)

Definition demo_order (st : sched) : list task_call := reverse (finished st).
Definition demo_runs (phase : jobPhase) : phase_run :=
  MkPhaseRun ["a"; "b"] (replicate 2 (MkRound true [])) demo_order.

Lemma demo_undisturbed phase : undisturbed ["a.txt"; "b.txt"] 2 phase (demo_runs phase).
Proof.
  split.
  - apply (bool_decide_unpack _). reflexivity.
  - done.
  - by destruct phase.
  - by destruct phase.
  - intros st. exists [], (running st). split; [done|]. cbn [demo_runs ph_order]. unfold demo_order.
    by rewrite reverse_Permutation, app_nil_r.
Qed.

(** The reduce tasks run in the other order than in the sequential job. *)
Lemma Distributed_correct_witness :
  final_of (Distributed demo_render demo_map demo_reduce map_to_list (λ l, l) demo_files "wcseq" ["a.txt"; "b.txt"] 2
    demo_runs ["a"; "b"] [Some 2; Some 2]) "wcseq" = Some [result_line (λ _, "2") "k"].
Proof.
  destruct (Distributed_correct demo_render demo_map demo_reduce map_to_list (λ l, l) demo_files "wcseq"
    ["a.txt"; "b.txt"] 2 (λ _, "2") demo_runs ["a"; "b"] [Some 2; Some 2]) as (f' & -> & Hs);
    [reflexivity|reflexivity|vm_compute; split; [reflexivity|discriminate]|apply demo_fresh|intros; by apply demo_exist|
     apply demo_pairs_ok|apply demo_pairs_ok|apply demo_undisturbed|].
  transitivity (final_of (Ok (f', [len ["a.txt"; "b.txt"] + 2])) "wcseq"); [reflexivity|].
  rewrite <- Hs. vm_compute. reflexivity.
Defined.

(** ** What modelling showed *)

(** With two workers and three input files [schedule] returns while the last map task may
    still be running; the reduce phase then does not find its files and the program ends. *)
Lemma Distributed_reads_early :
  Distributed demo_render demo_map demo_reduce map_to_list (λ l, l)
    (<["c.txt" := [Text "x"]]> demo_files) "wcseq" ["a.txt"; "b.txt"; "c.txt"] 2
    (λ phase, MkPhaseRun ["a"; "b"]
       (replicate (match phase with mapPhase => 3 | reducePhase => 2 end) (MkRound true [])) finished)
    ["a"; "b"] [Some 2; Some 2] = Panic.
Proof. vm_compute. reflexivity. Qed.
