(* ===== verification/MrMain.v ===== *)
(** * The programs: [main] of [main/wc.go] and [main/ii.go].

    A program is given its arguments, starts a job (file MrMaster, MrDistributed) or a worker
    (file MrRpc), and waits for it.  What [schedule] meets in a distributed job (workers, failed
    calls, the order in which tasks run) is an argument, as in MrDistributed. *)

From S2P Require Import Prelude GoLib MrTask MrMaster MrApps MrWorker MrSchedule MrDistributed MrRpc.

(** What [main] starts. *)
Inductive action :=
| Usage (prog : string)
| RunSequential (jobName : string) (files : list string) (nreduce : Z)
| RunDistributed (jobName : string) (files : list string) (nreduce : Z) (master : string)
| StartWorker (MasterAddress me : string) (nRPC : Z).

(** The two programs differ in the name of the job. *)
Definition choose (jobName : string) (args : list string) : outcome action :=
  if len args <? 4 then
    prog ← must (zlookup args 0);
    Ok (Usage prog)
  else
    role ← must (zlookup args 1);
    if bool_decide (role = "master") then
      mode ← must (zlookup args 2);
      if bool_decide (mode = "sequential") then Ok (RunSequential jobName (drop 3 args) 3)
      else Ok (RunDistributed jobName (drop 3 args) 3 mode)
    else
      master ← must (zlookup args 2);
      me ← must (zlookup args 3);
      Ok (StartWorker master me 100).

Section main.
Variable render : file → string.
Variable range : gmap string bool → list (string * bool).
Variable arrive : list task_call → list task_call.
Variable runs : jobPhase → phase_run.
Variable registered : list string.
Variable replies : list (option Z).

(** The files when the job is done.  A worker changes them only in the tasks it is given, which are
    part of the job of its master. *)
Definition execute mapF reduceF (f : fs) (a : action) : outcome fs :=
  match a with
  | Usage _ | StartWorker _ _ _ => Ok f
  | RunSequential jobName files nreduce =>
      '(f, _) ← Sequential render mapF reduceF f jobName files nreduce;
      Ok f
  | RunDistributed jobName files nreduce _ =>
      '(f, _) ← Distributed render mapF reduceF range arrive f jobName files nreduce runs registered replies;
      Ok f
  end.

Definition wc_main (IsLetter : Z → bool) (f : fs) (args : list string) : outcome fs :=
  a ← choose "wcseq" args; execute (wc.mapF IsLetter) wc.reduceF f a.
Definition ii_main (IsLetter : Z → bool) (f : fs) (args : list string) : outcome fs :=
  a ← choose "iiseq" args; execute (ii.mapF IsLetter) ii.reduceF f a.

(** ** What the programs do *)

(** Below four arguments the program only prints; other roles start a worker that takes a hundred
    connections. *)
Lemma choose_usage job args : 0 < len args < 4 → ∃ prog, choose job args = Ok (Usage prog).
Proof.
  intros Hl. unfold choose. rewrite (proj2 (Z.ltb_lt _ _)) by lia.
  destruct (zlookup_lt_Some args 0) as [prog ->]; [lia|]. by eexists.
Qed.

Lemma choose_worker job prog role master me rest :
  role ≠ "master" → choose job (prog :: role :: master :: me :: rest) = Ok (StartWorker master me 100).
Proof.
  intros Hr. unfold choose. rewrite (proj2 (Z.ltb_ge _ _)) by (rewrite !len_cons; pose proof (len_nonneg rest); lia).
  cbn [zlookup]. change (zlookup (prog :: role :: master :: me :: rest) 1) with (Some role). cbn [must mbind outcome_bind].
  by rewrite bool_decide_eq_false_2.
Qed.

Lemma choose_master job prog mode files :
  files ≠ [] → choose job (prog :: "master" :: mode :: files) =
    Ok (if bool_decide (mode = "sequential") then RunSequential job files 3 else RunDistributed job files 3 mode).
Proof.
  intros Hf. destruct files as [|file files]; [done|]. unfold choose.
  rewrite (proj2 (Z.ltb_ge _ _)) by (rewrite !len_cons; pose proof (len_nonneg files); lia).
  change (zlookup _ 1) with (Some "master"). change (zlookup _ 2) with (Some mode). cbn [must mbind outcome_bind].
  rewrite bool_decide_eq_true_2 by done. cbn [drop]. by case_bool_decide.
Qed.

Hypothesis Hrange : ∀ m, range m ≡ₚ map_to_list m.
Hypothesis Harrive : ∀ l, arrive l ≡ₚ l.

(** The modes in which a job ends: alone, or with workers none of which fails, a batch at a time, on
    at least as many files as there are reduce tasks. *)
Definition runs_through (mode : string) (files : list string) : Prop :=
  mode = "sequential" ∨ 3 ≤ len files ∧ ∀ phase, undisturbed files 3 phase (runs phase).

Lemma main_files mapF reduceF f0 job prog mode files (v : string → string) :
  let all := all_pairs render mapF f0 files in
  files ≠ [] → runs_through mode files → fresh_names f0 job → (∀ file, file ∈ files → is_Some (f0 !! file)) →
  (∀ kv, kv ∈ all → valid_kv kv = kv) →
  (∀ k, k ∈ Key <$> all → reduceF k (values k all) = Ok (v k) ∧ ToValid (v k) = v k) →
  ∃ f', (a ← choose job (prog :: "master" :: mode :: files); execute mapF reduceF f0 a) = Ok f' ∧
    job_files f0 f' job (len files) 3 (result_line v <$> sorted_keys all).
Proof.
  intros all Hne Hmode Hfresh Hin Hval Hred. rewrite choose_master by done. cbn [mbind outcome_bind].
  destruct (Sequential_files render mapF reduceF f0 job files 3 v) as (f' & Hs & Hj); [lia|done..|].
  exists f'. split; [|done]. unfold execute. case_bool_decide as Hm; [by rewrite Hs|].
  destruct Hmode as [?|[H3 Hun]]; [done|].
  destruct (Distributed_runs render mapF reduceF range arrive f0 job files 3 v ltac:(lia) Hfresh Hin Hval Hred
    Hrange Harrive runs registered replies H3 Hun) as (f'' & -> & Hs'). rewrite Hs in Hs'. by simplify_eq/=.
Qed.

(** C31. [wc.go] counts words. Run as a master on at least one file, all of which exist, with no
    intermediate file of an earlier run left over and fewer than 2^63 words, in mode
    [sequential], or distributed under the conditions of [runs_through]: at least three files
    (there are three reduce tasks), in both phases a number of workers that divides the number
    of tasks, none of which fails, and no worker that joins late. Then the program ends; the
    result file has one line for every word of the input files, in the order of the words, with
    the number of its occurrences in all files, and no file but those of the job has changed. *)
Theorem wc_main_counts IsLetter f0 prog mode files :
  let words := concat ((λ file, words_of IsLetter (render (default [] (f0 !! file)))) <$> files) in
  files ≠ [] → runs_through mode files → fresh_names f0 "wcseq" → (∀ file, file ∈ files → is_Some (f0 !! file)) →
  IsLetter RuneError = false → len words < 2 ^ 63 →
  ∃ f', wc_main IsLetter f0 (prog :: "master" :: mode :: files) = Ok f' ∧
    job_files f0 f' "wcseq" (len files) 3
      (result_line (λ w, Itoa (wc.count w words)) <$> sort_strings (remove_dups words)).
Proof.
  intros words Hne Hmode Hfresh Hin HL Hlen.
  destruct (wc.wc_pairs render IsLetter f0 files HL Hlen) as (Hk & Hval & Hred).
  destruct (main_files (wc.mapF IsLetter) wc.reduceF f0 "wcseq" prog mode files (λ w, Itoa (wc.count w words)))
    as (f' & Hm & Hj); [done..|]. exists f'. split; [exact Hm|]. unfold sorted_keys in Hj. by rewrite Hk in Hj.
Qed.

(** C32. [ii.go] builds the inverted index. Run as a master on at least one file, all of which exist
    and have valid UTF-8 names, with no intermediate file of an earlier run left over, in mode
    [sequential], or distributed under the conditions of [runs_through]: at least three files
    (there are three reduce tasks), in both phases a number of workers that divides the number
    of tasks, none of which fails, and no worker that joins late. Then the program ends; the
    result file has one line for every word of the input files, in the order of the words, with
    the number of files in which the word occurs and their names, sorted and separated by
    commas. *)
Theorem ii_main_indexes IsLetter f0 prog mode files :
  files ≠ [] → runs_through mode files → fresh_names f0 "iiseq" →
  (∀ file, file ∈ files → is_Some (f0 !! file) ∧ ValidString file) → IsLetter RuneError = false →
  ∃ f', ii_main IsLetter f0 (prog :: "master" :: mode :: files) = Ok f' ∧
    job_files f0 f' "iiseq" (len files) 3
      (result_line (λ w, let ds := ii.docs render IsLetter f0 files w in Itoa (len ds) +:+ " " +:+ ii.join ds) <$>
         sort_strings (remove_dups (concat (ii.words_in render IsLetter f0 <$> files)))).
Proof.
  intros Hne Hmode Hfresh Hin HL.
  destruct (ii.ii_pairs render IsLetter f0 files) as (Hval & Hred); [intros; by apply Hin|done|].
  destruct (main_files (ii.mapF IsLetter) ii.reduceF f0 "iiseq" prog mode files
    (λ w, let ds := ii.docs render IsLetter f0 files w in Itoa (len ds) +:+ " " +:+ ii.join ds))
    as (f' & Hm & Hj); [done|done|done|intros; by apply Hin|done|done|].
  exists f'. split; [exact Hm|]. unfold sorted_keys in Hj. by rewrite ii.index_keys in Hj.
Qed.
End main.

(** ** A job on three files, with three workers *)

Definition main_files_demo : fs := <["c.txt" := [Text "be do be"]]> demo_files.
Definition main_runs (phase : jobPhase) : phase_run :=
  MkPhaseRun ["w1"; "w2"; "w3"] (replicate 3 (MkRound true [])) demo_order.
Abbreviation demo_args mode := ["prog"; "master"; mode; "a.txt"; "b.txt"; "c.txt"].

Lemma main_runs_through : runs_through main_runs "localhost:7777" ["a.txt"; "b.txt"; "c.txt"].
Proof.
  right. split; [done|]. intros phase. split.
  - apply (bool_decide_unpack _). reflexivity.
  - done.
  - by destruct phase.
  - by destruct phase.
  - intros st. exists [], (running st). split; [done|]. cbn [main_runs ph_order]. unfold demo_order.
    by rewrite reverse_Permutation, app_nil_r.
Qed.

Lemma main_fresh job : job ∈ ["wcseq"; "iiseq"] → fresh_names main_files_demo job.
Proof.
  intros Hj. split; intros; unfold main_files_demo, demo_files;
    repeat (apply elem_of_cons in Hj as [->|Hj]); try (by apply elem_of_nil in Hj);
    rewrite !lookup_insert_ne; try done; intros E; discriminate E.
Qed.

Lemma main_exist file : file ∈ ["a.txt"; "b.txt"; "c.txt"] → is_Some (main_files_demo !! file) ∧ ValidString file.
Proof.
  intros Hf. repeat (apply elem_of_cons in Hf as [->|Hf]); try (by apply elem_of_nil in Hf);
    (split; [eexists; reflexivity|]); apply ascii_valid; simpl; intros a Ha;
    repeat (apply elem_of_cons in Ha as [->|Ha]; [vm_compute; reflexivity|]); by apply elem_of_nil in Ha.
Qed.

Definition result_of (r : outcome fs) (job : string) : option file :=
  match r with Ok f => f !! ("mrtmp." +:+ job) | _ => None end.

Lemma wc_main_counts_witness :
  result_of (wc_main demo_render map_to_list (λ l, l) main_runs [] [] demo_letter main_files_demo
    (demo_args "localhost:7777")) "wcseq" =
  Some (result_line (λ w, Itoa (wc.count w ["to"; "be"; "or"; "not"; "to"; "do"; "be"; "do"; "be"])) <$>
          ["be"; "do"; "not"; "or"; "to"]).
Proof.
  destruct (wc_main_counts demo_render map_to_list (λ l, l) main_runs [] [] ltac:(done) ltac:(done) demo_letter
    main_files_demo "prog" "localhost:7777" ["a.txt"; "b.txt"; "c.txt"]) as (f' & Hs & Hj);
    [done|apply main_runs_through|apply main_fresh; set_solver|intros; by apply main_exist|reflexivity|vm_compute; reflexivity|].
  rewrite Hs. unfold result_of. rewrite (jf_final _ _ _ _ _ _ Hj). vm_compute. reflexivity.
Defined.

Lemma ii_main_indexes_witness :
  result_of (ii_main demo_render map_to_list (λ l, l) main_runs [] [] demo_letter main_files_demo
    (demo_args "sequential")) "iiseq" ≠ None.
Proof.
  destruct (ii_main_indexes demo_render map_to_list (λ l, l) main_runs [] [] ltac:(done) ltac:(done) demo_letter
    main_files_demo "prog" "sequential" ["a.txt"; "b.txt"; "c.txt"]) as (f' & Hs & Hj);
    [done|by left|apply main_fresh; set_solver|apply main_exist|reflexivity|].
  rewrite Hs. unfold result_of. by rewrite (jf_final _ _ _ _ _ _ Hj).
Defined.
