(* ===== verification/LabServer.v ===== *)
(** * The servers of the simulated network: [labrpc/labrpc.go], [Server], [Service] and
    [ClientEnd.Call].

    What goes through the network is encoded by [labgob], which is a parameter: [Encode]
    gives the bytes of a value, [Decode] stores what the bytes hold into a variable and says
    whether that succeeded.  Reflection is what the code asks of it: the type of a value, the
    zero value of a type and, per method of a receiver, its name, package path and
    signature. *)

From Stdlib Require Import Ascii.
From S2P Require Import Prelude.

Section server.
Context {Val bytes Ty Obj : Type}.
Variable Encode : Val → bytes.
Variable Decode : bytes → Val → Val * bool.
Variable TypeOf : Val → Ty.
Variable New : Ty → Val.

Record reqMsg := MkReq { rq_endname : string; rq_svcMeth : string; rq_argsType : Ty; rq_args : bytes }.
Record replyMsg := MkReply { rp_ok : bool; rp_reply : option bytes }.

(** A method: its receiver, the decoded arguments and the variable for the reply give the
    new state of the receiver and the reply. *)
Definition handler : Type := Obj → Val → Val → outcome (Obj * Val).

Record Method := MkMethod {
  mt_name : string;
  PkgPath : string;
  NumIn : Z;
  In2_ptr : bool;      (** [mtype.In(2).Kind() == reflect.Ptr] *)
  In2_elem : Ty;       (** what that pointer points to *)
  NumOut : Z;
  mt_func : handler;
}.

Record Service := MkSvc { svc_name : string; rcvr : Obj; methods : gmap string Method }.
Record Server := MkServer { services : gmap string Service; srv_count : Z }.

(** The test of [MakeService] for methods that are not handlers. *)
Definition suitable (m : Method) : bool :=
  negb (negb (bool_decide (PkgPath m = "")) || negb (NumIn m =? 3) || negb (In2_ptr m)
        || negb (NumOut m =? 0)).

Definition MakeService (name : string) (obj : Obj) (ms : list Method) : Service :=
  MkSvc name obj (foldl (λ t m, if suitable m then <[mt_name m := m]> t else t) ∅ ms).

Definition MakeServer : Server := MkServer ∅ 0.

Definition AddService (rs : Server) (svc : Service) : Server :=
  MkServer (<[svc_name svc := svc]> (services rs)) (srv_count rs).

Definition Server_GetCount (rs : Server) : Z := srv_count rs.

(** The error of the decoder is ignored; an unknown method ends the program. *)
Definition Service_dispatch (svc : Service) (methname : string) (req : reqMsg) :
    outcome (Service * replyMsg) :=
  match methods svc !! methname with
  | Some method =>
      let args := fst (Decode (rq_args req) (New (rq_argsType req))) in
      let replyv := New (In2_elem method) in
      '(obj, replyv) ← mt_func method (rcvr svc) args replyv;
      Ok (MkSvc (svc_name svc) obj (methods svc), MkReply true (Some (Encode replyv)))
  | None => Panic
  end.

(** [strings.LastIndex(s, ".")] *)
Fixpoint last_dot (l : list Ascii.ascii) : Z :=
  match l with
  | [] => -1
  | a :: l => let i := last_dot l in
              if 0 <=? i then i + 1 else if bool_decide (a = "."%char) then 0 else -1
  end.

(** Service and method names; without a dot the slice expression panics. *)
Definition split_svcMeth (svcMeth : string) : outcome (string * string) :=
  let l := String.list_ascii_of_string svcMeth in
  let dot := last_dot l in
  serviceName ← must (slice_to l dot);
  methodName ← must (slice_from l (dot + 1));
  Ok (String.string_of_list_ascii serviceName, String.string_of_list_ascii methodName).

Definition Server_dispatch (rs : Server) (req : reqMsg) : outcome (Server * replyMsg) :=
  let rs := MkServer (services rs) (srv_count rs + 1) in
  '(serviceName, methodName) ← split_svcMeth (rq_svcMeth req);
  match services rs !! serviceName with
  | Some service =>
      '(service, reply) ← Service_dispatch service methodName req;
      Ok (MkServer (<[serviceName := service]> (services rs)) (srv_count rs), reply)
  | None => Panic
  end.

Lemma last_dot_no l : "."%char ∉ l → last_dot l = -1.
Proof.
  induction l as [|a l IH]; intros Hl; [done|]. apply not_elem_of_cons in Hl as [Ha Hl].
  cbn [last_dot]. rewrite (IH Hl). cbn. by rewrite bool_decide_eq_false_2 by done.
Qed.

Lemma last_dot_app l1 l2 : "."%char ∉ l2 → last_dot (l1 ++ "."%char :: l2) = len l1.
Proof.
  intros Hl. induction l1 as [|a l1 IH]; cbn [app last_dot].
  - by rewrite (last_dot_no l2 Hl).
  - rewrite IH, len_cons. pose proof (len_nonneg l1). by rewrite (proj2 (Z.leb_le 0 (len l1))) by done.
Qed.

Lemma split_svcMeth_ok svc meth :
  "."%char ∉ String.list_ascii_of_string meth →
  split_svcMeth (svc +:+ "." +:+ meth) = Ok (svc, meth).
Proof.
  intros Hm. unfold split_svcMeth.
  assert (Hl : String.list_ascii_of_string (svc +:+ "." +:+ meth) =
    String.list_ascii_of_string svc ++ "."%char :: String.list_ascii_of_string meth).
  { induction svc as [|a s IH]; [done|]. unfold String.app in *. simpl. by rewrite IH. }
  rewrite Hl, last_dot_app by done. set (l1 := String.list_ascii_of_string svc).
  set (l2 := String.list_ascii_of_string meth). pose proof (len_nonneg l1). pose proof (len_nonneg l2).
  unfold slice_to, slice_from. rewrite len_app, len_cons. rewrite !decide_True by lia. simpl.
  replace (Z.to_nat (len l1)) with (length l1) by (unfold len; lia).
  rewrite take_app_length.
  replace (Z.to_nat (len l1 + 1)) with (length (l1 ++ ["."%char])) by (rewrite length_app; unfold len; simpl; lia).
  rewrite (app_assoc l1 ["."%char] l2 : l1 ++ "."%char :: l2 = _), drop_app_length.
  unfold l1, l2. by rewrite !String.string_of_list_ascii_of_string.
Qed.

(** ** [ClientEnd.Call] *)

(** The request that is sent. *)
Definition Call_req (endname svcMeth : string) (args : Val) : reqMsg :=
  MkReq endname svcMeth (TypeOf args) (Encode args).

(** The result of the call and the variable for the reply: [answer] is what comes back,
    none when the network has been cleaned up.  A reply that cannot be decoded ends the
    program. *)
Definition Call (answer : option replyMsg) (reply : Val) : outcome (bool * Val) :=
  match answer with
  | None => Ok (false, reply)
  | Some rep =>
      if rp_ok rep then
        bs ← must (rp_reply rep);
        let '(reply, ok) := Decode bs reply in
        if (ok : bool) then Ok (true, reply) else Panic
      else Ok (false, reply)
  end.

(** ** Lemmas *)

(** The handlers of a service are the suitable methods of its receiver. *)
Lemma MakeService_methods name obj ms x m :
  NoDup (mt_name <$> ms) →
  methods (MakeService name obj ms) !! x = Some m ↔ m ∈ ms ∧ suitable m = true ∧ mt_name m = x.
Proof.
  intros Hnd. unfold MakeService. cbn [methods].
  induction ms as [|m' ms IH] using rev_ind.
  { cbn [foldl]. rewrite lookup_empty. split; [done|]. intros [H _]. by apply not_elem_of_nil in H. }
  rewrite fmap_app, NoDup_app in Hnd. destruct Hnd as (Hnd & Hdis & _). specialize (IH Hnd).
  rewrite foldl_app. cbn [foldl]. rewrite elem_of_app, list_elem_of_singleton.
  assert (Hne : ∀ m0, m0 ∈ ms → mt_name m0 ≠ mt_name m').
  { intros m0 Hm0 Heq. apply (Hdis (mt_name m0)); [by apply list_elem_of_fmap_2|].
    rewrite Heq. simpl. by left. }
  destruct (suitable m') eqn:Hs.
  - destruct (decide (mt_name m' = x)) as [<-|Hx].
    + rewrite lookup_insert_eq. split; [intros [= ->]; auto|].
      intros ([Hm| ->] & _ & Hn); [by apply Hne in Hm|done].
    + rewrite lookup_insert_ne, IH by done. split; [tauto|]. by intros ([?| ->] & ? & ?).
  - rewrite IH. split; [tauto|]. intros ([?| ->] & ? & ?); [done|congruence].
Qed.

(** A request reaches the method that its name says, and its reply is that method's. *)
Lemma Server_dispatch_ok rs req svc meth s m obj reply :
  rq_svcMeth req = svc +:+ "." +:+ meth → "."%char ∉ String.list_ascii_of_string meth →
  services rs !! svc = Some s → methods s !! meth = Some m →
  mt_func m (rcvr s) (fst (Decode (rq_args req) (New (rq_argsType req)))) (New (In2_elem m)) =
    Ok (obj, reply) →
  Server_dispatch rs req =
    Ok (MkServer (<[svc := MkSvc (svc_name s) obj (methods s)]> (services rs)) (srv_count rs + 1),
        MkReply true (Some (Encode reply))).
Proof.
  intros Hn Hd Hs Hm Hf. unfold Server_dispatch. rewrite Hn, split_svcMeth_ok by done. simpl.
  rewrite Hs. unfold Service_dispatch. by rewrite Hm, Hf.
Qed.
End server.
