(* ===== verification/LabRpc.v ===== *)
(** * The simulated network: [labrpc/labrpc.go], [Network] and [ProcessReq].

    Servers are known by their addresses, since [IsServerDead] compares pointers; the
    servers themselves (file LabServer) are in a heap.  The values of [rand] are inputs, and
    so is what happens while a request waits for its handler: operations on the network, the
    polls after 100 ms and the return of the handler, in some order. *)

From Stdlib Require Import Ascii.
From S2P Require Import Prelude LabServer.

(** The names of servers are integers or strings, in an [interface{}]. *)
Abbreviation sname := (Z + string)%type.

Record Network := MkNet {
  reliable : bool;
  longDelays : bool;
  longReordering : bool;
  ends : gset string;
  enabled : gmap string bool;
  servers : gmap sname (option nat);         (** the address of the server; [None] is nil *)
  connections : gmap string (option sname);
  net_done : bool;                           (** the channel [done] is closed *)
  net_count : Z;
}.

Definition MakeNetwork : Network := MkNet true false false ∅ ∅ ∅ ∅ false 0.

(** Closing a closed channel panics. *)
Definition Cleanup (rn : Network) : outcome Network :=
  if net_done rn then Panic else
  Ok (MkNet (reliable rn) (longDelays rn) (longReordering rn) (ends rn) (enabled rn) (servers rn)
        (connections rn) true (net_count rn)).

Definition Reliable (rn : Network) (yes : bool) : Network :=
  MkNet yes (longDelays rn) (longReordering rn) (ends rn) (enabled rn) (servers rn) (connections rn)
    (net_done rn) (net_count rn).
Definition LongReordering (rn : Network) (yes : bool) : Network :=
  MkNet (reliable rn) (longDelays rn) yes (ends rn) (enabled rn) (servers rn) (connections rn)
    (net_done rn) (net_count rn).
Definition LongDelays (rn : Network) (yes : bool) : Network :=
  MkNet (reliable rn) yes (longReordering rn) (ends rn) (enabled rn) (servers rn) (connections rn)
    (net_done rn) (net_count rn).

(** A second end with the same name ends the program. *)
Definition MakeEnd (rn : Network) (endname : string) : outcome Network :=
  if decide (endname ∈ ends rn) then Panic else
  Ok (MkNet (reliable rn) (longDelays rn) (longReordering rn) ({[endname]} ∪ ends rn)
        (<[endname := false]> (enabled rn)) (servers rn) (<[endname := None]> (connections rn))
        (net_done rn) (net_count rn)).

Definition set_servers (rn : Network) (m : gmap sname (option nat)) : Network :=
  MkNet (reliable rn) (longDelays rn) (longReordering rn) (ends rn) (enabled rn) m (connections rn)
    (net_done rn) (net_count rn).
Definition AddServer (rn : Network) (servername : sname) (rs : nat) : Network :=
  set_servers rn (<[servername := Some rs]> (servers rn)).
Definition DeleteServer (rn : Network) (servername : sname) : Network :=
  set_servers rn (<[servername := None]> (servers rn)).

Definition Connect (rn : Network) (endname : string) (servername : sname) : Network :=
  MkNet (reliable rn) (longDelays rn) (longReordering rn) (ends rn) (enabled rn) (servers rn)
    (<[endname := Some servername]> (connections rn)) (net_done rn) (net_count rn).
Definition Enable (rn : Network) (endname : string) (e : bool) : Network :=
  MkNet (reliable rn) (longDelays rn) (longReordering rn) (ends rn) (<[endname := e]> (enabled rn)) (servers rn)
    (connections rn) (net_done rn) (net_count rn).

(** The goroutine of [MakeNetwork] counts a request before it is processed. *)
Definition count_req (rn : Network) : Network :=
  MkNet (reliable rn) (longDelays rn) (longReordering rn) (ends rn) (enabled rn) (servers rn) (connections rn)
    (net_done rn) (i32 (net_count rn + 1)).
Definition GetTotalCount (rn : Network) : Z := net_count rn.

(** The count of a server that is not there is a nil dereference. *)
Definition GetCount {Val Ty Obj} (heap : gmap nat (@Server Val Ty Obj)) (rn : Network) (servername : sname) :
    outcome Z :=
  svr ← must (default None (servers rn !! servername));
  rs ← must (heap !! svr);
  Ok (Server_GetCount rs).

Definition ReadEndnameInfo (rn : Network) (endname : string) :
    bool * option sname * option nat * bool * bool :=
  let servername := default None (connections rn !! endname) in
  (default false (enabled rn !! endname), servername,
   (s ← servername; default None (servers rn !! s)), reliable rn, longReordering rn).

Definition IsServerDead (rn : Network) (endname : string) (servername : sname) (server : nat) : bool :=
  negb (default false (enabled rn !! endname))
  || negb (bool_decide (default None (servers rn !! servername) = Some server)).

(** The operations that other goroutines can perform. *)
Inductive net_op :=
| OReliable (yes : bool) | OLongReordering (yes : bool) | OLongDelays (yes : bool)
| OMakeEnd (endname : string) | OAddServer (servername : sname) (rs : nat)
| ODeleteServer (servername : sname) | OConnect (endname : string) (servername : sname)
| OEnable (endname : string) (e : bool) | OCleanup | ORequest.

Definition net_step (rn : Network) (o : net_op) : outcome Network :=
  match o with
  | OReliable yes => Ok (Reliable rn yes)
  | OLongReordering yes => Ok (LongReordering rn yes)
  | OLongDelays yes => Ok (LongDelays rn yes)
  | OMakeEnd e => MakeEnd rn e
  | OAddServer s rs => Ok (AddServer rn s rs)
  | ODeleteServer s => Ok (DeleteServer rn s)
  | OConnect e s => Ok (Connect rn e s)
  | OEnable e b => Ok (Enable rn e b)
  | OCleanup => Cleanup rn
  | ORequest => Ok (count_req rn)
  end.

(** ** [ProcessReq] *)
Section process.
Context {bytes : Type}.
Abbreviation replyMsg := (@replyMsg bytes).

(** What happens while the request waits: an operation on the network, 100 ms pass, or the
    handler returns. *)
Inductive net_event := Op (o : net_op) | Tick | Ret (r : replyMsg).

(** The loop, with what it ends with ([None] when the server is dead) and the network at
    that time; [None] while it waits, or when the program has ended. *)
Fixpoint wait_reply (endname : string) (servername : sname) (server : nat) (rn : Network) (es : list net_event) :
    option (option replyMsg * Network) :=
  match es with
  | [] => None
  | Op o :: es =>
      match net_step rn o with
      | Ok rn => wait_reply endname servername server rn es
      | _ => None
      end
  | Tick :: es =>
      if IsServerDead rn endname servername server then Some (None, rn)
      else wait_reply endname servername server rn es
  | Ret reply :: _ => Some (Some reply, rn)
  end.

(** The results of [rand.Int] and [rand.Intn], in the order of the code. *)
Record rands := MkRands {
  rd_sleep : Z; rd_drop : Z; rd_dropReply : Z; rd_reorder : Z; rd_delay : Z; rd_timeout : Z;
}.

Definition lost : replyMsg := MkReply false None.

(** The tests after the loop. *)
Definition after_wait (rd : rands) (reliable longreordering : bool) (ms : Z)
    (endname : string) (servername : sname) (server : nat) (reply : option replyMsg) (rn : Network) :
    replyMsg * Z :=
  let serverDead := IsServerDead rn endname servername server in
  match reply with
  | None => (lost, ms)
  | Some reply =>
      if serverDead then (lost, ms)
      else if negb reliable && (rd_dropReply rd mod 1000 <? 100) then (lost, ms)
      else if longreordering && (rd_reorder rd <? 600) then (reply, ms + (200 + rd_delay rd))
      else (reply, ms)
  end.

(** The reply that is sent on [replyCh], and the milliseconds of delay before it, not
    counting the handler; [None] while the handler runs. *)
Definition ProcessReq (rn : Network) (endname : string) (rd : rands) (es : list net_event) :
    option (replyMsg * Z) :=
  let '(enabled, servername, server, reliable, longreordering) := ReadEndnameInfo rn endname in
  match enabled, servername, server with
  | true, Some servername, Some server =>
      let ms := if reliable then 0 else rd_sleep rd mod 27 in
      if negb reliable && (rd_drop rd mod 1000 <? 100) then Some (lost, ms)
      else
        '(reply, rn) ← wait_reply endname servername server rn es;
        Some (after_wait rd reliable longreordering ms endname servername server reply rn)
  | _, _, _ =>
      Some (lost, if longDelays rn then rd_timeout rd mod 7000 else rd_timeout rd mod 100)
  end.

(** [rand.Int] is not negative, [rand.Intn(1 + rand.Intn(2000))] is below 2000. *)
Definition rands_ok (rd : rands) : Prop :=
  0 ≤ rd_sleep rd ∧ 0 ≤ rd_drop rd ∧ 0 ≤ rd_dropReply rd ∧ 0 ≤ rd_reorder rd < 900 ∧
  0 ≤ rd_delay rd < 2000 ∧ 0 ≤ rd_timeout rd.

(** ** What holds of a request on its way *)

(** The end is enabled and connected to the server at this address. *)
Definition connected (rn : Network) (endname : string) (servername : sname) (server : nat) : Prop :=
  enabled rn !! endname = Some true ∧ connections rn !! endname = Some (Some servername) ∧
  servers rn !! servername = Some (Some server).

(** The network after the operations among some events. *)
Fixpoint run_ops (rn : Network) (es : list net_event) : outcome Network :=
  match es with
  | [] => Ok rn
  | Op o :: es => rn ← net_step rn o; run_ops rn es
  | _ :: es => run_ops rn es
  end.

Lemma run_ops_app rn es1 es2 : run_ops rn (es1 ++ es2) = rn ← run_ops rn es1; run_ops rn es2.
Proof.
  revert rn. induction es1 as [|[o| |r] es1 IH]; intros rn; simpl; [done| |apply IH..].
  destruct (net_step rn o); simpl; [apply IH|done..].
Qed.

Definition no_return (es : list net_event) : Prop := ∀ r, Ret r ∉ es.
Definition not_added (servername : sname) (server : nat) (es : list net_event) : Prop :=
  Op (OAddServer servername server) ∉ es.

Lemma IsServerDead_false rn endname servername server :
  IsServerDead rn endname servername server = false ↔
  enabled rn !! endname = Some true ∧ servers rn !! servername = Some (Some server).
Proof.
  unfold IsServerDead. rewrite orb_false_iff, !negb_false_iff, bool_decide_eq_true.
  destruct (enabled rn !! endname) as [[]|], (servers rn !! servername) as [[]|]; naive_solver.
Qed.

(** A server that is not there stays away until it is added again. *)
Lemma net_step_away rn o rn' servername server :
  net_step rn o = Ok rn' → o ≠ OAddServer servername server →
  servers rn !! servername ≠ Some (Some server) → servers rn' !! servername ≠ Some (Some server).
Proof.
  intros H Ho Haway.
  destruct o; cbn [net_step] in H; unfold MakeEnd, Cleanup in H; repeat case_decide; try case_match;
    try discriminate H; injection H as <-; try exact Haway; simpl.
  - destruct (decide (servername0 = servername)) as [->|]; [|by rewrite lookup_insert_ne].
    rewrite lookup_insert_eq. intros [= ->]. done.
  - destruct (decide (servername0 = servername)) as [->|]; [|by rewrite lookup_insert_ne].
    by rewrite lookup_insert_eq.
Qed.

Lemma run_ops_away rn es rn' servername server :
  run_ops rn es = Ok rn' → not_added servername server es →
  servers rn !! servername ≠ Some (Some server) → servers rn' !! servername ≠ Some (Some server).
Proof.
  unfold not_added. revert rn. induction es as [|[o| |r] es IH]; simpl; intros rn H Hno Haway.
  - by injection H as <-.
  - apply bind_Ok in H as (rn1 & Ho & H). apply not_elem_of_cons in Hno as [Hne Hno].
    refine (IH _ H Hno _). eapply net_step_away; [exact Ho| |exact Haway]. intros ->. by apply Hne.
  - apply not_elem_of_cons in Hno as [_ Hno]. eauto.
  - apply not_elem_of_cons in Hno as [_ Hno]. eauto.
Qed.

(** What the loop ends with: the first return, or a poll that found the server dead. *)
Lemma wait_reply_inv endname servername server rn es reply rn' :
  wait_reply endname servername server rn es = Some (reply, rn') →
  ∃ es1 e es2, es = es1 ++ e :: es2 ∧ no_return es1 ∧ run_ops rn es1 = Ok rn' ∧
    match reply with
    | Some r => e = Ret r
    | None => e = Tick ∧ IsServerDead rn' endname servername server = true
    end.
Proof.
  revert rn. induction es as [|e es IH]; simpl; intros rn H; [done|].
  assert (Hgo : ∀ rn1, run_ops rn [e] = Ok rn1 → (∀ r, e ≠ Ret r) →
    wait_reply endname servername server rn1 es = Some (reply, rn') →
    ∃ es1 e0 es2, e :: es = es1 ++ e0 :: es2 ∧ no_return es1 ∧ run_ops rn es1 = Ok rn' ∧
      match reply with Some r => e0 = Ret r
      | None => e0 = Tick ∧ IsServerDead rn' endname servername server = true end).
  { intros rn1 Hop Hne Hw. apply IH in Hw as (es1 & e0 & es2 & -> & Hno & Hops & Hr).
    exists (e :: es1), e0, es2. split_and!; [done| | |done].
    - intros r Hin. apply elem_of_cons in Hin as [Heq|Hin]; [by apply (Hne r)|by apply (Hno r)].
    - revert Hop. destruct e; simpl; [|by intros [= ->]..].
      destruct (net_step rn o); simpl; [by intros [= ->]|done..]. }
  assert (Hnil : no_return []) by (intros r Hr; by apply not_elem_of_nil in Hr).
  destruct e as [o| |r].
  - destruct (net_step rn o) as [rn1| |] eqn:Ho; [|done..].
    apply (Hgo rn1); [by simpl; rewrite Ho|done|done].
  - destruct (IsServerDead rn endname servername server) eqn:Hd; [|by apply (Hgo rn)].
    injection H as <- <-. by exists [], Tick, es.
  - injection H as <- <-. by exists [], (Ret r), es.
Qed.

(** An answer that is positive is a reply of the handler, with the server alive then. *)
Lemma after_wait_inv rd rel ro ms endname servername server reply rn ans d :
  rands_ok rd → 0 ≤ ms < 27 →
  after_wait rd rel ro ms endname servername server reply rn = (ans, d) →
  0 ≤ d < 7000 ∧ (rp_ok ans = true → reply = Some ans ∧ IsServerDead rn endname servername server = false).
Proof.
  unfold after_wait, rands_ok. intros Hrd Hms.
  destruct reply as [r|]; [|intros [= <- <-]; split; [lia|done]].
  destruct (IsServerDead _ _ _ _); [intros [= <- <-]; split; [lia|done]|].
  destruct (negb rel && _); [intros [= <- <-]; split; [lia|done]|].
  destruct (ro && _); intros [= <- <-]; (split; [lia|done]).
Qed.

(** What is read at the beginning: the request is refused, or it goes to a server. *)
Lemma ReadEndnameInfo_cases rn endname :
  (∃ servername server, connected rn endname servername server ∧
     ReadEndnameInfo rn endname = (true, Some servername, Some server, reliable rn, longReordering rn)) ∨
  (∀ rd es, ProcessReq rn endname rd es =
     Some (lost, if longDelays rn then rd_timeout rd mod 7000 else rd_timeout rd mod 100)).
Proof.
  unfold ProcessReq, ReadEndnameInfo, connected.
  destruct (enabled rn !! endname) as [[]|]; [|by right..]. cbn [default].
  destruct (connections rn !! endname) as [[s|]|]; [|by right..]. simpl.
  destruct (servers rn !! s) as [[a|]|] eqn:Es; [|by right..]. simpl.
  left. exists s, a. by rewrite Es.
Qed.

Lemma ReadEndnameInfo_connected rn endname servername server :
  connected rn endname servername server →
  ReadEndnameInfo rn endname = (true, Some servername, Some server, reliable rn, longReordering rn).
Proof. intros (He & Hc & Hs). unfold ReadEndnameInfo. rewrite He, Hc. simpl. by rewrite Hs. Qed.

(** The end stays enabled and the server there. *)
Definition keeps (endname : string) (servername : sname) (server : nat) (e : net_event) : Prop :=
  match e with
  | Op (OMakeEnd x) => x ≠ endname
  | Op (OEnable x b) => x = endname → b = true
  | Op (ODeleteServer x) => x ≠ servername
  | Op (OAddServer x rs) => x = servername → rs = server
  | _ => True
  end.

Lemma net_step_alive rn o rn' endname servername server :
  net_step rn o = Ok rn' → keeps endname servername server (Op o) →
  IsServerDead rn endname servername server = false →
  IsServerDead rn' endname servername server = false.
Proof.
  rewrite !IsServerDead_false. intros H Hk [He Hs].
  destruct o; cbn [net_step keeps] in *; unfold MakeEnd, Cleanup in H; repeat case_decide;
    try case_match; try discriminate H; injection H as <-; simpl; try done; split; try done.
  - by rewrite lookup_insert_ne.
  - destruct (decide (servername0 = servername)) as [->|]; [|by rewrite lookup_insert_ne].
    rewrite lookup_insert_eq. by rewrite Hk.
  - by rewrite lookup_insert_ne.
  - destruct (decide (endname0 = endname)) as [->|]; [|by rewrite lookup_insert_ne].
    rewrite lookup_insert_eq. by rewrite Hk.
Qed.

Lemma wait_reply_alive endname servername server rn rn' es1 r es2 :
  IsServerDead rn endname servername server = false → Forall (keeps endname servername server) es1 →
  no_return es1 → run_ops rn es1 = Ok rn' →
  wait_reply endname servername server rn (es1 ++ Ret r :: es2) = Some (Some r, rn') ∧
  IsServerDead rn' endname servername server = false.
Proof.
  intros Hd Hk. revert rn Hd. induction Hk as [|e es1 Hke Hk IH]; simpl; intros rn Hd Hno Hops.
  { by injection Hops as ->. }
  assert (no_return es1) as Hno' by (intros r' Hr; apply (Hno r'); by right).
  destruct e as [o| |r'].
  - apply bind_Ok in Hops as (rn1 & Ho & Hops). rewrite Ho. apply IH; [|done..].
    by eapply net_step_alive.
  - rewrite Hd. by apply IH.
  - exfalso. apply (Hno r'). by left.
Qed.


(** A request is answered positively only with what its handler returned.  The end was
    enabled and connected to a server when the request was made; when the handler returned
    the end was enabled and the very same server was there; and the answer is delayed for
    less than seven seconds. *)
Theorem ProcessReq_sound rn endname rd es reply ms :
  rands_ok rd → ProcessReq rn endname rd es = Some (reply, ms) →
  0 ≤ ms < 7000 ∧
  (rp_ok reply = true → ∃ servername server es1 es2 rn',
     connected rn endname servername server ∧
     es = es1 ++ Ret reply :: es2 ∧ no_return es1 ∧ run_ops rn es1 = Ok rn' ∧
     enabled rn' !! endname = Some true ∧ servers rn' !! servername = Some (Some server)).
Proof.
  intros Hrd H. destruct (ReadEndnameInfo_cases rn endname) as [(s & a & Hc & Hread)|Hout].
  2: { rewrite Hout in H. injection H as <- <-. split; [|done].
    pose proof (Z.mod_pos_bound (rd_timeout rd) 7000). pose proof (Z.mod_pos_bound (rd_timeout rd) 100).
    destruct (longDelays rn); lia. }
  unfold ProcessReq in H. rewrite Hread in H.
  assert (Hms : 0 ≤ (if reliable rn then 0 else rd_sleep rd mod 27) < 27).
  { pose proof (Z.mod_pos_bound (rd_sleep rd) 27). destruct (reliable rn); lia. }
  destruct (negb (reliable rn) && _); [injection H as <- <-; split; [lia|done]|].
  destruct (wait_reply endname s a rn es) as [[r rn']|] eqn:Ew; [|done]. injection H as H.
  apply after_wait_inv in H as [Hd Hok]; [|done..]. split; [done|]. intros Hrep.
  destruct (Hok Hrep) as [-> Halive]. apply IsServerDead_false in Halive as [? ?].
  apply wait_reply_inv in Ew as (es1 & e & es2 & -> & Hno & Hops & ->).
  by exists s, a, es1, es2, rn'.
Qed.

(** C22. Once the server that a request was sent to is deleted, and as long as the same server is
    not added again, the request is not answered positively any more, even when its handler
    returns: a client never learns of an effect that the deleted server may have persisted
    too late. *)
Theorem deleted_server_never_answers rn endname servername server rd es1 es2 reply ms :
  connected rn endname servername server → rands_ok rd →
  no_return es1 → not_added servername server es2 →
  ProcessReq rn endname rd (es1 ++ Op (ODeleteServer servername) :: es2) = Some (reply, ms) →
  rp_ok reply = false.
Proof.
  intros Hc Hrd Hno1 Hadd H. unfold ProcessReq in H.
  rewrite (ReadEndnameInfo_connected _ _ _ _ Hc) in H.
  assert (Hms : 0 ≤ (if reliable rn then 0 else rd_sleep rd mod 27) < 27).
  { pose proof (Z.mod_pos_bound (rd_sleep rd) 27). destruct (reliable rn); lia. }
  destruct (negb (reliable rn) && _); [by injection H as <- <-|].
  destruct (wait_reply _ _ _ _ _) as [[r rn']|] eqn:Ew; [|done]. injection H as H.
  apply after_wait_inv in H as [_ Hok]; [|done..].
  destruct (rp_ok reply); [|done]. destruct (Hok eq_refl) as [-> Halive]. exfalso.
  apply IsServerDead_false in Halive as [_ Halive].
  apply wait_reply_inv in Ew as (l1 & e & l2 & Heq & _ & Hops & ->).
  apply app_eq_inv in Heq as [(k & -> & Heq)|(k & -> & Heq)]; destruct k as [|o k]; try done;
    injection Heq as <- ->.
  - eapply (Hno1 reply). apply elem_of_app. right. by left.
  - rewrite run_ops_app in Hops. apply bind_Ok in Hops as (rn0 & _ & Hops). simpl in Hops.
    eapply run_ops_away in Hops; [done| |].
    + intros Hin. apply Hadd. apply elem_of_app. by left.
    + simpl. by rewrite lookup_insert_eq.
Qed.

End process.

(** ** A whole call *)
Section call.
Context {Val bytes Ty Obj : Type}.
Variable Encode : Val → bytes.
Variable Decode : bytes → Val → Val * bool.
Variable TypeOf : Val → Ty.
Variable New : Ty → Val.
Abbreviation Server := (@Server Val Ty Obj).
Abbreviation reqMsg := (@reqMsg bytes Ty).
Abbreviation replyMsg := (@replyMsg bytes).

(** What happens while [ProcessReq] waits, its goroutine included: an operation on the network,
    100 ms pass, other goroutines leave a server in another state, the goroutine runs
    [server.dispatch], the loop receives the reply that the goroutine sends on [ech]. *)
Inductive serve_event :=
| SOp (o : net_op) | STick | SOther (server : nat) (rs : Server) | SDispatch | SRecv.

(** [ech]: the reply that the goroutine waits to send, none before it has run [dispatch]; the
    goroutine ends with that one send. *)
Fixpoint serve_loop (endname : string) (servername : sname) (server : nat) (req : reqMsg)
    (rn : Network) (heap : gmap nat Server) (ech : option replyMsg) (es : list serve_event) :
    option (option replyMsg * Network * gmap nat Server) :=
  match es with
  | [] => None
  | SOp o :: es =>
      match net_step rn o with
      | Ok rn => serve_loop endname servername server req rn heap ech es
      | _ => None
      end
  | STick :: es =>
      if IsServerDead rn endname servername server then Some (None, rn, heap)
      else serve_loop endname servername server req rn heap ech es
  | SOther x rs :: es => serve_loop endname servername server req rn (<[x := rs]> heap) ech es
  | SDispatch :: es =>
      match ech, heap !! server with
      | None, Some rs =>
          match Server_dispatch Encode Decode New rs req with
          | Ok (rs, r) => serve_loop endname servername server req rn (<[server := rs]> heap) (Some r) es
          | _ => None
          end
      | _, _ => None
      end
  | SRecv :: _ => reply ← ech; Some (Some reply, rn, heap)
  end.

(** [ProcessReq] with its goroutine: also the servers at the time of the answer. *)
Definition Request (heap : gmap nat Server) (rn : Network) (req : reqMsg) (rd : rands)
    (es : list serve_event) : option (replyMsg * Z * gmap nat Server) :=
  let endname := rq_endname req in
  let '(enabled, servername, server, reliable, longreordering) := ReadEndnameInfo rn endname in
  match enabled, servername, server with
  | true, Some servername, Some server =>
      let ms := if reliable then 0 else rd_sleep rd mod 27 in
      if negb reliable && (rd_drop rd mod 1000 <? 100) then Some (lost, ms, heap)
      else
        '(reply, rn, heap) ← serve_loop endname servername server req rn heap None es;
        Some (after_wait rd reliable longreordering ms endname servername server reply rn, heap)
  | _, _, _ =>
      Some (lost, if longDelays rn then rd_timeout rd mod 7000 else rd_timeout rd mod 100, heap)
  end.

(** The events without what concerns the servers. *)
Definition plain (e : serve_event) : option (net_event (bytes := bytes)) :=
  match e with SOp o => Some (Op o) | STick => Some Tick | _ => None end.

(** The loop with its goroutine is the loop with the return of the handler as an event. *)
Lemma serve_loop_wait endname servername server req rn heap ech es reply rn' heap' :
  serve_loop endname servername server req rn heap ech es = Some (reply, rn', heap') →
  ∃ es', wait_reply endname servername server rn es' = Some (reply, rn').
Proof.
  revert rn heap ech. induction es as [|e es IH]; simpl; intros rn heap ech H; [done|].
  destruct e as [o| |x rs| |].
  - destruct (net_step rn o) as [rn1| |] eqn:Ho; [|done..]. apply IH in H as [es' H].
    exists (Op o :: es'). simpl. by rewrite Ho.
  - destruct (IsServerDead rn endname servername server) eqn:Hd.
    + simplify_eq. exists [Tick]. simpl. by rewrite Hd.
    + apply IH in H as [es' H]. exists (Tick :: es'). simpl. by rewrite Hd.
  - by apply IH in H.
  - destruct ech, (heap !! server); try done.
    destruct (Server_dispatch _ _ _ _ _) as [[rs' r]| |]; [|done..]. by apply IH in H.
  - destruct ech as [r|]; [|done]. simplify_eq/=. by exists [Ret r].
Qed.

Lemma Request_ProcessReq heap rn req rd es reply ms heap' :
  Request heap rn req rd es = Some (reply, ms, heap') →
  ∃ es', ProcessReq rn (rq_endname req) rd es' = Some (reply, ms).
Proof.
  unfold Request, ProcessReq. intros H.
  destruct (ReadEndnameInfo rn (rq_endname req)) as [[[[[] [sn|]] [sv|]] rel] ro];
    try (simplify_eq; by exists []).
  destruct (negb rel && _); [simplify_eq; by exists []|].
  destruct (serve_loop _ _ _ _ _ _ _ _) as [[[r rn'] h]|] eqn:Hl; [|done]. simplify_eq/=.
  apply serve_loop_wait in Hl as [es' Hl]. exists es'. rewrite Hl. simpl. congruence.
Qed.

(** The network stays up, and nobody else uses the server. *)
Definition undisturbed_by (endname : string) (servername : sname) (server : nat) (e : serve_event) : Prop :=
  match e with
  | SOp o => keeps (bytes := bytes) endname servername server (Op o)
  | SOther x _ => x ≠ server
  | _ => True
  end.

(** Neither the goroutine nor the loop's receive. *)
Definition quiet (e : serve_event) : Prop := match e with SDispatch | SRecv => False | _ => True end.

Section steady.
Variables (endname : string) (servername : sname) (server : nat) (req : reqMsg).
Abbreviation loop := (serve_loop endname servername server req).
Abbreviation steady := (undisturbed_by endname servername server).
Abbreviation alive rn := (IsServerDead rn endname servername server = false).

(** An answer was dispatched before, or is dispatched on the way, once. *)
Lemma loop_steady rn heap ech es reply rn' heap' rs rs' r :
  alive rn → Forall steady es → heap !! server = Some rs →
  (ech = None → Server_dispatch Encode Decode New rs req = Ok (rs', r)) →
  loop rn heap ech es = Some (reply, rn', heap') →
  alive rn' ∧ match ech with
              | None => reply = Some r ∧ heap' !! server = Some rs'
              | Some r0 => reply = Some r0 ∧ heap' !! server = Some rs
              end.
Proof.
  intros Hd Hall. revert rn heap ech rs Hd. induction Hall as [|e es He _ IH];
    intros rn heap ech rs Hd Hrs Hdis H; [discriminate H|]. destruct e as [o| |x rsx| |]; simpl in H.
  - destruct (net_step rn o) as [rn1| |] eqn:Ho; [|done..].
    apply (IH rn1 heap ech rs); [by eapply (net_step_alive (bytes := bytes))|done..].
  - rewrite Hd in H. by apply (IH rn heap ech rs).
  - apply (IH rn (<[x:=rsx]> heap) ech rs); [done| |done..]. by rewrite lookup_insert_ne.
  - destruct ech; [discriminate H|]. rewrite Hrs, (Hdis eq_refl) in H.
    destruct (IH _ _ (Some r) rs' Hd (lookup_insert_eq _ _ _) ltac:(done) H) as (? & ? & ?). done.
  - destruct ech; by simplify_eq/=.
Qed.

(** Quiet events only pass. *)
Lemma loop_quiet rn heap ech es1 es2 rn1 :
  alive rn → Forall steady es1 → Forall quiet es1 → run_ops (bytes := bytes) rn (omap plain es1) = Ok rn1 →
  ∃ heap1, heap1 !! server = heap !! server ∧ alive rn1 ∧
    loop rn heap ech (es1 ++ es2) = loop rn1 heap1 ech es2.
Proof.
  intros Hd Hall. revert rn heap Hd. induction Hall as [|e es He _ IH];
    intros rn heap Hd Hq Hops; simpl in Hops; [simplify_eq; by exists heap|].
  apply Forall_cons in Hq as [Hqe Hq]. destruct e as [o| |x rsx| |]; [| | |done..]; simpl in *.
  - apply bind_Ok in Hops as (rn2 & Ho & Hops). rewrite Ho. apply IH; [by eapply (net_step_alive (bytes := bytes))|done..].
  - rewrite Hd. by apply IH.
  - destruct (IH rn (<[x:=rsx]> heap) Hd Hq Hops) as (h & Eh & ? & ?).
    exists h. rewrite lookup_insert_ne in Eh by done. done.
Qed.
End steady.

(** C25. On a reliable network that neither delays nor loses, for a method whose name has no dot,
    with arguments and a reply that the encoding keeps (fields in lower case are not sent): while the
    end stays enabled and connected to the server, and nobody else uses the server, a call runs the
    method that its name says on the arguments of the call exactly once (the server goes from its
    state to the one that one dispatch leaves, its count up by one), and gives the client the method's
    reply, without delay.  The call ends when its goroutine has run [dispatch] and sent the reply. *)
Theorem Call_runs_method rn heap endname servername server rd es rs svc meth s m args obj rep :
  let req := Call_req Encode TypeOf endname (svc +:+ "." +:+ meth) args in
  let rs' := MkServer (<[svc := MkSvc (svc_name s) obj (methods s)]> (services rs)) (srv_count rs + 1) in
  connected rn endname servername server → reliable rn = true → longReordering rn = false →
  Forall (undisturbed_by endname servername server) es →
  "."%char ∉ String.list_ascii_of_string meth → heap !! server = Some rs →
  services rs !! svc = Some s → methods s !! meth = Some m → TypeOf rep = In2_elem m →
  Decode (Encode args) (New (TypeOf args)) = (args, true) →
  Decode (Encode rep) (New (TypeOf rep)) = (rep, true) →
  mt_func m (rcvr s) args (New (In2_elem m)) = Ok (obj, rep) →
  (∀ r ms heap', Request heap rn req rd es = Some (r, ms, heap') →
     ms = 0 ∧ heap' !! server = Some rs' ∧ Call Decode (Some r) (New (In2_elem m)) = Ok (true, rep)) ∧
  (∀ es1 es2 es3 rn', es = es1 ++ SDispatch :: es2 ++ SRecv :: es3 → Forall quiet (es1 ++ es2) →
     run_ops (bytes := bytes) rn (omap plain (es1 ++ es2)) = Ok rn' → is_Some (Request heap rn req rd es)).
Proof.
  intros req rs' Hc Hrel Hro Hk Hdot Hrs Hs Hm Hty Hargs Hrep Hf. pose proof Hc as (He & _ & Hsv).
  assert (IsServerDead rn endname servername server = false) as Hd by by apply IsServerDead_false.
  assert (Server_dispatch Encode Decode New rs req = Ok (rs', MkReply true (Some (Encode rep)))) as Hdis
    by (eapply Server_dispatch_ok; [done..|]; simpl; by rewrite Hargs).
  unfold Request. change (rq_endname req) with endname.
  rewrite (ReadEndnameInfo_connected _ _ _ _ Hc), Hrel, Hro. cbn [negb andb]. split.
  - simpl. intros r ms heap' H.
    destruct (serve_loop _ _ _ _ _ _ _ _) as [[[reply rn'] h]|] eqn:Hl; [|done].
    destruct (loop_steady _ _ _ _ _ _ _ _ _ _ _ _ _ _ Hd Hk Hrs (λ _, Hdis) Hl) as (Hd' & -> & Hh).
    simpl in H. unfold after_wait in H. rewrite Hd' in H. simplify_eq/=. split; [done|]. split; [done|].
    by rewrite <- Hty, Hrep.
  - intros es1 es2 es3 rn' -> [Hq1 Hq2]%Forall_app Hops. rewrite omap_app, run_ops_app in Hops.
    apply bind_Ok in Hops as (rn1 & Hops1 & Hops2).
    apply Forall_app in Hk as [Hk1 [_ [Hk2 _]%Forall_app]%Forall_cons].
    destruct (loop_quiet endname servername server req rn heap None es1 (SDispatch :: es2 ++ SRecv :: es3) rn1)
      as (h1 & Eh1 & Hd1 & ->); [done..|]. simpl. rewrite Eh1, Hrs, Hdis.
    destruct (loop_quiet endname servername server req rn1 (<[server:=rs']> h1)
      (Some (MkReply true (Some (Encode rep)))) es2 (SRecv :: es3) rn') as (h2 & _ & _ & ->); [done..|].
    simpl. by eexists.
Qed.
End call.

(** ** A small network: end [e] is connected to server [s] at address 0. *)
Definition small_net : Network :=
  Enable (Connect (AddServer (MkNet true false false {["e"]} {["e" := false]} ∅ {["e" := None]} false 0)
    (inr "s") 0%nat) "e" (inr "s")) "e" true.
Definition no_rand : rands := MkRands 0 0 0 0 0 0.

Lemma small_net_made : MakeEnd MakeNetwork "e" =
  Ok (MkNet true false false {["e"]} {["e" := false]} ∅ {["e" := None]} false 0).
Proof. unfold MakeEnd. rewrite decide_False by (simpl; set_solver). simpl. by rewrite union_empty_r_L. Qed.

Lemma small_net_connected : connected small_net "e" (inr "s") 0%nat.
Proof. by vm_compute. Qed.
Lemma no_rand_ok : rands_ok no_rand.
Proof. unfold rands_ok. simpl. lia. Qed.

Lemma ProcessReq_sound_witness :
  ProcessReq (bytes:=Z) small_net "e" no_rand [Tick; Ret (MkReply true (Some 7))] = Some (MkReply true (Some 7), 0) ∧
  0 ≤ 0 < 7000.
Proof.
  assert (H : ProcessReq (bytes:=Z) small_net "e" no_rand [Tick; Ret (MkReply true (Some 7))] =
    Some (MkReply true (Some 7), 0)) by by vm_compute.
  split; [exact H|]. exact (proj1 (ProcessReq_sound _ _ _ _ _ _ no_rand_ok H)).
Defined.

Lemma deleted_server_witness :
  rp_ok (bytes:=Z) (fst (default (MkReply true None, 0)
    (ProcessReq small_net "e" no_rand
       [Tick; Op (ODeleteServer (inr "s")); Op (OAddServer (inr "s") 1%nat); Ret (MkReply true (Some 7))]))) = false.
Proof.
  assert (H : ProcessReq (bytes:=Z) small_net "e" no_rand
    ([Tick] ++ Op (ODeleteServer (inr "s")) :: [Op (OAddServer (inr "s") 1%nat); Ret (MkReply true (Some 7))]) =
    Some (lost, 0)) by by vm_compute.
  cbn [app] in H. rewrite H. cbn [default fst].
  eapply (deleted_server_never_answers small_net "e" (inr "s") 0%nat no_rand [Tick]
    [Op (OAddServer (inr "s") 1%nat); Ret (MkReply true (Some 7))]).
  - exact small_net_connected.
  - exact no_rand_ok.
  - intros r Hr. apply list_elem_of_singleton in Hr. discriminate Hr.
  - unfold not_added. intros Hr. apply elem_of_cons in Hr as [Hr|Hr]; [discriminate Hr|].
    apply list_elem_of_singleton in Hr. discriminate Hr.
  - exact H.
Defined.


(** A counter that adds its argument, called [Ctr.Add]. *)
Definition ctr_add : @Method Z unit Z :=
  MkMethod "Add" "" 3 true tt 0 (λ n a _, Ok (n + a, n + a)).
Definition ctr_server : @Server Z unit Z := AddService MakeServer (MakeService "Ctr" 40 [ctr_add]).

(** The network counts another request while this one is under way. *)
Lemma Call_runs_method_witness :
  let enc := λ v : Z, [v] in
  let dec := λ bs w, match bs with [v] => (v, true) | _ => (w, false) end in
  ∃ r heap',
    Request enc dec (λ _ : unit, 0) {[ 0%nat := ctr_server ]} small_net
      (Call_req enc (λ _, tt) "e" ("Ctr" +:+ "." +:+ "Add") 2) no_rand
      [STick; SDispatch; SOp ORequest; SRecv] = Some (r, 0, heap') ∧
    Server_GetCount <$> heap' !! 0%nat = Some 1 ∧ Call dec (Some r) 0 = Ok (true, 42).
Proof.
  intros enc dec.
  destruct (Call_runs_method enc dec (λ _, tt) (λ _ : unit, 0) small_net {[ 0%nat := ctr_server ]} "e" (inr "s")
    0%nat no_rand ([STick] ++ SDispatch :: [SOp ORequest] ++ SRecv :: []) ctr_server "Ctr" "Add"
    (MakeService "Ctr" 40 [ctr_add]) ctr_add 2 42 42) as [Hall Hends]; try reflexivity.
  - exact small_net_connected.
  - repeat constructor.
  - cbn. intros Hr. repeat (apply elem_of_cons in Hr as [Hr|Hr]; [discriminate Hr|]).
    by apply not_elem_of_nil in Hr.
  - destruct (Hends [STick] [SOp ORequest] [] (count_req small_net) eq_refl) as [[[r ms] heap'] H];
      [by repeat constructor|reflexivity|].
    destruct (Hall r ms heap' H) as (-> & Hh & Hcall). exists r, heap'. split; [exact H|]. by rewrite Hh.
Defined.
