(* ===== verification/LabGob.v ===== *)
(** * The checks of [labgob/labgob.go].

    Encoding itself is the standard library's; what the package adds are two checks before
    it, on the types and on the variables that are decoded into.  Types are known by their
    identity, as values of [reflect.Type] are; [kindOf] is what reflection says of a type, and
    types may be recursive.  Values that are decoded into have pointers, which may be cyclic,
    into a heap. *)

From Stdlib Require Import Ascii.
From S2P Require Import Prelude GoLib.

(** What [checkType] asks of a type. *)
Inductive kind :=
| Struct (fields : list (string * positive))  (** names and types of the fields *)
| Elem (elem : positive)                      (** slices, arrays and pointers *)
| MapOf (elem key : positive)
| OtherKind.

(** A variable.  A field has a name and may be embedded.  [VBasic]: a boolean, number or
    string, and whether it is the zero value of its type; [VOther]: a slice, map, channel and
    so on. *)
Inductive gval :=
| VStruct (t : positive) (fields : list (string * bool * gval))
| VPtr (t : positive) (addr : option positive)
| VBasic (t : positive) (zero : bool)
| VOther (t : positive).

(** What reflection remembers of the way to a variable: whether it went through a field that
    is not exported, and whether its last field was an embedded one that is not exported. *)
Record access := MkAccess { stickyRO : bool; embedRO : bool }.
Definition readOnly (ro : access) : bool := stickyRO ro || embedRO ro.

(** What is printed. *)
Inductive message :=
| LowerCase (field type : string)
| NonDefault (what : string).

(** The global variables of the package, and what has been printed. *)
Record labgob := MkGob { errorCount : Z; checked : gset positive; printed : list message }.

(** At the start of the program. *)
Definition init : labgob := MkGob 0 ∅ [].

Section labgob.
Variable IsUpper : Z → bool.
Variable kindOf : positive → kind.
Variable Name : positive → string.

Definition capital (name : string) : bool :=
  IsUpper (fst (DecodeRune (String.list_ascii_of_string name))).

(** The test of a field's name. *)
Definition check_name (st : labgob) (t : positive) (name : string) : labgob :=
  if capital name then st
  else MkGob (errorCount st + 1) (checked st) (printed st ++ [LowerCase name (Name t)]).

(** The loop over the fields; [rec] is [checkType]. *)
Fixpoint check_fields (rec : labgob → positive → option labgob) (t : positive)
    (fields : list (string * positive)) (st : labgob) : option labgob :=
  match fields with
  | [] => Some st
  | (name, ft) :: fields => st ← rec (check_name st t name) ft; check_fields rec t fields st
  end.

(** [fuel] bounds the depth of the recursion; [None] when it does not suffice. *)
Fixpoint checkType (fuel : nat) (st : labgob) (t : positive) : option labgob :=
  match fuel with
  | O => None
  | S fuel =>
      if decide (t ∈ checked st) then Some st else
      let st := MkGob (errorCount st) ({[t]} ∪ checked st) (printed st) in
      match kindOf t with
      | Struct fields => check_fields (checkType fuel) t fields st
      | Elem elem => checkType fuel st elem
      | MapOf elem key => st ← checkType fuel st elem; checkType fuel st key
      | OtherKind => Some st
      end
  end.

(** A warning is only printed for the first error. *)
Definition warn_default (st : labgob) (t : positive) (name : string) : labgob :=
  let what := if decide (name = "") then Name t else name in
  MkGob (errorCount st + 1) (checked st)
    (if errorCount st <? 1 then printed st ++ [NonDefault what] else printed st).

(** The name of a field of the variable [name]. *)
Definition field_name (name fname : string) : string :=
  if decide (name = "") then fname else name +:+ "." +:+ fname.

(** A field is exported when its name begins with an upper-case letter. *)
Definition field_access (ro : access) (fname : string) (embedded : bool) : access :=
  if capital fname then MkAccess (stickyRO ro) false
  else if embedded then MkAccess (stickyRO ro) true
  else MkAccess true false.

(** The loop over the fields of a value; [rec] is [checkDefault1]. *)
Fixpoint default_fields (rec : labgob → access → gval → string → outcome labgob) (ro : access)
    (name : string) (fields : list (string * bool * gval)) (st : labgob) : outcome labgob :=
  match fields with
  | [] => Ok st
  | (fname, embedded, v) :: fields =>
      st ← rec st (field_access ro fname embedded) v (field_name name fname);
      default_fields rec ro name fields st
  end.

(** What a pointer points to. *)
Variable heap : positive → gval.

(** [value.Interface()] panics for a variable that was reached through a field that is not
    exported.  Without fuel the recursion has not ended. *)
Fixpoint checkDefault1 (fuel : nat) (depth : Z) (st : labgob) (ro : access) (value : gval) (name : string) :
    outcome labgob :=
  if 3 <? depth then Ok st else
  match fuel with
  | O => Block
  | S fuel =>
      match value with
      | VStruct t fields =>
          default_fields (checkDefault1 fuel (depth + 1)) ro name fields st
      | VPtr _ None => Ok st
      | VPtr _ (Some a) => checkDefault1 fuel (depth + 1) st ro (heap a) name
      | VBasic t zero =>
          guard_go (negb (readOnly ro));;
          Ok (if zero then st else warn_default st t name)
      | VOther _ => Ok st
      end
  end.

Definition type_of (v : gval) : positive :=
  match v with VStruct t _ | VPtr t _ | VBasic t _ | VOther t => t end.

(** Depth 4 is never looked at, so fuel 3 is enough. *)
Definition checkDefault (st : labgob) (value : option gval) : outcome labgob :=
  match value with
  | None => Ok st
  | Some v => checkDefault1 3 1 st (MkAccess false false) v ""
  end.

(** The type of the nil interface is nil, and asking it for its kind panics.  Without enough
    fuel the check has not ended. *)
Definition checkValue (fuel : nat) (st : labgob) (value : option gval) : outcome labgob :=
  match value with
  | None => Panic
  | Some v => match checkType fuel st (type_of v) with Some st => Ok st | None => Block end
  end.

(** What [Encode] and [EncodeValue] do before they call [gob]. *)
Definition Encode_check (fuel : nat) (st : labgob) (e : option gval) : outcome labgob :=
  checkValue fuel st e.

(** What [Register] and [RegisterName] do before they call [gob]. *)
Definition Register_check (fuel : nat) (st : labgob) (value : option gval) : outcome labgob :=
  checkValue fuel st value.

(** What [Decode] does before it calls [gob]. *)
Definition Decode_check (fuel : nat) (st : labgob) (e : option gval) : outcome labgob :=
  st ← checkValue fuel st e;
  checkDefault st e.

(** ** Types *)

Definition succs (t : positive) : list positive :=
  match kindOf t with
  | Struct fields => snd <$> fields
  | Elem elem => [elem]
  | MapOf elem key => [elem; key]
  | OtherKind => []
  end.

(** The fields of a type that [gob] will not send. *)
Definition lower_fields (fields : list (string * positive)) : Z :=
  len (filter (λ f, capital f.1 = false) fields).
Definition lower (t : positive) : Z :=
  match kindOf t with Struct fields => lower_fields fields | _ => 0 end.

(** Types that are part of another one. *)
Definition component : relation positive := λ t s, s ∈ succs t.
Abbreviation reach := (rtc component).

Definition total (f : positive → Z) (X : gset positive) : Z := foldr (λ t n, f t + n) 0 (elements X).

Lemma total_perm (f : positive → Z) l1 l2 :
  l1 ≡ₚ l2 → foldr (λ t n, f t + n) 0 l1 = foldr (λ t n, f t + n) 0 l2.
Proof. induction 1; simpl; lia. Qed.

Lemma total_union f X Y : X ## Y → total f (X ∪ Y) = total f X + total f Y.
Proof.
  intros HXY. unfold total. rewrite (total_perm _ _ _ (elements_disj_union X Y HXY)).
  induction (elements X); simpl; lia.
Qed.

Lemma total_singleton f t : total f {[t]} = f t.
Proof. unfold total. rewrite elements_singleton. simpl. lia. Qed.

Lemma total_empty f : total f ∅ = 0.
Proof. unfold total. by rewrite elements_empty. Qed.

(** What checking the types [ts] one after another does: they are checked, a type that was
    not checked before is part of one of them and has all its parts checked, and the errors
    are the lower-case fields of these types, besides [extra]. *)
Record checks (st : labgob) (ts : list positive) (extra : Z) (st' : labgob) : Prop := {
  ck_sub : checked st ⊆ checked st';
  ck_in : ∀ t, t ∈ ts → t ∈ checked st';
  ck_closed : ∀ t s, t ∈ checked st' → t ∉ checked st → component t s → s ∈ checked st';
  ck_reach : ∀ t, t ∈ checked st' → t ∈ checked st ∨ ∃ r, r ∈ ts ∧ reach r t;
  ck_count : errorCount st' = errorCount st + extra + total lower (checked st' ∖ checked st);
}.

Lemma checks_nil st extra st' :
  checked st' = checked st → errorCount st' = errorCount st + extra → checks st [] extra st'.
Proof.
  intros Hc He. split; rewrite ?Hc.
  - done.
  - intros t Ht. by apply not_elem_of_nil in Ht.
  - done.
  - by left.
  - by rewrite difference_diag_L, total_empty, He, Z.add_0_r.
Qed.

Lemma checks_app st1 ts1 e1 st2 ts2 e2 st3 :
  checks st1 ts1 e1 st2 → checks st2 ts2 e2 st3 → checks st1 (ts1 ++ ts2) (e1 + e2) st3.
Proof.
  intros [S1 I1 C1 R1 N1] [S2 I2 C2 R2 N2]. split.
  - by trans (checked st2).
  - intros t [Ht|Ht]%elem_of_app; auto.
  - intros t s H3 H1 Hs. destruct (decide (t ∈ checked st2)); eauto.
  - intros t [Ht|(r & Hr & Hp)]%R2.
    + destruct (R1 t Ht) as [|(r & Hr & Hp)]; [by left|right]. exists r. split; [|done].
      apply elem_of_app. by left.
    + right. exists r. split; [|done]. apply elem_of_app. by right.
  - rewrite N2, N1.
    replace (checked st3 ∖ checked st1) with ((checked st2 ∖ checked st1) ∪ (checked st3 ∖ checked st2)).
    + rewrite total_union by set_solver. lia.
    + apply set_eq. intros t. rewrite elem_of_union, !elem_of_difference.
      destruct (decide (t ∈ checked st2)); set_solver.
Qed.

Lemma checks_done st t : t ∈ checked st → checks st [t] 0 st.
Proof.
  intros Ht. split; [done| |done|by left|].
  - by intros t' ->%list_elem_of_singleton.
  - rewrite difference_diag_L, total_empty. lia.
Qed.

(** Checking a new type is marking it and checking its parts. *)
Lemma checks_new st t st' :
  t ∉ checked st →
  checks (MkGob (errorCount st) ({[t]} ∪ checked st) (printed st)) (succs t) (lower t) st' →
  checks st [t] 0 st'.
Proof.
  intros Hnew [S I C R N]. cbn [checked errorCount] in *. split.
  - set_solver.
  - intros t' ->%list_elem_of_singleton. set_solver.
  - intros t' s Ht' Hold Hs. destruct (decide (t' = t)) as [->|Hne]; [by apply I|].
    apply (C t' s Ht'); [|done]. set_solver.
  - intros t' Ht'. destruct (R t' Ht') as [Ht|(r & Hr & Hp)].
    + apply elem_of_union in Ht as [->%elem_of_singleton|Ht]; [right|by left].
      exists t. split; [by left|done].
    + right. exists t. split; [by left|]. by eapply rtc_l.
  - rewrite N. replace (checked st' ∖ checked st) with ({[t]} ∪ (checked st' ∖ ({[t]} ∪ checked st))).
    + rewrite total_union, total_singleton by set_solver. lia.
    + apply set_eq. intros x. rewrite elem_of_union, !elem_of_difference, elem_of_union, elem_of_singleton.
      destruct (decide (x = t)); set_solver.
Qed.

(** A finite set of types that holds the parts of its types. *)
Definition closed_under (univ : gset positive) : Prop :=
  ∀ t s, t ∈ univ → component t s → s ∈ univ.

Lemma check_fields_ok (rec : labgob → positive → option labgob) st0 t fields st :
  (∀ st ft, ft ∈ snd <$> fields → checked st0 ⊆ checked st →
     ∃ st', rec st ft = Some st' ∧ checks st [ft] 0 st') →
  checked st0 ⊆ checked st →
  ∃ st', check_fields rec t fields st = Some st' ∧ checks st (snd <$> fields) (lower_fields fields) st'.
Proof.
  revert st. induction fields as [|[name ft] fields IH]; intros st Hrec Hsub; cbn [check_fields].
  { exists st. split; [done|]. apply checks_nil; [done|]. unfold lower_fields, len. simpl. lia. }
  assert (Hname : checks st [] (if capital name then 0 else 1) (check_name st t name)).
  { apply checks_nil; unfold check_name; destruct (capital name); simpl; lia || done. }
  destruct (Hrec (check_name st t name) ft) as (st1 & -> & H1); [by left| |].
  { etrans; [exact Hsub|]. apply Hname. }
  destruct (IH st1) as (st2 & Hf & H2).
  - intros st' ft' Hft. apply Hrec. by right.
  - etrans; [exact Hsub|]. etrans; [apply Hname|apply H1].
  - exists st2. simpl. split; [exact Hf|].
    replace (lower_fields ((name, ft) :: fields)) with
      ((if capital name then 0 else 1) + (0 + lower_fields fields)).
    + apply (checks_app _ [] _ _ ([ft] ++ (snd <$> fields)) _ _ Hname). by eapply checks_app.
    + unfold lower_fields. rewrite filter_cons. cbn [fst]. destruct (capital name).
      * by rewrite decide_False.
      * rewrite decide_True, len_cons by done. lia.
Qed.

Lemma unchecked_lt (univ X Y : gset positive) t :
  t ∈ univ → t ∉ X → {[t]} ∪ X ⊆ Y → (size (univ ∖ Y) < size (univ ∖ X))%nat.
Proof. intros Ht HX HY. apply subset_size. split; [set_solver|]. intros H. set_solver. Qed.

(** The recursion ends, for recursive types too: every call but those on checked types marks
    a type of a finite set. *)
Lemma checkType_ok univ fuel st t :
  closed_under univ → t ∈ univ → (size (univ ∖ checked st) < fuel)%nat →
  ∃ st', checkType fuel st t = Some st' ∧ checks st [t] 0 st'.
Proof.
  intros Hu. revert st t. induction fuel as [|fuel IH]; intros st t Ht Hf; [lia|]. cbn [checkType].
  destruct (decide (t ∈ checked st)) as [Hin|Hnew]; [eauto using checks_done|].
  set (st1 := MkGob _ _ _).
  assert (Hrec : ∀ st2 s, component t s → checked st1 ⊆ checked st2 →
    ∃ st', checkType fuel st2 s = Some st' ∧ checks st2 [s] 0 st').
  { intros st2 s Hs Hsub. apply IH; [by eapply Hu|].
    enough (size (univ ∖ checked st2) < size (univ ∖ checked st))%nat by lia. by eapply unchecked_lt. }
  assert (Hwrap : ∀ o, (∃ st', o = Some st' ∧ checks st1 (succs t) (lower t) st') →
    ∃ st', o = Some st' ∧ checks st [t] 0 st').
  { intros o (st' & -> & Hc). exists st'. split; [done|]. by apply checks_new. }
  apply Hwrap. unfold component, succs, lower in *. destruct (kindOf t) as [fields|elem|elem key|].
  - apply (check_fields_ok _ st1); [|done]. eauto.
  - apply Hrec; [by left|done].
  - destruct (Hrec st1 elem) as (st2 & -> & H2); [by left|done|]. simpl.
    destruct (Hrec st2 key) as (st3 & -> & H3); [by right; left|apply H2|].
    exists st3. split; [done|]. by apply (checks_app _ [elem] 0 _ [key] 0 _ H2).
  - exists st1. split; [done|]. apply checks_nil; [done|lia].
Qed.

(** ** Variables that are decoded into *)

(** A variable and the way to it; the fields of a struct and what a pointer points to. *)
Definition var : Type := access * gval.
Inductive part : relation var :=
| part_field ro t fields name emb v :
    (name, emb, v) ∈ fields → part (ro, VStruct t fields) (field_access ro name emb, v)
| part_ptr ro t a : part (ro, VPtr t (Some a)) (ro, heap a).

(** Every basic variable at most [n] steps down satisfies [P]. *)
Definition basic_parts (P : access → bool → Prop) (n : Z) (x : var) : Prop :=
  ∀ k ro t zero, Z.of_nat k ≤ n → nsteps part k x (ro, VBasic t zero) → P ro zero.
(** No part at most [n] steps down has a value. *)
Definition all_default : Z → var → Prop := basic_parts (λ _ zero, zero = true).
(** No basic part at most [n] steps down is hidden by a field that is not exported. *)
Definition all_visible : Z → var → Prop := basic_parts (λ ro _, readOnly ro = false).

(** Errors may have been added, and they have if and only if some check failed. *)
Record warned (st : labgob) (ok : Prop) (st' : labgob) : Prop := {
  wa_checked : checked st' = checked st;
  wa_le : errorCount st ≤ errorCount st';
  wa_ok : errorCount st' = errorCount st ↔ ok;
}.

(** A check that panics unless [vis] holds, and warns unless [ok] holds. *)
Definition warns (st : labgob) (vis ok : Prop) (r : outcome labgob) : Prop :=
  match r with Ok st' => vis ∧ warned st ok st' | Panic => ¬ vis | Block => False end.

Lemma warned_refl st (ok : Prop) : ok → warned st ok st.
Proof. intros Hok. split; [done|lia|done]. Qed.

Lemma warned_app st1 P st2 Q st3 : warned st1 P st2 → warned st2 Q st3 → warned st1 (P ∧ Q) st3.
Proof.
  intros [C1 L1 H1] [C2 L2 H2]. split; [congruence|lia|]. rewrite <- H1, <- H2. lia.
Qed.

Lemma warns_refl st (vis ok : Prop) : vis → ok → warns st vis ok (Ok st).
Proof. intros Hv Hok. split; [done|by apply warned_refl]. Qed.

Lemma warns_iff st (V V' P P' : Prop) r : (V ↔ V') → (P ↔ P') → warns st V P r → warns st V' P' r.
Proof.
  intros HV HP. destruct r as [st'| |]; simpl; [|tauto|done].
  intros [? [H1 H2 H3]]. split; [tauto|]. split; [done|done|tauto].
Qed.

Lemma warns_bind st V1 P1 r (V2 P2 : Prop) f :
  warns st V1 P1 r → (∀ st', checked st' = checked st → warns st' V2 P2 (f st')) →
  warns st (V1 ∧ V2) (P1 ∧ P2) (st' ← r; f st').
Proof.
  destruct r as [st1| |]; simpl; [|tauto|done]. intros [Hv H1] Hf. specialize (Hf st1 (wa_checked _ _ _ H1)).
  destruct (f st1) as [st2| |]; simpl in *; [|tauto|done]. destruct Hf as [? H2].
  split; [done|]. by eapply warned_app.
Qed.

Lemma basic_parts_neg P n x : n < 0 → basic_parts P n x.
Proof. intros Hn k ro t zero Hk. lia. Qed.

(** The parts of a variable, one step further down. *)
Lemma basic_parts_step P n ro v :
  0 ≤ n → basic_parts P n (ro, v) ↔
    (∀ t zero, v = VBasic t zero → P ro zero) ∧ ∀ x, part (ro, v) x → basic_parts P (n - 1) x.
Proof.
  intros Hn. split.
  - intros H. split.
    + intros t zero ->. apply (H 0%nat ro t zero); [lia|]. constructor.
    + intros x Hp k ro' t zero Hk Hs. apply (H (S k) ro' t zero); [lia|]. by econstructor.
  - intros [H0 H] k ro' t zero Hk Hs. destruct k as [|k].
    + inversion Hs; subst. by eapply H0.
    + inversion Hs as [|? ? x ? Hp Hs']; subst. apply (H x Hp k ro' t zero); [lia|done].
Qed.

Lemma basic_parts_none P n ro v :
  (∀ t zero, v ≠ VBasic t zero) → (∀ x, ¬ part (ro, v) x) → basic_parts P n (ro, v).
Proof.
  intros Hv Hx. destruct (decide (n < 0)); [by apply basic_parts_neg|]. apply basic_parts_step; [lia|].
  split; [intros t zero ->; by destruct (Hv t zero)|intros x Hp; by destruct (Hx x)].
Qed.

Lemma basic_parts_struct P n ro t fields :
  0 ≤ n → basic_parts P n (ro, VStruct t fields) ↔
    ∀ name emb v, (name, emb, v) ∈ fields → basic_parts P (n - 1) (field_access ro name emb, v).
Proof.
  intros Hn. rewrite basic_parts_step by done. split.
  - intros [_ H] name emb v Hin. apply H. by econstructor.
  - intros H. split; [done|]. intros x Hp. inversion Hp; subst. by apply H.
Qed.

Lemma basic_parts_ptr P n ro t a :
  0 ≤ n → basic_parts P n (ro, VPtr t (Some a)) ↔ basic_parts P (n - 1) (ro, heap a).
Proof.
  intros Hn. rewrite basic_parts_step by done. split.
  - intros [_ H]. apply H. constructor.
  - intros H. split; [done|]. intros x Hp. by inversion Hp; subst.
Qed.

Lemma basic_parts_basic P n ro t zero : 0 ≤ n → basic_parts P n (ro, VBasic t zero) ↔ P ro zero.
Proof.
  intros Hn. rewrite basic_parts_step by done. split.
  - intros [H _]. by eapply H.
  - intros H. split; [by intros ? ? [= _ ->]|]. intros x Hp. inversion Hp.
Qed.

Lemma forall_fields (Q : string → bool → gval → Prop) fname emb v fields :
  Q fname emb v ∧ (∀ n e v, (n, e, v) ∈ fields → Q n e v) ↔
  ∀ n e v', (n, e, v') ∈ (fname, emb, v) :: fields → Q n e v'.
Proof.
  split.
  - intros [Hv Hvs] n e v' [[= -> -> ->]|Hin]%elem_of_cons; auto.
  - intros H. split; [apply H; by left|]. intros n e v' Hin. apply H. by right.
Qed.

Lemma default_fields_ok rec (vis ok : var → Prop) ro name fields st :
  (∀ st ro v n, warns st (vis (ro, v)) (ok (ro, v)) (rec st ro v n)) →
  warns st (∀ n e v, (n, e, v) ∈ fields → vis (field_access ro n e, v))
    (∀ n e v, (n, e, v) ∈ fields → ok (field_access ro n e, v)) (default_fields rec ro name fields st).
Proof.
  intros Hrec. revert st. induction fields as [|[[fname emb] v] fields IH]; intros st; cbn [default_fields].
  { apply warns_refl; intros n e v Hin; by apply not_elem_of_nil in Hin. }
  eapply warns_iff; [..|eapply warns_bind; [apply Hrec|intros st' _; apply IH]].
  - apply (forall_fields (λ n e v, vis (field_access ro n e, v))).
  - apply (forall_fields (λ n e v, ok (field_access ro n e, v))).
Qed.

(** The check looks three levels down, so it ends whatever the pointers. *)
Lemma checkDefault1_ok fuel depth st ro v name :
  Z.of_nat fuel = 4 - depth →
  warns st (all_visible (3 - depth) (ro, v)) (all_default (3 - depth) (ro, v))
    (checkDefault1 fuel depth st ro v name).
Proof.
  unfold all_visible, all_default.
  revert depth st ro v name. induction fuel as [|fuel IH]; intros depth st ro v name Hf; cbn [checkDefault1].
  - rewrite (proj2 (Z.ltb_lt 3 depth)) by lia. apply warns_refl; apply basic_parts_neg; lia.
  - rewrite (proj2 (Z.ltb_ge 3 depth)) by lia. specialize (IH (depth + 1)).
    replace (3 - (depth + 1)) with (3 - depth - 1) in IH by lia.
    destruct v as [t fields|t [a|]|t zero|t].
    + eapply warns_iff; [symmetry; apply basic_parts_struct; lia..|].
      apply (default_fields_ok _ (basic_parts _ _) (basic_parts _ _)). intros. apply IH. lia.
    + eapply warns_iff; [symmetry; apply basic_parts_ptr; lia..|]. apply IH. lia.
    + apply warns_refl; (apply basic_parts_none; [done|]; intros x Hx; inversion Hx).
    + eapply warns_iff; [symmetry; apply basic_parts_basic; lia..|].
      destruct (readOnly ro); simpl; [done|]. split; [done|].
      destruct zero; [by apply warned_refl|]. split; simpl; [done|lia|split; [lia|done]].
    + apply warns_refl; (apply basic_parts_none; [done|]; intros x Hx; inversion Hx).
Qed.

(** ** A history of calls *)

(** A call to [Encode], [Register] or [Decode]. *)
Inductive gob_call := CEncode (e : gval) | CRegister (e : gval) | CDecode (e : gval).
Definition call_value (c : gob_call) : gval := match c with CEncode e | CRegister e | CDecode e => e end.
Definition call_type (c : gob_call) : positive := type_of (call_value c).

Definition gob_step (fuel : nat) (st : labgob) (c : gob_call) : outcome labgob :=
  match c with
  | CEncode e => Encode_check fuel st (Some e)
  | CRegister e => Register_check fuel st (Some e)
  | CDecode e => Decode_check fuel st (Some e)
  end.

Fixpoint gob_run (fuel : nat) (st : labgob) (cs : list gob_call) : outcome labgob :=
  match cs with
  | [] => Ok st
  | c :: cs => st ← gob_step fuel st c; gob_run fuel st cs
  end.

(** The variables decoded into have their zero value three levels down; none of their basic
    parts there is hidden. *)
Definition root (e : gval) : var := (MkAccess false false, e).
Definition fresh_variables (cs : list gob_call) : Prop :=
  ∀ e, CDecode e ∈ cs → all_default 2 (root e).
Definition visible_variables (cs : list gob_call) : Prop :=
  ∀ e, CDecode e ∈ cs → all_visible 2 (root e).

Lemma decodes_cons (P : gval → Prop) c cs :
  ((∀ e, CDecode e ∈ [c] → P e) ∧ (∀ e, CDecode e ∈ cs → P e)) ↔ (∀ e, CDecode e ∈ c :: cs → P e).
Proof.
  split.
  - intros [H1 H2] e [<-|He]%elem_of_cons; [apply H1; by left|by apply H2].
  - intros H. split; intros e He; apply H; [apply list_elem_of_singleton in He as <-; by left|by right].
Qed.
Lemma decodes_other (P : gval → Prop) c : (∀ e, CDecode e ≠ c) → ∀ e, CDecode e ∈ [c] → P e.
Proof. intros Hc e He. apply list_elem_of_singleton in He. by apply Hc in He. Qed.
Lemma decodes_decode (P : gval → Prop) e0 : P e0 → ∀ e, CDecode e ∈ [CDecode e0] → P e.
Proof. intros HP e He. by apply list_elem_of_singleton in He as [= ->]. Qed.

(** The errors counted so far, apart from those of the types that are marked. *)
Record gob_inv (used : list positive) (ok : Prop) (st : labgob) : Prop := {
  gi_in : ∀ t, t ∈ used → t ∈ checked st;
  gi_closed : ∀ t s, t ∈ checked st → component t s → s ∈ checked st;
  gi_reach : ∀ t, t ∈ checked st → ∃ r, r ∈ used ∧ reach r t;
  gi_count : total lower (checked st) ≤ errorCount st;
  gi_ok : errorCount st = total lower (checked st) ↔ ok;
}.

Lemma gob_inv_checks used ok st t st' :
  gob_inv used ok st → checks st [t] 0 st' → gob_inv (used ++ [t]) ok st'.
Proof.
  intros [Gi Gc Gr Gn Go] [S I C R N].
  assert (Hsplit : total lower (checked st') = total lower (checked st) + total lower (checked st' ∖ checked st)).
  { rewrite <- total_union by set_solver. f_equal. by apply union_difference_L. }
  split.
  - intros x [Hx|Hx]%elem_of_app; auto.
  - intros x s Hx Hs. destruct (decide (x ∈ checked st)); [apply S|]; eauto.
  - intros x [(r & Hr & Hp)%Gr|(r & Hr & Hp)]%R; exists r; (split; [apply elem_of_app; auto|done]).
  - lia.
  - rewrite <- Go. lia.
Qed.

Lemma gob_inv_warned used ok st ok' st' :
  gob_inv used ok st → warned st ok' st' → gob_inv used (ok ∧ ok') st'.
Proof.
  intros [Gi Gc Gr Gn Go] [C L H]. split; rewrite ?C; try done; [lia|].
  rewrite <- Go, <- H. lia.
Qed.

Lemma gob_inv_iff used ok ok' st : (ok ↔ ok') → gob_inv used ok st → gob_inv used ok' st.
Proof. intros H [? ? ? ? Go]. split; try done. by rewrite Go. Qed.

(** What calls do to a state that satisfies the invariant: they panic unless [vis] holds. *)
Definition gob_result (used : list positive) (vis ok : Prop) (r : outcome labgob) : Prop :=
  match r with Ok st' => vis ∧ gob_inv used ok st' | Panic => ¬ vis | Block => False end.

Lemma gob_result_other used ok c st :
  (∀ e, CDecode e ≠ c) → gob_inv used ok st →
  gob_result used (visible_variables [c]) (ok ∧ fresh_variables [c]) (Ok st).
Proof.
  intros Hc Hi. split; [exact (decodes_other (λ e, all_visible 2 (root e)) c Hc)|].
  eapply gob_inv_iff; [|exact Hi]. split; [|tauto]. intros Hok. split; [done|].
  exact (decodes_other (λ e, all_default 2 (root e)) c Hc).
Qed.

Lemma gob_step_ok univ fuel used ok st c :
  closed_under univ → (size univ < fuel)%nat → call_type c ∈ univ → gob_inv used ok st →
  gob_result (used ++ [call_type c]) (visible_variables [c]) (ok ∧ fresh_variables [c])
    (gob_step fuel st c).
Proof.
  intros Hu Hf Ht Hi.
  destruct (checkType_ok univ fuel st (call_type c) Hu Ht) as (st1 & Hrun & H1).
  { enough (size (univ ∖ checked st) ≤ size univ)%nat by lia. apply subseteq_size. set_solver. }
  pose proof (gob_inv_checks _ _ _ _ _ Hi H1) as Hi1. destruct c as [e|e|e];
    unfold call_type in *; cbn [gob_step call_value] in *; unfold Encode_check, Register_check, Decode_check, checkValue;
    rewrite Hrun; cbn [mbind outcome_bind].
  - by apply gob_result_other.
  - by apply gob_result_other.
  - pose proof (checkDefault1_ok 3 1 st1 (MkAccess false false) e "" eq_refl) as H2.
    unfold checkDefault. destruct (checkDefault1 3 1 st1 _ e "") as [st2| |]; simpl in *; [|intros H; apply H2, H; by left|done].
    destruct H2 as [Hv H2]. split; [exact (decodes_decode (λ e, all_visible 2 (root e)) e Hv)|].
    eapply gob_inv_iff; [|exact (gob_inv_warned _ _ _ _ _ Hi1 H2)].
    split; (intros [? H]; split; [done|]); [exact (decodes_decode (λ e, all_default 2 (root e)) e H)|apply H; by left].
Qed.

Lemma gob_run_ok univ fuel used ok st cs :
  closed_under univ → (size univ < fuel)%nat → (∀ c, c ∈ cs → call_type c ∈ univ) →
  gob_inv used ok st →
  gob_result (used ++ (call_type <$> cs)) (visible_variables cs) (ok ∧ fresh_variables cs)
    (gob_run fuel st cs).
Proof.
  intros Hu Hf. revert used ok st. induction cs as [|c cs IH]; intros used ok st Ht Hi; cbn [gob_run].
  { split; [intros e He; by apply not_elem_of_nil in He|]. simpl. rewrite app_nil_r.
    eapply gob_inv_iff; [|exact Hi]. split; [|tauto]. intros Hok. split; [done|].
    intros e He. by apply not_elem_of_nil in He. }
  assert (H1 : gob_result (used ++ [call_type c]) (visible_variables [c]) (ok ∧ fresh_variables [c])
    (gob_step fuel st c)) by (apply (gob_step_ok univ); try done; apply Ht; by left).
  destruct (gob_step fuel st c) as [st1| |]; cbn [gob_result mbind outcome_bind] in *.
  - destruct H1 as [Hv1 H1].
    specialize (IH _ _ _ (λ c' Hc', Ht c' (list_elem_of_further _ _ _ Hc')) H1).
    destruct (gob_run fuel st1 cs) as [st2| |]; cbn [gob_result] in *.
    + destruct IH as [Hv2 H2]. split; [exact (proj1 (decodes_cons (λ e, all_visible 2 (root e)) c cs) (conj Hv1 Hv2))|].
      rewrite <- app_assoc in H2. eapply gob_inv_iff; [|exact H2].
      pose proof (decodes_cons (λ e, all_default 2 (root e)) c cs). unfold fresh_variables. tauto.
    + intros Hv. apply IH. exact (proj2 (proj2 (decodes_cons (λ e, all_visible 2 (root e)) c cs) Hv)).
    + done.
  - intros Hv. apply H1. exact (proj1 (proj2 (decodes_cons (λ e, all_visible 2 (root e)) c cs) Hv)).
  - done.
Qed.

Lemma rtc_closed (X : gset positive) t s :
  (∀ t s, t ∈ X → component t s → s ∈ X) → t ∈ X → reach t s → s ∈ X.
Proof. intros HX Ht Hr. induction Hr; eauto. Qed.

Lemma total_zero (f : positive → Z) X : (∀ t, 0 ≤ f t) → total f X = 0 ↔ ∀ t, t ∈ X → f t = 0.
Proof.
  intros Hf. unfold total.
  assert (0 ≤ foldr (λ t n, f t + n) 0 (elements X) ∧ (foldr (λ t n, f t + n) 0 (elements X) = 0 ↔
    ∀ t, t ∈ elements X → f t = 0)) as [_ H].
  { induction (elements X) as [|x l [IH1 IH2]]; simpl.
    { split; [lia|]. split; [|done]. intros _ t Ht. by apply not_elem_of_nil in Ht. }
    pose proof (Hf x). split; [lia|]. split.
    - intros H0 t [->|Ht]%elem_of_cons; [lia|]. apply IH2; [lia|done].
    - intros H0. rewrite (H0 x) by (by left). rewrite (proj2 IH2); [done|]. intros t Ht. apply H0. by right. }
  rewrite H. split; intros H' t Ht; apply H'; by apply elem_of_elements.
Qed.

Lemma lower_nonneg t : 0 ≤ lower t.
Proof. unfold lower, lower_fields. destruct (kindOf t); auto with go. Qed.

Lemma total_lower_zero X :
  total lower X = 0 ↔ ∀ t fields name ft, t ∈ X →
    kindOf t = Struct fields → (name, ft) ∈ fields → capital name = true.
Proof.
  rewrite (total_zero lower _ lower_nonneg). unfold lower, lower_fields. split.
  - intros H t fields name ft Hin Hk Hfd. specialize (H t Hin). rewrite Hk in H.
    destruct (capital name) eqn:Hcap; [done|exfalso].
    assert ((name, ft) ∈ filter (λ f : string * positive, capital f.1 = false) fields) as Hfl
      by (by apply list_elem_of_filter).
    unfold len in H. destruct (filter _ fields); [by apply not_elem_of_nil in Hfl|simpl in H; lia].
  - intros H t Hin. destruct (kindOf t) as [fields| | |] eqn:Hk; try done.
    destruct (filter _ fields) as [|[name ft] l] eqn:E; [done|exfalso].
    assert ((name, ft) ∈ filter (λ f : string * positive, capital f.1 = false) fields) as Hfl
      by (rewrite E; by left).
    apply list_elem_of_filter in Hfl as [Hc Hfl]. simpl in Hc. by rewrite (H t fields name ft) in Hc.
Qed.

(** C28. The package complains exactly when it should: whatever values a program encodes,
    registers and decodes, of whatever types, recursive ones included, the checks end.  They
    panic if and only if a basic variable at most three levels down in a variable decoded into
    is hidden by a field that is not exported.  Otherwise the types that are checked are those
    that the values are made of, and the error count stays zero if and only if no struct among
    these types has a field that does not begin with an upper-case letter, and every variable
    decoded into has its zero value down to the fields of the struct it points to. *)
Theorem labgob_reports univ fuel cs :
  closed_under univ → (size univ < fuel)%nat → (∀ c, c ∈ cs → call_type c ∈ univ) →
  (gob_run fuel init cs = Panic ∧ ¬ visible_variables cs) ∨
  ∃ st, gob_run fuel init cs = Ok st ∧ visible_variables cs ∧
    (∀ t, t ∈ checked st ↔ ∃ c, c ∈ cs ∧ reach (call_type c) t) ∧
    (errorCount st = 0 ↔
       (∀ t fields name ft, t ∈ checked st → kindOf t = Struct fields → (name, ft) ∈ fields →
          capital name = true) ∧ fresh_variables cs).
Proof.
  intros Hu Hf Ht.
  assert (H : gob_result ([] ++ (call_type <$> cs)) (visible_variables cs) (True ∧ fresh_variables cs)
    (gob_run fuel init cs)).
  { apply (gob_run_ok univ); try done. split; cbn [init checked errorCount];
      rewrite ?total_empty; [| | |lia|done]; intros t; intros; exfalso; set_solver. }
  destruct (gob_run fuel init cs) as [st| |]; cbn [gob_result] in H; [right|by left|done].
  destruct H as [Hv [Gi Gc Gr Gn Go]]. exists st. split_and!; [done|done| |].
  - intros t. split.
    + intros (r & (c & -> & Hc)%list_elem_of_fmap & Hp)%Gr. eauto.
    + intros (c & Hc & Hp). eapply rtc_closed; [exact Gc| |exact Hp]. apply Gi.
      by apply (list_elem_of_fmap_2 call_type).
  - rewrite <- total_lower_zero. split.
    + intros H0. assert (Hz : errorCount st = total lower (checked st)).
      { enough (0 ≤ total lower (checked st)) by lia. unfold total.
        induction (elements (checked st)); simpl; [lia|]. pose proof (lower_nonneg a). lia. }
      rewrite <- Hz. split; [done|]. by apply Go.
    + intros [H0 Hf']. rewrite <- H0. by apply Go.
Qed.
End labgob.

(** ** A list type: type 1 is a struct with a pointer (type 2) to itself. *)
Definition demo_kind (t : positive) : kind :=
  match t with
  | 1%positive => Struct [("Next", 2%positive); ("val", 3%positive)]
  | 2%positive => Elem 1
  | _ => OtherKind
  end.
Definition demo_upper (r : Z) : bool := (65 <=? r) && (r <=? 90).

(** A cyclic list of one element; [head] is a list that ends in it. *)
Definition head : gval := VStruct 1 [(("Next", false), VPtr 2 (Some 1%positive)); (("val", false), VBasic 3 true)].
Definition demo_heap (a : positive) : gval := head.

Lemma demo_closed : closed_under demo_kind {[1%positive; 2%positive; 3%positive]}.
Proof.
  intros t s Ht Hs. unfold component, succs in Hs.
  assert (t = 1 ∨ t = 2 ∨ t = 3)%positive as [->|[->| ->]] by set_solver; simpl in Hs; set_solver.
Qed.

(** Encoding it is reported; decoding into it panics, without a report. *)
Lemma labgob_reports_witness :
  (∃ st, gob_run demo_upper demo_kind (λ _, "T") demo_heap 5 init [CEncode head] = Ok st ∧
     3%positive ∈ checked st ∧ errorCount st ≠ 0) ∧
  ¬ visible_variables demo_upper demo_heap [CDecode (VPtr 2 (Some 1%positive))].
Proof.
  pose proof (labgob_reports demo_upper demo_kind (λ _, "T") demo_heap {[1%positive; 2%positive; 3%positive]} 5) as L.
  split.
  - destruct (L [CEncode head]) as [[H _]|(st & Hrun & _ & Hc & He)]; [exact demo_closed|vm_compute; lia| | |].
    + intros c ->%list_elem_of_singleton. vm_compute. reflexivity.
    + vm_compute in H. discriminate H.
    + exists st. split_and!; [exact Hrun| |].
      * apply Hc. exists (CEncode head). split; [by left|]. eapply rtc_l; [|constructor].
        unfold component. simpl. right. by left.
      * intros H0. apply He in H0 as [H0 _].
        assert (H1 : 1%positive ∈ checked st).
        { apply Hc. exists (CEncode head). split; [by left|constructor]. }
        specialize (H0 1%positive [("Next", 2%positive); ("val", 3%positive)] "val" 3%positive H1 eq_refl).
        assert (Hin : ("val", 3%positive) ∈ [("Next", 2%positive); ("val", 3%positive)]) by (right; left).
        specialize (H0 Hin). vm_compute in H0. discriminate H0.
  - destruct (L [CDecode (VPtr 2 (Some 1%positive))]) as [[_ H]|(st & Hrun & _)];
      [exact demo_closed|vm_compute; lia| |exact H|].
    + intros c ->%list_elem_of_singleton. vm_compute. reflexivity.
    + vm_compute in Hrun. discriminate Hrun.
Defined.
