(* ===== verification/RaftHarness.v ===== *)
(** * The test harness of Raft, [raft/config.go]: peers, ends and persisters.

    A configuration holds the network (file LabRpc) and the peers that run, with their
    persisters.  Peers are known by numbers in the order of their creation, and so are the
    servers they are registered under; [insts] holds all of them, since a crashed instance
    cannot be stopped.  A saved persister either belongs to an instance, which writes to it,
    or is a copy that nothing else can write to.  The names that [randstring] makes are
    inputs. *)

From S2P Require Import Prelude RaftState LabServer LabRpc.

Section harness.
Context {cmd : Type}.
Abbreviation Raft := (@Raft cmd).
Abbreviation Persister := (@Persister cmd).

Inductive saved_ref := POwn (ps : Persister) | PInst (a : nat).

Record config := MkConfig {
  net : Network;
  cfg_n : Z;
  rafts : list (option nat);
  connected : list bool;
  saved : list (option saved_ref);
  endnames : list (option (list string));
  logs : list (gmap Z Z);                (** copy of each server's committed entries *)
  maxIndex : Z;
  insts : list Raft;
}.

Definition set_net (rn : Network) (cfg : config) : config :=
  MkConfig rn (cfg_n cfg) (rafts cfg) (connected cfg) (saved cfg) (endnames cfg) (logs cfg) (maxIndex cfg) (insts cfg).
Definition set_rafts (l : list (option nat)) (cfg : config) : config :=
  MkConfig (net cfg) (cfg_n cfg) l (connected cfg) (saved cfg) (endnames cfg) (logs cfg) (maxIndex cfg) (insts cfg).
Definition set_connected (l : list bool) (cfg : config) : config :=
  MkConfig (net cfg) (cfg_n cfg) (rafts cfg) l (saved cfg) (endnames cfg) (logs cfg) (maxIndex cfg) (insts cfg).
Definition set_saved (l : list (option saved_ref)) (cfg : config) : config :=
  MkConfig (net cfg) (cfg_n cfg) (rafts cfg) (connected cfg) l (endnames cfg) (logs cfg) (maxIndex cfg) (insts cfg).
Definition set_endnames (l : list (option (list string))) (cfg : config) : config :=
  MkConfig (net cfg) (cfg_n cfg) (rafts cfg) (connected cfg) (saved cfg) l (logs cfg) (maxIndex cfg) (insts cfg).
Definition set_logs (l : list (gmap Z Z)) (m : Z) (cfg : config) : config :=
  MkConfig (net cfg) (cfg_n cfg) (rafts cfg) (connected cfg) (saved cfg) (endnames cfg) l m (insts cfg).
Definition set_insts (l : list Raft) (cfg : config) : config :=
  MkConfig (net cfg) (cfg_n cfg) (rafts cfg) (connected cfg) (saved cfg) (endnames cfg) (logs cfg) (maxIndex cfg) l.

(** ** Ends *)

(** [cfg.endnames[i][j]]; a nil slice has no elements. *)
Definition endname_at (eps : list (option (list string))) (i j : Z) : outcome string :=
  l ← must (zlookup eps i);
  must (zlookup (default [] l) j).

(** [cfg.endnames[i] != nil] *)
Definition has_ends (eps : list (option (list string))) (i : Z) : outcome bool :=
  l ← must (zlookup eps i);
  Ok (bool_decide (is_Some l)).

(** A loop that enables or disables the ends [name j] with [test j]. *)
Fixpoint enable_loop (test : Z → outcome bool) (name : Z → outcome string) (b : bool)
    (rn : Network) (js : list Z) : outcome Network :=
  match js with
  | [] => Ok rn
  | j :: js =>
      t ← test j;
      rn ← (if (t : bool) then endname ← name j; Ok (Enable rn endname b) else Ok rn);
      enable_loop test name b rn js
  end.

Definition connect (cfg : config) (i : Z) : outcome config :=
  c ← must (zinsert (connected cfg) i true);
  let js := seqZ 0 (cfg_n cfg) in
  let test j := must (zlookup c j) in
  rn ← enable_loop test (λ j, endname_at (endnames cfg) i j) true (net cfg) js;
  rn ← enable_loop test (λ j, endname_at (endnames cfg) j i) true rn js;
  Ok (set_net rn (set_connected c cfg)).

Definition disconnect (cfg : config) (i : Z) : outcome config :=
  c ← must (zinsert (connected cfg) i false);
  let js := seqZ 0 (cfg_n cfg) in
  rn ← enable_loop (λ _, has_ends (endnames cfg) i) (λ j, endname_at (endnames cfg) i j) false (net cfg) js;
  rn ← enable_loop (has_ends (endnames cfg)) (λ j, endname_at (endnames cfg) j i) false rn js;
  Ok (set_net rn (set_connected c cfg)).

(** ** Crashing and starting a peer *)

(** What a saved persister holds. *)
Definition read_saved (ins : list Raft) (p : saved_ref) : outcome Persister :=
  match p with
  | POwn ps => Ok ps
  | PInst a => rf ← must (ins !! a); Ok (persister rf)
  end.

(** The third part of [crash1]: the instance is killed. *)
Definition crash_kill (cfg : config) (i : Z) : outcome config :=
  rf ← must (zlookup (rafts cfg) i);
  match rf with
  | None => Ok cfg
  | Some a =>
      rf ← must (insts cfg !! a);
      l ← must (zinsert (rafts cfg) i None);
      Ok (set_rafts l (set_insts (<[a := Kill rf]> (insts cfg)) cfg))
  end.

(** [cfg.saved[i] = cfg.saved[i].Copy()], if there is one. *)
Definition copy_saved (cfg : config) (i : Z) : outcome config :=
  p ← must (zlookup (saved cfg) i);
  match p with
  | None => Ok cfg
  | Some p =>
      ps ← read_saved (insts cfg) p;
      l ← must (zinsert (saved cfg) i (Some (POwn (Copy ps))));
      Ok (set_saved l cfg)
  end.

(** The end of [crash1]: only the Raft state is kept, in a new persister. *)
Definition keep_raftstate (cfg : config) (i : Z) : outcome config :=
  p ← must (zlookup (saved cfg) i);
  match p with
  | None => Ok cfg
  | Some p =>
      ps ← read_saved (insts cfg) p;
      let raftlog := ReadRaftState ps in
      l ← must (zinsert (saved cfg) i (Some (POwn (SaveRaftState MakePersister raftlog))));
      Ok (set_saved l cfg)
  end.

Definition crash1 (cfg : config) (i : Z) : outcome config :=
  cfg ← disconnect cfg i;
  let cfg := set_net (DeleteServer (net cfg) (inl i)) cfg in
  cfg ← copy_saved cfg i;
  cfg ← crash_kill cfg i;
  keep_raftstate cfg i.

(** A fresh set of ends. *)
Fixpoint make_ends (names : Z → string) (rn : Network) (js : list Z) : outcome Network :=
  match js with
  | [] => Ok rn
  | j :: js =>
      rn ← MakeEnd rn (names j);
      make_ends names (Connect rn (names j) (inl j)) js
  end.

Definition start1 (cfg : config) (i : Z) (names : Z → string) : outcome config :=
  cfg ← crash1 cfg i;
  let js := seqZ 0 (cfg_n cfg) in
  eps ← must (zinsert (endnames cfg) i (Some (names <$> js)));
  rn ← make_ends names (net cfg) js;
  let cfg := set_net rn (set_endnames eps cfg) in
  p ← must (zlookup (saved cfg) i);
  ps ← (match p with Some p => ps ← read_saved (insts cfg) p; Ok (Copy ps) | None => Ok MakePersister end);
  rf ← Make (cfg_n cfg) i ps;
  let a := length (insts cfg) in
  sv ← must (zinsert (saved cfg) i (Some (PInst a)));
  rs ← must (zinsert (rafts cfg) i (Some a));
  let cfg := set_insts (insts cfg ++ [rf]) (set_saved sv (set_rafts rs cfg)) in
  Ok (set_net (AddServer (net cfg) (inl i) a) cfg).

Fixpoint start_all (names : Z → Z → string) (cfg : config) (js : list Z) : outcome config :=
  match js with [] => Ok cfg | i :: js => cfg ← start1 cfg i (names i); start_all names cfg js end.
Fixpoint connect_all (cfg : config) (js : list Z) : outcome config :=
  match js with [] => Ok cfg | i :: js => cfg ← connect cfg i; connect_all cfg js end.

(** [make([]T, n)] panics for a negative [n]. *)
Definition make_config (n : Z) (unreliable : bool) (names : Z → Z → string) : outcome config :=
  guard_go (0 <=? n);;
  let k := Z.to_nat n in
  let rn := LongDelays (Reliable MakeNetwork (negb unreliable)) true in
  let cfg := MkConfig rn n (replicate k None) (replicate k false) (replicate k None) (replicate k None)
               (replicate k ∅) 0 [] in
  cfg ← start_all names cfg (seqZ 0 n);
  connect_all cfg (seqZ 0 n).

Definition setunreliable (cfg : config) (unrel : bool) : config :=
  set_net (Reliable (net cfg) (negb unrel)) cfg.
Definition setlongreordering (cfg : config) (longrel : bool) : config :=
  set_net (LongReordering (net cfg) longrel) cfg.

(** [Kill] for every peer that runs. *)
Definition kill_all (rs : list (option nat)) (ins : list Raft) : list Raft :=
  foldl (λ ins r, match r with Some a => alter Kill a ins | None => ins end) ins rs.

Definition cleanup (cfg : config) : outcome config :=
  rn ← Cleanup (net cfg);
  Ok (set_net rn (set_insts (kill_all (rafts cfg) (insts cfg)) cfg)).

(** ** The reader of [applyCh] *)

Variable as_int : cmd → option Z.   (** [m.Command.(int)] *)

(** The last of the values that another server, or an earlier one, has at the index. *)
Definition other_value (ls : list (gmap Z Z)) (index v : Z) : bool :=
  existsb (λ l, match (l : gmap Z Z) !! index with Some old => negb (old =? v) | None => false end) ls.

(** A message on the channel of server [i]; an error ends the program. *)
Definition apply_msg (cfg : config) (i : Z) (m : @ApplyMsg cmd) : outcome config :=
  if negb (CommandValid m) then Ok cfg else
  match c ← ApplyCommand m; as_int c with
  | None => Panic
  | Some v =>
      let err := other_value (logs cfg) (CommandIndex m) v in
      l ← must (zlookup (logs cfg) i);
      let prevok := bool_decide (is_Some ((l : gmap Z Z) !! (CommandIndex m - 1))) in
      ls ← must (zinsert (logs cfg) i (<[CommandIndex m := v]> l));
      let mx := if maxIndex cfg <? CommandIndex m then CommandIndex m else maxIndex cfg in
      let err := err || ((1 <? CommandIndex m) && negb prevok) in
      if err then Panic else Ok (set_logs ls mx cfg)
  end.

(** ** What can happen to a configuration *)

(** [HRaft a rf]: the instance [a], crashed or not, goes on to the state [rf]. *)
Inductive hop :=
| HStart (i : Z) (names : Z → string) | HCrash (i : Z) | HConnect (i : Z) | HDisconnect (i : Z)
| HUnreliable (b : bool) | HReordering (b : bool) | HCleanup
| HApply (i : Z) (m : @ApplyMsg cmd) | HRaft (a : nat) (rf : Raft) | HRequest.

Definition hstep (cfg : config) (o : hop) : outcome config :=
  match o with
  | HStart i names => start1 cfg i names
  | HCrash i => crash1 cfg i
  | HConnect i => connect cfg i
  | HDisconnect i => disconnect cfg i
  | HUnreliable b => Ok (setunreliable cfg b)
  | HReordering b => Ok (setlongreordering cfg b)
  | HCleanup => cleanup cfg
  | HApply i m => apply_msg cfg i m
  | HRaft a rf => Ok (set_insts (<[a := rf]> (insts cfg)) cfg)
  | HRequest => Ok (set_net (count_req (net cfg)) cfg)
  end.

(** The configurations of a test. *)
Inductive reachable (n : Z) : config → Prop :=
| reach_make unreliable names cfg : make_config n unreliable names = Ok cfg → reachable n cfg
| reach_step cfg o cfg' : reachable n cfg → hstep cfg o = Ok cfg' → reachable n cfg'.

(** ** Loops over ends *)

Definition is_on (rn : Network) (e : string) : Prop := enabled rn !! e = Some true.

(** Networks that differ in what is enabled only. *)
Definition same_but_enabled (rn rn' : Network) : Prop :=
  rn' = MkNet (reliable rn) (longDelays rn) (longReordering rn) (ends rn) (enabled rn') (servers rn)
          (connections rn) (net_done rn) (net_count rn).

Lemma same_but_enabled_refl rn : same_but_enabled rn rn.
Proof. by destruct rn. Qed.
Lemma same_but_enabled_trans rn1 rn2 rn3 :
  same_but_enabled rn1 rn2 → same_but_enabled rn2 rn3 → same_but_enabled rn1 rn3.
Proof. unfold same_but_enabled. intros H1 H2. rewrite H1 in H2. exact H2. Qed.

Lemma is_on_Enable rn e b e' : is_on (Enable rn e b) e' ↔ if decide (e = e') then b = true else is_on rn e'.
Proof.
  unfold is_on, Enable. simpl. destruct (decide (e = e')) as [->|Hne].
  - rewrite lookup_insert_eq. split; [by intros [= ->]|by intros ->].
  - by rewrite lookup_insert_ne.
Qed.

(** The ends that a loop names. *)
Definition named (test : Z → outcome bool) (name : Z → outcome string) (js : list Z) (e : string) : Prop :=
  ∃ j, j ∈ js ∧ test j = Ok true ∧ name j = Ok e.

Lemma named_cons test name j js e :
  named test name (j :: js) e ↔ (test j = Ok true ∧ name j = Ok e) ∨ named test name js e.
Proof.
  unfold named. split.
  - intros (k & [->|Hk]%elem_of_cons & Ht & Hn); [by left|right; eauto].
  - intros [[Ht Hn]|(k & Hk & Ht & Hn)]; [exists j|exists k]; (split; [|done]); [by left|by right].
Qed.

Lemma enable_loop_spec test name b rn js rn' :
  enable_loop test name b rn js = Ok rn' →
  same_but_enabled rn rn' ∧
  ∀ e, is_on rn' e ↔ if b then is_on rn e ∨ named test name js e
                     else is_on rn e ∧ ¬ named test name js e.
Proof.
  revert rn. induction js as [|j js IH]; cbn [enable_loop]; intros rn H.
  { injection H as <-. split; [apply same_but_enabled_refl|]. intros e.
    assert (¬ named test name [] e) by (intros (j & Hj & _); by apply not_elem_of_nil in Hj).
    destruct b; tauto. }
  apply bind_Ok in H as (t & Ht & H). apply bind_Ok in H as (rn1 & H1 & H).
  destruct (IH rn1 H) as [Hs He]. destruct t.
  - apply bind_Ok in H1 as (e1 & Hn & [= <-]). split; [by eapply same_but_enabled_trans; [|exact Hs]|].
    intros e. specialize (He e). pose proof (is_on_Enable rn e1 b e) as Hon.
    assert (Hne : e1 ≠ e → name j ≠ Ok e) by congruence.
    destruct (decide (e1 = e)) as [->|?]; destruct b; rewrite He, Hon, named_cons; try tauto.
    split; [by intros [? _]|tauto].
  - injection H1 as <-. split; [done|]. intros e. specialize (He e).
    assert (test j ≠ Ok true) by congruence. destruct b; rewrite He, named_cons; tauto.
Qed.

(** ** The invariant of the network *)

(** [e] is the name of the end of [i] to [j]. *)
Definition cur (cfg : config) (i j : Z) (e : string) : Prop := endname_at (endnames cfg) i j = Ok e.

(** Server [i] is on the net. *)
Definition on_net (cfg : config) (i : Z) : Prop := zlookup (connected cfg) i = Some true.

Record hinv (n : Z) (cfg : config) : Prop := {
  hi_n : cfg_n cfg = n;
  hi_rows : len (endnames cfg) = n ∧ ∀ i l, zlookup (endnames cfg) i = Some (Some l) → len l = n;
  hi_inj : ∀ i j i' j' e, cur cfg i j e → cur cfg i' j' e → i = i' ∧ j = j';
  hi_ends : ∀ i j e, cur cfg i j e → e ∈ ends (net cfg);
  hi_enabled : ∀ e, is_on (net cfg) e ↔ ∃ i j, cur cfg i j e ∧ on_net cfg i ∧ on_net cfg j;
  hi_conn : ∀ i j e, cur cfg i j e → connections (net cfg) !! e = Some (Some (inl j));
  hi_servers : ∀ i r, zlookup (rafts cfg) i = Some r → default None (servers (net cfg) !! inl i) = r;
  hi_insts : ∀ i a, zlookup (rafts cfg) i = Some (Some a) → (a < length (insts cfg))%nat;
  hi_len : len (rafts cfg) = n;
  hi_logs : len (logs cfg) = n;
}.

Lemma cur_range n cfg i j e : hinv n cfg → cur cfg i j e → 0 ≤ i < n ∧ 0 ≤ j < n.
Proof.
  intros Hi H. unfold cur, endname_at in H. apply bind_Ok in H as (l & Hl%must_Ok & H%must_Ok).
  pose proof (zlookup_Some_lt _ _ _ Hl). pose proof (zlookup_Some_lt _ _ _ H).
  destruct (hi_rows _ _ Hi) as [Hlen Hrow]. destruct l as [l|]; simpl in *.
  - rewrite (Hrow i l Hl) in *. lia.
  - unfold len in *. simpl in *. lia.
Qed.

Lemma connect_inv n cfg i cfg' : hinv n cfg → connect cfg i = Ok cfg' → hinv n cfg'.
Proof.
  intros Hi H. unfold connect in H. apply bind_Ok in H as (c & Hc%must_Ok & H).
  apply bind_Ok in H as (rn1 & H1 & H). apply bind_Ok in H as (rn2 & H2 & [= <-]).
  apply enable_loop_spec in H1 as [S1 E1], H2 as [S2 E2].
  pose proof (same_but_enabled_trans _ _ _ S1 S2) as S. pose proof Hi as Hi0.
  destruct Hi as [Hn Hrows Hinj Hends Hen Hconn Hsrv Hins Hrlen Hllen].
  assert (Hon : ∀ j, zlookup c j = Some true ↔ j = i ∨ on_net cfg j).
  { intros j. rewrite (zlookup_zinsert _ _ _ _ j Hc). unfold on_net. destruct (decide (j = i)); tauto. }
  split; unfold set_net, set_connected, cur, on_net in *; cbn [net cfg_n endnames connected rafts insts] in *;
    try done; try (rewrite S; done).
  intros e. rewrite E2, E1, Hen. unfold named. setoid_rewrite must_Ok. rewrite Hn. split.
  - intros [[(i' & j' & He & Hi' & Hj')|(j & Hj & Hcj & He)]|(j & Hj & Hcj & He)].
    + exists i', j'. split; [done|]. rewrite !Hon. auto.
    + exists i, j. split; [done|]. rewrite !Hon in *. auto.
    + exists j, i. split; [done|]. rewrite !Hon in *. auto.
  - intros (i' & j' & He & Hi' & Hj'). destruct (cur_range n cfg i' j' e Hi0 He) as [Ri Rj].
    destruct (decide (i' = i)) as [->|Hne].
    + left. right. exists j'. split; [apply elem_of_seqZ; lia|]. done.
    + destruct (decide (j' = i)) as [->|Hne'].
      * right. exists i'. split; [apply elem_of_seqZ; lia|done].
      * left. left. exists i', j'. rewrite Hon in Hi', Hj'. naive_solver.
Qed.

Lemma disconnect_inv n cfg i cfg' :
  hinv n cfg → disconnect cfg i = Ok cfg' →
  hinv n cfg' ∧ ¬ on_net cfg' i ∧ 
  cfg' = set_net (net cfg') (set_connected (connected cfg') cfg) ∧ same_but_enabled (net cfg) (net cfg').
Proof.
  intros Hi H. unfold disconnect in H. apply bind_Ok in H as (c & Hc%must_Ok & H).
  apply bind_Ok in H as (rn1 & H1 & H). apply bind_Ok in H as (rn2 & H2 & [= <-]).
  apply enable_loop_spec in H1 as [S1 E1], H2 as [S2 E2].
  pose proof (same_but_enabled_trans _ _ _ S1 S2) as S. pose proof Hi as Hi0.
  destruct Hi as [Hn Hrows Hinj Hends Hen Hconn Hsrv Hins Hrlen Hllen].
  assert (Hon : ∀ j, zlookup c j = Some true ↔ j ≠ i ∧ on_net cfg j).
  { intros j. rewrite (zlookup_zinsert _ _ _ _ j Hc). unfold on_net.
    destruct (decide (j = i)) as [->|]; [|tauto]. split; [done|]. by intros [? _]. }
  assert (Hoff : ¬ zlookup c i = Some true) by (rewrite Hon; tauto).
  split_and!; [|done|done|done].
  assert (Hhas : ∀ i j e, cur cfg i j e → has_ends (endnames cfg) i = Ok true).
  { intros i' j' e He. unfold cur, endname_at, has_ends in *.
    apply bind_Ok in He as (l & Hl%must_Ok & He%must_Ok). rewrite Hl. simpl.
    destruct l; [done|]. apply zlookup_Some_lt in He. unfold len in He. simpl in He. lia. }
  split; unfold set_net, set_connected, on_net in *; cbn [net cfg_n endnames connected rafts insts] in *;
    try done; try (rewrite S; done).
  intros e. rewrite E2, E1, Hen. unfold named. rewrite Hn. split.
  - intros [[(i' & j' & He & Hi' & Hj') H1] H2]. exists i', j'. split; [done|]. rewrite !Hon.
    destruct (cur_range n cfg i' j' e Hi0 He) as [Ri Rj]. split; (split; [|done]); intros ->.
    + apply H1. exists j'. split_and!; [apply elem_of_seqZ; lia|by eapply Hhas|done].
    + apply H2. exists i'. split_and!; [apply elem_of_seqZ; lia|by eapply Hhas|done].
  - intros (i' & j' & He & Hi' & Hj'). rewrite Hon in Hi', Hj'. split; [split|].
    + exists i', j'. naive_solver.
    + intros (j & _ & _ & He'). destruct (Hinj _ _ _ _ _ He He') as [? _]. naive_solver.
    + intros (j & _ & _ & He'). destruct (Hinj _ _ _ _ _ He He') as [_ ?]. naive_solver.
Qed.

(** ** Crashing and starting *)

Lemma copy_saved_spec cfg i cfg' :
  copy_saved cfg i = Ok cfg' →
  ∃ sv, cfg' = set_saved sv cfg ∧
    match zlookup (saved cfg) i with
    | Some (Some p) => ∃ ps, read_saved (insts cfg) p = Ok ps ∧ zlookup sv i = Some (Some (POwn ps))
    | r => zlookup sv i = r
    end.
Proof.
  unfold copy_saved. intros H. apply bind_Ok in H as (p & Hp%must_Ok & H). rewrite Hp.
  destruct p as [p|].
  - apply bind_Ok in H as (ps & Hps & H). apply bind_Ok in H as (l & Hl%must_Ok & [= <-]).
    exists l. split; [done|]. exists ps. split; [done|].
    rewrite (zlookup_zinsert _ _ _ _ i Hl), decide_True by done. by destruct ps.
  - injection H as <-. exists (saved cfg). by destruct cfg.
Qed.

Lemma keep_raftstate_spec cfg i cfg' :
  keep_raftstate cfg i = Ok cfg' →
  ∃ sv, cfg' = set_saved sv cfg ∧
    match zlookup (saved cfg) i with
    | Some (Some p) => ∃ ps, read_saved (insts cfg) p = Ok ps ∧
        zlookup sv i = Some (Some (POwn (MkPersister (raftstate ps) [])))
    | r => zlookup sv i = r
    end.
Proof.
  unfold keep_raftstate. intros H. apply bind_Ok in H as (p & Hp%must_Ok & H). rewrite Hp.
  destruct p as [p|].
  - apply bind_Ok in H as (ps & Hps & H). apply bind_Ok in H as (l & Hl%must_Ok & [= <-]).
    exists l. split; [done|]. exists ps. split; [done|].
    by rewrite (zlookup_zinsert _ _ _ _ i Hl), decide_True by done.
  - injection H as <-. exists (saved cfg). by destruct cfg.
Qed.

Lemma crash_kill_spec cfg i cfg' :
  crash_kill cfg i = Ok cfg' →
  ∃ rs ins, cfg' = set_rafts rs (set_insts ins cfg) ∧ length ins = length (insts cfg) ∧
    len rs = len (rafts cfg) ∧ ∀ j, zlookup rs j = if decide (j = i) then Some None else zlookup (rafts cfg) j.
Proof.
  unfold crash_kill. intros H. apply bind_Ok in H as (r & Hr%must_Ok & H). destruct r as [a|].
  - apply bind_Ok in H as (rf & Hrf%must_Ok & H). apply bind_Ok in H as (l & Hl%must_Ok & [= <-]).
    eexists l, _. split; [done|]. split; [by rewrite length_insert|].
    split; [by eapply len_zinsert|]. intros j. by apply zlookup_zinsert.
  - injection H as <-. exists (rafts cfg), (insts cfg). split; [by destruct cfg|]. split_and!; [done|done|].
    intros j. by destruct (decide (j = i)) as [->|].
Qed.

(** What [crash1] leaves: peer [i] is off the net and does not run, and what is saved of it
    is the Raft state it had persisted, without the snapshot. *)
Record crashed (cfg : config) (i : Z) (cfg' : config) : Prop := {
  cr_off : ¬ on_net cfg' i;
  cr_raft : zlookup (rafts cfg') i = Some None;
  cr_saved : match zlookup (saved cfg) i with
    | Some (Some p) => ∃ ps, read_saved (insts cfg) p = Ok ps ∧
        zlookup (saved cfg') i = Some (Some (POwn (MkPersister (raftstate ps) [])))
    | r => zlookup (saved cfg') i = r
    end;
  cr_ends : endnames cfg' = endnames cfg ∧ ends (net cfg') = ends (net cfg);
  cr_insts : length (insts cfg') = length (insts cfg);
  cr_logs : logs cfg' = logs cfg ∧ maxIndex cfg' = maxIndex cfg;
}.

Lemma crash1_spec n cfg i cfg' :
  hinv n cfg → crash1 cfg i = Ok cfg' → hinv n cfg' ∧ crashed cfg i cfg'.
Proof.
  intros Hi H. unfold crash1 in H. apply bind_Ok in H as (cfg1 & H1 & H).
  apply (disconnect_inv n) in H1 as (Hi1 & Hoff & E1 & S1); [|done].
  apply bind_Ok in H as (cfg2 & (sv & -> & Hsv)%copy_saved_spec & H).
  apply bind_Ok in H as (cfg3 & (rs & ins & -> & Hlen & Hrlen' & Hrs)%crash_kill_spec & H).
  apply keep_raftstate_spec in H as (sv' & -> & Hsv').
  destruct Hi1 as [Hn Hrows Hinj Hends Hen Hconn Hsrv Hins Hrlen Hllen]. split.
  - split; unfold set_net, set_saved, set_rafts, set_insts, cur, on_net in *;
      cbn [net cfg_n endnames connected rafts insts saved] in *; try done.
    + intros j r. rewrite Hrs. cbn [DeleteServer set_servers servers]. destruct (decide (j = i)) as [->|Hne].
      * intros [= <-]. by rewrite lookup_insert_eq.
      * intros Hr. rewrite lookup_insert_ne by congruence. by apply Hsrv.
    + intros j a. rewrite Hrs, Hlen. destruct (decide (j = i)) as [->|Hne]; [done|apply Hins].
    + congruence.
  - split; unfold set_net, set_saved, set_rafts, set_insts, on_net in *;
      cbn [net cfg_n endnames connected rafts insts saved logs maxIndex] in *.
    + done.
    + rewrite Hrs. by rewrite decide_True.
    + rewrite E1 in Hsv. unfold set_net, set_connected in Hsv. cbn [saved insts] in Hsv.
      destruct (zlookup (saved cfg) i) as [[p|]|].
      * destruct Hsv as (ps & Hps & Hsv). rewrite Hsv in Hsv'. destruct Hsv' as (ps' & [= <-] & Hsv'). eauto.
      * by rewrite Hsv in Hsv'.
      * by rewrite Hsv in Hsv'.
    + rewrite E1. split; [done|]. simpl. by rewrite S1.
    + by rewrite Hlen, E1.
    + by rewrite E1.
Qed.

(** The ends that are made are new and different, disabled, and lead to the servers. *)
Lemma make_ends_spec names rn js rn' :
  make_ends names rn js = Ok rn' →
  (∀ j, j ∈ js → names j ∉ ends rn) ∧ NoDup (names <$> js) ∧
  (∀ e, e ∈ ends rn' ↔ e ∈ ends rn ∨ e ∈ names <$> js) ∧
  (∀ e, is_on rn' e ↔ is_on rn e ∧ e ∉ names <$> js) ∧
  (∀ j, j ∈ js → connections rn' !! names j = Some (Some (inl j))) ∧
  (∀ e, e ∉ names <$> js → connections rn' !! e = connections rn !! e) ∧
  servers rn' = servers rn.
Proof.
  revert rn. induction js as [|j js IH]; cbn [make_ends]; intros rn H.
  { injection H as <-. split_and!; try done; [|constructor|..]; set_solver. }
  apply bind_Ok in H as (rn1 & H1 & H). unfold MakeEnd in H1.
  destruct (decide (names j ∈ ends rn)) as [|Hfresh]; [done|]. injection H1 as <-.
  apply IH in H as (Hf & Hnd & He & Hon & Hc & Hc' & Hs). unfold Connect in *.
  cbn [ends connections servers] in *.
  assert (Hj : names j ∉ names <$> js).
  { intros (k & Heq & Hk)%list_elem_of_fmap. apply (Hf k Hk). rewrite <- Heq. set_solver. }
  split_and!.
  - intros k [->|Hk]%elem_of_cons; [done|]. specialize (Hf k Hk). set_solver.
  - by constructor.
  - intros e. rewrite He, fmap_cons. set_solver.
  - intros e. rewrite Hon, fmap_cons, not_elem_of_cons. unfold is_on. cbn [enabled].
    destruct (decide (e = names j)) as [->|Hne]; [rewrite lookup_insert_eq|rewrite lookup_insert_ne by done].
    + split; [by intros [? _]|tauto].
    + tauto.
  - intros k [->|Hk]%elem_of_cons; [|by apply Hc]. rewrite Hc' by done. by rewrite lookup_insert_eq.
  - intros e. rewrite fmap_cons, not_elem_of_cons. intros [Hne He']. rewrite Hc' by done.
    by rewrite !lookup_insert_ne by done.
  - done.
Qed.

(** The ends of peer [i] are replaced, the others stay. *)
Lemma cur_new eps eps' i names n i' j e :
  zinsert eps i (Some (names <$> seqZ 0 n)) = Some eps' →
  endname_at eps' i' j = Ok e ↔
    if decide (i' = i) then 0 ≤ j < n ∧ e = names j else endname_at eps i' j = Ok e.
Proof.
  intros H. unfold endname_at. rewrite (zlookup_zinsert _ _ _ _ i' H).
  destruct (decide (i' = i)) as [->|]; [|done]. simpl.
  rewrite must_Ok. unfold zlookup. case_decide; [|split; [done|lia]].
  rewrite list_lookup_fmap, fmap_Some. setoid_rewrite lookup_seqZ. split.
  - intros (k & [-> Hk] & ->). split; [lia|]. f_equal. lia.
  - intros [Hj ->]. exists j. split; [lia|done].
Qed.

(** The first part of [start1]: fresh ends. *)
Lemma fresh_ends_inv n cfg i names eps rn :
  hinv n cfg → ¬ on_net cfg i → zinsert (endnames cfg) i (Some (names <$> seqZ 0 n)) = Some eps →
  make_ends names (net cfg) (seqZ 0 n) = Ok rn → hinv n (set_net rn (set_endnames eps cfg)).
Proof.
  intros Hi Hoff Heps Hrn. pose proof Heps as Hrange. apply zinsert_Some in Hrange as [Hrange _].
  apply make_ends_spec in Hrn as (Hf & Hnd & Hends' & Hon' & Hc & Hc' & Hs).
  assert (Hcur : ∀ i' j e, cur (set_net rn (set_endnames eps cfg)) i' j e ↔
    if decide (i' = i) then 0 ≤ j < n ∧ e = names j else cur cfg i' j e).
  { intros i' j e. by apply cur_new. }
  assert (Hnames : ∀ e, e ∈ names <$> seqZ 0 n ↔ ∃ j, 0 ≤ j < n ∧ e = names j).
  { intros e. rewrite list_elem_of_fmap. setoid_rewrite elem_of_seqZ. split; intros (j & H1 & H2); exists j; split; auto; lia. }
  assert (Hold : ∀ i' j e, cur cfg i' j e → e ∉ names <$> seqZ 0 n).
  { intros i' j e He%(hi_ends _ _ Hi) (k & -> & Hk)%list_elem_of_fmap. by apply (Hf k Hk). }
  assert (Hinj : ∀ j j', 0 ≤ j < n → 0 ≤ j' < n → names j = names j' → j = j').
  { intros j j' Hj Hj'. apply (NoDup_fmap_inj names _ _ _ Hnd); apply elem_of_seqZ; lia. }
  assert (Hnew : ∀ j, 0 ≤ j < n → names j ∈ names <$> seqZ 0 n) by (intros; apply Hnames; eauto).
  destruct Hi as [Hn Hrows Hinj0 Hends Hen Hconn Hsrv Hins Hrlen Hllen]. split.
  - done.
  - cbn [endnames set_net set_endnames]. split; [by rewrite (len_zinsert _ _ _ _ Heps); apply Hrows|].
    intros k l. rewrite (zlookup_zinsert _ _ _ _ k Heps). destruct (decide (k = i)); [|apply Hrows].
    intros [= <-]. unfold len. rewrite length_fmap, length_seqZ. destruct Hrows as [Hl _]. lia.
  - intros i1 j1 i2 j2 e. rewrite !Hcur.
    destruct (decide (i1 = i)) as [->|], (decide (i2 = i)) as [->|].
    + intros [H1 ->] [H2 E]. auto.
    + intros [H1 ->] H2%Hold. by destruct H2; apply Hnew.
    + intros H1%Hold [H2 ->]. by destruct H1; apply Hnew.
    + apply Hinj0.
  - intros i1 j1 e. rewrite Hcur. cbn [net set_net]. rewrite Hends'.
    destruct (decide (i1 = i)); [intros [H1 ->]; right; by apply Hnew|intros H1; left; by eapply Hends].
  - intros e. cbn [net set_net]. rewrite Hon', Hen. setoid_rewrite Hcur. unfold on_net in *.
    cbn [set_net set_endnames connected]. split.
    + intros [(i1 & j1 & H1 & H2 & H3) _]. exists i1, j1. split_and!; [|done|done].
      rewrite decide_False; [done|]. by intros ->.
    + intros (i1 & j1 & H1 & H2 & H3). destruct (decide (i1 = i)) as [->|]; [done|].
      split; [by exists i1, j1|by eapply Hold].
  - intros i1 j1 e. rewrite Hcur. cbn [net set_net].
    destruct (decide (i1 = i)) as [->|].
    + intros [H1 ->]. apply Hc, elem_of_seqZ. lia.
    + intros H1. rewrite Hc' by (by eapply Hold). by eapply Hconn.
  - cbn [net set_net rafts set_endnames]. rewrite Hs. exact Hsrv.
  - exact Hins.
  - exact Hrlen.
  - exact Hllen.
Qed.

(** What [start1] makes: a new instance, with the persister that is saved from now on. *)
Record started (cfg : config) (i : Z) (cfg' : config) : Prop := {
  st_inst : ∃ ps rf, zlookup (rafts cfg') i = Some (Some (length (insts cfg))) ∧
    insts cfg' !! length (insts cfg) = Some rf ∧
    zlookup (saved cfg') i = Some (Some (PInst (length (insts cfg)))) ∧
    Make (cfg_n cfg') i ps = Ok rf ∧
    match zlookup (saved cfg) i with
    | Some (Some p) => ∃ old, read_saved (insts cfg) p = Ok old ∧ ps = MkPersister (raftstate old) []
    | _ => ps = MakePersister
    end;
  st_logs : logs cfg' = logs cfg ∧ maxIndex cfg' = maxIndex cfg;
}.

Lemma new_raft_inv n cfg i rs sv rf :
  hinv n cfg → zinsert (rafts cfg) i (Some (length (insts cfg))) = Some rs →
  let cfg' := set_insts (insts cfg ++ [rf]) (set_saved sv (set_rafts rs cfg)) in
  hinv n (set_net (AddServer (net cfg') (inl i) (length (insts cfg))) cfg').
Proof.
  intros [Hn Hrows Hinj Hends Hen Hconn Hsrv Hins Hrlen Hllen] Hrs. simpl.
  split; unfold set_net, set_insts, set_saved, set_rafts, cur, on_net in *;
    cbn [net cfg_n endnames connected rafts insts AddServer set_servers servers] in *; try done.
  - intros j r. rewrite (zlookup_zinsert _ _ _ _ j Hrs). destruct (decide (j = i)) as [->|].
    + intros [= <-]. by rewrite lookup_insert_eq.
    + rewrite lookup_insert_ne by congruence. apply Hsrv.
  - intros j a. rewrite (zlookup_zinsert _ _ _ _ j Hrs), length_app. simpl.
    destruct (decide (j = i)); [intros [= <-]; lia|]. intros Hr%Hins. lia.
  - by rewrite (len_zinsert _ _ _ _ Hrs).
Qed.

Lemma start1_spec n cfg i names cfg' :
  hinv n cfg → start1 cfg i names = Ok cfg' → hinv n cfg' ∧ started cfg i cfg'.
Proof.
  intros Hi H. unfold start1 in H. apply bind_Ok in H as (cfg1 & H1 & H).
  apply (crash1_spec n) in H1 as [Hi1 [Hoff Hraft Hsaved Hends Hins Hlogs]]; [|done].
  apply bind_Ok in H as (eps & Heps%must_Ok & H). apply bind_Ok in H as (rn & Hrn & H).
  rewrite (hi_n _ _ Hi1) in *.
  pose proof (fresh_ends_inv n cfg1 i names eps rn Hi1 Hoff Heps Hrn) as Hi2.
  set (cfg2 := set_net rn (set_endnames eps cfg1)) in *.
  assert (Hsv2 : saved cfg2 = saved cfg1) by done. assert (Hin2 : insts cfg2 = insts cfg1) by done.
  assert (Hn2 : cfg_n cfg2 = n) by apply Hi2. assert (Hl2 : logs cfg2 = logs cfg1 ∧ maxIndex cfg2 = maxIndex cfg1) by done.
  clearbody cfg2. apply bind_Ok in H as (p & Hp%must_Ok & H). apply bind_Ok in H as (ps & Hps & H).
  apply bind_Ok in H as (rf & Hrf & H). apply bind_Ok in H as (sv & Hsv%must_Ok & H).
  apply bind_Ok in H as (rs & Hrs%must_Ok & [= <-]).
  split; [by apply new_raft_inv|].
  assert (Hk : length (insts cfg2) = length (insts cfg)) by congruence. rewrite Hk in *. split.
  - exists ps, rf. unfold set_net, set_insts, set_saved, set_rafts. cbn [rafts insts saved cfg_n].
    rewrite (zlookup_zinsert _ _ _ _ i Hrs), (zlookup_zinsert _ _ _ _ i Hsv), !decide_True by done.
    assert (Hlast : (insts cfg2 ++ [rf]) !! length (insts cfg) = Some rf).
    { by rewrite <- Hk, lookup_app_r, Nat.sub_diag by lia. }
    split_and!; [done|exact Hlast|done|done|].
    rewrite Hsv2 in Hp. rewrite Hp in Hsaved. destruct (zlookup (saved cfg) i) as [[p0|]|].
    + destruct Hsaved as (old & Hold & [= ->]). exists old. split; [done|]. by injection Hps as <-.
    + injection Hsaved as ->. by injection Hps as <-.
    + done.
  - cbn. destruct Hl2 as [-> ->]. exact Hlogs.
Qed.

(** ** The committed entries *)

(** The copies of the committed entries agree, have no gaps, and end at [maxIndex]. *)
Record linv (cfg : config) : Prop := {
  li_agree : ∀ i j l l' idx v w, zlookup (logs cfg) i = Some l → zlookup (logs cfg) j = Some l' →
    l !! idx = Some v → l' !! idx = Some w → v = w;
  li_gapless : ∀ i l idx v, zlookup (logs cfg) i = Some l → l !! idx = Some v → 1 < idx →
    is_Some (l !! (idx - 1));
  li_max : ∀ i l idx v, zlookup (logs cfg) i = Some l → l !! idx = Some v → idx ≤ maxIndex cfg;
}.

Lemma linv_logs cfg cfg' :
  logs cfg' = logs cfg ∧ maxIndex cfg' = maxIndex cfg → linv cfg → linv cfg'.
Proof. intros [El Em] [A G M]. split; rewrite ?El, ?Em; assumption. Qed.

Lemma other_value_false ls index v :
  other_value ls index v = false → ∀ i l old, zlookup ls i = Some l → l !! index = Some old → old = v.
Proof.
  unfold other_value. intros H i l old Hl Ho.
  destruct (Z.eqb_spec old v) as [|Hne]; [done|exfalso].
  assert (l ∈ ls) as Hin.
  { unfold zlookup in Hl. case_decide; [|done]. by eapply list_elem_of_lookup_2. }
  assert (existsb (λ l : gmap Z Z, match l !! index with Some old => negb (old =? v) | None => false end) ls = true)
    as He; [|by rewrite He in H].
  apply existsb_exists. exists l. split; [by apply list_elem_of_In|]. rewrite Ho.
  apply negb_true_iff. by apply Z.eqb_neq.
Qed.

Lemma apply_msg_inv cfg i m cfg' :
  linv cfg → apply_msg cfg i m = Ok cfg' →
  linv cfg' ∧ ∃ ls mx, cfg' = set_logs ls mx cfg ∧ len ls = len (logs cfg).
Proof.
  intros [A G M] H. unfold apply_msg in H. destruct (negb (CommandValid m)).
  { injection H as <-. split; [by split|]. exists (logs cfg), (maxIndex cfg). by destruct cfg. }
  destruct (ApplyCommand m ≫= as_int) as [v|]; [|done].
  apply bind_Ok in H as (l & Hl%must_Ok & H). apply bind_Ok in H as (ls & Hls%must_Ok & H).
  destruct (_ || _) eqn:Herr; [done|]. injection H as <-. apply orb_false_iff in Herr as [Hval Hgap].
  assert (Hout : ∀ j l' idx w, zlookup ls j = Some l' → l' !! idx = Some w →
    (idx = CommandIndex m ∧ w = v) ∨ ∃ l0, zlookup (logs cfg) j = Some l0 ∧ l0 !! idx = Some w).
  { intros j l' idx w. rewrite (zlookup_zinsert _ _ _ _ j Hls). destruct (decide (j = i)) as [->|].
    - intros [= <-] Hw. destruct (decide (idx = CommandIndex m)) as [->|].
      + rewrite lookup_insert_eq in Hw. left. by injection Hw as <-.
      + rewrite lookup_insert_ne in Hw by done. eauto.
    - eauto. }
  split; [|exists ls, (if maxIndex cfg <? CommandIndex m then CommandIndex m else maxIndex cfg);
    split; [done|]; by eapply len_zinsert].
  split; cbn [logs maxIndex set_logs].
  - intros j k l1 l2 idx w1 w2 H1 H2 Hw1 Hw2.
    destruct (Hout _ _ _ _ H1 Hw1) as [[-> ->]|(l1' & H1' & Hw1')], (Hout _ _ _ _ H2 Hw2) as [[E ->]|(l2' & H2' & Hw2')].
    + done.
    + symmetry. by eapply other_value_false.
    + subst. by eapply other_value_false.
    + by eapply (A j k).
  - intros j l1 idx w. rewrite (zlookup_zinsert _ _ _ _ j Hls). destruct (decide (j = i)) as [->|].
    + intros [= <-] Hw Hidx. destruct (decide (idx - 1 = CommandIndex m)) as [->|].
      { rewrite lookup_insert_eq. eauto. }
      rewrite lookup_insert_ne by done. destruct (decide (idx = CommandIndex m)) as [->|].
      * apply andb_false_iff in Hgap as [Hgap|Hgap]; [go_bools; lia|]. by go_bools.
      * rewrite lookup_insert_ne in Hw by done. eauto.
    + eauto.
  - intros j l1 idx w Hl1 Hw. destruct (Hout _ _ _ _ Hl1 Hw) as [[-> _]|(l0 & Hl0 & Hw0)].
    + destruct (maxIndex cfg <? CommandIndex m) eqn:E; go_bools; lia.
    + specialize (M _ _ _ _ Hl0 Hw0). destruct (maxIndex cfg <? CommandIndex m) eqn:E; go_bools; lia.
Qed.

(** ** Every configuration of a test *)

Definition cinv (n : Z) (cfg : config) : Prop := hinv n cfg ∧ linv cfg.

Lemma same_net_inv n cfg cfg' :
  hinv n cfg → net cfg' = net cfg → cfg_n cfg' = cfg_n cfg → rafts cfg' = rafts cfg →
  connected cfg' = connected cfg → endnames cfg' = endnames cfg →
  length (insts cfg') = length (insts cfg) → len (logs cfg') = len (logs cfg) → hinv n cfg'.
Proof.
  intros [Hn Hrows Hinj Hends Hen Hconn Hsrv Hins Hrlen Hllen] E1 E2 E3 E4 E5 E6 E7.
  split; unfold cur, on_net in *; rewrite ?E1, ?E2, ?E3, ?E4, ?E5, ?E6, ?E7; assumption.
Qed.

Lemma same_ends_inv n cfg rn :
  hinv n cfg → ends rn = ends (net cfg) → enabled rn = enabled (net cfg) →
  servers rn = servers (net cfg) → connections rn = connections (net cfg) → hinv n (set_net rn cfg).
Proof.
  intros [Hn Hrows Hinj Hends Hen Hconn Hsrv Hins Hrlen Hllen] E1 E2 E3 E4.
  split; unfold cur, on_net, is_on, set_net in *; cbn [net cfg_n rafts connected endnames insts];
    rewrite ?E1, ?E2, ?E3, ?E4; assumption.
Qed.

Lemma start1_inv n cfg i names cfg' : cinv n cfg → start1 cfg i names = Ok cfg' → cinv n cfg'.
Proof.
  intros [Hi Hl] H. apply (start1_spec n) in H as [Hi' [_ Hlogs]]; [|done].
  split; [done|]. by eapply linv_logs; [exact Hlogs|].
Qed.

Lemma connect_cinv n cfg i cfg' : cinv n cfg → connect cfg i = Ok cfg' → cinv n cfg'.
Proof.
  intros [Hi Hl] H. split; [by eapply connect_inv|]. unfold connect in H. go_inv.
  eapply linv_logs; [|exact Hl]. done.
Qed.

Lemma length_kill_all rs ins : length (kill_all rs ins) = length ins.
Proof.
  revert ins. unfold kill_all. induction rs as [|[a|] rs IH]; intros ins; simpl; [done|..]; rewrite IH; [|done].
  apply length_alter.
Qed.

Lemma cleanup_inv n cfg cfg' : cinv n cfg → cleanup cfg = Ok cfg' → cinv n cfg'.
Proof.
  intros [Hi Hl] H. unfold cleanup in H. apply bind_Ok in H as (rn & Hrn & [= <-]).
  unfold Cleanup in Hrn. destruct (net_done (net cfg)); [done|]. injection Hrn as <-. split.
  - apply same_ends_inv; [|done..]. eapply same_net_inv; try done. cbn. apply length_kill_all.
  - by eapply linv_logs; [|exact Hl].
Qed.

Lemma hstep_inv n cfg o cfg' : cinv n cfg → hstep cfg o = Ok cfg' → cinv n cfg'.
Proof.
  intros [Hi Hl] H. destruct o as [i names|i|i|i|b|b| |i m|a rf|]; cbn [hstep] in H.
  - by eapply start1_inv.
  - apply (crash1_spec n) in H as [Hi' Hc]; [|done]. split; [done|].
    eapply linv_logs; [apply Hc|done].
  - by eapply connect_cinv.
  - apply (disconnect_inv n) in H as (Hi' & _ & E & _); [|done]. split; [done|].
    eapply linv_logs; [|exact Hl]. by rewrite E.
  - injection H as <-. split; [by apply same_ends_inv|]. by eapply linv_logs; [|exact Hl].
  - injection H as <-. split; [by apply same_ends_inv|]. by eapply linv_logs; [|exact Hl].
  - by apply cleanup_inv with cfg.
  - apply apply_msg_inv in H as (Hl' & ls & mx & -> & Hlen); [|done]. split; [|done].
    by eapply same_net_inv; [exact Hi|..].
  - injection H as <-. split; [|by eapply linv_logs; [|exact Hl]]. eapply same_net_inv; try done.
    cbn. by rewrite length_insert.
  - injection H as <-. split; [by apply same_ends_inv|]. by eapply linv_logs; [|exact Hl].
Qed.

Lemma zlookup_replicate {A} k (x y : A) i : zlookup (replicate k x) i = Some y → y = x.
Proof. unfold zlookup. case_decide; [|done]. intros [-> _]%lookup_replicate. done. Qed.

Lemma init_inv n rn :
  0 ≤ n → (∀ e, ¬ is_on rn e) → (∀ i, servers rn !! i = None) →
  let k := Z.to_nat n in
  cinv n (MkConfig rn n (replicate k None) (replicate k false) (replicate k None) (replicate k None)
            (replicate k ∅) 0 []).
Proof.
  intros Hn Hoff Hsrv. simpl. set (cfg := MkConfig _ _ _ _ _ _ _ _ _).
  assert (Hcur : ∀ i j e, ¬ cur cfg i j e).
  { intros i j e H. unfold cur, endname_at in H. apply bind_Ok in H as (l & Hl%must_Ok & H%must_Ok).
    apply zlookup_replicate in Hl as ->. apply zlookup_Some_lt in H. unfold len in H. simpl in H. lia. }
  split; split; cbn [cfg cfg_n net rafts insts logs endnames maxIndex].
  - done.
  - split; [unfold len; rewrite length_replicate; lia|]. intros i l Hl%zlookup_replicate. done.
  - intros i j i' j' e H. by apply Hcur in H.
  - intros i j e H. by apply Hcur in H.
  - intros e. split; [intros H; by apply Hoff in H|]. intros (i & j & H & _). by apply Hcur in H.
  - intros i j e H. by apply Hcur in H.
  - intros i r ->%zlookup_replicate. by rewrite Hsrv.
  - intros i a Ha%zlookup_replicate. done.
  - unfold len. rewrite length_replicate. lia.
  - unfold len. rewrite length_replicate. lia.
  - intros i j l l' idx v w ->%zlookup_replicate _ H. by rewrite lookup_empty in H.
  - intros i l idx v ->%zlookup_replicate H. by rewrite lookup_empty in H.
  - intros i l idx v ->%zlookup_replicate H. by rewrite lookup_empty in H.
Qed.

Lemma start_all_inv n names cfg js cfg' : cinv n cfg → start_all names cfg js = Ok cfg' → cinv n cfg'.
Proof.
  revert cfg. induction js as [|i js IH]; simpl; intros cfg Hi H; [by injection H as <-|].
  apply bind_Ok in H as (cfg1 & H1 & H). eapply IH; [|exact H]. by eapply start1_inv.
Qed.

Lemma connect_all_inv n cfg js cfg' : cinv n cfg → connect_all cfg js = Ok cfg' → cinv n cfg'.
Proof.
  revert cfg. induction js as [|i js IH]; simpl; intros cfg Hi H; [by injection H as <-|].
  apply bind_Ok in H as (cfg1 & H1 & H). eapply IH; [|exact H]. by eapply connect_cinv.
Qed.

Lemma make_config_inv n unreliable names cfg : make_config n unreliable names = Ok cfg → cinv n cfg.
Proof.
  unfold make_config. intros H. apply bind_Ok in H as (u & Hn%guard_go_Ok%Z.leb_le & H).
  apply bind_Ok in H as (cfg1 & H1 & H). eapply connect_all_inv; [|exact H].
  eapply start_all_inv; [|exact H1]. apply init_inv; [done| |intros i; apply lookup_empty].
  intros e. unfold is_on. simpl. by rewrite lookup_empty.
Qed.

Lemma reachable_cinv n cfg : reachable n cfg → cinv n cfg.
Proof. induction 1; [by eapply make_config_inv|by eapply hstep_inv]. Qed.

(** What a server's saved persister holds. *)
Definition saved_state (cfg : config) (i : Z) : outcome Persister :=
  p ← must (zlookup (saved cfg) i);
  p ← must p;
  read_saved (insts cfg) p.

(** C26. Whatever a test does, who can talk to whom is what the harness says: the end of [i] to
    [j] is enabled and leads to the instance of [j] that runs if and only if both are
    connected and there is one; and a request through any other end, of an instance that has
    crashed for example, is lost. *)
Theorem harness_connectivity n cfg :
  reachable n cfg →
  (∀ i j e a, cur cfg i j e →
     LabRpc.connected (net cfg) e (inl j) a ↔
     on_net cfg i ∧ on_net cfg j ∧ zlookup (rafts cfg) j = Some (Some a)) ∧
  (∀ e, (∀ i j, ¬ cur cfg i j e) → ∀ (bytes : Type) (rd : rands) (es : list (@net_event bytes)),
     ∃ ms, ProcessReq (net cfg) e rd es = Some (lost, ms)).
Proof.
  intros [Hi _]%reachable_cinv. pose proof Hi as Hi0. destruct Hi as [Hn Hrows Hinj Hends Hen Hconn Hsrv Hins Hrlen Hllen].
  split.
  - intros i j e a He. unfold LabRpc.connected. rewrite (Hconn _ _ _ He). fold (is_on (net cfg) e). rewrite Hen.
    destruct (cur_range n cfg i j e Hi0 He) as [_ Hj]. split.
    + intros ((i' & j' & He' & Oi & Oj) & _ & Hs). destruct (Hinj _ _ _ _ _ He He') as [<- <-].
      split_and!; [done|done|]. destruct (zlookup (rafts cfg) j) as [r|] eqn:Hr.
      * rewrite <- (Hsrv j r Hr), Hs. done.
      * exfalso. apply zlookup_None in Hr. lia.
    + intros (Oi & Oj & Hr). split_and!; [by exists i, j|done|].
      apply Hsrv in Hr. destruct (servers (net cfg) !! inl j) as [[b|]|]; simpl in Hr; congruence.
  - intros e Hno bytes rd es. unfold ProcessReq, ReadEndnameInfo.
    assert (¬ is_on (net cfg) e) as Hoff by (rewrite Hen; intros (i & j & H & _); by apply (Hno i j)).
    unfold is_on in Hoff. destruct (enabled (net cfg) !! e) as [[]|]; [done|simpl; eauto..].
Qed.

(** A peer that starts reads back what its persister holds. *)
Lemma Make_reads n i t (l : list (@CommandTerm cmd)) :
  l ≠ [] → ∃ rf, Make n i (MkPersister [GInt t; GLog l] []) = Ok rf ∧
    currentTerm rf = t ∧ log rf = l ∧ persister rf = MkPersister [GInt t; GLog l] [].
Proof.
  intros Hl. unfold Make. cbn. rewrite (proj2 (Z.ltb_ge (len l) 1)).
  - by eexists.
  - destruct l; [done|]. rewrite len_cons. pose proof (len_nonneg l). lia.
Qed.

(** Restarting a peer: the new instance is made from the term and the log that the old one
    had persisted when it crashed (its snapshot is dropped), the persister it writes to is
    the one that is saved from then on, and what any other instance does later, the crashed
    one included, does not change what is saved. *)
Theorem restart_recovers n cfg i names cfg' ps t l :
  reachable n cfg → saved_state cfg i = Ok ps → raftstate ps = [GInt t; GLog l] → l ≠ [] →
  start1 cfg i names = Ok cfg' →
  let a := length (insts cfg) in
  ∃ rf, zlookup (rafts cfg') i = Some (Some a) ∧ insts cfg' !! a = Some rf ∧
    currentTerm rf = t ∧ log rf = l ∧
    saved_state cfg' i = Ok (persister rf) ∧ persister rf = MkPersister (raftstate ps) [] ∧
    ∀ b rf', b ≠ a → ∃ cfg'', hstep cfg' (HRaft b rf') = Ok cfg'' ∧
      saved_state cfg'' i = Ok (persister rf).
Proof.
  intros [Hi _]%reachable_cinv Hps Hst Hl H. simpl.
  apply (start1_spec n) in H as [Hi' [(ps' & rf & Hraft & Hrf & Hsv & Hmake & Hold) _]]; [|done].
  unfold saved_state in Hps. apply bind_Ok in Hps as (p & Hp%must_Ok & Hps).
  apply bind_Ok in Hps as (p' & ->%must_Ok & Hps). rewrite Hp in Hold.
  destruct Hold as (old & Hold & ->). rewrite Hps in Hold. injection Hold as <-.
  rewrite (hi_n _ _ Hi'), Hst in Hmake.
  destruct (Make_reads n i t l Hl) as (rf1 & Hmake' & Ht & Hlog & Hpers).
  rewrite Hmake in Hmake'. injection Hmake' as <-.
  assert (Hsaved : ∀ c, saved c = saved cfg' → insts c !! length (insts cfg) = Some rf →
    saved_state c i = Ok (persister rf)).
  { intros c E1 E2. unfold saved_state. rewrite E1, Hsv. simpl. by rewrite E2. }
  exists rf. split_and!; [done|done|done|done|by apply Hsaved|by rewrite Hpers, Hst|].
  intros b rf' Hb. eexists. split; [done|]. apply Hsaved; [done|]. cbn [insts set_insts].
  by rewrite list_lookup_insert_ne.
Qed.
End harness.

(** ** A test with two peers *)
Definition two_names (i j : Z) : string :=
  if i =? 0 then (if j =? 0 then "a" else "b") else (if j =? 0 then "c" else "d").
Definition new_names (j : Z) : string := if j =? 0 then "e" else "f".

Definition two_peers : outcome (@config Z) := make_config 2 false two_names.
Definition no_config : @config Z := MkConfig MakeNetwork 0 [] [] [] [] [] 0 [].
Definition two : @config Z := match two_peers with Ok cfg => cfg | _ => no_config end.

Lemma two_ok : make_config 2 false two_names = Ok two.
Proof. vm_compute. reflexivity. Qed.

Lemma two_reachable : reachable (λ v : Z, Some v) 2 two.
Proof. eapply reach_make. exact two_ok. Qed.

Lemma harness_connectivity_witness :
  LabRpc.connected (net two) "b" (inl 1) 1%nat ∧
  ∃ ms, ProcessReq (bytes:=Z) (net two) "x" no_rand [] = Some (lost, ms).
Proof.
  destruct (harness_connectivity (λ v : Z, Some v) 2 two two_reachable) as [H1 H2]. split.
  - apply (H1 0 1 "b" 1%nat); [vm_compute; reflexivity|]. split_and!; vm_compute; reflexivity.
  - apply H2. intros i j H. unfold cur, endname_at in H.
    apply bind_Ok in H as (l & Hl%must_Ok & H%must_Ok).
    change (endnames two) with [Some ["a"; "b"]; Some ["c"; "d"]] in Hl.
    unfold zlookup in Hl, H. repeat case_decide; try discriminate.
    destruct (Z.to_nat i) as [|[|k]]; simpl in Hl; try discriminate; injection Hl as <-;
      destruct (Z.to_nat j) as [|[|k']]; discriminate H.
Defined.

(** Peer 0 persists term 3, then it is restarted. *)
Definition persisted : @Raft Z :=
  MkRaft 0 2 (MkPersister [GInt 3; GLog [MkCT None 0; MkCT (Some 5) 3]] []) (-1) 3 (-1)
    [MkCT None 0; MkCT (Some 5) 3] 0 0 [] [] false 0 0 [] 0 0.
Definition after (o : outcome (@config Z)) : @config Z := match o with Ok cfg => cfg | _ => no_config end.
Definition two' : @config Z := after (hstep (λ v : Z, Some v) two (HRaft 0 persisted)).
Definition two'' : @config Z := after (start1 two' 0 new_names).

Lemma restart_recovers_witness :
  ∃ rf, insts two'' !! 2%nat = Some rf ∧ currentTerm rf = 3 ∧ log rf = [MkCT None 0; MkCT (Some 5) 3].
Proof.
  destruct (restart_recovers (λ v : Z, Some v) 2 two' 0 new_names two'' (persister persisted) 3
    [MkCT None 0; MkCT (Some 5) 3]) as (rf & _ & Hrf & Ht & Hl & _).
  - eapply (reach_step _ _ two (HRaft 0 persisted)); [exact two_reachable|]. reflexivity.
  - vm_compute. reflexivity.
  - reflexivity.
  - discriminate.
  - vm_compute. reflexivity.
  - exists rf. split_and!; [exact Hrf|exact Ht|exact Hl].
Defined.
