(* ===== verification/RaftChecks.v ===== *)
(** * The checks of the test harness of Raft, [raft/config.go].

    A check reads the configuration several times while the peers go on; what it reads is
    given by the configurations at these times.  A failed test ends it, like a panic. *)

From S2P Require Import Prelude RaftState LabRpc RaftHarness.

Section checks.
Context {cmd : Type}.
Abbreviation config := (@config cmd).
Variable as_int : cmd → option Z.

(** [cfg.rafts[i].GetState()] *)
Definition get_state (cfg : config) (i : Z) : outcome (Z * bool) :=
  r ← must (zlookup (rafts cfg) i);
  a ← must r;
  rf ← must (insts cfg !! a);
  Ok (GetState rf).

(** The loop over the peers: the connected leaders of every term. *)
Fixpoint find_leaders (cfg : config) (peers : list Z) (leaders : gmap Z (list Z)) :
    outcome (gmap Z (list Z)) :=
  match peers with
  | [] => Ok leaders
  | i :: peers =>
      c ← must (zlookup (connected cfg) i);
      leaders ← (if (c : bool) then
                   '(term, leader) ← get_state cfg i;
                   Ok (if (leader : bool) then <[term := default [] (leaders !! term) ++ [i]]> leaders
                       else leaders)
                 else Ok leaders);
      find_leaders cfg peers leaders
  end.

(** The loop over the map. *)
Fixpoint last_term (l : list (Z * list Z)) (lastTermWithLeader : Z) : outcome Z :=
  match l with
  | [] => Ok lastTermWithLeader
  | (term, leaders) :: l =>
      if 1 <? len leaders then Panic
      else last_term l (if lastTermWithLeader <? term then term else lastTermWithLeader)
  end.

(** The order in which a loop meets the entries of a map. *)
Variable range : gmap Z (list Z) → list (Z * list Z).

(** One iteration: the leader, if there is one. *)
Definition one_leader_round (cfg : config) : outcome (option Z) :=
  leaders ← find_leaders cfg (seqZ 0 (cfg_n cfg)) ∅;
  t ← last_term (range leaders) (-1);
  if bool_decide (leaders = ∅) then Ok None
  else l ← must (zlookup (default [] (leaders !! t)) 0); Ok (Some l).

(** Ten iterations, at the times [k], [k + 1] and so on. *)
Fixpoint one_leader_loop (iters k : nat) (cfgs : nat → config) : outcome Z :=
  match iters with
  | O => Panic
  | S iters =>
      r ← one_leader_round (cfgs k);
      match r with Some l => Ok l | None => one_leader_loop iters (S k) cfgs end
  end.
Definition checkOneLeader (cfgs : nat → config) : outcome Z := one_leader_loop 10 0 cfgs.

Fixpoint check_terms_loop (cfg : config) (peers : list Z) (term : Z) : outcome Z :=
  match peers with
  | [] => Ok term
  | i :: peers =>
      c ← must (zlookup (connected cfg) i);
      if (c : bool) then
        '(xterm, _) ← get_state cfg i;
        if term =? -1 then check_terms_loop cfg peers xterm
        else if negb (term =? xterm) then Panic
        else check_terms_loop cfg peers term
      else check_terms_loop cfg peers term
  end.
Definition checkTerms (cfg : config) : outcome Z := check_terms_loop cfg (seqZ 0 (cfg_n cfg)) (-1).

Fixpoint no_leader_loop (cfg : config) (peers : list Z) : outcome unit :=
  match peers with
  | [] => Ok tt
  | i :: peers =>
      c ← must (zlookup (connected cfg) i);
      if (c : bool) then
        '(_, is_leader) ← get_state cfg i;
        if (is_leader : bool) then Panic else no_leader_loop cfg peers
      else no_leader_loop cfg peers
  end.
Definition checkNoLeader (cfg : config) : outcome unit := no_leader_loop cfg (seqZ 0 (cfg_n cfg)).

(** [applyErr] is always empty: the reader of [applyCh] ends the program before it sets it. *)
Fixpoint nCommitted_loop (cfg : config) (index : Z) (peers : list Z) (count cmd : Z) : outcome (Z * Z) :=
  match peers with
  | [] => Ok (count, cmd)
  | i :: peers =>
      l ← must (zlookup (logs cfg) i);
      match (l : gmap Z Z) !! index with
      | None => nCommitted_loop cfg index peers count cmd
      | Some cmd1 =>
          if (0 <? count) && negb (cmd =? cmd1) then Panic
          else nCommitted_loop cfg index peers (count + 1) cmd1
      end
  end.
Definition nCommitted (cfg : config) (index : Z) : outcome (Z * Z) :=
  nCommitted_loop cfg index (seqZ 0 (len (rafts cfg))) 0 (-1).

(** Has some peer gone past [startTerm]?  The loop meets crashed peers too. *)
Fixpoint moved_on (cfg : config) (peers : list Z) (startTerm : Z) : outcome bool :=
  match peers with
  | [] => Ok false
  | i :: peers =>
      '(t, _) ← get_state cfg i;
      if startTerm <? t then Ok true else moved_on cfg peers startTerm
  end.

(** The last test of [wait]. *)
Definition wait_end (cfg : config) (index n : Z) : outcome Z :=
  '(nd, cmd) ← nCommitted cfg index;
  if nd <? n then Panic else Ok cmd.

(** The loop of [wait]: an iteration that begins at time [k] sleeps until [k + 1]. *)
Fixpoint wait_loop (iters k : nat) (cfgs : nat → config) (index n startTerm : Z) : outcome Z :=
  match iters with
  | O => wait_end (cfgs k) index n
  | S iters =>
      '(nd, _) ← nCommitted (cfgs k) index;
      if n <=? nd then wait_end (cfgs (S k)) index n
      else
        moved ← (if -1 <? startTerm
                 then moved_on (cfgs (S k)) (seqZ 0 (len (rafts (cfgs (S k))))) startTerm else Ok false);
        if (moved : bool) then Ok (-1) else wait_loop iters (S (S k)) cfgs index n startTerm
  end.
Definition wait (cfgs : nat → config) (index n startTerm : Z) : outcome Z :=
  wait_loop 30 0 cfgs index n startTerm.

(** ** [one] *)

(** Trying all the servers, [k] of them left; the index at which a leader has put the
    command, -1 if there is none, and the next value of [starts]. *)
Fixpoint try_servers (cfg : config) (k : nat) (starts : Z) (c : cmd) : outcome (config * Z * Z) :=
  match k with
  | O => Ok (cfg, starts, -1)
  | S k =>
      let starts := (starts + 1) mod cfg_n cfg in
      on ← must (zlookup (connected cfg) starts);
      r ← (if (on : bool) then must (zlookup (rafts cfg) starts) else Ok None);
      match r with
      | None => try_servers cfg k starts c
      | Some a =>
          rf ← must (insts cfg !! a);
          '(rf, (index1, _, ok)) ← Start rf (Some c);
          let cfg := set_insts (<[a := rf]> (insts cfg)) cfg in
          if (ok : bool) then Ok (cfg, starts, index1) else try_servers cfg k starts c
      end
  end.

(** The polls for agreement; the command is an integer in these tests. *)
Fixpoint poll_agreement (polls : list config) (index cmdv expectedServers : Z) : outcome bool :=
  match polls with
  | [] => Ok false
  | cfg :: polls =>
      '(nd, cmd1) ← nCommitted cfg index;
      if (0 <? nd) && (expectedServers <=? nd) && (cmd1 =? cmdv) then Ok true
      else poll_agreement polls index cmdv expectedServers
  end.

(** The attempts there is time for: the configuration when the servers are tried, and those
    at the polls.  When time is up the test fails. *)
Fixpoint one (attempts : list (config * list config)) (starts : Z) (c : cmd) (cmdv : Z)
    (expectedServers : Z) (retry : bool) : outcome Z :=
  match attempts with
  | [] => Panic
  | (cfg, polls) :: attempts =>
      '(_, starts, index) ← try_servers cfg (Z.to_nat (cfg_n cfg)) starts c;
      if negb (index =? -1) then
        agreed ← poll_agreement polls index cmdv expectedServers;
        if (agreed : bool) then Ok index
        else if retry then one attempts starts c cmdv expectedServers retry else Panic
      else one attempts starts c cmdv expectedServers retry
  end.

(** ** Committed entries *)

(** What the copy of server [i] has at [index]. *)
Definition at_index (cfg : config) (index i : Z) : option Z := l ← zlookup (logs cfg) i; l !! index.

(** The servers whose copy has the index. *)
Definition holders (cfg : config) (index : Z) (peers : list Z) : list Z :=
  filter (λ i, is_Some (at_index cfg index i)) peers.

Lemma at_index_agree cfg index i j v w :
  linv cfg → at_index cfg index i = Some v → at_index cfg index j = Some w → v = w.
Proof.
  intros Hl Hi Hj. unfold at_index in *. apply bind_Some in Hi as (l & Hl1 & Hi), Hj as (l' & Hl2 & Hj).
  by eapply (li_agree _ Hl i j).
Qed.

Lemma nCommitted_loop_spec cfg index peers count c :
  linv cfg → (∀ i, i ∈ peers → 0 ≤ i < len (logs cfg)) → 0 ≤ count →
  (count = 0 → c = -1) → (0 < count → ∀ i v, at_index cfg index i = Some v → c = v) →
  ∃ nd c', nCommitted_loop cfg index peers count c = Ok (nd, c') ∧
    nd = count + len (holders cfg index peers) ∧ (nd = 0 → c' = -1) ∧
    (0 < nd → ∀ i v, at_index cfg index i = Some v → c' = v).
Proof.
  intros Hl. revert count c. induction peers as [|i peers IH]; intros count c Hr H0 Hz Hv; cbn [nCommitted_loop].
  { exists count, c. split_and!; [done|unfold holders, len; simpl; lia|done|done]. }
  destruct (zlookup_lt_Some (logs cfg) i) as [l Hli]; [apply Hr; by left|]. rewrite Hli. cbn [must mbind outcome_bind].
  assert (Hat : at_index cfg index i = l !! index) by (unfold at_index; by rewrite Hli).
  assert (Hr' : ∀ i, i ∈ peers → 0 ≤ i < len (logs cfg)) by (intros; apply Hr; by right).
  unfold holders. rewrite filter_cons. fold (holders cfg index peers). destruct (l !! index) as [v|] eqn:Ev.
  - assert (is_Some (at_index cfg index i)) as Hs by (rewrite Hat; eauto).
    rewrite (decide_True (P := is_Some (at_index cfg index i))), len_cons by exact Hs.
    assert (Hcv : 0 < count → c = v) by (intros; by eapply Hv).
    assert (((0 <? count) && negb (c =? v)) = false) as ->.
    { destruct (Z.ltb_spec 0 count); [|done]. rewrite Hcv by done. by rewrite Z.eqb_refl. }
    destruct (IH (count + 1) v Hr') as (nd & c' & -> & Hnd & Hz' & Hv'); [lia|lia| |].
    + intros _ j w Hj. by eapply (at_index_agree cfg index i j).
    + exists nd, c'. split_and!; [done|lia|done|done].
  - rewrite (decide_False (P := is_Some (at_index cfg index i))) by (rewrite Hat; by intros [? ?]).
    by apply IH.
Qed.

Lemma at_index_range n cfg index i v :
  hinv n cfg → at_index cfg index i = Some v → i ∈ holders cfg index (seqZ 0 n).
Proof.
  intros Hi H. apply list_elem_of_filter. split; [eauto|]. unfold at_index in H.
  apply bind_Some in H as (l & Hl%zlookup_Some_lt & _). rewrite (hi_logs _ _ Hi) in Hl.
  apply elem_of_seqZ. lia.
Qed.

Lemma len_pos {A} (x : A) l : x ∈ l → 0 < len l.
Proof.
  intros Hx. destruct l; [by apply not_elem_of_nil in Hx|]. rewrite len_cons. pose proof (len_nonneg l). lia.
Qed.

Lemma nCommitted_ok n cfg index :
  cinv n cfg →
  ∃ nd c, nCommitted cfg index = Ok (nd, c) ∧ nd = len (holders cfg index (seqZ 0 n)) ∧
    (nd = 0 → c = -1) ∧ (∀ i v, at_index cfg index i = Some v → c = v).
Proof.
  intros [Hi Hl]. unfold nCommitted.
  destruct (nCommitted_loop_spec cfg index (seqZ 0 (len (rafts cfg))) 0 (-1)) as (nd & c & -> & Hnd & Hz & Hv);
    [done| |done|done|lia|].
  { intros i Hin%elem_of_seqZ. rewrite (hi_logs _ _ Hi). rewrite (hi_len _ _ Hi) in Hin. lia. }
  rewrite (hi_len _ _ Hi) in Hnd. exists nd, c. split_and!; [done|lia|done|].
  intros i v Hat. eapply Hv; [|exact Hat]. pose proof (len_pos _ _ (at_index_range n cfg index i v Hi Hat)). lia.
Qed.

(** C27. The reader of [applyCh] enforces state machine safety: in every configuration that a test
    reaches without failing, no two servers have committed different values at an index, no
    server has a gap, and [nCommitted] counts the servers that have committed an index,
    without ever failing itself, and gives the value that all of them have. *)
Theorem committed_agree n cfg index :
  reachable as_int n cfg →
  (∀ i j v w, at_index cfg index i = Some v → at_index cfg index j = Some w → v = w) ∧
  (∀ i v, at_index cfg index i = Some v → 1 < index → is_Some (at_index cfg (index - 1) i)) ∧
  ∃ nd c, nCommitted cfg index = Ok (nd, c) ∧ nd = len (holders cfg index (seqZ 0 n)) ∧
    (nd = 0 → c = -1) ∧ (∀ i v, at_index cfg index i = Some v → c = v).
Proof.
  intros Hreach. pose proof (reachable_cinv _ _ _ Hreach) as Hc. pose proof Hc as [Hi Hl]. split_and!.
  - intros i j v w. by apply at_index_agree.
  - intros i v H Hidx. unfold at_index in *. apply bind_Some in H as (l & Hli & H). rewrite Hli.
    by eapply (li_gapless _ Hl i).
  - by apply nCommitted_ok.
Qed.

Lemma poll_agreement_true polls index cmdv expected :
  poll_agreement polls index cmdv expected = Ok true →
  ∃ cfg nd, cfg ∈ polls ∧ nCommitted cfg index = Ok (nd, cmdv) ∧ 0 < nd ∧ expected ≤ nd.
Proof.
  induction polls as [|cfg polls IH]; cbn [poll_agreement]; [done|]. intros H.
  apply bind_Ok in H as ([nd cmd1] & Hn & H). destruct (_ && _) eqn:E.
  - go_bools. subst cmd1. exists cfg, nd. split_and!; [by left|done|done|done].
  - destruct (IH H) as (cfg' & nd' & Hin & Hrest). exists cfg', nd'. split; [by right|done].
Qed.

Lemma one_polls attempts starts c cmdv expected retry index :
  one attempts starts c cmdv expected retry = Ok index →
  ∃ cfg polls, (cfg, polls) ∈ attempts ∧ poll_agreement polls index cmdv expected = Ok true.
Proof.
  revert starts. induction attempts as [|[cfg polls] attempts IH]; intros starts H; [done|].
  cbn [one] in H. apply bind_Ok in H as ([[cfg' starts'] idx] & _ & H).
  assert (Hnext : one attempts starts' c cmdv expected retry = Ok index →
    ∃ cfg0 polls0, (cfg0, polls0) ∈ (cfg, polls) :: attempts ∧
      poll_agreement polls0 index cmdv expected = Ok true).
  { intros (cfg0 & polls0 & Hin & Hp)%IH. exists cfg0, polls0. split; [by right|done]. }
  destruct (idx =? -1); [by apply Hnext|]. cbn [negb] in H. apply bind_Ok in H as ([] & Hp & H).
  - injection H as <-. exists cfg, polls. split; [by left|done].
  - destruct retry; [by apply Hnext|done].
Qed.

(** When [one] returns an index, the command was agreed on there: at one of the polls at
    least [expectedServers] servers, and at least one, had committed it at that index, and no
    server had committed anything else there. *)
Theorem one_agreed n attempts starts c cmdv expected retry index :
  (∀ cfg polls poll, (cfg, polls) ∈ attempts → poll ∈ polls → reachable as_int n poll) →
  one attempts starts c cmdv expected retry = Ok index →
  ∃ cfg polls poll, (cfg, polls) ∈ attempts ∧ poll ∈ polls ∧
    0 < len (holders poll index (seqZ 0 n)) ∧ expected ≤ len (holders poll index (seqZ 0 n)) ∧
    ∀ i v, at_index poll index i = Some v → v = cmdv.
Proof.
  intros Hreach (cfg & polls & Hin & Hp)%one_polls.
  apply poll_agreement_true in Hp as (poll & nd & Hpoll & Hn & H0 & He).
  pose proof (reachable_cinv _ _ _ (Hreach _ _ _ Hin Hpoll)) as Hc.
  destruct (nCommitted_ok n poll index Hc) as (nd' & c' & Hn' & -> & _ & Hv).
  rewrite Hn in Hn'. injection Hn' as -> <-. exists cfg, polls, poll. split_and!; [done..|].
  intros i v Hat. symmetry. by eapply Hv.
Qed.

(** ** Leaders *)

(** Peer [i] is connected and leads term [t]. *)
Definition leads (cfg : config) (i t : Z) : Prop := on_net cfg i ∧ get_state cfg i = Ok (t, true).

Definition led_by (cfg : config) (leaders : gmap Z (list Z)) (seen : list Z) : Prop :=
  (∀ t l, leaders !! t = Some l → l ≠ []) ∧
  (∀ t, NoDup (default [] (leaders !! t))) ∧
  ∀ t i, i ∈ default [] (leaders !! t) ↔ i ∈ seen ∧ leads cfg i t.

Lemma find_leaders_spec cfg peers leaders seen leaders' :
  led_by cfg leaders seen → NoDup (seen ++ peers) → find_leaders cfg peers leaders = Ok leaders' →
  led_by cfg leaders' (seen ++ peers).
Proof.
  revert leaders seen. induction peers as [|i peers IH]; intros leaders seen Hled Hnd H; cbn [find_leaders] in H.
  { injection H as <-. by rewrite app_nil_r. }
  apply bind_Ok in H as (c & Hc%must_Ok & H). apply bind_Ok in H as (leaders1 & H1 & H).
  rewrite (cons_middle i seen peers), (assoc_L (++)) in Hnd |- *. eapply IH; [|exact Hnd|exact H].
  destruct Hled as (Hne & Hdup & Hin).
  assert (Hskip : (∀ t, ¬ leads cfg i t) → led_by cfg leaders (seen ++ [i])).
  { intros Hno. split_and!; [done|done|]. intros t j. rewrite Hin, elem_of_app, list_elem_of_singleton.
    split; [tauto|]. intros [[Hj| ->] Hl]; [done|]. by apply Hno in Hl. }
  destruct c; [|injection H1 as <-; apply Hskip; intros t [Ho _]; unfold on_net in Ho; congruence].
  apply bind_Ok in H1 as ([term leader] & Hst & [= <-]). destruct leader.
  2: { apply Hskip. intros t [_ Hl]. congruence. }
  assert (Hold : i ∉ seen).
  { apply NoDup_app in Hnd as (Hnd & _ & _). apply NoDup_app in Hnd as (_ & Hd & _).
    intros Hi. apply (Hd i Hi). by left. }
  split_and!.
  - intros t l. destruct (decide (t = term)) as [->|]; [|rewrite lookup_insert_ne by done; apply Hne].
    rewrite lookup_insert_eq. intros [= <-]. by destruct (default [] (leaders !! term)).
  - intros t. destruct (decide (t = term)) as [->|]; [|rewrite lookup_insert_ne by done; apply Hdup].
    rewrite lookup_insert_eq. simpl. apply NoDup_app. split_and!; [apply Hdup| |apply NoDup_singleton].
    intros j Hj%Hin ->%list_elem_of_singleton. by destruct Hj.
  - intros t j. destruct (decide (t = term)) as [->|Hne'].
    + rewrite lookup_insert_eq. simpl. rewrite !elem_of_app, !list_elem_of_singleton, Hin. split.
      * intros [[Hj Hl]| ->]; [auto|]. split; [auto|]. by split.
      * intros [[Hj| ->] Hl]; auto.
    + rewrite lookup_insert_ne by done. rewrite Hin, elem_of_app, list_elem_of_singleton.
      split; [tauto|]. intros [[Hj| ->] Hl]; [done|]. destruct Hl as [_ Hl]. congruence.
Qed.

Lemma last_term_spec l t0 t :
  last_term l t0 = Ok t →
  (∀ term ls, (term, ls) ∈ l → len ls ≤ 1 ∧ term ≤ t) ∧ t0 ≤ t ∧ (t = t0 ∨ t ∈ l.*1).
Proof.
  revert t0. induction l as [|[term ls] l IH]; intros t0; cbn [last_term].
  { intros [= ->]. split_and!; [|lia|by left]. intros term ls H. by apply not_elem_of_nil in H. }
  destruct (Z.ltb_spec 1 (len ls)); [done|]. intros (Hall & Hle & Hor)%IH.
  assert (t0 ≤ t ∧ term ≤ t) by (destruct (Z.ltb_spec t0 term); lia). split_and!; [|lia|].
  - intros term' ls' [[= -> ->]|Hin]%elem_of_cons; [lia|by apply Hall].
  - destruct Hor as [->|Hin]; [|right; by right]. destruct (t0 <? term); [right; by left|by left].
Qed.

Hypothesis Hrange : ∀ m, range m ≡ₚ map_to_list m.

Lemma elem_of_range (m : gmap Z (list Z)) t ls : (t, ls) ∈ range m ↔ m !! t = Some ls.
Proof. rewrite Hrange. apply elem_of_map_to_list. Qed.

Lemma get_state_range n cfg i s : hinv n cfg → get_state cfg i = Ok s → i ∈ seqZ 0 n.
Proof.
  intros Hi H. unfold get_state in H. apply bind_Ok in H as (r & Hr%must_Ok%zlookup_Some_lt & _).
  rewrite (hi_len _ _ Hi) in Hr. apply elem_of_seqZ. lia.
Qed.

Lemma find_leaders_all n cfg leaders :
  hinv n cfg → find_leaders cfg (seqZ 0 n) ∅ = Ok leaders →
  (∀ t l, leaders !! t = Some l → l ≠ []) ∧ ∀ t i, i ∈ default [] (leaders !! t) ↔ leads cfg i t.
Proof.
  intros Hi Hf. apply (find_leaders_spec _ _ _ []) in Hf as (Hne & _ & Hin).
  - split; [exact Hne|]. intros t i. rewrite Hin. cbn [app]. split; [by intros [_ ?]|].
    intros Hl. split; [|done]. eapply get_state_range; [exact Hi|apply Hl].
  - split_and!; [done|intros; rewrite lookup_empty; constructor|]. intros t' i. rewrite lookup_empty.
    simpl. split; [|intros [Hn _]]; intros; exfalso; by eapply not_elem_of_nil.
  - apply NoDup_seqZ.
Qed.

(** One iteration, when it does not fail. *)
Lemma one_leader_round_spec n cfg r :
  hinv n cfg → (∀ i t, leads cfg i t → 0 ≤ t) → one_leader_round cfg = Ok r →
  (∀ i j t, leads cfg i t → leads cfg j t → i = j) ∧
  match r with
  | None => ∀ i t, ¬ leads cfg i t
  | Some l => ∃ t, leads cfg l t ∧ ∀ i t', leads cfg i t' → t' ≤ t
  end.
Proof.
  intros Hi Hterm H. unfold one_leader_round in H. rewrite (hi_n _ _ Hi) in H.
  apply bind_Ok in H as (leaders & Hf & H). apply bind_Ok in H as (t & Ht & H).
  apply (find_leaders_all n) in Hf as (Hne & Hin); [|done].
  apply last_term_spec in Ht as (Hall & Hle & Hor).
  assert (Hlead : ∀ i t', leads cfg i t' → ∃ ls, leaders !! t' = Some ls ∧ i ∈ ls ∧ len ls ≤ 1 ∧ t' ≤ t).
  { intros i t' Hl%Hin. destruct (leaders !! t') as [ls|] eqn:E; [|by apply not_elem_of_nil in Hl].
    exists ls. destruct (Hall t' ls) as [? ?]; [by apply elem_of_range|]. done. }
  split.
  - intros i j t' (ls & Hls & Hi1 & Hlen & _)%Hlead (ls' & Hls' & Hj1 & _)%Hlead.
    rewrite Hls in Hls'. injection Hls' as <-. destruct ls as [|a [|b ls]]; [by apply not_elem_of_nil in Hi1| |].
    + apply list_elem_of_singleton in Hi1 as ->, Hj1 as ->. done.
    + rewrite !len_cons in Hlen. pose proof (len_nonneg ls). lia.
  - destruct (bool_decide (leaders = ∅)) eqn:Eb.
    + injection H as <-. go_bools. subst leaders. intros i t' (ls & Hls & _)%Hlead. by rewrite lookup_empty in Hls.
    + apply bind_Ok in H as (l & Hl%must_Ok & [= <-]). go_bools. exists t. split.
      * apply Hin. unfold zlookup in Hl. rewrite decide_True in Hl by lia. by eapply list_elem_of_lookup_2.
      * intros i t' (ls & _ & _ & _ & Ht')%Hlead. done.
Qed.

(** [checkOneLeader] returns the leader that counts: a connected peer that leads the highest
    term that a connected peer leads, at a time when no term had two leaders, and the first
    time, of ten, that there was a leader at all. *)
Theorem checkOneLeader_sound n cfgs l :
  (∀ k, reachable as_int n (cfgs k)) → (∀ k i t, leads (cfgs k) i t → 0 ≤ t) →
  checkOneLeader cfgs = Ok l →
  ∃ k t, (k < 10)%nat ∧ leads (cfgs k) l t ∧
    (∀ i t', leads (cfgs k) i t' → t' < t ∨ t' = t ∧ i = l) ∧
    (∀ i j t', leads (cfgs k) i t' → leads (cfgs k) j t' → i = j) ∧
    ∀ k', (k' < k)%nat → ∀ i t', ¬ leads (cfgs k') i t'.
Proof.
  intros Hreach Hterm H. unfold checkOneLeader in H.
  assert (Hloop : ∀ iters k0, one_leader_loop iters k0 cfgs = Ok l → ∃ k t, (k0 ≤ k < k0 + iters)%nat ∧
    leads (cfgs k) l t ∧ (∀ i t', leads (cfgs k) i t' → t' ≤ t) ∧
    (∀ i j t', leads (cfgs k) i t' → leads (cfgs k) j t' → i = j) ∧
    ∀ k', (k0 ≤ k' < k)%nat → ∀ i t', ¬ leads (cfgs k') i t').
  { intros iters. induction iters as [|iters IH]; intros k0 Hrun; [done|]. cbn [one_leader_loop] in Hrun.
    apply bind_Ok in Hrun as (r & Hr & Hrun). destruct (reachable_cinv _ _ _ (Hreach k0)) as [Hi _].
    apply (one_leader_round_spec n) in Hr as [Huniq Hr]; [|done|apply Hterm]. destruct r as [l'|].
    - injection Hrun as ->. destruct Hr as (t & Hl & Hmax). exists k0, t. split_and!; [lia..|done|done|done|lia].
    - destruct (IH _ Hrun) as (k & t & Hk & Hl & Hmax & Hun & Hno). exists k, t. split_and!; [lia..|done|done|done|].
      intros k' Hk'. destruct (decide (k' = k0)) as [->|]; [done|]. apply Hno. lia. }
  destruct (Hloop _ _ H) as (k & t & Hk & Hl & Hmax & Hun & Hno). exists k, t.
  split_and!; [lia|done| |done|intros k' Hk'; apply Hno; lia].
  intros i t' Hl'. specialize (Hmax i t' Hl'). destruct (decide (t' = t)) as [->|]; [right|left; lia].
  split; [done|]. by eapply Hun.
Qed.

(** Nobody connected claims to lead when [checkNoLeader] passes. *)
Lemma checkNoLeader_sound n cfg :
  hinv n cfg → checkNoLeader cfg = Ok tt → ∀ i t, ¬ leads cfg i t.
Proof.
  intros Hi H i t [Hon Hst]. unfold checkNoLeader in H. rewrite (hi_n _ _ Hi) in H.
  pose proof (get_state_range _ _ _ _ Hi Hst) as Hin. induction (seqZ 0 n) as [|j js IH]; [by apply not_elem_of_nil in Hin|].
  cbn [no_leader_loop] in H. apply bind_Ok in H as (c & Hc%must_Ok & H).
  apply elem_of_cons in Hin as [<-|Hin].
  - unfold on_net in Hon. rewrite Hon in Hc. injection Hc as <-. rewrite Hst in H. done.
  - apply IH; [|done]. destruct c; [|done]. apply bind_Ok in H as ([t' []] & _ & H); done.
Qed.

(** All connected peers are in the term that [checkTerms] returns. *)
Lemma checkTerms_sound n cfg t :
  hinv n cfg → (∀ i s, get_state cfg i = Ok s → 0 ≤ s.1) → checkTerms cfg = Ok t →
  ∀ i s, on_net cfg i → get_state cfg i = Ok s → s.1 = t.
Proof.
  intros Hi Hterm H i s Hon Hst. unfold checkTerms in H. rewrite (hi_n _ _ Hi) in H.
  pose proof (get_state_range _ _ _ _ Hi Hst) as Hin.
  assert (Hloop : ∀ js t0, -1 ≤ t0 → check_terms_loop cfg js t0 = Ok t →
    (t0 = -1 ∨ t = t0) ∧ (i ∈ js → s.1 = t)).
  { intros js. induction js as [|j js IH]; intros t0 H0 Hrun; cbn [check_terms_loop] in Hrun.
    { injection Hrun as <-. split; [by right|]. intros Hj. by apply not_elem_of_nil in Hj. }
    apply bind_Ok in Hrun as (c & Hc%must_Ok & Hrun). rewrite elem_of_cons. destruct c.
    - apply bind_Ok in Hrun as ([x b] & Hx & Hrun). pose proof (Hterm j _ Hx) as Hx0. simpl in Hx0.
      assert (Hx1 : -1 ≤ x) by lia.
      assert (Hgo : check_terms_loop cfg js x = Ok t → (t0 = -1 ∨ t0 = x) →
        (t0 = -1 ∨ t = t0) ∧ (i = j ∨ i ∈ js → s.1 = t)).
      { intros Hrun1 Ht0. destruct (IH _ Hx1 Hrun1) as [Ht Hjs].
        assert (t = x) as -> by lia. split; [lia|].
        intros [->|Hj]; [|by apply Hjs]. rewrite Hst in Hx. by injection Hx as ->. }
      destruct (Z.eqb_spec t0 (-1)); [apply Hgo; auto|].
      destruct (Z.eqb_spec t0 x) as [->|]; [apply Hgo; auto|done].
    - destruct (IH _ H0 Hrun) as [Ht Hjs]. split; [done|]. intros [->|Hj]; [|by apply Hjs].
      unfold on_net in Hon. congruence. }
  destruct (Hloop (seqZ 0 n) (-1)) as [_ Hjs]; [lia|exact H|by apply Hjs].
Qed.

Lemma moved_on_true cfg js startTerm :
  moved_on cfg js startTerm = Ok true → ∃ i s, get_state cfg i = Ok s ∧ startTerm < s.1.
Proof.
  induction js as [|j js IH]; cbn [moved_on]; [done|]. intros H. apply bind_Ok in H as ([t b] & Ht & H).
  destruct (Z.ltb_spec startTerm t); [|by apply IH]. by exists j, (t, b).
Qed.

(** Enough servers have committed the value at the index. *)
Definition decided (n : Z) (cfg : config) (index need v : Z) : Prop :=
  need ≤ len (holders cfg index (seqZ 0 n)) ∧ ∀ i w, at_index cfg index i = Some w → w = v.

Lemma wait_end_decided n cfg index need v :
  cinv n cfg → wait_end cfg index need = Ok v → decided n cfg index need v.
Proof.
  intros Hc H. unfold wait_end in H. apply bind_Ok in H as ([nd c] & Hn & H).
  destruct (nCommitted_ok n cfg index Hc) as (nd' & c' & Hn' & -> & _ & Hv).
  rewrite Hn in Hn'. injection Hn' as -> ->.
  destruct (Z.ltb_spec (len (holders cfg index (seqZ 0 n))) need); [done|].
  injection H as <-. split; [done|]. intros i w Hw. symmetry. by eapply Hv.
Qed.

(** What [wait] returns is the value that enough servers have committed, or -1 when some
    peer has gone past the term of the leader that was to commit it. *)
Theorem wait_sound n cfgs index need startTerm v :
  (∀ k, reachable as_int n (cfgs k)) → wait cfgs index need startTerm = Ok v →
  (∃ k, decided n (cfgs k) index need v) ∨
  (v = -1 ∧ -1 < startTerm ∧ ∃ k i s, get_state (cfgs k) i = Ok s ∧ startTerm < s.1).
Proof.
  intros Hreach. unfold wait.
  assert (Hend : ∀ k, wait_end (cfgs k) index need = Ok v → ∃ k, decided n (cfgs k) index need v).
  { intros k H. exists k. apply wait_end_decided; [|done]. by eapply reachable_cinv. }
  assert (Hloop : ∀ iters k, wait_loop iters k cfgs index need startTerm = Ok v →
    (∃ k, decided n (cfgs k) index need v) ∨
    (v = -1 ∧ -1 < startTerm ∧ ∃ k i s, get_state (cfgs k) i = Ok s ∧ startTerm < s.1)); [|apply Hloop].
  intros iters. induction iters as [|iters IH]; intros k H; cbn [wait_loop] in H; [left; exact (Hend _ H)|].
  apply bind_Ok in H as ([nd c] & _ & H). destruct (need <=? nd); [left; exact (Hend _ H)|].
  apply bind_Ok in H as (moved & Hm & H). destruct moved; [|exact (IH _ H)].
  injection H as <-. right. destruct (Z.ltb_spec (-1) startTerm); [|done].
  apply moved_on_true in Hm as (i & s & Hs & Hlt). split_and!; [done|done|]. by exists (S k), i, s.
Qed.

Lemma leads_term cfg i t :
  forallb (λ rf, 0 <=? currentTerm rf) (insts cfg) = true → leads cfg i t → 0 ≤ t.
Proof.
  intros Hall [_ H]. unfold get_state in H. apply bind_Ok in H as (r & _ & H). apply bind_Ok in H as (a & _ & H).
  apply bind_Ok in H as (rf & Hrf%must_Ok & [= <- _]).
  rewrite forallb_forall in Hall. apply Z.leb_le, Hall, list_elem_of_In. by eapply list_elem_of_lookup_2.
Qed.
End checks.

(** ** A test with two peers, of which the first leads and commits a command *)
Definition leader0 : @Raft Z :=
  MkRaft 0 2 (MkPersister [] []) 0 3 0 [MkCT None 0] 0 0 [1; 1] [0; 0] false 0 0 [] 0 0.
Definition led : @config Z := after (hstep (λ v : Z, Some v) two (HRaft 0 leader0)).
Definition msg5 : @ApplyMsg Z := MkApplyMsg true (Some 5) 1 ∅ ∅.
Definition commit1 : @config Z := after (hstep (λ v : Z, Some v) led (HApply 1 msg5)).
Definition commit2 : @config Z := after (hstep (λ v : Z, Some v) commit1 (HApply 0 msg5)).

Lemma led_reachable : reachable (λ v : Z, Some v) 2 led.
Proof. eapply (reach_step _ _ two (HRaft 0 leader0)); [exact two_reachable|]. reflexivity. Qed.
Lemma commit1_reachable : reachable (λ v : Z, Some v) 2 commit1.
Proof. eapply (reach_step _ _ led (HApply 1 msg5)); [exact led_reachable|]. vm_compute. reflexivity. Qed.
Lemma commit2_reachable : reachable (λ v : Z, Some v) 2 commit2.
Proof. eapply (reach_step _ _ commit1 (HApply 0 msg5)); [exact commit1_reachable|]. vm_compute. reflexivity. Qed.

Lemma committed_agree_witness : nCommitted commit2 1 = Ok (2, 5).
Proof.
  destruct (committed_agree (λ v : Z, Some v) 2 commit2 1 commit2_reachable) as (_ & _ & nd & c & -> & -> & _ & Hv).
  rewrite (Hv 0 5) by (vm_compute; reflexivity). vm_compute. reflexivity.
Defined.

Lemma one_agreed_witness :
  ∃ poll, 2 ≤ len (holders (cmd:=Z) poll 1 (seqZ 0 2)) ∧ at_index poll 1 0 = Some 5.
Proof.
  destruct (one_agreed (λ v : Z, Some v) 2 [(led, [commit1; commit2])] 1 5 5 2 false 1)
    as (cfg & polls & poll & Hin & Hpoll & _ & He & Hv).
  - intros cfg polls poll Hin Hpoll. apply list_elem_of_singleton in Hin as [= -> ->].
    apply elem_of_cons in Hpoll as [->|Hpoll]; [exact commit1_reachable|].
    apply list_elem_of_singleton in Hpoll as ->. exact commit2_reachable.
  - vm_compute. reflexivity.
  - exists commit2. split; vm_compute; [discriminate|reflexivity].
Defined.

Lemma checkOneLeader_witness :
  checkOneLeader map_to_list (λ _, led) = Ok 0 ∧ ∀ i t, leads led i t → t < 3 ∨ t = 3 ∧ i = 0.
Proof.
  assert (H : checkOneLeader map_to_list (λ _, led) = Ok 0) by (vm_compute; reflexivity).
  split; [exact H|].
  destruct (checkOneLeader_sound (λ v : Z, Some v) map_to_list (λ m, reflexivity _) 2 (λ _, led) 0)
    as (k & t & _ & Hl & Hmax & _); [intros; exact led_reachable| |exact H|].
  - intros _ i t. apply leads_term. vm_compute. reflexivity.
  - assert (t = 3) as ->; [|exact Hmax]. destruct Hl as [_ Hl]. vm_compute in Hl. congruence.
Defined.

Lemma wait_sound_witness : wait (λ _, commit2) 1 2 3 = Ok 5 ∧ decided 2 commit2 1 2 5.
Proof.
  assert (H : wait (λ _, commit2) 1 2 3 = Ok 5) by (vm_compute; reflexivity). split; [exact H|].
  destruct (wait_sound (λ v : Z, Some v) 2 (λ _, commit2) 1 2 3 5) as [[_ Hw]|(E & _)];
    [intros; exact commit2_reachable|exact H|exact Hw|discriminate E].
Defined.
