(* ===== verification/ServiceHarness.v ===== *)
(** * The test harness of the services: [kvraft/config.go] and [shardmaster/config.go].

    The two files are the same code for two kinds of servers, which is why a server is an
    interface here: how it is started and killed, its persister, and whether its peer leads.
    As in file RaftHarness, servers are known by the order of their creation, and a saved
    persister is either the one a server writes to or a copy. *)

From S2P Require Import Prelude RaftState LabServer LabRpc RaftHarness KvServer ShardMaster.

(** A kind of servers. *)
Class Service (cmd Srv : Type) := {
  sv_start : Z → Z → Persister cmd → outcome Srv;   (** number of servers, own number, persister *)
  sv_kill : Srv → Srv;
  sv_raft : Srv → Raft cmd;
}.

Section harness.
Context {cmd Srv : Type} `{Service cmd Srv}.

Inductive saved_ref := SOwn (ps : Persister cmd) | SInst (a : nat).

(** A clerk is known by the value of [nextClientId] when it was made. *)
Record config := MkSC {
  net : Network;
  cfg_n : Z;
  servers : list (option nat);
  saved : list (option saved_ref);
  endnames : list (option (list string));
  clerks : gmap Z (list string);
  nextClientId : Z;
  insts : list Srv;
}.

Definition set_net (rn : Network) (cfg : config) : config :=
  MkSC rn (cfg_n cfg) (servers cfg) (saved cfg) (endnames cfg) (clerks cfg) (nextClientId cfg) (insts cfg).
Definition set_servers (l : list (option nat)) (cfg : config) : config :=
  MkSC (net cfg) (cfg_n cfg) l (saved cfg) (endnames cfg) (clerks cfg) (nextClientId cfg) (insts cfg).
Definition set_saved (l : list (option saved_ref)) (cfg : config) : config :=
  MkSC (net cfg) (cfg_n cfg) (servers cfg) l (endnames cfg) (clerks cfg) (nextClientId cfg) (insts cfg).
Definition set_endnames (l : list (option (list string))) (cfg : config) : config :=
  MkSC (net cfg) (cfg_n cfg) (servers cfg) (saved cfg) l (clerks cfg) (nextClientId cfg) (insts cfg).
Definition set_clerks (m : gmap Z (list string)) (k : Z) (cfg : config) : config :=
  MkSC (net cfg) (cfg_n cfg) (servers cfg) (saved cfg) (endnames cfg) m k (insts cfg).
Definition set_insts (l : list Srv) (cfg : config) : config :=
  MkSC (net cfg) (cfg_n cfg) (servers cfg) (saved cfg) (endnames cfg) (clerks cfg) (nextClientId cfg) l.

(** ** Connections between servers *)

(** [cfg.endnames[i][to[j]]] and [cfg.endnames[to[j]][i]] *)
Definition out_end (cfg : config) (i : Z) (to : list Z) (j : Z) : outcome string :=
  t ← must (zlookup to j); endname_at (endnames cfg) i t.
Definition in_end (cfg : config) (i : Z) (to : list Z) (j : Z) : outcome string :=
  t ← must (zlookup to j); endname_at (endnames cfg) t i.

Definition connectUnlocked (cfg : config) (i : Z) (to : list Z) : outcome config :=
  let js := seqZ 0 (len to) in
  rn ← enable_loop (λ _, Ok true) (out_end cfg i to) true (net cfg) js;
  rn ← enable_loop (λ _, Ok true) (in_end cfg i to) true rn js;
  Ok (set_net rn cfg).

(** The second loop asks whether [cfg.endnames[j]] is nil, not [cfg.endnames[from[j]]]. *)
Definition disconnectUnlocked (cfg : config) (i : Z) (from : list Z) : outcome config :=
  let js := seqZ 0 (len from) in
  rn ← enable_loop (λ _, has_ends (endnames cfg) i) (out_end cfg i from) false (net cfg) js;
  rn ← enable_loop (has_ends (endnames cfg)) (in_end cfg i from) false rn js;
  Ok (set_net rn cfg).

Definition All (cfg : config) : list Z := seqZ 0 (cfg_n cfg).

Fixpoint connect_each (cfg : config) (is_ : list Z) : outcome config :=
  match is_ with
  | [] => Ok cfg
  | i :: is_ => cfg ← connectUnlocked cfg i (All cfg); connect_each cfg is_
  end.
Definition ConnectAll (cfg : config) : outcome config := connect_each cfg (seqZ 0 (cfg_n cfg)).

(** One loop of [partition]: the servers [q] leave [other] and join [p]. *)
Fixpoint split_off (cfg : config) (q p other : list Z) : outcome config :=
  match q with
  | [] => Ok cfg
  | i :: q =>
      cfg ← disconnectUnlocked cfg i other;
      cfg ← connectUnlocked cfg i p;
      split_off cfg q p other
  end.
Definition partition (cfg : config) (p1 p2 : list Z) : outcome config :=
  cfg ← split_off cfg p1 p1 p2;
  split_off cfg p2 p2 p1.

(** ** Clients *)

(** [sa[i], sa[j] = sa[j], sa[i]] for [i] from [i] on, with [j] below [i + 1]. *)
Fixpoint shuffle {A} (sa : list A) (i : Z) (js : list Z) : outcome (list A) :=
  match js with
  | [] => Ok sa
  | j :: js =>
      x ← must (zlookup sa i);
      y ← must (zlookup sa j);
      sa ← must (zinsert sa i y);
      sa ← must (zinsert sa j x);
      shuffle sa (i + 1) js
  end.

(** [js] are the results of [rand.Intn(i + 1)]. *)
Definition random_handles {A} (kvh : list A) (js : list Z) : outcome (list A) := shuffle kvh 0 js.

(** A loop that enables or disables ends of a clerk. *)
Fixpoint enable_ends (endnames : list string) (b : bool) (rn : Network) (to : list Z) : outcome Network :=
  match to with
  | [] => Ok rn
  | j :: to => s ← must (zlookup endnames j); enable_ends endnames b (Enable rn s b) to
  end.

Definition ConnectClientUnlocked (cfg : config) (ck : Z) (to : list Z) : outcome config :=
  rn ← enable_ends (default [] (clerks cfg !! ck)) true (net cfg) to;
  Ok (set_net rn cfg).
Definition DisconnectClientUnlocked (cfg : config) (ck : Z) (from : list Z) : outcome config :=
  rn ← enable_ends (default [] (clerks cfg !! ck)) false (net cfg) from;
  Ok (set_net rn cfg).

(** The new clerk, and the ends it is given, in their order. *)
Definition makeClient (cfg : config) (to : list Z) (names : Z → string) (js : list Z) :
    outcome (config * Z * list string) :=
  let endnames := names <$> seqZ 0 (cfg_n cfg) in
  rn ← make_ends names (net cfg) (seqZ 0 (cfg_n cfg));
  handles ← random_handles endnames js;
  let ck := nextClientId cfg in
  let cfg := set_clerks (<[ck := endnames]> (clerks cfg)) (nextClientId cfg + 1) (set_net rn cfg) in
  cfg ← ConnectClientUnlocked cfg ck to;
  Ok (cfg, ck, handles).

Definition deleteClient (cfg : config) (ck : Z) : config :=
  set_clerks (delete ck (clerks cfg)) (nextClientId cfg) cfg.

(** ** Servers *)

Definition read_saved (ins : list Srv) (p : saved_ref) : outcome (Persister cmd) :=
  match p with
  | SOwn ps => Ok ps
  | SInst a => s ← must (ins !! a); Ok (persister (sv_raft s))
  end.

(** [cfg.saved[i].Copy()], if there is one. *)
Definition copy_saved (cfg : config) (i : Z) : outcome config :=
  p ← must (zlookup (saved cfg) i);
  match p with
  | None => Ok cfg
  | Some p =>
      ps ← read_saved (insts cfg) p;
      l ← must (zinsert (saved cfg) i (Some (SOwn (Copy ps))));
      Ok (set_saved l cfg)
  end.

Definition kill_server (cfg : config) (i : Z) : outcome config :=
  r ← must (zlookup (servers cfg) i);
  match r with
  | None => Ok cfg
  | Some a =>
      s ← must (insts cfg !! a);
      l ← must (zinsert (servers cfg) i None);
      Ok (set_servers l (set_insts (<[a := sv_kill s]> (insts cfg)) cfg))
  end.

Definition ShutdownServer (cfg : config) (i : Z) : outcome config :=
  cfg ← disconnectUnlocked cfg i (All cfg);
  let cfg := set_net (DeleteServer (net cfg) (inl i)) cfg in
  cfg ← copy_saved cfg i;
  kill_server cfg i.

Definition StartServer (cfg : config) (i : Z) (names : Z → string) : outcome config :=
  let js := seqZ 0 (cfg_n cfg) in
  eps ← must (zinsert (endnames cfg) i (Some (names <$> js)));
  rn ← make_ends names (net cfg) js;
  let cfg := set_net rn (set_endnames eps cfg) in
  p ← must (zlookup (saved cfg) i);
  ps ← (match p with Some p => ps ← read_saved (insts cfg) p; Ok (Copy ps) | None => Ok MakePersister end);
  s ← sv_start (cfg_n cfg) i ps;
  let a := length (insts cfg) in
  sv ← must (zinsert (saved cfg) i (Some (SInst a)));
  rs ← must (zinsert (servers cfg) i (Some a));
  let cfg := set_insts (insts cfg ++ [s]) (set_saved sv (set_servers rs cfg)) in
  Ok (set_net (AddServer (net cfg) (inl i) a) cfg).

Fixpoint start_each (names : Z → Z → string) (cfg : config) (js : list Z) : outcome config :=
  match js with [] => Ok cfg | i :: js => cfg ← StartServer cfg i (names i); start_each names cfg js end.

Definition make_config (n : Z) (unreliable : bool) (names : Z → Z → string) : outcome config :=
  guard_go (0 <=? n);;
  let k := Z.to_nat n in
  let cfg := MkSC MakeNetwork n (replicate k None) (replicate k None) (replicate k None) ∅ (n + 1000) [] in
  cfg ← start_each names cfg (seqZ 0 n);
  cfg ← ConnectAll cfg;
  Ok (set_net (Reliable (net cfg) (negb unreliable)) cfg).

(** The end of a test: every server that runs is killed. *)
Definition kill_all (rs : list (option nat)) (ins : list Srv) : list Srv :=
  foldl (λ ins r, match r with Some a => alter sv_kill a ins | None => ins end) ins rs.

Definition cleanup (cfg : config) : outcome config :=
  rn ← Cleanup (net cfg);
  Ok (set_net rn (set_insts (kill_all (servers cfg) (insts cfg)) cfg)).

(** The largest encoded state; [size] is the number of bytes of an encoding. *)
Fixpoint max_size (size : Persister cmd → Z) (cfg : config) (js : list Z) (m : Z) : outcome Z :=
  match js with
  | [] => Ok m
  | i :: js =>
      p ← must (zlookup (saved cfg) i);
      p ← must p;
      ps ← read_saved (insts cfg) p;
      max_size size cfg js (if m <? size ps then size ps else m)
  end.
Definition LogSize (RaftStateSize : Persister cmd → Z) (cfg : config) : outcome Z :=
  max_size RaftStateSize cfg (seqZ 0 (cfg_n cfg)) 0.

Definition SnapshotSize (SnapshotSize : Persister cmd → Z) (cfg : config) : outcome Z :=
  max_size SnapshotSize cfg (seqZ 0 (cfg_n cfg)) 0.

(** ** Putting the leader into a minority *)

Fixpoint find_leader (cfg : config) (js : list Z) : outcome (bool * Z) :=
  match js with
  | [] => Ok (false, 0)
  | i :: js =>
      r ← must (zlookup (servers cfg) i);
      a ← must r;
      s ← must (insts cfg !! a);
      let '(_, is_leader) := GetState (sv_raft s) in
      if (is_leader : bool) then Ok (true, i) else find_leader cfg js
  end.
Definition Leader (cfg : config) : outcome (bool * Z) := find_leader cfg (seqZ 0 (cfg_n cfg)).

(** [j] counts the servers that have been placed. *)
Fixpoint place (l : Z) (js : list Z) (j : Z) (p1 p2 : list Z) : outcome (list Z * list Z) :=
  match js with
  | [] => Ok (p1, p2)
  | i :: js =>
      if i =? l then place l js j p1 p2
      else if j <? len p1 then p1 ← must (zinsert p1 j i); place l js (j + 1) p1 p2
      else p2 ← must (zinsert p2 (j - len p1) i); place l js (j + 1) p1 p2
  end.

(** The two sides for the leader [l]. *)
Definition sides (n l : Z) : outcome (list Z * list Z) :=
  let p1 := replicate (Z.to_nat (n / 2 + 1)) 0 in
  let p2 := replicate (Z.to_nat (n / 2)) 0 in
  '(p1, p2) ← place l (seqZ 0 n) 0 p1 p2;
  p2 ← must (zinsert p2 (len p2 - 1) l);
  Ok (p1, p2).
Definition make_partition (cfg : config) : outcome (list Z * list Z) :=
  '(_, l) ← Leader cfg;
  sides (cfg_n cfg) l.

(** ** Links between servers *)

(** The end of [a] to [b] is enabled. *)
Definition link (cfg : config) (a b : Z) : Prop :=
  ∃ e, endname_at (endnames cfg) a b = Ok e ∧ is_on (net cfg) e.

(** All servers have been started, and their ends have different names. *)
Record wf (n : Z) (cfg : config) : Prop := {
  wf_n : cfg_n cfg = n;
  wf_ends : ∀ i j, 0 ≤ i < n → 0 ≤ j < n → ∃ e, endname_at (endnames cfg) i j = Ok e;
  wf_inj : ∀ i j i' j' e, endname_at (endnames cfg) i j = Ok e → endname_at (endnames cfg) i' j' = Ok e →
    i = i' ∧ j = j';
}.

Lemma wf_has n cfg i : wf n cfg → 0 ≤ i < n → has_ends (endnames cfg) i = Ok true.
Proof.
  intros Hw Hi. destruct (wf_ends _ _ Hw i i Hi Hi) as [e He]. unfold endname_at, has_ends in *.
  apply bind_Ok in He as (l & Hl%must_Ok & He%must_Ok). rewrite Hl. simpl. destruct l; [done|].
  apply zlookup_Some_lt in He. unfold len in He. simpl in He. lia.
Qed.

Lemma enable_loop_total test name b rn js :
  (∀ j, j ∈ js → (∃ t, test j = Ok t) ∧ ∃ e, name j = Ok e) → ∃ rn', enable_loop test name b rn js = Ok rn'.
Proof.
  revert rn. induction js as [|j js IH]; cbn [enable_loop]; intros rn Hall; [by eexists|].
  destruct (Hall j) as [[t ->] [e He]]; [by left|]. rewrite He.
  assert (Hjs : ∀ k, k ∈ js → (∃ t, test k = Ok t) ∧ ∃ e, name k = Ok e) by (intros; apply Hall; by right).
  destruct t; simpl; by apply IH.
Qed.

Lemma out_end_ok n cfg i to j :
  wf n cfg → 0 ≤ i < n → (∀ t, t ∈ to → 0 ≤ t < n) → j ∈ seqZ 0 (len to) →
  (∃ e, out_end cfg i to j = Ok e) ∧ ∃ e, in_end cfg i to j = Ok e.
Proof.
  intros Hw Hi Hto Hj%elem_of_seqZ. unfold out_end, in_end.
  destruct (zlookup_lt_Some to j) as [t Ht]; [lia|]. rewrite Ht. simpl.
  assert (0 ≤ t < n).
  { apply Hto. unfold zlookup in Ht. case_decide; [|done]. by eapply list_elem_of_lookup_2. }
  split; by eapply wf_ends.
Qed.

Lemma elem_zlookup {A} (l : list A) x : x ∈ l ↔ ∃ j, j ∈ seqZ 0 (len l) ∧ zlookup l j = Some x.
Proof.
  split.
  - intros (k & Hk)%list_elem_of_lookup. exists (Z.of_nat k). rewrite zlookup_nat. split; [|done].
    apply elem_of_seqZ. apply lookup_lt_Some in Hk. unfold len. lia.
  - intros (j & _ & Hj). unfold zlookup in Hj. case_decide; [|done]. by eapply list_elem_of_lookup_2.
Qed.

(** The ends that [connectUnlocked] and [disconnectUnlocked] touch. *)
Lemma named_out test cfg i to e :
  (∀ j, j ∈ seqZ 0 (len to) → test j = Ok true) →
  named test (out_end cfg i to) (seqZ 0 (len to)) e ↔ ∃ t, t ∈ to ∧ endname_at (endnames cfg) i t = Ok e.
Proof.
  intros Ht. unfold named, out_end. setoid_rewrite (elem_zlookup to). split.
  - intros (j & Hj & _ & H0). apply bind_Ok in H0 as (t & Hl%must_Ok & He). exists t. split; [by exists j|done].
  - intros (t & (j & Hj & Hl) & He). exists j. rewrite Hl. split_and!; [done|by apply Ht|done].
Qed.
Lemma named_in test cfg i to e :
  (∀ j, j ∈ seqZ 0 (len to) → test j = Ok true) →
  named test (in_end cfg i to) (seqZ 0 (len to)) e ↔ ∃ t, t ∈ to ∧ endname_at (endnames cfg) t i = Ok e.
Proof.
  intros Ht. unfold named, in_end. setoid_rewrite (elem_zlookup to). split.
  - intros (j & Hj & _ & H0). apply bind_Ok in H0 as (t & Hl%must_Ok & He). exists t. split; [by exists j|done].
  - intros (t & (j & Hj & Hl) & He). exists j. rewrite Hl. split_and!; [done|by apply Ht|done].
Qed.

(** Server [i] and one of the servers [to], in either order. *)
Definition between (i : Z) (to : list Z) (a b : Z) : Prop := (a = i ∧ b ∈ to) ∨ (b = i ∧ a ∈ to).

Lemma between_name n cfg i to a b e :
  wf n cfg → endname_at (endnames cfg) a b = Ok e →
  between i to a b ↔
    (∃ t, t ∈ to ∧ endname_at (endnames cfg) i t = Ok e) ∨ (∃ t, t ∈ to ∧ endname_at (endnames cfg) t i = Ok e).
Proof.
  intros Hw He. split.
  - intros [[-> Hb]|[-> Ha]]; eauto.
  - intros [(t & Ht & He')|(t & Ht & He')]; destruct (wf_inj _ _ Hw _ _ _ _ _ He He') as [-> ->]; [by left|by right].
Qed.

Lemma link_on cfg a b e : endname_at (endnames cfg) a b = Ok e → link cfg a b ↔ is_on (net cfg) e.
Proof. intros He. split; [|by exists e]. intros (e' & He' & Hon). congruence. Qed.

Lemma connectUnlocked_ok n cfg i to :
  wf n cfg → 0 ≤ i < n → (∀ t, t ∈ to → 0 ≤ t < n) →
  ∃ rn, connectUnlocked cfg i to = Ok (set_net rn cfg) ∧ wf n (set_net rn cfg) ∧
    ∀ a b, 0 ≤ a < n → 0 ≤ b < n → link (set_net rn cfg) a b ↔ link cfg a b ∨ between i to a b.
Proof.
  intros Hw Hi Hto. unfold connectUnlocked.
  destruct (enable_loop_total (λ _, Ok true) (out_end cfg i to) true (net cfg) (seqZ 0 (len to))) as [rn1 H1].
  { intros j Hj. split; [by eexists|]. by eapply out_end_ok. }
  destruct (enable_loop_total (λ _, Ok true) (in_end cfg i to) true rn1 (seqZ 0 (len to))) as [rn2 H2].
  { intros j Hj. split; [by eexists|]. by eapply out_end_ok. }
  rewrite H1. cbn [mbind outcome_bind]. rewrite H2. exists rn2. split; [done|].
  split; [by destruct Hw|]. intros a b Ha Hb.
  apply enable_loop_spec in H1 as [_ E1], H2 as [_ E2].
  destruct (wf_ends _ _ Hw a b Ha Hb) as [e He].
  rewrite (link_on (set_net rn2 cfg) a b e He), (link_on cfg a b e He). cbn [net set_net].
  rewrite E2, E1, named_out, named_in by done. rewrite (between_name n cfg i to a b e Hw He). tauto.
Qed.

Lemma disconnectUnlocked_ok n cfg i from :
  wf n cfg → 0 ≤ i < n → (∀ t, t ∈ from → 0 ≤ t < n) → len from ≤ Z.max 0 n →
  ∃ rn, disconnectUnlocked cfg i from = Ok (set_net rn cfg) ∧ wf n (set_net rn cfg) ∧
    ∀ a b, 0 ≤ a < n → 0 ≤ b < n → link (set_net rn cfg) a b ↔ link cfg a b ∧ ¬ between i from a b.
Proof.
  intros Hw Hi Hto Hlen. unfold disconnectUnlocked.
  assert (Hhas : ∀ j, j ∈ seqZ 0 (len from) → has_ends (endnames cfg) j = Ok true).
  { intros j Hj%elem_of_seqZ. eapply wf_has; [done|]. lia. }
  assert (Hhas' : ∀ j, j ∈ seqZ 0 (len from) → has_ends (endnames cfg) i = Ok true).
  { intros _ _. by eapply wf_has. }
  destruct (enable_loop_total (λ _, has_ends (endnames cfg) i) (out_end cfg i from) false (net cfg)
    (seqZ 0 (len from))) as [rn1 H1].
  { intros j Hj. split; [eexists; by apply (Hhas' j)|]. by eapply out_end_ok. }
  destruct (enable_loop_total (has_ends (endnames cfg)) (in_end cfg i from) false rn1
    (seqZ 0 (len from))) as [rn2 H2].
  { intros j Hj. split; [eexists; by apply (Hhas j)|]. by eapply out_end_ok. }
  rewrite H1. cbn [mbind outcome_bind]. rewrite H2. exists rn2. split; [done|].
  split; [by destruct Hw|]. intros a b Ha Hb.
  apply enable_loop_spec in H1 as [_ E1], H2 as [_ E2].
  destruct (wf_ends _ _ Hw a b Ha Hb) as [e He].
  rewrite (link_on (set_net rn2 cfg) a b e He), (link_on cfg a b e He). cbn [net set_net].
  rewrite E2, E1, named_out, named_in by done. rewrite (between_name n cfg i from a b e Hw He). tauto.
Qed.

(** A server of [q] and one of [p], in either order. *)
Definition across (q p : list Z) (a b : Z) : Prop := (a ∈ q ∧ b ∈ p) ∨ (b ∈ q ∧ a ∈ p).

Lemma across_cons i q p a b : across (i :: q) p a b ↔ between i p a b ∨ across q p a b.
Proof. unfold across, between. rewrite !elem_of_cons. tauto. Qed.

Lemma split_off_ok n cfg q p other :
  wf n cfg → (∀ t, t ∈ p → 0 ≤ t < n) → (∀ t, t ∈ other → 0 ≤ t < n) → len other ≤ Z.max 0 n →
  q ⊆ p → (∀ t, t ∈ p → t ∉ other) →
  ∃ rn, split_off cfg q p other = Ok (set_net rn cfg) ∧ wf n (set_net rn cfg) ∧
    ∀ a b, 0 ≤ a < n → 0 ≤ b < n →
      link (set_net rn cfg) a b ↔ across q p a b ∨ (link cfg a b ∧ ¬ across q other a b).
Proof.
  intros Hw Hp Ho Hlen Hq Hdis. revert cfg Hw. induction q as [|i q IH]; intros cfg Hw; cbn [split_off].
  { exists (net cfg). assert (set_net (net cfg) cfg = cfg) as -> by by destruct cfg.
    split_and!; [done|done|]. intros a b _ _. unfold across. split.
    - intros Hl. right. split; [done|]. intros [[Hn _]|[Hn _]]; by apply not_elem_of_nil in Hn.
    - intros [[[Hn _]|[Hn _]]|[Hl _]]; [by apply not_elem_of_nil in Hn..|done]. }
  assert (Hip : i ∈ p) by (apply Hq; by left).
  destruct (disconnectUnlocked_ok n cfg i other Hw) as (rn1 & -> & Hw1 & L1); [by apply Hp|done|done|].
  cbn [mbind outcome_bind].
  destruct (connectUnlocked_ok n (set_net rn1 cfg) i p Hw1) as (rn2 & -> & Hw2 & L2); [by apply Hp|done|].
  cbn [mbind outcome_bind]. assert (Hset : ∀ rn' rn, set_net rn' (set_net rn cfg) = set_net rn' cfg) by done.
  rewrite Hset in *. destruct (IH ltac:(intros x Hx; apply Hq; by right) _ Hw2) as (rn3 & -> & Hw3 & L3).
  rewrite Hset in *. exists rn3. split_and!; [done|done|]. intros a b Ha Hb.
  rewrite L3, L2, L1, !across_cons by done.
  assert (between i p a b → ¬ across q other a b); [|tauto].
  unfold between, across. pose proof (Hdis a). pose proof (Hdis b). pose proof (Hdis i Hip).
  pose proof (Hq a). pose proof (Hq b). intros [[-> Hb']|[-> Ha']] [[Q1 Q2]|[Q1 Q2]]; tauto.
Qed.

(** [partition] cuts the servers in two: whatever was connected before, afterwards any two
    servers of one side are connected, in both directions, and no server is connected to one
    of the other side. *)
Lemma partition_ok n cfg p1 p2 :
  wf n cfg → p1 ++ p2 ≡ₚ seqZ 0 n →
  ∃ cfg', partition cfg p1 p2 = Ok cfg' ∧
    ∀ a b, 0 ≤ a < n → 0 ≤ b < n → link cfg' a b ↔ (a ∈ p1 ∧ b ∈ p1) ∨ (a ∈ p2 ∧ b ∈ p2).
Proof.
  intros Hw Hperm.
  assert (Hin : ∀ t, t ∈ p1 ∨ t ∈ p2 ↔ 0 ≤ t < n).
  { intros t. rewrite <- elem_of_app, Hperm, elem_of_seqZ. lia. }
  assert (NoDup (p1 ++ p2)) as (_ & Hdis & _)%NoDup_app by (rewrite Hperm; apply NoDup_seqZ).
  assert (Hlen : len p1 ≤ Z.max 0 n ∧ len p2 ≤ Z.max 0 n).
  { apply Permutation_length in Hperm. rewrite length_app, length_seqZ in Hperm. unfold len. lia. }
  unfold partition.
  destruct (split_off_ok n cfg p1 p1 p2 Hw) as (rn1 & -> & Hw1 & L1); [intros; apply Hin; auto..|lia|done|done|].
  cbn [mbind outcome_bind].
  destruct (split_off_ok n (set_net rn1 cfg) p2 p2 p1 Hw1) as (rn2 & -> & Hw2 & L2);
    [intros; apply Hin; auto..|lia|done|intros t H2 H1; by apply (Hdis t)|].
  eexists. split; [done|]. intros a b Ha Hb. rewrite L2, L1 by done. unfold across.
  pose proof (Hdis a). pose proof (Hdis b). apply Hin in Ha, Hb. tauto.
Qed.

(** ** The sides *)

(** A side: the servers placed so far, and empty ([0]) slots. *)
Definition side (xs : list Z) (k : Z) : list Z := xs ++ replicate (Z.to_nat (k - len xs)) 0.

Lemma len_side xs k : len xs ≤ k → len (side xs k) = k.
Proof. intros. unfold side. rewrite len_app. unfold len at 2. rewrite length_replicate. lia. Qed.

Lemma side_place xs k i : len xs < k → zinsert (side xs k) (len xs) i = Some (side (xs ++ [i]) k).
Proof.
  intros Hk. apply zinsert_Some. rewrite len_side by lia. pose proof (len_nonneg xs). split; [lia|].
  unfold side. rewrite insert_app_r_alt by (unfold len; lia).
  replace (Z.to_nat (len xs) - length xs)%nat with 0%nat by (unfold len; lia).
  replace (Z.to_nat (k - len xs)) with (S (Z.to_nat (k - len (xs ++ [i])))) by (rewrite len_app; change (len [i]) with 1; lia).
  simpl. by rewrite <- app_assoc.
Qed.

Lemma place_ok l js xs ys k1 k2 :
  let f := filter (λ i, i ≠ l) js in
  len xs ≤ k1 → (len ys = 0 ∨ len xs = k1) → len xs + len ys + len f < k1 + k2 →
  ∃ xs' ys', place l js (len xs + len ys) (side xs k1) (side ys k2) = Ok (side xs' k1, side ys' k2) ∧
    len xs' ≤ k1 ∧ (len ys' = 0 ∨ len xs' = k1) ∧ xs' ++ ys' = xs ++ ys ++ f.
Proof.
  revert xs ys. induction js as [|i js IH]; intros xs ys f Hx Hor Hlen; cbn [place].
  { exists xs, ys. split_and!; [done|done|done|]. unfold f. simpl. by rewrite app_nil_r. }
  unfold f in *. rewrite filter_cons in *. destruct (Z.eqb_spec i l) as [->|Hne].
  { rewrite decide_False in * by tauto. by apply IH. }
  rewrite decide_True in * by done. rewrite len_cons in Hlen. rewrite len_side by done.
  pose proof (len_nonneg xs). pose proof (len_nonneg ys). pose proof (len_nonneg (filter (λ i, i ≠ l) js)).
  assert (Hone : ∀ zs, len (zs ++ [i]) = len zs + 1) by (intros; by rewrite len_app).
  destruct (Z.ltb_spec (len xs + len ys) k1) as [Hlt|Hge].
  - assert (len ys = 0) as Hy by lia. rewrite Hy, Z.add_0_r, side_place by lia. cbn [must mbind outcome_bind].
    destruct (IH (xs ++ [i]) ys) as (xs' & ys' & Hp & HA & HB & HC); rewrite ?Hone; [lia|by left|lia|].
    rewrite Hone, Hy in Hp. rewrite Z.add_0_r in Hp. rewrite Hp. exists xs', ys'. split_and!; [done|done|done|].
    rewrite HC. destruct ys; [by rewrite <- app_assoc|]. rewrite len_cons in Hy. pose proof (len_nonneg ys). lia.
  - assert (len xs = k1) as Hk by lia. replace (len xs + len ys - k1) with (len ys) by lia.
    rewrite side_place by lia. cbn [must mbind outcome_bind].
    destruct (IH xs (ys ++ [i])) as (xs' & ys' & Hp & HA & HB & HC); rewrite ?Hone; [lia|by right|lia|].
    rewrite Hone, Z.add_assoc in Hp. rewrite Hp. exists xs', ys'. split_and!; [done|done|done|].
    by rewrite HC, <- !app_assoc.
Qed.

Lemma filter_ne_perm (l : Z) (js : list Z) :
  NoDup js → l ∈ js → l :: filter (λ i, i ≠ l) js ≡ₚ js.
Proof.
  intros Hnd Hl. apply NoDup_Permutation; [|done|].
  - constructor; [|by apply NoDup_filter]. intros [Hn _]%list_elem_of_filter. done.
  - intros x. rewrite elem_of_cons, list_elem_of_filter. destruct (decide (x = l)) as [->|]; tauto.
Qed.

Lemma sides_ok n l :
  n mod 2 = 1 → 1 < n → 0 ≤ l < n →
  ∃ xs ys, sides n l = Ok (xs, ys ++ [l]) ∧ len xs = n / 2 + 1 ∧ len (ys ++ [l]) = n / 2 ∧
    xs ++ ys ++ [l] ≡ₚ seqZ 0 n.
Proof.
  intros Hodd Hn Hl. pose proof (Z.div_mod n 2 ltac:(lia)) as Hdm. set (h := n / 2) in *.
  pose proof (filter_ne_perm l (seqZ 0 n) (NoDup_seqZ 0 n) ltac:(apply elem_of_seqZ; lia)) as Hperm.
  set (f := filter (λ i, i ≠ l) (seqZ 0 n)) in *.
  assert (Hf : len f = n - 1).
  { apply Permutation_length in Hperm. simpl in Hperm. rewrite length_seqZ in Hperm. unfold len. lia. }
  destruct (place_ok l (seqZ 0 n) [] [] (h + 1) h) as (xs & ys & Hp & Hx & Hor & Heq); fold f;
    change (len (@nil Z)) with 0; [lia|by left|lia|].
  fold f in Heq. simpl in Heq. unfold sides. fold h.
  change (len (@nil Z) + len (@nil Z)) with 0 in Hp.
  unfold side in Hp at 1 2. change (len (@nil Z)) with 0 in Hp. rewrite !Z.sub_0_r in Hp. simpl in Hp.
  rewrite Hp. cbn [mbind outcome_bind].
  assert (Hlen : len xs + len ys = n - 1) by (rewrite <- Hf, <- Heq, len_app; lia).
  pose proof (len_nonneg ys). assert (len xs = h + 1 ∧ len ys = h - 1) as [Hlx Hly] by lia.
  rewrite len_side by lia. replace (h - 1) with (len ys) by lia. rewrite side_place by lia.
  cbn [must mbind outcome_bind]. exists xs, ys. unfold side. rewrite len_app. change (len [l]) with 1.
  replace (Z.to_nat (h + 1 - len xs)) with 0%nat by lia. replace (Z.to_nat (h - (len ys + 1))) with 0%nat by lia.
  simpl. rewrite !app_nil_r. split_and!; [done|lia|lia|].
  rewrite (assoc_L (++)), Heq. rewrite <- Hperm. by rewrite Permutation_app_comm.
Qed.

(** With an odd number of servers, partitioning along [make_partition] cuts the leader off
    from a majority: more than half of the servers are all connected with each other and
    with nobody else, and the leader is on the other side. *)
Theorem make_partition_isolates n cfg l :
  wf n cfg → n mod 2 = 1 → 1 < n → 0 ≤ l < n → Leader cfg = Ok (true, l) →
  ∃ p1 p2 cfg', make_partition cfg = Ok (p1, p2) ∧ partition cfg p1 p2 = Ok cfg' ∧
    (n < 2 * len p1) ∧ NoDup p1 ∧ (l ∉ p1) ∧
    ∀ a b, a ∈ p1 → 0 ≤ b < n → (link cfg' a b ↔ b ∈ p1).
Proof.
  intros Hw Hodd Hn Hl HL. destruct (sides_ok n l Hodd Hn Hl) as (xs & ys & Hs & Hx & Hy & Hperm).
  pose proof (Z.div_mod n 2 ltac:(lia)). destruct (partition_ok n cfg xs (ys ++ [l]) Hw Hperm) as (cfg' & Hp & Hlink).
  exists xs, (ys ++ [l]), cfg'.
  assert (NoDup (xs ++ ys ++ [l])) as (Hnd & Hdis & _)%NoDup_app by (rewrite Hperm; apply NoDup_seqZ).
  split_and!.
  - unfold make_partition. rewrite HL. cbn [mbind outcome_bind]. by rewrite (wf_n _ _ Hw).
  - done.
  - lia.
  - done.
  - intros Hlx. apply (Hdis l Hlx). apply elem_of_app. right. by left.
  - intros a b Ha Hb. assert (a ∈ seqZ 0 n) as Hin%elem_of_seqZ by (rewrite <- Hperm; apply elem_of_app; by left).
    rewrite Hlink by lia.
    pose proof (Hdis a Ha). tauto.
Qed.

(** ** Starting servers *)

(** The names of the ends are different and known to the network. *)
Record named_inv (n : Z) (cfg : config) : Prop := {
  ni_n : cfg_n cfg = n;
  ni_len : len (endnames cfg) = n;
  ni_inj : ∀ i j i' j' e, endname_at (endnames cfg) i j = Ok e → endname_at (endnames cfg) i' j' = Ok e →
    i = i' ∧ j = j';
  ni_ends : ∀ i j e, endname_at (endnames cfg) i j = Ok e → e ∈ ends (net cfg);
}.

(** The ends of server [i] are there. *)
Definition started (n : Z) (cfg : config) (i : Z) : Prop :=
  ∀ j, 0 ≤ j < n → ∃ e, endname_at (endnames cfg) i j = Ok e.

Lemma StartServer_ends cfg i names cfg' :
  StartServer cfg i names = Ok cfg' →
  ∃ eps rn, zinsert (endnames cfg) i (Some (names <$> seqZ 0 (cfg_n cfg))) = Some eps ∧
    make_ends names (net cfg) (seqZ 0 (cfg_n cfg)) = Ok rn ∧
    endnames cfg' = eps ∧ cfg_n cfg' = cfg_n cfg ∧ ends (net cfg') = ends rn.
Proof.
  unfold StartServer. intros Hs. apply bind_Ok in Hs as (eps & Heps%must_Ok & Hs).
  apply bind_Ok in Hs as (rn & Hrn & Hs). exists eps, rn. split_and!; [done|done|..]; by go_inv.
Qed.

Lemma StartServer_inv n cfg i names cfg' :
  named_inv n cfg → StartServer cfg i names = Ok cfg' →
  named_inv n cfg' ∧ started n cfg' i ∧ ∀ j, started n cfg j → started n cfg' j.
Proof.
  intros [Hn Hlen Hinj Hends] (eps & rn & Heps & Hrn & He & Hn' & Hr)%StartServer_ends. rewrite Hn in *.
  apply make_ends_spec in Hrn as (Hf & Hnd & Hends' & _).
  assert (Hcur : ∀ i' j e, endname_at eps i' j = Ok e ↔
    if decide (i' = i) then 0 ≤ j < n ∧ e = names j else endname_at (endnames cfg) i' j = Ok e).
  { intros i' j e. by apply cur_new. }
  assert (Hnew : ∀ j, 0 ≤ j < n → names j ∈ names <$> seqZ 0 n).
  { intros j Hj. apply list_elem_of_fmap_2, elem_of_seqZ. lia. }
  assert (Hold : ∀ i' j e, endname_at (endnames cfg) i' j = Ok e → e ∉ names <$> seqZ 0 n).
  { intros i' j e He'%Hends (k & -> & Hk)%list_elem_of_fmap. by apply (Hf k Hk). }
  split; [split|split].
  - done.
  - rewrite He. by rewrite (len_zinsert _ _ _ _ Heps).
  - intros i1 j1 i2 j2 e. rewrite He, !Hcur. destruct (decide (i1 = i)) as [->|], (decide (i2 = i)) as [->|].
    + intros [H1 ->] [H2 E]. split; [done|].
      apply (NoDup_fmap_inj names _ _ _ Hnd); [apply elem_of_seqZ; lia..|done].
    + intros [H1 ->] H2%Hold. destruct H2. by apply Hnew.
    + intros H1%Hold [H2 ->]. destruct H1. by apply Hnew.
    + apply Hinj.
  - intros i1 j1 e. rewrite He, Hcur, Hr, Hends'.
    destruct (decide (i1 = i)); [intros [H1 ->]; right; by apply Hnew|intros H1; left; by eapply Hends].
  - intros j Hj. exists (names j). rewrite He, Hcur. by rewrite decide_True.
  - intros k Hk j Hj. rewrite He. destruct (decide (k = i)) as [->|].
    + exists (names j). rewrite Hcur. by rewrite decide_True.
    + destruct (Hk j Hj) as [e Hke]. exists e. rewrite Hcur. by rewrite decide_False.
Qed.

Lemma start_each_inv n names cfg js cfg' :
  named_inv n cfg → start_each names cfg js = Ok cfg' →
  named_inv n cfg' ∧ (∀ i, i ∈ js → started n cfg' i) ∧ ∀ i, started n cfg i → started n cfg' i.
Proof.
  revert cfg. induction js as [|i js IH]; cbn [start_each]; intros cfg Hi Hrun.
  { injection Hrun as <-. split_and!; [done| |done]. intros i Hin. by apply not_elem_of_nil in Hin. }
  apply bind_Ok in Hrun as (cfg1 & Hs & Hrun). apply (StartServer_inv n) in Hs as (Hi1 & Hst & Hkeep); [|done].
  destruct (IH _ Hi1 Hrun) as (Hi2 & Hall & Hkeep2). split_and!; [done| |auto].
  intros k [->|Hk]%elem_of_cons; auto.
Qed.

Lemma connect_each_ok n cfg js :
  wf n cfg → (∀ i, i ∈ js → 0 ≤ i < n) →
  ∃ rn, connect_each cfg js = Ok (set_net rn cfg) ∧ wf n (set_net rn cfg) ∧
    ∀ a b, 0 ≤ a < n → 0 ≤ b < n → link (set_net rn cfg) a b ↔ link cfg a b ∨ a ∈ js ∨ b ∈ js.
Proof.
  revert cfg. induction js as [|i js IH]; cbn [connect_each]; intros cfg Hw Hjs.
  { exists (net cfg). assert (set_net (net cfg) cfg = cfg) as -> by by destruct cfg.
    split_and!; [done|done|]. intros a b _ _. split; [by left|].
    intros [Hl|[Hn|Hn]]; [done|by apply not_elem_of_nil in Hn..]. }
  assert (Hall : ∀ t, t ∈ All cfg ↔ 0 ≤ t < n).
  { intros t. unfold All. rewrite (wf_n _ _ Hw), elem_of_seqZ. lia. }
  destruct (connectUnlocked_ok n cfg i (All cfg) Hw) as (rn1 & -> & Hw1 & L1); [apply Hjs; by left|apply Hall|].
  cbn [mbind outcome_bind]. destruct (IH _ Hw1) as (rn2 & -> & Hw2 & L2); [intros; apply Hjs; by right|].
  assert (Hset : set_net rn2 (set_net rn1 cfg) = set_net rn2 cfg) by done. rewrite Hset in *.
  exists rn2. split_and!; [done|done|]. intros a b Ha Hb. rewrite L2, L1, !elem_of_cons by done.
  unfold between. rewrite !Hall. tauto.
Qed.

Lemma make_config_parts n unreliable names cfg :
  make_config n unreliable names = Ok cfg →
  ∃ cfg1 rn, wf n cfg1 ∧ wf n (set_net rn cfg1) ∧ cfg = set_net (Reliable rn (negb unreliable)) cfg1 ∧
    ∀ a b, 0 ≤ a < n → 0 ≤ b < n → link (set_net rn cfg1) a b.
Proof.
  unfold make_config. intros Hm. apply bind_Ok in Hm as (u & Hn%guard_go_Ok%Z.leb_le & Hm).
  apply bind_Ok in Hm as (cfg1 & H1 & Hm). apply bind_Ok in Hm as (cfg2 & H2 & [= <-]).
  apply (start_each_inv n) in H1 as (Hi & Hst & _).
  2: { split; cbn [endnames cfg_n]; [done|unfold len; rewrite length_replicate; lia|..];
       intros i j *; unfold endname_at; intros He; exfalso;
       apply bind_Ok in He as (l & ->%must_Ok%zlookup_replicate & He%must_Ok%zlookup_Some_lt);
       unfold len in He; simpl in He; lia. }
  assert (Hw : wf n cfg1).
  { destruct Hi as [? ? ? ?]. split; [done| |done]. intros i j Hi Hj. apply Hst; [apply elem_of_seqZ; lia|done]. }
  unfold ConnectAll in H2. rewrite (wf_n _ _ Hw) in H2.
  destruct (connect_each_ok n cfg1 (seqZ 0 n) Hw) as (rn & E & Hw2 & L).
  { intros i Hin%elem_of_seqZ. lia. }
  rewrite E in H2. injection H2 as <-. exists cfg1, rn. split_and!; [done|done|done|].
  intros a b Ha Hb. apply L; [done|done|]. right. left. apply elem_of_seqZ. lia.
Qed.

Lemma wf_ext n cfg cfg' :
  endnames cfg' = endnames cfg → cfg_n cfg' = cfg_n cfg → wf n cfg → wf n cfg'.
Proof. intros E1 E2 [? ? ?]. split; rewrite ?E1, ?E2; assumption. Qed.

Lemma make_config_wf n unreliable names cfg : make_config n unreliable names = Ok cfg → wf n cfg.
Proof. intros (cfg1 & rn & Hw & _ & -> & _)%make_config_parts. by eapply wf_ext; [..|exact Hw]. Qed.

(** A configuration that is made has all its servers started, with ends of different names,
    and all of them connected with each other. *)
Theorem make_config_connects n unreliable names cfg :
  make_config n unreliable names = Ok cfg →
  wf n cfg ∧ reliable (net cfg) = negb unreliable ∧
  ∀ a b, 0 ≤ a < n → 0 ≤ b < n → link cfg a b.
Proof.
  intros Hm. split; [by eapply make_config_wf|].
  apply make_config_parts in Hm as (cfg1 & rn & _ & _ & -> & L). split; [done|exact L].
Qed.

(** ** Shutting a server down and starting it again *)

(** What a server's saved persister holds. *)
Definition saved_state (cfg : config) (i : Z) : outcome (Persister cmd) :=
  p ← must (zlookup (saved cfg) i);
  p ← must p;
  read_saved (insts cfg) p.

Lemma Copy_id (ps : Persister cmd) : Copy ps = ps.
Proof. by destruct ps. Qed.

(** After a shutdown the state is a copy that no instance writes to. *)
Lemma ShutdownServer_saved cfg i ps cfg1 :
  saved_state cfg i = Ok ps → ShutdownServer cfg i = Ok cfg1 →
  cfg_n cfg1 = cfg_n cfg ∧ zlookup (saved cfg1) i = Some (Some (SOwn ps)).
Proof.
  unfold saved_state, ShutdownServer. intros Hps Hr0.
  apply bind_Ok in Hps as (p & Hp%must_Ok & Hps). apply bind_Ok in Hps as (p' & ->%must_Ok & Hps).
  apply bind_Ok in Hr0 as (cfg2 & H2 & Hr0). unfold disconnectUnlocked in H2.
  apply bind_Ok in H2 as (rn1 & _ & H2). apply bind_Ok in H2 as (rn & _ & [= <-]).
  apply bind_Ok in Hr0 as (cfg3 & H3 & Hr0). unfold copy_saved in H3. cbn [saved insts set_net] in H3.
  rewrite Hp in H3. cbn [must mbind outcome_bind] in H3. rewrite Hps in H3. cbn [mbind outcome_bind] in H3.
  apply bind_Ok in H3 as (l & Hl%must_Ok & [= <-]). rewrite Copy_id in Hl.
  assert (Hat : zlookup l i = Some (Some (SOwn ps))) by (rewrite (zlookup_zinsert _ _ _ _ i Hl); by rewrite decide_True).
  unfold kill_server in Hr0. apply bind_Ok in Hr0 as (r & _ & Hr0). destruct r as [a|].
  - apply bind_Ok in Hr0 as (s & _ & Hr0). apply bind_Ok in Hr0 as (l' & _ & [= <-]). done.
  - injection Hr0 as <-. done.
Qed.

Lemma restart_saved cfg i ps cfg1 ins names cfg2 :
  saved_state cfg i = Ok ps → ShutdownServer cfg i = Ok cfg1 →
  StartServer (set_insts ins cfg1) i names = Ok cfg2 →
  ∃ s, sv_start (cfg_n cfg) i ps = Ok s ∧ insts cfg2 = ins ++ [s] ∧
    zlookup (servers cfg2) i = Some (Some (length ins)) ∧
    LabRpc.servers (net cfg2) !! inl i = Some (Some (length ins)).
Proof.
  intros Hps (Hn & Hsv)%(ShutdownServer_saved _ _ _ _ Hps) Hr0. unfold StartServer in Hr0.
  apply bind_Ok in Hr0 as (eps & _ & Hr0). apply bind_Ok in Hr0 as (rn & _ & Hr0).
  cbn [saved insts cfg_n set_net set_endnames set_insts] in Hr0. rewrite Hsv, Hn in Hr0.
  cbn [must mbind outcome_bind read_saved] in Hr0. rewrite Copy_id in Hr0.
  apply bind_Ok in Hr0 as (s & Hs & Hr0). apply bind_Ok in Hr0 as (sv & _ & Hr0).
  apply bind_Ok in Hr0 as (rs & Hrs%must_Ok & [= <-]). exists s. split_and!; [done|done| |].
  - cbn [servers set_net set_insts set_saved set_servers]. by rewrite (zlookup_zinsert _ _ _ _ i Hrs), decide_True.
  - cbn [net set_net AddServer LabRpc.set_servers LabRpc.servers]. by rewrite lookup_insert_eq.
Qed.

(** A server that is shut down and started again gets the state that was persisted when it
    was shut down, whatever the old instance, which cannot be stopped, goes on to do (the
    instances [ins]); requests then go to the new instance. *)
Theorem service_restart cfg i ps cfg1 ins names cfg2 :
  saved_state cfg i = Ok ps → ShutdownServer cfg i = Ok cfg1 →
  StartServer (set_insts ins cfg1) i names = Ok cfg2 →
  ∃ s, sv_start (cfg_n cfg) i ps = Ok s ∧ insts cfg2 = ins ++ [s] ∧
    zlookup (servers cfg2) i = Some (Some (length ins)) ∧
    LabRpc.servers (net cfg2) !! inl i = Some (Some (length ins)).
Proof. apply restart_saved. Qed.
End harness.

(** Shuffling is a permutation. *)
Lemma shuffle_perm {A} (sa sa' : list A) i js : shuffle sa i js = Ok sa' → sa' ≡ₚ sa.
Proof.
  revert sa i. induction js as [|j js IH]; cbn [shuffle]; intros sa i H; [by injection H as <-|].
  apply bind_Ok in H as (x & Hx%must_Ok & H). apply bind_Ok in H as (y & Hy%must_Ok & H).
  apply bind_Ok in H as (l1 & H1%must_Ok & H). apply bind_Ok in H as (l2 & H2%must_Ok & H).
  rewrite (IH _ _ H). apply zinsert_Some in H1 as [Hi ->], H2 as [Hj ->].
  unfold zlookup in Hx, Hy. rewrite decide_True in Hx by lia. rewrite decide_True in Hy by lia.
  by apply Permutation_insert_swap.
Qed.

(** ** The two kinds of servers *)

#[export] Instance kv_service (raftStateSize : gobbytes KvServer.Op → Z) (maxraftstate : Z) :
    Service KvServer.Op kvnode := {|
  sv_start n i ps := StartKVServer raftStateSize n i ps maxraftstate;
  sv_kill nd := MkKN (KvKill (kn_kv nd)) (kn_jobs nd);
  sv_raft nd := kv_rf (kn_kv nd);
|}.

#[export] Instance sm_service : Service ShardMaster.Op ShardMaster := {|
  sv_start := ShardMaster.StartServer;
  sv_kill := SmKill;
  sv_raft := sm_rf;
|}.

(** ** Three shard masters, of which the second leads *)
Definition three_names (i j : Z) : string := nth (Z.to_nat (3 * i + j)) ["a"; "b"; "c"; "d"; "e"; "f"; "g"; "h"; "i"] "".
Definition none_config {cmd Srv} : @config cmd Srv := MkSC MakeNetwork 0 [] [] [] ∅ 0 [].
Definition config_of {cmd Srv} (o : outcome (@config cmd Srv)) : @config cmd Srv :=
  match o with Ok cfg => cfg | _ => none_config end.

Definition three : @config ShardMaster.Op ShardMaster := config_of (make_config 3 false three_names).

Definition lead (sm : ShardMaster) : ShardMaster := with_rf sm (set_leaderNum (sm_me sm) (sm_rf sm)).
Definition three_led : @config ShardMaster.Op ShardMaster :=
  set_insts (match insts three with a :: b :: l => a :: lead b :: l | l => l end) three.

Lemma three_ok : make_config 3 false three_names = Ok three.
Proof. vm_compute. reflexivity. Qed.

Lemma make_config_connects_witness : wf 3 three ∧ link three 0 2.
Proof.
  destruct (make_config_connects 3 false three_names three three_ok) as (Hw & _ & Hl).
  split; [exact Hw|]. apply Hl; lia.
Defined.

Lemma three_led_wf : wf 3 three_led.
Proof.
  apply (wf_ext 3 three); [vm_compute; reflexivity..|]. eapply make_config_wf. exact three_ok.
Qed.

(** The leader, server 1, is cut off from the servers 0 and 2. *)
Lemma make_partition_isolates_witness :
  ∃ cfg', make_partition three_led = Ok ([0; 2], [1]) ∧ partition three_led [0; 2] [1] = Ok cfg' ∧
    link cfg' 0 2 ∧ ¬ link cfg' 0 1.
Proof.
  destruct (make_partition_isolates 3 three_led 1) as (p1 & p2 & cfg' & Hm & Hp & _ & _ & _ & Hl);
    [exact three_led_wf|reflexivity|lia|lia|vm_compute; reflexivity|].
  assert (E : make_partition three_led = Ok ([0; 2], [1])) by (vm_compute; reflexivity).
  rewrite E in Hm. injection Hm as <- <-. exists cfg'.
  split_and!; [exact E|exact Hp|apply Hl; [by left|lia|by right; left]|].
  rewrite Hl; [|by left|lia]. intros Hin. apply elem_of_cons in Hin as [|Hin]; [done|].
  apply list_elem_of_singleton in Hin. done.
Defined.

Lemma config_of_Ok {cmd Srv} (o : outcome (@config cmd Srv)) :
  match o with Ok _ => true | _ => false end = true → o = Ok (config_of o).
Proof. by destruct o. Qed.

Definition new_three (j : Z) : string := nth (Z.to_nat j) ["x"; "y"; "z"] "".

(** Shard master 1 is shut down and started again. *)
Definition down : @config ShardMaster.Op ShardMaster := config_of (ShutdownServer three 1).
Definition up : @config ShardMaster.Op ShardMaster :=
  config_of (StartServer (set_insts (insts down) down) 1 new_three).

Lemma down_ok : ShutdownServer three 1 = Ok down.
Proof. unfold down. apply config_of_Ok. vm_compute. reflexivity. Qed.
Lemma up_ok : StartServer (set_insts (insts down) down) 1 new_three = Ok up.
Proof. unfold up. apply config_of_Ok. vm_compute. reflexivity. Qed.
Lemma three_saved : ∃ ps, saved_state three 1 = Ok ps.
Proof.
  destruct (saved_state three 1) as [ps| |] eqn:Hps; [by exists ps|vm_compute in Hps; discriminate Hps..].
Qed.

Lemma service_restart_witness : ∃ s, insts up = insts down ++ [s].
Proof.
  destruct three_saved as [ps Hps].
  destruct (service_restart three 1 ps down (insts down) new_three up Hps down_ok up_ok) as (s & _ & E & _).
  exists s. exact E.
Defined.

(** ** What modelling showed *)

(** With an even number of servers a slot of the second side stays empty, and server 0 is on
    both sides. *)
Lemma sides_even : sides 4 3 = Ok ([0; 1; 2], [0; 3]).
Proof. reflexivity. Qed.

(** [disconnectUnlocked] looks at the wrong row: taking server 0 off server 1, which has no
    ends, panics. *)
Lemma disconnect_wrong_row :
  disconnectUnlocked (MkSC (cmd:=Z) (Srv:=Z) MakeNetwork 2 [] [] [Some ["a"; "b"]; None] ∅ 0 []) 0 [1] = Panic.
Proof. reflexivity. Qed.
