(* ===== verification/SmHarness.v ===== *)
(** * The test harness of the shard masters: [shardmaster/config.go].

    The file is the one of the key/value servers (file ServiceHarness) for another kind of
    servers, so its functions are those of that file at the instance [sm_service]. *)

From S2P Require Import Prelude RaftState LabServer LabRpc RaftHarness ShardMaster ServiceHarness.

Definition config : Type := @config ShardMaster.Op ShardMaster.
Definition random_handles {A} : list A → list Z → outcome (list A) := random_handles.
Definition cleanup : config → outcome config := cleanup.
Definition LogSize : (Persister ShardMaster.Op → Z) → config → outcome Z := LogSize.
Definition connectUnlocked : config → Z → list Z → outcome config := connectUnlocked.
Definition disconnectUnlocked : config → Z → list Z → outcome config := disconnectUnlocked.
Definition All : config → list Z := All.
Definition ConnectAll : config → outcome config := ConnectAll.
Definition partition : config → list Z → list Z → outcome config := partition.
Definition makeClient : config → list Z → (Z → string) → list Z → outcome (config * Z * list string) := makeClient.
Definition deleteClient : config → Z → config := deleteClient.
Definition ConnectClientUnlocked : config → Z → list Z → outcome config := ConnectClientUnlocked.
Definition DisconnectClientUnlocked : config → Z → list Z → outcome config := DisconnectClientUnlocked.
Definition ShutdownServer : config → Z → outcome config := ShutdownServer.
Definition StartServer : config → Z → (Z → string) → outcome config := StartServer.
Definition Leader : config → outcome (bool * Z) := Leader.
Definition make_partition : config → outcome (list Z * list Z) := make_partition.
Definition make_config : Z → bool → (Z → Z → string) → outcome config := make_config.

(** A shard master that is shut down and started again has its term and log, and has applied
    nothing of it yet: it begins with the zero configuration and no results, whatever the old
    instance goes on to do. *)
Theorem master_restart (cfg cfg1 cfg2 : config) i ps t (l : list (CommandTerm ShardMaster.Op)) ins names :
  saved_state cfg i = Ok ps → raftstate ps = [GInt t; GLog l] → snapshot ps = [] → l ≠ [] →
  ShutdownServer cfg i = Ok cfg1 → StartServer (set_insts ins cfg1) i names = Ok cfg2 →
  ∃ s, insts cfg2 = ins ++ [s] ∧ zlookup (servers cfg2) i = Some (Some (length ins)) ∧
    sm_me s = i ∧ configs s = [zeroConfig] ∧ sm_ClientMaxRequestSeq s = ∅ ∧ sm_resultMap s = ∅ ∧
    currentTerm (sm_rf s) = t ∧ log (sm_rf s) = l.
Proof.
  intros Hps Hst Hsn Hl H1 H2.
  destruct (restart_saved cfg i ps cfg1 ins names cfg2 Hps H1 H2) as (s & Hs & Hins & Hat & _).
  exists s. destruct ps as [rs sn]. simpl in Hst, Hsn. subst rs sn.
  destruct (Make_reads (cfg_n cfg) i t l Hl) as (rf & Hmake & Ht & Hlog & _).
  unfold sv_start, sm_service, ShardMaster.StartServer in Hs. rewrite Hmake in Hs. simpl in Hs.
  destruct (applyCh rf); [|done]. injection Hs as <-. done.
Qed.

(** ** A shard master that has persisted its state, shut down and started again *)
Definition written : config := set_insts (alter (λ s, with_rf s (persist (sm_rf s))) 1%nat (insts three)) three.
Definition down : config := config_of (ShutdownServer written 1).
Definition up : config := config_of (StartServer (set_insts (insts down) down) 1 new_three).
Definition first_entry : list (CommandTerm ShardMaster.Op) := [MkCT None 0].

Lemma master_down_ok : ShutdownServer written 1 = Ok down.
Proof. unfold down. apply config_of_Ok. vm_compute. reflexivity. Qed.
Lemma master_up_ok : StartServer (set_insts (insts down) down) 1 new_three = Ok up.
Proof. unfold up. apply config_of_Ok. vm_compute. reflexivity. Qed.

Lemma master_restart_witness : ∃ s, insts up = insts down ++ [s] ∧ log (sm_rf s) = first_entry.
Proof.
  destruct (master_restart written down up 1 (MkPersister [GInt 0; GLog first_entry] []) 0 first_entry
    (insts down) new_three) as (s & E & _ & _ & _ & _ & _ & _ & Hl);
    [vm_compute; reflexivity|reflexivity|reflexivity|done|exact master_down_ok|exact master_up_ok|].
  exists s. split; [exact E|exact Hl].
Defined.
