(* ===== verification/ShardKv.v ===== *)
(** * The sharded key/value service: [shardkv/client.go], [common.go] and the skeleton of
    [server.go].

    The clerk asks the servers of the group that its configuration assigns the key to, and
    fetches the latest configuration from the shard master (file ShardClient) when none of
    them answers.  The server is not written yet in the code: its handlers are empty. *)

From S2P Require Import Prelude RaftState Session ShardMaster ShardClient.

(** ** Data *)

Definition OK : string := "OK".
Definition ErrNoKey : string := "ErrNoKey".
Definition ErrWrongGroup : string := "ErrWrongGroup".

Record PutAppendArgs := MkPAArgs { pa_Key : string; pa_Value : string; pa_Op : string }.
Record PutAppendReply := MkPAReply { pr_WrongLeader : bool; pr_Err : string }.
Record GetArgs := MkGetArgs { ga_Key : string }.
Record GetReply := MkGetReply { gr_WrongLeader : bool; gr_Err : string; gr_Value : string }.

(** The first byte of the key, modulo the number of shards. *)
Definition key2shard (key : string) : Z :=
  match key with
  | EmptyString => 0
  | String a _ => Z.of_nat (Ascii.nat_of_ascii a) mod NShards
  end.

Record Clerk := MkClerk { sm : SmClerk; config : Config }.

(** [r] is what [nrand] gives the shard master's clerk; the configuration is zero. *)
Definition MakeClerk (nmasters r : Z) : Clerk := MkClerk (MakeSmClerk nmasters r) zeroConfig.

(** ** The loops of the clerk *)
Section loop.
Context {Args Reply : Type}.
Variables (accept wrong_group : Reply → bool).

(** One round: the answers of the servers of the group, by their place in it, with [None] for
    a lost call; and what the shard masters answer to the query after it. *)
Record round := MkRound {
  rd_answers : Z → option Reply;
  rd_query : list (list (option (bool * Config)));
}.

(** [for si := 0; si < len(servers); si++]: the calls, and the reply if one is accepted. *)
Fixpoint try_group (args : Args) (servers : list string) (si : Z) (answers : Z → option Reply) :
    list (string * Args) * option Reply :=
  match servers with
  | [] => ([], None)
  | srv :: servers =>
      match answers si with
      | Some reply =>
          if accept reply then ([(srv, args)], Some reply)
          else if wrong_group reply then ([(srv, args)], None)
          else let '(calls, r) := try_group args servers (si + 1) answers in ((srv, args) :: calls, r)
      | None => let '(calls, r) := try_group args servers (si + 1) answers in ((srv, args) :: calls, r)
      end
  end.

(** What a round asks. *)
Definition ask_group (c : Config) (key : string) (args : Args) (answers : Z → option Reply) :
    outcome (list (string * Args) * option Reply) :=
  gid ← must (zlookup (Shards c) (key2shard key));
  Ok (match Groups c !! gid with
      | Some servers => try_group args servers 0 answers
      | None => ([], None)
      end).

(** The loop; the reply is [None] when the rounds end before it returns. *)
Fixpoint shard_loop (ck : Clerk) (key : string) (args : Args) (rounds : list round) :
    outcome (Clerk * list (string * Args) * option Reply) :=
  match rounds with
  | [] => Ok (ck, [], None)
  | rd :: rounds =>
      '(calls, r) ← ask_group (config ck) key args (rd_answers rd);
      match r with
      | Some reply => Ok (ck, calls, Some reply)
      | None =>
          let '(sm', (_, c)) := ClerkQuery (sm ck) (-1) (rd_query rd) in
          match c with
          | None => Ok (MkClerk sm' (config ck), calls, None)
          | Some c =>
              '(ck, calls', r) ← shard_loop (MkClerk sm' c) key args rounds;
              Ok (ck, calls ++ calls', r)
          end
      end
  end.
End loop.

Definition get_accept (reply : GetReply) : bool :=
  negb (gr_WrongLeader reply) && (bool_decide (gr_Err reply = OK) || bool_decide (gr_Err reply = ErrNoKey)).
Definition pa_accept (reply : PutAppendReply) : bool :=
  negb (pr_WrongLeader reply) && bool_decide (pr_Err reply = OK).

Definition Get (ck : Clerk) (key : string) (rounds : list (@round GetReply)) :
    outcome (Clerk * list (string * GetArgs) * option string) :=
  '(ck, calls, r) ← shard_loop get_accept (λ reply, bool_decide (gr_Err reply = ErrWrongGroup)) ck key
                      (MkGetArgs key) rounds;
  Ok (ck, calls, option_map gr_Value r).

Definition PutAppend (ck : Clerk) (key value op : string) (rounds : list (@round PutAppendReply)) :
    outcome (Clerk * list (string * PutAppendArgs) * option unit) :=
  '(ck, calls, r) ← shard_loop pa_accept (λ reply, bool_decide (pr_Err reply = ErrWrongGroup)) ck key
                      (MkPAArgs key value op) rounds;
  Ok (ck, calls, option_map (λ _, tt) r).

Definition Put ck key value rounds := PutAppend ck key value "Put" rounds.
Definition Append ck key value rounds := PutAppend ck key value "Append" rounds.

(** ** The server's skeleton *)
Section server.
Context {cmd : Type}.

Record ShardKV := MkShardKV {
  skv_me : Z;
  skv_rf : Raft cmd;
  skv_gid : Z;
  skv_masters : Z;         (** [len(kv.masters)] *)
  skv_maxraftstate : Z;
}.

Definition StartServer (nservers me : Z) (ps : Persister cmd) (maxraftstate gid nmasters : Z) :
    outcome ShardKV :=
  rf ← Make nservers me ps;
  Ok (MkShardKV me rf gid nmasters maxraftstate).

Definition Kill (kv : ShardKV) : ShardKV :=
  MkShardKV (skv_me kv) (Kill (skv_rf kv)) (skv_gid kv) (skv_masters kv) (skv_maxraftstate kv).
End server.

(** ** Properties *)

Lemma key2shard_range key : 0 ≤ key2shard key < NShards.
Proof. unfold key2shard, NShards. destruct key; [lia|]. apply Z.mod_pos_bound. lia. Qed.

(** The servers that a configuration assigns a key to. *)
Definition assigned (c : Config) (key : string) (srv : string) : Prop :=
  ∃ gid servers, zlookup (Shards c) (key2shard key) = Some gid ∧ Groups c !! gid = Some servers ∧ srv ∈ servers.

(** The configurations the clerk has: its own, then those that the queries return. *)
Definition given {Reply} (c : Config) (rounds : list (@round Reply)) : Prop :=
  ∃ rd q, rd ∈ rounds ∧ q ∈ rd_query rd ∧ Some (false, c) ∈ q.

Section loop_properties.
Context {Args Reply : Type} (accept wrong_group : Reply → bool).

Lemma try_group_spec (args : Args) servers si answers :
  let '(calls, r) := try_group accept wrong_group args servers si answers in
  Forall (λ call : string * Args, call.1 ∈ servers ∧ call.2 = args) calls ∧
  match r with
  | Some reply => accept reply = true ∧ ∃ i, 0 ≤ i < len servers ∧ answers (si + i) = Some reply
  | None => True
  end.
Proof.
  revert si. induction servers as [|srv servers IH]; intros si; cbn [try_group]; [done|].
  specialize (IH (si + 1)). rewrite len_cons. pose proof (len_nonneg servers).
  assert (Hgo : let '(calls, r) := let '(calls, r) := try_group accept wrong_group args servers (si + 1) answers in
      ((srv, args) :: calls, r) in
    Forall (λ call : string * Args, call.1 ∈ srv :: servers ∧ call.2 = args) calls ∧
    match r with
    | Some reply => accept reply = true ∧ ∃ i, 0 ≤ i < len servers + 1 ∧ answers (si + i) = Some reply
    | None => True
    end).
  { destruct (try_group _ _ _ servers _ _) as [calls r]. destruct IH as [Hc Hr]. split.
    - constructor; [split; [by left|done]|]. eapply Forall_impl; [exact Hc|]. simpl. intros call [? ?].
      split; [by right|done].
    - destruct r as [reply|]; [|done]. destruct Hr as (Ha & i & Hi & He). split; [done|].
      exists (i + 1). split; [lia|]. by replace (si + (i + 1)) with (si + 1 + i) by lia. }
  destruct (answers si) as [reply|] eqn:E; [|exact Hgo]. destruct (accept reply) eqn:Ea.
  - split; [apply Forall_singleton; split; [by left|done]|]. split; [done|].
    exists 0. split; [lia|]. by rewrite Z.add_0_r.
  - destruct (wrong_group reply); [|exact Hgo]. split; [|done].
    apply Forall_singleton. split; [by left|done].
Qed.

(** What the loop does, when the configurations have a group for every shard number. *)
Lemma shard_loop_spec key (args : Args) rounds ck (Good : Config → Prop) :
  (∀ c, Good c → len (Shards c) = NShards) → Good (config ck) → (∀ c, given c rounds → Good c) →
  ∃ ck' calls r, shard_loop accept wrong_group ck key args rounds = Ok (ck', calls, r) ∧
    Good (config ck') ∧
    Forall (λ call : string * Args, call.2 = args ∧ ∃ c, Good c ∧ assigned c key call.1) calls ∧
    ∀ reply, r = Some reply → accept reply = true ∧ ∃ rd i, rd ∈ rounds ∧ rd_answers rd i = Some reply.
Proof.
  intros Hlen. revert ck. induction rounds as [|rd rounds IH]; intros ck Hck Hgiven; cbn [shard_loop].
  { exists ck, [], None. split_and!; done. }
  destruct (zlookup_lt_Some (Shards (config ck)) (key2shard key)) as [gid Hgid].
  { rewrite Hlen by done. apply key2shard_range. }
  assert (Hask : ∃ calls r, ask_group accept wrong_group (config ck) key args (rd_answers rd) = Ok (calls, r) ∧
    Forall (λ call : string * Args, call.2 = args ∧ ∃ c, Good c ∧ assigned c key call.1) calls ∧
    ∀ reply, r = Some reply → accept reply = true ∧ ∃ i, rd_answers rd i = Some reply).
  { unfold ask_group. rewrite Hgid. simpl. destruct (Groups (config ck) !! gid) as [servers|] eqn:Eg.
    - pose proof (try_group_spec args servers 0 (rd_answers rd)) as Ht.
      destruct (try_group _ _ _ _ _ _) as [calls r]. destruct Ht as [Hc Hr]. exists calls, r.
      split_and!; [done| |].
      + eapply Forall_impl; [exact Hc|]. simpl. intros call [Hin ->]. split; [done|].
        exists (config ck). split; [done|]. by exists gid, servers.
      + intros reply ->. destruct Hr as (Ha & i & _ & Hi). eauto.
    - exists [], None. by split_and!. }
  destruct Hask as (calls & r & -> & Hc & Hr). cbn [mbind outcome_bind]. destruct r as [reply|].
  { exists ck, calls, (Some reply). split_and!; [done|done|done|]. intros reply' [= <-].
    destruct (Hr reply eq_refl) as (Ha & i & Hi). split; [done|]. exists rd, i. split; [by left|done]. }
  destruct (ClerkQuery (sm ck) (-1) (rd_query rd)) as [sm' [qcalls c]] eqn:Eq.
  unfold ClerkQuery in Eq. injection Eq as <- Eq.
  pose proof (ask_loop_spec (MkQueryArgs (smc_ID (sm ck)) (requestSeq (sm ck)) (-1)) (rd_query rd)) as Hq.
  rewrite Eq in Hq. destruct Hq as [_ Hq]. destruct c as [c|].
  2: { eexists _, calls, None. split_and!; [done|done|done|]. done. }
  destruct Hq as (q & Hq & Hin). destruct (IH (MkClerk (next_request (sm ck)) c)) as (ck' & calls' & r & -> & Hck' & Hc' & Hr').
  - apply Hgiven. exists rd, q. split_and!; [by left|done|done].
  - intros c' (rd' & q' & Hrd' & Hq' & Hc'). apply Hgiven. exists rd', q'. split_and!; [by right|done|done].
  - exists ck', (calls ++ calls'), r. split_and!; [done|done|by apply Forall_app|].
    intros reply Hrep. destruct (Hr' reply Hrep) as (Ha & rd' & i & Hrd' & Hi). split; [done|].
    exists rd', i. split; [by right|done].
Qed.
End loop_properties.

(** C29. A [Get] never panics, asks only servers that a configuration it has assigns the shard of
    the key to, always for the same key, and returns only the value of a reply in which a
    server, as leader, says that it is in charge (that the key has the value, or that there
    is none). *)
Theorem Get_routes ck key rounds :
  len (Shards (config ck)) = NShards → (∀ c, given c rounds → len (Shards c) = NShards) →
  ∃ ck' calls r, Get ck key rounds = Ok (ck', calls, r) ∧
    Forall (λ call : string * GetArgs, call.2 = MkGetArgs key ∧
      ∃ c, (c = config ck ∨ given c rounds) ∧ assigned c key call.1) calls ∧
    ∀ v, r = Some v → ∃ rd i reply, rd ∈ rounds ∧ rd_answers rd i = Some reply ∧ gr_Value reply = v ∧
      gr_WrongLeader reply = false ∧ (gr_Err reply = OK ∨ gr_Err reply = ErrNoKey).
Proof.
  intros Hck Hg. unfold Get.
  destruct (shard_loop_spec get_accept (λ reply, bool_decide (gr_Err reply = ErrWrongGroup)) key (MkGetArgs key)
    rounds ck (λ c, c = config ck ∨ given c rounds)) as (ck' & calls & r & -> & _ & Hc & Hr).
  - by intros c [->|Hc]; [|apply Hg].
  - by left.
  - intros c Hc. by right.
  - cbn [mbind outcome_bind]. exists ck', calls, (option_map gr_Value r). split_and!; [done|done|].
    intros v Hv. destruct r as [reply|]; [|done]. injection Hv as <-.
    destruct (Hr reply eq_refl) as (Ha & rd & i & Hrd & Hi). exists rd, i, reply.
    unfold get_accept in Ha. go_bools. apply orb_true_iff in H0 as [Ho|Ho]; go_bools; auto 6.
Qed.

(** The clerk starts without a configuration, learns one that gives the shard of ["a"] (97
    mod 10 = 7) to group 100, asks its servers and takes the second one's answer. *)
Definition demo_config : Config := MkConfig 1 (replicate 10 100) {[100 := ["s0"; "s1"]]}.
Definition demo_rounds : list (@round GetReply) :=
  [MkRound (λ _, None) [[Some (false, demo_config)]];
   MkRound (λ si, if si =? 0 then None else Some (MkGetReply false OK "v")) []].

Lemma Get_routes_witness :
  ∃ ck' calls, Get (MakeClerk 1 7) "a" demo_rounds = Ok (ck', calls, Some "v") ∧
    Forall (λ call : string * GetArgs, call.2 = MkGetArgs "a") calls.
Proof.
  destruct (Get_routes (MakeClerk 1 7) "a" demo_rounds) as (ck' & calls & r & E & Hc & _).
  - reflexivity.
  - intros c (rd & q & Hrd & Hq & Hin). unfold demo_rounds in Hrd.
    apply elem_of_cons in Hrd as [->|Hrd]; [|apply list_elem_of_singleton in Hrd as ->].
    + simpl in Hq. apply list_elem_of_singleton in Hq as ->. apply list_elem_of_singleton in Hin as [= ->].
      reflexivity.
    + by apply not_elem_of_nil in Hq.
  - exists ck', calls. split; [|eapply Forall_impl; [exact Hc|]; intros call [H _]; exact H].
    rewrite E. assert (Hv : (λ x : Clerk * list (string * GetArgs) * option string, x.2) <$>
      match Get (MakeClerk 1 7) "a" demo_rounds with Ok x => Some x | _ => None end = Some (Some "v"))
      by reflexivity.
    rewrite E in Hv. simpl in Hv. by injection Hv as ->.
Defined.
