(* ===== verification/ShardHarness.v ===== *)
(** * The test harness of the sharded service: [shardkv/config.go].

    Three shard masters and three groups of servers on one network, known by the names
    [mastername] and [servername].  As in file RaftHarness, servers are known by the order of
    their creation, a saved persister is the one a server writes to or a copy, and the names
    that [randstring] makes are inputs. *)

From Stdlib Require Import Ascii.
From S2P Require Import Prelude RaftState GoLib LabServer LabRpc RaftHarness ShardMaster ShardClient ShardKv.

Section harness.
Context {cmd : Type}.
Abbreviation ShardKV := (@ShardKV cmd).
Abbreviation Persister := (@Persister cmd).

(** ** Data *)

Inductive saved_ref := GOwn (ps : Persister) | GInst (a : nat).

Record group := MkGroup {
  gid : Z;
  g_servers : list (option nat);
  g_saved : list (option saved_ref);
  g_endnames : list (option (list string));
  g_mendnames : list (option (list string));
}.

(** A clerk is known by the value of [nextClientId] when it was made. *)
Record config := MkShC {
  net : Network;
  nmasters : Z;
  masterservers : list (option nat);
  mck : option SmClerk;
  ngroups : Z;
  cfg_n : Z;
  groups : list (option group);
  clerks : gmap Z (list string);
  nextClientId : Z;
  maxraftstate : Z;
  insts : list (ShardMaster + ShardKV);
}.

Definition set_net (rn : Network) (cfg : config) : config :=
  MkShC rn (nmasters cfg) (masterservers cfg) (mck cfg) (ngroups cfg) (cfg_n cfg) (groups cfg) (clerks cfg)
    (nextClientId cfg) (maxraftstate cfg) (insts cfg).
Definition set_masters (l : list (option nat)) (cfg : config) : config :=
  MkShC (net cfg) (nmasters cfg) l (mck cfg) (ngroups cfg) (cfg_n cfg) (groups cfg) (clerks cfg)
    (nextClientId cfg) (maxraftstate cfg) (insts cfg).
Definition set_mck (ck : option SmClerk) (cfg : config) : config :=
  MkShC (net cfg) (nmasters cfg) (masterservers cfg) ck (ngroups cfg) (cfg_n cfg) (groups cfg) (clerks cfg)
    (nextClientId cfg) (maxraftstate cfg) (insts cfg).
Definition set_groups (l : list (option group)) (cfg : config) : config :=
  MkShC (net cfg) (nmasters cfg) (masterservers cfg) (mck cfg) (ngroups cfg) (cfg_n cfg) l (clerks cfg)
    (nextClientId cfg) (maxraftstate cfg) (insts cfg).
Definition set_clerks (m : gmap Z (list string)) (k : Z) (cfg : config) : config :=
  MkShC (net cfg) (nmasters cfg) (masterservers cfg) (mck cfg) (ngroups cfg) (cfg_n cfg) (groups cfg) m
    k (maxraftstate cfg) (insts cfg).
Definition set_insts (l : list (ShardMaster + ShardKV)) (cfg : config) : config :=
  MkShC (net cfg) (nmasters cfg) (masterservers cfg) (mck cfg) (ngroups cfg) (cfg_n cfg) (groups cfg) (clerks cfg)
    (nextClientId cfg) (maxraftstate cfg) l.

Definition set_servers (l : list (option nat)) (gg : group) : group :=
  MkGroup (gid gg) l (g_saved gg) (g_endnames gg) (g_mendnames gg).
Definition set_saved (l : list (option saved_ref)) (gg : group) : group :=
  MkGroup (gid gg) (g_servers gg) l (g_endnames gg) (g_mendnames gg).
Definition set_endnames (l ml : list (option (list string))) (gg : group) : group :=
  MkGroup (gid gg) (g_servers gg) (g_saved gg) l ml.

(** [cfg.groups[gi]], and writing it back: groups are pointers, so that a change is seen
    through [cfg.groups]. *)
Definition get_group (cfg : config) (gi : Z) : outcome group := gg ← must (zlookup (groups cfg) gi); must gg.
Definition put_group (cfg : config) (gi : Z) (gg : group) : outcome config :=
  l ← must (zinsert (groups cfg) gi (Some gg)); Ok (set_groups l cfg).

(** ** Names *)

Definition mastername (i : Z) : string := "master" +:+ Itoa i.
Definition servername (g i : Z) : string := "server-" +:+ Itoa g +:+ "-" +:+ Itoa i.

(** ** Ends *)

(** A loop that makes ends, connects and enables them: their names with the servers. *)
Fixpoint make_on_ends (rn : Network) (l : list (string * string)) : outcome Network :=
  match l with
  | [] => Ok rn
  | (name, target) :: l =>
      rn ← MakeEnd rn name;
      make_on_ends (Enable (Connect rn name (inr target)) name true) l
  end.

Definition master_ends (cfg : config) (names : Z → string) : list (string * string) :=
  (λ j, (names j, mastername j)) <$> seqZ 0 (nmasters cfg).
Definition group_ends (cfg : config) (gg : group) (names : Z → string) : list (string * string) :=
  (λ j, (names j, servername (gid gg) j)) <$> seqZ 0 (cfg_n cfg).

(** The function that is given to clerks and servers. *)
Definition make_end (cfg : config) (server name : string) : outcome config :=
  rn ← make_on_ends (net cfg) [(name, server)]; Ok (set_net rn cfg).

(** The new names are stored in a slice of length [cfg.n], one for each master; [r] is what
    [nrand] gives. *)
Definition makeClient (cfg : config) (names : Z → string) (r : Z) : outcome (config * Z * Clerk) :=
  guard_go (0 <=? cfg_n cfg);;
  guard_go (nmasters cfg <=? cfg_n cfg);;
  rn ← make_on_ends (net cfg) (master_ends cfg names);
  let endnames := (names <$> seqZ 0 (nmasters cfg)) ++ replicate (Z.to_nat (cfg_n cfg - nmasters cfg)) "" in
  let id := nextClientId cfg in
  Ok (set_clerks (<[id := endnames]> (clerks cfg)) (id + 1) (set_net rn cfg), id, MakeClerk (nmasters cfg) r).

Definition deleteClient (cfg : config) (id : Z) : config :=
  set_clerks (delete id (clerks cfg)) (nextClientId cfg) cfg.

(** ** Servers of the groups *)

Definition read_saved (ins : list (ShardMaster + ShardKV)) (p : saved_ref) : outcome Persister :=
  match p with
  | GOwn ps => Ok ps
  | GInst a => s ← must (ins !! a); match s with inr kv => Ok (persister (skv_rf kv)) | inl _ => Panic end
  end.

Definition copy_saved (ins : list (ShardMaster + ShardKV)) (gg : group) (i : Z) : outcome group :=
  p ← must (zlookup (g_saved gg) i);
  match p with
  | None => Ok gg
  | Some p =>
      ps ← read_saved ins p;
      l ← must (zinsert (g_saved gg) i (Some (GOwn (Copy ps))));
      Ok (set_saved l gg)
  end.

Definition kill_inst (s : ShardMaster + ShardKV) : ShardMaster + ShardKV :=
  match s with inr kv => inr (Kill kv) | inl sm => inl sm end.

Definition kill_server (cfg : config) (gg : group) (i : Z) : outcome (config * group) :=
  r ← must (zlookup (g_servers gg) i);
  match r with
  | None => Ok (cfg, gg)
  | Some a =>
      l ← must (zinsert (g_servers gg) i None);
      Ok (set_insts (alter kill_inst a (insts cfg)) cfg, set_servers l gg)
  end.

Definition ShutdownServer (cfg : config) (gi i : Z) : outcome config :=
  gg ← get_group cfg gi;
  rn ← enable_loop (λ _, Ok true) (endname_at (g_endnames gg) i) false (net cfg) (seqZ 0 (len (g_servers gg)));
  mrow ← must (zlookup (g_mendnames gg) i);
  rn ← enable_loop (λ _, Ok true) (endname_at (g_mendnames gg) i) false rn (seqZ 0 (len (default [] mrow)));
  let cfg := set_net (DeleteServer rn (inr (servername (gid gg) i))) cfg in
  gg ← copy_saved (insts cfg) gg i;
  '(cfg, gg) ← kill_server cfg gg i;
  put_group cfg gi gg.

Fixpoint shutdown_each (cfg : config) (gi : Z) (is_ : list Z) : outcome config :=
  match is_ with
  | [] => Ok cfg
  | i :: is_ => cfg ← ShutdownServer cfg gi i; shutdown_each cfg gi is_
  end.
Definition ShutdownGroup (cfg : config) (gi : Z) : outcome config :=
  shutdown_each cfg gi (seqZ 0 (cfg_n cfg)).

(** The persister that a new server is given. *)
Definition saved_copy (ins : list (ShardMaster + ShardKV)) (gg : group) (i : Z) : outcome Persister :=
  p ← must (zlookup (g_saved gg) i);
  match p with Some p => ps ← read_saved ins p; Ok (Copy ps) | None => Ok MakePersister end.

Definition StartServer (cfg : config) (gi i : Z) (names mnames : Z → string) : outcome config :=
  gg ← get_group cfg gi;
  eps ← must (zinsert (g_endnames gg) i (Some (names <$> seqZ 0 (cfg_n cfg))));
  rn ← make_on_ends (net cfg) (group_ends cfg gg names);
  meps ← must (zinsert (g_mendnames gg) i (Some (mnames <$> seqZ 0 (nmasters cfg))));
  rn ← make_on_ends rn (master_ends cfg mnames);
  ps ← saved_copy (insts cfg) gg i;
  kv ← StartServer (cfg_n cfg) i ps (maxraftstate cfg) (gid gg) (nmasters cfg);
  let a := length (insts cfg) in
  sv ← must (zinsert (g_saved gg) i (Some (GInst a)));
  rs ← must (zinsert (g_servers gg) i (Some a));
  let rn := AddServer rn (inr (servername (gid gg) i)) a in
  put_group (set_insts (insts cfg ++ [inr kv]) (set_net rn cfg)) gi
    (set_endnames eps meps (set_saved sv (set_servers rs gg))).

Fixpoint start_each (cfg : config) (gi : Z) (names mnames : Z → Z → string) (is_ : list Z) : outcome config :=
  match is_ with
  | [] => Ok cfg
  | i :: is_ => cfg ← StartServer cfg gi i (names i) (mnames i); start_each cfg gi names mnames is_
  end.
Definition StartGroup (cfg : config) (gi : Z) (names mnames : Z → Z → string) : outcome config :=
  start_each cfg gi names mnames (seqZ 0 (cfg_n cfg)).

(** ** Shard masters *)

Definition StartMasterServer (cfg : config) (i : Z) (names : Z → string) : outcome config :=
  rn ← make_on_ends (net cfg) (master_ends cfg names);
  sm ← ShardMaster.StartServer (nmasters cfg) i MakePersister;
  let a := length (insts cfg) in
  ms ← must (zinsert (masterservers cfg) i (Some a));
  let rn := AddServer rn (inr (mastername i)) a in
  Ok (set_insts (insts cfg ++ [inl sm]) (set_masters ms (set_net rn cfg))).

(** The clerk of the shard masters. *)
Definition shardclerk (cfg : config) (names : Z → string) (r : Z) : outcome (config * SmClerk) :=
  rn ← make_on_ends (net cfg) (master_ends cfg names);
  Ok (set_net rn cfg, MakeSmClerk (nmasters cfg) r).

(** The names of the servers of groups, as [joinm] passes them to [Join]. *)
Fixpoint join_names (cfg : config) (gis : list Z) (m : gmap Z (list string)) : outcome (gmap Z (list string)) :=
  match gis with
  | [] => Ok m
  | g :: gis =>
      gg ← get_group cfg g;
      guard_go (0 <=? cfg_n cfg);;
      join_names cfg gis (<[gid gg := servername (gid gg) <$> seqZ 0 (cfg_n cfg)]> m)
  end.

(** [rounds] are the answers of the shard masters. *)
Definition joinm (cfg : config) (gis : list Z) (rounds : list (list (option (bool * unit)))) :
    outcome (config * (list (Z * JoinArgs) * option unit)) :=
  m ← join_names cfg gis ∅;
  ck ← must (mck cfg);
  let '(ck, r) := ClerkJoin ck m rounds in
  Ok (set_mck (Some ck) cfg, r).
Definition join (cfg : config) (gi : Z) rounds := joinm cfg [gi] rounds.

Fixpoint leave_gids (cfg : config) (gis : list Z) : outcome (list Z) :=
  match gis with
  | [] => Ok []
  | g :: gis => gg ← get_group cfg g; gids ← leave_gids cfg gis; Ok (gid gg :: gids)
  end.

Definition leavem (cfg : config) (gis : list Z) (rounds : list (list (option (bool * unit)))) :
    outcome (config * (list (Z * LeaveArgs) * option unit)) :=
  gids ← leave_gids cfg gis;
  ck ← must (mck cfg);
  let '(ck, r) := ClerkLeave ck gids rounds in
  Ok (set_mck (Some ck) cfg, r).
Definition leave (cfg : config) (gi : Z) rounds := leavem cfg [gi] rounds.

(** ** [make_config] *)

Fixpoint start_masters (cfg : config) (names : Z → Z → string) (is_ : list Z) : outcome config :=
  match is_ with
  | [] => Ok cfg
  | i :: is_ => cfg ← StartMasterServer cfg i (names i); start_masters cfg names is_
  end.

Definition new_group (cfg : config) (gi : Z) : group :=
  let k := Z.to_nat (cfg_n cfg) in
  MkGroup (100 + gi) (replicate k None) (replicate k None) (replicate k None) (replicate (Z.to_nat (nmasters cfg)) None).

Fixpoint start_groups (cfg : config) (names mnames : Z → Z → Z → string) (gis : list Z) : outcome config :=
  match gis with
  | [] => Ok cfg
  | gi :: gis =>
      guard_go (0 <=? cfg_n cfg);;
      cfg ← put_group cfg gi (new_group cfg gi);
      cfg ← StartGroup cfg gi (names gi) (mnames gi);
      start_groups cfg names mnames gis
  end.

(** The names of the ends of the masters, of the clerk, and of the servers to each other and
    to the masters. *)
Record new_names := MkNames {
  nm_master : Z → Z → string;
  nm_clerk : Z → string;
  nm_group : Z → Z → Z → string;
  nm_group_master : Z → Z → Z → string;
}.

Definition make_config (n : Z) (unreliable : bool) (maxraftstate : Z) (nm : new_names) (r : Z) : outcome config :=
  let cfg := MkShC MakeNetwork 3 (replicate 3 None) None 0 0 [] ∅ 0 maxraftstate [] in
  cfg ← start_masters cfg (nm_master nm) (seqZ 0 3);
  '(cfg, ck) ← shardclerk cfg (nm_clerk nm) r;
  let cfg := MkShC (net cfg) 3 (masterservers cfg) (Some ck) 3 n (replicate 3 None) ∅ 0 maxraftstate (insts cfg) in
  cfg ← start_groups cfg (nm_group nm) (nm_group_master nm) (seqZ 0 3);
  let cfg := set_clerks ∅ (cfg_n cfg + 1000) cfg in
  Ok (set_net (Reliable (net cfg) (negb unreliable)) cfg).

(** ** The end of a test *)

Fixpoint shutdown_groups (cfg : config) (gis : list Z) : outcome config :=
  match gis with
  | [] => Ok cfg
  | gi :: gis => cfg ← ShutdownGroup cfg gi; shutdown_groups cfg gis
  end.
Definition cleanup (cfg : config) : outcome config :=
  cfg ← shutdown_groups cfg (seqZ 0 (ngroups cfg));
  rn ← Cleanup (net cfg);
  Ok (set_net rn cfg).

(** The numbers of bytes of an encoding are parameters. *)
Definition check_log (RaftStateSize SnapshotSize : Persister → Z) (cfg : config) (gg : group) (i : Z) : outcome unit :=
  p ← must (zlookup (g_saved gg) i);
  p ← must p;
  ps ← read_saved (insts cfg) p;
  let raft := RaftStateSize ps in
  let snap := SnapshotSize ps in
  if (0 <=? maxraftstate cfg) && (2 * maxraftstate cfg <? raft) then Panic
  else if (maxraftstate cfg <? 0) && (0 <? snap) then Panic
  else Ok tt.
Fixpoint check_group (RaftStateSize SnapshotSize : Persister → Z) (cfg : config) (gg : group) (is_ : list Z) :
    outcome unit :=
  match is_ with
  | [] => Ok tt
  | i :: is_ => check_log RaftStateSize SnapshotSize cfg gg i;; check_group RaftStateSize SnapshotSize cfg gg is_
  end.
Fixpoint check_groups (RaftStateSize SnapshotSize : Persister → Z) (cfg : config) (gis : list Z) : outcome unit :=
  match gis with
  | [] => Ok tt
  | gi :: gis =>
      gg ← get_group cfg gi;
      check_group RaftStateSize SnapshotSize cfg gg (seqZ 0 (cfg_n cfg));;
      check_groups RaftStateSize SnapshotSize cfg gis
  end.
Definition checklogs (RaftStateSize SnapshotSize : Persister → Z) (cfg : config) : outcome unit :=
  check_groups RaftStateSize SnapshotSize cfg (seqZ 0 (ngroups cfg)).

(** ** What can happen to a configuration *)

(** [GRaft a rf]: the peer of the group server [a], crashed or not, goes on to the state [rf];
    [GMaster a sm]: a shard master goes on. *)
Inductive gop :=
| GStart (gi i : Z) (names mnames : Z → string) | GShutdown (gi i : Z)
| GClient (names : Z → string) (r : Z) | GDelete (id : Z) | GEnd (server name : string)
| GRaft (a : nat) (rf : Raft cmd) | GMaster (a : nat) (sm : ShardMaster) | GRequest.

Definition go_on (rf : Raft cmd) (s : ShardMaster + ShardKV) : ShardMaster + ShardKV :=
  match s with
  | inr kv => inr (MkShardKV (skv_me kv) rf (skv_gid kv) (skv_masters kv) (skv_maxraftstate kv))
  | inl sm => inl sm
  end.
Definition master_on (sm : ShardMaster) (s : ShardMaster + ShardKV) : ShardMaster + ShardKV :=
  match s with inr kv => inr kv | inl _ => inl sm end.

Definition gstep (cfg : config) (o : gop) : outcome config :=
  match o with
  | GStart gi i names mnames => StartServer cfg gi i names mnames
  | GShutdown gi i => ShutdownServer cfg gi i
  | GClient names r => '(cfg, _, _) ← makeClient cfg names r; Ok cfg
  | GDelete id => Ok (deleteClient cfg id)
  | GEnd server name => make_end cfg server name
  | GRaft a rf => Ok (set_insts (alter (go_on rf) a (insts cfg)) cfg)
  | GMaster a sm => Ok (set_insts (alter (master_on sm) a (insts cfg)) cfg)
  | GRequest => Ok (set_net (count_req (net cfg)) cfg)
  end.

(** The configurations of a test. *)
Inductive greachable (n : Z) : config → Prop :=
| greach_make unreliable mx nm r cfg : make_config n unreliable mx nm r = Ok cfg → greachable n cfg
| greach_step cfg o cfg' : greachable n cfg → gstep cfg o = Ok cfg' → greachable n cfg'.

(** ** Names *)

Lemma servername_inj g i g' i' :
  0 ≤ g → 0 ≤ g' → servername g i = servername g' i' → g = g' ∧ i = i'.
Proof.
  unfold servername. intros Hg Hg' E. apply (inj (String.app _)) in E.
  destruct (split_at_char "-"%char (Itoa g) (Itoa i) (Itoa g') (Itoa i')) as [E1 E2];
    [by apply Itoa_no_char..|exact E|]. split; by apply Itoa_inj.
Qed.
Lemma mastername_servername j g i : mastername j ≠ servername g i.
Proof. discriminate. Qed.

(** ** New ends *)

Lemma make_on_ends_app l1 l2 rn :
  make_on_ends rn (l1 ++ l2) = rn ← make_on_ends rn l1; make_on_ends rn l2.
Proof.
  revert rn. induction l1 as [|[e t] l1 IH]; intros rn; [done|]. cbn [app make_on_ends].
  destruct (MakeEnd rn e); [apply IH|done..].
Qed.

Record new_ends (rn : Network) (l : list (string * string)) (rn' : Network) : Prop := {
  ne_fresh : ∀ e, e ∈ l.*1 → e ∉ ends rn;
  ne_nodup : NoDup l.*1;
  ne_ends : ∀ e, e ∈ ends rn' ↔ e ∈ ends rn ∨ e ∈ l.*1;
  ne_on : ∀ e, is_on rn' e ↔ is_on rn e ∨ e ∈ l.*1;
  ne_new : ∀ e t, (e, t) ∈ l → connections rn' !! e = Some (Some (inr t));
  ne_old : ∀ e, e ∉ l.*1 → connections rn' !! e = connections rn !! e;
  ne_servers : servers rn' = servers rn;
}.

Lemma make_on_ends_spec rn l rn' : make_on_ends rn l = Ok rn' → new_ends rn l rn'.
Proof.
  revert rn. induction l as [|[e t] l IH]; intros rn; cbn [make_on_ends].
  { intros [= <-]. split; try set_solver. constructor. }
  intros (rn1 & H1 & H)%bind_Ok. unfold MakeEnd in H1. destruct (decide (e ∈ ends rn)) as [|Hfresh]; [done|].
  injection H1 as <-. apply IH in H as [Hf Hnd He Hon Hc Ho Hs].
  unfold Connect, Enable in *. cbn [ends enabled connections servers] in *.
  assert (Hnew : e ∉ l.*1) by (intros He'; apply (Hf e He'); set_solver). split; cbn [fmap list_fmap fst].
  - intros e' [->|He']%elem_of_cons; [done|]. specialize (Hf e' He'). set_solver.
  - by constructor.
  - intros e'. rewrite He. set_solver.
  - intros e'. rewrite Hon, elem_of_cons. unfold is_on. cbn [enabled].
    destruct (decide (e' = e)) as [->|Hne].
    + rewrite lookup_insert_eq. tauto.
    + rewrite !lookup_insert_ne by done. tauto.
  - intros e' t' [[= -> ->]|Hin]%elem_of_cons; [|by apply Hc]. rewrite Ho by done. by rewrite lookup_insert_eq.
  - intros e'. rewrite not_elem_of_cons. intros [Hne He']. rewrite Ho by done. by rewrite !lookup_insert_ne.
  - done.
Qed.

(** ** The invariant *)

(** [e] is the name of the end of server [i] of group [gi] to master (if [b]) or server [j]. *)
Definition slot (cfg : config) (gi : Z) (b : bool) (i j : Z) (e : string) : Prop :=
  ∃ gg, zlookup (groups cfg) gi = Some (Some gg) ∧
    endname_at (if b then g_mendnames gg else g_endnames gg) i j = Ok e.
Definition target (gi : Z) (b : bool) (j : Z) : string :=
  if b then mastername j else servername (100 + gi) j.
(** How many of them there are. *)
Definition width (n : Z) (b : bool) : Z := if b then 3 else n.

(** Server [i] of group [gi] runs as instance [a]. *)
Definition runs (cfg : config) (gi i : Z) (a : nat) : Prop :=
  ∃ gg, zlookup (groups cfg) gi = Some (Some gg) ∧ zlookup (g_servers gg) i = Some (Some a).

Record ginv (n : Z) (cfg : config) : Prop := {
  gv_n : cfg_n cfg = n;
  gv_m : nmasters cfg = 3;
  gv_shape : ∀ gi gg, zlookup (groups cfg) gi = Some (Some gg) →
    gid gg = 100 + gi ∧ len (g_servers gg) = n ∧
    (∀ i l, zlookup (g_endnames gg) i = Some (Some l) → len l = n) ∧
    (∀ i l, zlookup (g_mendnames gg) i = Some (Some l) → len l = 3) ∧ len (g_mendnames gg) = 3;
  gv_inj : ∀ gi b i j gi' b' i' j' e, slot cfg gi b i j e → slot cfg gi' b' i' j' e →
    gi = gi' ∧ b = b' ∧ i = i' ∧ j = j';
  gv_ends : ∀ gi b i j e, slot cfg gi b i j e → e ∈ ends (net cfg);
  gv_conn : ∀ gi b i j e, slot cfg gi b i j e →
    connections (net cfg) !! e = Some (Some (inr (target gi b j)));
  gv_on : ∀ gi b i j e, slot cfg gi b i j e → is_on (net cfg) e ↔ ∃ a, runs cfg gi i a;
  gv_rows : ∀ gi i a b j, runs cfg gi i a → 0 ≤ j < width n b → ∃ e, slot cfg gi b i j e;
  gv_srv : ∀ gi gg i r, zlookup (groups cfg) gi = Some (Some gg) → zlookup (g_servers gg) i = Some r →
    default None (servers (net cfg) !! inr (servername (100 + gi) i)) = r;
  gv_insts : ∀ gi i a, runs cfg gi i a →
    ∃ kv, insts cfg !! a = Some (inr kv) ∧ skv_gid kv = 100 + gi ∧ skv_me kv = i;
  gv_masters : ∀ j a, zlookup (masterservers cfg) j = Some (Some a) →
    servers (net cfg) !! inr (mastername j) = Some (Some a) ∧ ∃ sm, insts cfg !! a = Some (inl sm);
  gv_mrun : ∀ j, 0 ≤ j < 3 → ∃ a, zlookup (masterservers cfg) j = Some (Some a);
}.

(** *** Starting a server *)

Lemma get_group_Ok cfg gi gg : get_group cfg gi = Ok gg ↔ zlookup (groups cfg) gi = Some (Some gg).
Proof.
  unfold get_group. rewrite bind_Ok. setoid_rewrite must_Ok. split; [intros (a & H & ->); done|eauto].
Qed.

(** What [StartServer] does, on the parts that the invariant speaks of. *)
Record started (cfg : config) (gi i : Z) (names mnames : Z → string) (cfg' : config)
    (gg gg' : group) (rn : Network) (kv : ShardKV) : Prop := {
  st_old : zlookup (groups cfg) gi = Some (Some gg);
  st_eps : zinsert (g_endnames gg) i (Some (names <$> seqZ 0 (cfg_n cfg))) = Some (g_endnames gg');
  st_meps : zinsert (g_mendnames gg) i (Some (mnames <$> seqZ 0 (nmasters cfg))) = Some (g_mendnames gg');
  st_srv : zinsert (g_servers gg) i (Some (length (insts cfg))) = Some (g_servers gg');
  st_gid : gid gg' = gid gg;
  st_ends : new_ends (net cfg) (group_ends cfg gg names ++ master_ends cfg mnames) rn;
  st_kv : skv_gid kv = gid gg ∧ skv_me kv = i;
  st_groups : zinsert (groups cfg) gi (Some gg') = Some (groups cfg');
  st_eq : cfg' = set_groups (groups cfg') (set_insts (insts cfg ++ [inr kv])
            (set_net (AddServer rn (inr (servername (gid gg) i)) (length (insts cfg))) cfg));
}.

Lemma StartServer_started cfg gi i names mnames cfg' :
  StartServer cfg gi i names mnames = Ok cfg' →
  ∃ gg gg' rn kv, started cfg gi i names mnames cfg' gg gg' rn kv.
Proof.
  unfold StartServer, put_group. intros H.
  apply bind_Ok in H as (gg & Hgg%get_group_Ok & H). apply bind_Ok in H as (eps & Heps%must_Ok & H).
  apply bind_Ok in H as (rn1 & H1 & H). apply bind_Ok in H as (meps & Hmeps%must_Ok & H).
  apply bind_Ok in H as (rn & H2 & H). apply bind_Ok in H as (ps & _ & H).
  apply bind_Ok in H as (kv & Hkv & H). apply bind_Ok in H as (sv & _ & H).
  apply bind_Ok in H as (rs & Hrs%must_Ok & H). apply bind_Ok in H as (gs & Hgs%must_Ok & [= <-]).
  exists gg, (set_endnames eps meps (set_saved sv (set_servers rs gg))), rn, kv. split; [exact Hgg|exact Heps|exact Hmeps|exact Hrs|done| | |exact Hgs|done].
  - apply make_on_ends_spec. rewrite make_on_ends_app, H1. exact H2.
  - unfold ShardKv.StartServer in Hkv. apply bind_Ok in Hkv as (rf & _ & [= <-]). done.
Qed.

Lemma group_names cfg gg names : (group_ends cfg gg names).*1 = names <$> seqZ 0 (cfg_n cfg).
Proof. unfold group_ends. rewrite <- list_fmap_compose. by apply list_fmap_ext. Qed.
Lemma master_names cfg names : (master_ends cfg names).*1 = names <$> seqZ 0 (nmasters cfg).
Proof. unfold master_ends. rewrite <- list_fmap_compose. by apply list_fmap_ext. Qed.

(** The new names of a server. *)
Definition new_name (names mnames : Z → string) (b : bool) : Z → string := if b then mnames else names.

Lemma new_name_elem cfg gg names mnames e :
  nmasters cfg = 3 →
  e ∈ (group_ends cfg gg names ++ master_ends cfg mnames).*1 ↔
    ∃ b j, 0 ≤ j < width (cfg_n cfg) b ∧ e = new_name names mnames b j.
Proof.
  intros Hm. rewrite fmap_app, group_names, master_names, elem_of_app, Hm, !list_elem_of_fmap.
  setoid_rewrite elem_of_seqZ. split.
  - intros [(j & -> & Hj)|(j & -> & Hj)]; [exists false, j|exists true, j]; (split; [simpl; lia|done]).
  - intros ([] & j & Hj & ->); simpl in Hj; [right|left]; exists j; (split; [done|lia]).
Qed.

Lemma new_name_inj cfg gg names mnames b j b' j' :
  nmasters cfg = 3 → NoDup (group_ends cfg gg names ++ master_ends cfg mnames).*1 →
  0 ≤ j < width (cfg_n cfg) b → 0 ≤ j' < width (cfg_n cfg) b' →
  new_name names mnames b j = new_name names mnames b' j' → b = b' ∧ j = j'.
Proof.
  rewrite fmap_app, group_names, master_names. intros -> (Hd1 & Hdis & Hd2)%NoDup_app Hj Hj'.
  assert (Hin : ∀ (f : Z → string) n k, 0 ≤ k < n → f k ∈ f <$> seqZ 0 n).
  { intros f n k Hk. apply list_elem_of_fmap_2, elem_of_seqZ. lia. }
  unfold width, new_name in *. destruct b, b'; intros E.
  - split; [done|]. apply (NoDup_fmap_inj _ _ _ _ Hd2); [apply elem_of_seqZ; lia..|done].
  - destruct (Hdis (names j')); [by apply Hin|rewrite <- E; by apply Hin].
  - destruct (Hdis (names j)); [by apply Hin|rewrite E; by apply Hin].
  - split; [done|]. apply (NoDup_fmap_inj _ _ _ _ Hd1); [apply elem_of_seqZ; lia..|done].
Qed.

Section started.
Context (n : Z) (cfg : config) (gi i : Z) (names mnames : Z → string) (cfg' : config).
Context (gg gg' : group) (rn : Network) (kv : ShardKV).
Hypothesis Hst : started cfg gi i names mnames cfg' gg gg' rn kv.
Hypothesis Hinv : ginv n cfg.
Abbreviation news := (group_ends cfg gg names ++ master_ends cfg mnames).

Lemma st_parts :
  net cfg' = AddServer rn (inr (servername (gid gg) i)) (length (insts cfg)) ∧
  insts cfg' = insts cfg ++ [inr kv] ∧ cfg_n cfg' = cfg_n cfg ∧ nmasters cfg' = nmasters cfg ∧
  masterservers cfg' = masterservers cfg.
Proof. rewrite (st_eq _ _ _ _ _ _ _ _ _ _ Hst). done. Qed.

Lemma st_group_at gi' gg2 :
  zlookup (groups cfg') gi' = Some (Some gg2) ↔
    if decide (gi' = gi) then gg2 = gg' else zlookup (groups cfg) gi' = Some (Some gg2).
Proof.
  rewrite (zlookup_zinsert _ _ _ _ gi' (st_groups _ _ _ _ _ _ _ _ _ _ Hst)).
  case_decide; [|done]. split; [by intros [= <-]|by intros ->].
Qed.

Lemma st_slot gi' b i' j e :
  slot cfg' gi' b i' j e ↔
    if decide (gi' = gi ∧ i' = i) then 0 ≤ j < width n b ∧ e = new_name names mnames b j
    else slot cfg gi' b i' j e.
Proof.
  pose proof (st_old _ _ _ _ _ _ _ _ _ _ Hst) as Hold. unfold slot. setoid_rewrite st_group_at.
  assert (Hrow : endname_at (if b then g_mendnames gg' else g_endnames gg') i' j = Ok e ↔
    if decide (i' = i) then 0 ≤ j < width n b ∧ e = new_name names mnames b j
    else endname_at (if b then g_mendnames gg else g_endnames gg) i' j = Ok e).
  { destruct b; [rewrite (cur_new _ _ _ _ _ _ _ _ (st_meps _ _ _ _ _ _ _ _ _ _ Hst))
                |rewrite (cur_new _ _ _ _ _ _ _ _ (st_eps _ _ _ _ _ _ _ _ _ _ Hst))];
      by rewrite ?(gv_n _ _ Hinv), ?(gv_m _ _ Hinv). }
  destruct (decide (gi' = gi)) as [->|Hg].
  - transitivity (endname_at (if b then g_mendnames gg' else g_endnames gg') i' j = Ok e).
    { split; [by intros (? & -> & H)|by exists gg']. }
    rewrite Hrow. destruct (decide (i' = i)) as [->|Hi].
    + by rewrite decide_True.
    + rewrite decide_False by tauto. split; [by exists gg|]. intros (gg2 & H2 & H). rewrite Hold in H2. by injection H2 as <-.
  - by rewrite decide_False by tauto.
Qed.

Lemma st_runs gi' i' a :
  runs cfg' gi' i' a ↔
    if decide (gi' = gi ∧ i' = i) then a = length (insts cfg) else runs cfg gi' i' a.
Proof.
  pose proof (st_old _ _ _ _ _ _ _ _ _ _ Hst) as Hold. unfold runs. setoid_rewrite st_group_at.
  destruct (decide (gi' = gi)) as [->|Hg].
  - transitivity (zlookup (g_servers gg') i' = Some (Some a)).
    { split; [by intros (? & -> & H)|by exists gg']. }
    rewrite (zlookup_zinsert _ _ _ _ i' (st_srv _ _ _ _ _ _ _ _ _ _ Hst)).
    destruct (decide (i' = i)) as [->|Hi].
    + rewrite decide_True by done. split; [by intros [= <-]|by intros ->].
    + rewrite decide_False by tauto. split; [by exists gg|]. intros (gg2 & H2 & H). rewrite Hold in H2. by injection H2 as <-.
  - by rewrite decide_False by tauto.
Qed.

Lemma st_new e : e ∈ news.*1 ↔ ∃ b j, 0 ≤ j < width n b ∧ e = new_name names mnames b j.
Proof. rewrite <- (gv_n _ _ Hinv). apply new_name_elem, (gv_m _ _ Hinv). Qed.

Lemma st_old_slot gi' b i' j e : slot cfg gi' b i' j e → e ∉ news.*1.
Proof.
  intros Hs%(gv_ends _ _ Hinv) Hin. by apply (ne_fresh _ _ _ (st_ends _ _ _ _ _ _ _ _ _ _ Hst) e Hin).
Qed.

(** The target of a new end. *)
Lemma st_target b j :
  0 ≤ j < width n b → (new_name names mnames b j, target gi b j) ∈ news.
Proof.
  intros Hj. rewrite elem_of_app. unfold group_ends, master_ends, target, new_name, width in *.
  rewrite (gv_n _ _ Hinv), (gv_m _ _ Hinv).
  destruct (gv_shape _ _ Hinv gi gg (st_old _ _ _ _ _ _ _ _ _ _ Hst)) as [-> _].
  destruct b; [right|left]; apply list_elem_of_fmap; exists j; (split; [done|apply elem_of_seqZ; lia]).
Qed.

Lemma st_on e : is_on (net cfg') e ↔ is_on (net cfg) e ∨ e ∈ news.*1.
Proof.
  destruct st_parts as [-> _]. unfold is_on. cbn [AddServer LabRpc.set_servers enabled].
  apply (ne_on _ _ _ (st_ends _ _ _ _ _ _ _ _ _ _ Hst)).
Qed.

Lemma st_servers s :
  servers (net cfg') !! s = if decide (s = inr (servername (100 + gi) i)) then Some (Some (length (insts cfg)))
                            else servers (net cfg) !! s.
Proof.
  destruct st_parts as [-> _]. cbn [AddServer LabRpc.set_servers servers].
  destruct (gv_shape _ _ Hinv gi gg (st_old _ _ _ _ _ _ _ _ _ _ Hst)) as [-> _].
  rewrite (ne_servers _ _ _ (st_ends _ _ _ _ _ _ _ _ _ _ Hst)).
  destruct (decide (s = _)) as [->|Hne]; [by rewrite lookup_insert_eq|by rewrite lookup_insert_ne].
Qed.

Lemma st_shape gi' gg2 :
  zlookup (groups cfg') gi' = Some (Some gg2) →
  gid gg2 = 100 + gi' ∧ len (g_servers gg2) = n ∧
  (∀ i l, zlookup (g_endnames gg2) i = Some (Some l) → len l = n) ∧
  (∀ i l, zlookup (g_mendnames gg2) i = Some (Some l) → len l = 3) ∧ len (g_mendnames gg2) = 3.
Proof.
  intros H%st_group_at. destruct (decide (gi' = gi)) as [->|]; [subst gg2|by apply (gv_shape _ _ Hinv)].
  destruct Hst as [Hold Heps Hmeps Hsrv Hgid _ _ _ _].
  destruct (gv_shape _ _ Hinv gi gg Hold) as (Hg & Hl & Hrow & Hmrow & Hml).
  rewrite (gv_n _ _ Hinv) in Heps. rewrite (gv_m _ _ Hinv) in Hmeps. pose proof (len_nonneg (g_servers gg)).
  split_and!; [congruence|by rewrite (len_zinsert _ _ _ _ Hsrv)|intros k l..|by rewrite (len_zinsert _ _ _ _ Hmeps)].
  - rewrite (zlookup_zinsert _ _ _ _ k Heps). destruct (decide (k = i)); [|apply Hrow].
    intros [= <-]. unfold len. rewrite length_fmap, length_seqZ. lia.
  - rewrite (zlookup_zinsert _ _ _ _ k Hmeps). destruct (decide (k = i)); [|apply Hmrow]. by intros [= <-].
Qed.

Lemma st_inj gi1 b1 i1 j1 gi2 b2 i2 j2 e :
  slot cfg' gi1 b1 i1 j1 e → slot cfg' gi2 b2 i2 j2 e → gi1 = gi2 ∧ b1 = b2 ∧ i1 = i2 ∧ j1 = j2.
Proof.
  assert (Hno : ∀ g b k j b' j', slot cfg g b k j (new_name names mnames b' j') → ¬ 0 ≤ j' < width n b').
  { intros g b k j b' j' Hs%st_old_slot Hj. apply Hs, st_new. eauto. }
  rewrite !st_slot. destruct (decide (gi1 = gi ∧ i1 = i)) as [[-> ->]|], (decide (gi2 = gi ∧ i2 = i)) as [[-> ->]|].
  - intros [H1 ->] [H2 E]. rewrite <- (gv_n _ _ Hinv) in H1, H2.
    destruct (new_name_inj cfg gg names mnames b1 j1 b2 j2 (gv_m _ _ Hinv)
      (ne_nodup _ _ _ (st_ends _ _ _ _ _ _ _ _ _ _ Hst)) H1 H2 E). auto.
  - intros [H1 ->] H2%Hno. done.
  - intros H1 [H2 ->]. by apply Hno in H1.
  - apply (gv_inj _ _ Hinv).
Qed.

Lemma st_conn gi' b i' j e :
  slot cfg' gi' b i' j e → connections (net cfg') !! e = Some (Some (inr (target gi' b j))).
Proof.
  destruct st_parts as [-> _]. cbn [AddServer LabRpc.set_servers connections].
  pose proof (st_ends _ _ _ _ _ _ _ _ _ _ Hst) as Hends. rewrite st_slot.
  destruct (decide (gi' = gi ∧ i' = i)) as [[-> ->]|].
  - intros [Hj ->]. by apply (ne_new _ _ _ Hends), st_target.
  - intros Hs. rewrite (ne_old _ _ _ Hends) by (by eapply st_old_slot). by eapply (gv_conn _ _ Hinv).
Qed.

Lemma st_srv_inv gi' gg2 i' r :
  zlookup (groups cfg') gi' = Some (Some gg2) → zlookup (g_servers gg2) i' = Some r →
  default None (servers (net cfg') !! inr (servername (100 + gi') i')) = r.
Proof.
  intros Hg2 Hr. rewrite st_servers. apply st_group_at in Hg2.
  assert (Hne : ∀ gg0, zlookup (groups cfg) gi' = Some gg0 → inr (servername (100 + gi') i') =
    inr (A:=Z) (servername (100 + gi) i) → gi' = gi ∧ i' = i).
  { intros gg0 H0%zlookup_Some_lt E%(inj inr). pose proof (zlookup_Some_lt _ _ _ (st_old _ _ _ _ _ _ _ _ _ _ Hst)).
    apply servername_inj in E as [? ?]; lia. }
  destruct (decide (gi' = gi)) as [->|Hg].
  - subst gg2. rewrite (zlookup_zinsert _ _ _ _ i' (st_srv _ _ _ _ _ _ _ _ _ _ Hst)) in Hr.
    destruct (decide (i' = i)) as [->|]; [injection Hr as <-; by rewrite decide_True|].
    rewrite decide_False by (intros E; eapply Hne in E as [_ ?]; [done|apply Hst]).
    by apply (gv_srv _ _ Hinv _ gg); [apply Hst|].
  - rewrite decide_False by (intros E; eapply Hne in E as [? _]; done). by eapply (gv_srv _ _ Hinv).
Qed.

Lemma st_ginv : ginv n cfg'.
Proof.
  destruct st_parts as (Hnet & Hins & Hn & Hm & Hms). split.
  - by rewrite Hn, (gv_n _ _ Hinv).
  - by rewrite Hm, (gv_m _ _ Hinv).
  - apply st_shape.
  - intros *. apply st_inj.
  - intros gi' b i' j e. rewrite st_slot, Hnet. cbn [AddServer LabRpc.set_servers ends].
    rewrite (ne_ends _ _ _ (st_ends _ _ _ _ _ _ _ _ _ _ Hst)).
    case_decide; [|by left; eapply (gv_ends _ _ Hinv)]. intros [Hj ->]. right. apply st_new. eauto.
  - intros *. apply st_conn.
  - intros gi' b i' j e. setoid_rewrite st_runs. rewrite st_slot, st_on.
    destruct (decide (gi' = gi ∧ i' = i)) as [[-> ->]|].
    + intros [Hj ->]. split; [eauto|]. intros _. right. apply st_new. eauto.
    + intros Hs. rewrite <- (gv_on _ _ Hinv _ _ _ _ _ Hs). split; [|tauto].
      intros [?|Hin]; [done|]. by apply st_old_slot in Hs.
  - intros gi' i' a b j. rewrite st_runs. setoid_rewrite st_slot.
    destruct (decide (gi' = gi ∧ i' = i)); [eauto|apply (gv_rows _ _ Hinv)].
  - intros *. apply st_srv_inv.
  - intros gi' i' a. rewrite st_runs, Hins. destruct (decide (gi' = gi ∧ i' = i)) as [[-> ->]|].
    + intros ->. exists kv. destruct (st_kv _ _ _ _ _ _ _ _ _ _ Hst) as [-> ->].
      destruct (gv_shape _ _ Hinv gi gg (st_old _ _ _ _ _ _ _ _ _ _ Hst)) as [-> _].
      by rewrite lookup_app_r, Nat.sub_diag by lia.
    + intros (kv' & Hkv & ?)%(gv_insts _ _ Hinv). exists kv'. split; [|done]. by apply lookup_app_l_Some.
  - intros j a. rewrite Hms, Hins, st_servers. intros (Hs & sm & Hsm)%(gv_masters _ _ Hinv).
    rewrite decide_False by (intros E%(inj inr); by apply mastername_servername in E).
    split; [done|]. exists sm. by apply lookup_app_l_Some.
  - rewrite Hms. apply Hinv.
Qed.
End started.

(** *** Shutting a server down *)

(** A server keeps its number and group. *)
Definition same_server (ins ins' : list (ShardMaster + ShardKV)) : Prop :=
  length ins' = length ins ∧
  (∀ a kv, ins !! a = Some (inr kv) → ∃ kv', ins' !! a = Some (inr kv') ∧ skv_gid kv' = skv_gid kv ∧ skv_me kv' = skv_me kv) ∧
  (∀ a sm, ins !! a = Some (inl sm) → ∃ sm', ins' !! a = Some (inl sm')).

Lemma same_server_refl ins : same_server ins ins.
Proof. split_and!; eauto. Qed.

Lemma same_server_alter (f : ShardMaster + ShardKV → ShardMaster + ShardKV) a ins :
  (∀ kv, ∃ kv', f (inr kv) = inr kv' ∧ skv_gid kv' = skv_gid kv ∧ skv_me kv' = skv_me kv) →
  (∀ sm, ∃ sm', f (inl sm) = inl sm') → same_server ins (alter f a ins).
Proof.
  intros Hkv Hsm. split_and!; [by rewrite length_alter|..]; intros b s Hb; destruct (decide (a = b)) as [->|Hne];
    rewrite ?list_lookup_alter_eq, ?list_lookup_alter_ne, Hb by done; simpl; eauto.
  - destruct (Hkv s) as (kv' & -> & H). eauto.
  - destruct (Hsm s) as (sm' & ->). eauto.
Qed.

Record shut (cfg : config) (gi i : Z) (cfg' : config) (gg gg' : group) (rn : Network) : Prop := {
  sh_old : zlookup (groups cfg) gi = Some (Some gg);
  sh_same : g_endnames gg' = g_endnames gg ∧ g_mendnames gg' = g_mendnames gg ∧ gid gg' = gid gg;
  sh_len : len (g_servers gg') = len (g_servers gg);
  sh_srv : ∀ i', zlookup (g_servers gg') i' = if decide (i' = i) then Some None else zlookup (g_servers gg) i';
  sh_ends : same_but_enabled (net cfg) rn;
  sh_on : ∀ e, is_on rn e ↔ is_on (net cfg) e ∧
    ¬ (∃ j, 0 ≤ j < len (g_servers gg) ∧ endname_at (g_endnames gg) i j = Ok e) ∧
    ¬ (∃ j, endname_at (g_mendnames gg) i j = Ok e);
  sh_insts : same_server (insts cfg) (insts cfg');
  sh_groups : zinsert (groups cfg) gi (Some gg') = Some (groups cfg');
  sh_eq : cfg' = set_groups (groups cfg') (set_insts (insts cfg')
            (set_net (DeleteServer rn (inr (servername (gid gg) i))) cfg));
}.

Lemma kill_server_Ok cfg gg i cfg' gg' :
  kill_server cfg gg i = Ok (cfg', gg') →
  cfg' = set_insts (insts cfg') cfg ∧ same_server (insts cfg) (insts cfg') ∧
  gg' = set_servers (g_servers gg') gg ∧ len (g_servers gg') = len (g_servers gg) ∧
  ∀ i', zlookup (g_servers gg') i' = if decide (i' = i) then Some None else zlookup (g_servers gg) i'.
Proof.
  unfold kill_server. intros (r & Hr%must_Ok & H)%bind_Ok. destruct r as [a|].
  - apply bind_Ok in H as (l & Hl%must_Ok & [= <- <-]). split_and!; [done| |done|by eapply len_zinsert|].
    + cbn [insts set_insts]. apply same_server_alter; [by intros kv; eexists|eauto].
    + intros i'. by apply zlookup_zinsert.
  - injection H as <- <-. split_and!; [by destruct cfg|apply same_server_refl|by destruct gg|done|].
    intros i'. case_decide as E; [|done]. by rewrite E.
Qed.

Lemma named_row (l : list string) eps i e :
  named (λ _, Ok true) (endname_at eps i) (seqZ 0 (len l)) e ↔ ∃ j, 0 ≤ j < len l ∧ endname_at eps i j = Ok e.
Proof.
  unfold named. split.
  - intros (j & Hj%elem_of_seqZ & _ & He). exists j. split; [lia|done].
  - intros (j & Hj & He). exists j. split_and!; [apply elem_of_seqZ; lia|done|done].
Qed.

Lemma ShutdownServer_shut cfg gi i cfg' :
  ShutdownServer cfg gi i = Ok cfg' → ∃ gg gg' rn, shut cfg gi i cfg' gg gg' rn.
Proof.
  unfold ShutdownServer, put_group. intros H.
  apply bind_Ok in H as (gg & Hgg%get_group_Ok & H). apply bind_Ok in H as (rn1 & H1 & H).
  apply bind_Ok in H as (mrow & Hmrow%must_Ok & H). apply bind_Ok in H as (rn & H2 & H).
  apply bind_Ok in H as (gg1 & Hg1 & H). apply bind_Ok in H as ([cfg1 gg2] & Hk & H).
  apply bind_Ok in H as (gs & Hgs%must_Ok & [= <-]).
  assert (∃ sv, gg1 = set_saved sv gg) as [sv ->].
  { unfold copy_saved in Hg1. apply bind_Ok in Hg1 as (p & _ & Hg1). destruct p as [p|].
    - apply bind_Ok in Hg1 as (ps & _ & Hg1). apply bind_Ok in Hg1 as (l & _ & [= <-]). by exists l.
    - injection Hg1 as <-. exists (g_saved gg). by destruct gg. }
  apply kill_server_Ok in Hk as (Hcfg & Hins & Hgg2 & Hlen & Hsrv). rewrite Hcfg in Hgs |- *.
  apply enable_loop_spec in H1 as [S1 O1], H2 as [S2 O2].
  exists gg, gg2, rn. split; cbn [groups set_groups insts set_insts] in *.
  - done.
  - rewrite Hgg2. done.
  - exact Hlen.
  - exact Hsrv.
  - by eapply same_but_enabled_trans.
  - intros e. rewrite O2, O1. unfold named at 1. setoid_rewrite elem_of_seqZ.
    assert (Hm : named (λ _, Ok true) (endname_at (g_mendnames gg) i) (seqZ 0 (len (default [] mrow))) e ↔
      ∃ j, endname_at (g_mendnames gg) i j = Ok e).
    { rewrite named_row. split; [intros (j & _ & He); by exists j|]. intros (j & He). exists j.
      split; [|done]. unfold endname_at in He. rewrite Hmrow in He. simpl in He. apply must_Ok in He.
      by eapply zlookup_Some_lt. }
    rewrite Hm. split.
    + intros [[Hon Hn1] Hn2]. split_and!; [done| |done]. intros (j & Hj & He). apply Hn1. exists j.
      split; [lia|done].
    + intros (Hon & Hn1 & Hn2). split; [|done]. split; [done|]. intros (j & Hj & _ & He). apply Hn1.
      exists j. split; [lia|done].
  - exact Hins.
  - exact Hgs.
  - done.
Qed.

Section shut.
Context (n : Z) (cfg : config) (gi i : Z) (cfg' : config) (gg gg' : group) (rn : Network).
Hypothesis Hsh : shut cfg gi i cfg' gg gg' rn.
Hypothesis Hinv : ginv n cfg.

Lemma sh_parts :
  net cfg' = DeleteServer rn (inr (servername (100 + gi) i)) ∧ cfg_n cfg' = cfg_n cfg ∧
  nmasters cfg' = nmasters cfg ∧ masterservers cfg' = masterservers cfg.
Proof.
  destruct (gv_shape _ _ Hinv gi gg (sh_old _ _ _ _ _ _ _ Hsh)) as [<- _].
  rewrite (sh_eq _ _ _ _ _ _ _ Hsh). done.
Qed.

Lemma sh_group_at gi' gg2 :
  zlookup (groups cfg') gi' = Some (Some gg2) ↔
    if decide (gi' = gi) then gg2 = gg' else zlookup (groups cfg) gi' = Some (Some gg2).
Proof.
  rewrite (zlookup_zinsert _ _ _ _ gi' (sh_groups _ _ _ _ _ _ _ Hsh)).
  case_decide; [|done]. split; [by intros [= <-]|by intros ->].
Qed.

Lemma sh_slot gi' b i' j e : slot cfg' gi' b i' j e ↔ slot cfg gi' b i' j e.
Proof.
  unfold slot. setoid_rewrite sh_group_at. destruct (decide (gi' = gi)) as [->|]; [|done].
  destruct (sh_same _ _ _ _ _ _ _ Hsh) as (E1 & E2 & _). split.
  - intros (gg2 & -> & H). rewrite E1, E2 in H. exists gg. split; [apply Hsh|done].
  - intros (gg2 & H2 & H). rewrite (sh_old _ _ _ _ _ _ _ Hsh) in H2. injection H2 as <-.
    exists gg'. by rewrite E1, E2.
Qed.

Lemma sh_runs gi' i' a : runs cfg' gi' i' a ↔ runs cfg gi' i' a ∧ ¬ (gi' = gi ∧ i' = i).
Proof.
  unfold runs. setoid_rewrite sh_group_at. destruct (decide (gi' = gi)) as [->|]; [|tauto].
  assert (Hex : ∀ P : group → Prop, (∃ gg2, zlookup (groups cfg) gi = Some (Some gg2) ∧ P gg2) ↔ P gg).
  { intros P. rewrite (sh_old _ _ _ _ _ _ _ Hsh). split; [by intros (gg2 & [= <-] & H)|by exists gg]. }
  rewrite (Hex (λ gg2, zlookup (g_servers gg2) i' = Some (Some a))).
  transitivity (zlookup (g_servers gg') i' = Some (Some a)).
  { split; [by intros (? & -> & H)|by exists gg']. }
  rewrite (sh_srv _ _ _ _ _ _ _ Hsh). destruct (decide (i' = i)); naive_solver.
Qed.

Lemma sh_slot_on gi' b i' j e :
  slot cfg gi' b i' j e → is_on (net cfg') e ↔ is_on (net cfg) e ∧ ¬ (gi' = gi ∧ i' = i).
Proof.
  intros Hs. destruct sh_parts as [-> _]. pose proof (sh_old _ _ _ _ _ _ _ Hsh) as Hold.
  destruct (gv_shape _ _ Hinv gi gg Hold) as (_ & Hlen & Hrow & _).
  assert (Hoff : (∃ j, 0 ≤ j < len (g_servers gg) ∧ endname_at (g_endnames gg) i j = Ok e) ∨
    (∃ j, endname_at (g_mendnames gg) i j = Ok e) ↔ gi' = gi ∧ i' = i).
  { split.
    - intros [(j' & _ & He)|(j' & He)];
        [destruct (gv_inj _ _ Hinv gi' b i' j gi false i j' e Hs) as (? & _ & ? & _)
        |destruct (gv_inj _ _ Hinv gi' b i' j gi true i j' e Hs) as (? & _ & ? & _)]; auto; by exists gg.
    - intros [-> ->]. destruct Hs as (gg2 & H2 & He). rewrite Hold in H2. injection H2 as <-.
      destruct b; [right; by exists j|left]. exists j. split; [|done]. unfold endname_at in He.
      apply bind_Ok in He as (l & Hl%must_Ok & He%must_Ok). apply zlookup_Some_lt in He.
      destruct l as [l|]; simpl in He; [by rewrite Hlen, <- (Hrow i l Hl)|unfold len in He; simpl in He; lia]. }
  transitivity (is_on rn e); [done|]. rewrite (sh_on _ _ _ _ _ _ _ Hsh). tauto.
Qed.

Lemma sh_ginv : ginv n cfg'.
Proof.
  destruct sh_parts as (Hnet & Hn & Hm & Hms). pose proof (sh_ends _ _ _ _ _ _ _ Hsh) as Hends. split.
  - by rewrite Hn, (gv_n _ _ Hinv).
  - by rewrite Hm, (gv_m _ _ Hinv).
  - intros gi' gg2 H%sh_group_at. destruct (decide (gi' = gi)) as [->|]; [|by apply (gv_shape _ _ Hinv)].
    subst gg2. destruct (sh_same _ _ _ _ _ _ _ Hsh) as (-> & -> & ->). rewrite (sh_len _ _ _ _ _ _ _ Hsh).
    apply (gv_shape _ _ Hinv), Hsh.
  - intros *. rewrite !sh_slot. apply (gv_inj _ _ Hinv).
  - intros *. rewrite sh_slot, Hnet, Hends. apply (gv_ends _ _ Hinv).
  - intros *. rewrite sh_slot, Hnet, Hends. apply (gv_conn _ _ Hinv).
  - intros gi' b i' j e Hs%sh_slot. setoid_rewrite sh_runs.
    rewrite (sh_slot_on _ _ _ _ _ Hs), (gv_on _ _ Hinv _ _ _ _ _ Hs). naive_solver.
  - intros gi' i' a b j [Hr _]%sh_runs. setoid_rewrite sh_slot. by apply (gv_rows _ _ Hinv _ _ a).
  - intros gi' gg2 i' r Hg2 Hr. rewrite Hnet. cbn [DeleteServer LabRpc.set_servers servers]. apply sh_group_at in Hg2.
    pose proof (zlookup_Some_lt _ _ _ (sh_old _ _ _ _ _ _ _ Hsh)) as H0.
    destruct (decide (gi' = gi ∧ i' = i)) as [[-> ->]|Hne].
    + rewrite lookup_insert_eq. rewrite decide_True in Hg2 by done. subst gg2.
      rewrite (sh_srv _ _ _ _ _ _ _ Hsh), decide_True in Hr by done. by injection Hr as <-.
    + rewrite Hends. destruct (decide (gi' = gi)) as [->|Hg].
      * subst gg2. rewrite lookup_insert_ne by (intros E%(inj inr); apply servername_inj in E; lia).
        rewrite (sh_srv _ _ _ _ _ _ _ Hsh), decide_False in Hr by tauto.
        by apply (gv_srv _ _ Hinv _ gg); [apply Hsh|].
      * rewrite lookup_insert_ne; [by eapply (gv_srv _ _ Hinv)|].
        apply zlookup_Some_lt in Hg2. intros E%(inj inr). apply servername_inj in E; lia.
  - intros gi' i' a [Hr _]%sh_runs. destruct (sh_insts _ _ _ _ _ _ _ Hsh) as (_ & Hkv & _).
    destruct (gv_insts _ _ Hinv _ _ _ Hr) as (kv & (kv' & Hk & E1 & E2)%Hkv & Hg & Hme).
    exists kv'. by rewrite E1, E2.
  - intros j a. rewrite Hms, Hnet. cbn [DeleteServer LabRpc.set_servers servers]. rewrite Hends.
    intros (Hs & sm & Hsm)%(gv_masters _ _ Hinv). destruct (sh_insts _ _ _ _ _ _ _ Hsh) as (_ & _ & Hsms).
    rewrite lookup_insert_ne by (intros E%(inj inr); symmetry in E; by apply mastername_servername in E). eauto.
  - rewrite Hms. apply Hinv.
Qed.
End shut.

(** *** The other steps *)

Record same_shape (cfg cfg' : config) : Prop := {
  ss_groups : groups cfg' = groups cfg;
  ss_n : cfg_n cfg' = cfg_n cfg;
  ss_m : nmasters cfg' = nmasters cfg;
  ss_masters : masterservers cfg' = masterservers cfg;
  ss_insts : same_server (insts cfg) (insts cfg');
  ss_servers : servers (net cfg') = servers (net cfg);
  ss_ends : ∀ e, e ∈ ends (net cfg) → e ∈ ends (net cfg');
  ss_on : ∀ e, e ∈ ends (net cfg) → is_on (net cfg') e ↔ is_on (net cfg) e;
  ss_conn : ∀ e, e ∈ ends (net cfg) → connections (net cfg') !! e = connections (net cfg) !! e;
}.

Lemma same_shape_ginv n cfg cfg' : ginv n cfg → same_shape cfg cfg' → ginv n cfg'.
Proof.
  intros Hinv [Eg En Em Ems (_ & Hkv & Hsm) Es He Ho Hc].
  assert (Hslot : ∀ gi b i j e, slot cfg' gi b i j e ↔ slot cfg gi b i j e) by (intros; unfold slot; by rewrite Eg).
  assert (Hruns : ∀ gi i a, runs cfg' gi i a ↔ runs cfg gi i a) by (intros; unfold runs; by rewrite Eg).
  split.
  - rewrite En. apply Hinv.
  - rewrite Em. apply Hinv.
  - rewrite Eg. apply Hinv.
  - intros *. rewrite !Hslot. apply (gv_inj _ _ Hinv).
  - intros *. rewrite Hslot. intros Hs. by eapply He, (gv_ends _ _ Hinv).
  - intros *. rewrite Hslot. intros Hs. rewrite Hc by (by eapply (gv_ends _ _ Hinv)). by eapply (gv_conn _ _ Hinv).
  - intros gi b i j e Hs%Hslot. setoid_rewrite Hruns. rewrite Ho by (by eapply (gv_ends _ _ Hinv)).
    by apply (gv_on _ _ Hinv _ b _ j).
  - intros gi i a b j Hr%Hruns. setoid_rewrite Hslot. by apply (gv_rows _ _ Hinv _ _ a).
  - rewrite Eg, Es. apply Hinv.
  - intros gi i a Hr%Hruns. destruct (gv_insts _ _ Hinv _ _ _ Hr) as (kv & (kv' & Hk & E1 & E2)%Hkv & Hg & Hme).
    exists kv'. by rewrite E1, E2.
  - rewrite Ems, Es. intros j a (Hs & sm & Hm)%(gv_masters _ _ Hinv). eauto.
  - rewrite Ems. apply Hinv.
Qed.

Lemma same_shape_net cfg rn :
  servers rn = servers (net cfg) → ends rn = ends (net cfg) → enabled rn = enabled (net cfg) →
  connections rn = connections (net cfg) → same_shape cfg (set_net rn cfg).
Proof.
  intros E1 E2 E3 E4. split; cbn [net set_net groups cfg_n nmasters masterservers insts]; try done.
  - apply same_server_refl.
  - by rewrite E2.
  - intros e _. unfold is_on. by rewrite E3.
  - by rewrite E4.
Qed.

Lemma same_shape_ends cfg l rn :
  new_ends (net cfg) l rn → same_shape cfg (set_net rn cfg).
Proof.
  intros [Hf Hnd He Hon Hc Ho Hs]. split; cbn [net set_net groups cfg_n nmasters masterservers insts]; try done.
  - apply same_server_refl.
  - intros e Hin. apply He. by left.
  - intros e Hin. rewrite Hon. split; [|by left]. intros [?|Hl]; [done|]. by apply Hf in Hl.
  - intros e Hin. apply Ho. intros Hl. by apply Hf in Hl.
Qed.

Lemma same_shape_insts cfg ins : same_server (insts cfg) ins → same_shape cfg (set_insts ins cfg).
Proof. intros H. by split. Qed.

Lemma same_shape_clerks cfg m k : same_shape cfg (set_clerks m k cfg).
Proof. split; try done. apply same_server_refl. Qed.

Lemma gstep_ginv n cfg o cfg' : ginv n cfg → gstep cfg o = Ok cfg' → ginv n cfg'.
Proof.
  intros Hinv H. destruct o as [gi i names mnames|gi i|names r|id|server name|a rf|a sm|]; cbn [gstep] in H.
  - apply StartServer_started in H as (gg & gg' & rn & kv & H). by eapply st_ginv.
  - apply ShutdownServer_shut in H as (gg & gg' & rn & H). by eapply sh_ginv.
  - apply bind_Ok in H as ([[cfg1 id] ck] & H & [= <-]). unfold makeClient in H.
    apply bind_Ok in H as (? & _ & H). apply bind_Ok in H as (? & _ & H).
    apply bind_Ok in H as (rn & Hrn%make_on_ends_spec & [= <- _ _]).
    eapply same_shape_ginv; [|apply same_shape_clerks]. by eapply same_shape_ginv, same_shape_ends.
  - injection H as <-. by eapply same_shape_ginv, same_shape_clerks.
  - unfold make_end in H. apply bind_Ok in H as (rn & Hrn%make_on_ends_spec & [= <-]).
    by eapply same_shape_ginv, same_shape_ends.
  - injection H as <-. eapply same_shape_ginv, same_shape_insts; [done|]. apply same_server_alter; [|eauto].
    intros kv. by eexists.
  - injection H as <-. eapply same_shape_ginv, same_shape_insts; [done|]. apply same_server_alter; eauto.
  - injection H as <-. by eapply same_shape_ginv, same_shape_net.
Qed.

(** *** [make_config] *)

(** The shard masters are registered under their names. *)
Definition masters_ok (cfg : config) : Prop :=
  ∀ j a, zlookup (masterservers cfg) j = Some (Some a) →
    servers (net cfg) !! inr (mastername j) = Some (Some a) ∧ ∃ sm, insts cfg !! a = Some (inl sm).

Lemma ginv_no_groups n cfg :
  (∀ gi gg, zlookup (groups cfg) gi ≠ Some (Some gg)) → cfg_n cfg = n → nmasters cfg = 3 → masters_ok cfg →
  (∀ j, 0 ≤ j < 3 → ∃ a, zlookup (masterservers cfg) j = Some (Some a)) → ginv n cfg.
Proof.
  intros Hno Hn Hm Hms Hrun.
  assert (Hslot : ∀ gi b i j e, ¬ slot cfg gi b i j e) by (intros gi b i j e (gg & H & _); by apply Hno in H).
  assert (Hruns : ∀ gi i a, ¬ runs cfg gi i a) by (intros gi i a (gg & H & _); by apply Hno in H).
  split; try done.
  - intros gi gg H. by apply Hno in H.
  - intros * H. by apply Hslot in H.
  - intros * H. by apply Hslot in H.
  - intros * H. by apply Hslot in H.
  - intros * H. by apply Hslot in H.
  - intros * H. by apply Hruns in H.
  - intros * H. by apply Hno in H.
  - intros * H. by apply Hruns in H.
Qed.

(** While the masters are started. *)
Record masters_inv (cfg : config) : Prop := {
  mi_m : nmasters cfg = 3;
  mi_len : len (masterservers cfg) = 3;
  mi_ok : masters_ok cfg;
  mi_none : ∀ g i, servers (net cfg) !! inr (servername g i) = None;
}.

Lemma mastername_inj i j : mastername i = mastername j → i = j.
Proof. unfold mastername. intros E%(inj (String.app _)). by apply Itoa_inj. Qed.

Lemma StartMasterServer_inv cfg i names cfg' :
  masters_inv cfg → StartMasterServer cfg i names = Ok cfg' →
  masters_inv cfg' ∧ (∃ a, zlookup (masterservers cfg') i = Some (Some a)) ∧
  ∀ j, (∃ a, zlookup (masterservers cfg) j = Some (Some a)) → ∃ a, zlookup (masterservers cfg') j = Some (Some a).
Proof.
  intros [Hm Hl Hok Hno] H. unfold StartMasterServer in H.
  apply bind_Ok in H as (rn & Hrn%make_on_ends_spec & H). apply bind_Ok in H as (sm & _ & H).
  apply bind_Ok in H as (ms & Hms%must_Ok & [= <-]). pose proof (ne_servers _ _ _ Hrn) as Hs.
  assert (Hat : ∀ j, zlookup ms j = if decide (j = i) then Some (Some (length (insts cfg))) else zlookup (masterservers cfg) j)
    by (intros j; by apply zlookup_zinsert).
  split; [split|split]; unfold masters_ok;
    cbn [set_insts set_masters set_net net nmasters masterservers insts AddServer LabRpc.set_servers servers].
  - done.
  - by rewrite (len_zinsert _ _ _ _ Hms).
  - intros j a. rewrite Hat, Hs. destruct (decide (j = i)) as [->|Hne].
    + intros [= <-]. rewrite lookup_insert_eq, lookup_app_r, Nat.sub_diag by lia. split; [done|by exists sm].
    + intros (Hj & sm' & Hsm)%Hok. rewrite lookup_insert_ne by (intros E%(inj inr)%mastername_inj; congruence).
      split; [done|]. exists sm'. by apply lookup_app_l_Some.
  - intros g i'. rewrite Hs, lookup_insert_ne; [done|]. intros E%(inj inr). by apply mastername_servername in E.
  - rewrite Hat, decide_True by done. eauto.
  - intros j Hj. rewrite Hat. destruct (decide (j = i)); eauto.
Qed.

Lemma start_masters_inv cfg names is_ cfg' :
  masters_inv cfg → start_masters cfg names is_ = Ok cfg' →
  masters_inv cfg' ∧ (∀ j, j ∈ is_ → ∃ a, zlookup (masterservers cfg') j = Some (Some a)) ∧
  ∀ j, (∃ a, zlookup (masterservers cfg) j = Some (Some a)) → ∃ a, zlookup (masterservers cfg') j = Some (Some a).
Proof.
  revert cfg. induction is_ as [|i is_ IH]; intros cfg Hi; cbn [start_masters].
  { intros [= <-]. split_and!; [done| |done]. intros j Hj. by apply not_elem_of_nil in Hj. }
  intros (cfg1 & (Hi1 & Hnew & Hold)%StartMasterServer_inv & H)%bind_Ok; [|done].
  apply IH in H as (Hi' & Hin & Hkeep); [|done]. split_and!; [done| |auto].
  intros j [->|Hj]%elem_of_cons; auto.
Qed.

(** While the groups are started: the groups that are still nil have no servers. *)
Record setup (n : Z) (cfg : config) : Prop := {
  su_inv : ginv n cfg;
  su_none : ∀ gi i, zlookup (groups cfg) gi = Some None → servers (net cfg) !! inr (servername (100 + gi) i) = None;
}.

Lemma zlookup_replicate_inv {A} k (x y : A) i : zlookup (replicate k x) i = Some y → y = x.
Proof. unfold zlookup. case_decide; [|done]. by intros [-> _]%lookup_replicate. Qed.

(** A group of which no server was started. *)
Section new_group.
Context (cfg : config) (gi : Z) (gs : list (option group)).
Hypothesis Hgi : zlookup (groups cfg) gi = Some None.
Hypothesis Hgs : zinsert (groups cfg) gi (Some (new_group cfg gi)) = Some gs.

Lemma ng_at gi' :
  zlookup gs gi' = if decide (gi' = gi) then Some (Some (new_group cfg gi)) else zlookup (groups cfg) gi'.
Proof. by apply zlookup_zinsert. Qed.

Lemma ng_slot gi' b i j e : slot (set_groups gs cfg) gi' b i j e ↔ slot cfg gi' b i j e.
Proof.
  unfold slot. cbn [groups set_groups]. rewrite ng_at. destruct (decide (gi' = gi)) as [->|]; [|done].
  rewrite Hgi. split; intros (gg & [= <-] & E). exfalso. unfold endname_at, new_group in E.
  apply bind_Ok in E as (l & Hl%must_Ok & E%must_Ok).
  assert (l = None) as -> by (destruct b; cbn [g_mendnames g_endnames] in Hl; by apply zlookup_replicate_inv in Hl).
  apply zlookup_Some_lt in E. unfold len in E. simpl in E. lia.
Qed.

Lemma ng_runs gi' i a : runs (set_groups gs cfg) gi' i a ↔ runs cfg gi' i a.
Proof.
  unfold runs. cbn [groups set_groups]. rewrite ng_at. destruct (decide (gi' = gi)) as [->|]; [|done].
  rewrite Hgi. split; intros (gg & [= <-] & E). unfold new_group in E. cbn [g_servers] in E.
  by apply zlookup_replicate_inv in E.
Qed.

Lemma ng_shape n gi' gg :
  ginv n cfg → 0 ≤ n → zlookup gs gi' = Some (Some gg) →
  gid gg = 100 + gi' ∧ len (g_servers gg) = n ∧
  (∀ i l, zlookup (g_endnames gg) i = Some (Some l) → len l = n) ∧
  (∀ i l, zlookup (g_mendnames gg) i = Some (Some l) → len l = 3) ∧ len (g_mendnames gg) = 3.
Proof.
  intros Hinv Hn. rewrite ng_at. destruct (decide (gi' = gi)) as [->|]; [|apply Hinv]. intros [= <-].
  unfold new_group. cbn [gid g_servers g_endnames g_mendnames]. rewrite (gv_n _ _ Hinv), (gv_m _ _ Hinv).
  split_and!; [done| |intros i l El..|done].
  - unfold len. rewrite length_replicate. lia.
  - by apply zlookup_replicate_inv in El.
  - by apply zlookup_replicate_inv in El.
Qed.
End new_group.

Lemma put_new_group n cfg gi cfg' :
  setup n cfg → 0 ≤ n → zlookup (groups cfg) gi = Some None → put_group cfg gi (new_group cfg gi) = Ok cfg' →
  setup n cfg' ∧ (∀ gi', gi' ≠ gi → zlookup (groups cfg') gi' = zlookup (groups cfg) gi') ∧
  ∀ gi' i a, runs cfg gi' i a → runs cfg' gi' i a.
Proof.
  intros [Hinv Hno] Hn Hgi H. unfold put_group in H. apply bind_Ok in H as (gs & Hgs%must_Ok & [= <-]).
  pose proof (ng_at cfg gi gs Hgs) as Hat. pose proof (ng_slot cfg gi gs Hgi Hgs) as Hslot.
  pose proof (ng_runs cfg gi gs Hgi Hgs) as Hruns.
  split; [split|split; [intros gi' Hne; cbn [groups set_groups]; by rewrite Hat, decide_False|intros *; by rewrite Hruns]].
  - split; cbn [net cfg_n nmasters groups masterservers insts set_groups]; try apply Hinv.
    + intros *. by apply (ng_shape cfg gi gs Hgs n).
    + intros *. rewrite !Hslot. apply (gv_inj _ _ Hinv).
    + intros *. rewrite Hslot. apply (gv_ends _ _ Hinv).
    + intros *. rewrite Hslot. apply (gv_conn _ _ Hinv).
    + intros *. rewrite Hslot. setoid_rewrite Hruns. apply (gv_on _ _ Hinv).
    + intros *. rewrite Hruns. setoid_rewrite Hslot. apply (gv_rows _ _ Hinv).
    + intros gi' gg i r. rewrite Hat. destruct (decide (gi' = gi)) as [->|]; [|apply (gv_srv _ _ Hinv)].
      unfold new_group. intros [= <-]. cbn [g_servers]. intros ->%zlookup_replicate_inv. by rewrite Hno.
    + intros *. rewrite Hruns. apply (gv_insts _ _ Hinv).
  - intros gi' i. cbn [groups set_groups net]. rewrite Hat. destruct (decide (gi' = gi)); [done|apply Hno].
Qed.

Lemma StartServer_setup n cfg gi i names mnames cfg' :
  setup n cfg → StartServer cfg gi i names mnames = Ok cfg' →
  setup n cfg' ∧ i < 3 ∧ (∃ a, runs cfg' gi i a) ∧
  (∀ gi' i' a, runs cfg gi' i' a → ∃ a', runs cfg' gi' i' a') ∧
  (∀ gi', gi' ≠ gi → zlookup (groups cfg') gi' = zlookup (groups cfg) gi').
Proof.
  intros [Hinv Hno] (gg & gg' & rn & kv & Hst)%StartServer_started.
  pose proof (st_old _ _ _ _ _ _ _ _ _ _ Hst) as Hold.
  assert (Hat : ∀ gi', zlookup (groups cfg') gi' = if decide (gi' = gi) then Some (Some gg') else zlookup (groups cfg) gi')
    by (intros; by apply zlookup_zinsert, (st_groups _ _ _ _ _ _ _ _ _ _ Hst)).
  pose proof (st_runs _ _ _ _ _ _ _ _ _ _ Hst) as Hruns. split_and!.
  - split; [by eapply st_ginv|]. intros gi' i' Hnone. rewrite Hat in Hnone.
    destruct (decide (gi' = gi)) as [|Hne]; [done|]. rewrite (st_servers _ _ _ _ _ _ _ _ _ _ _ Hst Hinv).
    rewrite decide_False; [by apply Hno|]. intros E%(inj inr).
    apply zlookup_Some_lt in Hnone, Hold. apply servername_inj in E as [? _]; lia.
  - pose proof (st_meps _ _ _ _ _ _ _ _ _ _ Hst) as [Hi _]%zinsert_Some.
    destruct (gv_shape _ _ Hinv _ _ Hold) as (_ & _ & _ & _ & Hl). lia.
  - exists (length (insts cfg)). apply Hruns. by rewrite decide_True.
  - intros gi' i' a Hr. setoid_rewrite Hruns. destruct (decide (gi' = gi ∧ i' = i)); eauto.
  - intros gi' Hne. by rewrite Hat, decide_False.
Qed.

Lemma start_each_setup n cfg gi names mnames is_ cfg' :
  setup n cfg → start_each cfg gi names mnames is_ = Ok cfg' →
  setup n cfg' ∧ (∀ i, i ∈ is_ → i < 3 ∧ ∃ a, runs cfg' gi i a) ∧
  (∀ gi' i' a, runs cfg gi' i' a → ∃ a', runs cfg' gi' i' a') ∧
  (∀ gi', gi' ≠ gi → zlookup (groups cfg') gi' = zlookup (groups cfg) gi').
Proof.
  revert cfg. induction is_ as [|i is_ IH]; intros cfg Hs; cbn [start_each].
  { intros [= <-]. split_and!; [done| |eauto|done]. intros i Hi. by apply not_elem_of_nil in Hi. }
  intros (cfg1 & H1 & H)%bind_Ok. apply (StartServer_setup n) in H1 as (Hs1 & Hi & (a & Ha) & Hkeep & Hg); [|done].
  apply IH in H as (Hs' & Hall & Hkeep' & Hg'); [|done]. split_and!; [done| | |].
  - intros j [->|Hj]%elem_of_cons; [|auto]. split; [done|]. by eapply Hkeep'.
  - intros gi' i' a' (a1 & H1)%Hkeep. by eapply Hkeep'.
  - intros gi' Hne. by rewrite Hg', Hg.
Qed.

Lemma start_groups_setup n cfg names mnames gis cfg' :
  setup n cfg → NoDup gis → (∀ gi, gi ∈ gis → zlookup (groups cfg) gi = Some None) →
  start_groups cfg names mnames gis = Ok cfg' →
  setup n cfg' ∧ (∀ gi i, gi ∈ gis → 0 ≤ i < n → i < 3 ∧ ∃ a, runs cfg' gi i a) ∧
  (∀ gi' i' a, runs cfg gi' i' a → ∃ a', runs cfg' gi' i' a').
Proof.
  revert cfg. induction gis as [|gi gis IH]; intros cfg Hs Hnd Hnil; cbn [start_groups].
  { intros [= <-]. split_and!; [done| |eauto]. intros gi i Hi. by apply not_elem_of_nil in Hi. }
  intros (? & Hn%guard_go_Ok%Z.leb_le & H)%bind_Ok. rewrite (gv_n _ _ (su_inv _ _ Hs)) in Hn.
  apply NoDup_cons in Hnd as [Hnew Hnd].
  apply bind_Ok in H as (cfg1 & H1 & H). apply bind_Ok in H as (cfg2 & H2 & H).
  apply (put_new_group n) in H1 as (Hs1 & Hg1 & Hk1); [|done|done|apply Hnil; by left].
  unfold StartGroup in H2. rewrite (gv_n _ _ (su_inv _ _ Hs1)) in H2.
  apply (start_each_setup n) in H2 as (Hs2 & Hall & Hk2 & Hg2); [|done].
  assert (Hne : ∀ gi', gi' ∈ gis → gi' ≠ gi) by (by intros gi' Hin ->).
  apply IH in H as (Hs' & Hall' & Hk'); [|done|done|].
  2: { intros gi' Hin. rewrite Hg2, Hg1 by (by apply Hne). apply Hnil. by right. }
  split_and!; [done| |].
  - intros gi' i [->|Hin]%elem_of_cons Hi; [|by apply Hall'].
    destruct (Hall i) as [Hi3 [a Ha]]; [apply elem_of_seqZ; lia|]. split; [done|]. by eapply Hk'.
  - intros gi' i' a Hr%Hk1. destruct (Hk2 _ _ _ Hr) as [a' Ha']. by eapply Hk'.
Qed.

(** The configuration that [make_config] makes: all servers run, and there are at most three
    of them in a group. *)
Lemma make_config_setup n unreliable mx nm r cfg :
  make_config n unreliable mx nm r = Ok cfg →
  setup n cfg ∧ n ≤ 3 ∧ (∀ gi i, 0 ≤ gi < 3 → 0 ≤ i < n → ∃ a, runs cfg gi i a).
Proof.
  unfold make_config. intros H. apply bind_Ok in H as (cfg1 & H1 & H).
  apply start_masters_inv in H1 as (Hm & Hms & _).
  2: { split; [done|done| |done]. intros j a Hj%zlookup_replicate_inv. done. }
  apply bind_Ok in H as ([cfg2 ck] & H2 & H). unfold shardclerk in H2.
  apply bind_Ok in H2 as (rn & Hrn%make_on_ends_spec & [= <- <-]).
  pose proof (ne_servers _ _ _ Hrn) as Hsv. cbn [net set_net masterservers insts] in H.
  apply bind_Ok in H as (cfg3 & H3 & [= <-]).
  set (cfg0 := MkShC _ _ _ _ _ _ _ _ _ _ _) in H3.
  assert (Hnone : ∀ gi gg, zlookup (groups cfg0) gi ≠ Some (Some gg))
    by (intros gi gg Hg%zlookup_replicate_inv; done).
  assert (Hs0 : setup n cfg0).
  { split.
    - apply ginv_no_groups; [exact Hnone|done|done| |].
      + intros j a Hj. cbn [cfg0 net insts]. rewrite Hsv. by apply (mi_ok _ Hm).
      + intros j Hj. apply Hms, elem_of_seqZ. lia.
    - intros gi i _. cbn [cfg0 net]. rewrite Hsv. apply (mi_none _ Hm). }
  apply (start_groups_setup n) in H3 as ([Hinv Hno] & Hall & _);
    [|exact Hs0|apply NoDup_seqZ|intros gi Hgi%elem_of_seqZ; unfold cfg0; cbn [groups];
      assert (gi = 0 ∨ gi = 1 ∨ gi = 2) as [->|[->| ->]] by lia; done].
  assert (Hgin : ∀ gi, 0 ≤ gi < 3 → gi ∈ seqZ 0 3) by (intros; apply elem_of_seqZ; lia). split_and!.
  - split; [|done]. eapply same_shape_ginv; [exact Hinv|]. split; try done. apply same_server_refl.
  - destruct (decide (n ≤ 3)); [done|]. destruct (Hall 0 3) as [? _]; [by apply Hgin|lia|lia].
  - intros gi i Hgi Hi. by apply Hall; [apply Hgin|].
Qed.

Lemma greachable_inv n cfg : greachable n cfg → ginv n cfg ∧ n ≤ 3.
Proof.
  induction 1 as [unreliable mx nm r cfg H|cfg o cfg' _ [IH ?] H].
  - by apply make_config_setup in H as ([? _] & ? & _).
  - split; [by eapply gstep_ginv|done].
Qed.

(** ** Properties *)

Lemma servers_run n cfg gi gg i a :
  ginv n cfg → zlookup (groups cfg) gi = Some (Some gg) → 0 ≤ i < n →
  servers (net cfg) !! inr (servername (100 + gi) i) = Some (Some a) ↔ runs cfg gi i a.
Proof.
  intros Hinv Hg Hi. destruct (gv_shape _ _ Hinv _ _ Hg) as (_ & Hl & _).
  destruct (zlookup_lt_Some (g_servers gg) i) as [r Hr]; [lia|].
  pose proof (gv_srv _ _ Hinv _ _ _ _ Hg Hr) as Hs. split.
  - intros E. rewrite E in Hs. simpl in Hs. exists gg. by rewrite Hr, Hs.
  - intros (gg2 & Hg2 & Hr2). rewrite Hg in Hg2. injection Hg2 as <-. rewrite Hr in Hr2. injection Hr2 as ->.
    destruct (servers (net cfg) !! _) as [x|]; simpl in Hs; congruence.
Qed.

Lemma slot_range n cfg gi b i j e : ginv n cfg → slot cfg gi b i j e → 0 ≤ j < width n b.
Proof.
  intros Hinv (gg & Hg & He). destruct (gv_shape _ _ Hinv _ _ Hg) as (_ & _ & Hrow & Hmrow & _).
  unfold endname_at in He. apply bind_Ok in He as (l & Hl%must_Ok & He%must_Ok).
  apply zlookup_Some_lt in He. destruct l as [l|]; simpl in He; [|unfold len in He; simpl in He; lia].
  destruct b; simpl; [rewrite <- (Hmrow i l Hl)|rewrite <- (Hrow i l Hl)]; lia.
Qed.

(** C40. Whatever servers are shut down and started again: a group has at most three servers; the
    end of a running server to a server of its group reaches the instance that runs now, if
    one does, and its end to a shard master reaches that master; a server that does not run
    is connected to nobody, and none of its ends is enabled. *)
Theorem groups_connected n cfg :
  greachable n cfg →
  n ≤ 3 ∧
  (∀ gi i a, runs cfg gi i a →
     (∃ kv, insts cfg !! a = Some (inr kv) ∧ skv_gid kv = 100 + gi ∧ skv_me kv = i) ∧
     (∀ j, 0 ≤ j < n → ∃ e, slot cfg gi false i j e ∧
        ∀ a', LabRpc.connected (net cfg) e (inr (servername (100 + gi) j)) a' ↔ runs cfg gi j a') ∧
     (∀ j, 0 ≤ j < 3 → ∃ e a', slot cfg gi true i j e ∧ zlookup (masterservers cfg) j = Some (Some a') ∧
        LabRpc.connected (net cfg) e (inr (mastername j)) a')) ∧
  (∀ gi gg i, zlookup (groups cfg) gi = Some (Some gg) → 0 ≤ i < n → (∀ a, ¬ runs cfg gi i a) →
     (∀ e a, ¬ LabRpc.connected (net cfg) e (inr (servername (100 + gi) i)) a) ∧
     ∀ b j e, slot cfg gi b i j e → ¬ is_on (net cfg) e).
Proof.
  intros [Hinv Hn]%greachable_inv. split_and!; [done| |].
  - intros gi i a Hr. split_and!; [by apply (gv_insts _ _ Hinv)| |].
    + intros j Hj. destruct (gv_rows _ _ Hinv gi i a false j Hr Hj) as [e He]. exists e. split; [done|].
      intros a'. destruct Hr as (gg & Hg & Hr). rewrite <- (servers_run n cfg gi gg j a' Hinv Hg Hj).
      unfold LabRpc.connected. fold (is_on (net cfg) e). rewrite (gv_on _ _ Hinv _ _ _ _ _ He), (gv_conn _ _ Hinv _ _ _ _ _ He).
      split; [by intros (_ & _ & ?)|]. intros Hs. split_and!; [|done|done]. exists a, gg. done.
    + intros j Hj. destruct (gv_rows _ _ Hinv gi i a true j Hr Hj) as [e He].
      destruct (gv_mrun _ _ Hinv j Hj) as [a' Ha']. exists e, a'. split_and!; [done|done|].
      split_and!; [by apply (gv_on _ _ Hinv _ _ _ _ _ He); exists a|by apply (gv_conn _ _ Hinv _ _ _ _ _ He)|].
      by apply (gv_masters _ _ Hinv).
  - intros gi gg i Hg Hi Hno. split.
    + intros e a (_ & _ & Hs). rewrite (servers_run n cfg gi gg i a Hinv Hg Hi) in Hs. by apply Hno in Hs.
    + intros b j e Hs. rewrite (gv_on _ _ Hinv _ _ _ _ _ Hs). intros [a Ha]. by apply Hno in Ha.
Qed.

(** The names that are passed to the shard masters. *)
Lemma join_names_spec cfg gis m m' g names :
  join_names cfg gis m = Ok m' → m' !! g = Some names →
  m !! g = Some names ∨
  ∃ gi gg, gi ∈ gis ∧ zlookup (groups cfg) gi = Some (Some gg) ∧ g = gid gg ∧
    names = servername (gid gg) <$> seqZ 0 (cfg_n cfg).
Proof.
  revert m. induction gis as [|gi gis IH]; intros m; cbn [join_names].
  { intros [= <-]. by left. }
  intros (gg & Hgg%get_group_Ok & H)%bind_Ok Hl. apply bind_Ok in H as (? & _ & H).
  destruct (IH _ H Hl) as [Hm|(gi' & gg' & Hin & ?)].
  - destruct (decide (g = gid gg)) as [->|Hne].
    + rewrite lookup_insert_eq in Hm. injection Hm as <-. right. exists gi, gg. split; [by left|done].
    + rewrite lookup_insert_ne in Hm by done. by left.
  - right. exists gi', gg'. split; [by right|done].
Qed.

(** The names that the harness hands to the shard masters lead clients to the right servers:
    when groups join, the [i]-th name that a group is registered with is one that [make_end]
    turns into an end to the instance of server [i] of that group that runs now, and to
    nothing if none runs. *)
Theorem joined_names_reach n cfg gis m g names i s name cfg' :
  greachable n cfg → join_names cfg gis ∅ = Ok m → m !! g = Some names → zlookup names i = Some s →
  make_end cfg s name = Ok cfg' →
  ∃ gi, gi ∈ gis ∧ g = 100 + gi ∧ s = servername g i ∧ 0 ≤ i < n ∧
    ∀ a, LabRpc.connected (net cfg') name (inr s) a ↔ runs cfg gi i a.
Proof.
  intros [Hinv _]%greachable_inv Hj Hm Hs Hend.
  destruct (join_names_spec _ _ _ _ _ _ Hj Hm) as [Hbad|(gi & gg & Hin & Hg & -> & ->)]; [by rewrite lookup_empty in Hbad|].
  destruct (gv_shape _ _ Hinv _ _ Hg) as (Hgid & _). rewrite (gv_n _ _ Hinv), Hgid in *.
  unfold zlookup in Hs. case_decide as H0; [|done]. rewrite list_lookup_fmap in Hs.
  apply fmap_Some in Hs as (k & [-> Hk]%lookup_seqZ & ->). assert (0 + Z.of_nat (Z.to_nat i) = i) as Ei by lia.
  rewrite Ei in *. exists gi. split_and!; [done|done|done|lia|lia|]. intros a.
  unfold make_end in Hend. apply bind_Ok in Hend as (rn & [Hf Hnd He Hon Hc Ho Hsv]%make_on_ends_spec & [= <-]).
  rewrite <- (servers_run n cfg gi gg i a Hinv Hg) by lia. unfold LabRpc.connected. cbn [net set_net].
  rewrite Hsv, (Hc name (servername (100 + gi) i)) by (by left).
  split; [by intros (_ & _ & ?)|]. intros Hr. split_and!; [|done|done]. apply Hon. right. by left.
Qed.
End harness.

(** ** Three groups of one server *)
Definition demo_names : new_names := {|
  nm_master i j := "m" +:+ Itoa (3 * i + j);
  nm_clerk j := "c" +:+ Itoa j;
  nm_group gi i j := "g" +:+ Itoa gi;
  nm_group_master gi i j := "h" +:+ Itoa (3 * gi + j);
|}.
Definition no_config : @config Z := MkShC MakeNetwork 0 [] None 0 0 [] ∅ 0 0 [].
Definition config_of (o : outcome (@config Z)) : @config Z := match o with Ok cfg => cfg | _ => no_config end.
Definition three : @config Z := config_of (make_config 1 false (-1) demo_names 7).
(** The server of group 0 is shut down. *)
Definition two : @config Z := config_of (ShutdownServer three 0 0).

Lemma shard_config_Ok o : match o with Ok _ => true | _ => false end = true → o = Ok (config_of o).
Proof. by destruct o. Qed.

Lemma three_groups_ok : make_config 1 false (-1) demo_names 7 = Ok three.
Proof. apply shard_config_Ok. vm_compute. reflexivity. Qed.
Lemma two_groups_reachable : greachable 1 two.
Proof.
  apply (greach_step _ three (GShutdown 0 0)); [exact (greach_make _ _ _ _ _ _ three_groups_ok)|].
  apply shard_config_Ok. vm_compute. reflexivity.
Qed.

(** Tests that compute whether a server runs. *)
Definition running (cfg : @config Z) (gi i : Z) : option nat :=
  match zlookup (groups cfg) gi with
  | Some (Some gg) => default None (zlookup (g_servers gg) i)
  | _ => None
  end.
Lemma running_runs cfg gi i a : running cfg gi i = Some a → runs cfg gi i a.
Proof.
  unfold running, runs. destruct (zlookup (groups cfg) gi) as [[gg|]|]; [|done..]. intros H. exists gg.
  split; [done|]. by destruct (zlookup (g_servers gg) i) as [[]|]; simplify_eq/=.
Qed.
Lemma not_running cfg gi i : running cfg gi i = None → ∀ a, ¬ runs cfg gi i a.
Proof. unfold running. intros H a (gg & Hg & Ha). rewrite Hg, Ha in H. done. Qed.

Lemma two_group0 : ∃ gg, zlookup (groups two) 0 = Some (Some gg).
Proof.
  assert (H : match zlookup (groups two) 0 with Some (Some _) => true | _ => false end = true)
    by (vm_compute; reflexivity).
  destruct (zlookup (groups two) 0) as [[gg|]|]; [by exists gg|discriminate H..].
Qed.

(** The server of group 0 is cut off; the one of group 1 reaches shard master 2. *)
Lemma groups_connected_witness :
  (∀ e a, ¬ LabRpc.connected (net two) e (inr (servername 100 0)) a) ∧
  ∃ e a, slot two 1 true 0 2 e ∧ LabRpc.connected (net two) e (inr (mastername 2)) a.
Proof.
  destruct (groups_connected 1 two two_groups_reachable) as (_ & Hrun & Hstop). split.
  - destruct two_group0 as [gg Hg]. apply (Hstop 0 gg 0 Hg); [lia|].
    apply not_running. vm_compute. reflexivity.
  - destruct (Hrun 1 0 4%nat) as (_ & _ & Hm); [apply running_runs; vm_compute; reflexivity|].
    destruct (Hm 2) as (e & a & Hs & _ & Hc); [lia|]. exists e, a. split; [exact Hs|exact Hc].
Defined.

(** Groups 0 and 1 join; the name registered for group 1 leads to its server. *)
Lemma joined_names_reach_witness :
  ∃ m cfg', join_names two [0; 1] ∅ = Ok m ∧ make_end two "server-101-0" "x" = Ok cfg' ∧
    LabRpc.connected (net cfg') "x" (inr "server-101-0") 4%nat.
Proof.
  set (cfg' := config_of (make_end two "server-101-0" "x")).
  assert (Hend : make_end two "server-101-0" "x" = Ok cfg') by (apply shard_config_Ok; vm_compute; reflexivity).
  destruct (join_names two [0; 1] ∅) as [m| |] eqn:Hj.
  - assert (Hm : match join_names two [0; 1] ∅ with Ok m => m !! 101 | _ => None end = Some ["server-101-0"])
      by (vm_compute; reflexivity).
    rewrite Hj in Hm. exists m, cfg'. split_and!; [reflexivity|exact Hend|].
    destruct (joined_names_reach 1 two [0; 1] m 101 ["server-101-0"] 0 "server-101-0" "x" cfg')
      as (gi & _ & Hg & _ & _ & Hc); [exact two_groups_reachable|exact Hj|exact Hm|reflexivity|exact Hend|].
    apply Hc. replace gi with 1 by lia. apply running_runs. vm_compute. reflexivity.
  - assert (Hb : match join_names two [0; 1] ∅ with Ok _ => true | _ => false end = true)
      by (vm_compute; reflexivity). rewrite Hj in Hb. discriminate Hb.
  - assert (Hb : match join_names two [0; 1] ∅ with Ok _ => true | _ => false end = true)
      by (vm_compute; reflexivity). rewrite Hj in Hb. discriminate Hb.
Defined.

(** ** What modelling showed *)

(** A clerk stores its [cfg.nmasters] names in a slice of length [cfg.n]: with fewer than three
    servers in a group [makeClient] panics. *)
Lemma makeClient_few_servers names r : makeClient two names r = Panic.
Proof.
  unfold makeClient. assert (E : (0 <=? cfg_n two) = true) by (vm_compute; reflexivity). rewrite E.
  assert (E' : (nmasters two <=? cfg_n two) = false) by (vm_compute; reflexivity). rewrite E'. reflexivity.
Qed.

(** The slices of names of ends to the masters are indexed by server but have length
    [cfg.nmasters]: no group can have more than three servers. *)
Lemma make_config_many_servers n unreliable mx nm r (cfg : @config Z) :
  3 < n → make_config n unreliable mx nm r ≠ Ok cfg.
Proof. intros Hn H%make_config_setup. destruct H as (_ & ? & _). lia. Qed.
